(* ===== verification/_CoqProject ===== *)
-Q . S2P
Prelude.v
Leb128.v
WasmTypes.v
ValidationError.v
ValidatorState.v
ValidatorControl.v
ValidatorPlain.v
Validator.v
WasmSpec.v
Fetch.v
Checker.v
Machine.v
Refines.v
RefineCases.v
RefineControl.v
ModuleInterface.v
MachineTyping.v
ValidatorCorrect.v
ValidatorTheorems.v
CaseTheorems.v
Utf8.v
Utf8Correct.v
Utf8Words.v
ParserBase.v
ParserSpec.v
ParserRefine.v
TypeSection.v
ExternTypes.v
Names.v
ImportSection.v
FunctionSection.v
TableMemorySections.v
ConstExpr.v
GlobalSection.v
ExportSection.v
StartSection.v
SegmentSections.v
CodeSection.v
ModuleParser.v
SectionTheorems.v
OrderTable.v
Binfmt.v
ModuleSpec.v
ModuleWf.v
ModuleRefine.v
ModuleTheorems.v
EntityTheorems.v
IeeeBits.v
StrictFloat.v
StrictFloatCorrect.v
ExtendedCorrect.v
FloatTheorems.v
IntegerSpec.v
NumericOps.v
NumericTheorems.v
LinearMemory.v
LinearMemoryCorrect.v
MemoryTheorems.v
GrowProtocol.v
GrowProtocolCorrect.v
WeakMemory.v
GrowthTheorems.v
Interpreter.v
FlatWasm.v
FlatTyping.v
InterpreterRep.v
InterpreterCorrect.v
InterpreterTheorems.v
WasmExec.v
FlatLayout.v
TranslatorState.v
Translator.v
TranslatorRep.v
TranslatorPlain.v
TranslatorCorrect.v
TranslatorJumps.v
TranslatorFunction.v
Frame.v
TranslatorSafe.v
TranslatorTheorems.v
