(* ===== verification/Prelude.v ===== *)
(** * uwvm2: from the bytes of a WebAssembly module to running code

    uwvm2 is a WebAssembly virtual machine written as C++ headers. A module goes
    through these parts, in this order:

    - the binary format driver ([src/src/uwvm2/parser/wasm/binfmt/]) checks the header,
      reads the identifier and the length of each section, enforces their order and calls
      the handler of the section;
    - the section parsers ([src/src/uwvm2/parser/wasm/standard/wasm1/features/]) turn the
      contents of a section into vectors of types, imports, functions, tables, memories,
      globals, exports, segments and code bodies. Every count, index and constant is read
      by fast_io's LEB128 scanner
      ([src/third-parties/fast_io/.../serializations/leb128.h]), every name is checked by
      [src/src/uwvm2/utils/utf/utf8.h];
    - the code validator
      ([src/src/uwvm2/validation/standard/wasm1/validator.h], [validate_code])
      walks each function body once, keeping a control-flow stack and a typed
      operand stack, and throws a [wasm_parse_code] after filling a
      [code_validation_error_impl] when the body is not well typed. The cases of
      its [switch] are what the interpreter relies on, which runs the code without
      further checks; the translator decodes and checks a body again while it emits code;
    - the translator turns a body into a vector of function pointers and immediates, the
      interpreter ([src/src/uwvm2/runtime/compiler/uwvm_int/optable/]) runs it on an untyped
      stack of bytes, and the numeric instructions use the algorithms of
      [src/src/uwvm2/runtime/compiler/shared/strict_float.h] where the host's own do not
      suffice;
    - linear memories ([src/src/uwvm2/object/memory/linear/]) are read, written and grown
      while the code runs, from several threads; tables, globals, instantiation and WASI
      complete the runtime.

    This development models the first three parts for Release 1.0 of the language. It
    proves that the parser accepts exactly the modules of the binary grammar and stores
    them faithfully, that the modules it stores are those the validator expects, and that
    the validator decides the type system of the specification. Of the rest it models the
    translator and the interpreter for function bodies without calls and float arithmetic,
    the numeric operations, and the linear memories with the protocol that lets them grow
    under concurrent accesses. It proves that translating a validated body and running the
    result in its frame is what the specification says of the body.

    ** The model of the code

    - [Prelude]: machine integers at their width ([u8], [u32], [uz]), the state
      and exception monad the code is written in ([SM]: a result, a thrown error
      object, [Undefined] for an unchecked access out of range or [OutOfFuel] for
      a loop that exceeds its bound), and shared lemmas and tactics.
    - [Leb128]: [scn_cnt_define_leb128_impl] and its loops,
      and the printer [leb128_put].

    The validator:

    - [WasmTypes]: opcodes ([wasm1_code]), value types, function types, limits
      and the parts of the module storage [validate_code] reads.
    - [ValidationError]: error codes and payloads ([validation/error/error.h]).
    - [ValidatorState]: the state of [validate_code] ([vstate]: the cursor, the
      control-flow stack, the operand stack and the polymorphic flag), the values
      its prologue computes ([venv]) and the lambdas every case shares
      ([try_pop_concrete_operand], [concrete_operand_count], ...).
    - [ValidatorControl], [ValidatorPlain]: one definition per [case] of the
      [switch], or per lambda several cases call.
    - [Validator]: [validate_step] (one iteration of the [for(;;)] loop),
      [validate_loop], the prologue and [validate_code].

    The parser:

    - [Utf8]: [check_legal_utf8_rfc3629_unchecked], as a loop over bytes and as the loop
      that skips ASCII by words and decodes a sequence from one 32-bit load.
    - [ParserBase]: the error object and limits of the section parsers, the storage
      they fill ([sections]), the cursor over the bytes of the module, the checked
      counters and the loop over the entries of a section ([parser/wasm/base],
      [parser/wasm/utils], [features/feature_def.h], [features/def.h]).
    - [TypeSection], [FunctionSection], [CodeSection]: the handlers of
      [features/type_section.h], [features/function_section.h] and
      [features/code_section.h], with [features/final_check.h]. The function
      section stores type indices in one of five representations, the first a
      zero-copy view of the module; its 16-byte block loop is modelled beside the
      scalar one. Stored pointers are offsets into the module, decoded by
      [decode_types], [vt_contents] and [decode_code].
    - [ExternTypes] ([features/types.h], and the lists of imports and exports by kind),
      [Names], [ImportSection], [TableMemorySections]: the sections that declare
      entities. [ConstExpr]: the initializer expressions, which the code repeats in
      [global_section.h], [element_section.h] and [data_section.h]. [GlobalSection],
      [ExportSection], [StartSection], [SegmentSections]: the handlers of the headers of
      the same names.
    - [OrderTable]: the hash table of custom section names of
      [binfmt/binfmt_ver1/handler_def.h]. Its digest, xxh3, is an argument.
    - [Binfmt]: the custom section, the dispatch to the handlers, the loop over the
      sections and [wasm_binfmt_ver1_handle_func]; [parse_module] runs it on an empty
      storage. Its arguments [wide], [simd128] and [digest] are the choices a build makes.
    - [ModuleParser]: the type, function and code handlers and the final check in
      sequence, beside any storage for the other sections.

    Execution:

    - [StrictFloat]: the algorithms of [runtime/compiler/shared/strict_float.h] on encodings:
      rounding to an integer, minimum and maximum, comparison, saturation, conversion, and
      arithmetic through extended registers, whose processor is an argument.
    - [NumericOps]: the integer operations, comparisons and truncations of
      [optable/numeric.h], [optable/compare.h] and [optable/convert.h].
    - [LinearMemory]: memories that are one allocation ([allocator.h]), their growth, and the
      64-bit ranges, bulk operations and growth of [runtime/compiler/shared/wasm_memory64.h].
      The allocator is an argument; [AllocatorLaws] is what it documents.
    - [GrowProtocol]: the two guards of [allocator.h] as a transition system of any number of
      threads, one atomic operation at a time ([move], [step]). [WeakMemory]: candidate
      executions of the C++ memory model and the accesses of the protocol in it.
    - [Interpreter]: the functions of [optable] in the mode without tail calls and the loop of
      [execute_compiled_defined]. [opfunc] has one constructor per function, [exec_opfunc] its
      body; a [machine] is the instruction pointer, the bytes of the operand stack and of the
      locals, the globals and the memories. The code is a list of slots, so that a function
      pointer and an immediate occupy one index each; the arithmetic of the pointer into the
      bytecode is that of indices. An access outside the stack, the locals, the code or an
      allocation is [Undefined].
    - [TranslatorState], [Translator]: [compile_all_from_uwvm/translate/], which decodes and
      validates a body again and emits its code. [TranslatorState] has the variables of
      [single_func_context.h] ([tstate], [buffers], and [tenv] for what is constant), the
      helpers of [single_func_emit_helpers.h], and the reading of immediates from the bytes:
      indices, block types ([parse_block_type]), and the arguments of memory instructions
      ([validation/standard/wasm3/memory_validation.h]). [Translator] has one definition per
      [case] of the files under [opcode/], which reads its immediates with its own checks, the
      loop, and the end of the function, where the thunks are appended and the addresses of
      labels are patched in. An error has the code that is stored in [err]; its position and
      payload are left out.
    - [Frame]: [execute_compiled_defined_once], which sets up the locals and the operand
      region of a call, runs the code and moves the results.

    The stacks are lists whose head is [back()]; pointers into a body are offsets
    from [code_begin], pointers into a module offsets from its first byte, and pointers to
    stored entries indices. Every loop of the code that is not over a list takes fuel:
    [validate_loop] one more unit than there are bytes in the body, the loops over the
    entries of a section and over a constant expression one more than there are bytes left
    in the section, the loop over sections one more than there are bytes in the module, the
    loops of the UTF-8 checker one more than there are bytes in the string. Every iteration
    consumes a byte. [validate_code_total], [core_sections_total],
    [module_total] and [utf8_check_outcome] show that no fuel is
    used up, so that no theorem holds because the model stopped early. A program may run
    forever: the fuel of [exec_loop] is a number of rounds, and [interpreter_refines_wasm]
    says for every number that the machine has performed as many steps when it runs out.
    [translate_loop] has one more unit than there are bytes in the body, which
    [translate_function_safe] shows to be enough on any bytes; the fuel of
    [execute_compiled_defined_once] is again a number of rounds, and
    [validated_function_runs] says what a number that runs out means.

    ** The specification and the proof

    - [WasmSpec]: instructions as a syntax tree, the binary grammar of expressions
      and the declarative typing rules of the WebAssembly specification. Nothing
      in it refers to the code.
    - [Fetch]: a decoder of one instruction, equivalent to the grammar.
    - [Checker]: the algorithmic stack checker for one control frame, sound and
      complete for the typing rules.
    - [Machine]: a machine whose frames own their operands, with one step per
      decoded token; [st] maps its states to states of the code.
    - [Refines], [RefineCases], [RefineControl]: each case of the
      [switch] refines one step of the machine, errors included. The cases are
      proved against the class [EnvOk], which states what the prologue promises
      them about the module.
    - [ModuleInterface]: [module_ok], a decidable predicate with what the section
      parsers establish, and the instance of [EnvOk] it gives.
    - [MachineTyping]: accepting runs of the machine and derivations of the type
      system.
    - [ValidatorCorrect]: runs of the loop and runs of the machine.
    - [Utf8Correct], [Utf8Words]: characters and their encoding; the loop over bytes
      decides it, and the loop over words is the loop over bytes.
    - [ParserSpec]: grammars as relations between values and byte strings, and reference
      parsers; the class [ParserOf] states that a parser decides a grammar. The grammar of
      each section stands in the file of its handler.
    - [ParserRefine]: [agrees] and [parses] relate handler code to a reference
      parser: the same bytes consumed, or an exception when the parser fails.
    - [ModuleSpec]: modules ([wmodule]), their grammar ([module_bytes]) and its reference
      parser. [ModuleWf]: what the grammar implies of a module ([wf]), and that it is enough
      for [module_ok]. [ModuleRefine]: the storage that represents a module ([rep]), and
      that the driver takes it from section to section.
    - [IeeeBits]: the values of encodings and correct rounding, without reference to the code.
      [StrictFloatCorrect], [ExtendedCorrect]: the algorithms on encodings compute on values.
      [IntegerSpec]: the integer instructions of the specification.
    - [LinearMemoryCorrect]: well-formed memories and the outcome of a growth.
    - [GrowProtocolCorrect]: an invariant of the system, and a measure that the steps of some
      thread decrease in every reachable state that is not at rest.
    - [FlatWasm]: the machine of the specification on instructions with resolved labels and
      typed values, [FlatTyping]: a type system for them in which a typed program is never
      stuck. [InterpreterRep]: the layout of code and values as slots and bytes, and the
      simulation relation. [InterpreterCorrect]: one lemma per function of [optable], and
      their composition into runs.
    - [WasmExec]: the steps of the specification on the structured instructions of
      [WasmSpec], with continuations. Nothing in it refers to the code.
    - [FlatLayout]: when a part of a flat program is the code of structured instructions, and
      that such a program does what the structured code does, step by step.
    - [TranslatorRep]: the buffers of the translator against flat programs, and what each
      emission helper adds. [TranslatorPlain] also shows that a case reads the bytes that the
      grammar has for its instruction ([opens]). [TranslatorPlain], [TranslatorJumps], [TranslatorFunction]: each
      case, on typed code, by the kind of instruction; [TranslatorCorrect] has the invariant
      and the statement for sequences, [TranslatorFunction] that for functions.
    - [Frame] also shows that a laid out body in its frame keeps its operands in their region
      and reads no byte before it is written.
    - [TranslatorSafe]: a program logic for the operations of the translator on arbitrary
      bytes, with the invariant of its labels, its frames and its cursor.

    ** The theorems

    - [ModuleTheorems], about [parse_module]: from accepted bytes to typed functions; it
      accepts exactly the grammar and stores what was encoded; it is total; every index of
      an accepted module is in range; after any sections in their order, one out of order or a
      second one of the same kind is rejected; the result does
      not depend on the choices of the build.
    - [EntityTheorems]: the import, global, export and element handlers accept exactly the
      grammar of their section; the error of a constant of the wrong type; the UTF-8
      checker finds the longest legal prefix, with either loop; the hash table of custom
      section names is the map it was built from, for every digest.
    - [ValidatorTheorems]: soundness and completeness of [validate_code] for the
      type system, totality (any bytes are accepted or rejected with an exception;
      no unchecked access of the code is out of range; the error position lies
      inside the body), the step simulation, the invariant of reachable states,
      and what happens to bytes after the final [end].
    - Completeness holds for bodies that do not contain both [select] and
      [br_table]. [br_table_unknown_rejected] shows why: [br_table] compares the
      operand types without asking whether they are unknown, so that a well-typed
      body in which [select] leaves an unknown operand for it is rejected.
    - [CaseTheorems]: complete outcomes, with the order and payload of errors, of
      representative cases and of the lookups of locals and globals.
    - [SectionTheorems]: the type, function and code handlers accept exactly the grammar
      of their section; the block loop of the function section is equivalent to the scalar
      one; the three in sequence are total and establish [module_ok], beside any other
      sections whose counts are within [counts_ok].
    - [Leb128]: the scanner accepts exactly the grammar of [uN] and [sN], within
      bounds, and inverts the printer.
    - [FloatTheorems], [NumericTheorems]: each operation gives the result of the
      specification for every operand, NaNs, infinities, signed zeros, subnormal numbers and
      overflow included, or the trap the specification asks for.
    - [MemoryTheorems]: growth and bulk copy, with every refusal and without overflow.
    - [GrowthTheorems]: under sequential consistency accesses and growth exclude each other
      and no thread waits forever; with the acquire orderings of the code, which do not order
      a store before a later load, the memory model admits an overlap.
    - [InterpreterTheorems]: the interpreter refines the typed machine of the specification,
      for any number of rounds, on every well-typed body.
    - [TranslatorTheorems]: from the bytes that [validate_code] accepts, through the
      translator and the interpreter, to the results of the structured execution; and the
      translator is total and stays within the code, its stacks and its buffers on any bytes,
      validated or not. Where a body contains [memory.grow], the limit of its memory has to be
      at most 2^32 bytes: without a declared maximum the translator emits [SIZE_MAX], with which
      [memory.grow] does more than the specification allows.

    ** What is not modelled

    Checks compiled only under [UWVM_ENABLE_DETAILED_DEBUG_CHECK] (they abort on
    states the theorems exclude), allocation failure, the printing of sections and the text
    of error messages. The handlers are modelled for the feature set of Release 1.0 on a
    64-bit target: the branches that later releases add, their validators and their
    sections are left out. Of the function section the block loops wider than 16 bytes and
    those that decode two-byte indices by shuffling, of the UTF-8 checker the vector loops
    and the specifications other than RFC 3629 are left out; so is the computation of xxh3.
    Of [strict_float.h] the fast path through the host's rounding, square roots and the
    68881 are left out; memories reserved by [mmap] are, too. The interpreter is modelled
    without calls, tables, references, float arithmetic, vectors and combined opcodes, and
    not in the mode with tail calls and a register cache. The translator is modelled for the
    same code and mode, without exceptions, loop unwinding, reordering, the function bodies it
    recognizes as a whole and the polls of the tiered mode; its model throws [NotModelled], and
    stops, at an instruction that is not modelled and at a block type that starts with [0x63] or
    [0x64]. The code is a list of slots, so that
    the alignment of the frame and the bytes of addresses are not visible. The interpreter's
    model runs alone: the guards it takes around a memory access are those of [GrowProtocol],
    and its host is little-endian.
    Instantiation, the LLVM JIT, WASI and the command line are not modelled. *)

From stdpp Require Import base list list_numbers numbers strings.
From Stdlib Require Import ZArith Lia.


(** ** Machine integers

    A w-bit unsigned object is a [Z] in [0, 2^w); every arithmetic expression
    of the source whose type is such an integer is wrapped explicitly. *)

(** [lia] with division and remainder by constants. *)
Ltac Zify.zify_post_hook ::= Z.to_euclidean_division_equations.

Open Scope Z_scope.

Definition wrap (digits z : Z) : Z := z mod 2 ^ digits.
Definition u8 (z : Z) : Z := wrap 8 z.
Definition u32 (z : Z) : Z := wrap 32 z.
(** [std::size_t] on the 64-bit targets. *)
Definition uz (z : Z) : Z := wrap 64 z.
Definition size_t_max : Z := 2 ^ 64 - 1.

(** Two's complement reading of a [digits]-bit unsigned value. *)
Definition to_signed (digits z : Z) : Z :=
  if z <? 2 ^ (digits - 1) then z else z - 2 ^ digits.

(** Length of a vector as an integer. *)
Definition zlen {A} (l : list A) : Z := Z.of_nat (length l).

(** ** Outcomes

    What running a piece of C++ can do: finish with a value, throw (the error
    object filled through the [err] reference is carried along), execute an
    access the source leaves unchecked outside its range, or exhaust the bound
    the model puts on a loop. *)

Inductive outcome (E A : Type) : Type :=
| Done (a : A)
| Thrown (e : E)
| Undefined
| OutOfFuel.
Arguments Done {_ _} _.
Arguments Thrown {_ _} _.
Arguments Undefined {_ _}.
Arguments OutOfFuel {_ _}.

(** State-and-outcome monad: [S] is the mutable state of the modelled function. *)
Definition SM (S E A : Type) : Type := S -> outcome E (A * S).

#[global] Instance sm_ret {S E} : MRet (SM S E) := fun A a s => Done (a, s).
#[global] Instance sm_bind {S E} : MBind (SM S E) := fun A B k m s =>
  match m s with
  | Done (a, s') => k a s'
  | Thrown e => Thrown e
  | Undefined => Undefined
  | OutOfFuel => OutOfFuel
  end.

Declare Scope sm_scope.
Delimit Scope sm_scope with sm.
(** [⟦ m ⟧ s ⇓ r]: run from [s], [m] finishes with [r]; [⟦ m ⟧ s ⇑ e]: it throws [e]. *)
Notation "⟦ m ⟧ s ⇓ r" := (m s = Done r) (at level 70, m at level 200, s at level 10) : sm_scope.
Notation "⟦ m ⟧ s ⇑ e" := (m s = Thrown e) (at level 70, m at level 200, s at level 10) : sm_scope.
Open Scope sm_scope.

Section Primitives.
Context {S E : Type}.

Definition sm_get : SM S E S := fun s => Done (s, s).
Definition sm_gets {A} (f : S -> A) : SM S E A := fun s => Done (f s, s).
Definition sm_modify (f : S -> S) : SM S E unit := fun s => Done (tt, f s).
Definition sm_throw {A} (e : E) : SM S E A := fun _ => Thrown e.
Definition sm_fuel {A} : SM S E A := fun _ => OutOfFuel.
(** [v.index_unchecked(i)], [*p], [v.back_unchecked()]: no bounds check. *)
Definition sm_unchecked {A} (o : option A) : SM S E A := fun s =>
  match o with Some a => Done (a, s) | None => Undefined end.
Definition sm_when (b : bool) (m : SM S E unit) : SM S E unit :=
  if b then m else mret tt.

Lemma bind_done {A B} (m : SM S E A) (k : A -> SM S E B) s a s' :
  ⟦ m ⟧ s ⇓ (a, s') -> (m ≫= k) s = k a s'.
Proof. unfold mbind, sm_bind. by intros ->. Qed.

Lemma bind_thrown {A B} (m : SM S E A) (k : A -> SM S E B) s e :
  ⟦ m ⟧ s ⇑ e -> ⟦ m ≫= k ⟧ s ⇑ e.
Proof. unfold mbind, sm_bind. by intros ->. Qed.

Lemma bind_done_inv {A B} (m : SM S E A) (k : A -> SM S E B) s r :
  ⟦ m ≫= k ⟧ s ⇓ r -> exists a s', ⟦ m ⟧ s ⇓ (a, s') /\ ⟦ k a ⟧ s' ⇓ r.
Proof.
  unfold mbind, sm_bind. destruct (m s) as [[a s'] | | |] eqn:H; try done.
  eauto.
Qed.
End Primitives.

(** Running a sequence, one statement at a time. *)
Section Binds.
Context {S E A B : Type}.
Implicit Types (s : S).

Lemma bind_get (k : S -> SM S E B) s : (sm_get ≫= k) s = k s s.
Proof. done. Qed.
Lemma bind_gets (f : S -> A) (k : A -> SM S E B) s : (sm_gets f ≫= k) s = k (f s) s.
Proof. done. Qed.
Lemma bind_modify (f : S -> S) (k : unit -> SM S E B) s : (sm_modify f ≫= k) s = k tt (f s).
Proof. done. Qed.
Lemma bind_ret (a : A) (k : A -> SM S E B) s : ((mret a : SM S E A) ≫= k) s = k a s.
Proof. done. Qed.
Lemma bind_throw (e : E) (k : A -> SM S E B) s : ((sm_throw e : SM S E A) ≫= k) s = Thrown e.
Proof. done. Qed.
Lemma bind_some (a : A) (k : A -> SM S E B) s : ((sm_unchecked (Some a) : SM S E A) ≫= k) s = k a s.
Proof. done. Qed.
End Binds.

Lemma sm_bind_assoc {S E A B D} (m : SM S E A) (k1 : A -> SM S E B) (k2 : B -> SM S E D) (s : S) :
  ((m ≫= k1) ≫= k2) s = (m ≫= fun a => k1 a ≫= k2) s.
Proof. unfold mbind, sm_bind. by destruct (m s) as [[] | | |]. Qed.

Create Rewrite HintDb sm.
#[export] Hint Rewrite @bind_get @bind_gets @bind_modify @bind_ret @bind_throw @bind_some : sm.

(** ** Bits and powers *)

Lemma lor_shiftl_add a b n :
  0 <= n -> 0 <= a < 2 ^ n -> Z.lor a (Z.shiftl b n) = a + b * 2 ^ n.
Proof.
  intros Hn Ha.
  assert (Hd : Z.land a (Z.shiftl b n) = 0).
  { apply Z.bits_inj'. intros i Hi. rewrite Z.land_spec, Z.bits_0.
    destruct (Z.lt_ge_cases i n).
    - rewrite (Z.shiftl_spec_low b n i) by lia. by rewrite andb_false_r.
    - rewrite <- (Z.mod_small a (2 ^ n)) by lia.
      by rewrite Z.mod_pow2_bits_high by lia. }
  rewrite <- (Z.shiftl_mul_pow2 b n) by lia.
  by rewrite Z.add_nocarry_lxor, Z.lxor_lor by done.
Qed.

Lemma land_127 b : Z.land b 127 = b mod 2 ^ 7.
Proof. change 127 with (Z.ones 7). by rewrite Z.land_ones by lia. Qed.

(** Testing one bit with a mask, for a value known modulo twice that bit. *)
Lemma land_pow2_eqb b k :
  0 <= k -> 0 <= b < 2 ^ (k + 1) -> (Z.land b (2 ^ k) =? 0) = (b <? 2 ^ k).
Proof.
  intros Hk Hb.
  assert (Hp : 0 < 2 ^ k) by (apply Z.pow_pos_nonneg; lia).
  rewrite Z.pow_add_r in Hb by lia. change (2 ^ 1) with 2 in Hb.
  assert (Hl : Z.land b (2 ^ k) = if b <? 2 ^ k then 0 else 2 ^ k).
  { apply Z.bits_inj'. intros i Hi.
    rewrite Z.land_spec, (Z.pow2_bits_eqb k i) by lia.
    destruct (Z.eqb_spec k i) as [<- | Hne].
    - rewrite andb_true_r, Z.testbit_odd, Z.shiftr_div_pow2 by lia.
      destruct (Z.ltb_spec b (2 ^ k)).
      + rewrite Z.div_small by lia. by rewrite Z.bits_0.
      + replace (b / 2 ^ k) with 1 by (apply (Z.div_unique b (2 ^ k) 1 (b - 2 ^ k)); lia).
        by rewrite Z.pow2_bits_true by lia.
    - rewrite andb_false_r. destruct (b <? 2 ^ k); [by rewrite Z.bits_0 |].
      rewrite Z.pow2_bits_false by lia. done. }
  rewrite Hl. destruct (b <? 2 ^ k); [done |]. apply Z.eqb_neq. lia.
Qed.

(** ** Options

    Inversion of a successful chain of optional steps. *)

Ltac option_inv :=
  repeat match goal with
  | H : mbind _ _ = Some _ |- _ => apply bind_Some in H as (? & ? & ?)
  | H : (match ?x with pair _ _ => _ end) = Some _ |- _ => destruct x; simpl in H
  | H : (if ?b then _ else _) = Some _ |- _ => destruct b eqn:?; [try done | try done]
  | H : Some _ = Some _ |- _ => injection H as H; try subst
  | H : None = Some _ |- _ => discriminate H
  | H : (_, _) = (_, _) |- _ => injection H as ? ?; try subst
  end.

Lemma option_bind_guard {A B} (b : bool) (o : option A) (f : A -> option B) :
  ((if b then None else o) ≫= f) = if b then None else o ≫= f.
Proof. by destruct b. Qed.

Lemma option_bind_guard' {A B} (b : bool) (o : option A) (f : A -> option B) :
  ((if b then o else None) ≫= f) = if negb b then None else o ≫= f.
Proof. by destruct b. Qed.

(** ** Lists *)

Lemma forallb_Forall {A} (f : A -> bool) l : forallb f l = true <-> Forall (fun x => f x = true) l.
Proof.
  induction l as [| x l IH]; simpl; [by split |].
  rewrite andb_true_iff, IH. by rewrite Forall_cons.
Qed.

(** A partial map that is defined on every element keeps positions. *)
Lemma lookup_omap_total {A B} (f : A -> option B) l i :
  Forall (fun x => is_Some (f x)) l -> omap f l !! i = x ← l !! i; f x.
Proof.
  intros H. revert i. induction H as [| x l [y Hy] Hl IH]; intros i; [done |].
  change (omap f (x :: l)) with (match f x with Some y => y :: omap f l | None => omap f l end).
  rewrite Hy. destruct i as [| i]; simpl; [done | apply IH].
Qed.

Lemma length_omap_total {A B} (f : A -> option B) l :
  Forall (fun x => is_Some (f x)) l -> length (omap f l) = length l.
Proof.
  induction 1 as [| x l [y Hy] Hl IH]; [done |].
  change (omap f (x :: l)) with (match f x with Some y => y :: omap f l | None => omap f l end).
  rewrite Hy. simpl. by rewrite IH.
Qed.
