(* ===== verification/Leb128.v ===== *)
(** * LEB128 integers

    fast_io's LEB128 scanner and printer, the primitive through which every
    count, index and immediate of a module is read
    ([third-parties/fast_io/include/fast_io_freestanding_impl/serializations/leb128.h]).
    The scanner is related to the binary grammar [uN] / [sN] of the WebAssembly
    specification, and printing followed by scanning is the identity. *)

From stdpp Require Import base list list_numbers numbers.
From Stdlib Require Import ZArith Lia.
From S2P Require Import Prelude.

Inductive parse_code :=
| pc_ok
| pc_end_of_file
| pc_partial
| pc_invalid
| pc_overflow.

#[global] Instance parse_code_eq_dec : EqDecision parse_code.
Proof. solve_decision. Defined.

(** [parse_result]: the returned iterator is the number of bytes the scanner
    moved over; [pr_value] is the object written through the reference. *)
Record parse_result := ParseResult {
  pr_iter : nat;
  pr_code : parse_code;
  pr_value : Z
}.

Section Scan.
(** [digits]: bits of the destination; [is_signed]: its signedness. *)
Context (digits : Z) (is_signed : bool).

Definition remains : Z := digits mod 7.
Definition lower_limit : Z := if remains =? 0 then 0 else Z.shiftl 1 (remains - 1).
Definition upper_limit : Z :=
  if remains =? 0 then 127 else Z.land (Z.shiftl 255 (remains - 1)) 127.

(** The overflow test of one group. *)
Definition leb128_group_overflows (cnt byte : Z) : bool :=
  (digits - 7 <? cnt) &&
  ((digits <? cnt) ||
   if is_signed then (lower_limit <=? byte) && (byte <? upper_limit)
   else Z.shiftl 1 remains <=? byte).

Definition of_unsigned (z : Z) : Z := if is_signed then to_signed digits z else z.

Fixpoint leb128_scan_loop (begin : list Z) (iter : nat) (cnt tmp : Z) : parse_result :=
  match begin with
  | [] => ParseResult iter pc_invalid 0
  | b :: begin' =>
      let sign := negb (Z.land b 128 =? 0) in
      let byte := Z.land b 127 in
      let iter := S iter in
      if leb128_group_overflows cnt byte then ParseResult iter pc_overflow 0
      else
        let tmp := Z.lor tmp (wrap digits (Z.shiftl byte cnt)) in
        if negb sign then
          let tmp :=
            if is_signed && negb (Z.land byte 64 =? 0) && (cnt <? digits - 7)
            then Z.lor tmp (wrap digits (Z.shiftl (2 ^ digits - 1) (cnt + 7)))
            else tmp in
          ParseResult iter pc_ok (of_unsigned tmp)
        else leb128_scan_loop begin' iter (cnt + 7) tmp
  end.

Definition scn_cnt_define_leb128_impl (begin : list Z) : parse_result :=
  leb128_scan_loop begin 0 0 0.

(** The printer. [value] is the integer itself (negative when signed), so
    [value & 0x7f] and the arithmetic shift are [Z.land] and [Z.shiftr]. The
    fuel bounds the [for(;;)] loop; [None] is an unfinished loop. *)
Fixpoint pr_rsv_leb128_impl (fuel : nat) (value : Z) : option (list Z) :=
  match fuel with
  | O => None
  | S fuel =>
      let temp := Z.land value 127 in
      let value := Z.shiftr value 7 in
      let last :=
        if is_signed then
          let iszero := value =? 0 in
          if iszero || (value =? -1)
          then negb (Bool.eqb iszero (negb (Z.land temp 64 =? 0)))
          else false
        else value =? 0 in
      if last then Some [temp]
      else rest ← pr_rsv_leb128_impl fuel value; Some (Z.lor temp 128 :: rest)
  end.

(** Bytes the printer reserves: [ceil (digits / 7)]. *)
Definition print_reserve_size_leb128_length : nat :=
  Z.to_nat ((if digits mod 7 =? 0 then 0 else 1) + digits / 7).

Definition leb128_put (value : Z) : option (list Z) :=
  pr_rsv_leb128_impl print_reserve_size_leb128_length value.
End Scan.

(** ** The grammar of the specification (binary format, integers) *)

Inductive uN : Z -> list Z -> Z -> Prop :=
| uN_last N n : 0 <= n < 2 ^ 7 -> n < 2 ^ N -> uN N [n] n
| uN_more N n bs m :
    2 ^ 7 <= n < 2 ^ 8 -> 7 < N -> uN (N - 7) bs m ->
    uN N (n :: bs) (2 ^ 7 * m + (n - 2 ^ 7)).

Inductive sN : Z -> list Z -> Z -> Prop :=
| sN_pos N n : 0 <= n < 2 ^ 6 -> n < 2 ^ (N - 1) -> sN N [n] n
| sN_neg N n : 2 ^ 6 <= n < 2 ^ 7 -> 2 ^ 7 - 2 ^ (N - 1) <= n -> sN N [n] (n - 2 ^ 7)
| sN_more N n bs m :
    2 ^ 7 <= n < 2 ^ 8 -> 7 < N -> sN (N - 7) bs m ->
    sN N (n :: bs) (2 ^ 7 * m + (n - 2 ^ 7)).

(** The destination widths of the code base. *)
Definition leb_width (digits : Z) : Prop :=
  digits = 8 \/ digits = 16 \/ digits = 32 \/ digits = 64.

Definition is_byte (b : Z) : Prop := 0 <= b < 2 ^ 8.

(** ** Lemmas on one group *)

Lemma leb_width_pos digits : leb_width digits -> 8 <= digits /\ digits mod 7 <> 0.
Proof. intros [-> | [-> | [-> | ->]]]; lia. Qed.

Lemma pow_split digits cnt :
  0 <= cnt <= digits -> 2 ^ digits = 2 ^ cnt * 2 ^ (digits - cnt).
Proof. intros. rewrite <- Z.pow_add_r by lia. f_equal. lia. Qed.

Lemma pow_ge_128 N : 7 <= N -> 128 <= 2 ^ N.
Proof. intros. change 128 with (2 ^ 7). apply Z.pow_le_mono_r; lia. Qed.

Lemma shiftl_small digits cnt byte :
  0 <= cnt <= digits -> 0 <= byte < 2 ^ (digits - cnt) ->
  wrap digits (Z.shiftl byte cnt) = Z.shiftl byte cnt.
Proof.
  intros Hc Hb. unfold wrap. rewrite Z.shiftl_mul_pow2 by lia.
  apply Z.mod_small. rewrite (pow_split digits cnt) by lia.
  assert (0 < 2 ^ cnt) by (apply Z.pow_pos_nonneg; lia). nia.
Qed.

(** Adding a group that fits below the destination width is plain addition. *)
Lemma group_add digits cnt tmp byte :
  0 <= cnt <= digits -> 0 <= tmp < 2 ^ cnt -> 0 <= byte < 2 ^ (digits - cnt) ->
  Z.lor tmp (wrap digits (Z.shiftl byte cnt)) = tmp + 2 ^ cnt * byte.
Proof.
  intros Hc Ht Hb. rewrite shiftl_small, lor_shiftl_add by lia. lia.
Qed.

Lemma group_overflow_late digits is_signed cnt byte :
  leb_width digits -> digits < cnt -> leb128_group_overflows digits is_signed cnt byte = true.
Proof.
  intros Hw Hc. unfold leb128_group_overflows.
  assert ((digits - 7 <? cnt) = true) as -> by lia.
  assert ((digits <? cnt) = true) as -> by lia. done.
Qed.

Lemma remains_last digits cnt :
  leb_width digits -> cnt mod 7 = 0 -> digits - 7 < cnt < digits -> remains digits = digits - cnt.
Proof. unfold remains. intros [-> | [-> | [-> | ->]]] ? ?; lia. Qed.

Lemma group_overflow_u digits cnt byte :
  leb_width digits -> cnt mod 7 = 0 -> 0 <= cnt < digits -> 0 <= byte < 128 ->
  leb128_group_overflows digits false cnt byte = negb (byte <? 2 ^ (digits - cnt)).
Proof.
  intros Hw Hm Hc Hb. unfold leb128_group_overflows.
  destruct (Z.ltb_spec (digits - 7) cnt) as [Hl | Hl]; simpl.
  - rewrite (remains_last digits cnt) by (done || lia).
    assert ((digits <? cnt) = false) as -> by lia. simpl.
    rewrite Z.shiftl_1_l. lia.
  - pose proof (pow_ge_128 (digits - cnt)). lia.
Qed.

Lemma limits_last digits cnt :
  leb_width digits -> cnt mod 7 = 0 -> digits - 7 < cnt < digits ->
  lower_limit digits = 2 ^ (digits - cnt - 1) /\
  upper_limit digits = 128 - 2 ^ (digits - cnt - 1).
Proof.
  intros Hw Hm Hc. unfold lower_limit, upper_limit.
  rewrite (remains_last digits cnt) by done.
  assert (HN : digits - cnt = 1 \/ digits - cnt = 2 \/ digits - cnt = 4)
    by (destruct Hw as [-> | [-> | [-> | ->]]]; lia).
  destruct HN as [-> | [-> | ->]]; done.
Qed.

Lemma group_overflow_s digits cnt byte :
  leb_width digits -> cnt mod 7 = 0 -> 0 <= cnt < digits -> 0 <= byte < 128 ->
  leb128_group_overflows digits true cnt byte =
  (digits - cnt <? 7) && (2 ^ (digits - cnt - 1) <=? byte) &&
  (byte <? 128 - 2 ^ (digits - cnt - 1)).
Proof.
  intros Hw Hm Hc Hb. unfold leb128_group_overflows.
  destruct (Z.ltb_spec (digits - 7) cnt) as [Hl | Hl]; simpl.
  - destruct (limits_last digits cnt) as [-> ->]; [done | done | lia |].
    assert ((digits <? cnt) = false) as -> by lia.
    assert ((digits - cnt <? 7) = true) as -> by lia. done.
  - assert ((digits - cnt <? 7) = false) as -> by lia. done.
Qed.

Lemma byte_split b :
  is_byte b -> 0 <= Z.land b 127 < 128 /\
  negb (Z.land b 128 =? 0) = (128 <=? b) /\
  Z.land b 127 = if 128 <=? b then b - 128 else b.
Proof.
  unfold is_byte. intros Hb. change (2 ^ 8) with 256 in Hb.
  rewrite land_127. change (2 ^ 7) with 128.
  assert (Hl : (Z.land b 128 =? 0) = (b <? 128)).
  { apply (land_pow2_eqb b 7); simpl; lia. }
  rewrite Hl.
  destruct (Z.leb_spec 128 b); (split; [lia | split; [lia | lia]]).
Qed.

Lemma bit6 byte : 0 <= byte < 128 -> negb (Z.land byte 64 =? 0) = (64 <=? byte).
Proof.
  intros Hb. assert (Hl : (Z.land byte 64 =? 0) = (byte <? 64)).
  { apply (land_pow2_eqb byte 6); simpl; lia. }
  rewrite Hl. lia.
Qed.

Lemma cnt_next digits cnt :
  leb_width digits -> cnt mod 7 = 0 -> 7 < digits - cnt -> (cnt + 7) mod 7 = 0 /\ cnt + 7 < digits.
Proof. intros Hw Hm Hc. split; [| lia]. lia. Qed.

Lemma scan_late digits is_signed bs it cnt tmp :
  leb_width digits -> digits < cnt ->
  pr_code (leb128_scan_loop digits is_signed bs it cnt tmp) <> pc_ok.
Proof.
  intros Hw Hc. destruct bs as [| b bs]; simpl; [done |].
  by rewrite group_overflow_late.
Qed.

(** Once fewer than seven bits are left, a continuation bit leads past the width. *)
Lemma cnt_last digits cnt :
  leb_width digits -> cnt mod 7 = 0 -> cnt < digits -> ~ 7 < digits - cnt -> digits < cnt + 7.
Proof. intros [-> | [-> | [-> | ->]]] ? ? ?; lia. Qed.

(** ** The unsigned scanner against the grammar *)

Lemma scan_step_u digits b bs it cnt tmp :
  leb_width digits -> cnt mod 7 = 0 -> 0 <= cnt < digits -> 0 <= tmp < 2 ^ cnt -> is_byte b ->
  leb128_scan_loop digits false (b :: bs) it cnt tmp =
  let byte := if 128 <=? b then b - 128 else b in
  if byte <? 2 ^ (digits - cnt) then
    if 128 <=? b then leb128_scan_loop digits false bs (S it) (cnt + 7) (tmp + 2 ^ cnt * byte)
    else ParseResult (S it) pc_ok (tmp + 2 ^ cnt * byte)
  else ParseResult (S it) pc_overflow 0.
Proof.
  intros Hw Hm Hc Ht Hb. destruct (byte_split b Hb) as (Hr & Hs & He).
  cbn [leb128_scan_loop]. rewrite Hs, group_overflow_u by done.
  rewrite <- He. cbn zeta.
  destruct (Z.ltb_spec (Z.land b 127) (2 ^ (digits - cnt))); simpl; [| done].
  rewrite group_add by lia. by destruct (128 <=? b).
Qed.

Lemma scan_u_sound digits bs it cnt tmp it' v :
  leb_width digits -> cnt mod 7 = 0 -> 0 <= cnt < digits -> 0 <= tmp < 2 ^ cnt ->
  Forall is_byte bs ->
  leb128_scan_loop digits false bs it cnt tmp = ParseResult it' pc_ok v ->
  exists k m, it' = (it + k)%nat /\ (k <= length bs)%nat /\
    uN (digits - cnt) (take k bs) m /\ v = tmp + 2 ^ cnt * m.
Proof.
  intros Hw. revert it cnt tmp.
  induction bs as [| b bs IH]; intros it cnt tmp Hm Hc Ht HF Hs; [done |].
  inversion_clear HF as [| ? ? Hb HF']. rewrite scan_step_u in Hs by done.
  cbn zeta in Hs. unfold is_byte in Hb. revert Hs.
  destruct (Z.leb_spec 128 b) as [Hge | Hlt];
    (case_match eqn:HN; [apply Z.ltb_lt in HN | done]); intros Hs.
  - destruct (Z.lt_ge_cases 7 (digits - cnt)) as [Hmore | Hend].
    + destruct (IH (S it) (cnt + 7) (tmp + 2 ^ cnt * (b - 128))) as (k & m & -> & Hk & Hu & ->);
        [lia | lia | | done | done |].
      { rewrite Z.pow_add_r by lia. change (2 ^ 7) with 128. nia. }
      exists (S k), (2 ^ 7 * m + (b - 2 ^ 7)). split_and!; [lia | simpl; lia | |].
      * simpl. apply uN_more; [lia | lia |].
        replace (digits - cnt - 7) with (digits - (cnt + 7)) by lia. done.
      * rewrite Z.pow_add_r by lia. change (2 ^ 7) with 128. ring.
    + exfalso. eapply (scan_late digits false bs (S it) (cnt + 7)); [done | |].
      * apply cnt_last; (done || lia).
      * by rewrite Hs.
  - simplify_eq. exists 1%nat, b. simpl. split_and!; [lia | lia | | done].
    rewrite take_0. apply uN_last; lia.
Qed.

Lemma scan_u_complete digits N bs m :
  leb_width digits -> uN N bs m -> forall rest it cnt tmp,
  N = digits - cnt -> cnt mod 7 = 0 -> 0 <= cnt < digits -> 0 <= tmp < 2 ^ cnt ->
  leb128_scan_loop digits false (bs ++ rest) it cnt tmp =
  ParseResult (it + length bs) pc_ok (tmp + 2 ^ cnt * m).
Proof.
  intros Hw Hu. induction Hu as [N n Hn HN | N n bs m Hn HN Hu IH];
    intros rest it cnt tmp -> Hm Hc Ht.
  - simpl app. rewrite scan_step_u by (done || unfold is_byte; lia). cbn zeta.
    rewrite (proj2 (Z.leb_gt 128 n)) by lia. rewrite (proj2 (Z.ltb_lt n _)) by lia.
    f_equal. simpl. lia.
  - simpl app. rewrite scan_step_u by (done || unfold is_byte; lia). cbn zeta.
    rewrite (proj2 (Z.leb_le 128 n)) by lia.
    pose proof (pow_ge_128 (digits - cnt)).
    rewrite (proj2 (Z.ltb_lt (n - 128) _)) by lia.
    rewrite IH; [| lia | lia | lia |].
    + f_equal; [simpl; lia |]. rewrite Z.pow_add_r by lia. change (2 ^ 7) with 128. ring.
    + rewrite Z.pow_add_r by lia. change (2 ^ 7) with 128. nia.
Qed.

(** ** The signed scanner against the grammar *)

Lemma wrap_all_ones digits k :
  0 <= k <= digits ->
  wrap digits (Z.shiftl (2 ^ digits - 1) k) = Z.shiftl (2 ^ (digits - k) - 1) k.
Proof.
  intros Hk. unfold wrap. rewrite !Z.shiftl_mul_pow2 by lia.
  rewrite (pow_split digits k) at 2 by lia. rewrite (pow_split digits k) by lia.
  assert (0 < 2 ^ k) by (apply Z.pow_pos_nonneg; lia).
  assert (0 < 2 ^ (digits - k)) by (apply Z.pow_pos_nonneg; lia).
  symmetry. apply (Z.mod_unique_pos _ _ (2 ^ k - 1)); nia.
Qed.

Lemma pow_half n : 1 <= n -> 2 ^ n = 2 * 2 ^ (n - 1).
Proof. intros. rewrite <- Z.pow_succ_r by lia. f_equal. lia. Qed.

(** The value written when the last group [b] is read, more than seven bits left. *)
Lemma signed_last_wide digits cnt tmp b :
  0 <= cnt -> 7 < digits - cnt -> 0 <= tmp < 2 ^ cnt -> 0 <= b < 128 ->
  to_signed digits
    (if 64 <=? b
     then Z.lor (tmp + 2 ^ cnt * b) (wrap digits (Z.shiftl (2 ^ digits - 1) (cnt + 7)))
     else tmp + 2 ^ cnt * b) =
  tmp + 2 ^ cnt * (if 64 <=? b then b - 128 else b).
Proof.
  intros Hc HN Ht Hb. unfold to_signed.
  assert (Hp : 0 < 2 ^ cnt) by (apply Z.pow_pos_nonneg; lia).
  assert (H7 : 2 ^ (cnt + 7) = 128 * 2 ^ cnt) by (rewrite Z.pow_add_r by lia; lia).
  assert (Hlt : 0 <= tmp + 2 ^ cnt * b < 128 * 2 ^ cnt) by nia.
  assert (Hhalf : b < 64 -> tmp + 2 ^ cnt * b < 64 * 2 ^ cnt) by nia.
  assert (Hge : 64 <= b -> 64 * 2 ^ cnt <= tmp + 2 ^ cnt * b) by nia.
  assert (HD : 2 ^ digits = 2 ^ (digits - (cnt + 7)) * (128 * 2 ^ cnt)).
  { rewrite <- H7, <- Z.pow_add_r by lia. f_equal. lia. }
  assert (Hq : 2 <= 2 ^ (digits - (cnt + 7))).
  { change 2 with (2 ^ 1) at 1. apply Z.pow_le_mono_r; lia. }
  pose proof (pow_half digits ltac:(lia)) as Hh.
  destruct (Z.leb_spec 64 b).
  - rewrite wrap_all_ones by lia. rewrite lor_shiftl_add, H7 by lia.
    destruct (Z.ltb_spec (tmp + 2 ^ cnt * b + (2 ^ (digits - (cnt + 7)) - 1) * (128 * 2 ^ cnt))
                (2 ^ (digits - 1))); nia.
  - destruct (Z.ltb_spec (tmp + 2 ^ cnt * b) (2 ^ (digits - 1))); nia.
Qed.

(** The same with fewer than seven bits left. *)
Lemma signed_last_narrow digits cnt tmp b :
  0 <= cnt -> 1 <= digits - cnt < 7 -> 0 <= tmp < 2 ^ cnt -> 0 <= b < 128 ->
  ~ (2 ^ (digits - cnt - 1) <= b < 128 - 2 ^ (digits - cnt - 1)) ->
  to_signed digits (Z.lor tmp (wrap digits (Z.shiftl b cnt))) =
  tmp + 2 ^ cnt * (if 64 <=? b then b - 128 else b).
Proof.
  intros Hc HN Ht Hb Hrange.
  assert (Hp : 0 < 2 ^ cnt) by (apply Z.pow_pos_nonneg; lia).
  set (N := digits - cnt) in *.
  assert (HD : 2 ^ digits = 2 ^ N * 2 ^ cnt) by (rewrite Z.mul_comm; apply pow_split; lia).
  assert (HD1 : 2 ^ (digits - 1) = 2 ^ (N - 1) * 2 ^ cnt).
  { rewrite <- Z.pow_add_r by lia. f_equal. lia. }
  pose proof (pow_half N ltac:(lia)) as HNh.
  assert (H64 : 2 ^ (N - 1) <= 32).
  { change 32 with (2 ^ 5). apply Z.pow_le_mono_r; lia. }
  assert (Hpos : 0 < 2 ^ (N - 1)) by (apply Z.pow_pos_nonneg; lia).
  assert (Hq : exists q, 128 = q * 2 ^ N).
  { exists (2 ^ (7 - N)). rewrite <- Z.pow_add_r by lia. by replace (7 - N + N) with 7 by lia. }
  destruct Hq as [q Hq].
  assert (Hw : wrap digits (Z.shiftl b cnt) = Z.shiftl (b mod 2 ^ N) cnt).
  { unfold wrap. rewrite !Z.shiftl_mul_pow2, HD by lia. rewrite Z.mul_mod_distr_r by lia. done. }
  rewrite Hw, lor_shiftl_add by lia. unfold to_signed. rewrite HD, HD1.
  destruct (Z.leb_spec 64 b).
  - replace (b mod 2 ^ N) with (b - 128 + 2 ^ N)
      by (apply (Z.mod_unique_pos _ _ (q - 1)); nia).
    destruct (Z.ltb_spec (tmp + (b - 128 + 2 ^ N) * 2 ^ cnt) (2 ^ (N - 1) * 2 ^ cnt)); nia.
  - rewrite Z.mod_small by lia.
    destruct (Z.ltb_spec (tmp + b * 2 ^ cnt) (2 ^ (N - 1) * 2 ^ cnt)); nia.
Qed.

Lemma scan_step_s digits b bs it cnt tmp :
  leb_width digits -> cnt mod 7 = 0 -> 0 <= cnt < digits -> 0 <= tmp < 2 ^ cnt -> is_byte b ->
  leb128_scan_loop digits true (b :: bs) it cnt tmp =
  let byte := if 128 <=? b then b - 128 else b in
  if (digits - cnt <? 7) && (2 ^ (digits - cnt - 1) <=? byte) && (byte <? 128 - 2 ^ (digits - cnt - 1))
  then ParseResult (S it) pc_overflow 0
  else
    if 128 <=? b then
      leb128_scan_loop digits true bs (S it) (cnt + 7)
        (if 7 <? digits - cnt then tmp + 2 ^ cnt * byte
         else Z.lor tmp (wrap digits (Z.shiftl byte cnt)))
    else ParseResult (S it) pc_ok (tmp + 2 ^ cnt * (if 64 <=? byte then byte - 128 else byte)).
Proof.
  intros Hw Hm Hc Ht Hb. destruct (byte_split b Hb) as (Hr & Hs & He).
  cbn [leb128_scan_loop]. rewrite Hs, group_overflow_s, (bit6 _ Hr) by done.
  rewrite <- He. cbn zeta. set (byte := Z.land b 127) in *.
  destruct ((digits - cnt <? 7) && _ && _) eqn:Hov; [done |].
  assert (Hwide : 7 < digits - cnt -> Z.lor tmp (wrap digits (Z.shiftl byte cnt)) = tmp + 2 ^ cnt * byte).
  { intros. pose proof (pow_ge_128 (digits - cnt)). apply group_add; lia. }
  destruct (128 <=? b); simpl.
  - destruct (Z.ltb_spec 7 (digits - cnt)); [| done]. by rewrite Hwide.
  - f_equal. destruct (Z.ltb_spec cnt (digits - 7)).
    + rewrite Hwide, andb_true_r by lia. apply signed_last_wide; lia.
    + rewrite andb_false_r. pose proof (cnt_last digits cnt Hw Hm).
      apply signed_last_narrow; lia.
Qed.

Lemma scan_s_sound digits bs it cnt tmp it' v :
  leb_width digits -> cnt mod 7 = 0 -> 0 <= cnt < digits -> 0 <= tmp < 2 ^ cnt ->
  Forall is_byte bs ->
  leb128_scan_loop digits true bs it cnt tmp = ParseResult it' pc_ok v ->
  exists k m, it' = (it + k)%nat /\ (k <= length bs)%nat /\
    sN (digits - cnt) (take k bs) m /\ v = tmp + 2 ^ cnt * m.
Proof.
  intros Hw. revert it cnt tmp.
  induction bs as [| b bs IH]; intros it cnt tmp Hm Hc Ht HF Hs; [done |].
  inversion_clear HF as [| ? ? Hb HF']. rewrite scan_step_s in Hs by done.
  cbn zeta in Hs. unfold is_byte in Hb. revert Hs.
  destruct (Z.leb_spec 128 b) as [Hge | Hlt]; (case_match eqn:Hov; [done |]); intros Hs.
  - destruct (Z.ltb_spec 7 (digits - cnt)) as [Hmore | Hend].
    + destruct (IH (S it) (cnt + 7) (tmp + 2 ^ cnt * (b - 128))) as (k & m & -> & Hk & Hu & ->);
        [lia | lia | | done | done |].
      { rewrite Z.pow_add_r by lia. change (2 ^ 7) with 128. nia. }
      exists (S k), (2 ^ 7 * m + (b - 2 ^ 7)). split_and!; [lia | simpl; lia | |].
      * simpl. apply sN_more; [lia | lia |].
        replace (digits - cnt - 7) with (digits - (cnt + 7)) by lia. done.
      * rewrite Z.pow_add_r by lia. change (2 ^ 7) with 128. ring.
    + exfalso. eapply (scan_late digits true bs (S it) (cnt + 7)); [done | |].
      * apply cnt_last; (done || lia).
      * by rewrite Hs.
  - simplify_eq.
    assert (H7 : 7 <= digits - cnt -> 64 <= 2 ^ (digits - cnt - 1)).
    { intros. change 64 with (2 ^ 6). apply Z.pow_le_mono_r; lia. }
    assert (Hsmall : digits - cnt < 7 -> 2 ^ (digits - cnt - 1) <= 32).
    { intros. change 32 with (2 ^ 5). apply Z.pow_le_mono_r; lia. }
    exists 1%nat, (if 64 <=? b then b - 128 else b).
    split_and!; [lia | simpl; lia | | done]. simpl. rewrite take_0.
    destruct (Z.leb_spec 64 b); [apply (sN_neg _ b) | apply sN_pos]; lia.
Qed.

Lemma scan_s_complete digits N bs m :
  leb_width digits -> sN N bs m -> forall rest it cnt tmp,
  N = digits - cnt -> cnt mod 7 = 0 -> 0 <= cnt < digits -> 0 <= tmp < 2 ^ cnt ->
  leb128_scan_loop digits true (bs ++ rest) it cnt tmp =
  ParseResult (it + length bs) pc_ok (tmp + 2 ^ cnt * m).
Proof.
  intros Hw Hu. induction Hu as [N n Hn HN | N n Hn HN | N n bs m Hn HN Hu IH];
    intros rest it cnt tmp -> Hm Hc Ht; simpl app;
    (rewrite scan_step_s by (done || unfold is_byte; lia)); cbn zeta.
  - rewrite (proj2 (Z.leb_gt 128 n)), (proj2 (Z.leb_gt 64 n)) by lia.
    rewrite (proj2 (Z.leb_gt _ n)) by lia. rewrite andb_false_r. simpl. f_equal. lia.
  - rewrite (proj2 (Z.leb_gt 128 n)), (proj2 (Z.leb_le 64 n)) by lia.
    rewrite (proj2 (Z.ltb_ge n _)) by lia. rewrite andb_false_r. f_equal. simpl. lia.
  - rewrite (proj2 (Z.leb_le 128 n)), (proj2 (Z.ltb_lt 7 _)) by lia.
    rewrite (proj2 (Z.ltb_ge (digits - cnt) 7)) by lia. simpl.
    rewrite IH; [| lia | lia | lia |].
    + f_equal; [lia |]. rewrite Z.pow_add_r by lia. change (2 ^ 7) with 128. ring.
    + rewrite Z.pow_add_r by lia. change (2 ^ 7) with 128. nia.
Qed.

(** ** Facts about the grammar *)

Lemma uN_bounds N bs v :
  uN N bs v -> 0 < N -> 0 <= v < 2 ^ N /\ (1 <= length bs)%nat /\ 7 * (zlen bs - 1) < N.
Proof.
  unfold zlen. induction 1 as [N n Hn HN | N n bs m Hn HN Hu IH]; intros HP; simpl.
  - lia.
  - destruct IH as (Hv & Hl & Hk); [lia |]. split_and!; [nia | | lia | lia].
    replace N with (7 + (N - 7)) by lia. rewrite Z.pow_add_r by lia. lia.
Qed.

Lemma sN_bounds N bs v :
  sN N bs v -> 0 < N ->
  - 2 ^ (N - 1) <= v < 2 ^ (N - 1) /\ (1 <= length bs)%nat /\ 7 * (zlen bs - 1) < N.
Proof.
  unfold zlen. induction 1 as [N n Hn HN | N n Hn HN | N n bs m Hn HN Hu IH]; intros HP; simpl.
  - assert (0 < 2 ^ (N - 1)) by (apply Z.pow_pos_nonneg; lia). lia.
  - assert (0 < 2 ^ (N - 1)) by (apply Z.pow_pos_nonneg; lia). lia.
  - destruct IH as (Hv & Hl & Hk); [lia |].
    replace (N - 1) with (7 + (N - 7 - 1)) by lia. rewrite Z.pow_add_r by lia.
    split_and!; lia.
Qed.

Lemma uN_length_nonzero N bs v : uN N bs v -> (1 <= length bs)%nat.
Proof. destruct 1; simpl; lia. Qed.

Lemma sN_length_nonzero N bs v : sN N bs v -> (1 <= length bs)%nat.
Proof. destruct 1; simpl; lia. Qed.

(** ** The scanner decides the grammar *)

Lemma leb_scan_u digits bs n v :
  leb_width digits -> Forall is_byte bs ->
  scn_cnt_define_leb128_impl digits false bs = ParseResult n pc_ok v <->
  (n <= length bs)%nat /\ uN digits (take n bs) v.
Proof.
  intros Hw HF. unfold scn_cnt_define_leb128_impl. pose proof (leb_width_pos digits Hw).
  split.
  - intros Hs. apply scan_u_sound in Hs as (k & m & Hn & Hk & Hu & Hv); try (done || lia).
    rewrite Z.sub_0_r in Hu. assert (v = m) as -> by lia. by subst n.
  - intros [Hn Hu]. pose proof (scan_u_complete digits digits _ _ Hw Hu (drop n bs) 0%nat 0 0) as Hs.
    rewrite take_drop, length_take_le in Hs by lia.
    rewrite Hs by lia. f_equal. lia.
Qed.

Lemma leb_scan_s digits bs n v :
  leb_width digits -> Forall is_byte bs ->
  scn_cnt_define_leb128_impl digits true bs = ParseResult n pc_ok v <->
  (n <= length bs)%nat /\ sN digits (take n bs) v.
Proof.
  intros Hw HF. unfold scn_cnt_define_leb128_impl. pose proof (leb_width_pos digits Hw).
  split.
  - intros Hs. apply scan_s_sound in Hs as (k & m & Hn & Hk & Hu & Hv); try (done || lia).
    rewrite Z.sub_0_r in Hu. assert (v = m) as -> by lia. by subst n.
  - intros [Hn Hu]. pose proof (scan_s_complete digits digits _ _ Hw Hu (drop n bs) 0%nat 0 0) as Hs.
    rewrite take_drop, length_take_le in Hs by lia.
    rewrite Hs by lia. f_equal. lia.
Qed.

(** The iterator never leaves the input, whatever the code returned. *)
Lemma leb_scan_iter digits is_signed bs it cnt tmp :
  (it <= pr_iter (leb128_scan_loop digits is_signed bs it cnt tmp) <= it + length bs)%nat.
Proof.
  revert it cnt tmp. induction bs as [| b bs IH]; intros it cnt tmp; simpl; [lia |].
  repeat case_match; simpl; try lia.
  match goal with |- context [leb128_scan_loop _ _ _ _ ?c ?t] => specialize (IH (S it) c t) end.
  lia.
Qed.

(** C39: the LEB128 scanner, on a destination of 8, 16, 32 or 64 bits of either
    signedness, succeeds with value [v] after [n] bytes exactly when those [n]
    bytes are a [uN] (respectively [sN]) encoding of [v] in the grammar of the
    specification: overlong encodings within ceil(N/7) bytes are accepted, unused
    bits that do not fit are rejected. *)
Theorem leb128_scan_iff_grammar digits is_signed bs n v :
  leb_width digits -> Forall is_byte bs ->
  scn_cnt_define_leb128_impl digits is_signed bs = ParseResult n pc_ok v <->
  (n <= length bs)%nat /\ (if is_signed then sN else uN) digits (take n bs) v.
Proof. destruct is_signed; [apply leb_scan_s | apply leb_scan_u]. Qed.

Lemma leb128_scan_iff_grammar_witness :
  leb_width 32 /\ Forall is_byte [229; 142; 38; 11] /\
  (scn_cnt_define_leb128_impl 32 false [229; 142; 38; 11] = ParseResult 3 pc_ok 624485 <->
   (3 <= 4)%nat /\ uN 32 [229; 142; 38] 624485).
Proof.
  assert (Hw : leb_width 32) by (right; right; left; reflexivity).
  assert (HF : Forall is_byte [229; 142; 38; 11]) by (repeat constructor; done).
  split; [exact Hw | split; [exact HF |]].
  exact (leb128_scan_iff_grammar 32 false [229; 142; 38; 11] 3 624485 Hw HF).
Defined.

(** A successful scan consumes at least one byte and at most ceil(N/7) of the
    bytes available, and the object written is in the range of the destination type. *)
Theorem leb128_scan_bounds digits is_signed bs n v :
  leb_width digits -> Forall is_byte bs ->
  scn_cnt_define_leb128_impl digits is_signed bs = ParseResult n pc_ok v ->
  (1 <= n <= length bs)%nat /\ (n <= print_reserve_size_leb128_length digits)%nat /\
  (if is_signed then - 2 ^ (digits - 1) <= v < 2 ^ (digits - 1) else 0 <= v < 2 ^ digits).
Proof.
  intros Hw HF Hs. unfold print_reserve_size_leb128_length.
  destruct is_signed;
    [apply leb_scan_s in Hs as [Hn Hu]; [apply sN_bounds in Hu | ..]
    |apply leb_scan_u in Hs as [Hn Hu]; [apply uN_bounds in Hu | ..]]; try done;
    unfold zlen in *; rewrite ?length_take_le in Hu by lia;
    destruct Hw as [-> | [-> | [-> | ->]]]; simpl in *; lia.
Qed.

Lemma leb128_scan_bounds_witness :
  leb_width 32 /\ Forall is_byte [128; 127] /\
  scn_cnt_define_leb128_impl 32 true [128; 127] = ParseResult 2 pc_ok (-128) /\
  ((1 <= 2 <= 2)%nat /\ (2 <= print_reserve_size_leb128_length 32)%nat /\
   (- 2 ^ (32 - 1) <= -128 < 2 ^ (32 - 1))).
Proof.
  assert (Hw : leb_width 32) by (right; right; left; reflexivity).
  assert (HF : Forall is_byte [128; 127]) by (repeat constructor; done).
  assert (Hs : scn_cnt_define_leb128_impl 32 true [128; 127] = ParseResult 2 pc_ok (-128))
    by (vm_compute; reflexivity).
  split; [exact Hw | split; [exact HF | split; [exact Hs |]]].
  exact (leb128_scan_bounds 32 true [128; 127] 2 (-128) Hw HF Hs).
Defined.

(** ** The printer *)

Lemma lor_128 t : 0 <= t < 128 -> Z.lor t 128 = t + 128.
Proof. intros. change 128 with (Z.shiftl 1 7) at 1. rewrite lor_shiftl_add by lia. lia. Qed.

Lemma put_u_grammar fuel N v :
  0 < N <= 7 * Z.of_nat fuel -> 0 <= v < 2 ^ N ->
  exists bs, pr_rsv_leb128_impl false fuel v = Some bs /\ uN N bs v /\ (length bs <= fuel)%nat.
Proof.
  revert N v. induction fuel as [| fuel IH]; intros N v HN Hv; [lia |]. simpl.
  rewrite land_127, Z.shiftr_div_pow2 by lia. change (2 ^ 7) with 128.
  destruct (Z.eqb_spec (v / 128) 0) as [Hz | Hz].
  - exists [v mod 128]. split_and!; [done | | simpl; lia].
    rewrite Z.mod_small by lia. apply uN_last; lia.
  - assert (H7 : 7 < N).
    { destruct (Z.lt_ge_cases 7 N); [done |]. exfalso.
      assert (2 ^ N <= 2 ^ 7) by (apply Z.pow_le_mono_r; lia). lia. }
    assert (Hp : 2 ^ N = 128 * 2 ^ (N - 7)).
    { replace N with (7 + (N - 7)) at 1 by lia. by rewrite Z.pow_add_r by lia. }
    destruct (IH (N - 7) (v / 128)) as (bs & -> & Hu & Hl); [lia | lia |].
    eexists. split_and!; [done | | simpl; lia].
    rewrite lor_128 by lia.
    replace v with (2 ^ 7 * (v / 128) + (v mod 128 + 128 - 2 ^ 7)) at 2 by lia.
    apply uN_more; [lia | done | done].
Qed.

Lemma put_s_grammar fuel N v :
  0 < N <= 7 * Z.of_nat fuel -> - 2 ^ (N - 1) <= v < 2 ^ (N - 1) ->
  exists bs, pr_rsv_leb128_impl true fuel v = Some bs /\ sN N bs v /\ (length bs <= fuel)%nat.
Proof.
  revert N v. induction fuel as [| fuel IH]; intros N v HN Hv; [lia |]. simpl.
  rewrite land_127, Z.shiftr_div_pow2, bit6 by lia. change (2 ^ 7) with 128.
  assert (Hlast : (if (v / 128 =? 0) || (v / 128 =? -1)
                   then negb (Bool.eqb (v / 128 =? 0) (64 <=? v mod 128)) else false)
                  = (-64 <=? v) && (v <? 64)).
  { destruct (Z.eqb_spec (v / 128) 0), (Z.eqb_spec (v / 128) (-1)); simpl;
      destruct (Z.leb_spec 64 (v mod 128)); simpl; lia. }
  rewrite Hlast. destruct ((-64 <=? v) && (v <? 64)) eqn:Hr.
  - exists [v mod 128]. split_and!; [done | | simpl; lia].
    destruct (Z.ltb_spec v 0).
    + replace v with (v mod 128 - 2 ^ 7) at 2 by lia. apply sN_neg; lia.
    + rewrite Z.mod_small by lia. apply sN_pos; lia.
  - assert (H7 : 7 < N).
    { destruct (Z.lt_ge_cases 7 N); [done |]. exfalso.
      assert (2 ^ (N - 1) <= 2 ^ 6) by (apply Z.pow_le_mono_r; lia). lia. }
    assert (Hp : 2 ^ (N - 1) = 128 * 2 ^ (N - 7 - 1)).
    { replace (N - 1) with (7 + (N - 7 - 1)) by lia. by rewrite Z.pow_add_r by lia. }
    destruct (IH (N - 7) (v / 128)) as (bs & -> & Hu & Hl); [lia | lia |].
    eexists. split_and!; [done | | simpl; lia].
    rewrite lor_128 by lia.
    replace v with (2 ^ 7 * (v / 128) + (v mod 128 + 128 - 2 ^ 7)) at 2 by lia.
    apply sN_more; [lia | done | done].
Qed.

Definition leb_range (digits : Z) (is_signed : bool) (v : Z) : Prop :=
  if is_signed then - 2 ^ (digits - 1) <= v < 2 ^ (digits - 1) else 0 <= v < 2 ^ digits.

(** C40: printing any value of the destination type terminates within the bytes
    the printer reserves, and scanning the printed bytes, whatever follows them,
    gives the value back and stops right behind them. *)
Theorem leb128_put_get_roundtrip digits is_signed v :
  leb_width digits -> leb_range digits is_signed v ->
  exists bs, leb128_put digits is_signed v = Some bs /\
    (length bs <= print_reserve_size_leb128_length digits)%nat /\
    forall rest, scn_cnt_define_leb128_impl digits is_signed (bs ++ rest) =
                 ParseResult (length bs) pc_ok v.
Proof.
  intros Hw Hr. unfold leb128_put, scn_cnt_define_leb128_impl.
  assert (HN : 0 < digits <= 7 * Z.of_nat (print_reserve_size_leb128_length digits))
    by (destruct Hw as [-> | [-> | [-> | ->]]]; vm_compute; split; congruence).
  destruct is_signed; cbn [leb_range] in Hr;
    [destruct (put_s_grammar _ digits v HN Hr) as (bs & Hp & Hg & Hl)
    |destruct (put_u_grammar _ digits v HN Hr) as (bs & Hp & Hg & Hl)];
    exists bs; (split_and!; [done | done |]); intros rest;
    [rewrite (scan_s_complete digits digits bs v Hw Hg)
    |rewrite (scan_u_complete digits digits bs v Hw Hg)];
    try lia; f_equal; lia.
Qed.

Lemma leb128_put_get_roundtrip_witness :
  leb_width 64 /\ leb_range 64 true (-123456) /\
  exists bs, leb128_put 64 true (-123456) = Some bs /\
    (length bs <= print_reserve_size_leb128_length 64)%nat /\
    forall rest, scn_cnt_define_leb128_impl 64 true (bs ++ rest) =
                 ParseResult (length bs) pc_ok (-123456).
Proof.
  assert (Hw : leb_width 64) by (right; right; right; reflexivity).
  assert (Hr : leb_range 64 true (-123456)) by (vm_compute; split; congruence).
  split; [exact Hw | split; [exact Hr |]].
  exact (leb128_put_get_roundtrip 64 true (-123456) Hw Hr).
Defined.

Example leb128_put_example : leb128_put 64 true (-123456) = Some [192; 187; 120].
Proof. reflexivity. Qed.
