(* ===== verification/WasmTypes.v ===== *)
(** * Data of the parsed module that validation reads

    The enumerations and structures of [parser/wasm/standard/wasm1], restricted to
    the Release 1.0 feature set, and the part of the module storage (the output of
    the parser) that the code validator consults. *)

From stdpp Require Import base list numbers strings.
From Stdlib Require Import ZArith Lia.
From S2P Require Import Prelude Leb128.

(** ** Value types *)

Inductive value_type := i32 | i64 | f32 | f64.

#[global] Instance value_type_eq_dec : EqDecision value_type.
Proof. solve_decision. Defined.

Definition value_type_byte (t : value_type) : Z :=
  match t with i32 => 127 | i64 => 126 | f32 => 125 | f64 => 124 end.

(** An object of type [value_type] holds an enumerator or, when it is
    value-initialised ([value_type{}]), the byte 0 that no enumerator names:
    [None]. Operand slots and error payloads can hold it; the types of a parsed
    module cannot, since the parser checks every byte. *)
Abbreviation value_type_obj := (option value_type).

(** ** Opcodes *)

Module wasm1_code.
Inductive op_basic :=
  | unreachable | nop | block | loop | if_ | else_ | end_ | br | br_if | br_table | return_
  | call | call_indirect | drop | select | local_get | local_set | local_tee | global_get
  | global_set | i32_load | i64_load | f32_load | f64_load | i32_load8_s | i32_load8_u
  | i32_load16_s | i32_load16_u | i64_load8_s | i64_load8_u | i64_load16_s | i64_load16_u
  | i64_load32_s | i64_load32_u | i32_store | i64_store | f32_store | f64_store | i32_store8
  | i32_store16 | i64_store8 | i64_store16 | i64_store32 | memory_size | memory_grow
  | i32_const | i64_const | f32_const | f64_const | i32_eqz | i32_eq | i32_ne | i32_lt_s
  | i32_lt_u | i32_gt_s | i32_gt_u | i32_le_s | i32_le_u | i32_ge_s | i32_ge_u | i64_eqz
  | i64_eq | i64_ne | i64_lt_s | i64_lt_u | i64_gt_s | i64_gt_u | i64_le_s | i64_le_u
  | i64_ge_s | i64_ge_u | f32_eq | f32_ne | f32_lt | f32_gt | f32_le | f32_ge | f64_eq
  | f64_ne | f64_lt | f64_gt | f64_le | f64_ge | i32_clz | i32_ctz | i32_popcnt | i32_add
  | i32_sub | i32_mul | i32_div_s | i32_div_u | i32_rem_s | i32_rem_u | i32_and | i32_or
  | i32_xor | i32_shl | i32_shr_s | i32_shr_u | i32_rotl | i32_rotr | i64_clz | i64_ctz
  | i64_popcnt | i64_add | i64_sub | i64_mul | i64_div_s | i64_div_u | i64_rem_s | i64_rem_u
  | i64_and | i64_or | i64_xor | i64_shl | i64_shr_s | i64_shr_u | i64_rotl | i64_rotr
  | f32_abs | f32_neg | f32_ceil | f32_floor | f32_trunc | f32_nearest | f32_sqrt | f32_add
  | f32_sub | f32_mul | f32_div | f32_min | f32_max | f32_copysign | f64_abs | f64_neg
  | f64_ceil | f64_floor | f64_trunc | f64_nearest | f64_sqrt | f64_add | f64_sub | f64_mul
  | f64_div | f64_min | f64_max | f64_copysign | i32_wrap_i64 | i32_trunc_f32_s
  | i32_trunc_f32_u | i32_trunc_f64_s | i32_trunc_f64_u | i64_extend_i32_s
  | i64_extend_i32_u | i64_trunc_f32_s | i64_trunc_f32_u | i64_trunc_f64_s | i64_trunc_f64_u
  | f32_convert_i32_s | f32_convert_i32_u | f32_convert_i64_s | f32_convert_i64_u
  | f32_demote_f64 | f64_convert_i32_s | f64_convert_i32_u | f64_convert_i64_s
  | f64_convert_i64_u | f64_promote_f32 | i32_reinterpret_f32 | i64_reinterpret_f64
  | f32_reinterpret_i32 | f64_reinterpret_i64.

(** The enumerators' values. *)
Definition opcode (op : op_basic) : Z :=
  match op with
    | unreachable => 0 | nop => 1 | block => 2 | loop => 3 | if_ => 4 | else_ => 5
    | end_ => 11 | br => 12 | br_if => 13 | br_table => 14 | return_ => 15 | call => 16
    | call_indirect => 17 | drop => 26 | select => 27 | local_get => 32 | local_set => 33
    | local_tee => 34 | global_get => 35 | global_set => 36 | i32_load => 40
    | i64_load => 41 | f32_load => 42 | f64_load => 43 | i32_load8_s => 44
    | i32_load8_u => 45 | i32_load16_s => 46 | i32_load16_u => 47 | i64_load8_s => 48
    | i64_load8_u => 49 | i64_load16_s => 50 | i64_load16_u => 51 | i64_load32_s => 52
    | i64_load32_u => 53 | i32_store => 54 | i64_store => 55 | f32_store => 56
    | f64_store => 57 | i32_store8 => 58 | i32_store16 => 59 | i64_store8 => 60
    | i64_store16 => 61 | i64_store32 => 62 | memory_size => 63 | memory_grow => 64
    | i32_const => 65 | i64_const => 66 | f32_const => 67 | f64_const => 68 | i32_eqz => 69
    | i32_eq => 70 | i32_ne => 71 | i32_lt_s => 72 | i32_lt_u => 73 | i32_gt_s => 74
    | i32_gt_u => 75 | i32_le_s => 76 | i32_le_u => 77 | i32_ge_s => 78 | i32_ge_u => 79
    | i64_eqz => 80 | i64_eq => 81 | i64_ne => 82 | i64_lt_s => 83 | i64_lt_u => 84
    | i64_gt_s => 85 | i64_gt_u => 86 | i64_le_s => 87 | i64_le_u => 88 | i64_ge_s => 89
    | i64_ge_u => 90 | f32_eq => 91 | f32_ne => 92 | f32_lt => 93 | f32_gt => 94
    | f32_le => 95 | f32_ge => 96 | f64_eq => 97 | f64_ne => 98 | f64_lt => 99
    | f64_gt => 100 | f64_le => 101 | f64_ge => 102 | i32_clz => 103 | i32_ctz => 104
    | i32_popcnt => 105 | i32_add => 106 | i32_sub => 107 | i32_mul => 108
    | i32_div_s => 109 | i32_div_u => 110 | i32_rem_s => 111 | i32_rem_u => 112
    | i32_and => 113 | i32_or => 114 | i32_xor => 115 | i32_shl => 116 | i32_shr_s => 117
    | i32_shr_u => 118 | i32_rotl => 119 | i32_rotr => 120 | i64_clz => 121 | i64_ctz => 122
    | i64_popcnt => 123 | i64_add => 124 | i64_sub => 125 | i64_mul => 126
    | i64_div_s => 127 | i64_div_u => 128 | i64_rem_s => 129 | i64_rem_u => 130
    | i64_and => 131 | i64_or => 132 | i64_xor => 133 | i64_shl => 134 | i64_shr_s => 135
    | i64_shr_u => 136 | i64_rotl => 137 | i64_rotr => 138 | f32_abs => 139 | f32_neg => 140
    | f32_ceil => 141 | f32_floor => 142 | f32_trunc => 143 | f32_nearest => 144
    | f32_sqrt => 145 | f32_add => 146 | f32_sub => 147 | f32_mul => 148 | f32_div => 149
    | f32_min => 150 | f32_max => 151 | f32_copysign => 152 | f64_abs => 153
    | f64_neg => 154 | f64_ceil => 155 | f64_floor => 156 | f64_trunc => 157
    | f64_nearest => 158 | f64_sqrt => 159 | f64_add => 160 | f64_sub => 161
    | f64_mul => 162 | f64_div => 163 | f64_min => 164 | f64_max => 165
    | f64_copysign => 166 | i32_wrap_i64 => 167 | i32_trunc_f32_s => 168
    | i32_trunc_f32_u => 169 | i32_trunc_f64_s => 170 | i32_trunc_f64_u => 171
    | i64_extend_i32_s => 172 | i64_extend_i32_u => 173 | i64_trunc_f32_s => 174
    | i64_trunc_f32_u => 175 | i64_trunc_f64_s => 176 | i64_trunc_f64_u => 177
    | f32_convert_i32_s => 178 | f32_convert_i32_u => 179 | f32_convert_i64_s => 180
    | f32_convert_i64_u => 181 | f32_demote_f64 => 182 | f64_convert_i32_s => 183
    | f64_convert_i32_u => 184 | f64_convert_i64_s => 185 | f64_convert_i64_u => 186
    | f64_promote_f32 => 187 | i32_reinterpret_f32 => 188 | i64_reinterpret_f64 => 189
    | f32_reinterpret_i32 => 190 | f64_reinterpret_i64 => 191
  end.

Definition enumerators : list op_basic :=
  [unreachable; nop; block; loop; if_; else_; end_; br; br_if; br_table; return_; call;
     call_indirect; drop; select; local_get; local_set; local_tee; global_get; global_set;
     i32_load; i64_load; f32_load; f64_load; i32_load8_s; i32_load8_u; i32_load16_s;
     i32_load16_u; i64_load8_s; i64_load8_u; i64_load16_s; i64_load16_u; i64_load32_s;
     i64_load32_u; i32_store; i64_store; f32_store; f64_store; i32_store8; i32_store16;
     i64_store8; i64_store16; i64_store32; memory_size; memory_grow; i32_const; i64_const;
     f32_const; f64_const; i32_eqz; i32_eq; i32_ne; i32_lt_s; i32_lt_u; i32_gt_s; i32_gt_u;
     i32_le_s; i32_le_u; i32_ge_s; i32_ge_u; i64_eqz; i64_eq; i64_ne; i64_lt_s; i64_lt_u;
     i64_gt_s; i64_gt_u; i64_le_s; i64_le_u; i64_ge_s; i64_ge_u; f32_eq; f32_ne; f32_lt;
     f32_gt; f32_le; f32_ge; f64_eq; f64_ne; f64_lt; f64_gt; f64_le; f64_ge; i32_clz;
     i32_ctz; i32_popcnt; i32_add; i32_sub; i32_mul; i32_div_s; i32_div_u; i32_rem_s;
     i32_rem_u; i32_and; i32_or; i32_xor; i32_shl; i32_shr_s; i32_shr_u; i32_rotl; i32_rotr;
     i64_clz; i64_ctz; i64_popcnt; i64_add; i64_sub; i64_mul; i64_div_s; i64_div_u;
     i64_rem_s; i64_rem_u; i64_and; i64_or; i64_xor; i64_shl; i64_shr_s; i64_shr_u;
     i64_rotl; i64_rotr; f32_abs; f32_neg; f32_ceil; f32_floor; f32_trunc; f32_nearest;
     f32_sqrt; f32_add; f32_sub; f32_mul; f32_div; f32_min; f32_max; f32_copysign; f64_abs;
     f64_neg; f64_ceil; f64_floor; f64_trunc; f64_nearest; f64_sqrt; f64_add; f64_sub;
     f64_mul; f64_div; f64_min; f64_max; f64_copysign; i32_wrap_i64; i32_trunc_f32_s;
     i32_trunc_f32_u; i32_trunc_f64_s; i32_trunc_f64_u; i64_extend_i32_s; i64_extend_i32_u;
     i64_trunc_f32_s; i64_trunc_f32_u; i64_trunc_f64_s; i64_trunc_f64_u; f32_convert_i32_s;
     f32_convert_i32_u; f32_convert_i64_s; f32_convert_i64_u; f32_demote_f64;
     f64_convert_i32_s; f64_convert_i32_u; f64_convert_i64_s; f64_convert_i64_u;
     f64_promote_f32; i32_reinterpret_f32; i64_reinterpret_f64; f32_reinterpret_i32;
     f64_reinterpret_i64].

(** Copying one byte into an object of the enumeration: [None] is a byte that
    names no enumerator, which the [switch] sends to its default case. *)
Definition of_byte (b : Z) : option op_basic :=
  List.find (fun op => opcode op =? b) enumerators.

Lemma of_byte_opcode op : of_byte (opcode op) = Some op.
Proof. by destruct op. Qed.

Lemma of_byte_Some b op : of_byte b = Some op -> b = opcode op.
Proof. intros H. apply find_some in H as [_ H]. lia. Qed.

Lemma opcode_inj op1 op2 : opcode op1 = opcode op2 -> op1 = op2.
Proof.
  intros H. pose proof (of_byte_opcode op1) as H1. rewrite H, of_byte_opcode in H1. congruence.
Qed.

#[global] Instance op_basic_eq_dec : EqDecision op_basic.
Proof.
  refine (fun op1 op2 => cast_if (decide (opcode op1 = opcode op2)));
    [by apply opcode_inj | congruence].
Defined.
End wasm1_code.

(** ** Module storage *)

Record function_type := FunctionType {
  parameter : list value_type;
  result : list value_type
}.

Record global_type := GlobalType {
  global_value_type : value_type;
  is_mutable : bool
}.

(** A run of locals of one type ([final_local_entry_t]). *)
Record local_entry := LocalEntry {
  count : Z;
  local_type : value_type
}.

(** The sections consulted by the validator. [importdesc] of the source is an array
    of four vectors of pointers to import entries; the pointed-to payloads are kept.
    Tables and memories are only counted. *)
Record module_storage := ModuleStorage {
  imported_funcs : list function_type;      (* importdesc[0] *)
  imported_tables : nat;                    (* importdesc[1].size() *)
  imported_memories : nat;                  (* importdesc[2].size() *)
  imported_globals : list global_type;      (* importdesc[3] *)
  types : list function_type;               (* typesec.types *)
  funcs : list Z;                           (* funcsec.funcs: type indices *)
  tables : nat;                             (* tablesec.tables.size() *)
  memories : nat;                           (* memsec.memories.size() *)
  local_globals : list global_type;         (* globalsec.local_globals *)
  codes : list (list local_entry)           (* codesec.codes[i].locals *)
}.
