(* ===== verification/ValidationError.v ===== *)
(** * Errors of the code validator

    [validation/error/error.h]: the error codes, the payload union and the error
    object the validator fills before it throws. *)

From stdpp Require Import base list numbers strings.
From Stdlib Require Import ZArith.
From S2P Require Import Prelude Leb128 WasmTypes.

Module code_validation_error_code.
Inductive code :=
  | ok | missing_end | missing_block_type | illegal_block_type | illegal_opbase
  | operand_stack_underflow | select_type_mismatch | select_cond_type_not_i32
  | if_cond_type_not_i32 | illegal_else | if_then_result_mismatch | if_missing_else
  | end_result_mismatch | trailing_code_after_end | invalid_label_index
  | illegal_label_index | br_value_type_mismatch | br_cond_type_not_i32
  | br_table_target_count_exceeds_remaining_bytes | br_table_target_type_mismatch
  | invalid_function_index_encoding | invalid_type_index | illegal_type_index
  | invalid_table_index | illegal_table_index | invalid_memory_index | illegal_memory_index
  | local_set_type_mismatch | local_tee_type_mismatch | invalid_global_index
  | illegal_global_index | immutable_global_set | global_set_type_mismatch | no_memory
  | invalid_memarg_align | invalid_memarg_offset | illegal_memarg_alignment
  | memarg_address_type_not_i32 | not_local_function | invalid_function_index
  | invalid_local_index | illegal_local_index | store_value_type_mismatch
  | memory_grow_delta_type_not_i32 | invalid_const_immediate | numeric_operand_type_mismatch
  | wasm1p1_feature_required | wasm2_feature_required | illegal_data_index
  | illegal_element_index | wasm1p1_undeclared_ref_func | wasm1p1_invalid_reference_type.
End code_validation_error_code.
Import code_validation_error_code (code).
Module cvec := code_validation_error_code.

(** The member of the union that was written last; [sel_none] when the code path
    writes none. Sizes of vectors ([std::size_t]) are [nat], 32-bit members are [Z]. *)
Inductive err_selectable :=
| sel_none
| sel_u8 (u8 : Z)
| sel_operand_stack_underflow (op_code_name : string) (stack_size_actual : nat)
    (stack_size_required : Z)
| sel_select_type_mismatch (type_v1 type_v2 : value_type_obj)
| sel_select_cond_type_not_i32 (cond_type : value_type_obj)
| sel_if_cond_type_not_i32 (cond_type : value_type_obj)
| sel_if_then_result_mismatch (expected_count actual_count : nat)
    (expected_type actual_type : value_type_obj)
| sel_if_missing_else (expected_count : nat) (expected_type : value_type_obj)
| sel_end_result_mismatch (block_kind : string) (expected_count actual_count : nat)
    (expected_type actual_type : value_type_obj)
| sel_illegal_label_index (label_index all_label_count : Z)
| sel_br_value_type_mismatch (op_code_name : string) (expected_type actual_type : value_type_obj)
| sel_br_cond_type_not_i32 (op_code_name : string) (cond_type : value_type_obj)
| sel_br_table_target_count_exceeds_remaining_bytes
    (target_count remaining_bytes max_target_count : Z)
| sel_br_table_target_type_mismatch
    (expected_label_index mismatched_label_index expected_arity actual_arity : Z)
    (expected_type actual_type : value_type_obj)
| sel_illegal_type_index (type_index all_type_count : Z)
| sel_illegal_table_index (table_index all_table_count : Z)
| sel_illegal_memory_index (memory_index all_memory_count : Z)
| sel_local_variable_type_mismatch (local_index : Z) (expected_type actual_type : value_type_obj)
| sel_immutable_global_set (global_index : Z)
| sel_global_variable_type_mismatch (global_index : Z) (expected_type actual_type : value_type_obj)
| sel_illegal_memarg_alignment (op_code_name : string) (align max_align : Z)
| sel_no_memory (op_code_name : string) (align offset : Z)
| sel_memarg_address_type_not_i32 (op_code_name : string) (addr_type : value_type_obj)
| sel_not_local_function (function_index : nat)
| sel_invalid_function_index (function_index all_function_size : Z)
| sel_illegal_local_index (local_index all_local_count : Z)
| sel_illegal_global_index (global_index all_global_count : Z)
| sel_store_value_type_mismatch (op_code_name : string) (expected_type actual_type : value_type_obj)
| sel_memory_grow_delta_type_not_i32 (delta_type : value_type_obj)
| sel_invalid_const_immediate (op_code_name : string)
| sel_numeric_operand_type_mismatch (op_code_name : string) (expected_type actual_type : value_type_obj).

(** [code_validation_error_impl] together with the [parse_code] that is thrown;
    [err_curr] is an offset from [code_begin]. *)
Record verr := VErr {
  err_curr : nat;
  err_code : code;
  err_sel : err_selectable;
  thrown : parse_code
}.
