(* ===== verification/ValidatorState.v ===== *)
(** * State and local helpers of the Release 1.0 code validator

    [validation/standard/wasm1/validator.h], the part of [validate_code] before its
    instruction loop: the frames of the control-flow stack, the typed operand
    stack, the values computed from the module, and the lambdas shared by the
    instruction cases.

    Vectors used as stacks are lists whose head is [back()]:
    [v.index_unchecked(v.size() - 1 - i)] is [v !! i] and
    [v.index_unchecked(0)] is [last v]. Pointers into the code are offsets from
    [code_begin]; [code_end] is the length of [code]. *)

From stdpp Require Import base list numbers strings.
From Stdlib Require Import ZArith Lia.
From S2P Require Import Prelude Leb128 WasmTypes ValidationError.

(** ** Data *)

Module block_type.
Inductive t := function | block | loop | if_ | else_.
#[global] Instance eq_dec : EqDecision t.
Proof. solve_decision. Defined.
End block_type.

Record block_t := Block {
  blk_result : list value_type;
  operand_stack_base : nat;
  blk_type : block_type.t;
  polymorphic_base : bool
}.

(** [operand_stack_storage_t] *)
Record operand := Operand {
  otype : value_type_obj;
  is_unknown : bool
}.

Record concrete_operand_t := ConcreteOperand {
  from_stack : bool;
  co_type : value_type_obj;
  co_is_unknown : bool
}.

(** The mutable variables of [validate_code]. *)
Record vstate := VState {
  code_curr : nat;
  control_flow_stack : list block_t;
  operand_stack : list operand;
  is_polymorphic : bool
}.

(** The constants [validate_code] computes from its arguments. *)
Record venv := VEnv {
  code : list Z;
  modl : module_storage;
  import_func_count : nat;
  local_func_count : nat;
  curr_func_type : function_type;
  func_parameter_count_u32 : Z;
  curr_code_locals : list local_entry;
  all_local_count : Z;
  imported_global_count : Z;
  all_global_count : Z;
  all_table_count : Z;
  all_memory_count : Z
}.

Abbreviation M := (SM vstate verr).

(** [if (cond) { ...; throw }] with the parse code [invalid]. *)
Definition invalid (at_ : nat) (c : cvec.code) (sel : err_selectable) : verr :=
  VErr at_ c sel pc_invalid.

(** ** The prologue: lookups in the module *)

Definition sum_locals (init : Z) (locals : list local_entry) : Z :=
  fold_left (fun all part => u32 (all + count part)) locals init.

Definition validate_prologue (m : module_storage) (function_index : nat) (code : list Z)
    : outcome verr venv :=
  let import_func_count := length (imported_funcs m) in
  if (function_index <? import_func_count)%nat then
    Thrown (invalid 0 cvec.not_local_function (sel_not_local_function function_index))
  else
    let local_func_idx := (function_index - import_func_count)%nat in
    let local_func_count := length (funcs m) in
    if (local_func_count <=? local_func_idx)%nat then
      Thrown (invalid 0 cvec.invalid_function_index
        (sel_invalid_function_index (Z.of_nat function_index)
           (Z.of_nat (import_func_count + local_func_count))))
    else
      match funcs m !! local_func_idx with
      | None => Undefined
      | Some type_index =>
          match types m !! Z.to_nat type_index, codes m !! local_func_idx with
          | Some curr_func_type, Some curr_code_locals =>
              let func_parameter_count_u32 := u32 (zlen (parameter curr_func_type)) in
              let imported_global_count := u32 (zlen (imported_globals m)) in
              Done {|
                code := code;
                modl := m;
                import_func_count := import_func_count;
                local_func_count := local_func_count;
                curr_func_type := curr_func_type;
                func_parameter_count_u32 := func_parameter_count_u32;
                curr_code_locals := curr_code_locals;
                all_local_count := sum_locals func_parameter_count_u32 curr_code_locals;
                imported_global_count := imported_global_count;
                all_global_count :=
                  u32 (imported_global_count + u32 (zlen (local_globals m)));
                all_table_count :=
                  u32 (u32 (Z.of_nat (imported_tables m)) + u32 (Z.of_nat (tables m)));
                all_memory_count :=
                  u32 (u32 (Z.of_nat (imported_memories m)) + u32 (Z.of_nat (memories m)))
              |}
          | _, _ => Undefined
          end
      end.

(** The function block is pushed before the loop starts. *)
Definition initial_state (env : venv) : vstate :=
  VState 0 [Block (result (curr_func_type env)) 0 block_type.function false] [] false.

(** ** Shared lambdas *)

Definition curr_frame_operand_stack_base (s : vstate) : nat :=
  match control_flow_stack s with
  | [] => 0
  | frame :: _ => operand_stack_base frame
  end.

Definition concrete_operand_count (s : vstate) : nat :=
  let base := curr_frame_operand_stack_base s in
  let stack_size := length (operand_stack s) in
  if (base <=? stack_size)%nat then (stack_size - base)%nat else 0%nat.

Definition set_code_curr (p : nat) (s : vstate) : vstate :=
  VState p (control_flow_stack s) (operand_stack s) (is_polymorphic s).
Definition set_control_flow_stack (cs : list block_t) (s : vstate) : vstate :=
  VState (code_curr s) cs (operand_stack s) (is_polymorphic s).
Definition set_operand_stack (os : list operand) (s : vstate) : vstate :=
  VState (code_curr s) (control_flow_stack s) os (is_polymorphic s).
Definition set_polymorphic (b : bool) (s : vstate) : vstate :=
  VState (code_curr s) (control_flow_stack s) (operand_stack s) b.

(** [code_curr += n] *)
Definition advance (n : nat) : M unit :=
  sm_modify (fun s => set_code_curr (code_curr s + n) s).

(** [operand_stack.push_back({t})] *)
Definition push_operand (t : value_type_obj) : M unit :=
  sm_modify (fun s => set_operand_stack (Operand t false :: operand_stack s) s).

Definition push_frame (f : block_t) : M unit :=
  sm_modify (fun s => set_control_flow_stack (f :: control_flow_stack s) s).

Definition report_operand_stack_underflow {A} (op_begin : nat) (op_name : string)
    (required_count : Z) : M A :=
  n ← sm_gets concrete_operand_count;
  sm_throw (invalid op_begin cvec.operand_stack_underflow
    (sel_operand_stack_underflow op_name n required_count)).

Definition try_pop_concrete_operand : M concrete_operand_t :=
  s ← sm_get;
  if (concrete_operand_count s =? 0)%nat then mret (ConcreteOperand false None false)
  else
    op ← sm_unchecked (head (operand_stack s));
    sm_modify (set_operand_stack (tail (operand_stack s)));;
    mret (ConcreteOperand true (otype op) (is_unknown op)).

Definition try_peek_concrete_operand : M concrete_operand_t :=
  s ← sm_get;
  if (concrete_operand_count s =? 0)%nat then mret (ConcreteOperand false None false)
  else
    op ← sm_unchecked (head (operand_stack s));
    mret (ConcreteOperand true (otype op) (is_unknown op)).

Fixpoint pop_available_concrete_operands (count : nat) : M unit :=
  match count with
  | O => mret tt
  | S count =>
      s ← sm_get;
      if (concrete_operand_count s =? 0)%nat then mret tt
      else
        sm_modify (set_operand_stack (tail (operand_stack s)));;
        pop_available_concrete_operands count
  end.

(** [while(operand_stack.size() > base) { operand_stack.pop_back_unchecked(); }] *)
Fixpoint pop_above (base : nat) (os : list operand) : list operand :=
  match os with
  | [] => []
  | _ :: os' => if (base <? length os)%nat then pop_above base os' else os
  end.

Definition clear_to (base : nat) : M unit :=
  sm_modify (fun s => set_operand_stack (pop_above base (operand_stack s)) s).

(** [x.type != t], an object against an enumerator. *)
Definition type_ne (x : value_type_obj) (t : value_type) : bool :=
  negb (bool_decide (x = Some t)).

(** [x.from_stack && !x.is_unknown && x.type != t] *)
Definition operand_mismatch (x : concrete_operand_t) (t : value_type) : bool :=
  from_stack x && negb (co_is_unknown x) && type_ne (co_type x) t.

Definition underflow_unless (op_begin : nat) (op_name : string) (required : nat) : M unit :=
  s ← sm_get;
  sm_when (negb (is_polymorphic s) && (concrete_operand_count s <? required)%nat)
    (report_operand_stack_underflow op_begin op_name (Z.of_nat required)).

(** The same test where the requirement is [arity + 1], guarded against overflow
    of [std::size_t]. *)
Definition underflow_unless_succ (op_begin : nat) (op_name : string) (arity : nat) : M unit :=
  let plus_overflows := Z.of_nat arity =? size_t_max in
  let required_stack_size := if plus_overflows then size_t_max else Z.of_nat arity + 1 in
  s ← sm_get;
  sm_when (negb (is_polymorphic s) &&
           (plus_overflows || (Z.of_nat (concrete_operand_count s) <? required_stack_size)))
    (report_operand_stack_underflow op_begin op_name required_stack_size).

(** The loop that compares the top operands with an expected vector of types, used by
    [else], [end], [br], [br_if], [return], [call] and [call_indirect]; the cases
    differ in the error they report. *)
Fixpoint check_operand_types (mismatch : value_type -> value_type_obj -> verr)
    (expected : list value_type) (i n : nat) : M unit :=
  match n with
  | O => mret tt
  | S n =>
      expected_type ← sm_unchecked (expected !! (length expected - 1 - i)%nat);
      s ← sm_get;
      actual_operand ← sm_unchecked (operand_stack s !! i);
      sm_when (negb (is_unknown actual_operand) && type_ne (otype actual_operand) expected_type)
        (sm_throw (mismatch expected_type (otype actual_operand)));;
      check_operand_types mismatch expected (S i) n
  end.

Definition push_results (res : list value_type) : M unit :=
  sm_modify (fun s => set_operand_stack
    (fold_left (fun os t => Operand (Some t) false :: os) res (operand_stack s)) s).

Section Reading.
Context (env : venv).

Definition code_end : nat := length (code env).

(** [parse_by_scan(code_curr, code_end, leb128_get(x))] followed by the error test
    and the assignment of [code_curr]. *)
Definition read_leb128 (digits : Z) (is_signed : bool) (op_begin : nat) (c : cvec.code)
    (sel : err_selectable) : M Z :=
  s ← sm_get;
  let r := scn_cnt_define_leb128_impl digits is_signed (drop (code_curr s) (code env)) in
  if bool_decide (pr_code r = pc_ok) then
    advance (pr_iter r);; mret (pr_value r)
  else sm_throw (VErr op_begin c sel (pr_code r)).

Definition read_u32 (op_begin : nat) (c : cvec.code) : M Z :=
  read_leb128 32 false op_begin c sel_none.

(** [static_cast<std::size_t>(code_end - code_curr)] *)
Definition remaining_bytes (s : vstate) : Z :=
  uz (Z.of_nat code_end - Z.of_nat (code_curr s)).
End Reading.
