(* ===== verification/ValidatorControl.v ===== *)
(** * Validator: control instructions

    The cases [unreachable] to [call_indirect] of the instruction loop of
    [validate_code] ([validation/standard/wasm1/validator.h]), one definition per
    [case] label. Each starts with [code_curr] at the opcode byte. *)

From stdpp Require Import base list numbers strings.
From Stdlib Require Import ZArith Lia.
From S2P Require Import Prelude Leb128 WasmTypes ValidationError ValidatorState.
#[local] Open Scope string_scope.
Open Scope Z_scope.

(** What the loop does after a case: [break] or [return]. *)
Inductive flow := Continue | Return.

Section Control.
Context (env : venv).

Definition case_unreachable : M unit :=
  advance 1;;
  s ← sm_get;
  match control_flow_stack s with
  | [] => mret tt
  | frame :: _ => clear_to (operand_stack_base frame)
  end;;
  sm_modify (set_polymorphic true).

Definition case_nop : M unit := advance 1.

(** The block type byte, read by [block], [loop] and [if]. *)
Definition read_block_type (op_begin : nat) : M (list value_type) :=
  s ← sm_get;
  if (code_curr s =? code_end env)%nat then
    sm_throw (VErr op_begin cvec.missing_block_type sel_none pc_end_of_file)
  else
    blocktype_byte ← sm_unchecked (code env !! code_curr s);
    advance 1;;
    if blocktype_byte =? 64 then mret []
    else if blocktype_byte =? value_type_byte i32 then mret [i32]
    else if blocktype_byte =? value_type_byte i64 then mret [i64]
    else if blocktype_byte =? value_type_byte f32 then mret [f32]
    else if blocktype_byte =? value_type_byte f64 then mret [f64]
    else sm_throw (invalid op_begin cvec.illegal_block_type (sel_u8 blocktype_byte)).

Definition enter_block (res : list value_type) (bt : block_type.t) : M unit :=
  s ← sm_get;
  push_frame (Block res (length (operand_stack s)) bt (is_polymorphic s));;
  sm_modify (set_polymorphic false).

Definition case_block : M unit :=
  op_begin ← sm_gets code_curr;
  advance 1;;
  block_result ← read_block_type op_begin;
  enter_block block_result block_type.block.

Definition case_loop : M unit :=
  op_begin ← sm_gets code_curr;
  advance 1;;
  block_result ← read_block_type op_begin;
  enter_block block_result block_type.loop.

Definition case_if : M unit :=
  op_begin ← sm_gets code_curr;
  advance 1;;
  block_result ← read_block_type op_begin;
  underflow_unless op_begin "if" 1;;
  cond ← try_pop_concrete_operand;
  sm_when (operand_mismatch cond i32)
    (sm_throw (invalid op_begin cvec.if_cond_type_not_i32
      (sel_if_cond_type_not_i32 (co_type cond))));;
  enter_block block_result block_type.if_.

(** Does the number of operands of the frame fit the number of results? *)
Definition result_count_mismatch (s : vstate) (actual_count expected_count : nat) : bool :=
  if negb (is_polymorphic s) then negb (actual_count =? expected_count)%nat
  else (expected_count <? actual_count)%nat.

(** The two types reported with a count mismatch. *)
Definition reported_expected (res : list value_type) : value_type_obj :=
  if (length res =? 1)%nat then head res else None.
Definition reported_actual (s : vstate) (actual_count : nat) : value_type_obj :=
  if (actual_count =? 1)%nat && negb (length (operand_stack s) =? 0)%nat
  then head (operand_stack s) ≫= otype else None.

Definition case_else : M unit :=
  op_begin ← sm_gets code_curr;
  advance 1;;
  s ← sm_get;
  match control_flow_stack s with
  | [] => sm_throw (invalid op_begin cvec.illegal_else sel_none)
  | if_frame :: outer =>
      if negb (bool_decide (blk_type if_frame = block_type.if_)) then
        sm_throw (invalid op_begin cvec.illegal_else sel_none)
      else
        let res := blk_result if_frame in
        let expected_count := length res in
        let actual_count := (length (operand_stack s) - operand_stack_base if_frame)%nat in
        sm_when (result_count_mismatch s actual_count expected_count)
          (sm_throw (invalid op_begin cvec.if_then_result_mismatch
            (sel_if_then_result_mismatch expected_count actual_count
               (reported_expected res) (reported_actual s actual_count))));;
        check_operand_types
          (fun e a => invalid op_begin cvec.if_then_result_mismatch
             (sel_if_then_result_mismatch expected_count actual_count (Some e) a))
          res 0 (if (actual_count <? expected_count)%nat then actual_count else expected_count);;
        clear_to (operand_stack_base if_frame);;
        sm_modify (set_polymorphic false);;
        sm_modify (set_control_flow_stack
          (Block res (operand_stack_base if_frame) block_type.else_
             (polymorphic_base if_frame) :: outer))
  end.

Definition block_kind (t : block_type.t) : string :=
  match t with
  | block_type.function => "function"
  | block_type.block => "block"
  | block_type.loop => "loop"
  | block_type.if_ => "if"
  | block_type.else_ => "if-else"
  end.

Definition case_end : M flow :=
  op_begin ← sm_gets code_curr;
  advance 1;;
  s ← sm_get;
  match control_flow_stack s with
  | [] => sm_throw (invalid op_begin cvec.illegal_opbase
            (sel_u8 (wasm1_code.opcode wasm1_code.end_)))
  | frame :: outer =>
      let is_function_frame := bool_decide (blk_type frame = block_type.function) in
      let kind := block_kind (blk_type frame) in
      let res := blk_result frame in
      let expected_count := length res in
      sm_when (bool_decide (blk_type frame = block_type.if_) && negb (expected_count =? 0)%nat)
        (sm_throw (invalid op_begin cvec.if_missing_else
          (sel_if_missing_else expected_count (head res))));;
      let base := operand_stack_base frame in
      let actual_count := (length (operand_stack s) - base)%nat in
      sm_when (result_count_mismatch s actual_count expected_count)
        (sm_throw (invalid op_begin cvec.end_result_mismatch
          (sel_end_result_mismatch kind expected_count actual_count
             (reported_expected res) (reported_actual s actual_count))));;
      check_operand_types
        (fun e a => invalid op_begin cvec.end_result_mismatch
           (sel_end_result_mismatch kind expected_count actual_count (Some e) a))
        res 0 (if (actual_count <? expected_count)%nat then actual_count else expected_count);;
      clear_to base;;
      push_results res;;
      sm_modify (set_polymorphic (polymorphic_base frame));;
      sm_modify (set_control_flow_stack outer);;
      if is_function_frame then
        s' ← sm_get;
        sm_when (negb (code_curr s' =? code_end env)%nat)
          (sm_throw (invalid op_begin cvec.trailing_code_after_end sel_none));;
        mret Return
      else mret Continue
  end.

(** The label index test and the frame it selects. *)
Definition target_frame_of (op_begin : nat) (label_index : Z) : M block_t :=
  s ← sm_get;
  let all_label_count := length (control_flow_stack s) in
  sm_when (zlen (control_flow_stack s) <=? label_index)
    (sm_throw (invalid op_begin cvec.illegal_label_index
      (sel_illegal_label_index label_index (u32 (Z.of_nat all_label_count)))));;
  sm_unchecked (control_flow_stack s !! Z.to_nat label_index).

Definition label_types (frame : block_t) : list value_type :=
  if bool_decide (blk_type frame = block_type.loop) then [] else blk_result frame.

(** Empty the current frame and make it polymorphic, after a branch. *)
Definition enter_unreachable : M unit :=
  s ← sm_get;
  frame ← sm_unchecked (head (control_flow_stack s));
  clear_to (operand_stack_base frame);;
  sm_modify (set_polymorphic true).

Definition min_count (a b : nat) : nat := if (a <? b)%nat then a else b.

Definition br_mismatch (op_begin : nat) (op_name : string)
    (expected_type : value_type) (actual_type : value_type_obj) : verr :=
  invalid op_begin cvec.br_value_type_mismatch
    (sel_br_value_type_mismatch op_name (Some expected_type) actual_type).

Definition case_br : M unit :=
  op_begin ← sm_gets code_curr;
  advance 1;;
  label_index ← read_u32 env op_begin cvec.invalid_label_index;
  target_frame ← target_frame_of op_begin label_index;
  let target := label_types target_frame in
  let target_arity := length target in
  underflow_unless op_begin "br" target_arity;;
  n ← sm_gets concrete_operand_count;
  check_operand_types (br_mismatch op_begin "br") target 0 (min_count n target_arity);;
  pop_available_concrete_operands target_arity;;
  enter_unreachable.

Definition case_br_if : M unit :=
  op_begin ← sm_gets code_curr;
  advance 1;;
  label_index ← read_u32 env op_begin cvec.invalid_label_index;
  target_frame ← target_frame_of op_begin label_index;
  let target := label_types target_frame in
  let target_arity := length target in
  underflow_unless_succ op_begin "br_if" target_arity;;
  cond ← try_pop_concrete_operand;
  sm_when (operand_mismatch cond i32)
    (sm_throw (invalid op_begin cvec.br_cond_type_not_i32
      (sel_br_cond_type_not_i32 "br_if" (co_type cond))));;
  if (target_arity =? 0)%nat then mret tt
  else
    n ← sm_gets concrete_operand_count;
    let concrete_to_check := min_count n target_arity in
    check_operand_types (br_mismatch op_begin "br_if") target 0 concrete_to_check;;
    poly ← sm_gets is_polymorphic;
    if poly : bool then
      pop_available_concrete_operands concrete_to_check;;
      t ← sm_unchecked (target !! 0%nat);
      push_operand (Some t)
    else mret tt.

(** *** br_table *)

(** [get_sig]: arity and first type of a label. *)
Definition get_sig (frame : block_t) : nat * value_type_obj :=
  if bool_decide (blk_type frame = block_type.loop) then (0%nat, None)
  else (length (blk_result frame), head (blk_result frame)).

(** A signature: label, arity, type. The expected one is [None] until the first
    label has been read ([have_expected_sig]). *)
Abbreviation label_sig := (Z * nat * value_type_obj)%type.

(** One label: read, validated, and compared with the expected signature. *)
Definition br_table_label (op_begin : nat) (expected : option label_sig) : M label_sig :=
  li ← read_u32 env op_begin cvec.invalid_label_index;
  frame ← target_frame_of op_begin li;
  let '(arity, type) := get_sig frame in
  match expected with
  | None => mret (li, arity, type)
  | Some (expected_label, expected_arity, expected_type) =>
      sm_when (negb (arity =? expected_arity)%nat ||
               (negb (expected_arity =? 0)%nat && negb (bool_decide (type = expected_type))))
        (sm_throw (invalid op_begin cvec.br_table_target_type_mismatch
          (sel_br_table_target_type_mismatch expected_label li
             (u32 (Z.of_nat expected_arity)) (u32 (Z.of_nat arity)) expected_type type)));;
      mret (expected_label, expected_arity, expected_type)
  end.

(** The [n] targets before the default label. *)
Fixpoint br_table_targets (op_begin : nat) (n : nat) (expected : option label_sig)
    : M (option label_sig) :=
  match n with
  | O => mret expected
  | S n =>
      sig ← br_table_label op_begin expected;
      br_table_targets op_begin n (Some sig)
  end.

(** The operand loop of [br_table]: the type fields are compared directly. *)
Fixpoint br_table_check (op_begin : nat) (expected_type : value_type_obj) (i n : nat) : M unit :=
  match n with
  | O => mret tt
  | S n =>
      s ← sm_get;
      actual ← sm_unchecked (operand_stack s !! i);
      sm_when (negb (bool_decide (otype actual = expected_type)))
        (sm_throw (invalid op_begin cvec.br_value_type_mismatch
          (sel_br_value_type_mismatch "br_table" expected_type (otype actual))));;
      br_table_check op_begin expected_type (S i) n
  end.

Definition case_br_table : M unit :=
  op_begin ← sm_gets code_curr;
  advance 1;;
  target_count ← read_u32 env op_begin cvec.invalid_label_index;
  s ← sm_get;
  let remaining := remaining_bytes env s in
  (* [target_count_exceeds_size_t] is constantly false: [std::size_t] has 64 bits. *)
  let plus_default_overflows := target_count =? size_t_max in
  sm_when (plus_default_overflows || (remaining =? 0) || (remaining <=? target_count))
    (sm_throw (invalid op_begin cvec.br_table_target_count_exceeds_remaining_bytes
      (sel_br_table_target_count_exceeds_remaining_bytes target_count remaining
         (if remaining =? 0 then 0 else remaining - 1))));;
  targets ← br_table_targets op_begin (Z.to_nat target_count) None;
  sig ← br_table_label op_begin targets;
  let '(_, expected_arity, expected_type) := sig in
  underflow_unless_succ op_begin "br_table" expected_arity;;
  idx ← try_pop_concrete_operand;
  sm_when (operand_mismatch idx i32)
    (sm_throw (invalid op_begin cvec.br_cond_type_not_i32
      (sel_br_cond_type_not_i32 "br_table" (co_type idx))));;
  n ← sm_gets concrete_operand_count;
  br_table_check op_begin expected_type 0 (min_count n expected_arity);;
  pop_available_concrete_operands expected_arity;;
  enter_unreachable.

Definition case_return : M unit :=
  op_begin ← sm_gets code_curr;
  advance 1;;
  s ← sm_get;
  func_frame ← sm_unchecked (last (control_flow_stack s));
  let ret := blk_result func_frame in
  let return_arity := length ret in
  underflow_unless op_begin "return" return_arity;;
  available ← sm_gets concrete_operand_count;
  check_operand_types (br_mismatch op_begin "return") ret 0 (min_count available return_arity);;
  pop_available_concrete_operands return_arity;;
  enter_unreachable.

(** Check the arguments, consume them and push the results of a callee. *)
Definition apply_callee (op_begin : nat) (op_name : string) (callee_type : function_type) : M unit :=
  available ← sm_gets concrete_operand_count;
  let param_count := length (parameter callee_type) in
  check_operand_types (br_mismatch op_begin op_name) (parameter callee_type) 0
    (min_count available param_count);;
  pop_available_concrete_operands param_count;;
  push_results (result callee_type).

(** The type of function [func_index], imported or local. *)
Definition callee_type_of (func_index : nat) : M function_type :=
  if (func_index <? import_func_count env)%nat then
    sm_unchecked (imported_funcs (modl env) !! func_index)
  else
    type_index ← sm_unchecked (funcs (modl env) !! (func_index - import_func_count env)%nat);
    sm_unchecked (types (modl env) !! Z.to_nat type_index).

Definition case_call : M unit :=
  op_begin ← sm_gets code_curr;
  advance 1;;
  func_index ← read_u32 env op_begin cvec.invalid_function_index_encoding;
  let all_function_size := (import_func_count env + local_func_count env)%nat in
  sm_when (Z.of_nat all_function_size <=? func_index)
    (sm_throw (invalid op_begin cvec.invalid_function_index
      (sel_invalid_function_index func_index (Z.of_nat all_function_size))));;
  callee_type ← callee_type_of (Z.to_nat func_index);
  underflow_unless op_begin "call" (length (parameter callee_type));;
  apply_callee op_begin "call" callee_type.

Definition case_call_indirect : M unit :=
  op_begin ← sm_gets code_curr;
  advance 1;;
  type_index ← read_u32 env op_begin cvec.invalid_type_index;
  s ← sm_get;
  (if (code_curr s =? code_end env)%nat then
     sm_throw (invalid op_begin cvec.invalid_table_index sel_none)
   else
     table_byte ← sm_unchecked (code env !! code_curr s);
     sm_when (negb (table_byte =? 0))
       (sm_throw (invalid op_begin cvec.invalid_table_index sel_none)));;
  advance 1;;
  let all_type_count := length (types (modl env)) in
  sm_when (Z.of_nat all_type_count <=? type_index)
    (sm_throw (invalid op_begin cvec.illegal_type_index
      (sel_illegal_type_index type_index (u32 (Z.of_nat all_type_count)))));;
  sm_when (all_table_count env <=? 0)
    (sm_throw (invalid op_begin cvec.illegal_table_index
      (sel_illegal_table_index 0 (all_table_count env))));;
  callee_type ← sm_unchecked (types (modl env) !! Z.to_nat type_index);
  underflow_unless_succ op_begin "call_indirect" (length (parameter callee_type));;
  idx ← try_pop_concrete_operand;
  sm_when (operand_mismatch idx i32)
    (sm_throw (invalid op_begin cvec.br_cond_type_not_i32
      (sel_br_cond_type_not_i32 "call_indirect" (co_type idx))));;
  apply_callee op_begin "call_indirect" callee_type.
End Control.
