(* ===== verification/ValidatorPlain.v ===== *)
(** * Validator: parametric, variable, memory and numeric instructions

    The cases [drop] to [f64_reinterpret_i64] of the instruction loop of
    [validate_code] ([validation/standard/wasm1/validator.h]) and the lambdas
    they call. The cases that only call such a lambda are grouped by instruction
    family; each group is the part of the [switch] it names, [None] when the opcode
    is not one of its labels. *)

From stdpp Require Import base list numbers strings.
From Stdlib Require Import ZArith Lia.
From S2P Require Import Prelude Leb128 WasmTypes ValidationError ValidatorState.
#[local] Open Scope string_scope.
Open Scope Z_scope.

Section Plain.
Context (env : venv).

Definition validate_numeric_unary (op_name : string) (expected_operand_type result_type : value_type)
    : M unit :=
  op_begin ← sm_gets code_curr;
  advance 1;;
  underflow_unless op_begin op_name 1;;
  operand ← try_pop_concrete_operand;
  sm_when (operand_mismatch operand expected_operand_type)
    (sm_throw (invalid op_begin cvec.numeric_operand_type_mismatch
      (sel_numeric_operand_type_mismatch op_name (Some expected_operand_type) (co_type operand))));;
  push_operand (Some result_type).

Definition validate_numeric_binary (op_name : string) (expected_operand_type result_type : value_type)
    : M unit :=
  op_begin ← sm_gets code_curr;
  advance 1;;
  underflow_unless op_begin op_name 2;;
  rhs ← try_pop_concrete_operand;
  sm_when (operand_mismatch rhs expected_operand_type)
    (sm_throw (invalid op_begin cvec.numeric_operand_type_mismatch
      (sel_numeric_operand_type_mismatch op_name (Some expected_operand_type) (co_type rhs))));;
  lhs ← try_pop_concrete_operand;
  sm_when (operand_mismatch lhs expected_operand_type)
    (sm_throw (invalid op_begin cvec.numeric_operand_type_mismatch
      (sel_numeric_operand_type_mismatch op_name (Some expected_operand_type) (co_type lhs))));;
  push_operand (Some result_type).

(** The immediates and static checks common to loads and stores. *)
Definition read_memarg (op_begin : nat) (op_name : string) (max_align : Z) : M unit :=
  align ← read_u32 env op_begin cvec.invalid_memarg_align;
  offset ← read_u32 env op_begin cvec.invalid_memarg_offset;
  sm_when (all_memory_count env =? 0)
    (sm_throw (invalid op_begin cvec.no_memory (sel_no_memory op_name align offset)));;
  sm_when (max_align <? align)
    (sm_throw (invalid op_begin cvec.illegal_memarg_alignment
      (sel_illegal_memarg_alignment op_name align max_align))).

Definition validate_mem_load (op_name : string) (max_align : Z) (result_type : value_type) : M unit :=
  op_begin ← sm_gets code_curr;
  advance 1;;
  read_memarg op_begin op_name max_align;;
  underflow_unless op_begin op_name 1;;
  addr ← try_pop_concrete_operand;
  sm_when (operand_mismatch addr i32)
    (sm_throw (invalid op_begin cvec.memarg_address_type_not_i32
      (sel_memarg_address_type_not_i32 op_name (co_type addr))));;
  push_operand (Some result_type).

Definition validate_mem_store (op_name : string) (max_align : Z) (expected_value_type : value_type)
    : M unit :=
  op_begin ← sm_gets code_curr;
  advance 1;;
  read_memarg op_begin op_name max_align;;
  underflow_unless op_begin op_name 2;;
  value ← try_pop_concrete_operand;
  addr ← try_pop_concrete_operand;
  sm_when (operand_mismatch addr i32)
    (sm_throw (invalid op_begin cvec.memarg_address_type_not_i32
      (sel_memarg_address_type_not_i32 op_name (co_type addr))));;
  sm_when (operand_mismatch value expected_value_type)
    (sm_throw (invalid op_begin cvec.store_value_type_mismatch
      (sel_store_value_type_mismatch op_name (Some expected_value_type) (co_type value)))).

(** ** Parametric instructions *)

Definition case_drop : M unit :=
  op_begin ← sm_gets code_curr;
  advance 1;;
  s ← sm_get;
  if (concrete_operand_count s =? 0)%nat then
    sm_when (negb (is_polymorphic s)) (report_operand_stack_underflow op_begin "drop" 1)
  else sm_modify (set_operand_stack (tail (operand_stack s))).

(** An operand popped by [select]: its type if it is on the stack and known. *)
Definition known_type (x : concrete_operand_t) : option value_type_obj :=
  if from_stack x && negb (co_is_unknown x) then Some (co_type x) else None.

Definition case_select : M unit :=
  op_begin ← sm_gets code_curr;
  advance 1;;
  underflow_unless op_begin "select" 3;;
  cond_operand ← try_pop_concrete_operand;
  let cond := known_type cond_operand in
  match cond with
  | Some cond_type =>
      sm_when (type_ne cond_type i32)
        (sm_throw (invalid op_begin cvec.select_cond_type_not_i32
          (sel_select_cond_type_not_i32 cond_type)))
  | None => mret tt
  end;;
  v2_operand ← try_pop_concrete_operand;
  let v2 := known_type v2_operand in
  v1_operand ← try_pop_concrete_operand;
  let v1 := known_type v1_operand in
  match v1, v2 with
  | Some v1_type, Some v2_type =>
      sm_when (negb (bool_decide (v1_type = v2_type)))
        (sm_throw (invalid op_begin cvec.select_type_mismatch
          (sel_select_type_mismatch v1_type v2_type)))
  | _, _ => mret tt
  end;;
  match v1, v2 with
  | Some v1_type, _ => push_operand v1_type
  | None, Some v2_type => push_operand v2_type
  | None, None =>
      sm_modify (fun s => set_operand_stack (Operand None true :: operand_stack s) s)
  end.

(** ** Variable instructions *)

(** The scan over the runs of declared locals. *)
Fixpoint find_local (tem_local_index : Z) (locals : list local_entry) : option value_type :=
  match locals with
  | [] => None
  | local_part :: rest =>
      if tem_local_index <? count local_part then Some (local_type local_part)
      else find_local (u32 (tem_local_index - count local_part)) rest
  end.

(** Bounds test and type of local [local_index], as in [local.get/set/tee]. *)
Definition local_type_of (op_begin : nat) (local_index : Z) : M value_type :=
  let illegal := invalid op_begin cvec.illegal_local_index
                   (sel_illegal_local_index local_index (all_local_count env)) in
  sm_when (all_local_count env <=? local_index) (sm_throw illegal);;
  if local_index <? func_parameter_count_u32 env then
    sm_unchecked (parameter (curr_func_type env) !! Z.to_nat local_index)
  else
    match find_local (u32 (local_index - func_parameter_count_u32 env)) (curr_code_locals env) with
    | Some t => mret t
    | None => sm_throw illegal
    end.

Definition case_local_get : M unit :=
  op_begin ← sm_gets code_curr;
  advance 1;;
  local_index ← read_u32 env op_begin cvec.invalid_local_index;
  curr_local_type ← local_type_of op_begin local_index;
  push_operand (Some curr_local_type).

Definition case_local_set : M unit :=
  op_begin ← sm_gets code_curr;
  advance 1;;
  local_index ← read_u32 env op_begin cvec.invalid_local_index;
  curr_local_type ← local_type_of op_begin local_index;
  underflow_unless op_begin "local.set" 1;;
  value ← try_pop_concrete_operand;
  sm_when (operand_mismatch value curr_local_type)
    (sm_throw (invalid op_begin cvec.local_set_type_mismatch
      (sel_local_variable_type_mismatch local_index (Some curr_local_type) (co_type value)))).

Definition case_local_tee : M unit :=
  op_begin ← sm_gets code_curr;
  advance 1;;
  local_index ← read_u32 env op_begin cvec.invalid_local_index;
  curr_local_type ← local_type_of op_begin local_index;
  s ← sm_get;
  (if (concrete_operand_count s =? 0)%nat then
     if negb (is_polymorphic s) then report_operand_stack_underflow op_begin "local.tee" 1
     else push_operand (Some curr_local_type)
   else
     value ← try_peek_concrete_operand;
     sm_when (negb (co_is_unknown value) && type_ne (co_type value) curr_local_type)
       (sm_throw (invalid op_begin cvec.local_tee_type_mismatch
         (sel_local_variable_type_mismatch local_index (Some curr_local_type) (co_type value)))));;
  s' ← sm_get;
  _ ← sm_unchecked (head (operand_stack s'));
  sm_modify (set_operand_stack
    (Operand (Some curr_local_type) false :: tail (operand_stack s'))).

(** Bounds test and type of global [global_index], as in [global.get/set]. *)
Definition global_of (op_begin : nat) (global_index : Z) : M global_type :=
  sm_when (all_global_count env <=? global_index)
    (sm_throw (invalid op_begin cvec.illegal_global_index
      (sel_illegal_global_index global_index (all_global_count env))));;
  if global_index <? imported_global_count env then
    sm_unchecked (imported_globals (modl env) !! Z.to_nat global_index)
  else
    sm_unchecked (local_globals (modl env) !! Z.to_nat (u32 (global_index - imported_global_count env))).

Definition case_global_get : M unit :=
  op_begin ← sm_gets code_curr;
  advance 1;;
  global_index ← read_u32 env op_begin cvec.invalid_global_index;
  curr_global ← global_of op_begin global_index;
  push_operand (Some (global_value_type curr_global)).

Definition case_global_set : M unit :=
  op_begin ← sm_gets code_curr;
  advance 1;;
  global_index ← read_u32 env op_begin cvec.invalid_global_index;
  curr_global ← global_of op_begin global_index;
  sm_when (negb (is_mutable curr_global))
    (sm_throw (invalid op_begin cvec.immutable_global_set (sel_immutable_global_set global_index)));;
  underflow_unless op_begin "global.set" 1;;
  value ← try_pop_concrete_operand;
  sm_when (operand_mismatch value (global_value_type curr_global))
    (sm_throw (invalid op_begin cvec.global_set_type_mismatch
      (sel_global_variable_type_mismatch global_index (Some (global_value_type curr_global))
         (co_type value)))).

(** ** Memory size and growth *)

(** The memory index byte of [memory.size] and [memory.grow]. *)
Definition read_memory_index (op_begin : nat) (op_name : string) : M unit :=
  s ← sm_get;
  if (code_curr s =? code_end env)%nat then
    sm_throw (VErr op_begin cvec.invalid_memory_index sel_none pc_end_of_file)
  else
    memidx ← sm_unchecked (code env !! code_curr s);
    advance 1;;
    sm_when (negb (memidx =? 0))
      (sm_throw (invalid op_begin cvec.illegal_memory_index
        (sel_illegal_memory_index memidx (all_memory_count env))));;
    sm_when (all_memory_count env =? 0)
      (sm_throw (invalid op_begin cvec.no_memory (sel_no_memory op_name 0 0))).

Definition case_memory_size : M unit :=
  op_begin ← sm_gets code_curr;
  advance 1;;
  read_memory_index op_begin "memory.size";;
  push_operand (Some i32).

Definition case_memory_grow : M unit :=
  op_begin ← sm_gets code_curr;
  advance 1;;
  read_memory_index op_begin "memory.grow";;
  underflow_unless op_begin "memory.grow" 1;;
  delta ← try_pop_concrete_operand;
  sm_when (operand_mismatch delta i32)
    (sm_throw (invalid op_begin cvec.memory_grow_delta_type_not_i32
      (sel_memory_grow_delta_type_not_i32 (co_type delta))));;
  push_operand (Some i32).

(** ** Constants *)

Definition case_i32_const : M unit :=
  op_begin ← sm_gets code_curr;
  advance 1;;
  read_leb128 env 32 true op_begin cvec.invalid_const_immediate (sel_invalid_const_immediate "i32.const");;
  push_operand (Some i32).

Definition case_i64_const : M unit :=
  op_begin ← sm_gets code_curr;
  advance 1;;
  read_leb128 env 64 true op_begin cvec.invalid_const_immediate (sel_invalid_const_immediate "i64.const");;
  push_operand (Some i64).

(** A fixed-width float immediate: [sizeof] bytes are skipped. *)
Definition skip_float (op_begin : nat) (op_name : string) (size_of : nat) : M unit :=
  s ← sm_get;
  sm_when (remaining_bytes env s <? Z.of_nat size_of)
    (sm_throw (VErr op_begin cvec.invalid_const_immediate (sel_invalid_const_immediate op_name)
       pc_end_of_file));;
  advance size_of.

Definition case_f32_const : M unit :=
  op_begin ← sm_gets code_curr;
  advance 1;;
  skip_float op_begin "f32.const" 4;;
  push_operand (Some f32).

Definition case_f64_const : M unit :=
  op_begin ← sm_gets code_curr;
  advance 1;;
  skip_float op_begin "f64.const" 8;;
  push_operand (Some f64).

(** ** Families of cases that call one lambda *)

(** Loads. *)
Definition switch_loads (op : wasm1_code.op_basic) : option (M unit) :=
  match op with
  | wasm1_code.i32_load => Some (validate_mem_load "i32.load" 2 i32)
  | wasm1_code.i64_load => Some (validate_mem_load "i64.load" 3 i64)
  | wasm1_code.f32_load => Some (validate_mem_load "f32.load" 2 f32)
  | wasm1_code.f64_load => Some (validate_mem_load "f64.load" 3 f64)
  | wasm1_code.i32_load8_s => Some (validate_mem_load "i32.load8_s" 0 i32)
  | wasm1_code.i32_load8_u => Some (validate_mem_load "i32.load8_u" 0 i32)
  | wasm1_code.i32_load16_s => Some (validate_mem_load "i32.load16_s" 1 i32)
  | wasm1_code.i32_load16_u => Some (validate_mem_load "i32.load16_u" 1 i32)
  | wasm1_code.i64_load8_s => Some (validate_mem_load "i64.load8_s" 0 i64)
  | wasm1_code.i64_load8_u => Some (validate_mem_load "i64.load8_u" 0 i64)
  | wasm1_code.i64_load16_s => Some (validate_mem_load "i64.load16_s" 1 i64)
  | wasm1_code.i64_load16_u => Some (validate_mem_load "i64.load16_u" 1 i64)
  | wasm1_code.i64_load32_s => Some (validate_mem_load "i64.load32_s" 2 i64)
  | wasm1_code.i64_load32_u => Some (validate_mem_load "i64.load32_u" 2 i64)
  | _ => None
  end.

(** Stores. *)
Definition switch_stores (op : wasm1_code.op_basic) : option (M unit) :=
  match op with
  | wasm1_code.i32_store => Some (validate_mem_store "i32.store" 2 i32)
  | wasm1_code.i64_store => Some (validate_mem_store "i64.store" 3 i64)
  | wasm1_code.f32_store => Some (validate_mem_store "f32.store" 2 f32)
  | wasm1_code.f64_store => Some (validate_mem_store "f64.store" 3 f64)
  | wasm1_code.i32_store8 => Some (validate_mem_store "i32.store8" 0 i32)
  | wasm1_code.i32_store16 => Some (validate_mem_store "i32.store16" 1 i32)
  | wasm1_code.i64_store8 => Some (validate_mem_store "i64.store8" 0 i64)
  | wasm1_code.i64_store16 => Some (validate_mem_store "i64.store16" 1 i64)
  | wasm1_code.i64_store32 => Some (validate_mem_store "i64.store32" 2 i64)
  | _ => None
  end.

(** Tests and comparisons on [i32]. *)
Definition switch_i32_comparisons (op : wasm1_code.op_basic) : option (M unit) :=
  match op with
  | wasm1_code.i32_eqz => Some (validate_numeric_unary "i32.eqz" i32 i32)
  | wasm1_code.i32_eq => Some (validate_numeric_binary "i32.eq" i32 i32)
  | wasm1_code.i32_ne => Some (validate_numeric_binary "i32.ne" i32 i32)
  | wasm1_code.i32_lt_s => Some (validate_numeric_binary "i32.lt_s" i32 i32)
  | wasm1_code.i32_lt_u => Some (validate_numeric_binary "i32.lt_u" i32 i32)
  | wasm1_code.i32_gt_s => Some (validate_numeric_binary "i32.gt_s" i32 i32)
  | wasm1_code.i32_gt_u => Some (validate_numeric_binary "i32.gt_u" i32 i32)
  | wasm1_code.i32_le_s => Some (validate_numeric_binary "i32.le_s" i32 i32)
  | wasm1_code.i32_le_u => Some (validate_numeric_binary "i32.le_u" i32 i32)
  | wasm1_code.i32_ge_s => Some (validate_numeric_binary "i32.ge_s" i32 i32)
  | wasm1_code.i32_ge_u => Some (validate_numeric_binary "i32.ge_u" i32 i32)
  | _ => None
  end.

(** Tests and comparisons on [i64]. *)
Definition switch_i64_comparisons (op : wasm1_code.op_basic) : option (M unit) :=
  match op with
  | wasm1_code.i64_eqz => Some (validate_numeric_unary "i64.eqz" i64 i32)
  | wasm1_code.i64_eq => Some (validate_numeric_binary "i64.eq" i64 i32)
  | wasm1_code.i64_ne => Some (validate_numeric_binary "i64.ne" i64 i32)
  | wasm1_code.i64_lt_s => Some (validate_numeric_binary "i64.lt_s" i64 i32)
  | wasm1_code.i64_lt_u => Some (validate_numeric_binary "i64.lt_u" i64 i32)
  | wasm1_code.i64_gt_s => Some (validate_numeric_binary "i64.gt_s" i64 i32)
  | wasm1_code.i64_gt_u => Some (validate_numeric_binary "i64.gt_u" i64 i32)
  | wasm1_code.i64_le_s => Some (validate_numeric_binary "i64.le_s" i64 i32)
  | wasm1_code.i64_le_u => Some (validate_numeric_binary "i64.le_u" i64 i32)
  | wasm1_code.i64_ge_s => Some (validate_numeric_binary "i64.ge_s" i64 i32)
  | wasm1_code.i64_ge_u => Some (validate_numeric_binary "i64.ge_u" i64 i32)
  | _ => None
  end.

(** Comparisons on floats. *)
Definition switch_float_comparisons (op : wasm1_code.op_basic) : option (M unit) :=
  match op with
  | wasm1_code.f32_eq => Some (validate_numeric_binary "f32.eq" f32 i32)
  | wasm1_code.f32_ne => Some (validate_numeric_binary "f32.ne" f32 i32)
  | wasm1_code.f32_lt => Some (validate_numeric_binary "f32.lt" f32 i32)
  | wasm1_code.f32_gt => Some (validate_numeric_binary "f32.gt" f32 i32)
  | wasm1_code.f32_le => Some (validate_numeric_binary "f32.le" f32 i32)
  | wasm1_code.f32_ge => Some (validate_numeric_binary "f32.ge" f32 i32)
  | wasm1_code.f64_eq => Some (validate_numeric_binary "f64.eq" f64 i32)
  | wasm1_code.f64_ne => Some (validate_numeric_binary "f64.ne" f64 i32)
  | wasm1_code.f64_lt => Some (validate_numeric_binary "f64.lt" f64 i32)
  | wasm1_code.f64_gt => Some (validate_numeric_binary "f64.gt" f64 i32)
  | wasm1_code.f64_le => Some (validate_numeric_binary "f64.le" f64 i32)
  | wasm1_code.f64_ge => Some (validate_numeric_binary "f64.ge" f64 i32)
  | _ => None
  end.

(** [i32] arithmetic. *)
Definition switch_i32_arithmetic (op : wasm1_code.op_basic) : option (M unit) :=
  match op with
  | wasm1_code.i32_clz => Some (validate_numeric_unary "i32.clz" i32 i32)
  | wasm1_code.i32_ctz => Some (validate_numeric_unary "i32.ctz" i32 i32)
  | wasm1_code.i32_popcnt => Some (validate_numeric_unary "i32.popcnt" i32 i32)
  | wasm1_code.i32_add => Some (validate_numeric_binary "i32.add" i32 i32)
  | wasm1_code.i32_sub => Some (validate_numeric_binary "i32.sub" i32 i32)
  | wasm1_code.i32_mul => Some (validate_numeric_binary "i32.mul" i32 i32)
  | wasm1_code.i32_div_s => Some (validate_numeric_binary "i32.div_s" i32 i32)
  | wasm1_code.i32_div_u => Some (validate_numeric_binary "i32.div_u" i32 i32)
  | wasm1_code.i32_rem_s => Some (validate_numeric_binary "i32.rem_s" i32 i32)
  | wasm1_code.i32_rem_u => Some (validate_numeric_binary "i32.rem_u" i32 i32)
  | wasm1_code.i32_and => Some (validate_numeric_binary "i32.and" i32 i32)
  | wasm1_code.i32_or => Some (validate_numeric_binary "i32.or" i32 i32)
  | wasm1_code.i32_xor => Some (validate_numeric_binary "i32.xor" i32 i32)
  | wasm1_code.i32_shl => Some (validate_numeric_binary "i32.shl" i32 i32)
  | wasm1_code.i32_shr_s => Some (validate_numeric_binary "i32.shr_s" i32 i32)
  | wasm1_code.i32_shr_u => Some (validate_numeric_binary "i32.shr_u" i32 i32)
  | wasm1_code.i32_rotl => Some (validate_numeric_binary "i32.rotl" i32 i32)
  | wasm1_code.i32_rotr => Some (validate_numeric_binary "i32.rotr" i32 i32)
  | _ => None
  end.

(** [i64] arithmetic. *)
Definition switch_i64_arithmetic (op : wasm1_code.op_basic) : option (M unit) :=
  match op with
  | wasm1_code.i64_clz => Some (validate_numeric_unary "i64.clz" i64 i64)
  | wasm1_code.i64_ctz => Some (validate_numeric_unary "i64.ctz" i64 i64)
  | wasm1_code.i64_popcnt => Some (validate_numeric_unary "i64.popcnt" i64 i64)
  | wasm1_code.i64_add => Some (validate_numeric_binary "i64.add" i64 i64)
  | wasm1_code.i64_sub => Some (validate_numeric_binary "i64.sub" i64 i64)
  | wasm1_code.i64_mul => Some (validate_numeric_binary "i64.mul" i64 i64)
  | wasm1_code.i64_div_s => Some (validate_numeric_binary "i64.div_s" i64 i64)
  | wasm1_code.i64_div_u => Some (validate_numeric_binary "i64.div_u" i64 i64)
  | wasm1_code.i64_rem_s => Some (validate_numeric_binary "i64.rem_s" i64 i64)
  | wasm1_code.i64_rem_u => Some (validate_numeric_binary "i64.rem_u" i64 i64)
  | wasm1_code.i64_and => Some (validate_numeric_binary "i64.and" i64 i64)
  | wasm1_code.i64_or => Some (validate_numeric_binary "i64.or" i64 i64)
  | wasm1_code.i64_xor => Some (validate_numeric_binary "i64.xor" i64 i64)
  | wasm1_code.i64_shl => Some (validate_numeric_binary "i64.shl" i64 i64)
  | wasm1_code.i64_shr_s => Some (validate_numeric_binary "i64.shr_s" i64 i64)
  | wasm1_code.i64_shr_u => Some (validate_numeric_binary "i64.shr_u" i64 i64)
  | wasm1_code.i64_rotl => Some (validate_numeric_binary "i64.rotl" i64 i64)
  | wasm1_code.i64_rotr => Some (validate_numeric_binary "i64.rotr" i64 i64)
  | _ => None
  end.

(** [f32] arithmetic. *)
Definition switch_f32_arithmetic (op : wasm1_code.op_basic) : option (M unit) :=
  match op with
  | wasm1_code.f32_abs => Some (validate_numeric_unary "f32.abs" f32 f32)
  | wasm1_code.f32_neg => Some (validate_numeric_unary "f32.neg" f32 f32)
  | wasm1_code.f32_ceil => Some (validate_numeric_unary "f32.ceil" f32 f32)
  | wasm1_code.f32_floor => Some (validate_numeric_unary "f32.floor" f32 f32)
  | wasm1_code.f32_trunc => Some (validate_numeric_unary "f32.trunc" f32 f32)
  | wasm1_code.f32_nearest => Some (validate_numeric_unary "f32.nearest" f32 f32)
  | wasm1_code.f32_sqrt => Some (validate_numeric_unary "f32.sqrt" f32 f32)
  | wasm1_code.f32_add => Some (validate_numeric_binary "f32.add" f32 f32)
  | wasm1_code.f32_sub => Some (validate_numeric_binary "f32.sub" f32 f32)
  | wasm1_code.f32_mul => Some (validate_numeric_binary "f32.mul" f32 f32)
  | wasm1_code.f32_div => Some (validate_numeric_binary "f32.div" f32 f32)
  | wasm1_code.f32_min => Some (validate_numeric_binary "f32.min" f32 f32)
  | wasm1_code.f32_max => Some (validate_numeric_binary "f32.max" f32 f32)
  | wasm1_code.f32_copysign => Some (validate_numeric_binary "f32.copysign" f32 f32)
  | _ => None
  end.

(** [f64] arithmetic. *)
Definition switch_f64_arithmetic (op : wasm1_code.op_basic) : option (M unit) :=
  match op with
  | wasm1_code.f64_abs => Some (validate_numeric_unary "f64.abs" f64 f64)
  | wasm1_code.f64_neg => Some (validate_numeric_unary "f64.neg" f64 f64)
  | wasm1_code.f64_ceil => Some (validate_numeric_unary "f64.ceil" f64 f64)
  | wasm1_code.f64_floor => Some (validate_numeric_unary "f64.floor" f64 f64)
  | wasm1_code.f64_trunc => Some (validate_numeric_unary "f64.trunc" f64 f64)
  | wasm1_code.f64_nearest => Some (validate_numeric_unary "f64.nearest" f64 f64)
  | wasm1_code.f64_sqrt => Some (validate_numeric_unary "f64.sqrt" f64 f64)
  | wasm1_code.f64_add => Some (validate_numeric_binary "f64.add" f64 f64)
  | wasm1_code.f64_sub => Some (validate_numeric_binary "f64.sub" f64 f64)
  | wasm1_code.f64_mul => Some (validate_numeric_binary "f64.mul" f64 f64)
  | wasm1_code.f64_div => Some (validate_numeric_binary "f64.div" f64 f64)
  | wasm1_code.f64_min => Some (validate_numeric_binary "f64.min" f64 f64)
  | wasm1_code.f64_max => Some (validate_numeric_binary "f64.max" f64 f64)
  | wasm1_code.f64_copysign => Some (validate_numeric_binary "f64.copysign" f64 f64)
  | _ => None
  end.

(** Conversions. *)
Definition switch_conversions (op : wasm1_code.op_basic) : option (M unit) :=
  match op with
  | wasm1_code.i32_wrap_i64 => Some (validate_numeric_unary "i32.wrap_i64" i64 i32)
  | wasm1_code.i32_trunc_f32_s => Some (validate_numeric_unary "i32.trunc_f32_s" f32 i32)
  | wasm1_code.i32_trunc_f32_u => Some (validate_numeric_unary "i32.trunc_f32_u" f32 i32)
  | wasm1_code.i32_trunc_f64_s => Some (validate_numeric_unary "i32.trunc_f64_s" f64 i32)
  | wasm1_code.i32_trunc_f64_u => Some (validate_numeric_unary "i32.trunc_f64_u" f64 i32)
  | wasm1_code.i64_extend_i32_s => Some (validate_numeric_unary "i64.extend_i32_s" i32 i64)
  | wasm1_code.i64_extend_i32_u => Some (validate_numeric_unary "i64.extend_i32_u" i32 i64)
  | wasm1_code.i64_trunc_f32_s => Some (validate_numeric_unary "i64.trunc_f32_s" f32 i64)
  | wasm1_code.i64_trunc_f32_u => Some (validate_numeric_unary "i64.trunc_f32_u" f32 i64)
  | wasm1_code.i64_trunc_f64_s => Some (validate_numeric_unary "i64.trunc_f64_s" f64 i64)
  | wasm1_code.i64_trunc_f64_u => Some (validate_numeric_unary "i64.trunc_f64_u" f64 i64)
  | wasm1_code.f32_convert_i32_s => Some (validate_numeric_unary "f32.convert_i32_s" i32 f32)
  | wasm1_code.f32_convert_i32_u => Some (validate_numeric_unary "f32.convert_i32_u" i32 f32)
  | wasm1_code.f32_convert_i64_s => Some (validate_numeric_unary "f32.convert_i64_s" i64 f32)
  | wasm1_code.f32_convert_i64_u => Some (validate_numeric_unary "f32.convert_i64_u" i64 f32)
  | wasm1_code.f32_demote_f64 => Some (validate_numeric_unary "f32.demote_f64" f64 f32)
  | wasm1_code.f64_convert_i32_s => Some (validate_numeric_unary "f64.convert_i32_s" i32 f64)
  | wasm1_code.f64_convert_i32_u => Some (validate_numeric_unary "f64.convert_i32_u" i32 f64)
  | wasm1_code.f64_convert_i64_s => Some (validate_numeric_unary "f64.convert_i64_s" i64 f64)
  | wasm1_code.f64_convert_i64_u => Some (validate_numeric_unary "f64.convert_i64_u" i64 f64)
  | wasm1_code.f64_promote_f32 => Some (validate_numeric_unary "f64.promote_f32" f32 f64)
  | wasm1_code.i32_reinterpret_f32 => Some (validate_numeric_unary "i32.reinterpret_f32" f32 i32)
  | wasm1_code.i64_reinterpret_f64 => Some (validate_numeric_unary "i64.reinterpret_f64" f64 i64)
  | wasm1_code.f32_reinterpret_i32 => Some (validate_numeric_unary "f32.reinterpret_i32" i32 f32)
  | wasm1_code.f64_reinterpret_i64 => Some (validate_numeric_unary "f64.reinterpret_i64" i64 f64)
  | _ => None
  end.

End Plain.
