(* ===== verification/Validator.v ===== *)
(** * The Release 1.0 code validator

    The instruction loop of [validate_code] ([validation/standard/wasm1/validator.h])
    over the cases of [ValidatorControl] and [ValidatorPlain], and [validate_code]
    itself. *)

From stdpp Require Import base list numbers strings.
From Stdlib Require Import ZArith Lia.
From S2P Require Import Prelude Leb128 WasmTypes ValidationError ValidatorState.
From S2P Require Import ValidatorControl ValidatorPlain.

Section Loop.
Context (env : venv).

Definition continue (m : M unit) : M flow := m;; mret Continue.

(** The cases grouped by instruction family. *)
Definition switch_families (op : wasm1_code.op_basic) : option (M unit) :=
  union (switch_loads env op)
  (union (switch_stores env op)
  (union (switch_i32_comparisons op)
  (union (switch_i64_comparisons op)
  (union (switch_float_comparisons op)
  (union (switch_i32_arithmetic op)
  (union (switch_i64_arithmetic op)
  (union (switch_f32_arithmetic op)
  (union (switch_f64_arithmetic op)
         (switch_conversions op))))))))).

(** The default case: a byte that is no opcode of Release 1.0. *)
Definition case_default (b : Z) : M flow :=
  s ← sm_get;
  sm_throw (invalid (code_curr s) cvec.illegal_opbase (sel_u8 b)).

Definition switch_opbase (op : wasm1_code.op_basic) : M flow :=
  match op with
  | wasm1_code.unreachable => continue case_unreachable
  | wasm1_code.nop => continue case_nop
  | wasm1_code.block => continue (case_block env)
  | wasm1_code.loop => continue (case_loop env)
  | wasm1_code.if_ => continue (case_if env)
  | wasm1_code.else_ => continue case_else
  | wasm1_code.end_ => case_end env
  | wasm1_code.br => continue (case_br env)
  | wasm1_code.br_if => continue (case_br_if env)
  | wasm1_code.br_table => continue (case_br_table env)
  | wasm1_code.return_ => continue case_return
  | wasm1_code.call => continue (case_call env)
  | wasm1_code.call_indirect => continue (case_call_indirect env)
  | wasm1_code.drop => continue case_drop
  | wasm1_code.select => continue case_select
  | wasm1_code.local_get => continue (case_local_get env)
  | wasm1_code.local_set => continue (case_local_set env)
  | wasm1_code.local_tee => continue (case_local_tee env)
  | wasm1_code.global_get => continue (case_global_get env)
  | wasm1_code.global_set => continue (case_global_set env)
  | wasm1_code.memory_size => continue (case_memory_size env)
  | wasm1_code.memory_grow => continue (case_memory_grow env)
  | wasm1_code.i32_const => continue (case_i32_const env)
  | wasm1_code.i64_const => continue (case_i64_const env)
  | wasm1_code.f32_const => continue (case_f32_const env)
  | wasm1_code.f64_const => continue (case_f64_const env)
  | _ =>
      match switch_families op with
      | Some m => continue m
      | None => case_default (wasm1_code.opcode op)
      end
  end.

(** One iteration of [for(;;)]. *)
Definition validate_step : M flow :=
  s ← sm_get;
  if (code_curr s =? code_end env)%nat then
    sm_throw (invalid (code_curr s) cvec.missing_end sel_none)
  else
    curr_opbase ← sm_unchecked (code env !! code_curr s);
    match wasm1_code.of_byte curr_opbase with
    | Some op => switch_opbase op
    | None => case_default curr_opbase
    end.

Fixpoint validate_loop (fuel : nat) : M unit :=
  match fuel with
  | O => sm_fuel
  | S fuel =>
      fl ← validate_step;
      match fl with
      | Return => mret tt
      | Continue => validate_loop fuel
      end
  end.
End Loop.

(** [validate_code]: every iteration consumes at least one byte, so one more
    iteration than there are bytes is enough fuel. *)
Definition validate_code (m : module_storage) (function_index : nat) (code : list Z)
    : outcome verr unit :=
  match validate_prologue m function_index code with
  | Done env =>
      match validate_loop env (S (length code)) (initial_state env) with
      | Done _ => Done tt
      | Thrown e => Thrown e
      | Undefined => Undefined
      | OutOfFuel => OutOfFuel
      end
  | Thrown e => Thrown e
  | Undefined => Undefined
  | OutOfFuel => OutOfFuel
  end.

(** *** Small modules *)

Module Examples.
(** One function of type [params -> results] with one body. *)
Definition one_func (params results : list value_type) (locals : list local_entry) : module_storage :=
  {| imported_funcs := []; imported_tables := 0; imported_memories := 0; imported_globals := [];
     types := [FunctionType params results]; funcs := [0]; tables := 0; memories := 0;
     local_globals := []; codes := [locals] |}.

(** [local.get 0; local.get 1; i32.add; end] *)
Example add_accepted : validate_code (one_func [i32; i32] [i32] []) 0 [32; 0; 32; 1; 106; 11] = Done tt.
Proof. vm_compute. reflexivity. Qed.

(** [block (result i32) (i32.const 1) (br_if 0 (i32.const 0)) end; end] *)
Example br_if_accepted :
  validate_code (one_func [] [i32] []) 0 [2; 127; 65; 1; 65; 0; 13; 0; 11; 11] = Done tt.
Proof. vm_compute. reflexivity. Qed.

(** [f32.const 0; i32.eqz; drop; end] *)
Example type_error :
  validate_code (one_func [] [] []) 0 [67; 0; 0; 0; 0; 69; 26; 11] =
  Thrown (invalid 5 cvec.numeric_operand_type_mismatch
    (sel_numeric_operand_type_mismatch "i32.eqz" (Some i32) (Some f32))).
Proof. vm_compute. reflexivity. Qed.

(** [unreachable; select; i32.const 0; br_table 0; end] in a function returning [i32]. *)
Example br_table_unknown :
  validate_code (one_func [] [i32] []) 0 [0; 27; 65; 0; 14; 0; 0; 11] =
  Thrown (invalid 4 cvec.br_value_type_mismatch
    (sel_br_value_type_mismatch "br_table" (Some i32) None)).
Proof. vm_compute. reflexivity. Qed.
End Examples.
