(* ===== verification/WasmSpec.v ===== *)
(** * WebAssembly Release 1.0: syntax, binary format and typing of expressions

    The contract the code validator is verified against: the abstract syntax of
    instructions, the binary grammar of expressions and the declarative type
    system, as in the chapters "Structure", "Binary format" and "Validation" of the
    specification. Nothing here is derived from the validator.

    A stack type is a list whose head is the top of the stack, so the parameter and
    result vectors of function types, which the specification writes with the top
    last, appear reversed. *)

From stdpp Require Import base list numbers.
From Stdlib Require Import ZArith Lia.
From S2P Require Import Prelude Leb128 WasmTypes.

(** ** Abstract syntax *)

Inductive instr :=
| IUnreachable
| INop
| IBlock (rt : list value_type) (es : list instr)
| ILoop (rt : list value_type) (es : list instr)
| IIf (rt : list value_type) (es1 es2 : list instr)
| IBr (l : nat)
| IBrIf (l : nat)
| IBrTable (ls : list nat) (ld : nat)
| IReturn
| ICall (x : nat)
| ICallIndirect (x : nat)
| IDrop
| ISelect
| ILocalGet (x : nat)
| ILocalSet (x : nat)
| ILocalTee (x : nat)
| IGlobalGet (x : nat)
| IGlobalSet (x : nat)
| ILoad (op align offset : Z)
| IStore (op align offset : Z)
| IMemorySize
| IMemoryGrow
| II32Const (v : Z)
| II64Const (v : Z)
| IF32Const (bits : list Z)
| IF64Const (bits : list Z)
| INumeric (op : Z).

(** ** Index of instructions *)

(** Bit width and value type of a memory access, by opcode. *)
Definition load_type (op : Z) : option (value_type * Z) :=
  if op =? 40 then Some (i32, 32) else if op =? 41 then Some (i64, 64)
  else if op =? 42 then Some (f32, 32) else if op =? 43 then Some (f64, 64)
  else if (44 <=? op) && (op <=? 45) then Some (i32, 8)
  else if (46 <=? op) && (op <=? 47) then Some (i32, 16)
  else if (48 <=? op) && (op <=? 49) then Some (i64, 8)
  else if (50 <=? op) && (op <=? 51) then Some (i64, 16)
  else if (52 <=? op) && (op <=? 53) then Some (i64, 32)
  else None.

Definition store_type (op : Z) : option (value_type * Z) :=
  if op =? 54 then Some (i32, 32) else if op =? 55 then Some (i64, 64)
  else if op =? 56 then Some (f32, 32) else if op =? 57 then Some (f64, 64)
  else if op =? 58 then Some (i32, 8) else if op =? 59 then Some (i32, 16)
  else if op =? 60 then Some (i64, 8) else if op =? 61 then Some (i64, 16)
  else if op =? 62 then Some (i64, 32)
  else None.

(** The alignment 2^align must not exceed the access width in bytes. *)
Definition align_ok (align bits : Z) : Prop := 2 ^ align <= bits / 8.

(** Operands and result of the numeric instructions, by opcode. *)
Definition numeric_type (op : Z) : option (list value_type * value_type) :=
  let rng a b := (a <=? op) && (op <=? b) in
  if op =? 69 then Some ([i32], i32)
  else if rng 70 79 then Some ([i32; i32], i32)
  else if op =? 80 then Some ([i64], i32)
  else if rng 81 90 then Some ([i64; i64], i32)
  else if rng 91 96 then Some ([f32; f32], i32)
  else if rng 97 102 then Some ([f64; f64], i32)
  else if rng 103 105 then Some ([i32], i32)
  else if rng 106 120 then Some ([i32; i32], i32)
  else if rng 121 123 then Some ([i64], i64)
  else if rng 124 138 then Some ([i64; i64], i64)
  else if rng 139 145 then Some ([f32], f32)
  else if rng 146 152 then Some ([f32; f32], f32)
  else if rng 153 159 then Some ([f64], f64)
  else if rng 160 166 then Some ([f64; f64], f64)
  else if op =? 167 then Some ([i64], i32)
  else if rng 168 169 then Some ([f32], i32)
  else if rng 170 171 then Some ([f64], i32)
  else if rng 172 173 then Some ([i32], i64)
  else if rng 174 175 then Some ([f32], i64)
  else if rng 176 177 then Some ([f64], i64)
  else if rng 178 179 then Some ([i32], f32)
  else if rng 180 181 then Some ([i64], f32)
  else if op =? 182 then Some ([f64], f32)
  else if rng 183 184 then Some ([i32], f64)
  else if rng 185 186 then Some ([i64], f64)
  else if op =? 187 then Some ([f32], f64)
  else if op =? 188 then Some ([f32], i32)
  else if op =? 189 then Some ([f64], i64)
  else if op =? 190 then Some ([i32], f32)
  else if op =? 191 then Some ([i64], f64)
  else None.

(** ** Binary format *)

Definition blocktype (b : Z) : option (list value_type) :=
  if b =? 64 then Some []
  else if b =? 127 then Some [i32]
  else if b =? 126 then Some [i64]
  else if b =? 125 then Some [f32]
  else if b =? 124 then Some [f64]
  else None.

Definition index_bytes (x : nat) (bs : list Z) : Prop := uN 32 bs (Z.of_nat x).

Inductive indices_bytes : list nat -> list Z -> Prop :=
| indices_nil : indices_bytes [] []
| indices_cons x xs bs1 bs2 :
    index_bytes x bs1 -> indices_bytes xs bs2 -> indices_bytes (x :: xs) (bs1 ++ bs2).

(** Instructions that contain no instruction sequence. *)
Inductive plain_bytes : instr -> list Z -> Prop :=
| B_unreachable : plain_bytes IUnreachable [0]
| B_nop : plain_bytes INop [1]
| B_br l bs : index_bytes l bs -> plain_bytes (IBr l) (12 :: bs)
| B_br_if l bs : index_bytes l bs -> plain_bytes (IBrIf l) (13 :: bs)
| B_br_table ls ld bs1 bs2 bs3 :
    index_bytes (length ls) bs1 -> indices_bytes ls bs2 -> index_bytes ld bs3 ->
    plain_bytes (IBrTable ls ld) (14 :: bs1 ++ bs2 ++ bs3)
| B_return : plain_bytes IReturn [15]
| B_call x bs : index_bytes x bs -> plain_bytes (ICall x) (16 :: bs)
| B_call_indirect x bs : index_bytes x bs -> plain_bytes (ICallIndirect x) (17 :: bs ++ [0])
| B_drop : plain_bytes IDrop [26]
| B_select : plain_bytes ISelect [27]
| B_local_get x bs : index_bytes x bs -> plain_bytes (ILocalGet x) (32 :: bs)
| B_local_set x bs : index_bytes x bs -> plain_bytes (ILocalSet x) (33 :: bs)
| B_local_tee x bs : index_bytes x bs -> plain_bytes (ILocalTee x) (34 :: bs)
| B_global_get x bs : index_bytes x bs -> plain_bytes (IGlobalGet x) (35 :: bs)
| B_global_set x bs : index_bytes x bs -> plain_bytes (IGlobalSet x) (36 :: bs)
| B_load op align offset bs1 bs2 :
    is_Some (load_type op) -> uN 32 bs1 align -> uN 32 bs2 offset ->
    plain_bytes (ILoad op align offset) (op :: bs1 ++ bs2)
| B_store op align offset bs1 bs2 :
    is_Some (store_type op) -> uN 32 bs1 align -> uN 32 bs2 offset ->
    plain_bytes (IStore op align offset) (op :: bs1 ++ bs2)
| B_memory_size : plain_bytes IMemorySize [63; 0]
| B_memory_grow : plain_bytes IMemoryGrow [64; 0]
| B_i32_const v bs : sN 32 bs v -> plain_bytes (II32Const v) (65 :: bs)
| B_i64_const v bs : sN 64 bs v -> plain_bytes (II64Const v) (66 :: bs)
| B_f32_const bits : length bits = 4%nat -> plain_bytes (IF32Const bits) (67 :: bits)
| B_f64_const bits : length bits = 8%nat -> plain_bytes (IF64Const bits) (68 :: bits)
| B_numeric op : is_Some (numeric_type op) -> plain_bytes (INumeric op) [op].

Inductive instr_bytes : instr -> list Z -> Prop :=
| B_plain e bs : plain_bytes e bs -> instr_bytes e bs
| B_block b rt es bs :
    blocktype b = Some rt -> instrs_bytes es bs ->
    instr_bytes (IBlock rt es) (2 :: b :: bs ++ [11])
| B_loop b rt es bs :
    blocktype b = Some rt -> instrs_bytes es bs ->
    instr_bytes (ILoop rt es) (3 :: b :: bs ++ [11])
| B_if b rt es bs :
    blocktype b = Some rt -> instrs_bytes es bs ->
    instr_bytes (IIf rt es []) (4 :: b :: bs ++ [11])
| B_if_else b rt es1 es2 bs1 bs2 :
    blocktype b = Some rt -> instrs_bytes es1 bs1 -> instrs_bytes es2 bs2 ->
    instr_bytes (IIf rt es1 es2) (4 :: b :: bs1 ++ 5 :: bs2 ++ [11])
with instrs_bytes : list instr -> list Z -> Prop :=
| B_nil : instrs_bytes [] []
| B_cons e es bs1 bs2 :
    instr_bytes e bs1 -> instrs_bytes es bs2 -> instrs_bytes (e :: es) (bs1 ++ bs2).

(** An expression: instructions closed by [end]. *)
Definition expr_bytes (es : list instr) (code : list Z) : Prop :=
  exists bs, instrs_bytes es bs /\ code = bs ++ [11].

(** ** Typing *)

Record context := Context_ {
  tc_types : list function_type;
  tc_funcs : list function_type;
  tc_tables : nat;
  tc_mems : nat;
  tc_globals : list global_type;
  tc_locals : list value_type;
  tc_labels : list (list value_type);
  tc_return : list value_type
}.

Definition with_label (l : list value_type) (C : context) : context :=
  Context_ (tc_types C) (tc_funcs C) (tc_tables C) (tc_mems C) (tc_globals C) (tc_locals C)
    (l :: tc_labels C) (tc_return C).

Abbreviation stack := (list value_type).

Inductive plain_typing (C : context) : instr -> stack -> stack -> Prop :=
| T_unreachable ts1 ts2 : plain_typing C IUnreachable ts1 ts2
| T_nop : plain_typing C INop [] []
| T_br l lt ts1 ts2 :
    tc_labels C !! l = Some lt -> plain_typing C (IBr l) (rev lt ++ ts1) ts2
| T_br_if l lt :
    tc_labels C !! l = Some lt -> plain_typing C (IBrIf l) (i32 :: rev lt) (rev lt)
| T_br_table ls ld lt ts1 ts2 :
    Forall (fun l => tc_labels C !! l = Some lt) ls -> tc_labels C !! ld = Some lt ->
    plain_typing C (IBrTable ls ld) (i32 :: rev lt ++ ts1) ts2
| T_return ts1 ts2 : plain_typing C IReturn (rev (tc_return C) ++ ts1) ts2
| T_call x ft :
    tc_funcs C !! x = Some ft ->
    plain_typing C (ICall x) (rev (parameter ft)) (rev (result ft))
| T_call_indirect x ft :
    (0 < tc_tables C)%nat -> tc_types C !! x = Some ft ->
    plain_typing C (ICallIndirect x) (i32 :: rev (parameter ft)) (rev (result ft))
| T_drop t : plain_typing C IDrop [t] []
| T_select t : plain_typing C ISelect [i32; t; t] [t]
| T_local_get x t : tc_locals C !! x = Some t -> plain_typing C (ILocalGet x) [] [t]
| T_local_set x t : tc_locals C !! x = Some t -> plain_typing C (ILocalSet x) [t] []
| T_local_tee x t : tc_locals C !! x = Some t -> plain_typing C (ILocalTee x) [t] [t]
| T_global_get x g :
    tc_globals C !! x = Some g -> plain_typing C (IGlobalGet x) [] [global_value_type g]
| T_global_set x g :
    tc_globals C !! x = Some g -> is_mutable g = true ->
    plain_typing C (IGlobalSet x) [global_value_type g] []
| T_load op align offset t bits :
    load_type op = Some (t, bits) -> (0 < tc_mems C)%nat -> align_ok align bits ->
    plain_typing C (ILoad op align offset) [i32] [t]
| T_store op align offset t bits :
    store_type op = Some (t, bits) -> (0 < tc_mems C)%nat -> align_ok align bits ->
    plain_typing C (IStore op align offset) [t; i32] []
| T_memory_size : (0 < tc_mems C)%nat -> plain_typing C IMemorySize [] [i32]
| T_memory_grow : (0 < tc_mems C)%nat -> plain_typing C IMemoryGrow [i32] [i32]
| T_i32_const v : plain_typing C (II32Const v) [] [i32]
| T_i64_const v : plain_typing C (II64Const v) [] [i64]
| T_f32_const bits : plain_typing C (IF32Const bits) [] [f32]
| T_f64_const bits : plain_typing C (IF64Const bits) [] [f64]
| T_numeric op ins out :
    numeric_type op = Some (ins, out) -> plain_typing C (INumeric op) (rev ins) [out].

Inductive instr_typing : context -> instr -> stack -> stack -> Prop :=
| T_plain C e ts1 ts2 : plain_typing C e ts1 ts2 -> instr_typing C e ts1 ts2
| T_block C rt es :
    instrs_typing (with_label rt C) es [] (rev rt) -> instr_typing C (IBlock rt es) [] (rev rt)
| T_loop C rt es :
    instrs_typing (with_label [] C) es [] (rev rt) -> instr_typing C (ILoop rt es) [] (rev rt)
| T_if C rt es1 es2 :
    instrs_typing (with_label rt C) es1 [] (rev rt) ->
    instrs_typing (with_label rt C) es2 [] (rev rt) ->
    instr_typing C (IIf rt es1 es2) [i32] (rev rt)
with instrs_typing : context -> list instr -> stack -> stack -> Prop :=
| T_nil C ts : instrs_typing C [] ts ts
| T_cons C e es ts1 ts2 ts0 ts3 :
    instr_typing C e ts1 ts2 -> instrs_typing C es (ts2 ++ ts0) ts3 ->
    instrs_typing C (e :: es) (ts1 ++ ts0) ts3.

(** ** The context of a function of a module *)

Definition expand_locals (locals : list local_entry) : list value_type :=
  locals ≫= fun e => replicate (Z.to_nat (count e)) (local_type e).

Definition func_types (m : module_storage) : list function_type :=
  imported_funcs m ++ omap (fun i => types m !! Z.to_nat i) (funcs m).

Definition func_context (m : module_storage) (ft : function_type) (locals : list local_entry) : context :=
  {| tc_types := types m;
     tc_funcs := func_types m;
     tc_tables := imported_tables m + tables m;
     tc_mems := imported_memories m + memories m;
     tc_globals := imported_globals m ++ local_globals m;
     tc_locals := parameter ft ++ expand_locals locals;
     tc_labels := [result ft];
     tc_return := result ft |}.

(** [code] is the body of a well-typed function of type [ft] with these locals. *)
Definition func_body_ok (m : module_storage) (ft : function_type) (locals : list local_entry)
    (code : list Z) : Prop :=
  exists es, expr_bytes es code /\
    instrs_typing (func_context m ft locals) es [] (rev (result ft)).
