(* ===== verification/Fetch.v ===== *)
(** * Reading one instruction of an expression

    A decoder for the flat instruction stream (structured instructions are cut at
    their delimiters), proved equivalent to the binary grammar of [WasmSpec]. It
    separates, in the proofs about the validator, what is read from what is
    checked. *)

From stdpp Require Import base list numbers.
From Stdlib Require Import ZArith Lia.
From S2P Require Import Prelude Leb128 WasmTypes WasmSpec.

Inductive token :=
| TPlain (e : instr)
| TBlock (rt : list value_type)
| TLoop (rt : list value_type)
| TIf (rt : list value_type)
| TElse
| TEnd.

Inductive token_bytes : token -> list Z -> Prop :=
| TB_plain e bs : plain_bytes e bs -> token_bytes (TPlain e) bs
| TB_block b rt : blocktype b = Some rt -> token_bytes (TBlock rt) [2; b]
| TB_loop b rt : blocktype b = Some rt -> token_bytes (TLoop rt) [3; b]
| TB_if b rt : blocktype b = Some rt -> token_bytes (TIf rt) [4; b]
| TB_else : token_bytes TElse [5]
| TB_end : token_bytes TEnd [11].

Section Fetch.
Context (code : list Z).

Definition get_leb (digits : Z) (is_signed : bool) (p : nat) : option (Z * nat) :=
  let r := scn_cnt_define_leb128_impl digits is_signed (drop p code) in
  if bool_decide (pr_code r = pc_ok) then Some (pr_value r, (p + pr_iter r)%nat) else None.

Definition get_index (p : nat) : option (nat * nat) :=
  '(v, q) ← get_leb 32 false p; Some (Z.to_nat v, q).

Fixpoint get_indices (n : nat) (p : nat) : option (list nat * nat) :=
  match n with
  | O => Some ([], p)
  | S n =>
      '(x, q) ← get_index p;
      '(xs, q') ← get_indices n q;
      Some (x :: xs, q')
  end.

Definition get_zero (p : nat) : option nat :=
  b ← code !! p; if b =? 0 then Some (S p) else None.

Definition get_blocktype (p : nat) : option (list value_type * nat) :=
  b ← code !! p; rt ← blocktype b; Some (rt, S p).

Definition get_raw (n p : nat) : option (list Z * nat) :=
  if (p + n <=? length code)%nat then Some (take n (drop p code), (p + n)%nat) else None.

Definition with_index (mk : nat -> instr) (p : nat) : option (token * nat) :=
  '(x, q) ← get_index p; Some (TPlain (mk x), q).

Definition with_block (mk : list value_type -> token) (p : nat) : option (token * nat) :=
  '(rt, q) ← get_blocktype p; Some (mk rt, q).

Definition with_memarg (mk : Z -> Z -> instr) (p : nat) : option (token * nat) :=
  '(a, q) ← get_leb 32 false p;
  '(o, q') ← get_leb 32 false q;
  Some (TPlain (mk a o), q').

(** The instruction with opcode [b]; its immediates start at [p]. *)
Definition fetch_op (b : Z) (p : nat) : option (token * nat) :=
  if b =? 0 then Some (TPlain IUnreachable, p)
  else if b =? 1 then Some (TPlain INop, p)
  else if b =? 2 then with_block TBlock p
  else if b =? 3 then with_block TLoop p
  else if b =? 4 then with_block TIf p
  else if b =? 5 then Some (TElse, p)
  else if b =? 11 then Some (TEnd, p)
  else if b =? 12 then with_index IBr p
  else if b =? 13 then with_index IBrIf p
  else if b =? 14 then
    '(n, q) ← get_index p;
    '(ls, q') ← get_indices n q;
    '(ld, q'') ← get_index q';
    Some (TPlain (IBrTable ls ld), q'')
  else if b =? 15 then Some (TPlain IReturn, p)
  else if b =? 16 then with_index ICall p
  else if b =? 17 then
    '(x, q) ← get_index p;
    q' ← get_zero q;
    Some (TPlain (ICallIndirect x), q')
  else if b =? 26 then Some (TPlain IDrop, p)
  else if b =? 27 then Some (TPlain ISelect, p)
  else if b =? 32 then with_index ILocalGet p
  else if b =? 33 then with_index ILocalSet p
  else if b =? 34 then with_index ILocalTee p
  else if b =? 35 then with_index IGlobalGet p
  else if b =? 36 then with_index IGlobalSet p
  else if b =? 63 then q ← get_zero p; Some (TPlain IMemorySize, q)
  else if b =? 64 then q ← get_zero p; Some (TPlain IMemoryGrow, q)
  else if b =? 65 then '(v, q) ← get_leb 32 true p; Some (TPlain (II32Const v), q)
  else if b =? 66 then '(v, q) ← get_leb 64 true p; Some (TPlain (II64Const v), q)
  else if b =? 67 then '(bs, q) ← get_raw 4 p; Some (TPlain (IF32Const bs), q)
  else if b =? 68 then '(bs, q) ← get_raw 8 p; Some (TPlain (IF64Const bs), q)
  else
    match load_type b, store_type b, numeric_type b with
    | Some _, _, _ => with_memarg (ILoad b) p
    | None, Some _, _ => with_memarg (IStore b) p
    | None, None, Some _ => Some (TPlain (INumeric b), p)
    | None, None, None => None
    end.

Definition fetch (p : nat) : option (token * nat) :=
  b ← code !! p; fetch_op b (S p).

(** ** Occurrence of a byte string at a position *)

Definition sub (p : nat) (bs : list Z) : Prop := exists rest, drop p code = bs ++ rest.

Lemma sub_nil p : sub p [].
Proof. by exists (drop p code). Qed.

Lemma sub_cons p b bs : sub p (b :: bs) <-> code !! p = Some b /\ sub (S p) bs.
Proof.
  unfold sub. split.
  - intros [rest Hr]. rewrite <- (Nat.add_0_r p) at 1. rewrite <- lookup_drop, Hr.
    split; [done |]. exists rest. replace (S p) with (p + 1)%nat by lia.
    by rewrite <- drop_drop, Hr.
  - intros [Hb [rest Hr]]. exists rest. rewrite (drop_S _ b p) by done. by rewrite Hr.
Qed.

Lemma sub_app p bs1 bs2 : sub p (bs1 ++ bs2) <-> sub p bs1 /\ sub (p + length bs1) bs2.
Proof.
  revert p. induction bs1 as [| b bs1 IH]; intros p; simpl.
  - rewrite Nat.add_0_r. pose proof (sub_nil p). naive_solver.
  - rewrite !sub_cons, IH. replace (p + S (length bs1))%nat with (S p + length bs1)%nat by lia.
    naive_solver.
Qed.

Lemma sub_length p bs : (p <= length code)%nat -> sub p bs -> (p + length bs <= length code)%nat.
Proof.
  intros Hp [rest Hr]. apply (f_equal length) in Hr.
  rewrite length_drop, length_app in Hr. lia.
Qed.

Lemma sub_one p b : sub p [b] <-> code !! p = Some b.
Proof. rewrite sub_cons. pose proof (sub_nil (S p)). naive_solver. Qed.

Context (Hcode : Forall is_byte code).

Lemma get_leb_iff digits is_signed p v q :
  leb_width digits ->
  get_leb digits is_signed p = Some (v, q) <->
  exists bs, (if is_signed then sN else uN) digits bs v /\ sub p bs /\ q = (p + length bs)%nat.
Proof.
  intros Hw. unfold get_leb.
  assert (HF : Forall is_byte (drop p code)) by by apply Forall_drop.
  split.
  - case_bool_decide as Hok; [| done]. intros [= <- <-].
    destruct (scn_cnt_define_leb128_impl _ _ _) as [n c v] eqn:Hs. simpl in *. subst c.
    assert (Hg : (n <= length (drop p code))%nat /\
                 (if is_signed then sN else uN) digits (take n (drop p code)) v).
    { by destruct is_signed; [apply leb_scan_s | apply leb_scan_u]. }
    destruct Hg as [Hn Hg]. exists (take n (drop p code)). split_and!; [done | |].
    + exists (drop n (drop p code)). by rewrite take_drop.
    + by rewrite length_take_le.
  - intros (bs & Hg & [rest Hr] & ->). rewrite Hr in *.
    assert (Hs : scn_cnt_define_leb128_impl digits is_signed (bs ++ rest) =
                 ParseResult (length bs) pc_ok v).
    { destruct is_signed; [apply leb_scan_s | apply leb_scan_u]; try done;
        (split; [rewrite length_app; lia | by rewrite take_app_length]). }
    rewrite Hs. by rewrite bool_decide_true.
Qed.

Lemma width32 : leb_width 32. Proof. unfold leb_width. tauto. Qed.
Lemma width64 : leb_width 64. Proof. unfold leb_width. tauto. Qed.

Lemma get_u32_iff p v q :
  get_leb 32 false p = Some (v, q) <->
  exists bs, uN 32 bs v /\ sub p bs /\ q = (p + length bs)%nat.
Proof. apply (get_leb_iff 32 false p v q width32). Qed.

Lemma get_index_iff p x q :
  get_index p = Some (x, q) <->
  exists bs, index_bytes x bs /\ sub p bs /\ q = (p + length bs)%nat.
Proof.
  unfold get_index, index_bytes. split.
  - intros ([v q'] & (bs & Hu & Hs & ->)%get_u32_iff & [= <- <-])%bind_Some.
    pose proof (uN_bounds _ _ _ Hu). exists bs. rewrite Z2Nat.id by lia. done.
  - intros (bs & Hu & Hs & ->).
    rewrite (proj2 (get_u32_iff p (Z.of_nat x) (p + length bs)%nat)) by eauto.
    simpl. by rewrite Nat2Z.id.
Qed.

Lemma get_indices_iff n p xs q :
  get_indices n p = Some (xs, q) <->
  length xs = n /\ exists bs, indices_bytes xs bs /\ sub p bs /\ q = (p + length bs)%nat.
Proof.
  revert p xs q. induction n as [| n IH]; intros p xs q; simpl.
  - split.
    + intros [= <- <-]. split; [done |]. exists []. split_and!; [constructor | apply sub_nil | simpl; lia].
    + intros [->%nil_length_inv (bs & Hi & _ & ->)]. inversion Hi. simpl. by rewrite Nat.add_0_r.
  - split.
    + intros ([x q'] & (bs & Hx & Hs & ->)%get_index_iff & H)%bind_Some.
      apply bind_Some in H as ([xs' q''] & (Hl & bs' & Hi & Hs' & ->)%IH & [= <- <-]).
      split; [simpl; lia |]. exists (bs ++ bs').
      rewrite sub_app, length_app. split_and!; [by constructor | done | done | lia].
    + intros (Hl & bs & Hi & Hs & ->). inversion Hi as [| x xs' bs1 bs2 Hx Hxs]; subst; [done |].
      apply sub_app in Hs as [Hs1 Hs2]. rewrite length_app.
      rewrite (proj2 (get_index_iff p x (p + length bs1)%nat)) by eauto. simpl.
      rewrite (proj2 (IH (p + length bs1)%nat xs' (p + length bs1 + length bs2)%nat)) by (simpl in Hl; eauto with lia).
      simpl. by rewrite Nat.add_assoc.
Qed.

Lemma get_zero_iff p q : get_zero p = Some q <-> sub p [0] /\ q = S p.
Proof.
  unfold get_zero. rewrite sub_one. split.
  - intros (b & Hb & H)%bind_Some. destruct (Z.eqb_spec b 0); by simplify_eq.
  - intros [-> ->]. done.
Qed.

Lemma get_blocktype_iff p rt q :
  get_blocktype p = Some (rt, q) <-> exists b, blocktype b = Some rt /\ sub p [b] /\ q = S p.
Proof.
  unfold get_blocktype. setoid_rewrite sub_one. split.
  - intros (b & Hb & (rt' & Hrt & [= <- <-])%bind_Some)%bind_Some. eauto.
  - intros (b & Hrt & -> & ->). simpl. by rewrite Hrt.
Qed.

Lemma get_raw_iff n p bs q :
  (p <= length code)%nat ->
  get_raw n p = Some (bs, q) <-> length bs = n /\ sub p bs /\ q = (p + n)%nat.
Proof.
  intros Hp. unfold get_raw. split.
  - destruct (Nat.leb_spec (p + n) (length code)); [| done]. intros [= <- <-].
    split_and!; [rewrite length_take_le; [done | rewrite length_drop; lia] | | done].
    exists (drop n (drop p code)). by rewrite take_drop.
  - intros (<- & Hs & ->). pose proof (sub_length _ _ Hp Hs).
    rewrite (proj2 (Nat.leb_le _ _)) by lia. destruct Hs as [rest ->]. by rewrite take_app_length.
Qed.

(** ** The decoder against the grammar *)

Lemma with_index_iff mk p tok q :
  with_index mk p = Some (tok, q) <->
  exists x bs, tok = TPlain (mk x) /\ index_bytes x bs /\ sub p bs /\ q = (p + length bs)%nat.
Proof.
  unfold with_index. split.
  - intros ([x q'] & (bs & Hx & Hs & ->)%get_index_iff & [= <- <-])%bind_Some. eauto 10.
  - intros (x & bs & -> & Hx & Hs & ->).
    by rewrite (proj2 (get_index_iff p x (p + length bs)%nat)) by eauto.
Qed.

Lemma with_block_iff mk p tok q :
  with_block mk p = Some (tok, q) <->
  exists rt b, tok = mk rt /\ blocktype b = Some rt /\ sub p [b] /\ q = S p.
Proof.
  unfold with_block. split.
  - intros ([rt q'] & (b & Hb & Hs & ->)%get_blocktype_iff & [= <- <-])%bind_Some. eauto 10.
  - intros (rt & b & -> & Hb & Hs & ->).
    by rewrite (proj2 (get_blocktype_iff p rt (S p))) by eauto.
Qed.

Lemma with_memarg_iff mk p tok q :
  with_memarg mk p = Some (tok, q) <->
  exists a o bs1 bs2, tok = TPlain (mk a o) /\ uN 32 bs1 a /\ uN 32 bs2 o /\
    sub p (bs1 ++ bs2) /\ q = (p + length (bs1 ++ bs2))%nat.
Proof.
  unfold with_memarg. setoid_rewrite sub_app. setoid_rewrite length_app. split.
  - intros ([a q'] & (bs1 & Ha & Hs1 & ->)%get_u32_iff & H)%bind_Some.
    apply bind_Some in H as ([o q''] & (bs2 & Ho & Hs2 & ->)%get_u32_iff & [= <- <-]).
    exists a, o, bs1, bs2. split_and!; auto with lia.
  - intros (a & o & bs1 & bs2 & -> & Ha & Ho & [Hs1 Hs2] & ->).
    rewrite (proj2 (get_u32_iff p a (p + length bs1)%nat)) by eauto. simpl.
    rewrite (proj2 (get_u32_iff _ o (p + length bs1 + length bs2)%nat)) by eauto. simpl.
    by rewrite Nat.add_assoc.
Qed.

(** The immediates after opcode [b] are the bytes from [p] to [q]. *)
Definition decodes (b : Z) (p : nat) (tok : token) (q : nat) : Prop :=
  exists bs, token_bytes tok (b :: bs) /\ sub p bs /\ q = (p + length bs)%nat.

Lemma decodes_none b p tok : token_bytes tok [b] -> decodes b p tok p.
Proof. exists []. split_and!; [done | apply sub_nil | simpl; lia]. Qed.

Lemma decodes_block mk b p tok q :
  (forall t rt, blocktype t = Some rt -> token_bytes (mk rt) [b; t]) ->
  with_block mk p = Some (tok, q) -> decodes b p tok q.
Proof.
  intros Hmk (rt & t & -> & Ht & Hs & ->)%with_block_iff. exists [t].
  split_and!; [auto | done | simpl; lia].
Qed.

Lemma decodes_index mk b p tok q :
  (forall x bs, index_bytes x bs -> plain_bytes (mk x) (b :: bs)) ->
  with_index mk p = Some (tok, q) -> decodes b p tok q.
Proof.
  intros Hmk (x & bs & -> & Hx & Hs & ->)%with_index_iff. exists bs.
  split_and!; [constructor; auto | done | done].
Qed.

Lemma decodes_memarg mk b p tok q :
  (forall a o bs1 bs2, uN 32 bs1 a -> uN 32 bs2 o -> plain_bytes (mk a o) (b :: bs1 ++ bs2)) ->
  with_memarg mk p = Some (tok, q) -> decodes b p tok q.
Proof.
  intros Hmk (a & o & bs1 & bs2 & -> & Ha & Ho & Hs & ->)%with_memarg_iff.
  exists (bs1 ++ bs2). split_and!; [constructor; auto | done | done].
Qed.

Lemma decodes_leb digits mk b p v q :
  leb_width digits ->
  (forall w bs, sN digits bs w -> plain_bytes (mk w) (b :: bs)) ->
  get_leb digits true p = Some (v, q) -> decodes b p (TPlain (mk v)) q.
Proof.
  intros Hw Hmk (bs & Hv & Hs & ->)%get_leb_iff; [| done]. exists bs.
  split_and!; [constructor; auto | done | done].
Qed.

Lemma decodes_raw n mk b p bs q :
  (p <= length code)%nat ->
  (forall bs, length bs = n -> plain_bytes (mk bs) (b :: bs)) ->
  get_raw n p = Some (bs, q) -> decodes b p (TPlain (mk bs)) q.
Proof.
  intros Hp Hmk (Hl & Hs & ->)%get_raw_iff; [| done]. exists bs.
  split_and!; [constructor; auto | done | lia].
Qed.

Lemma decodes_zero b p q e :
  plain_bytes e [b; 0] -> get_zero p = Some q -> decodes b p (TPlain e) q.
Proof.
  intros He [Hs ->]%get_zero_iff. exists [0]. split_and!; [by constructor | done | simpl; lia].
Qed.

Lemma decodes_br_table p tok q :
  ('(n, q) ← get_index p;
   '(ls, q') ← get_indices n q;
   '(ld, q'') ← get_index q';
   Some (TPlain (IBrTable ls ld), q'')) = Some (tok, q) -> decodes 14 p tok q.
Proof.
  intros ([n q1] & (bs1 & Hn & Hs1 & ->)%get_index_iff & H)%bind_Some.
  apply bind_Some in H as ([ls q2] & (Hl & bs2 & Hls & Hs2 & ->)%get_indices_iff & H).
  apply bind_Some in H as ([ld q3] & (bs3 & Hld & Hs3 & ->)%get_index_iff & [= <- <-]).
  exists (bs1 ++ bs2 ++ bs3). rewrite !sub_app, !length_app. subst n.
  split_and!; auto with lia. by repeat constructor.
Qed.

Lemma decodes_call_indirect p tok q :
  ('(x, q) ← get_index p; q' ← get_zero q; Some (TPlain (ICallIndirect x), q')) = Some (tok, q) ->
  decodes 17 p tok q.
Proof.
  intros ([x q1] & (bs & Hx & Hs & ->)%get_index_iff & H)%bind_Some.
  apply bind_Some in H as (q2 & [Hz ->]%get_zero_iff & [= <- <-]).
  exists (bs ++ [0]). rewrite sub_app, length_app. simpl.
  split_and!; auto with lia. by repeat constructor.
Qed.

Lemma fetch_op_sound b p tok q :
  (p <= length code)%nat -> fetch_op b p = Some (tok, q) -> decodes b p tok q.
Proof.
  intros Hp. unfold fetch_op.
  repeat match goal with
  | |- (if ?b =? ?n then _ else _) = _ -> _ => destruct (Z.eqb_spec b n) as [-> | ?]
  end;
    try (intros [= <- <-]; apply decodes_none; repeat constructor; done);
    try (apply decodes_block; intros; by constructor);
    try (apply decodes_index; intros; by constructor);
    try apply decodes_br_table; try apply decodes_call_indirect.
  - intros (q' & Hz & [= <- <-])%bind_Some. eapply decodes_zero; [constructor | done].
  - intros (q' & Hz & [= <- <-])%bind_Some. eapply decodes_zero; [constructor | done].
  - intros ([v q'] & Hv & [= <- <-])%bind_Some. eapply decodes_leb; [apply width32 | by constructor | done].
  - intros ([v q'] & Hv & [= <- <-])%bind_Some. eapply decodes_leb; [apply width64 | by constructor | done].
  - intros ([v q'] & Hv & [= <- <-])%bind_Some. eapply decodes_raw; [done | by constructor | done].
  - intros ([v q'] & Hv & [= <- <-])%bind_Some. eapply decodes_raw; [done | by constructor | done].
  - destruct (load_type b) eqn:Hl, (store_type b) eqn:Hst, (numeric_type b) eqn:Hn; try done;
      try (apply decodes_memarg; intros; constructor; eauto; done);
      intros [= <- <-]; apply decodes_none; repeat constructor; eauto.
Qed.

Lemma load_type_range op : is_Some (load_type op) -> 40 <= op <= 53.
Proof. unfold load_type. intros [? H]. repeat case_match; done || lia. Qed.
Lemma store_type_range op : is_Some (store_type op) -> 54 <= op <= 62.
Proof. unfold store_type. intros [? H]. repeat case_match; done || lia. Qed.
Lemma numeric_type_range op : is_Some (numeric_type op) -> 69 <= op <= 191.
Proof. unfold numeric_type. intros [? H]. repeat case_match; done || lia. Qed.

(** Opcodes past [i64.const] and friends are looked up in the instruction tables. *)
Lemma fetch_op_table op p :
  40 <= op <= 62 \/ 69 <= op ->
  fetch_op op p =
    match load_type op, store_type op, numeric_type op with
    | Some _, _, _ => with_memarg (ILoad op) p
    | None, Some _, _ => with_memarg (IStore op) p
    | None, None, Some _ => Some (TPlain (INumeric op), p)
    | None, None, None => None
    end.
Proof.
  intros Hop. unfold fetch_op.
  do 26 (match goal with
  | |- (if ?b =? ?n then _ else _) = _ => destruct (Z.eqb_spec b n) as [Hb | _]; [exfalso; lia |]
  end). done.
Qed.

Lemma table_none {A} (f : Z -> option A) lo hi op :
  (forall op, is_Some (f op) -> lo <= op <= hi) -> op < lo \/ hi < op -> f op = None.
Proof. intros Hr Ho. destruct (f op) eqn:Hf; [| done]. pose proof (Hr op ltac:(eauto)). lia. Qed.

Lemma fetch_op_complete b p tok bs :
  (p <= length code)%nat -> token_bytes tok (b :: bs) -> sub p bs ->
  fetch_op b p = Some (tok, (p + length bs)%nat).
Proof.
  intros Hp Ht Hs. inversion Ht as [e bs' He | t rt Hb | t rt Hb | t rt Hb | |]; subst; clear Ht;
    try (simpl; rewrite Nat.add_0_r; done);
    try (unfold fetch_op; cbv [Z.eqb Pos.eqb]; apply with_block_iff; simpl; rewrite Nat.add_1_r; eauto 10; done).
  inversion He; subst; clear He;
    try (simpl; rewrite Nat.add_0_r; done);
    try (unfold fetch_op; cbv [Z.eqb Pos.eqb]; apply with_index_iff; eauto 10; done).
  - change (fetch_op 14 p) with
      ('(n, q) ← get_index p; '(ls, q') ← get_indices n q; '(ld, q'') ← get_index q';
       Some (TPlain (IBrTable ls ld), q'')).
    apply sub_app in Hs as [Hs1 [Hs2 Hs3]%sub_app].
    rewrite (proj2 (get_index_iff p (length ls) (p + length bs1)%nat)) by eauto. simpl.
    rewrite (proj2 (get_indices_iff _ _ ls (p + length bs1 + length bs2)%nat)) by eauto. simpl.
    rewrite (proj2 (get_index_iff _ ld (p + length bs1 + length bs2 + length bs3)%nat)) by eauto. simpl.
    rewrite !length_app. do 2 f_equal. lia.
  - change (fetch_op 17 p) with
      ('(x, q) ← get_index p; q' ← get_zero q; Some (TPlain (ICallIndirect x), q')).
    apply sub_app in Hs as [Hs1 Hs2].
    rewrite (proj2 (get_index_iff p x (p + length bs0)%nat)) by eauto. simpl.
    rewrite (proj2 (get_zero_iff _ (S (p + length bs0)))) by eauto. simpl.
    rewrite length_app. simpl. do 2 f_equal. lia.
  - pose proof (load_type_range b ltac:(done)). rewrite fetch_op_table by lia.
    destruct (load_type b) eqn:?; [| exfalso; eapply is_Some_None; eassumption].
    apply with_memarg_iff. do 4 eexists. by split_and!.
  - pose proof (store_type_range b ltac:(done)). rewrite fetch_op_table by lia.
    rewrite (table_none load_type 40 53) by (apply load_type_range || lia).
    destruct (store_type b) eqn:?; [| exfalso; eapply is_Some_None; eassumption].
    apply with_memarg_iff. do 4 eexists. by split_and!.
  - change (fetch_op 63 p) with (q ← get_zero p; Some (TPlain IMemorySize, q)).
    rewrite (proj2 (get_zero_iff _ (S p))) by eauto. simpl. do 2 f_equal. lia.
  - change (fetch_op 64 p) with (q ← get_zero p; Some (TPlain IMemoryGrow, q)).
    rewrite (proj2 (get_zero_iff _ (S p))) by eauto. simpl. do 2 f_equal. lia.
  - change (fetch_op 65 p) with ('(v, q) ← get_leb 32 true p; Some (TPlain (II32Const v), q)).
    rewrite (proj2 (get_leb_iff 32 true p v (p + length bs) width32)) by eauto. done.
  - change (fetch_op 66 p) with ('(v, q) ← get_leb 64 true p; Some (TPlain (II64Const v), q)).
    rewrite (proj2 (get_leb_iff 64 true p v (p + length bs) width64)) by eauto. done.
  - change (fetch_op 67 p) with ('(bs, q) ← get_raw 4 p; Some (TPlain (IF32Const bs), q)).
    rewrite (proj2 (get_raw_iff 4 p bs (p + 4) Hp)) by eauto. by match goal with H : length bs = _ |- _ => rewrite H end.
  - change (fetch_op 68 p) with ('(bs, q) ← get_raw 8 p; Some (TPlain (IF64Const bs), q)).
    rewrite (proj2 (get_raw_iff 8 p bs (p + 8) Hp)) by eauto. by match goal with H : length bs = _ |- _ => rewrite H end.
  - pose proof (numeric_type_range b ltac:(done)). rewrite fetch_op_table by lia.
    rewrite (table_none load_type 40 53) by (apply load_type_range || lia).
    rewrite (table_none store_type 54 62) by (apply store_type_range || lia).
    destruct (numeric_type b) eqn:?; [| exfalso; eapply is_Some_None; eassumption]. simpl. by rewrite Nat.add_0_r.
Qed.

Lemma token_bytes_cons tok bs : token_bytes tok bs -> exists b bs', bs = b :: bs'.
Proof. intros []; [| eauto ..]. destruct H; eauto. Qed.

(** [fetch] reads an instruction at [p] iff the grammar has one there. *)
Lemma fetch_iff p tok q :
  fetch p = Some (tok, q) <->
  exists bs, token_bytes tok bs /\ sub p bs /\ q = (p + length bs)%nat.
Proof.
  unfold fetch. split.
  - intros (b & Hb & Hf)%bind_Some. pose proof (lookup_lt_Some _ _ _ Hb).
    apply fetch_op_sound in Hf as (bs & Ht & Hs & ->); [| lia].
    exists (b :: bs). rewrite sub_cons. split_and!; [done .. |]. simpl. lia.
  - intros (bs & Ht & Hs & ->). destruct (token_bytes_cons _ _ Ht) as (b & bs' & ->).
    apply sub_cons in Hs as [Hb Hs]. rewrite Hb. simpl.
    pose proof (lookup_lt_Some _ _ _ Hb).
    rewrite (fetch_op_complete b (S p) tok bs') by (done || lia). do 2 f_equal. lia.
Qed.

Lemma get_index_progress p x q :
  (p <= length code)%nat -> get_index p = Some (x, q) -> (p < q <= length code)%nat.
Proof.
  intros Hp (bs & Hu & Hs & ->)%get_index_iff. apply uN_bounds in Hu as (_ & Hl & _); [| done].
  apply sub_length in Hs; lia.
Qed.

Lemma get_indices_progress n p xs q :
  (p <= length code)%nat -> get_indices n p = Some (xs, q) -> (p + n <= q <= length code)%nat.
Proof.
  revert p xs. induction n as [| n IH]; intros p xs Hp; simpl.
  - intros [= <- <-]. lia.
  - intros ([x q1] & Hx & H)%bind_Some. apply bind_Some in H as ([ys q2] & Hys & [= <- <-]).
    apply get_index_progress in Hx; [| lia]. apply IH in Hys; lia.
Qed.

Lemma fetch_progress p tok q : fetch p = Some (tok, q) -> (p < q <= length code)%nat.
Proof.
  intros H. assert (Hp : (p < length code)%nat).
  { apply bind_Some in H as (b & Hb & _). by apply lookup_lt_Some in Hb. }
  apply fetch_iff in H as (bs & Ht & Hs & ->). apply sub_length in Hs; [| lia].
  destruct (token_bytes_cons _ _ Ht) as (b & bs' & ->). simpl in *. lia.
Qed.
End Fetch.
