(* ===== verification/Checker.v ===== *)
(** * An abstract checker between the code and the type system

    The specification's validation algorithm on one control frame: the operands of
    the frame are a list of types, [None] standing for a value of unknown type, and
    a flag says whether the stack below them is polymorphic. The validator is
    proved to compute this function, and this function to decide the declarative
    typing of instructions. *)

From stdpp Require Import base list numbers.
From Stdlib Require Import ZArith Lia.
From S2P Require Import Prelude Leb128 WasmTypes WasmSpec.

Abbreviation aoperand := (option value_type).

(** ** Popping *)

Definition accepts (o : aoperand) (t : value_type) : bool :=
  match o with None => true | Some t' => bool_decide (t' = t) end.

Definition apop (poly : bool) (t : value_type) (seg : list aoperand) : option (list aoperand) :=
  match seg with
  | [] => if poly then Some [] else None
  | o :: seg' => if accepts o t then Some seg' else None
  end.

(** Types in the order they are popped: top first. *)
Fixpoint apops (poly : bool) (ts : list value_type) (seg : list aoperand) : option (list aoperand) :=
  match ts with
  | [] => Some seg
  | t :: ts => seg' ← apop poly t seg; apops poly ts seg'
  end.

(** Popping a value of any type. *)
Definition apop_any (poly : bool) (seg : list aoperand) : option (aoperand * list aoperand) :=
  match seg with
  | [] => if poly then Some (None, []) else None
  | o :: seg' => Some (o, seg')
  end.

Definition known (ts : list value_type) : list aoperand := Some <$> ts.

(** The type two operands of [select] agree on. *)
Definition join (o1 o2 : aoperand) : option aoperand :=
  match o1, o2 with
  | Some t1, Some t2 => if decide (t1 = t2) then Some (Some t1) else None
  | Some t, None | None, Some t => Some (Some t)
  | None, None => Some None
  end.

(** As [apops], but an operand present on the stack must carry the type itself. *)
Fixpoint apops_exact (poly : bool) (ts : list value_type) (seg : list aoperand) : option (list aoperand) :=
  match ts with
  | [] => Some seg
  | t :: ts =>
      match seg with
      | [] => if poly then apops_exact poly ts [] else None
      | o :: seg' => if decide (o = Some t) then apops_exact poly ts seg' else None
      end
  end.

(** ** Instructions without nested sequences *)

(** The label types of a [br_table], if all labels agree. *)
Definition table_labels (C : context) (ls : list nat) (ld : nat) : option (list value_type) :=
  lt ← tc_labels C !! ld;
  if forallb (fun l => bool_decide (tc_labels C !! l = Some lt)) ls then Some lt else None.

Definition check_plain (C : context) (e : instr) (poly : bool) (seg : list aoperand)
    : option (bool * list aoperand) :=
  match e with
  | IUnreachable => Some (true, [])
  | INop => Some (poly, seg)
  | IBr l =>
      lt ← tc_labels C !! l;
      _ ← apops poly (rev lt) seg;
      Some (true, [])
  | IBrIf l =>
      lt ← tc_labels C !! l;
      seg1 ← apop poly i32 seg;
      seg2 ← apops poly (rev lt) seg1;
      Some (poly, known (rev lt) ++ seg2)
  | IBrTable ls ld =>
      lt ← table_labels C ls ld;
      seg1 ← apop poly i32 seg;
      _ ← apops_exact poly (rev lt) seg1;
      Some (true, [])
  | IReturn =>
      _ ← apops poly (rev (tc_return C)) seg;
      Some (true, [])
  | ICall x =>
      ft ← tc_funcs C !! x;
      seg1 ← apops poly (rev (parameter ft)) seg;
      Some (poly, known (rev (result ft)) ++ seg1)
  | ICallIndirect x =>
      ft ← tc_types C !! x;
      if (tc_tables C =? 0)%nat then None else
      seg1 ← apop poly i32 seg;
      seg2 ← apops poly (rev (parameter ft)) seg1;
      Some (poly, known (rev (result ft)) ++ seg2)
  | IDrop =>
      r ← apop_any poly seg;
      Some (poly, r.2)
  | ISelect =>
      seg1 ← apop poly i32 seg;
      r2 ← apop_any poly seg1;
      r1 ← apop_any poly r2.2;
      o ← join r1.1 r2.1;
      Some (poly, o :: r1.2)
  | ILocalGet x =>
      t ← tc_locals C !! x;
      Some (poly, Some t :: seg)
  | ILocalSet x =>
      t ← tc_locals C !! x;
      seg1 ← apop poly t seg;
      Some (poly, seg1)
  | ILocalTee x =>
      t ← tc_locals C !! x;
      seg1 ← apop poly t seg;
      Some (poly, Some t :: seg1)
  | IGlobalGet x =>
      g ← tc_globals C !! x;
      Some (poly, Some (global_value_type g) :: seg)
  | IGlobalSet x =>
      g ← tc_globals C !! x;
      if is_mutable g then
        seg1 ← apop poly (global_value_type g) seg;
        Some (poly, seg1)
      else None
  | ILoad op align _ =>
      '(t, bits) ← load_type op;
      if (tc_mems C =? 0)%nat then None else
      if 2 ^ align <=? bits / 8 then
        seg1 ← apop poly i32 seg;
        Some (poly, Some t :: seg1)
      else None
  | IStore op align _ =>
      '(t, bits) ← store_type op;
      if (tc_mems C =? 0)%nat then None else
      if 2 ^ align <=? bits / 8 then
        seg1 ← apops poly [t; i32] seg;
        Some (poly, seg1)
      else None
  | IMemorySize =>
      if (tc_mems C =? 0)%nat then None else Some (poly, Some i32 :: seg)
  | IMemoryGrow =>
      if (tc_mems C =? 0)%nat then None else
      seg1 ← apop poly i32 seg;
      Some (poly, Some i32 :: seg1)
  | II32Const _ => Some (poly, Some i32 :: seg)
  | II64Const _ => Some (poly, Some i64 :: seg)
  | IF32Const _ => Some (poly, Some f32 :: seg)
  | IF64Const _ => Some (poly, Some f64 :: seg)
  | INumeric op =>
      '(ins, out) ← numeric_type op;
      seg1 ← apops poly (rev ins) seg;
      Some (poly, Some out :: seg1)
  | IBlock _ _ | ILoop _ _ | IIf _ _ _ => None
  end.

(** The operands of a frame are exactly (or, if polymorphic, at most) its results. *)
Definition check_results (poly : bool) (res : list value_type) (seg : list aoperand) : bool :=
  match apops poly (rev res) seg with Some [] => true | _ => false end.

(** ** Which concrete stacks a frame describes *)

Definition omatch (o : aoperand) (t : value_type) : Prop := accepts o t = true.

Inductive matches (poly : bool) : list aoperand -> stack -> Prop :=
| matches_base ts : (poly = false -> ts = []) -> matches poly [] ts
| matches_push o t seg ts : omatch o t -> matches poly seg ts -> matches poly (o :: seg) (t :: ts).

#[export] Hint Constructors matches : core.

Lemma accepts_true o t : accepts o t = true <-> o = None \/ o = Some t.
Proof. destruct o as [t' |]; simpl; [rewrite bool_decide_eq_true |]; naive_solver. Qed.

Lemma omatch_refl t : omatch (Some t) t.
Proof. by apply accepts_true; right. Qed.
#[export] Hint Resolve omatch_refl : core.

Lemma omatch_known t t' : omatch (Some t) t' -> t' = t.
Proof. intros [? | ?]%accepts_true; by simplify_eq. Qed.

Lemma matches_known poly ts seg us :
  matches poly (known ts ++ seg) us <-> exists vs, us = ts ++ vs /\ matches poly seg vs.
Proof.
  revert us. induction ts as [| t ts IH]; intros us; simpl.
  - naive_solver.
  - split.
    + inversion 1 as [| ? t' ? us' Ho Hm]; subst. apply omatch_known in Ho as ->.
      apply IH in Hm as (vs & -> & Hm). by exists vs.
    + intros (vs & -> & Hm). constructor; [done |]. apply IH. by exists vs.
Qed.

(** *** Popping against [matches], both directions *)

Lemma apop_sound poly t seg seg' ts :
  apop poly t seg = Some seg' -> matches poly seg' ts -> matches poly seg (t :: ts).
Proof.
  destruct seg as [| o seg]; simpl.
  - destruct poly; [| done]. intros [= <-] _. by constructor.
  - destruct (accepts o t) eqn:Ho; [| done]. intros [= <-] Hm. by constructor.
Qed.

Lemma apop_complete poly t seg ts :
  matches poly seg (t :: ts) -> exists seg', apop poly t seg = Some seg' /\ matches poly seg' ts.
Proof.
  inversion 1 as [us Hp | o t' seg' ts' Ho Hm]; subst; simpl.
  - destruct poly; [| by specialize (Hp eq_refl)]. exists []. split; [done |]. by constructor.
  - unfold omatch in Ho. rewrite Ho. eauto.
Qed.

Lemma apops_sound poly ts seg seg' us :
  apops poly ts seg = Some seg' -> matches poly seg' us -> matches poly seg (ts ++ us).
Proof.
  revert seg. induction ts as [| t ts IH]; intros seg; simpl; [by intros [= <-] |].
  intros (seg1 & Hp & Hps)%bind_Some Hm. eapply apop_sound; eauto.
Qed.

Lemma apops_complete poly ts seg us :
  matches poly seg (ts ++ us) -> exists seg', apops poly ts seg = Some seg' /\ matches poly seg' us.
Proof.
  revert seg. induction ts as [| t ts IH]; intros seg Hm; simpl in *; [eauto |].
  apply apop_complete in Hm as (seg1 & -> & Hm). simpl. by apply IH.
Qed.

Lemma apop_any_sound poly seg o seg' t ts :
  apop_any poly seg = Some (o, seg') -> omatch o t -> matches poly seg' ts ->
  matches poly seg (t :: ts).
Proof.
  destruct seg as [| o' seg]; simpl.
  - destruct poly; [| done]. intros [= <- <-] _ _. by constructor.
  - intros [= <- <-] Ho Hm. by constructor.
Qed.

Lemma apop_any_complete poly seg t ts :
  matches poly seg (t :: ts) ->
  exists o seg', apop_any poly seg = Some (o, seg') /\ omatch o t /\ matches poly seg' ts.
Proof.
  inversion 1 as [us Hp | o t' seg' ts' Ho Hm]; subst; simpl.
  - destruct poly; [| by specialize (Hp eq_refl)]. exists None, []. split_and!; [done | done |].
    by constructor.
  - eauto.
Qed.

Lemma join_sound o1 o2 o t : join o1 o2 = Some o -> omatch o t -> omatch o1 t /\ omatch o2 t.
Proof.
  destruct o1 as [t1 |], o2 as [t2 |]; simpl; [case_decide | ..]; intros; simplify_eq; auto; done.
Qed.

Lemma join_complete o1 o2 t :
  omatch o1 t -> omatch o2 t -> exists o, join o1 o2 = Some o /\ omatch o t.
Proof.
  intros H1 H2. destruct o1 as [t1 |], o2 as [t2 |]; simpl.
  - apply omatch_known in H1 as ->, H2 as ->. rewrite decide_True by done. eauto.
  - apply omatch_known in H1 as ->. eauto.
  - apply omatch_known in H2 as ->. eauto.
  - by exists None.
Qed.

Lemma apops_exact_apops poly ts seg seg' :
  apops_exact poly ts seg = Some seg' -> apops poly ts seg = Some seg'.
Proof.
  revert seg. induction ts as [| t ts IH]; intros seg; simpl; [done |].
  destruct seg as [| o seg]; simpl.
  - destruct poly; [| done]. simpl. by intros ?%IH.
  - case_decide as Ho; [| done]. subst o. simpl. rewrite bool_decide_true by done. simpl. by intros ?%IH.
Qed.

(** Without unknown operands the two agree. *)
Definition all_known (seg : list aoperand) : Prop := Forall is_Some seg.

Lemma apops_exact_known poly ts seg :
  all_known seg -> apops_exact poly ts seg = apops poly ts seg.
Proof.
  revert seg. induction ts as [| t ts IH]; intros seg Hk; simpl; [done |].
  destruct Hk as [| o seg [t' ->] Hk]; simpl.
  - destruct poly; simpl; [apply IH; constructor | done].
  - case_decide as Ho; case_bool_decide; simpl; (by apply IH) || naive_solver.
Qed.

(** The known operands of a frame form a concrete stack the frame describes. *)
Lemma matches_exists poly seg : exists ts, matches poly seg ts.
Proof.
  induction seg as [| [t |] seg [ts Hm]]; [exists []; by constructor | ..].
  - exists (t :: ts). by constructor.
  - exists (i32 :: ts). by constructor.
Qed.

(** ** The checker decides the typing of plain instructions *)

(** [e] has a type that, on top of some rest, leads from [ts] to [ts']. *)
Definition plain_step (C : context) (e : instr) (ts ts' : stack) : Prop :=
  exists ts1 ts2 ts0, plain_typing C e ts1 ts2 /\ ts = ts1 ++ ts0 /\ ts' = ts2 ++ ts0.

Lemma plain_step_intro C e ts1 ts2 ts0 :
  plain_typing C e ts1 ts2 -> plain_step C e (ts1 ++ ts0) (ts2 ++ ts0).
Proof. intros. by exists ts1, ts2, ts0. Qed.

Lemma matches_inv_push poly o seg ts :
  matches poly (o :: seg) ts -> exists t us, ts = t :: us /\ omatch o t /\ matches poly seg us.
Proof. inversion 1; subst; eauto. Qed.

Lemma matches_inv_known poly t seg ts :
  matches poly (Some t :: seg) ts -> exists us, ts = t :: us /\ matches poly seg us.
Proof. intros (t' & us & -> & ->%omatch_known & Hm)%matches_inv_push. eauto. Qed.

Lemma check_plain_push C e poly seg t ts' :
  plain_typing C e [] [t] -> matches poly (Some t :: seg) ts' ->
  exists ts, matches poly seg ts /\ plain_step C e ts ts'.
Proof.
  intros Ht (us & -> & Hm)%matches_inv_known. exists us. split; [done |].
  by apply (plain_step_intro C e [] [t] us).
Qed.

Lemma check_plain_pop C e poly ts seg seg' out ts' :
  plain_typing C e ts out -> apops poly ts seg = Some seg' ->
  matches poly (known out ++ seg') ts' ->
  exists us, matches poly seg us /\ plain_step C e us ts'.
Proof.
  intros Ht Hp (vs & -> & Hm)%matches_known. exists (ts ++ vs).
  split; [by eapply apops_sound | by apply plain_step_intro].
Qed.

(** Instructions after which nothing is known of the stack. *)
Lemma check_plain_diverge C e poly ts seg seg' ts' :
  (forall us, plain_typing C e (ts ++ us) ts') -> apops poly ts seg = Some seg' ->
  exists us, matches poly seg us /\ plain_step C e us ts'.
Proof.
  intros Ht Hp. destruct (matches_exists poly seg') as [us Hm]. exists (ts ++ us).
  split; [by eapply apops_sound |]. exists (ts ++ us), ts', [].
  by rewrite !app_nil_r.
Qed.

Lemma table_labels_Some C ls ld lt :
  table_labels C ls ld = Some lt <->
  tc_labels C !! ld = Some lt /\ Forall (fun l => tc_labels C !! l = Some lt) ls.
Proof.
  unfold table_labels. split.
  - intros (lt' & Hd & H)%bind_Some. destruct (forallb _ ls) eqn:Hf; [| done].
    injection H as <-. split; [done |]. rewrite forallb_forall in Hf.
    apply Forall_forall. intros l Hl. by apply Hf, bool_decide_eq_true in Hl.
  - intros [Hd Hf]. rewrite Hd. simpl.
    rewrite (proj2 (forallb_forall _ _)); [done |]. intros l Hl.
    apply bool_decide_eq_true. rewrite Forall_forall in Hf. by apply Hf.
Qed.

Lemma check_plain_sound C e poly seg poly' seg' ts' :
  check_plain C e poly seg = Some (poly', seg') -> matches poly' seg' ts' ->
  exists ts, matches poly seg ts /\ plain_step C e ts ts'.
Proof.
  destruct e; simpl; intros Hc Hm; option_inv; try done.
  - destruct (matches_exists poly seg) as [us Hu]. exists us. split; [done |].
    exists us, ts', []. rewrite !app_nil_r. split_and!; [constructor | done | done].
  - exists ts'. split; [done |]. apply (plain_step_intro C INop [] [] ts'). constructor.
  - eapply check_plain_diverge; [| done]. intros us. by constructor.
  - eapply (check_plain_pop C _ poly' (i32 :: _)); [by apply T_br_if | | done].
    simpl. by simplify_option_eq.
  - apply table_labels_Some in H as [? ?].
    eapply (check_plain_diverge C _ poly (i32 :: _)); [intros us; by constructor |].
    simpl. rewrite H0. simpl. by eapply apops_exact_apops.
  - eapply check_plain_diverge; [| done]. intros us. by constructor.
  - eapply check_plain_pop; [by apply T_call | done | done].
  - eapply (check_plain_pop C _ poly' (i32 :: _)); [apply T_call_indirect | | done]; [| done |].
    + apply Nat.eqb_neq in Heqb. lia.
    + simpl. by simplify_option_eq.
  - destruct x as [o seg1]. simpl in *. destruct o as [t |].
    + exists (t :: ts'). split; [by eapply apop_any_sound |].
      apply (plain_step_intro C IDrop [t] [] ts'). constructor.
    + exists (i32 :: ts'). split; [by eapply apop_any_sound |].
      apply (plain_step_intro C IDrop [i32] [] ts'). constructor.
  - destruct x0 as [o2 seg2], x1 as [o1 seg1]. simpl in *.
    apply matches_inv_push in Hm as (t & us & -> & Ho & Hm).
    destruct (join_sound _ _ _ _ H2 Ho) as [Ho1 Ho2].
    exists ([i32; t; t] ++ us). split; [| apply (plain_step_intro C ISelect [i32; t; t] [t] us); constructor].
    eapply apop_sound; [done |]. eapply apop_any_sound; [done | done |].
    eapply apop_any_sound; done.
  - eapply check_plain_push; [by apply T_local_get | done].
  - eapply check_plain_pop; [by apply T_local_set | simpl; by simplify_option_eq | done].
  - eapply check_plain_pop; [by apply T_local_tee | simpl; by simplify_option_eq | done].
  - eapply check_plain_push; [by apply T_global_get | done].
  - eapply check_plain_pop; [by apply T_global_set | simpl; by simplify_option_eq | done].
  - eapply check_plain_pop; [eapply T_load | simpl; by simplify_option_eq | exact Hm]; [eassumption | | by apply Z.leb_le].
    apply Nat.eqb_neq in Heqb. lia.
  - eapply check_plain_pop; [eapply T_store | simpl; by simplify_option_eq | exact Hm]; [eassumption | | by apply Z.leb_le].
    apply Nat.eqb_neq in Heqb. lia.
  - eapply check_plain_push; [apply T_memory_size; apply Nat.eqb_neq in Heqb; lia | done].
  - eapply check_plain_pop; [apply T_memory_grow | simpl; by simplify_option_eq | done].
    apply Nat.eqb_neq in Heqb. lia.
  - eapply check_plain_push; [constructor | done].
  - eapply check_plain_push; [constructor | done].
  - eapply check_plain_push; [constructor | done].
  - eapply check_plain_push; [constructor | done].
  - eapply check_plain_pop; [by apply T_numeric | done | done].
Qed.

Lemma check_plain_complete C e ts ts' poly seg :
  plain_step C e ts ts' -> matches poly seg ts ->
  (forall ls ld, e = IBrTable ls ld -> all_known seg) ->
  exists poly' seg', check_plain C e poly seg = Some (poly', seg') /\ matches poly' seg' ts'.
Proof.
  intros (ts1 & ts2 & ts0 & Ht & -> & ->) Hm Hbt.
  destruct Ht; simpl in *; rewrite ?app_nil_r in *;
    repeat match goal with
    | H : ?x = Some _ |- context [mbind _ ?x] => rewrite H; simpl
    end;
    try (rewrite (proj2 (Nat.eqb_neq _ _)) by lia);
    try (rewrite (proj2 (Z.leb_le _ _)) by done).
  - exists true, []. split; [done |]. by constructor.
  - eauto.
  - rewrite <- app_assoc in Hm. apply apops_complete in Hm as (seg' & -> & Hm). simpl.
    exists true, []. split; [done |]. by constructor.
  - apply apop_complete in Hm as (seg1 & -> & Hm). simpl.
    apply apops_complete in Hm as (seg2 & -> & Hm). simpl. eexists _, _. split; [done |].
    apply matches_known. eauto.
  - rewrite (proj2 (table_labels_Some C ls ld lt)) by done. simpl.
    pose proof (Hbt ls ld eq_refl) as Hk.
    rewrite <- app_assoc in Hm. apply apop_complete in Hm as (seg1 & Hp & Hm). rewrite Hp. simpl.
    assert (Hk1 : all_known seg1).
    { destruct seg as [| o seg]; simpl in Hp; [destruct poly; simplify_eq; by constructor |].
      destruct (accepts o i32); simplify_eq. by inversion Hk. }
    rewrite apops_exact_known by done.
    apply apops_complete in Hm as (seg' & -> & Hm). simpl.
    exists true, []. split; [done |]. by constructor.
  - rewrite <- app_assoc in Hm. apply apops_complete in Hm as (seg' & -> & Hm). simpl.
    exists true, []. split; [done |]. by constructor.
  - apply apops_complete in Hm as (seg' & -> & Hm). simpl. eexists _, _. split; [done |].
    apply matches_known. eauto.
  - apply apop_complete in Hm as (seg1 & -> & Hm). simpl.
    apply apops_complete in Hm as (seg2 & -> & Hm). simpl. eexists _, _. split; [done |].
    apply matches_known. eauto.
  - apply apop_any_complete in Hm as (o & seg' & -> & Ho & Hm). simpl. eauto.
  - apply apop_complete in Hm as (seg1 & -> & Hm). simpl.
    apply apop_any_complete in Hm as (o2 & seg2 & -> & Ho2 & Hm). simpl.
    apply apop_any_complete in Hm as (o1 & seg3 & -> & Ho1 & Hm). simpl.
    destruct (join_complete o1 o2 t) as (o & -> & Ho); [done | done |]. simpl. eauto.
  - eauto.
  - apply apop_complete in Hm as (seg1 & -> & Hm). simpl. eauto.
  - apply apop_complete in Hm as (seg1 & -> & Hm). simpl. eauto.
  - eauto.
  - match goal with H : is_mutable _ = true |- _ => rewrite H end.
    apply apop_complete in Hm as (seg1 & -> & Hm). simpl. eauto.
  - apply apop_complete in Hm as (seg1 & -> & Hm). simpl. eauto.
  - apply apop_complete in Hm as (seg1 & -> & Hm). simpl.
    apply apop_complete in Hm as (seg2 & -> & Hm). simpl. eauto.
  - eauto.
  - apply apop_complete in Hm as (seg1 & -> & Hm). simpl. eauto.
  - eauto.
  - eauto.
  - eauto.
  - eauto.
  - apply apops_complete in Hm as (seg1 & -> & Hm). simpl. eauto.
Qed.
