(* ===== verification/Machine.v ===== *)
(** * The abstract validation machine

    The control stack as a list of frames that each own their operands, and one
    step per token of the instruction stream. It is the specification the
    validator is proved to implement: [st] maps a stack of abstract frames to the
    vectors, bases and flags the code keeps. *)

From stdpp Require Import base list numbers strings.
From Stdlib Require Import ZArith Lia.
From S2P Require Import Prelude Leb128 WasmTypes ValidationError ValidatorState ValidatorControl.
From S2P Require Import WasmSpec Fetch Checker.

Record aframe := AFrame {
  af_res : list value_type;
  af_type : block_type.t;
  af_poly : bool;
  af_seg : list aoperand
}.

Definition upd (f : aframe) (poly : bool) (seg : list aoperand) : aframe :=
  AFrame (af_res f) (af_type f) poly seg.

Definition alabel (f : aframe) : list value_type :=
  if bool_decide (af_type f = block_type.loop) then [] else af_res f.

(** The typing context of code inside the frames [fs]. *)
Definition ctx_of (C : context) (fs : list aframe) : context :=
  Context_ (tc_types C) (tc_funcs C) (tc_tables C) (tc_mems C) (tc_globals C) (tc_locals C)
    (alabel <$> fs) (tc_return C).

(** ** One step *)

Definition astep (C : context) (tok : token) (fs : list aframe) : option (list aframe) :=
  match fs with
  | [] => None
  | f :: fs' =>
      match tok with
      | TPlain e =>
          '(poly, seg) ← check_plain (ctx_of C fs) e (af_poly f) (af_seg f);
          Some (upd f poly seg :: fs')
      | TBlock rt => Some (AFrame rt block_type.block false [] :: fs)
      | TLoop rt => Some (AFrame rt block_type.loop false [] :: fs)
      | TIf rt =>
          seg ← apop (af_poly f) i32 (af_seg f);
          Some (AFrame rt block_type.if_ false [] :: upd f (af_poly f) seg :: fs')
      | TElse =>
          if bool_decide (af_type f = block_type.if_) &&
             check_results (af_poly f) (af_res f) (af_seg f)
          then Some (AFrame (af_res f) block_type.else_ false [] :: fs')
          else None
      | TEnd =>
          if (bool_decide (af_type f = block_type.if_) && negb (bool_decide (af_res f = []))) ||
             negb (check_results (af_poly f) (af_res f) (af_seg f))
          then None
          else
            match fs' with
            | [] => Some []
            | g :: fs'' => Some (upd g (af_poly g) (known (rev (af_res f)) ++ af_seg g) :: fs'')
            end
      end
  end.

(** ** Invariant of the reachable frame stacks *)

Definition frame_ok (f : aframe) : Prop :=
  (length (af_res f) <= 1)%nat /\ (af_poly f = false -> all_known (af_seg f)).

(** The outermost frame, and only it, is the function frame with results [res]. *)
Fixpoint frames_shape (res : list value_type) (fs : list aframe) : Prop :=
  match fs with
  | [] => False
  | [f] => af_type f = block_type.function /\ af_res f = res
  | f :: fs' => af_type f <> block_type.function /\ frames_shape res fs'
  end.

Definition frames_ok (res : list value_type) (fs : list aframe) : Prop :=
  frames_shape res fs /\ Forall frame_ok fs.

(** ** The validator's view of the frames *)

Definition conc (o : aoperand) : operand :=
  match o with
  | None => Operand None true
  | Some t => Operand (Some t) false
  end.

Fixpoint os_of (fs : list aframe) : list operand :=
  match fs with
  | [] => []
  | f :: fs' => (conc <$> af_seg f) ++ os_of fs'
  end.

Definition poly_of (fs : list aframe) : bool :=
  match fs with [] => false | f :: _ => af_poly f end.

Fixpoint cs_of (fs : list aframe) : list block_t :=
  match fs with
  | [] => []
  | f :: fs' => Block (af_res f) (length (os_of fs')) (af_type f) (poly_of fs') :: cs_of fs'
  end.

Definition st (p : nat) (fs : list aframe) : vstate :=
  VState p (cs_of fs) (os_of fs) (poly_of fs).

Lemma upd_same f : upd f (af_poly f) (af_seg f) = f.
Proof. by destruct f. Qed.

Lemma frames_shape_nonempty res fs : frames_shape res fs -> fs <> [].
Proof. by destruct fs. Qed.

Lemma frames_shape_upd res f g fs :
  af_type g = af_type f -> af_res g = af_res f ->
  frames_shape res (f :: fs) -> frames_shape res (g :: fs).
Proof. intros Ht Hr. simpl. by rewrite Ht, Hr. Qed.

Lemma cs_of_label fs i :
  label_types <$> (cs_of fs !! i) = alabel <$> (fs !! i).
Proof.
  revert i. induction fs as [| f fs IH]; intros [| i]; simpl; [done .. | apply IH].
Qed.

Lemma length_cs_of fs : length (cs_of fs) = length fs.
Proof. induction fs as [| f fs IH]; simpl; [done | by rewrite IH]. Qed.

Lemma cs_of_last res fs :
  frames_shape res fs -> exists f, last (cs_of fs) = Some f /\ blk_result f = res.
Proof.
  induction fs as [| f [| g fs] IH]; [done | |].
  - intros [_ <-]. simpl. eauto.
  - intros [_ H]. apply IH in H as (h & Hl & Hr). exists h. split; [| done]. exact Hl.
Qed.

(** ** Invariant preservation *)

Lemma all_known_app ts seg : all_known seg -> all_known (known ts ++ seg).
Proof.
  intros H. unfold all_known. apply Forall_app. split; [| done]. unfold known.
  apply Forall_fmap, Forall_true. simpl. eauto.
Qed.

Lemma all_known_cons t seg : all_known seg -> all_known (Some t :: seg).
Proof. intros. constructor; eauto. Qed.

Lemma apop_known poly t seg seg' : all_known seg -> apop poly t seg = Some seg' -> all_known seg'.
Proof.
  intros Hk H. destruct Hk as [| o seg Ho Hk]; simpl in H; [destruct poly; simplify_eq; constructor |].
  destruct (accepts o t); by simplify_eq.
Qed.

Lemma apops_known poly ts seg seg' : all_known seg -> apops poly ts seg = Some seg' -> all_known seg'.
Proof.
  revert seg. induction ts as [| t ts IH]; intros seg Hk; simpl; [by intros [= <-] |].
  intros (seg1 & H1 & H2)%bind_Some. eauto using apop_known.
Qed.

Lemma apop_any_known seg o seg' :
  all_known seg -> apop_any false seg = Some (o, seg') -> is_Some o /\ all_known seg'.
Proof. intros [| ? ? Ho Hk]; simpl; [done |]. by intros [= <- <-]. Qed.

Lemma join_known o1 o2 o : is_Some o1 -> is_Some o2 -> join o1 o2 = Some o -> is_Some o.
Proof. intros [t1 ->] [t2 ->]. simpl. case_decide; [| done]. intros [= <-]. eauto. Qed.

Create HintDb machine.
#[export] Hint Resolve all_known_app all_known_cons apop_known apops_known : machine.

Lemma check_plain_known C e seg seg' :
  all_known seg -> check_plain C e false seg = Some (false, seg') -> all_known seg'.
Proof.
  intros Hk. destruct e; simpl; intros H; option_inv; eauto 6 with machine; try done.
  - destruct x as [o seg1]. by eapply apop_any_known.
  - destruct x0 as [o1 seg1], x1 as [o2 seg2]. simpl in *.
    destruct (apop_any_known x o1 seg1) as [Ho1 Hk1]; [eauto using apop_known | done |].
    destruct (apop_any_known seg1 o2 seg2) as [Ho2 Hk2]; [done | done |].
    constructor; [by eapply (join_known o2 o1) | done].
Qed.

(** The flag is only ever set. *)
Lemma check_plain_poly C e poly seg poly' seg' :
  check_plain C e poly seg = Some (poly', seg') -> poly' = false -> poly = false.
Proof. destruct e; simpl; intros H ?; option_inv; done. Qed.

Lemma astep_ok res C tok fs fs' :
  frames_ok res fs -> (forall rt, tok = TBlock rt \/ tok = TLoop rt \/ tok = TIf rt -> (length rt <= 1)%nat) ->
  astep C tok fs = Some fs' -> fs' = [] \/ frames_ok res fs'.
Proof.
  intros [Hs Hf] Hrt H. destruct fs as [| f fs]; [done |].
  apply Forall_cons in Hf as [[Hl Hk] Hf].
  destruct tok; simpl in H; option_inv.
  - right. split; [by eapply frames_shape_upd |]. constructor; [| done].
    split; [done |]. simpl. intros ->. pose proof (check_plain_poly _ _ _ _ _ _ H eq_refl) as Hp.
    rewrite Hp in H. eapply check_plain_known; [by apply Hk | done].
  - right. split; [by simpl | constructor; [split; [by apply (Hrt rt); auto | by constructor] |]].
    constructor; done.
  - right. split; [by simpl | constructor; [split; [by apply (Hrt rt); auto | by constructor] |]].
    constructor; done.
  - right. split; [split; [done | by eapply frames_shape_upd] |].
    constructor; [split; [by apply (Hrt rt); auto | by constructor] |].
    constructor; [| done]. split; [done |]. simpl. intros Hp. eauto using apop_known.
  - right. apply andb_true_iff in Heqb as [Ht _]. apply bool_decide_eq_true in Ht.
    split; [| constructor; [split; [done | by constructor] | done]].
    destruct fs as [| g fs]; simpl in *; [destruct Hs; congruence | by destruct Hs].
  - destruct fs as [| g fs]; simplify_eq; [by left | right].
    destruct Hs as [_ Hs]. apply Forall_cons in Hf as [[Hlg Hkg] Hf].
    split; [by eapply frames_shape_upd |]. constructor; [| done].
    split; [done |]. simpl. intros Hp. auto with machine.
Qed.
