(* ===== verification/Refines.v ===== *)
(** * Refinement of the validator's building blocks

    [refines] relates a run of validator code to an optional result of the abstract
    machine; the lemmas below give, for every helper shared by the instruction
    cases, what it computes on a state [st p fs] of the machine. *)

From stdpp Require Import base list numbers strings.
From Stdlib Require Import ZArith Lia.
From S2P Require Import Prelude Leb128 WasmTypes ValidationError ValidatorState ValidatorControl.
From S2P Require Import WasmSpec Fetch Checker Machine.

(** The error object and the exception of a rejected instruction at [p]. *)
Definition reports (p : nat) (e : verr) : Prop := err_curr e = p /\ thrown e <> pc_ok.

Definition refines {X} (p : nat) (r : outcome verr X) (o : option X) : Prop :=
  match o with
  | Some x => r = Done x
  | None => exists e, r = Thrown e /\ reports p e
  end.

(** ** Structural rules *)

Lemma refines_done {X} p (x : X) : refines p (Done x) (Some x).
Proof. done. Qed.

Lemma reports_invalid p c sel : reports p (invalid p c sel).
Proof. done. Qed.

Lemma refines_throw {X} p (r : outcome verr X) e : r = Thrown e -> reports p e -> refines p r None.
Proof. intros. by exists e. Qed.

Lemma refines_bind_none {A B} p (m : M A) (k : A -> M B) s :
  refines p (m s) None -> refines p ((m ≫= k) s) None.
Proof. intros (e & Hm & He). exists e. by rewrite (bind_thrown _ _ _ _ Hm). Qed.

Lemma refines_bind {A B} p (m : M A) (k : A -> M B) s o f :
  refines p (m s) o ->
  (forall a s', o = Some (a, s') -> refines p (k a s') (f (a, s'))) ->
  refines p ((m ≫= k) s) (o ≫= f).
Proof.
  intros Hm Hk. destruct o as [[a s'] |]; simpl in *.
  - rewrite (bind_done _ _ _ _ _ Hm). by apply Hk.
  - by apply refines_bind_none.
Qed.

(** A lookup that does not change the state. *)
Lemma refines_lookup {A B} p (m : M A) (k : A -> M B) s (o : option A) f :
  refines p (m s) (a ← o; Some (a, s)) ->
  (forall a, o = Some a -> refines p (k a s) (f a)) ->
  refines p ((m ≫= k) s) (o ≫= f).
Proof.
  intros Hm Hk. destruct o as [a |]; simpl in *.
  - rewrite (bind_done _ _ _ _ _ Hm). by apply Hk.
  - by apply refines_bind_none.
Qed.

Lemma bind_advance {B} n (k : unit -> M B) p fs : (advance n ≫= k) (st p fs) = k tt (st (p + n) fs).
Proof. done. Qed.

#[export] Hint Rewrite @bind_advance : sm.

(** A guard that throws, against a guard of the machine. *)
Lemma refines_guard {B} p (b : bool) e (k : unit -> M B) s o :
  reports p e -> (b = false -> refines p (k tt s) o) ->
  refines p ((sm_when b (sm_throw e) ≫= k) s) (if b then None else o).
Proof.
  intros He Hk. destruct b; simpl; [| by apply Hk].
  by exists e.
Qed.

Lemma refines_guard_none {B} p (b : bool) e (k : unit -> M B) s :
  reports p e -> refines p (k tt s) None -> refines p ((sm_when b (sm_throw e) ≫= k) s) None.
Proof. intros He Hk. destruct b; [by exists e | done]. Qed.

(** ** Operands of the current frame *)

Section Operands.
Context (p : nat) (f : aframe) (fs : list aframe).
Local Abbreviation seg := (af_seg f).
Local Abbreviation poly := (af_poly f).

Lemma count_st q : concrete_operand_count (st q (f :: fs)) = length seg.
Proof.
  unfold concrete_operand_count, curr_frame_operand_stack_base. simpl. rewrite length_app, length_fmap.
  destruct (Nat.leb_spec (length (os_of fs)) (length seg + length (os_of fs))); lia.
Qed.

(** What popping finds: an operand of the frame, or nothing. *)
Definition popped (os : list aoperand) : concrete_operand_t :=
  match os with
  | [] => ConcreteOperand false None false
  | o :: _ => ConcreteOperand true (otype (conc o)) (is_unknown (conc o))
  end.

Lemma try_pop_st q :
  ⟦ try_pop_concrete_operand ⟧ (st q (f :: fs)) ⇓ (popped seg, st q (upd f poly (tail seg) :: fs)).
Proof.
  unfold try_pop_concrete_operand. rewrite bind_get, count_st. unfold st. simpl.
  by destruct seg.
Qed.

Lemma try_peek_st q :
  ⟦ try_peek_concrete_operand ⟧ (st q (f :: fs)) ⇓ (popped seg, st q (f :: fs)).
Proof.
  unfold try_peek_concrete_operand. rewrite bind_get, count_st. unfold st. simpl.
  by destruct seg.
Qed.

Lemma popped_mismatch os t :
  operand_mismatch (popped os) t = match os with [] => false | o :: _ => negb (accepts o t) end.
Proof.
  destruct os as [| [t' |] os]; [done | | done]. unfold operand_mismatch, type_ne. simpl.
  f_equal. apply bool_decide_ext. naive_solver.
Qed.

Lemma apop_tail t :
  poly = true \/ (1 <= length seg)%nat ->
  apop poly t seg = if operand_mismatch (popped seg) t then None else Some (tail seg).
Proof.
  intros H. rewrite popped_mismatch. destruct seg as [| o os]; simpl.
  - destruct H as [-> | H]; [done | simpl in H; lia].
  - by destruct (accepts o t).
Qed.

(** Pop one operand and compare it with [t]. *)
Lemma refines_pop {B} p0 q t (e : concrete_operand_t -> verr) (k : concrete_operand_t -> M B) K :
  poly = true \/ (1 <= length seg)%nat ->
  (forall x, reports p0 (e x)) ->
  (forall seg', apop poly t seg = Some seg' ->
     refines p0 (k (popped seg) (st q (upd f poly seg' :: fs))) (K seg')) ->
  refines p0 ((x ← try_pop_concrete_operand;
               sm_when (operand_mismatch x t) (sm_throw (e x));; k x) (st q (f :: fs)))
    (seg' ← apop poly t seg; K seg').
Proof.
  intros Hp He Hk. rewrite (bind_done _ _ _ _ _ (try_pop_st q)).
  rewrite (apop_tail t Hp). rewrite (apop_tail t Hp) in Hk.
  destruct (operand_mismatch (popped seg) t); simpl.
  - by eexists.
  - by apply Hk.
Qed.

Lemma pop_check {B} q t (e : concrete_operand_t -> verr) (k : concrete_operand_t -> M B) :
  (x ← try_pop_concrete_operand;
   sm_when (operand_mismatch x t) (sm_throw (e x));; k x) (st q (f :: fs)) =
  if match seg with [] => false | o :: _ => negb (accepts o t) end
  then Thrown (e (popped seg)) else k (popped seg) (st q (upd f poly (tail seg) :: fs)).
Proof.
  rewrite (bind_done _ _ _ _ _ (try_pop_st q)), popped_mismatch.
  by destruct seg as [| o os]; [| destruct (accepts o t)].
Qed.

Lemma underflow_throws {B} p0 q name n (k : unit -> M B) :
  poly = false -> (length seg < n)%nat ->
  (underflow_unless p0 name n ≫= k) (st q (f :: fs)) =
  Thrown (invalid p0 cvec.operand_stack_underflow
    (sel_operand_stack_underflow name (length seg) (Z.of_nat n))).
Proof.
  intros Hp Hn. unfold underflow_unless, mbind, sm_bind, sm_get. simpl. rewrite count_st, Hp.
  rewrite (proj2 (Nat.ltb_lt _ _)) by lia. simpl.
  unfold report_operand_stack_underflow, mbind, sm_bind, sm_gets. by rewrite count_st.
Qed.

Lemma underflow_passes {B} p0 q name n (k : unit -> M B) :
  poly = true \/ (n <= length seg)%nat ->
  (underflow_unless p0 name n ≫= k) (st q (f :: fs)) = k tt (st q (f :: fs)).
Proof.
  intros Hn. unfold underflow_unless, mbind, sm_bind, sm_get. simpl. rewrite count_st.
  destruct Hn as [-> | Hn]; [done |]. rewrite (proj2 (Nat.ltb_ge _ _)) by lia. by rewrite andb_false_r.
Qed.

(** [underflow_unless]: throws exactly when popping [n] operands is impossible. *)
Lemma refines_underflow {B} p0 q name n (k : unit -> M B) o :
  (poly = false -> (length seg < n)%nat -> o = None) ->
  (poly = true \/ (n <= length seg)%nat -> refines p0 (k tt (st q (f :: fs))) o) ->
  refines p0 ((underflow_unless p0 name n ≫= k) (st q (f :: fs))) o.
Proof.
  intros Hn Hk.
  destruct (decide (poly = true \/ (n <= length seg)%nat)) as [Hc | Hc].
  - rewrite underflow_passes by done. by apply Hk.
  - destruct poly eqn:Hp; [tauto |]. rewrite underflow_throws by (done || lia).
    rewrite Hn by (done || lia). by eexists.
Qed.

Lemma refines_underflow_succ {B} p0 q name n (k : unit -> M B) o :
  Z.of_nat n < size_t_max ->
  (poly = false -> (length seg < S n)%nat -> o = None) ->
  (poly = true \/ (S n <= length seg)%nat -> refines p0 (k tt (st q (f :: fs))) o) ->
  refines p0 ((underflow_unless_succ p0 name n ≫= k) (st q (f :: fs))) o.
Proof.
  intros Hmax Hn Hk. unfold underflow_unless_succ, mbind at 1, sm_bind at 1.
  rewrite bind_get, count_st. rewrite (proj2 (Z.eqb_neq (Z.of_nat n) size_t_max)) by lia.
  simpl. destruct poly eqn:Hpoly; simpl; [by apply Hk; left |].
  destruct (Z.ltb_spec (Z.of_nat (length seg)) (Z.of_nat n + 1)); simpl.
  - rewrite Hn by (done || lia). by eexists.
  - apply Hk. right. lia.
Qed.
End Operands.

(** ** Comparing and consuming a vector of types *)

(** The operands that are present have the expected types, top first. *)
Fixpoint all_accept (ts : list value_type) (seg : list aoperand) : bool :=
  match ts, seg with
  | t :: ts, o :: seg => accepts o t && all_accept ts seg
  | _, _ => true
  end.

Lemma all_accept_nil ts : all_accept ts [] = true.
Proof. by destruct ts. Qed.

Lemma apops_all_accept poly ts seg :
  apops poly ts seg =
  if negb poly && (length seg <? length ts)%nat then None
  else if all_accept ts seg then Some (drop (length ts) seg) else None.
Proof.
  revert seg. induction ts as [| t ts IH]; intros seg; simpl.
  - rewrite andb_false_r. by rewrite drop_0.
  - destruct seg as [| o seg]; simpl.
    + destruct poly; simpl; [| done]. rewrite IH. simpl. by rewrite all_accept_nil, drop_nil.
    + destruct (accepts o t); simpl; [by rewrite IH | by destruct (negb poly && _)].
Qed.

Lemma apops_short ts seg : (length seg < length ts)%nat -> apops false ts seg = None.
Proof. intros H. rewrite apops_all_accept. by rewrite (proj2 (Nat.ltb_lt _ _)) by lia. Qed.

Lemma rev_lookup {A} (l : list A) i :
  (i < length l)%nat -> l !! (length l - 1 - i)%nat = rev l !! i.
Proof.
  revert i. induction l as [| x l IH] using rev_ind; intros i Hi; simpl in *; [lia |].
  rewrite rev_app_distr, length_app in *. simpl in *. destruct i as [| i]; simpl.
  - rewrite lookup_app_r by lia. by replace (length l + 1 - 1 - 0 - length l)%nat with 0%nat by lia.
  - rewrite lookup_app_l by lia. rewrite <- IH by lia. f_equal. lia.
Qed.

Lemma os_lookup f fs i o :
  af_seg f !! i = Some o -> ((conc <$> af_seg f) ++ os_of fs) !! i = Some (conc o).
Proof. intros H. apply lookup_app_l_Some. by rewrite list_lookup_fmap, H. Qed.

Lemma conc_accepts o t : negb (is_unknown (conc o)) && type_ne (otype (conc o)) t = negb (accepts o t).
Proof.
  destruct o as [t' |]; [| done]. unfold type_ne. simpl. f_equal. apply bool_decide_ext. naive_solver.
Qed.

Lemma all_accept_drop i ts seg t o :
  ts !! i = Some t -> seg !! i = Some o ->
  all_accept (drop i ts) (drop i seg) = accepts o t && all_accept (drop (S i) ts) (drop (S i) seg).
Proof.
  intros Ht Ho. by rewrite (drop_S ts t i Ht), (drop_S seg o i Ho).
Qed.

Lemma all_accept_short i ts seg :
  (length ts <= i \/ length seg <= i)%nat -> all_accept (drop i ts) (drop i seg) = true.
Proof.
  intros [H | H]; [by rewrite (drop_ge ts) by lia |].
  rewrite (drop_ge seg) by lia. apply all_accept_nil.
Qed.

Section Consume.
Context (f : aframe) (fs : list aframe).
Local Abbreviation seg := (af_seg f).
Local Abbreviation poly := (af_poly f).

Lemma check_operand_types_from p0 q mm expected n i :
  (forall t a, reports p0 (mm t a)) ->
  (i + n)%nat = (length seg `min` length expected)%nat ->
  refines p0 (check_operand_types mm expected i n (st q (f :: fs)))
    (if all_accept (drop i (rev expected)) (drop i seg) then Some (tt, st q (f :: fs)) else None).
Proof.
  intros Hmm. revert i. induction n as [| n IH]; intros i Hi; simpl.
  - rewrite all_accept_short by (rewrite length_rev; lia). done.
  - destruct (lookup_lt_is_Some_2 (rev expected) i) as [t Ht]; [rewrite length_rev; lia |].
    destruct (lookup_lt_is_Some_2 seg i) as [o Ho]; [lia |].
    rewrite (rev_lookup expected i), Ht by lia. rewrite bind_some, bind_get.
    rewrite (all_accept_drop i _ _ t o) by done.
    simpl. rewrite (os_lookup f fs i o Ho), bind_some, conc_accepts.
    destruct (accepts o t); simpl; [apply IH; lia | by eexists].
Qed.

Lemma check_operand_types_st p0 q mm expected :
  (forall t a, reports p0 (mm t a)) ->
  refines p0 (check_operand_types mm expected 0 (min_count (length seg) (length expected)) (st q (f :: fs)))
    (if all_accept (rev expected) seg then Some (tt, st q (f :: fs)) else None).
Proof.
  intros Hmm.
  pose proof (check_operand_types_from p0 q mm expected (min_count (length seg) (length expected)) 0 Hmm) as H.
  rewrite !drop_0 in H. apply H. unfold min_count. destruct (Nat.ltb_spec (length seg) (length expected)); lia.
Qed.

Lemma pop_available_st q n :
  ⟦ pop_available_concrete_operands n ⟧ (st q (f :: fs)) ⇓ (tt, st q (upd f poly (drop n seg) :: fs)).
Proof.
  destruct f as [r t pl sg]. unfold upd. simpl. revert sg.
  induction n as [| n IH]; intros sg; simpl; [by rewrite drop_0 |].
  rewrite bind_get, count_st. simpl. destruct sg as [| o sg]; simpl; [done |].
  apply (IH sg).
Qed.

(** Check the top operands against [expected] and drop them. *)
Lemma refines_consume {B} p0 q mm expected (k : unit -> M B) K :
  (forall t a, reports p0 (mm t a)) ->
  poly = true \/ (length expected <= length seg)%nat ->
  (forall seg', apops poly (rev expected) seg = Some seg' ->
     refines p0 (k tt (st q (upd f poly seg' :: fs))) (K seg')) ->
  refines p0 ((n ← sm_gets concrete_operand_count;
               check_operand_types mm expected 0 (min_count n (length expected));;
               pop_available_concrete_operands (length expected) ≫= k) (st q (f :: fs)))
    (seg' ← apops poly (rev expected) seg; K seg').
Proof.
  intros Hmm Hp Hk. rewrite bind_gets, count_st.
  rewrite apops_all_accept, length_rev in *.
  replace (negb poly && (length seg <? length expected)%nat) with false in *
    by (destruct Hp as [-> |]; [done |]; destruct (Nat.ltb_spec (length seg) (length expected));
        [lia | by rewrite andb_false_r]).
  pose proof (check_operand_types_st p0 q mm expected Hmm) as Hc.
  destruct (all_accept (rev expected) seg); simpl in *.
  - rewrite (bind_done _ _ _ _ _ Hc). rewrite (bind_done _ _ _ _ _ (pop_available_st q _)).
    by apply Hk.
  - by apply refines_bind_none.
Qed.

Lemma pop_above_app os1 os2 : pop_above (length os2) (os1 ++ os2) = os2.
Proof.
  induction os1 as [| o os1 IH]; simpl.
  - destruct os2 as [| o os2]; [done |]. simpl. by rewrite Nat.ltb_irrefl.
  - rewrite length_app. rewrite (proj2 (Nat.ltb_lt _ _)) by lia. apply IH.
Qed.

Lemma clear_to_st q :
  ⟦ clear_to (length (os_of fs)) ⟧ (st q (f :: fs)) ⇓ (tt, st q (upd f poly [] :: fs)).
Proof. unfold clear_to, sm_modify, set_operand_stack, st. simpl. by rewrite pop_above_app. Qed.

Lemma enter_unreachable_st q :
  ⟦ enter_unreachable ⟧ (st q (f :: fs)) ⇓ (tt, st q (upd f true [] :: fs)).
Proof.
  unfold enter_unreachable. rewrite bind_get. simpl. rewrite bind_some. simpl.
  by rewrite (bind_done _ _ _ _ _ (clear_to_st q)).
Qed.

Lemma fold_push res os :
  fold_left (fun os t => Operand (Some t) false :: os) res os = (conc <$> known (rev res)) ++ os.
Proof.
  revert os. induction res as [| t res IH]; intros os; [done |]. simpl. rewrite IH.
  unfold known. rewrite !fmap_app, <- app_assoc. done.
Qed.

Lemma push_results_st q res :
  ⟦ push_results res ⟧ (st q (f :: fs)) ⇓ (tt, st q (upd f poly (known (rev res) ++ seg) :: fs)).
Proof.
  unfold push_results, sm_modify, set_operand_stack, st. simpl.
  rewrite fold_push, fmap_app, <- app_assoc. done.
Qed.

Lemma push_operand_st q t :
  ⟦ push_operand (Some t) ⟧ (st q (f :: fs)) ⇓ (tt, st q (upd f poly (Some t :: seg) :: fs)).
Proof. done. Qed.
End Consume.

(** ** Reading immediates *)

Section Read.
Context (env : venv).

Lemma read_leb128_st digits sg p0 c sel q fs :
  refines p0 (read_leb128 env digits sg p0 c sel (st q fs))
    ('(v, q') ← get_leb (code env) digits sg q; Some (v, st q' fs)).
Proof.
  unfold read_leb128, get_leb. rewrite bind_get. simpl.
  case_bool_decide as Hc; simpl; [done |]. by eexists.
Qed.

Lemma refines_read {B} digits sg p0 c sel q fs (k : Z -> M B) K :
  (forall v q', get_leb (code env) digits sg q = Some (v, q') ->
     refines p0 (k v (st q' fs)) (K (v, q'))) ->
  refines p0 ((read_leb128 env digits sg p0 c sel ≫= k) (st q fs))
    (get_leb (code env) digits sg q ≫= K).
Proof.
  intros Hk. pose proof (read_leb128_st digits sg p0 c sel q fs) as Hr.
  destruct (get_leb _ _ _ _) as [[v q'] |]; simpl in *.
  - rewrite (bind_done _ _ _ _ _ Hr). by apply Hk.
  - by apply refines_bind_none.
Qed.

Lemma refines_read_u32 {B} p0 c q fs (k : Z -> M B) K :
  Forall is_byte (code env) ->
  (forall v q', get_leb (code env) 32 false q = Some (v, q') -> 0 <= v < 2 ^ 32 ->
     refines p0 (k v (st q' fs)) (K (v, q'))) ->
  refines p0 ((read_u32 env p0 c ≫= k) (st q fs)) (get_leb (code env) 32 false q ≫= K).
Proof.
  intros Hb Hk. apply refines_read. intros v q' Hv. apply Hk; [done |].
  apply (get_u32_iff _ Hb) in Hv as (bs & Hu & _). by apply uN_bounds in Hu as [? _].
Qed.

(** An index immediate: a value below 2^32, given to the machine as a [nat]. *)
Lemma refines_read_index {B} p0 c q fs (k : Z -> M B) K :
  Forall is_byte (code env) ->
  (forall x q', get_index (code env) q = Some (x, q') -> Z.of_nat x < 2 ^ 32 ->
     refines p0 (k (Z.of_nat x) (st q' fs)) (K (x, q'))) ->
  refines p0 ((read_u32 env p0 c ≫= k) (st q fs)) (get_index (code env) q ≫= K).
Proof.
  intros Hb Hk. unfold get_index. rewrite option_bind_assoc.
  apply refines_read_u32; [done |]. intros v q' Hv Hbd. simpl.
  rewrite <- (Z2Nat.id v) at 1 by lia. apply Hk; [| lia].
  unfold get_index. by rewrite Hv.
Qed.

Lemma read_block_type_st p0 q fs :
  (q <= length (code env))%nat ->
  refines p0 (read_block_type env p0 (st q fs))
    ('(rt, q') ← get_blocktype (code env) q; Some (rt, st q' fs)).
Proof.
  intros Hq. unfold read_block_type, get_blocktype, blocktype, code_end. rewrite bind_get. simpl.
  destruct (Nat.eqb_spec q (length (code env))) as [-> | Hne].
  - rewrite (lookup_ge_None_2 (code env)) by lia. by eexists.
  - destruct (lookup_lt_is_Some_2 (code env) q) as [b Hb]; [lia |].
    rewrite Hb, bind_some, bind_advance, Nat.add_1_r. simpl.
    repeat case_match; simpl; try done. by eexists.
Qed.

(** A byte that must be zero. *)
Lemma get_zero_cases q :
  (q <= length (code env))%nat ->
  (q = length (code env) /\ get_zero (code env) q = None) \/
  (exists b, q <> length (code env) /\ code env !! q = Some b /\
     get_zero (code env) q = if b =? 0 then Some (S q) else None).
Proof.
  intros Hq. unfold get_zero. destruct (Nat.eq_dec q (length (code env))) as [-> | Hne].
  - left. by rewrite (lookup_ge_None_2 (code env)) by lia.
  - right. destruct (lookup_lt_is_Some_2 (code env) q) as [b Hb]; [lia |].
    exists b. by rewrite Hb.
Qed.
End Read.
