(* ===== verification/RefineCases.v ===== *)
(** * The instruction cases implement the abstract machine

    For each case of the validator's [switch], that on a state of the machine it
    reads the immediates the binary grammar prescribes and then behaves as the
    checker does on the decoded instruction. *)

From stdpp Require Import base list numbers strings.
From Stdlib Require Import ZArith Lia.
From S2P Require Import Prelude Leb128 WasmTypes ValidationError ValidatorState ValidatorControl.
From S2P Require Import ValidatorPlain WasmSpec Fetch Checker Machine Refines.

(** What the cases rely on: the module lookups they make agree with the typing
    context [C]. *)
Class EnvOk (env : venv) (C : context) : Prop := {
  env_bytes : Forall is_byte (code env);
  env_length : zlen (code env) < 2 ^ 64;
  env_local p0 x s : Z.of_nat x < 2 ^ 32 ->
    refines p0 (local_type_of env p0 (Z.of_nat x) s) (t ← tc_locals C !! x; Some (t, s));
  env_global p0 x s : Z.of_nat x < 2 ^ 32 ->
    refines p0 (global_of env p0 (Z.of_nat x) s) (g ← tc_globals C !! x; Some (g, s));
  env_func_count : (import_func_count env + local_func_count env)%nat = length (tc_funcs C);
  env_callee x ft s : tc_funcs C !! x = Some ft -> callee_type_of env x s = Done (ft, s);
  env_types : types (modl env) = tc_types C;
  env_params : Forall (fun ft => zlen (parameter ft) < size_t_max) (tc_types C);
  env_tables : (all_table_count env <=? 0) = (tc_tables C =? 0)%nat;
  env_mems : (all_memory_count env =? 0) = (tc_mems C =? 0)%nat
}.

Lemma apop_length poly t seg seg' : apop poly t seg = Some seg' -> length seg' = pred (length seg).
Proof. destruct seg; simpl; intros; repeat case_match; by simplify_eq. Qed.

(** Side conditions about operand counts. *)
Ltac counts :=
  simpl in *;
  repeat match goal with H : apop _ _ _ = Some _ |- _ => apply apop_length in H end;
  intuition (try congruence); right; lia.

(** The machine's result for a plain instruction that ends at [q]. *)
Definition run_plain (C : context) (f : aframe) (fs : list aframe) (q : nat) (e : instr)
    : option (unit * vstate) :=
  '(poly', seg') ← check_plain (ctx_of C (f :: fs)) e (af_poly f) (af_seg f);
  Some (tt, st q (upd f poly' seg' :: fs)).

(** [spec] flattens the machine's side, [run] executes the leading steps of a case. *)
Ltac spec :=
  unfold run_plain; simpl;
  repeat (rewrite option_bind_assoc || rewrite option_bind_guard || rewrite option_bind_guard');
  simpl.
Ltac run :=
  repeat first [rewrite bind_get | rewrite bind_gets | rewrite bind_advance | rewrite bind_ret];
  rewrite ?Nat.add_1_r.

Section Select.
Context (f : aframe) (fs : list aframe).
Local Abbreviation seg := (af_seg f).
Local Abbreviation poly := (af_poly f).

(** The condition test of [select] is the one of the other conditions. *)
Lemma select_cond_test x (e : value_type_obj -> verr) :
  match known_type x with
  | Some cond_type => sm_when (type_ne cond_type i32) (sm_throw (e cond_type))
  | None => mret tt
  end = sm_when (operand_mismatch x i32) (sm_throw (e (co_type x))) :> M unit.
Proof. by destruct x as [[] o []]. Qed.

Lemma known_type_popped os :
  known_type (popped os) = match os with Some t :: _ => Some (Some t) | _ => None end.
Proof. by destruct os as [| [t |] os]. Qed.

(** The two values of [select]. *)
Lemma select_values_refines p q (e : value_type_obj -> value_type_obj -> verr) :
  (forall a b, reports p (e a b)) ->
  poly = true \/ (2 <= length seg)%nat ->
  refines p
    ((v2_operand ← try_pop_concrete_operand;
      let v2 := known_type v2_operand in
      v1_operand ← try_pop_concrete_operand;
      let v1 := known_type v1_operand in
      match v1, v2 with
      | Some v1_type, Some v2_type =>
          sm_when (negb (bool_decide (v1_type = v2_type))) (sm_throw (e v1_type v2_type))
      | _, _ => mret tt
      end;;
      match v1, v2 with
      | Some v1_type, _ => push_operand v1_type
      | None, Some v2_type => push_operand v2_type
      | None, None =>
          sm_modify (fun s => set_operand_stack (Operand None true :: operand_stack s) s)
      end) (st q (f :: fs)))
    (r2 ← apop_any poly seg; r1 ← apop_any poly r2.2; o ← join r1.1 r2.1;
     Some (tt, st q (upd f poly (o :: r1.2) :: fs))).
Proof.
  intros He Hn. rewrite (bind_done _ _ _ _ _ (try_pop_st f fs q)). cbv zeta.
  rewrite (bind_done _ _ _ _ _ (try_pop_st (upd f poly (tail seg)) fs q)). cbv zeta.
  rewrite !known_type_popped.
  destruct f as [r t pl sg]; simpl in *.
  destruct sg as [| [v2 |] [| [v1 |] sg]]; simpl in *;
    try (destruct Hn as [-> | Hn]; [done | lia]); try done.
  destruct (decide (v1 = v2)) as [-> | Hne].
  - by rewrite bool_decide_true by done.
  - rewrite bool_decide_false by congruence. by eexists.
Qed.
End Select.

Section Cases.
Context (env : venv) (C : context) `{!EnvOk env C}.
Context (f : aframe) (fs : list aframe).
Local Abbreviation seg := (af_seg f).
Local Abbreviation poly := (af_poly f).

Local Abbreviation run_plain := (run_plain C f fs).

Lemma run_plain_astep q e :
  run_plain q e = fs' ← astep C (TPlain e) (f :: fs); Some (tt, st q fs').
Proof. unfold run_plain. simpl. by destruct (check_plain _ _ _ _) as [[] |]. Qed.

(** The operand count test in front of popping [ts]. *)
Lemma refines_underflow_apops {B} p q name n ts (k : unit -> M B) K :
  n = length ts ->
  (poly = true \/ (n <= length seg)%nat ->
     refines p (k tt (st q (f :: fs))) (apops poly ts seg ≫= K)) ->
  refines p ((underflow_unless p name n ≫= k) (st q (f :: fs))) (apops poly ts seg ≫= K).
Proof.
  intros -> Hk. apply refines_underflow; [| done]. intros -> Hl. by rewrite apops_short.
Qed.

Lemma refines_underflow_succ_apops {B} p q name n ts (k : unit -> M B) K :
  S n = length ts -> Z.of_nat n < size_t_max ->
  (poly = true \/ (S n <= length seg)%nat ->
     refines p (k tt (st q (f :: fs))) (apops poly ts seg ≫= K)) ->
  refines p ((underflow_unless_succ p name n ≫= k) (st q (f :: fs))) (apops poly ts seg ≫= K).
Proof.
  intros Hn Hmax Hk. apply refines_underflow_succ; [done | | done].
  intros -> Hl. by rewrite apops_short by lia.
Qed.

Lemma apop_apops t K :
  (seg' ← apop poly t seg; K seg') = (apops poly [t] seg ≫= K : option (unit * vstate)).
Proof. simpl. by destruct (apop poly t seg). Qed.

(** Popping one operand behind its count test. *)
Lemma refines_pop1 {B} p q name t e (k : concrete_operand_t -> M B) K :
  (forall x, reports p (e x)) ->
  (forall seg', apop poly t seg = Some seg' ->
     refines p (k (popped seg) (st q (upd f poly seg' :: fs))) (K seg')) ->
  refines p ((underflow_unless p name 1;;
              x ← try_pop_concrete_operand;
              sm_when (operand_mismatch x t) (sm_throw (e x));; k x) (st q (f :: fs)))
    (seg' ← apop poly t seg; K seg').
Proof.
  intros He Hk. apply refines_underflow.
  - intros -> Hl. by destruct seg; [| simpl in *; lia].
  - intros Hn. by apply refines_pop.
Qed.

(** The same at the end of a case. *)
Lemma refines_pop1_last p q name t e :
  (forall x, reports p (e x)) ->
  refines p ((underflow_unless p name 1;;
              x ← try_pop_concrete_operand;
              sm_when (operand_mismatch x t) (sm_throw (e x))) (st q (f :: fs)))
    (seg' ← apop poly t seg; Some (tt, st q (upd f poly seg' :: fs))).
Proof.
  intros He. apply refines_underflow.
  - intros -> Hl. by destruct seg; [| simpl in *; lia].
  - intros Hn. rewrite (bind_done _ _ _ _ _ (try_pop_st f fs q)), (apop_tail f t Hn).
    destruct (operand_mismatch (popped seg) t); [by eexists | done].
Qed.

(** ** Numeric instructions *)

Lemma numeric_unary_refines p name t r op :
  numeric_type op = Some ([t], r) ->
  refines p (validate_numeric_unary name t r (st p (f :: fs))) (run_plain (S p) (INumeric op)).
Proof.
  intros Hop. spec. rewrite Hop. spec. unfold validate_numeric_unary. run.
  by apply refines_pop1.
Qed.

Lemma numeric_binary_refines p name t r op :
  numeric_type op = Some ([t; t], r) ->
  refines p (validate_numeric_binary name t r (st p (f :: fs))) (run_plain (S p) (INumeric op)).
Proof.
  intros Hop. unfold run_plain. simpl. rewrite Hop. simpl (rev _).
  cbn [mbind option_bind]. rewrite option_bind_assoc. unfold validate_numeric_binary. run.
  apply refines_underflow_apops; [done |]. intros Hn. spec.
  apply refines_pop; [counts | done |]. intros seg1 H1. spec.
  apply (refines_pop (upd f poly seg1) fs); [counts | done |]. intros seg2 H2. done.
Qed.

(** ** Memory instructions *)

Lemma read_memarg_refines {B} p q name ma bits (k : unit -> M B) K R :
  0 <= ma -> 2 ^ ma = bits / 8 ->
  (forall a o q', R a o q' =
     if (tc_mems C =? 0)%nat then None else if 2 ^ a <=? bits / 8 then K a o q' else None) ->
  (forall a o q', refines p (k tt (st q' (f :: fs))) (K a o q')) ->
  refines p ((read_memarg env p name ma ≫= k) (st q (f :: fs)))
    ('(a, q1) ← get_leb (code env) 32 false q;
     '(o, q2) ← get_leb (code env) 32 false q1; R a o q2).
Proof.
  intros Hma Hbits HR Hk. unfold read_memarg. rewrite sm_bind_assoc.
  apply refines_read_u32; [apply env_bytes |]. intros a q1 _ Ha. rewrite sm_bind_assoc.
  apply refines_read_u32; [apply env_bytes |]. intros o q2 _ Ho. rewrite sm_bind_assoc, HR.
  rewrite env_mems. apply refines_guard; [done |]. intros Hm.
  replace (2 ^ a <=? bits / 8) with (negb (ma <? a)).
  { destruct (ma <? a); [by eexists | apply Hk]. }
  rewrite <- Hbits. destruct (Z.ltb_spec ma a), (Z.leb_spec (2 ^ a) (2 ^ ma)); simpl; try done.
  - apply Z.pow_le_mono_r_iff in H0; lia.
  - assert (2 ^ a <= 2 ^ ma) by (apply Z.pow_le_mono_r; lia). lia.
Qed.

Lemma mem_load_refines p name ma t bits op :
  load_type op = Some (t, bits) -> 0 <= ma -> 2 ^ ma = bits / 8 ->
  refines p (validate_mem_load env name ma t (st p (f :: fs)))
    ('(a, q1) ← get_leb (code env) 32 false (S p);
     '(o, q2) ← get_leb (code env) 32 false q1;
     run_plain q2 (ILoad op a o)).
Proof.
  intros Hop Hma Hbits. unfold validate_mem_load. run.
  eapply read_memarg_refines; [done | done | |].
  - intros a o q. unfold run_plain. simpl. rewrite Hop. simpl. rewrite option_bind_guard.
    destruct (2 ^ a <=? bits / 8); [| done].
    instantiate (1 := fun a o q => seg' ← apop poly i32 seg; Some (tt, st q (upd f poly (Some t :: seg') :: fs))).
    simpl. by rewrite option_bind_assoc.
  - intros a o q. by apply refines_pop1.
Qed.

Lemma refines_store_operands p q name t e1 e2 :
  (forall x, reports p (e1 x)) -> (forall x, reports p (e2 x)) ->
  refines p ((underflow_unless p name 2;;
              value ← try_pop_concrete_operand;
              addr ← try_pop_concrete_operand;
              sm_when (operand_mismatch addr i32) (sm_throw (e1 addr));;
              sm_when (operand_mismatch value t) (sm_throw (e2 value))) (st q (f :: fs)))
    (seg' ← apops poly [t; i32] seg; Some (tt, st q (upd f poly seg' :: fs))).
Proof.
  intros He1 He2. apply refines_underflow_apops; [done |]. intros Hn. simpl.
  rewrite (bind_done _ _ _ _ _ (try_pop_st f fs q)).
  rewrite (bind_done _ _ _ _ _ (try_pop_st (upd f poly (tail seg)) fs q)). simpl.
  rewrite (apop_tail f t) by counts.
  destruct (operand_mismatch (popped seg) t); simpl.
  - destruct (operand_mismatch (popped (tail seg)) i32); by eexists.
  - pose proof (apop_tail (upd f poly (tail seg)) i32) as Ht. simpl in Ht.
    rewrite Ht by (destruct seg; counts).
    destruct (operand_mismatch (popped (tail seg)) i32); [by eexists | done].
Qed.

Lemma mem_store_refines p name ma t bits op :
  store_type op = Some (t, bits) -> 0 <= ma -> 2 ^ ma = bits / 8 ->
  refines p (validate_mem_store env name ma t (st p (f :: fs)))
    ('(a, q1) ← get_leb (code env) 32 false (S p);
     '(o, q2) ← get_leb (code env) 32 false q1;
     run_plain q2 (IStore op a o)).
Proof.
  intros Hop Hma Hbits. unfold validate_mem_store. run.
  eapply read_memarg_refines; [done | done | |].
  - intros a o q. unfold run_plain. cbn [check_plain]. rewrite Hop. simpl. rewrite option_bind_guard.
    destruct (2 ^ a <=? bits / 8); [| done].
    instantiate (1 := fun a o q => seg' ← apops poly [t; i32] seg; Some (tt, st q (upd f poly seg' :: fs))).
    simpl. by rewrite option_bind_assoc.
  - intros a o q. by apply refines_store_operands.
Qed.

(** [memory.size] and [memory.grow] read a memory index of value 0. *)
Lemma read_memory_index_refines {B} p q name (k : unit -> M B) K R :
  (q <= length (code env))%nat ->
  R (S q) = (if (tc_mems C =? 0)%nat then None else K) ->
  ((tc_mems C =? 0)%nat = false -> refines p (k tt (st (S q) (f :: fs))) K) ->
  refines p ((read_memory_index env p name ≫= k) (st q (f :: fs)))
    (get_zero (code env) q ≫= R).
Proof.
  intros Hq HR Hk. unfold read_memory_index, code_end. rewrite sm_bind_assoc. run. simpl.
  destruct (get_zero_cases env q Hq) as [[-> ->] | (b & Hne & -> & ->)].
  - rewrite Nat.eqb_refl. by eexists.
  - rewrite (proj2 (Nat.eqb_neq _ _)) by done. rewrite sm_bind_assoc, bind_some, sm_bind_assoc.
    run. rewrite sm_bind_assoc. destruct (b =? 0); simpl; [| by eexists].
    rewrite env_mems, HR. by apply refines_guard.
Qed.

Lemma memory_size_refines p :
  (p < length (code env))%nat ->
  refines p (case_memory_size env (st p (f :: fs)))
    (q ← get_zero (code env) (S p); run_plain q IMemorySize).
Proof.
  intros Hp. unfold case_memory_size. run.
  eapply read_memory_index_refines; [lia | apply option_bind_guard | done].
Qed.

Lemma memory_grow_refines p :
  (p < length (code env))%nat ->
  refines p (case_memory_grow env (st p (f :: fs)))
    (q ← get_zero (code env) (S p); run_plain q IMemoryGrow).
Proof.
  intros Hp. unfold case_memory_grow. run.
  eapply read_memory_index_refines; [lia | apply option_bind_guard |]. intros Hm.
  rewrite option_bind_assoc. by apply refines_pop1.
Qed.

(** ** Constants *)

Lemma i32_const_refines p :
  refines p (case_i32_const env (st p (f :: fs)))
    ('(v, q) ← get_leb (code env) 32 true (S p); run_plain q (II32Const v)).
Proof. unfold case_i32_const. run. by apply refines_read. Qed.

Lemma i64_const_refines p :
  refines p (case_i64_const env (st p (f :: fs)))
    ('(v, q) ← get_leb (code env) 64 true (S p); run_plain q (II64Const v)).
Proof. unfold case_i64_const. run. by apply refines_read. Qed.

Lemma skip_float_refines {B} p q name n (k : unit -> M B) K :
  (q <= length (code env))%nat ->
  (forall bs, refines p (k tt (st (q + n) (f :: fs))) (K (bs, (q + n)%nat))) ->
  refines p ((skip_float env p name n ≫= k) (st q (f :: fs))) (get_raw (code env) n q ≫= K).
Proof.
  intros Hq Hk. unfold skip_float, get_raw, remaining_bytes, code_end, uz, wrap.
  pose proof (env_length (env := env) (C := C)) as Hlen. unfold zlen in Hlen.
  rewrite sm_bind_assoc. run. rewrite sm_bind_assoc. simpl.
  rewrite Z.mod_small by lia.
  destruct (Z.ltb_spec (Z.of_nat (length (code env)) - Z.of_nat q) (Z.of_nat n)).
  - rewrite (proj2 (Nat.leb_nle _ _)) by lia. by eexists.
  - rewrite (proj2 (Nat.leb_le _ _)) by lia. apply Hk.
Qed.

Lemma f32_const_refines p :
  (p < length (code env))%nat ->
  refines p (case_f32_const env (st p (f :: fs)))
    ('(bs, q) ← get_raw (code env) 4 (S p); run_plain q (IF32Const bs)).
Proof. intros Hp. unfold case_f32_const. run. by apply skip_float_refines. Qed.

Lemma f64_const_refines p :
  (p < length (code env))%nat ->
  refines p (case_f64_const env (st p (f :: fs)))
    ('(bs, q) ← get_raw (code env) 8 (S p); run_plain q (IF64Const bs)).
Proof. intros Hp. unfold case_f64_const. run. by apply skip_float_refines. Qed.

(** ** Parametric instructions *)

Lemma drop_refines p : refines p (case_drop (st p (f :: fs))) (run_plain (S p) IDrop).
Proof.
  unfold case_drop. run. rewrite count_st. unfold run_plain. simpl.
  destruct f as [r t pl sg]; simpl. destruct sg as [| o sg]; simpl; [| done].
  destruct pl; simpl; [done | by eexists].
Qed.

Lemma select_refines p : refines p (case_select (st p (f :: fs))) (run_plain (S p) ISelect).
Proof.
  unfold case_select, run_plain. run. simpl. rewrite option_bind_assoc.
  apply refines_underflow.
  { intros -> Hl. destruct seg as [| o1 [| o2 [| ]]]; simpl in *; try done; [..| lia];
      by destruct (accepts o1 i32). }
  intros Hn.
  pose proof (fun x => select_cond_test x (fun c => invalid p cvec.select_cond_type_not_i32
    (sel_select_cond_type_not_i32 c))) as Hcond.
  rewrite (bind_done _ _ _ _ _ (try_pop_st f fs (S p))). cbv zeta. rewrite Hcond. clear Hcond.
  rewrite (apop_tail f i32) by counts.
  destruct (operand_mismatch (popped seg) i32); simpl; [by eexists |].
  pose proof (select_values_refines (upd f poly (tail seg)) fs p (S p)
    (fun a b => invalid p cvec.select_type_mismatch (sel_select_type_mismatch a b))
    ltac:(done) ltac:(destruct seg; counts)) as H.
  refine (eq_rect _ (refines p _) H _ _). simpl.
  destruct (apop_any poly (tail seg)) as [[o2 seg2] |]; [| done]. simpl.
  destruct (apop_any poly seg2) as [[o1 seg1] |]; [| done]. simpl. by destruct (join o1 o2).
Qed.

(** ** Variable instructions *)

Lemma local_get_refines p :
  refines p (case_local_get env (st p (f :: fs)))
    ('(x, q) ← get_index (code env) (S p); run_plain q (ILocalGet x)).
Proof.
  unfold case_local_get. run. apply refines_read_index; [apply env_bytes |]. intros x q _ Hx.
  spec. apply refines_lookup; [by apply env_local | done].
Qed.

Lemma local_set_refines p :
  refines p (case_local_set env (st p (f :: fs)))
    ('(x, q) ← get_index (code env) (S p); run_plain q (ILocalSet x)).
Proof.
  unfold case_local_set. run. apply refines_read_index; [apply env_bytes |]. intros x q _ Hx.
  spec. apply refines_lookup; [by apply env_local |]. intros t _. spec.
  by apply refines_pop1_last.
Qed.

Lemma local_tee_refines p :
  refines p (case_local_tee env (st p (f :: fs)))
    ('(x, q) ← get_index (code env) (S p); run_plain q (ILocalTee x)).
Proof.
  unfold case_local_tee. run. apply refines_read_index; [apply env_bytes |]. intros x q _ Hx.
  spec. apply refines_lookup; [by apply env_local |]. intros t _. spec. run. rewrite count_st.
  destruct f as [r bt pl sg]; simpl. destruct sg as [| o sg]; simpl.
  - destruct pl; simpl; [done | by eexists].
  - rewrite sm_bind_assoc. rewrite (bind_done _ _ _ _ _ (try_peek_st (AFrame r bt pl (o :: sg)) fs q)). simpl.
    rewrite conc_accepts. destruct (accepts o t); [done | by eexists].
Qed.

Lemma global_get_refines p :
  refines p (case_global_get env (st p (f :: fs)))
    ('(x, q) ← get_index (code env) (S p); run_plain q (IGlobalGet x)).
Proof.
  unfold case_global_get. run. apply refines_read_index; [apply env_bytes |]. intros x q _ Hx.
  spec. apply refines_lookup; [by apply env_global | done].
Qed.

Lemma global_set_refines p :
  refines p (case_global_set env (st p (f :: fs)))
    ('(x, q) ← get_index (code env) (S p); run_plain q (IGlobalSet x)).
Proof.
  unfold case_global_set. run. apply refines_read_index; [apply env_bytes |]. intros x q _ Hx.
  spec. apply refines_lookup; [by apply env_global |]. intros g _. spec.
  destruct (is_mutable g); simpl; [spec | by eexists].
  by apply refines_pop1_last.
Qed.
End Cases.
