(* ===== verification/RefineControl.v ===== *)
(** * The control cases and the steps implement the abstract machine *)

From stdpp Require Import base list numbers strings.
From Stdlib Require Import ZArith Lia.
From S2P Require Import Prelude Leb128 WasmTypes ValidationError ValidatorState ValidatorControl ValidatorPlain Validator.
From S2P Require Import WasmSpec Fetch Checker Machine Refines RefineCases.

(** ** Labels *)

Lemma get_sig_label g : get_sig g = (length (label_types g), head (label_types g)).
Proof. unfold get_sig, label_types. by case_bool_decide. Qed.

Lemma refines_target {B} p q C fs x (k : block_t -> M B) K :
  (forall g lt, label_types g = lt -> tc_labels (ctx_of C fs) !! x = Some lt ->
     refines p (k g (st q fs)) (K lt)) ->
  refines p ((target_frame_of p (Z.of_nat x) ≫= k) (st q fs)) (tc_labels (ctx_of C fs) !! x ≫= K).
Proof.
  intros Hk. unfold target_frame_of. rewrite sm_bind_assoc. run. unfold zlen. simpl in *.
  rewrite sm_bind_assoc, length_cs_of, Nat2Z.id. rewrite list_lookup_fmap in *.
  pose proof (cs_of_label fs x) as Hl.
  destruct (Z.leb_spec (Z.of_nat (length fs)) (Z.of_nat x)).
  - rewrite (lookup_ge_None_2 fs x) by lia. by eexists.
  - destruct (lookup_lt_is_Some_2 (cs_of fs) x) as [g Hg]; [rewrite length_cs_of; lia |].
    destruct (lookup_lt_is_Some_2 fs x) as [h Hh]; [lia |].
    rewrite Hg, Hh in *. simpl in *. injection Hl as Hl. by apply Hk.
Qed.

Section Control.
Context (env : venv) (C : context) `{!EnvOk env C}.
Context (f : aframe) (fs : list aframe).
Context (Hok : Forall frame_ok (f :: fs)).
Local Abbreviation seg := (af_seg f).
Local Abbreviation poly := (af_poly f).
Local Abbreviation run_plain := (run_plain C f fs).

Lemma label_length x lt :
  tc_labels (ctx_of C (f :: fs)) !! x = Some lt -> (length lt <= 1)%nat.
Proof using Hok.
  intros Hl. unfold ctx_of, tc_labels in Hl. apply list_lookup_fmap_Some in Hl as (g & -> & Hg).
  pose proof (Forall_lookup_1 _ _ _ _ Hok Hg) as [Hlen _]. unfold alabel. case_bool_decide; simpl; lia.
Qed.

Lemma unreachable_refines p :
  refines p (case_unreachable (st p (f :: fs))) (run_plain (S p) IUnreachable).
Proof.
  unfold case_unreachable. run. simpl. by rewrite (bind_done _ _ _ _ _ (clear_to_st f fs (S p))).
Qed.

Lemma nop_refines p : refines p (case_nop (st p (f :: fs))) (run_plain (S p) INop).
Proof. spec. rewrite upd_same, <- Nat.add_1_r. done. Qed.

(** ** Entering blocks *)

Lemma refines_block_type {B} p q (k : list value_type -> M B) K :
  (q <= length (code env))%nat ->
  (forall rt q', get_blocktype (code env) q = Some (rt, q') ->
     refines p (k rt (st q' (f :: fs))) (K (rt, q'))) ->
  refines p ((read_block_type env p ≫= k) (st q (f :: fs))) (get_blocktype (code env) q ≫= K).
Proof.
  intros Hq Hk. pose proof (read_block_type_st env p q (f :: fs) Hq) as Hr.
  destruct (get_blocktype _ _) as [[rt q'] |]; simpl in *.
  - rewrite (bind_done _ _ _ _ _ Hr). by apply Hk.
  - by apply refines_bind_none.
Qed.

Lemma block_refines p :
  (p < length (code env))%nat ->
  refines p (case_block env (st p (f :: fs)))
    ('(rt, q) ← get_blocktype (code env) (S p);
     fs' ← astep C (TBlock rt) (f :: fs); Some (tt, st q fs')).
Proof. intros Hp. unfold case_block. run. by apply refines_block_type. Qed.

Lemma loop_refines p :
  (p < length (code env))%nat ->
  refines p (case_loop env (st p (f :: fs)))
    ('(rt, q) ← get_blocktype (code env) (S p);
     fs' ← astep C (TLoop rt) (f :: fs); Some (tt, st q fs')).
Proof. intros Hp. unfold case_loop. run. by apply refines_block_type. Qed.

Lemma if_refines p :
  (p < length (code env))%nat ->
  refines p (case_if env (st p (f :: fs)))
    ('(rt, q) ← get_blocktype (code env) (S p);
     fs' ← astep C (TIf rt) (f :: fs); Some (tt, st q fs')).
Proof.
  intros Hp. unfold case_if. run. apply refines_block_type; [lia |]. intros rt q _.
  spec. by apply refines_pop1.
Qed.

(** ** Branches *)

Lemma br_refines p :
  refines p (case_br env (st p (f :: fs)))
    ('(x, q) ← get_index (code env) (S p); run_plain q (IBr x)).
Proof.
  unfold case_br. run. apply refines_read_index; [apply env_bytes |]. intros x q _ Hx.
  spec. apply (refines_target p q C (f :: fs)). intros g lt -> Hlt. spec.
  apply refines_underflow_apops; [by rewrite length_rev |]. intros Hn.
  apply refines_consume; [done | done |]. intros seg' _.
  by rewrite enter_unreachable_st.
Qed.

Lemma return_refines p :
  frames_shape (tc_return C) (f :: fs) ->
  refines p (case_return (st p (f :: fs))) (run_plain (S p) IReturn).
Proof.
  intros Hs. unfold case_return. run.
  destruct (cs_of_last _ _ Hs) as (g & Hg & Hr).
  change (control_flow_stack (st (S p) (f :: fs))) with (cs_of (f :: fs)).
  rewrite Hg, bind_some, Hr. spec.
  apply refines_underflow_apops; [by rewrite length_rev |]. intros Hn.
  apply refines_consume; [done | done |]. intros seg' _.
  by rewrite enter_unreachable_st.
Qed.

Lemma apop_apops_short t ts seg1 :
  poly = false -> (length seg < S (length ts))%nat ->
  apop poly t seg = Some seg1 -> apops poly ts seg1 = None.
Proof.
  intros -> Hl Hp. pose proof (apops_short (t :: ts) seg Hl) as Hs. simpl in Hs. by rewrite Hp in Hs.
Qed.

(** The operands of a taken or fallen-through [br_if], for the one result a label
    can have. *)
Lemma br_if_operands_refines p q g lt :
  frame_ok g -> (length lt <= 1)%nat ->
  af_poly g = true \/ (length lt <= length (af_seg g))%nat ->
  refines p
    ((if (length lt =? 0)%nat then mret tt
      else
        n ← sm_gets concrete_operand_count;
        let concrete_to_check := min_count n (length lt) in
        check_operand_types (br_mismatch p "br_if") lt 0 concrete_to_check;;
        poly ← sm_gets is_polymorphic;
        if poly : bool then
          pop_available_concrete_operands concrete_to_check;;
          t ← sm_unchecked (lt !! 0%nat);
          push_operand (Some t)
        else mret tt) (st q (g :: fs)))
    (seg2 ← apops (af_poly g) (rev lt) (af_seg g);
     Some (tt, st q (upd g (af_poly g) (known (rev lt) ++ seg2) :: fs))).
Proof.
  intros [_ Hk] Hl Hn. destruct lt as [| t [| ]]; simpl in Hl; [simpl; by rewrite upd_same | | lia].
  simpl (_ =? _)%nat. cbv iota. run. rewrite count_st. cbv zeta.
  pose proof (check_operand_types_st g fs p q (br_mismatch p "br_if") [t] ltac:(done)) as Hc.
  rewrite apops_all_accept. simpl (length _) in *. simpl (rev _) in *.
  destruct (all_accept [t] (af_seg g)) eqn:Ha; simpl in Hc.
  - rewrite (bind_done _ _ _ _ _ Hc). run. destruct g as [r bt pl sg]. simpl in *.
    destruct pl.
    + simpl. rewrite (bind_done _ _ _ _ _ (pop_available_st (AFrame r bt true sg) fs q _)). simpl.
      by destruct sg.
    + destruct Hn as [| Hn]; [done |]. destruct (Hk eq_refl) as [| o sg [t' ->] Hk']; simpl in *; [lia |].
      rewrite andb_true_r, bool_decide_eq_true in Ha. by subst t'.
  - destruct Hc as (e & Hc & He). rewrite (bind_thrown _ _ _ _ Hc).
    destruct (negb _ && _); by exists e.
Qed.

Lemma frame_ok_pop t seg1 : apop poly t seg = Some seg1 -> frame_ok (upd f poly seg1).
Proof using Hok.
  intros Hp. apply Forall_cons in Hok as [[Hl Hk] _]. split; [done |]. simpl. eauto using apop_known.
Qed.

Lemma br_if_refines p :
  refines p (case_br_if env (st p (f :: fs)))
    ('(x, q) ← get_index (code env) (S p); run_plain q (IBrIf x)).
Proof using EnvOk0 Hok.
  unfold case_br_if. run. apply refines_read_index; [apply env_bytes |]. intros x q _ Hx.
  spec. apply (refines_target p q C (f :: fs)). intros g lt -> Hlt.
  apply label_length in Hlt. simpl. rewrite option_bind_assoc.
  apply refines_underflow_succ.
  { unfold size_t_max. lia. }
  { intros Hp Hl. destruct (apop poly i32 seg) as [seg1 |] eqn:Hs1; [| done]. simpl.
    by rewrite (apop_apops_short i32 (rev lt) seg1 Hp) by (done || rewrite length_rev; lia). }
  intros Hn. apply refines_pop; [counts | done |]. intros seg1 Hs1. simpl. rewrite option_bind_assoc.
  apply (br_if_operands_refines p q (upd f poly seg1)); [by eapply frame_ok_pop | done | counts].
Qed.

(** ** Calls *)

Lemma apply_callee_refines p q name ft g :
  af_poly g = true \/ (length (parameter ft) <= length (af_seg g))%nat ->
  refines p (apply_callee p name ft (st q (g :: fs)))
    (seg1 ← apops (af_poly g) (rev (parameter ft)) (af_seg g);
     Some (tt, st q (upd g (af_poly g) (known (rev (result ft)) ++ seg1) :: fs))).
Proof.
  intros Hn. apply refines_consume; [done | done |]. intros seg1 _. simpl.
  by rewrite push_results_st.
Qed.

Lemma call_refines p :
  refines p (case_call env (st p (f :: fs)))
    ('(x, q) ← get_index (code env) (S p); run_plain q (ICall x)).
Proof.
  unfold case_call. run. apply refines_read_index; [apply env_bytes |]. intros x q _ Hx.
  spec. rewrite env_func_count, Nat2Z.id.
  destruct (tc_funcs C !! x) as [ft |] eqn:Hft; simpl.
  - pose proof (lookup_lt_Some _ _ _ Hft). rewrite (proj2 (Z.leb_gt _ _)) by lia. simpl. run.
    rewrite (bind_done _ _ _ _ _ (env_callee x ft (st q (f :: fs)) Hft)). rewrite option_bind_assoc.
    apply refines_underflow_apops; [by rewrite length_rev |]. intros Hn.
    by apply apply_callee_refines.
  - apply lookup_ge_None in Hft. rewrite (proj2 (Z.leb_le _ _)) by lia. by eexists.
Qed.

Lemma call_indirect_refines p :
  (p < length (code env))%nat ->
  refines p (case_call_indirect env (st p (f :: fs)))
    ('(x, q) ← get_index (code env) (S p); q' ← get_zero (code env) q; run_plain q' (ICallIndirect x)).
Proof.
  intros Hp. unfold case_call_indirect. run.
  apply refines_read_index; [apply env_bytes |]. intros x q Hq Hx. run. unfold code_end. simpl.
  assert (Hlt : (q <= length (code env))%nat).
  { apply (get_index_iff _ env_bytes) in Hq as (bs & _ & Hs & ->). apply sub_length in Hs; lia. }
  destruct (get_zero_cases env q Hlt) as [[-> ->] | (b & Hne & -> & ->)].
  { rewrite Nat.eqb_refl. by eexists. }
  rewrite (proj2 (Nat.eqb_neq _ _)) by done. rewrite sm_bind_assoc, bind_some.
  destruct (b =? 0); simpl; [| by eexists]. rewrite bind_ret, bind_advance, env_types, env_tables, Nat2Z.id.
  spec. destruct (tc_types C !! x) as [ft |] eqn:Hft; simpl.
  - pose proof (lookup_lt_Some _ _ _ Hft). rewrite (proj2 (Z.leb_gt _ _)) by lia. simpl. run.
    destruct (tc_tables C =? 0)%nat; simpl; [by eexists |]. run. rewrite bind_some, option_bind_assoc.
    apply refines_underflow_succ.
    { apply (Forall_lookup_1 _ _ _ _ env_params Hft). }
    { intros Hpl Hl. destruct (apop poly i32 seg) as [seg1 |] eqn:Hs1; [| done]. simpl.
      by rewrite (apop_apops_short i32 (rev (parameter ft)) seg1 Hpl) by (done || rewrite length_rev; lia). }
    intros Hn. apply refines_pop; [counts | done |]. intros seg1 Hs1. simpl. rewrite option_bind_assoc.
    apply (apply_callee_refines p (S q) "call_indirect" ft (upd f poly seg1)). counts.
  - apply lookup_ge_None in Hft. rewrite (proj2 (Z.leb_le _ _)) by lia. by eexists.
Qed.

(** ** Leaving blocks *)

Lemma check_results_spec res :
  check_results poly res seg =
  negb (result_count_mismatch (st 0 (f :: fs)) (length seg) (length res)) && all_accept (rev res) seg.
Proof.
  unfold check_results, result_count_mismatch. rewrite apops_all_accept, length_rev. simpl.
  destruct (all_accept (rev res) seg); [| by destruct poly, (_ <? _)%nat, (_ <? _)%nat, (_ =? _)%nat].
  rewrite andb_true_r.
  destruct (Nat.ltb_spec (length seg) (length res)), (Nat.ltb_spec (length res) (length seg)),
    (Nat.eqb_spec (length seg) (length res)); try lia; destruct poly; simpl; try done;
    destruct (drop (length res) seg) eqn:Hd; apply (f_equal length) in Hd;
    rewrite length_drop in Hd; simpl in Hd; done || lia.
Qed.

Lemma refines_results {B} p q res e mm (k : unit -> M B) o :
  reports p e -> (forall t a, reports p (mm t a)) ->
  refines p (k tt (st q (f :: fs))) o ->
  refines p
    ((sm_when (result_count_mismatch (st q (f :: fs)) (length seg) (length res)) (sm_throw e);;
      check_operand_types mm res 0
        (if (length seg <? length res)%nat then length seg else length res) ≫= k) (st q (f :: fs)))
    (if check_results poly res seg then o else None).
Proof.
  intros He Hmm Hk. rewrite check_results_spec.
  change (result_count_mismatch (st q (f :: fs))) with (result_count_mismatch (st 0 (f :: fs))).
  destruct (result_count_mismatch _ _ _); simpl; [by exists e |]. run.
  pose proof (check_operand_types_st f fs p q mm res Hmm) as Hc. unfold min_count in Hc.
  destruct (all_accept (rev res) seg); simpl in *.
  - by rewrite (bind_done _ _ _ _ _ Hc).
  - destruct Hc as (e' & Hc & He'). exists e'. by rewrite (bind_thrown _ _ _ _ Hc).
Qed.

Lemma actual_count_st :
  (length ((conc <$> seg) ++ os_of fs) - length (os_of fs))%nat = length seg.
Proof. rewrite length_app, length_fmap. lia. Qed.

Lemma else_refines p :
  refines p (case_else (st p (f :: fs)))
    (fs' ← astep C TElse (f :: fs); Some (tt, st (S p) fs')).
Proof.
  unfold case_else. run. simpl. rewrite actual_count_st.
  case_bool_decide as Ht; simpl; [| by eexists].
  rewrite option_bind_guard', if_negb. apply refines_results; [done | done |]. simpl.
  by rewrite (bind_done _ _ _ _ _ (clear_to_st f fs (S p))).
Qed.

(** The result of [end]: the loop goes on in the outer frame, or the function
    returns if the body ends here. *)
Definition after_end (q : nat) (fs' : list aframe) : option (flow * vstate) :=
  match fs' with
  | [] =>
      if (q =? length (code env))%nat
      then Some (Return, VState q [] (conc <$> known (rev (af_res f))) false) else None
  | _ => Some (Continue, st q fs')
  end.

Lemma missing_else_test :
  (bool_decide (af_type f = block_type.if_) && negb (length (af_res f) =? 0)%nat) =
  (bool_decide (af_type f = block_type.if_) && negb (bool_decide (af_res f = []))).
Proof. f_equal. f_equal. by destruct (af_res f). Qed.

Lemma end_refines p res :
  frames_shape res (f :: fs) ->
  refines p (case_end env (st p (f :: fs))) (fs' ← astep C TEnd (f :: fs); after_end (S p) fs').
Proof.
  intros Hs. unfold case_end. run. simpl. rewrite actual_count_st, missing_else_test.
  destruct (bool_decide (af_type f = block_type.if_) && _); simpl; [by eexists |]. run.
  replace ((if negb (check_results poly (af_res f) seg) then None else
      match fs with
      | [] => Some []
      | g :: fs'' => Some (upd g (af_poly g) (known (rev (af_res f)) ++ af_seg g) :: fs'')
      end) ≫= after_end (S p)) with
    (if check_results poly (af_res f) seg then
      match fs with
      | [] => after_end (S p) []
      | g :: fs'' => after_end (S p) (upd g (af_poly g) (known (rev (af_res f)) ++ af_seg g) :: fs'')
      end else None) by (destruct (check_results _ _ _), fs; done).
  apply refines_results; [done | done |].
  rewrite (bind_done _ _ _ _ _ (clear_to_st f fs (S p))).
  rewrite (bind_done _ _ _ _ _ (push_results_st (upd f poly []) fs (S p) _)). simpl.
  rewrite !bind_modify, app_nil_r. unfold code_end. destruct fs as [| g fs'']; simpl in Hs; cbn [after_end cs_of].
  - rewrite bool_decide_true by apply Hs. run. cbn [code_curr set_control_flow_stack set_polymorphic st].
    change (match length (code env) with O => false | S m' => (p =? m')%nat end)
      with (S p =? length (code env))%nat.
    destruct (S p =? length (code env))%nat; simpl; [| by eexists].
    unfold set_control_flow_stack. simpl. by rewrite app_nil_r.
  - rewrite bool_decide_false by apply Hs. unfold st. simpl. by rewrite fmap_app, <- app_assoc.
Qed.
End Control.

(** ** br_table *)

Section Signatures.
(** The labels in scope, each of at most one type. *)
Context (labels : list (list value_type)).
Context (Hlabels : forall l lt, labels !! l = Some lt -> (length lt <= 1)%nat).
Local Abbreviation label_sig := (Z * nat * value_type_obj)%type.

(** The signature bookkeeping of the label loop, on labels already read. *)
Definition sig_step (expected : option label_sig) (l : nat) : option label_sig :=
  lt ← labels !! l;
  match expected with
  | None => Some (Z.of_nat l, length lt, head lt)
  | Some (el, arity, type) =>
      if negb (length lt =? arity)%nat || (negb (arity =? 0)%nat && negb (bool_decide (head lt = type)))
      then None else Some (el, arity, type)
  end.

Fixpoint sigs (expected : option label_sig) (ls : list nat) : option (option label_sig) :=
  match ls with
  | [] => Some expected
  | l :: ls => sig ← sig_step expected l; sigs (Some sig) ls
  end.

(** Two labels of at most one type have the same signature iff they are equal. *)
Lemma sig_step_eq el lt l :
  (length lt <= 1)%nat ->
  sig_step (Some (el, length lt, head lt)) l =
  if bool_decide (labels !! l = Some lt) then Some (el, length lt, head lt) else None.
Proof using Hlabels.
  intros Hlt. unfold sig_step. destruct (labels !! l) as [lt' |] eqn:Hl; simpl; [| done].
  apply Hlabels in Hl.
  destruct lt as [| t [| ]], lt' as [| t' [| ]]; simpl in *; try lia;
    repeat case_bool_decide; simpl; try done; naive_solver.
Qed.

Lemma sigs_eq el lt ls :
  (length lt <= 1)%nat ->
  sigs (Some (el, length lt, head lt)) ls =
  if forallb (fun l => bool_decide (labels !! l = Some lt)) ls
  then Some (Some (el, length lt, head lt)) else None.
Proof using Hlabels.
  intros Hlt. induction ls as [| l ls IH]; simpl; [done |].
  rewrite sig_step_eq by done. case_bool_decide; simpl; [apply IH | done].
Qed.

(** The signature found is the one of the common label type, if there is one. *)
Lemma sigs_common ls ld :
  match (lt ← labels !! ld;
         if forallb (fun l => bool_decide (labels !! l = Some lt)) ls then Some lt else None) with
  | Some lt =>
      (length lt <= 1)%nat /\ exists el, (e ← sigs None ls; sig_step e ld) = Some (el, length lt, head lt)
  | None => (e ← sigs None ls; sig_step e ld) = None
  end.
Proof using Hlabels.
  destruct ls as [| l ls]; simpl.
  { unfold sig_step. destruct (labels !! ld) as [lt |] eqn:Hl; simpl; [| done].
    apply Hlabels in Hl. eauto. }
  assert (Hstep : sig_step None l = lt ← labels !! l; Some (Z.of_nat l, length lt, head lt)) by done.
  rewrite Hstep. clear Hstep. destruct (labels !! l) as [lt0 |] eqn:Hl; simpl.
  2: by destruct (labels !! ld).
  pose proof (Hlabels _ _ Hl) as Hlen. rewrite sigs_eq by done.
  destruct (decide (labels !! ld = Some lt0)) as [Hd | Hd].
  - rewrite Hd. simpl. rewrite bool_decide_true by done. simpl.
    destruct (forallb _ ls); [| done]. split; [done |]. exists (Z.of_nat l).
    simpl. rewrite sig_step_eq by done. by rewrite bool_decide_true.
  - assert (Hn : (e ← (if forallb (fun l => bool_decide (labels !! l = Some lt0)) ls
      then Some (Some (Z.of_nat l, length lt0, head lt0)) else None); sig_step e ld) = None).
    { destruct (forallb _ ls); [| done]. simpl. rewrite sig_step_eq by done.
      by rewrite bool_decide_false. }
    rewrite Hn. destruct (labels !! ld) as [lt1 |]; [| done]. simpl.
    rewrite bool_decide_false by congruence. done.
Qed.
End Signatures.

Section Table.
Context (env : venv) (C : context) `{!EnvOk env C}.
Context (f : aframe) (fs : list aframe).
Context (Hok : Forall frame_ok (f :: fs)).
Local Abbreviation labels := (tc_labels (ctx_of C (f :: fs))).

Lemma br_table_label_st p q expected :
  refines p (br_table_label env p expected (st q (f :: fs)))
    ('(x, q') ← get_index (code env) q; sig ← sig_step labels expected x; Some (sig, st q' (f :: fs))).
Proof using EnvOk0.
  unfold br_table_label. apply refines_read_index; [apply env_bytes |]. intros x q' _ Hx.
  unfold sig_step. rewrite option_bind_assoc.
  apply (refines_target p q' C (f :: fs)). intros g lt <- _. rewrite get_sig_label. simpl.
  destruct expected as [[[el arity] type] |]; [| done].
  destruct (negb _ || _); [by eexists | done].
Qed.

Lemma br_table_targets_st p n q expected :
  refines p (br_table_targets env p n expected (st q (f :: fs)))
    ('(ls, q') ← get_indices (code env) n q; sig ← sigs labels expected ls; Some (sig, st q' (f :: fs))).
Proof using EnvOk0.
  revert q expected. induction n as [| n IH]; intros q expected; cbn [br_table_targets get_indices]; [done |].
  pose proof (br_table_label_st p q expected) as Hl.
  destruct (get_index (code env) q) as [[x q1] |]; cbn [mbind option_bind] in *.
  2:{ by apply refines_bind_none. }
  destruct (sig_step labels expected x) as [sig |] eqn:Hsig; cbn [mbind option_bind] in *.
  - rewrite (bind_done _ _ _ _ _ Hl). specialize (IH q1 (Some sig)).
    destruct (get_indices (code env) n q1) as [[ls q2] |]; [| done].
    cbn [mbind option_bind sigs] in *. by rewrite Hsig.
  - assert (Hr : forall o : option (list nat * nat),
      ('(ls, q') ← ('(xs, q') ← o; Some (x :: xs, q'));
       sig ← sigs labels expected ls; Some (sig, st q' (f :: fs))) = None).
    { intros [[ls q2] |]; [| done]. cbn [mbind option_bind sigs]. by rewrite Hsig. }
    rewrite Hr. by apply refines_bind_none.
Qed.

(** All labels of a [br_table], the default one last. *)
Lemma refines_table_labels {B} p q n (k : Z * nat * value_type_obj -> M B) K :
  (forall ls ld lt el q2, (length lt <= 1)%nat ->
     table_labels (ctx_of C (f :: fs)) ls ld = Some lt ->
     refines p (k (el, length lt, head lt) (st q2 (f :: fs))) (K ls ld q2)) ->
  (forall ls ld q2, table_labels (ctx_of C (f :: fs)) ls ld = None -> K ls ld q2 = None) ->
  refines p ((targets ← br_table_targets env p n None; sig ← br_table_label env p targets; k sig)
               (st q (f :: fs)))
    ('(ls, q1) ← get_indices (code env) n q; '(ld, q2) ← get_index (code env) q1; K ls ld q2).
Proof using EnvOk0 Hok.
  intros Hk Hnone. pose proof (br_table_targets_st p n q None) as Ht.
  destruct (get_indices (code env) n q) as [[ls q1] |]; cbn [mbind option_bind] in *.
  2:{ by apply refines_bind_none. }
  destruct (sigs labels None ls) as [targets |] eqn:Hs; cbn [mbind option_bind] in *.
  2:{ destruct Ht as (e & Ht & He). rewrite (bind_thrown _ _ _ _ Ht).
      destruct (get_index (code env) q1) as [[ld q2] |]; cbn [mbind option_bind]; [| by exists e].
      rewrite Hnone; [by exists e |].
      pose proof (sigs_common labels (label_length C f fs Hok) ls ld) as Hc. rewrite Hs in Hc.
      unfold table_labels. destruct (labels !! ld ≫= _); [by destruct Hc as [_ [? Hc]] | done]. }
  rewrite (bind_done _ _ _ _ _ Ht). pose proof (br_table_label_st p q1 targets) as Hl.
  destruct (get_index (code env) q1) as [[ld q2] |]; cbn [mbind option_bind] in *.
  2:{ by apply refines_bind_none. }
  pose proof (sigs_common labels (label_length C f fs Hok) ls ld) as Hc. rewrite Hs in Hc.
  cbn [mbind option_bind] in Hc.
  destruct (table_labels (ctx_of C (f :: fs)) ls ld) as [lt |] eqn:Htl; unfold table_labels in Htl;
    rewrite Htl in Hc.
  - destruct Hc as (Hlen & el & Hc). rewrite Hc in Hl. cbn [mbind option_bind] in Hl.
    rewrite (bind_done _ _ _ _ _ Hl). by eapply Hk.
  - rewrite Hc in Hl. rewrite Hnone by done. by apply refines_bind_none.
Qed.

Lemma br_table_operands_refines p q g lt :
  (length lt <= 1)%nat -> af_poly g = true \/ (length lt <= length (af_seg g))%nat ->
  refines p
    ((n ← sm_gets concrete_operand_count;
      br_table_check p (head lt) 0 (min_count n (length lt));;
      pop_available_concrete_operands (length lt);;
      enter_unreachable) (st q (g :: fs)))
    (_ ← apops_exact (af_poly g) (rev lt) (af_seg g); Some (tt, st q (upd g true [] :: fs))).
Proof.
  intros Hl Hn. run. rewrite count_st.
  assert (Hpop : forall n, (pop_available_concrete_operands n;; enter_unreachable) (st q (g :: fs)) =
    Done (tt, st q (upd g true [] :: fs))).
  { intros n. rewrite (bind_done _ _ _ _ _ (pop_available_st g fs q n)).
    by rewrite enter_unreachable_st. }
  destruct lt as [| t [| ]]; simpl in Hl; [| | lia].
  - destruct (length (af_seg g)); apply Hpop.
  - destruct g as [r bt pl [| o sg]]; simpl in Hn; cbn [af_seg af_poly length rev app apops_exact head].
    + destruct Hn as [-> | Hn]; [apply Hpop | lia].
    + change (min_count (S (length sg)) 1) with 1%nat. cbn [br_table_check]. rewrite sm_bind_assoc, bind_get. cbv beta.
      cbn [st operand_stack os_of af_seg fmap list_fmap app lookup list_lookup].
      rewrite sm_bind_assoc, bind_some. cbv beta. rewrite sm_bind_assoc.
      replace (bool_decide (otype (conc o) = Some t)) with (bool_decide (o = Some t))
        by (destruct o; apply bool_decide_ext; naive_solver).
      case_bool_decide as Ho; [rewrite decide_True by done | rewrite decide_False by done; by eexists].
      apply (Hpop 1%nat).
Qed.

Lemma br_table_refines p :
  (p < length (code env))%nat ->
  refines p (case_br_table env (st p (f :: fs)))
    ('(n, q) ← get_index (code env) (S p);
     '(ls, q1) ← get_indices (code env) n q;
     '(ld, q2) ← get_index (code env) q1;
     run_plain C f fs q2 (IBrTable ls ld)).
Proof using EnvOk0 Hok.
  intros Hp. unfold case_br_table. run.
  apply refines_read_index; [apply env_bytes |]. intros n q Hn Hn32. run.
  apply get_index_progress in Hn as [Hn1 Hn2]; [| apply env_bytes | lia].
  pose proof (env_length (env := env) (C := C)) as Hlen. unfold zlen in Hlen.
  unfold remaining_bytes, code_end, uz, wrap, size_t_max. simpl (code_curr _).
  rewrite Z.mod_small by lia. rewrite (proj2 (Z.eqb_neq (Z.of_nat n) (2 ^ 64 - 1))) by lia.
  rewrite orb_false_l. rewrite Nat2Z.id.
  destruct (_ || _) eqn:Hguard.
  { rewrite orb_true_iff, Z.eqb_eq, Z.leb_le in Hguard.
    destruct (get_indices (code env) n q) as [[ls q1] |] eqn:Hls; simpl; [| by eexists].
    apply get_indices_progress in Hls; [| apply env_bytes | lia].
    destruct (get_index (code env) q1) as [[ld q2] |] eqn:Hld; simpl; [| by eexists].
    apply get_index_progress in Hld; [lia | apply env_bytes | lia]. }
  clear Hguard. cbn [sm_when]. rewrite bind_ret.
  apply (refines_table_labels p q n).
  - intros ls ld lt el q2 Hl Htl. unfold run_plain. cbn [check_plain]. rewrite Htl.
    cbn [mbind option_bind]. rewrite option_bind_assoc.
    apply refines_underflow_succ; [unfold size_t_max; lia | |].
    { intros Hpl Hs. destruct (apop (af_poly f) i32 (af_seg f)) as [seg1 |] eqn:Hs1; [| done]. simpl.
      pose proof (apop_apops_short f i32 (rev lt) seg1 Hpl ltac:(rewrite length_rev; lia) Hs1) as Hsh.
      destruct (apops_exact _ _ _) eqn:Hex; [| done]. apply apops_exact_apops in Hex. congruence. }
    intros Hcount. apply refines_pop; [counts | done |]. intros seg1 Hs1. simpl. rewrite option_bind_assoc.
    apply (br_table_operands_refines p q2 (upd f (af_poly f) seg1)); [done | counts].
  - intros ls ld q2 Htl. unfold run_plain. cbn [check_plain]. by rewrite Htl.
Qed.
End Table.

(** ** Bytes that are no opcode *)

Definition no_instruction (b : Z) : bool :=
  forallb (fun n => negb (b =? n))
    [0; 1; 2; 3; 4; 5; 11; 12; 13; 14; 15; 16; 17; 26; 27; 32; 33; 34; 35; 36; 63; 64; 65; 66; 67; 68] &&
  bool_decide (load_type b = None) && bool_decide (store_type b = None) &&
  bool_decide (numeric_type b = None).

Lemma no_instruction_fetch code b p : no_instruction b = true -> fetch_op code b p = None.
Proof.
  unfold no_instruction. rewrite !andb_true_iff, !bool_decide_eq_true. intros [[[Hf Hl] Hs] Hn].
  unfold fetch_op. rewrite Hl, Hs, Hn. simpl in Hf. rewrite !andb_true_iff, !negb_true_iff in Hf.
  destruct_and!. repeat match goal with H : (b =? ?n) = false |- _ => rewrite H; clear H end. done.
Qed.

Lemma of_byte_none b :
  is_byte b -> wasm1_code.of_byte b = None -> no_instruction b = true.
Proof.
  intros Hb Hn.
  pose proof (proj1 (forallb_forall (fun n => match wasm1_code.of_byte (Z.of_nat n) with
    | Some _ => true | None => no_instruction (Z.of_nat n) end) (List.seq 0 256))
    ltac:(vm_compute; reflexivity) (Z.to_nat b)) as Hall.
  unfold is_byte in Hb. cbv beta in Hall. rewrite Z2Nat.id, Hn in Hall by lia. apply Hall, in_seq. lia.
Qed.

Section Step.
Context (env : venv) (C : context) `{!EnvOk env C}.
Context (f : aframe) (fs : list aframe).
Context (Hok : frames_ok (tc_return C) (f :: fs)).

(** The machine on the instruction at [p]. *)
Definition machine_step (b : Z) (p : nat) : option (flow * vstate) :=
  '(tok, q) ← fetch_op (code env) b (S p);
  fs' ← astep C tok (f :: fs);
  after_end env f q fs'.

(** A case that never returns from the loop. *)
Definition fin (o : option (unit * vstate)) : option (flow * vstate) :=
  r ← o; Some (Continue, r.2).

Lemma refines_continue p (m : M unit) s o o' :
  refines p (m s) o -> fin o = o' -> refines p (continue m s) o'.
Proof.
  intros Hm <-. unfold continue. apply refines_bind; [done |]. by intros [] s' ->.
Qed.

Lemma fin_astep_plain q e :
  fin (run_plain C f fs q e) = fs' ← astep C (TPlain e) (f :: fs); after_end env f q fs'.
Proof. unfold run_plain. simpl. by destruct (check_plain _ _ _ _) as [[] |]. Qed.

Lemma astep_nonempty tok g gs fs' : tok <> TEnd -> astep C tok (g :: gs) = Some fs' -> fs' <> [].
Proof.
  intros Ht H. destruct tok; simpl in H; option_inv; done.
Qed.

Lemma fin_astep q tok :
  tok <> TEnd ->
  fin (fs' ← astep C tok (f :: fs); Some (tt, st q fs')) =
  fs' ← astep C tok (f :: fs); after_end env f q fs'.
Proof.
  intros Ht. destruct (astep C tok (f :: fs)) as [fs' |] eqn:Ha; [| done].
  apply astep_nonempty in Ha; [| done]. by destruct fs'.
Qed.

(** Reassociating the reads of a case with those of [fetch]. *)
Lemma fin_bind {X} (o : option X) (Y : X -> option (unit * vstate)) (T : X -> option (token * nat)) :
  (forall x, fin (Y x) = '(tok, q) ← T x; fs' ← astep C tok (f :: fs); after_end env f q fs') ->
  fin (o ≫= Y) = '(tok, q) ← (o ≫= T); fs' ← astep C tok (f :: fs); after_end env f q fs'.
Proof. intros H. destruct o as [x |]; [apply H | done]. Qed.

Ltac imm := repeat (apply fin_bind; intros; repeat match goal with x : _ * _ |- _ => destruct x end);
  (apply fin_astep_plain || by apply fin_astep).

Lemma fin_memarg mk q :
  fin ('(a, q1) ← get_leb (code env) 32 false q;
       '(o, q2) ← get_leb (code env) 32 false q1; run_plain C f fs q2 (mk a o)) =
  '(tok, q) ← with_memarg (code env) mk q; fs' ← astep C tok (f :: fs); after_end env f q fs'.
Proof. unfold with_memarg. imm. Qed.

(** The same for an opcode whose immediates [fetch_op] reads itself. *)
Ltac imm_op := unfold machine_step, fetch_op; cbn [Z.eqb Pos.eqb wasm1_code.opcode]; imm.

Lemma family_step op m p :
  switch_families env op = Some m ->
  refines p (continue m (st p (f :: fs))) (machine_step (wasm1_code.opcode op) p).
Proof using EnvOk0.
  destruct op; intros Hm; simpl in Hm; try discriminate Hm; injection Hm as <-.
  all: lazymatch goal with
    | |- refines _ (continue (validate_numeric_unary _ _ _) _) (machine_step (wasm1_code.opcode ?o) _) =>
        eapply refines_continue; 
          [by apply (numeric_unary_refines C f fs p _ _ _ (wasm1_code.opcode o)) | apply fin_astep_plain]
    | |- refines _ (continue (validate_numeric_binary _ _ _) _) (machine_step (wasm1_code.opcode ?o) _) =>
        eapply refines_continue;
          [by apply (numeric_binary_refines C f fs p _ _ _ (wasm1_code.opcode o)) | apply fin_astep_plain]
    | |- refines _ (continue (validate_mem_load _ _ _ _) _) (machine_step (wasm1_code.opcode ?o) _) =>
        eapply refines_continue;
          [by eapply (mem_load_refines env C f fs p _ _ _ _ (wasm1_code.opcode o)) | apply fin_memarg]
    | |- refines _ (continue (validate_mem_store _ _ _ _) _) (machine_step (wasm1_code.opcode ?o) _) =>
        eapply refines_continue;
          [by eapply (mem_store_refines env C f fs p _ _ _ _ (wasm1_code.opcode o)) | apply fin_memarg]
    end.
Qed.

Lemma fin_index mk q :
  fin ('(x, q1) ← get_index (code env) q; run_plain C f fs q1 (mk x)) =
  '(tok, q) ← with_index (code env) mk q; fs' ← astep C tok (f :: fs); after_end env f q fs'.
Proof. unfold with_index. imm. Qed.

Lemma fin_block mk q :
  (forall rt, mk rt <> TEnd) ->
  fin ('(rt, q1) ← get_blocktype (code env) q; fs' ← astep C (mk rt) (f :: fs); Some (tt, st q1 fs')) =
  '(tok, q) ← with_block (code env) mk q; fs' ← astep C tok (f :: fs); after_end env f q fs'.
Proof. intros Hmk. unfold with_block. apply fin_bind. intros [rt q1]. by apply fin_astep. Qed.

(** The whole [switch]. *)
Lemma switch_refines op p :
  (p < length (code env))%nat ->
  refines p (switch_opbase env op (st p (f :: fs))) (machine_step (wasm1_code.opcode op) p).
Proof using EnvOk0 Hok.
  intros Hp. destruct Hok as [Hshape Hframes].
  destruct (switch_families env op) as [m |] eqn:Hfam.
  { replace (switch_opbase env op) with (continue m); [by apply family_step |].
    destruct op; simpl in Hfam; try discriminate Hfam; injection Hfam as <-; reflexivity. }
  destruct op; simpl in Hfam; try discriminate Hfam; clear Hfam.
  - eapply refines_continue; [by apply unreachable_refines | apply fin_astep_plain].
  - eapply refines_continue; [by apply nop_refines | apply fin_astep_plain].
  - eapply refines_continue; [by apply block_refines | by apply (fin_block TBlock)].
  - eapply refines_continue; [by apply loop_refines | by apply (fin_block TLoop)].
  - eapply refines_continue; [by apply if_refines | by apply (fin_block TIf)].
  - eapply refines_continue; [by apply (else_refines C) | by apply (fin_astep _ TElse)].
  - by eapply end_refines.
  - eapply refines_continue; [by apply br_refines | apply (fin_index IBr)].
  - eapply refines_continue; [by apply br_if_refines | apply (fin_index IBrIf)].
  - eapply refines_continue; [by apply br_table_refines |]. imm_op.
  - eapply refines_continue; [by apply return_refines | apply fin_astep_plain].
  - eapply refines_continue; [by apply call_refines | apply (fin_index ICall)].
  - eapply refines_continue; [by apply call_indirect_refines |]. imm_op.
  - eapply refines_continue; [by apply drop_refines | apply fin_astep_plain].
  - eapply refines_continue; [by apply select_refines | apply fin_astep_plain].
  - eapply refines_continue; [by apply local_get_refines | apply (fin_index ILocalGet)].
  - eapply refines_continue; [by apply local_set_refines | apply (fin_index ILocalSet)].
  - eapply refines_continue; [by apply local_tee_refines | apply (fin_index ILocalTee)].
  - eapply refines_continue; [by apply global_get_refines | apply (fin_index IGlobalGet)].
  - eapply refines_continue; [by apply global_set_refines | apply (fin_index IGlobalSet)].
  - eapply refines_continue; [by apply memory_size_refines |]. imm_op.
  - eapply refines_continue; [by apply memory_grow_refines |]. imm_op.
  - eapply refines_continue; [by apply i32_const_refines |]. imm_op.
  - eapply refines_continue; [by apply i64_const_refines |]. imm_op.
  - eapply refines_continue; [by apply f32_const_refines |]. imm_op.
  - eapply refines_continue; [by apply f64_const_refines |]. imm_op.
Qed.

Lemma validate_step_refines p :
  (p <= length (code env))%nat ->
  refines p (validate_step env (st p (f :: fs)))
    ('(tok, q) ← fetch (code env) p; fs' ← astep C tok (f :: fs); after_end env f q fs').
Proof using EnvOk0 Hok.
  intros Hp. unfold validate_step, fetch, code_end. run. cbn [st code_curr].
  destruct (Nat.eqb_spec p (length (code env))) as [-> | Hne].
  - rewrite (lookup_ge_None_2 (code env)) by lia. by eexists.
  - destruct (lookup_lt_is_Some_2 (code env) p) as [b Hb]; [lia |]. rewrite Hb, bind_some.
    cbn [mbind option_bind].
    destruct (wasm1_code.of_byte b) as [op |] eqn:Hop.
    + apply wasm1_code.of_byte_Some in Hop as ->. apply switch_refines. lia.
    + assert (Hbyte : is_byte b) by by eapply (Forall_lookup_1 is_byte); [apply env_bytes | done].
      rewrite (no_instruction_fetch _ b) by by apply of_byte_none. by eexists.
Qed.
End Step.
