(* ===== verification/ModuleInterface.v ===== *)
(** * What the validator assumes of a parsed module

    The checks the section parsers make before the code validator runs, as one
    decidable predicate, and the proof that under it the lookups [validate_code]
    makes in the module agree with the typing context of the function. *)

From stdpp Require Import base list numbers strings.
From Stdlib Require Import ZArith Lia.
From S2P Require Import Prelude Leb128 WasmTypes ValidationError ValidatorState ValidatorControl.
From S2P Require Import ValidatorPlain WasmSpec Fetch Checker Machine Refines RefineCases.

Definition sum_counts (ls : list local_entry) : Z := foldr (fun e n => count e + n) 0 ls.

Definition type_ok (ft : function_type) : bool :=
  (length (result ft) <=? 1)%nat && (zlen (parameter ft) <? 2 ^ 32).

(** A function and its code: its locals, with the parameters, number less than 2^32. *)
Definition code_ok (m : module_storage) (f : Z * list local_entry) : bool :=
  forallb (fun e => 0 <=? count e) f.2 &&
  match types m !! Z.to_nat f.1 with
  | Some ft => zlen (parameter ft) + sum_counts f.2 <? 2 ^ 32
  | None => false
  end.

Definition module_ok (m : module_storage) : bool :=
  forallb type_ok (types m) &&
  forallb (fun i => (0 <=? i) && (i <? zlen (types m))) (funcs m) &&
  (length (codes m) =? length (funcs m))%nat &&
  forallb (code_ok m) (zip (funcs m) (codes m)) &&
  (zlen (imported_globals m) + zlen (local_globals m) <? 2 ^ 32) &&
  (Z.of_nat (imported_tables m + tables m) <? 2 ^ 32) &&
  (Z.of_nat (imported_memories m + memories m) <? 2 ^ 32).

Class ModuleOk (m : module_storage) : Prop := module_is_ok : module_ok m = true.

Section Facts.
Context (m : module_storage) `{!ModuleOk m}.

Lemma module_ok_facts :
  Forall (fun ft => type_ok ft = true) (types m) /\
  Forall (fun i => 0 <= i < zlen (types m)) (funcs m) /\
  length (codes m) = length (funcs m) /\
  Forall (fun f => code_ok m f = true) (zip (funcs m) (codes m)) /\
  zlen (imported_globals m) + zlen (local_globals m) < 2 ^ 32 /\
  Z.of_nat (imported_tables m + tables m) < 2 ^ 32 /\
  Z.of_nat (imported_memories m + memories m) < 2 ^ 32.
Proof using ModuleOk0.
  pose proof module_is_ok as H. unfold module_ok in H.
  rewrite !andb_true_iff, !Z.ltb_lt, Nat.eqb_eq, !forallb_Forall in H.
  destruct_and!. split_and!; try done.
  eapply Forall_impl; [done |]. intros i Hi. simpl in Hi. lia.
Qed.

Lemma type_ok_facts i ft :
  types m !! i = Some ft -> (length (result ft) <= 1)%nat /\ zlen (parameter ft) < 2 ^ 32.
Proof using ModuleOk0.
  destruct module_ok_facts as (Ht & _). intros Hi.
  pose proof (Forall_lookup_1 _ _ _ _ Ht Hi) as Hok. unfold type_ok in Hok.
  rewrite andb_true_iff, Nat.leb_le, Z.ltb_lt in Hok. done.
Qed.

Lemma code_ok_facts i ti ft ls :
  funcs m !! i = Some ti -> types m !! Z.to_nat ti = Some ft -> codes m !! i = Some ls ->
  Forall (fun e => 0 <= count e) ls /\ zlen (parameter ft) + sum_counts ls < 2 ^ 32.
Proof using ModuleOk0.
  destruct module_ok_facts as (_ & _ & _ & Hc & _). intros Hf Ht Hl.
  assert (Hz : zip (funcs m) (codes m) !! i = Some (ti, ls)).
  { apply lookup_zip_with_Some. eauto. }
  pose proof (Forall_lookup_1 _ _ _ _ Hc Hz) as Hok. unfold code_ok in Hok. simpl in Hok.
  rewrite Ht, andb_true_iff, Z.ltb_lt, forallb_Forall in Hok. destruct Hok as [Hn Hs].
  split; [| done]. eapply Forall_impl; [done |]. intros e He. simpl in He. lia.
Qed.

Lemma funcs_total : Forall (fun i => is_Some (types m !! Z.to_nat i)) (funcs m).
Proof using ModuleOk0.
  destruct module_ok_facts as (_ & Hf & _). eapply Forall_impl; [done |]. intros i Hi.
  unfold zlen in Hi. simpl in Hi. apply lookup_lt_is_Some_2. lia.
Qed.
End Facts.

(** ** Locals *)

Lemma sum_counts_nonneg ls : Forall (fun e => 0 <= count e) ls -> 0 <= sum_counts ls.
Proof. induction 1; simpl; lia. Qed.

Lemma sum_locals_sum n ls :
  Forall (fun e => 0 <= count e) ls -> 0 <= n -> n + sum_counts ls < 2 ^ 32 ->
  sum_locals n ls = n + sum_counts ls.
Proof.
  unfold sum_locals. intros Hls. revert n. induction Hls as [| e ls He Hls IH]; intros n Hn Hs; simpl in *.
  - lia.
  - pose proof (sum_counts_nonneg ls Hls).
    assert (u32 (n + count e) = n + count e) as -> by (unfold u32, wrap; apply Z.mod_small; lia).
    rewrite IH by lia. lia.
Qed.

Lemma expand_locals_cons e ls :
  expand_locals (e :: ls) = replicate (Z.to_nat (count e)) (local_type e) ++ expand_locals ls.
Proof. done. Qed.

Lemma length_expand_locals ls :
  Forall (fun e => 0 <= count e) ls -> zlen (expand_locals ls) = sum_counts ls.
Proof.
  unfold zlen. induction 1 as [| e ls He Hls IH]; [done |].
  rewrite expand_locals_cons. simpl. rewrite length_app, length_replicate, Nat2Z.inj_add, IH. lia.
Qed.

(** The scan over the runs finds the type at that position of the expanded list. *)
Lemma find_local_lookup k ls :
  Forall (fun e => 0 <= count e) ls -> 0 <= k < 2 ^ 32 ->
  find_local k ls = expand_locals ls !! Z.to_nat k.
Proof.
  intros Hls. revert k. induction Hls as [| e ls He Hls IH]; intros k Hk; [done |].
  rewrite expand_locals_cons. simpl. destruct (Z.ltb_spec k (count e)).
  - rewrite lookup_app_l by (rewrite length_replicate; lia).
    symmetry. apply lookup_replicate_2. lia.
  - rewrite lookup_app_r, length_replicate by (rewrite length_replicate; lia).
    assert (u32 (k - count e) = k - count e) as -> by (unfold u32, wrap; apply Z.mod_small; lia).
    rewrite IH by lia. f_equal. lia.
Qed.

(** ** The environment of a function of the module *)

Section Env.
Context (m : module_storage) `{!ModuleOk m}.
Context (function_index : nat) (code : list Z) (env : venv).
Context (Henv : validate_prologue m function_index code = Done env).
Context (Hbytes : Forall is_byte code) (Hlen : zlen code < 2 ^ 64).

Local Abbreviation ft := (curr_func_type env).
Local Abbreviation locals := (curr_code_locals env).
Local Abbreviation C := (func_context m ft locals).

(** What the prologue computed. *)
Lemma prologue_facts :
  ValidatorState.code env = code /\ modl env = m /\
  import_func_count env = length (imported_funcs m) /\ local_func_count env = length (funcs m) /\
  func_parameter_count_u32 env = u32 (zlen (parameter ft)) /\
  all_local_count env = sum_locals (u32 (zlen (parameter ft))) locals /\
  imported_global_count env = u32 (zlen (imported_globals m)) /\
  all_global_count env = u32 (u32 (zlen (imported_globals m)) + u32 (zlen (local_globals m))) /\
  all_table_count env = u32 (u32 (Z.of_nat (imported_tables m)) + u32 (Z.of_nat (tables m))) /\
  all_memory_count env = u32 (u32 (Z.of_nat (imported_memories m)) + u32 (Z.of_nat (memories m))).
Proof using Henv.
  revert Henv. unfold validate_prologue. repeat case_match; intros; simplify_eq. done.
Qed.

Lemma prologue_lookups : exists i ti,
  funcs m !! i = Some ti /\ types m !! Z.to_nat ti = Some ft /\ codes m !! i = Some locals /\
  function_index = (length (imported_funcs m) + i)%nat.
Proof using Henv.
  revert Henv. unfold validate_prologue. repeat case_match; intros; simplify_eq. simpl.
  do 2 eexists. split_and!; [done .. |]. rewrite Nat.ltb_nlt in *. lia.
Qed.

Lemma locals_facts :
  (length (result ft) <= 1)%nat /\ zlen (parameter ft) < 2 ^ 32 /\
  Forall (fun e => 0 <= count e) locals /\
  func_parameter_count_u32 env = zlen (parameter ft) /\
  all_local_count env = zlen (tc_locals C) /\ zlen (tc_locals C) < 2 ^ 32.
Proof using Henv ModuleOk0.
  destruct prologue_lookups as (i & ti & Hf & Ht & Hc & _).
  destruct (type_ok_facts m _ _ Ht) as [Hr Hp]. destruct (code_ok_facts m _ _ _ _ Hf Ht Hc) as [Hn Hs].
  destruct prologue_facts as (_ & _ & _ & _ & Hpc & Hlc & _).
  pose proof (sum_counts_nonneg _ Hn) as Hpos.
  assert (Hw : u32 (zlen (parameter ft)) = zlen (parameter ft)).
  { unfold u32, wrap. apply Z.mod_small. unfold zlen in *. lia. }
  assert (Htl : zlen (tc_locals C) = zlen (parameter ft) + sum_counts locals).
  { simpl. unfold zlen in *. rewrite length_app, Nat2Z.inj_add. f_equal.
    by apply length_expand_locals. }
  rewrite Hw in *. split_and!; try done.
  - rewrite Hlc, Htl. apply sum_locals_sum; [done | unfold zlen; lia | done].
  - by rewrite Htl.
Qed.

Lemma local_type_of_lookup p0 x s :
  Z.of_nat x < 2 ^ 32 ->
  refines p0 (local_type_of env p0 (Z.of_nat x) s) (t ← tc_locals C !! x; Some (t, s)).
Proof using Henv ModuleOk0.
  intros Hx. destruct locals_facts as (_ & Hp & Hn & Hpc & Hlc & Hl). unfold local_type_of.
  rewrite Hlc, Hpc. unfold zlen in *.
  destruct (Z.leb_spec (Z.of_nat (length (tc_locals C))) (Z.of_nat x)).
  { rewrite (lookup_ge_None_2 (tc_locals C)) by lia. by eexists. }
  cbn [sm_when]. rewrite bind_ret. unfold tc_locals, func_context.
  destruct (Z.ltb_spec (Z.of_nat x) (Z.of_nat (length (parameter ft)))).
  - rewrite lookup_app_l, Nat2Z.id by lia.
    destruct (lookup_lt_is_Some_2 (parameter ft) x) as [t Ht]; [lia |]. by rewrite Ht.
  - assert (u32 (Z.of_nat x - Z.of_nat (length (parameter ft))) =
            Z.of_nat x - Z.of_nat (length (parameter ft))) as ->
      by (unfold u32, wrap; apply Z.mod_small; lia).
    rewrite find_local_lookup by (done || lia). rewrite lookup_app_r by lia.
    replace (Z.to_nat (Z.of_nat x - Z.of_nat (length (parameter ft)))) with
      (x - length (parameter ft))%nat by lia.
    destruct (expand_locals _ !! _); [done | by eexists].
Qed.

Lemma global_of_lookup p0 x s :
  Z.of_nat x < 2 ^ 32 ->
  refines p0 (global_of env p0 (Z.of_nat x) s) (g ← tc_globals C !! x; Some (g, s)).
Proof using Henv ModuleOk0.
  intros Hx. destruct prologue_facts as (_ & Hm & _ & _ & _ & _ & Hig & Hag & _).
  destruct (module_ok_facts m) as (_ & _ & _ & _ & Hg & _).
  unfold global_of. rewrite Hm, Hig, Hag. unfold u32, wrap, zlen in *.
  rewrite (Z.mod_small (Z.of_nat (length (imported_globals m)))) by lia.
  rewrite (Z.mod_small (Z.of_nat (length (local_globals m)))) by lia.
  rewrite (Z.mod_small (Z.of_nat (length (imported_globals m)) + Z.of_nat (length (local_globals m)))) by lia. unfold tc_globals, func_context.
  destruct (Z.leb_spec (Z.of_nat (length (imported_globals m)) + Z.of_nat (length (local_globals m))) (Z.of_nat x)).
  { rewrite (lookup_ge_None_2 (imported_globals m ++ local_globals m)) by (rewrite length_app; lia). by eexists. }
  cbn [sm_when]. rewrite bind_ret.
  destruct (Z.ltb_spec (Z.of_nat x) (Z.of_nat (length (imported_globals m)))).
  - rewrite lookup_app_l, Nat2Z.id by lia.
    destruct (lookup_lt_is_Some_2 (imported_globals m) x) as [g Hgl]; [lia |]. by rewrite Hgl.
  - rewrite Z.mod_small, lookup_app_r by lia.
    replace (Z.to_nat (Z.of_nat x - Z.of_nat (length (imported_globals m)))) with
      (x - length (imported_globals m))%nat by lia.
    destruct (lookup_lt_is_Some_2 (local_globals m) (x - length (imported_globals m))) as [g Hgl]; [lia |].
    by rewrite Hgl.
Qed.

Lemma callee_type_of_lookup x gt s : tc_funcs C !! x = Some gt -> callee_type_of env x s = Done (gt, s).
Proof using Henv ModuleOk0.
  destruct prologue_facts as (_ & Hm & Hic & _). unfold callee_type_of. rewrite Hm, Hic.
  unfold tc_funcs, func_context, func_types. intros Hl.
  destruct (Nat.ltb_spec x (length (imported_funcs m))).
  - rewrite lookup_app_l in Hl by lia. by rewrite Hl.
  - rewrite lookup_app_r in Hl by lia. rewrite lookup_omap_total in Hl by apply (funcs_total m).
    apply bind_Some in Hl as (ti & Hti & Ht). rewrite Hti, bind_some. by rewrite Ht.
Qed.

#[export] Instance prologue_env_ok : EnvOk env C.
Proof using Henv ModuleOk0 Hbytes Hlen.
  destruct prologue_facts as (Hcode & Hm & Hic & Hlc & _ & _ & _ & _ & Hat & Ham).
  destruct (module_ok_facts m) as (_ & _ & _ & _ & _ & Htab & Hmem).
  constructor.
  - by rewrite Hcode.
  - by rewrite Hcode.
  - apply local_type_of_lookup.
  - apply global_of_lookup.
  - rewrite Hic, Hlc. simpl. unfold func_types. rewrite length_app.
    by rewrite (length_omap_total _ _ (funcs_total m)).
  - apply callee_type_of_lookup.
  - by rewrite Hm.
  - simpl. apply Forall_lookup. intros i gt Hi. apply (type_ok_facts m) in Hi as [_ Hi].
    unfold size_t_max. lia.
  - rewrite Hat. simpl. unfold u32, wrap.
    rewrite (Z.mod_small (Z.of_nat (imported_tables m))) by lia.
    rewrite (Z.mod_small (Z.of_nat (tables m))) by lia. rewrite Z.mod_small by lia.
    destruct (Z.leb_spec (Z.of_nat (imported_tables m) + Z.of_nat (tables m)) 0),
      (Nat.eqb_spec (imported_tables m + tables m) 0); lia.
  - rewrite Ham. simpl. unfold u32, wrap.
    rewrite (Z.mod_small (Z.of_nat (imported_memories m))) by lia.
    rewrite (Z.mod_small (Z.of_nat (memories m))) by lia. rewrite Z.mod_small by lia.
    destruct (Z.eqb_spec (Z.of_nat (imported_memories m) + Z.of_nat (memories m)) 0),
      (Nat.eqb_spec (imported_memories m + memories m) 0); lia.
Qed.
End Env.
