(* ===== verification/MachineTyping.v ===== *)
(** * The abstract machine decides the typing of function bodies

    Runs of the machine over a byte string, and their correspondence with the
    declarative typing of the instruction sequence the bytes encode. *)

From stdpp Require Import base list numbers strings relations.
From Stdlib Require Import ZArith Lia.
From S2P Require Import Prelude Leb128 WasmTypes ValidationError ValidatorState ValidatorControl.
From S2P Require Import WasmSpec Fetch Checker Machine.

Scheme instr_bytes_mut := Minimality for instr_bytes Sort Prop
with instrs_bytes_mut := Minimality for instrs_bytes Sort Prop.
Combined Scheme instr_instrs_bytes_ind from instr_bytes_mut, instrs_bytes_mut.

(** ** Instructions that occur in a body *)

Definition is_select (e : instr) : bool := match e with ISelect => true | _ => false end.
Definition is_br_table (e : instr) : bool := match e with IBrTable _ _ => true | _ => false end.

Fixpoint occurs (P : instr -> bool) (e : instr) : bool :=
  P e ||
  match e with
  | IBlock _ es | ILoop _ es => existsb (occurs P) es
  | IIf _ es1 es2 => existsb (occurs P) es1 || existsb (occurs P) es2
  | _ => false
  end.

Definition occurs_in (P : instr -> bool) (es : list instr) : bool := existsb (occurs P) es.

Section Runs.
Context (code : list Z) (C : context).

(** One step, between positions and frame stacks. *)
Inductive mstep : nat * list aframe -> nat * list aframe -> Prop :=
| mstep_intro p q tok fs fs' :
    fetch code p = Some (tok, q) -> astep C tok fs = Some fs' -> mstep (p, fs) (q, fs').

(** The machine consumes the rest of the code and closes the function frame with
    its last byte. *)
Definition maccepts (p : nat) (fs : list aframe) : Prop :=
  rtc mstep (p, fs) (length code, []).

Lemma mstep_det s s1 s2 : mstep s s1 -> mstep s s2 -> s1 = s2.
Proof. inversion 1; subst. inversion 1; subst. by simplify_eq. Qed.

Lemma mstep_nil p s : ~ mstep (p, []) s.
Proof. inversion 1; subst. done. Qed.

Lemma maccepts_inv p fs :
  fs <> [] -> maccepts p fs ->
  exists tok q fs', fetch code p = Some (tok, q) /\ astep C tok fs = Some fs' /\ maccepts q fs'.
Proof.
  unfold maccepts. intros Hfs H. inversion H as [| ? [q fs'] ? Hs Hr]; subst; [done |].
  inversion Hs; subst. eauto 10.
Qed.

Lemma maccepts_nil p : maccepts p [] -> p = length code.
Proof. unfold maccepts. inversion 1 as [| ? ? ? Hs]; subst; [done |]. by apply mstep_nil in Hs. Qed.

Lemma maccepts_step p q tok fs fs' :
  fetch code p = Some (tok, q) -> astep C tok fs = Some fs' -> maccepts q fs' -> maccepts p fs.
Proof. intros. eapply rtc_l; [by econstructor | done]. Qed.

Lemma check_results_matches poly res seg :
  check_results poly res seg = true <-> matches poly seg (rev res).
Proof.
  unfold check_results. split.
  - destruct (apops poly (rev res) seg) as [[|] |] eqn:Ha; try done. intros _.
    rewrite <- (app_nil_r (rev res)). eapply apops_sound; [done | by constructor].
  - intros Hm. rewrite <- (app_nil_r (rev res)) in Hm.
    apply apops_complete in Hm as (seg' & Ha & Hm). rewrite Ha. by inversion Hm.
Qed.

(** ** Soundness *)

(** An instruction sequence has been read from [p] in frame [f], up to a delimiter. *)
Definition read_sequence (p : nat) (f : aframe) (fs : list aframe) : Prop :=
  exists es bs poly seg q tok q',
    instrs_bytes es bs /\ sub code p bs /\ q = (p + length bs)%nat /\
    fetch code q = Some (tok, q') /\ (tok = TElse \/ tok = TEnd) /\
    maccepts q (upd f poly seg :: fs) /\
    (forall ts', matches poly seg ts' ->
       exists ts, matches (af_poly f) (af_seg f) ts /\ instrs_typing (ctx_of C (f :: fs)) es ts ts').

Lemma read_sequence_nil p f fs tok q' :
  fetch code p = Some (tok, q') -> tok = TElse \/ tok = TEnd -> maccepts p (f :: fs) ->
  read_sequence p f fs.
Proof.
  intros Hf Ht Ha. exists [], [], (af_poly f), (af_seg f), p, tok, q'. rewrite upd_same.
  split_and!; [exact B_nil | apply sub_nil | simpl; lia | done | done | done |].
  intros ts' Hm. exists ts'. split; [done | constructor].
Qed.

(** Prefix a sequence with an instruction. *)
Lemma read_sequence_cons p q f fs poly1 seg1 e bs :
  instr_bytes e bs -> sub code p bs -> q = (p + length bs)%nat ->
  read_sequence q (upd f poly1 seg1) fs ->
  (forall ts', matches poly1 seg1 ts' -> exists ts ts1 ts2 ts0,
     matches (af_poly f) (af_seg f) ts /\ ts = ts1 ++ ts0 /\ ts' = ts2 ++ ts0 /\
     instr_typing (ctx_of C (f :: fs)) e ts1 ts2) ->
  read_sequence p f fs.
Proof.
  intros He Hs Hq (es & bs' & poly & seg & q0 & tok & q' & Hes & Hs' & -> & Hf & Ht & Ha & Hty) Hstep.
  exists (e :: es), (bs ++ bs'), poly, seg, (p + length bs + length bs')%nat, tok, q'.
  subst q. split_and!; try done; [by constructor | by apply sub_app | rewrite length_app; lia |].
  intros ts' Hm. destruct (Hty ts' Hm) as (mid & Hmid & Hrest).
  destruct (Hstep mid Hmid) as (ts & ts1 & ts2 & ts0 & Hm' & -> & -> & Hi).
  eexists. split; [done |]. by econstructor.
Qed.

Context (Hcode : Forall is_byte code).

Lemma fetch_end p q : fetch code p = Some (TEnd, q) <-> sub code p [11] /\ q = S p.
Proof using Hcode.
  rewrite fetch_iff by done. split.
  - intros (bs & Ht & Hs & ->). inversion Ht; subst. simpl. split; [done | lia].
  - intros [Hs ->]. exists [11]. split_and!; [constructor | done | simpl; lia].
Qed.

Lemma fetch_else p q : fetch code p = Some (TElse, q) <-> sub code p [5] /\ q = S p.
Proof using Hcode.
  rewrite fetch_iff by done. split.
  - intros (bs & Ht & Hs & ->). inversion Ht; subst. simpl. split; [done | lia].
  - intros [Hs ->]. exists [5]. split_and!; [constructor | done | simpl; lia].
Qed.

(** A sequence, the byte that closes it, and its type. *)
Definition read_closed (b : Z) (p : nat) (g : aframe) (fs : list aframe) (fs' : list aframe) : Prop :=
  exists es bs q,
    instrs_bytes es bs /\ sub code p (bs ++ [b]) /\ q = (p + length bs + 1)%nat /\ maccepts q fs' /\
    (exists ts, matches (af_poly g) (af_seg g) ts /\
                instrs_typing (ctx_of C (g :: fs)) es ts (rev (af_res g))).

(** How a sequence is closed: by [end], or by [else] in the first arm of an [if]. *)
Lemma read_sequence_close p g fs :
  read_sequence p g fs ->
  (read_closed 11 p g fs
     (match fs with
      | [] => []
      | h :: fs' => upd h (af_poly h) (known (rev (af_res g)) ++ af_seg h) :: fs'
      end) /\ (af_type g = block_type.if_ -> af_res g = [])) \/
  (read_closed 5 p g fs (AFrame (af_res g) block_type.else_ false [] :: fs) /\
   af_type g = block_type.if_).
Proof using Hcode.
  intros (es & bs & poly & seg & q & tok & q' & Hes & Hs & -> & Hf & Ht & Ha & Hty).
  apply maccepts_inv in Ha as (tok' & q2 & fs' & Hf' & Hstep & Ha); [| done].
  assert (tok' = tok /\ q2 = q') as [-> ->] by (split; congruence).
  destruct Ht as [-> | ->]; simpl in Hstep; option_inv.
  - right. apply andb_true_iff in Heqb as [Hif Hres]. apply bool_decide_eq_true in Hif.
    apply check_results_matches, Hty in Hres. apply fetch_else in Hf as [Hb ->].
    split; [| done]. exists es, bs, (S (p + length bs))%nat.
    split_and!; [done | by apply sub_app | lia | done | done].
  - left. apply orb_false_iff in Heqb as [Hif Hres]. apply negb_false_iff in Hres.
    apply check_results_matches, Hty in Hres. apply fetch_end in Hf as [Hb ->].
    split.
    + exists es, bs, (S (p + length bs))%nat.
      split_and!; [done | by apply sub_app | lia | | done].
      by destruct fs; simplify_eq.
    + intros Ht. rewrite bool_decide_true in Hif by done. simpl in Hif.
      by apply negb_false_iff, bool_decide_eq_true in Hif.
Qed.

Lemma matches_false_nil ts : matches false [] ts -> ts = [].
Proof. inversion 1; subst; auto. Qed.

(** A block that was entered with no operands. *)
Lemma read_closed_typing b p rt bt fs fs' :
  read_closed b p (AFrame rt bt false []) fs fs' ->
  exists es bs q, instrs_bytes es bs /\ sub code p (bs ++ [b]) /\ q = (p + length bs + 1)%nat /\
    maccepts q fs' /\ instrs_typing (ctx_of C (AFrame rt bt false [] :: fs)) es [] (rev rt).
Proof.
  intros (es & bs & q & Hes & Hs & Hq & Ha & ts & Hm & Hty). apply matches_false_nil in Hm as ->.
  exists es, bs, q. done.
Qed.

Lemma frame_after f rt ts' :
  matches (af_poly f) (known (rev rt) ++ af_seg f) ts' ->
  exists ts0, matches (af_poly f) (af_seg f) ts0 /\ ts' = rev rt ++ ts0.
Proof. intros (ts0 & -> & Hm)%matches_known. eauto. Qed.

(** A block or a loop followed by the rest of its sequence. *)
Lemma read_sequence_block p f fs op b rt bt (mk : list instr -> instr) :
  (forall es bs, instrs_bytes es bs -> instr_bytes (mk es) (op :: b :: bs ++ [11])) ->
  (forall es, instrs_typing (ctx_of C (AFrame rt bt false [] :: f :: fs)) es [] (rev rt) ->
     instr_typing (ctx_of C (f :: fs)) (mk es) [] (rev rt)) ->
  bt <> block_type.if_ ->
  sub code p [op; b] ->
  (forall p' g gs, (p + 2 <= p')%nat -> maccepts p' (g :: gs) -> read_sequence p' g gs) ->
  maccepts (p + 2)%nat (AFrame rt bt false [] :: f :: fs) ->
  read_sequence p f fs.
Proof using Hcode.
  intros Hmk Hty Hbt Hop Hrec Ha. apply Hrec in Ha; [| lia].
  apply read_sequence_close in Ha as [[Hc _] | [_ Hif]]; [| done].
  apply read_closed_typing in Hc as (es & bs & q & Hes & Hs & -> & Ha & Hes').
  eapply (read_sequence_cons _ _ _ _ _ _ (mk es)).
  - by apply Hmk.
  - change (op :: b :: bs ++ [11]) with ([op; b] ++ (bs ++ [11])). by apply sub_app.
  - done.
  - apply Hrec; [simpl; lia |]. simpl. rewrite length_app. simpl.
    replace (p + S (S (length bs + 1)))%nat with (p + 2 + length bs + 1)%nat by lia. exact Ha.
  - intros ts' (ts0 & Hm & ->)%frame_after. exists ts0, [], (rev rt), ts0.
    split_and!; auto.
Qed.

(** An [if], with or without its [else] arm. *)
Lemma read_sequence_if p f fs b rt seg :
  blocktype b = Some rt -> sub code p [4; b] ->
  apop (af_poly f) i32 (af_seg f) = Some seg ->
  (forall p' g gs, (p + 2 <= p')%nat -> maccepts p' (g :: gs) -> read_sequence p' g gs) ->
  maccepts (p + 2)%nat (AFrame rt block_type.if_ false [] :: upd f (af_poly f) seg :: fs) ->
  read_sequence p f fs.
Proof using Hcode.
  intros Hb Hop Hseg Hrec Ha. apply Hrec in Ha; [| lia].
  assert (Hafter : forall ts', matches (af_poly f) (known (rev rt) ++ seg) ts' -> exists ts ts0,
    matches (af_poly f) (af_seg f) ts /\ ts = [i32] ++ ts0 /\ ts' = rev rt ++ ts0).
  { intros ts' (ts0 & Hm & ->)%(frame_after (upd f (af_poly f) seg)). exists (i32 :: ts0), ts0.
    split_and!; [by eapply apop_sound | done | done]. }
  apply read_sequence_close in Ha as [[Hc Hres] | [Hc _]].
  - specialize (Hres eq_refl). simpl in Hres. subst rt.
    apply read_closed_typing in Hc as (es & bs & q & Hes & Hs & -> & Ha & Hty).
    eapply (read_sequence_cons _ _ _ _ _ _ (IIf [] es [])).
    + by eapply B_if.
    + change (4 :: b :: bs ++ [11]) with ([4; b] ++ (bs ++ [11])). by apply sub_app.
    + done.
    + apply Hrec; [simpl; lia |]. simpl. rewrite length_app. simpl.
      replace (p + S (S (length bs + 1)))%nat with (p + 2 + length bs + 1)%nat by lia. exact Ha.
    + intros ts' (ts & ts0 & Hm & -> & ->)%Hafter. exists ([i32] ++ ts0), [i32], [], ts0.
      split_and!; [done .. |]. constructor; [exact Hty | constructor].
  - apply read_closed_typing in Hc as (es1 & bs1 & q & Hes1 & Hs1 & -> & Ha & Hty1).
    apply Hrec in Ha; [| lia].
    apply read_sequence_close in Ha as [[Hc _] | [_ Hif]]; [| done].
    apply read_closed_typing in Hc as (es2 & bs2 & q & Hes2 & Hs2 & -> & Ha & Hty2).
    eapply (read_sequence_cons _ _ _ _ _ _ (IIf rt es1 es2)).
    + by eapply B_if_else.
    + change (4 :: b :: bs1 ++ 5 :: bs2 ++ [11]) with ([4; b] ++ (bs1 ++ ([5] ++ (bs2 ++ [11])))).
      rewrite (app_assoc bs1). apply sub_app. split; [done |]. apply sub_app.
      split; [done |]. rewrite length_app. simpl.
      by replace (p + 2 + (length bs1 + 1))%nat with (p + 2 + length bs1 + 1)%nat by lia.
    + done.
    + apply Hrec; [simpl; lia |]. simpl. rewrite length_app. simpl. rewrite length_app. simpl.
      replace (p + S (S (length bs1 + S (length bs2 + 1))))%nat with
        (p + 2 + length bs1 + 1 + length bs2 + 1)%nat by lia. exact Ha.
    + intros ts' (ts & ts0 & Hm & -> & ->)%Hafter. exists ([i32] ++ ts0), [i32], (rev rt), ts0.
      split_and!; [done .. |]. by constructor.
Qed.

(** From an accepting state, the rest of the innermost sequence can be read. *)
Lemma maccepts_read_sequence p f fs : maccepts p (f :: fs) -> read_sequence p f fs.
Proof using Hcode.
  remember (length code - p)%nat as n eqn:Hn. revert p f fs Hn.
  induction n as [n IH] using lt_wf_ind. intros p f fs -> Ha.
  pose proof Ha as (tok & q & fs' & Hf & Hstep & Ha')%maccepts_inv; [| done].
  pose proof (fetch_progress _ Hcode _ _ _ Hf) as Hpq.
  assert (Hrec : forall p' g gs, (q <= p')%nat -> maccepts p' (g :: gs) -> read_sequence p' g gs).
  { intros p' g gs Hp' Hg. eapply (IH (length code - p')%nat); [lia | done | done]. }
  clear IH. apply fetch_iff in Hf as Hbytes; [| done]. destruct Hbytes as (bs & Ht & Hs & Hq).
  destruct tok.
  - simpl in Hstep. option_inv. inversion Ht; subst.
    eapply read_sequence_cons; [by constructor | done | done | by apply Hrec |].
    intros ts' Hm. destruct (check_plain_sound _ _ _ _ _ _ _ H Hm) as (ts & Hm' & ts1 & ts2 & ts0 & Hty & -> & ->).
    exists (ts1 ++ ts0), ts1, ts2, ts0. split_and!; [done .. | by constructor].
  - simpl in Hstep. simplify_eq. inversion Ht as [| t ? Hb | | | |]; subst.
    eapply (read_sequence_block p f fs 2 t rt block_type.block (IBlock rt)); eauto.
    + intros. by constructor.
    + intros. by constructor.
  - simpl in Hstep. simplify_eq. inversion Ht as [| | t ? Hb | | |]; subst.
    eapply (read_sequence_block p f fs 3 t rt block_type.loop (ILoop rt)); eauto.
    + intros. by constructor.
    + intros. by constructor.
  - simpl in Hstep. option_inv. inversion Ht as [| | | t ? Hb | |]; subst.
    by eapply read_sequence_if.
  - by eapply read_sequence_nil; [exact Hf | left |].
  - by eapply read_sequence_nil; [exact Hf | right |].
Qed.

(** The whole body. *)
Lemma maccepts_sound res :
  maccepts 0 [AFrame res block_type.function false []] ->
  exists es, expr_bytes es code /\
    instrs_typing (ctx_of C [AFrame res block_type.function false []]) es [] (rev res).
Proof using Hcode.
  intros Ha%maccepts_read_sequence.
  apply read_sequence_close in Ha as [[Hc _] | [_ Hif]]; [| done].
  apply read_closed_typing in Hc as (es & bs & q & Hes & [rest Hr] & -> & Ha & Hty).
  apply maccepts_nil in Ha. exists es. split; [| done]. exists bs. split; [done |].
  rewrite drop_0 in Hr. rewrite Hr. apply (f_equal length) in Hr.
  rewrite !length_app in Hr. simpl in Hr. destruct rest; [by rewrite app_nil_r | simpl in Hr; lia].
Qed.

(** ** Completeness

    For bodies without [br_table] ([no_table = true]), or without [select]: then no
    operand is ever of unknown type. *)

Section Complete.
Context (no_table : bool).
Local Abbreviation excluded := (if no_table then is_br_table else is_select).

Definition seg_ok (seg : list aoperand) : Prop := no_table = false -> all_known seg.

(** The machine runs over the bytes [bs] of code of type [ts1 -> ts2]. *)
Definition runs (bs : list Z) (ty : context -> stack -> stack -> Prop) : Prop :=
  forall p f fs ts1 ts2 ts0,
    sub code p bs -> ty (ctx_of C (f :: fs)) ts1 ts2 ->
    matches (af_poly f) (af_seg f) (ts1 ++ ts0) -> seg_ok (af_seg f) ->
    exists poly seg,
      rtc mstep (p, f :: fs) ((p + length bs)%nat, upd f poly seg :: fs) /\
      matches poly seg (ts2 ++ ts0) /\ seg_ok seg.

Lemma check_plain_known_select C' e poly seg poly' seg' :
  is_select e = false -> all_known seg ->
  check_plain C' e poly seg = Some (poly', seg') -> all_known seg'.
Proof.
  intros Hsel Hk. destruct e; simpl; intros H; option_inv; eauto 6 with machine; try done;
    try (by constructor).
  destruct seg as [| o sg]; simpl in *; [destruct poly'; simplify_eq; by constructor |].
  simplify_eq. simpl. by inversion Hk.
Qed.

Lemma runs_plain e bs :
  plain_bytes e bs -> occurs excluded e = false -> runs bs (fun C' => instr_typing C' e).
Proof using Hcode.
  intros Hb Hex p f fs ts1 ts2 ts0 Hs Hty Hm Hk.
  assert (Hplain : plain_typing (ctx_of C (f :: fs)) e ts1 ts2).
  { inversion Hty; subst; [done | inversion Hb ..]. }
  destruct (check_plain_complete (ctx_of C (f :: fs)) e (ts1 ++ ts0) (ts2 ++ ts0) (af_poly f) (af_seg f))
    as (poly & seg & Hc & Hm'); [by apply plain_step_intro | done | |].
  { intros ls ld ->. apply Hk. destruct no_table; [| done]. by inversion Hex. }
  exists poly, seg. split_and!; [| done |].
  - apply rtc_once. econstructor.
    + apply fetch_iff; [done |]. exists bs. split_and!; [by constructor | done | done].
    + simpl. by rewrite Hc.
  - intros Hnt. specialize (Hk Hnt). rewrite Hnt in Hex.
    eapply check_plain_known_select; [| done | done].
    by destruct e.
Qed.

Lemma runs_nil : runs [] (fun C' => instrs_typing C' []).
Proof.
  intros p f fs ts1 ts2 ts0 Hs Hty Hm Hk. inversion Hty; subst.
  exists (af_poly f), (af_seg f). rewrite upd_same, Nat.add_0_r. done.
Qed.

Lemma runs_cons e es bs1 bs2 :
  runs bs1 (fun C' => instr_typing C' e) -> runs bs2 (fun C' => instrs_typing C' es) ->
  runs (bs1 ++ bs2) (fun C' => instrs_typing C' (e :: es)).
Proof.
  intros H1 H2 p f fs ts1 ts2 ts0 [Hs1 Hs2]%sub_app Hty Hm Hk.
  inversion Hty as [| ? ? ? us1 us2 us0 us3 He Hes]; subst. rewrite <- app_assoc in Hm.
  destruct (H1 p f fs us1 us2 (us0 ++ ts0) Hs1 He Hm Hk) as (poly1 & seg1 & Hr1 & Hm1 & Hk1).
  rewrite app_assoc in Hm1.
  destruct (H2 (p + length bs1)%nat (upd f poly1 seg1) fs _ _ ts0 Hs2 Hes Hm1 Hk1)
    as (poly2 & seg2 & Hr2 & Hm2 & Hk2).
  exists poly2, seg2. split_and!; [| done | done]. rewrite length_app, Nat.add_assoc.
  etrans; [exact Hr1 | exact Hr2].
Qed.

(** Running an instruction sequence in a fresh frame, up to its delimiter. *)
Lemma runs_frame bs es p g gs :
  runs bs (fun C' => instrs_typing C' es) -> sub code p bs ->
  af_poly g = false -> af_seg g = [] ->
  instrs_typing (ctx_of C (g :: gs)) es [] (rev (af_res g)) ->
  exists poly seg, rtc mstep (p, g :: gs) ((p + length bs)%nat, upd g poly seg :: gs) /\
    check_results poly (af_res g) seg = true.
Proof.
  intros Hrun Hs Hp Hseg Hty.
  destruct (Hrun p g gs [] (rev (af_res g)) [] Hs Hty) as (poly & seg & Hr & Hm & _).
  - rewrite Hp, Hseg. by constructor.
  - rewrite Hseg. intros _. by constructor.
  - exists poly, seg. split; [done |]. rewrite app_nil_r in Hm. by apply check_results_matches.
Qed.

Lemma mstep_end p g h gs poly seg :
  sub code p [11] -> check_results poly (af_res g) seg = true ->
  (af_type g = block_type.if_ -> af_res g = []) ->
  mstep (p, upd g poly seg :: h :: gs)
        (S p, upd h (af_poly h) (known (rev (af_res g)) ++ af_seg h) :: gs).
Proof using Hcode.
  intros Hb Hc Hif. econstructor; [by apply fetch_end |]. simpl. rewrite Hc, orb_false_r.
  case_bool_decide as Ht; simpl; [| done]. rewrite bool_decide_true by auto. done.
Qed.

Lemma after_block_matches f rt ts0 :
  matches (af_poly f) (af_seg f) ts0 -> seg_ok (af_seg f) ->
  matches (af_poly f) (known (rev rt) ++ af_seg f) (rev rt ++ ts0) /\
  seg_ok (known (rev rt) ++ af_seg f).
Proof.
  intros Hm Hk. split; [apply matches_known; eauto |]. intros Hnt. apply all_known_app. auto.
Qed.

(** [block] and [loop]. *)
Lemma runs_block op b rt bt es bs mk tok :
  (forall p, sub code p [op; b] -> fetch code p = Some (tok, (p + 2)%nat)) ->
  (forall fs f, astep C tok (f :: fs) = Some (AFrame rt bt false [] :: f :: fs)) ->
  bt <> block_type.if_ ->
  (forall f fs ts1 ts2, instr_typing (ctx_of C (f :: fs)) mk ts1 ts2 ->
     ts1 = [] /\ ts2 = rev rt /\ instrs_typing (ctx_of C (AFrame rt bt false [] :: f :: fs)) es [] (rev rt)) ->
  runs bs (fun C' => instrs_typing C' es) ->
  runs (op :: b :: bs ++ [11]) (fun C' => instr_typing C' mk).
Proof using Hcode.
  intros Hfetch Hstep Hbt Hinv Hrun p f fs ts1 ts2 ts0 Hs Hty Hm Hk.
  destruct (Hinv _ _ _ _ Hty) as (-> & -> & Hes). clear Hinv Hty.
  change (op :: b :: bs ++ [11]) with ([op; b] ++ (bs ++ [11])) in Hs.
  apply sub_app in Hs as [Hop [Hs Hend]%sub_app]. simpl (length [op; b]) in *.
  destruct (runs_frame bs es (p + 2)%nat (AFrame rt bt false []) (f :: fs) Hrun Hs eq_refl eq_refl Hes)
    as (poly & seg & Hr & Hc).
  destruct (after_block_matches f rt ts0 Hm Hk) as [Hm' Hk'].
  eexists _, _. split_and!; [| exact Hm' | exact Hk'].
  eapply rtc_l; [econstructor; [by apply Hfetch | apply Hstep] |].
  etrans; [exact Hr |]. apply rtc_once. simpl. rewrite length_app. simpl.
  replace (p + S (S (length bs + 1)))%nat with (S (p + 2 + length bs))%nat by lia.
  by apply (mstep_end _ (AFrame rt bt false [])).
Qed.

Lemma fetch_blocktype op b rt mk p :
  (forall b rt, blocktype b = Some rt -> token_bytes (mk rt) [op; b]) -> blocktype b = Some rt ->
  sub code p [op; b] -> fetch code p = Some (mk rt, (p + 2)%nat).
Proof using Hcode.
  intros Hmk Hb Hs. apply fetch_iff; [done |]. exists [op; b]. split_and!; [auto | done | done].
Qed.

(** Entering an [if]. *)
Lemma mstep_if p f fs b rt ts0 :
  blocktype b = Some rt -> sub code p [4; b] ->
  matches (af_poly f) (af_seg f) ([i32] ++ ts0) -> seg_ok (af_seg f) ->
  exists seg, matches (af_poly f) seg ts0 /\ seg_ok seg /\
    mstep (p, f :: fs)
          ((p + 2)%nat, AFrame rt block_type.if_ false [] :: upd f (af_poly f) seg :: fs).
Proof using Hcode.
  intros Hb Hs Hm Hk. apply apop_complete in Hm as (seg & Ha & Hm).
  exists seg. split_and!; [done | |].
  - intros Hnt. by eapply apop_known; [apply Hk |].
  - econstructor; [apply (fetch_blocktype 4 b rt TIf); try done; by constructor |].
    simpl. by rewrite Ha.
Qed.

Lemma runs_if b rt es bs :
  blocktype b = Some rt -> runs bs (fun C' => instrs_typing C' es) ->
  runs (4 :: b :: bs ++ [11]) (fun C' => instr_typing C' (IIf rt es [])).
Proof using Hcode.
  intros Hb Hrun p f fs ts1 ts2 ts0 Hs Hty Hm Hk.
  inversion Hty as [? ? ? ? Hpl | | | ? ? ? ? Hes Hnil]; subst; [inversion Hpl |].
  assert (Hrt : rev rt = []) by by inversion Hnil.
  apply (f_equal (@rev _)) in Hrt. rewrite rev_involutive in Hrt. simpl in Hrt. subst rt.
  change (4 :: b :: bs ++ [11]) with ([4; b] ++ (bs ++ [11])) in Hs.
  apply sub_app in Hs as [Hop [Hs Hend]%sub_app]. simpl (length [4; b]) in *.
  destruct (mstep_if p f fs b [] ts0 Hb Hop Hm Hk) as (seg & Hm1 & Hk1 & Hstep).
  destruct (runs_frame bs es (p + 2)%nat (AFrame [] block_type.if_ false [])
    (upd f (af_poly f) seg :: fs) Hrun Hs eq_refl eq_refl Hes) as (poly' & seg' & Hr & Hc).
  exists (af_poly f), seg. split_and!; [| done | done].
  eapply rtc_l; [exact Hstep |]. etrans; [exact Hr |]. apply rtc_once. simpl. rewrite length_app. simpl.
  replace (p + S (S (length bs + 1)))%nat with (S (p + 2 + length bs))%nat by lia.
  by apply (mstep_end _ (AFrame [] block_type.if_ false []) (upd f (af_poly f) seg)).
Qed.

Lemma mstep_else p g gs poly seg :
  sub code p [5] -> check_results poly (af_res g) seg = true -> af_type g = block_type.if_ ->
  mstep (p, upd g poly seg :: gs) (S p, AFrame (af_res g) block_type.else_ false [] :: gs).
Proof using Hcode.
  intros Hb Hc Hif. econstructor; [by apply fetch_else |]. simpl. rewrite Hc.
  by rewrite bool_decide_true.
Qed.

Lemma runs_if_else b rt es1 es2 bs1 bs2 :
  blocktype b = Some rt ->
  runs bs1 (fun C' => instrs_typing C' es1) -> runs bs2 (fun C' => instrs_typing C' es2) ->
  runs (4 :: b :: bs1 ++ 5 :: bs2 ++ [11]) (fun C' => instr_typing C' (IIf rt es1 es2)).
Proof using Hcode.
  intros Hb Hrun1 Hrun2 p f fs ts1 ts2 ts0 Hs Hty Hm Hk.
  inversion Hty as [? ? ? ? Hpl | | | ? ? ? ? Hes1 Hes2]; subst; [inversion Hpl |].
  change (4 :: b :: bs1 ++ 5 :: bs2 ++ [11]) with ([4; b] ++ (bs1 ++ ([5] ++ (bs2 ++ [11])))) in Hs.
  apply sub_app in Hs as [Hop [Hs1 [Helse [Hs2 Hend]%sub_app]%sub_app]%sub_app].
  simpl (length [_; _]) in *. simpl (length [_]) in *.
  destruct (mstep_if p f fs b rt ts0 Hb Hop Hm Hk) as (seg & Hm1 & Hk1 & Hstep).
  destruct (runs_frame bs1 es1 (p + 2)%nat (AFrame rt block_type.if_ false [])
    (upd f (af_poly f) seg :: fs) Hrun1 Hs1 eq_refl eq_refl Hes1) as (poly1 & seg1 & Hr1 & Hc1).
  destruct (runs_frame bs2 es2 (p + 2 + length bs1 + 1)%nat (AFrame rt block_type.else_ false [])
    (upd f (af_poly f) seg :: fs) Hrun2 Hs2 eq_refl eq_refl Hes2) as (poly2 & seg2 & Hr2 & Hc2).
  destruct (after_block_matches (upd f (af_poly f) seg) rt ts0 Hm1 Hk1) as [Hm' Hk'].
  eexists _, _. split_and!; [| exact Hm' | exact Hk'].
  eapply rtc_l; [exact Hstep |]. etrans; [exact Hr1 |].
  eapply rtc_l; [by apply (mstep_else _ (AFrame rt block_type.if_ false [])) |].
  replace (S (p + 2 + length bs1)) with (p + 2 + length bs1 + 1)%nat by lia.
  etrans; [exact Hr2 |]. apply rtc_once. simpl. rewrite !length_app. simpl. rewrite length_app. simpl.
  replace (p + S (S (length bs1 + S (length bs2 + 1))))%nat
    with (S (p + 2 + length bs1 + 1 + length bs2))%nat by lia.
  by apply (mstep_end _ (AFrame rt block_type.else_ false []) (upd f (af_poly f) seg)).
Qed.

Lemma runs_all :
  (forall e bs, instr_bytes e bs -> occurs excluded e = false -> runs bs (fun C' => instr_typing C' e)) /\
  (forall es bs, instrs_bytes es bs -> occurs_in excluded es = false ->
     runs bs (fun C' => instrs_typing C' es)).
Proof using Hcode.
  assert (Hdeep : forall e, occurs excluded e = false -> match e with
    | IBlock _ es | ILoop _ es => occurs_in excluded es = false
    | IIf _ es1 es2 => occurs_in excluded es1 = false /\ occurs_in excluded es2 = false
    | _ => True end).
  { intros [] H; try done; simpl in H; apply orb_false_iff in H as [_ H]; [done .. |].
    by apply orb_false_iff in H. }
  apply instr_instrs_bytes_ind.
  - intros e bs Hb Hex. by apply runs_plain.
  - intros b rt es bs Hb _ IH Hex. eapply (runs_block 2 b rt block_type.block es bs (IBlock rt es) (TBlock rt)).
    + intros p Hs. eapply (fetch_blocktype 2 b rt TBlock); try done. by constructor.
    + done.
    + done.
    + intros f fs ts1 ts2 Hty. by inversion Hty as [? ? ? ? Hpl | | |]; subst; [inversion Hpl |].
    + by apply IH, (Hdeep _ Hex).
  - intros b rt es bs Hb _ IH Hex. eapply (runs_block 3 b rt block_type.loop es bs (ILoop rt es) (TLoop rt)).
    + intros p Hs. eapply (fetch_blocktype 3 b rt TLoop); try done. by constructor.
    + done.
    + done.
    + intros f fs ts1 ts2 Hty. by inversion Hty as [? ? ? ? Hpl | | |]; subst; [inversion Hpl |].
    + by apply IH, (Hdeep _ Hex).
  - intros b rt es bs Hb _ IH Hex. apply runs_if; [done |]. by apply IH, (Hdeep _ Hex).
  - intros b rt es1 es2 bs1 bs2 Hb _ IH1 _ IH2 Hex. destruct (Hdeep _ Hex) as [H1 H2].
    apply runs_if_else; auto.
  - intros _. apply runs_nil.
  - intros e es bs1 bs2 _ IH1 _ IH2 Hex. simpl in Hex. apply orb_false_iff in Hex as [H1 H2].
    apply runs_cons; auto.
Qed.

Lemma maccepts_complete res es :
  expr_bytes es code -> occurs_in excluded es = false ->
  instrs_typing (ctx_of C [AFrame res block_type.function false []]) es [] (rev res) ->
  maccepts 0 [AFrame res block_type.function false []].
Proof using Hcode.
  intros (bs & Hes & Hc) Hex Hty. pose proof (proj2 runs_all es bs Hes Hex) as Hrun.
  assert (Hs : sub code 0 (bs ++ [11])) by (exists []; by rewrite drop_0, app_nil_r).
  apply sub_app in Hs as [Hs Hend].
  destruct (runs_frame bs es 0 (AFrame res block_type.function false []) [] Hrun Hs eq_refl eq_refl Hty)
    as (poly & seg & Hr & Hres).
  unfold maccepts. etrans; [exact Hr |]. apply rtc_once. econstructor; [apply fetch_end |].
  - split; [done |]. rewrite Hc, length_app. simpl. lia.
  - simpl in *. by rewrite Hres.
Qed.
End Complete.
End Runs.
