(* ===== verification/ValidatorCorrect.v ===== *)
(** * Correctness of the code validator

    [validate_code] against the WebAssembly type system: soundness, completeness on
    the fragment where it holds (and a body outside it where it fails), totality,
    memory safety, and the shape of its errors. *)

From stdpp Require Import base list numbers strings relations.
From Stdlib Require Import ZArith Lia.
From S2P Require Import Prelude Leb128 WasmTypes ValidationError ValidatorState ValidatorControl.
From S2P Require Import ValidatorPlain Validator WasmSpec Fetch Checker Machine Refines.
From S2P Require Import RefineCases RefineControl ModuleInterface MachineTyping.

(** ** The loop against the machine *)

Lemma blocktype_length b rt : blocktype b = Some rt -> (length rt <= 1)%nat.
Proof. unfold blocktype. intros. repeat case_match; simplify_eq; simpl; lia. Qed.

Lemma fetch_block_length code p q tok rt :
  Forall is_byte code -> fetch code p = Some (tok, q) ->
  tok = TBlock rt \/ tok = TLoop rt \/ tok = TIf rt -> (length rt <= 1)%nat.
Proof.
  intros Hb Hf Ht. apply fetch_iff in Hf as (bs & Htok & _); [| done].
  destruct Ht as [-> | [-> | ->]]; inversion Htok; subst; by eapply blocktype_length.
Qed.

Section Loop.
Context (env : venv) (C : context) `{!EnvOk env C}.
Local Abbreviation len := (length (code env)).
Local Abbreviation accepted := (maccepts (code env) C).

(** One step from a reachable state, as a case distinction. *)
Lemma validate_step_cases p fs :
  (p <= len)%nat -> frames_ok (tc_return C) fs ->
  (exists tok q s, fetch (code env) p = Some (tok, q) /\ astep C tok fs = Some [] /\ q = len /\
     validate_step env (st p fs) = Done (Return, s)) \/
  (exists tok q fs', fetch (code env) p = Some (tok, q) /\ (p < q <= len)%nat /\
     astep C tok fs = Some fs' /\ frames_ok (tc_return C) fs' /\
     validate_step env (st p fs) = Done (Continue, st q fs')) \/
  (exists e, validate_step env (st p fs) = Thrown e /\ reports p e /\ ~ accepted p fs).
Proof using EnvOk0.
  intros Hp Hok. destruct fs as [| f fs]; [by destruct Hok |].
  pose proof (validate_step_refines env C f fs Hok p Hp) as Hr.
  assert (Hrej : (forall tok q fs', fetch (code env) p = Some (tok, q) ->
      astep C tok (f :: fs) = Some fs' -> fs' = [] /\ q <> len) -> ~ accepted p (f :: fs)).
  { intros Hno (tok & q & fs' & Hf & Hs & Ha)%maccepts_inv; [| done].
    destruct (Hno _ _ _ Hf Hs) as [-> Hq]. by apply maccepts_nil in Ha. }
  destruct (fetch (code env) p) as [[tok q] |] eqn:Hf; cbn [mbind option_bind] in Hr.
  2:{ right; right. destruct Hr as (e & Hr & He). exists e. split_and!; [done | done |].
      apply Hrej. intros; congruence. }
  pose proof (fetch_progress _ env_bytes _ _ _ Hf) as Hpq.
  destruct (astep C tok (f :: fs)) as [fs' |] eqn:Hs; cbn [mbind option_bind] in Hr.
  2:{ right; right. destruct Hr as (e & Hr & He). exists e. split_and!; [done | done |].
      apply Hrej. intros; congruence. }
  destruct (astep_ok (tc_return C) C tok (f :: fs) fs' Hok) as [-> | Hok']; [| done | |].
  { intros rt. apply (fetch_block_length _ _ _ _ _ env_bytes Hf). }
  - simpl in Hr. destruct (Nat.eqb_spec q len) as [Hq | Hq].
    + left. exists tok, q. eauto.
    + right; right. destruct Hr as (e & Hr & He). exists e. split_and!; [done | done |].
      apply Hrej. intros. by simplify_eq.
  - right; left. exists tok, q, fs'. split_and!; try done; try lia.
    by destruct fs' as [| g fs']; [destruct Hok' |].
Qed.

Lemma validate_loop_cases fuel p fs :
  (p <= len)%nat -> (len - p < fuel)%nat -> frames_ok (tc_return C) fs ->
  (exists s, validate_loop env fuel (st p fs) = Done (tt, s) /\ accepted p fs) \/
  (exists e, validate_loop env fuel (st p fs) = Thrown e /\ (p <= err_curr e <= len)%nat /\
     thrown e <> pc_ok /\ ~ accepted p fs).
Proof using EnvOk0.
  revert p fs. induction fuel as [| fuel IH]; intros p fs Hp Hfuel Hok; [lia |]. simpl.
  destruct (validate_step_cases p fs Hp Hok) as
    [(tok & q & s & Hf & Hs & Hq & Hv) | [(tok & q & fs' & Hf & Hpq & Hs & Hok' & Hv) | (e & Hv & [Hpos Hc] & Hno)]].
  - left. rewrite (bind_done _ _ _ _ _ Hv). exists s. split; [done |]. subst q.
    eapply maccepts_step; [done | done |]. by apply rtc_refl.
  - rewrite (bind_done _ _ _ _ _ Hv).
    destruct (IH q fs') as [(s & Hl & Ha) | (e & Hl & He & Hc & Hno)]; [lia | lia | done | |].
    + left. exists s. split; [done |]. by eapply maccepts_step.
    + right. exists e. split_and!; [done | lia | lia | done |].
      intros (tok' & q' & fs'' & Hf' & Hs' & Ha)%maccepts_inv; [| by destruct fs; [destruct Hok |]].
      by simplify_eq.
  - right. exists e. rewrite (bind_thrown _ _ _ _ Hv). split_and!; [done | lia | lia | done | done].
Qed.
End Loop.

(** ** The functions of a module *)

(** Function [function_index] of [m] is a local function of type [ft] with these locals. *)
Definition local_function (m : module_storage) (function_index : nat) (ft : function_type)
    (locals : list local_entry) : Prop :=
  exists i ti, function_index = (length (imported_funcs m) + i)%nat /\
    funcs m !! i = Some ti /\ types m !! Z.to_nat ti = Some ft /\ codes m !! i = Some locals.

(** Code bytes that fit in memory. *)
Definition code_bytes (code : list Z) : Prop := Forall is_byte code /\ zlen code < 2 ^ 64.

Section Top.
Context (m : module_storage) `{!ModuleOk m}.
Context (function_index : nat) (code : list Z).

Lemma prologue_local ft locals :
  local_function m function_index ft locals ->
  exists env, validate_prologue m function_index code = Done env /\
    curr_func_type env = ft /\ curr_code_locals env = locals.
Proof.
  intros (i & ti & -> & Hf & Ht & Hc). unfold validate_prologue.
  rewrite (proj2 (Nat.ltb_nlt _ _)) by lia. rewrite Nat.add_comm, Nat.add_sub.
  pose proof (lookup_lt_Some _ _ _ Hf). rewrite (proj2 (Nat.leb_nle _ _)) by lia.
  rewrite Hf, Ht, Hc. by eexists.
Qed.

Lemma prologue_total :
  (exists env, validate_prologue m function_index code = Done env /\
     local_function m function_index (curr_func_type env) (curr_code_locals env)) \/
  (exists e, validate_prologue m function_index code = Thrown e /\ reports 0 e /\
     forall ft locals, ~ local_function m function_index ft locals).
Proof using ModuleOk0.
  destruct (module_ok_facts m) as (_ & _ & Hcodes & _).
  destruct (decide (length (imported_funcs m) <= function_index /\
                    function_index < length (imported_funcs m) + length (funcs m))%nat) as [Hin | Hout].
  - left. set (i := (function_index - length (imported_funcs m))%nat).
    destruct (lookup_lt_is_Some_2 (funcs m) i) as [ti Hf]; [lia |].
    destruct (Forall_lookup_1 _ _ _ _ (funcs_total m) Hf) as [ft Ht].
    destruct (lookup_lt_is_Some_2 (codes m) i) as [ls Hc]; [lia |].
    assert (Hl : local_function m function_index ft ls) by (exists i, ti; split_and!; [lia | done ..]).
    destruct (prologue_local ft ls Hl) as (env & He & Hft & Hls). exists env. by rewrite Hft, Hls.
  - right. unfold validate_prologue.
    assert (Hno : forall ft locals, ~ local_function m function_index ft locals).
    { intros ft locals (i & ti & -> & Hf & _). apply lookup_lt_Some in Hf. lia. }
    destruct (Nat.ltb_spec function_index (length (imported_funcs m))); [by eexists |].
    rewrite (proj2 (Nat.leb_le _ _)) by lia. by eexists.
Qed.

Lemma ctx_of_initial ft locals :
  ctx_of (func_context m ft locals) [AFrame (result ft) block_type.function false []] =
  func_context m ft locals.
Proof. done. Qed.

Lemma validate_code_cases :
  code_bytes code ->
  (exists ft locals, validate_code m function_index code = Done tt /\
     local_function m function_index ft locals /\
     maccepts code (func_context m ft locals) 0 [AFrame (result ft) block_type.function false []]) \/
  (exists e, validate_code m function_index code = Thrown e /\
     (err_curr e <= length code)%nat /\ thrown e <> pc_ok /\
     forall ft locals, local_function m function_index ft locals ->
       ~ maccepts code (func_context m ft locals) 0 [AFrame (result ft) block_type.function false []]).
Proof using ModuleOk0.
  intros [Hb Hlen]. unfold validate_code.
  destruct prologue_total as [(env & He & Hl) | (e & He & [Hpos Hc] & Hno)]; rewrite He.
  2:{ right. exists e. split_and!; [done | lia | done |]. intros ft locals Hl. by apply Hno in Hl. }
  set (C := func_context m (curr_func_type env) (curr_code_locals env)).
  pose proof (prologue_env_ok m function_index code env He Hb Hlen) as Henv. fold C in Henv.
  destruct (prologue_facts m function_index code env He) as (Hcode & _).
  destruct (locals_facts m function_index code env He) as (Hres & _).
  set (f0 := AFrame (result (curr_func_type env)) block_type.function false []).
  assert (Hok : frames_ok (tc_return C) [f0]).
  { split; [done |]. constructor; [| constructor]. split; [done |]. intros _. by constructor. }
  destruct (validate_loop_cases env C (S (length code)) 0 [f0]) as
    [(s & Hv & Ha) | (e & Hv & Hpos & Hth & Hno)]; [lia | rewrite Hcode; lia | done | |];
    rewrite Hcode in *; change (st 0 [f0]) with (initial_state env) in Hv; rewrite Hv.
  - left. exists (curr_func_type env), (curr_code_locals env). done.
  - right. exists e. split_and!; [done | lia | done |].
    intros ft locals Hl' Ha. apply Hno.
    destruct (prologue_local ft locals Hl') as (env' & He' & <- & <-).
    assert (env' = env) as -> by congruence. exact Ha.
Qed.
End Top.

(** ** Reachable states *)

Section Reachable.
Context (m : module_storage) `{!ModuleOk m}.
Context (function_index : nat) (code : list Z) (env : venv).
Context (Henv : validate_prologue m function_index code = Done env) (Hcode : code_bytes code).
Local Abbreviation C := (func_context m (curr_func_type env) (curr_code_locals env)).

(** The states at the head of the loop. *)
Inductive reachable : vstate -> Prop :=
| reachable_init : reachable (initial_state env)
| reachable_step s s' :
    reachable s -> validate_step env s = Done (Continue, s') -> reachable s'.

Lemma env_ok_here : EnvOk env C.
Proof using Henv ModuleOk0 Hcode. destruct Hcode. by eapply prologue_env_ok. Qed.

Lemma initial_ok : frames_ok (tc_return C) [AFrame (result (curr_func_type env)) block_type.function false []].
Proof using Henv ModuleOk0.
  destruct (locals_facts m function_index code env Henv) as (Hres & _).
  split; [done |]. constructor; [| constructor]. split; [done |]. intros _. by constructor.
Qed.

Lemma reachable_st s :
  reachable s -> exists p fs, s = st p fs /\ frames_ok (tc_return C) fs /\ (p <= length code)%nat.
Proof using Henv ModuleOk0 Hcode.
  pose proof env_ok_here as Hok. destruct (prologue_facts m function_index code env Henv) as (Hc & _).
  induction 1 as [| s s' _ (p & fs & -> & Hfs & Hp) Hs].
  - exists 0%nat, [AFrame (result (curr_func_type env)) block_type.function false []].
    split_and!; [done | apply initial_ok | lia].
  - destruct (validate_step_cases env C p fs ltac:(by rewrite Hc) Hfs) as
      [(tok & q & s & _ & _ & _ & Hv) | [(tok & q & fs' & _ & Hpq & _ & Hfs' & Hv) | (e & Hv & _)]];
      rewrite Hv in Hs; [discriminate Hs | injection Hs as <- | discriminate Hs]. rewrite Hc in Hpq.
    exists q, fs'. split_and!; [done | done | lia].
Qed.
End Reachable.

(** What holds of the vectors and flags of a reachable state. *)
Fixpoint frames_wf (cs : list block_t) (size : nat) : Prop :=
  match cs with
  | [] => size = 0%nat
  | f :: outer =>
      (operand_stack_base f <= size)%nat /\ (length (blk_result f) <= 1)%nat /\
      (blk_type f = block_type.function <-> outer = []) /\
      frames_wf outer (operand_stack_base f)
  end.

Definition operand_wf (o : operand) : Prop := is_unknown o = true <-> otype o = None.

Definition vstate_wf (code_size : nat) (s : vstate) : Prop :=
  (code_curr s <= code_size)%nat /\
  control_flow_stack s <> [] /\
  frames_wf (control_flow_stack s) (length (operand_stack s)) /\
  Forall operand_wf (operand_stack s) /\
  (is_polymorphic s = false ->
     Forall (fun o => is_unknown o = false) (take (concrete_operand_count s) (operand_stack s))).

Lemma conc_wf o : operand_wf (conc o).
Proof. by destruct o. Qed.

Lemma os_of_wf fs : Forall operand_wf (os_of fs).
Proof.
  induction fs as [| f fs IH]; simpl; [constructor |]. apply Forall_app. split; [| done].
  apply Forall_fmap, Forall_true. intros o. apply conc_wf.
Qed.

Lemma cs_of_wf res fs :
  frames_shape res fs -> Forall frame_ok fs -> frames_wf (cs_of fs) (length (os_of fs)).
Proof.
  intros Hs Hf. revert Hs. induction Hf as [| f fs [Hl _] Hf IH]; [done |]. intros Hs. simpl.
  rewrite length_app. split_and!; [lia | done | |].
  - destruct fs as [| g fs]; simpl in *; [by destruct Hs | destruct Hs as [Hn _]; split; done].
  - destruct fs as [| g fs]; [done |]. by apply IH; destruct Hs.
Qed.

Lemma st_wf res p fs n :
  frames_ok res fs -> (p <= n)%nat -> vstate_wf n (st p fs).
Proof.
  intros [Hs Hf] Hp. destruct fs as [| f fs]; [done |].
  split_and!; [done | done | by eapply cs_of_wf | apply os_of_wf |].
  rewrite count_st. simpl. intros Hpoly. rewrite take_app_le by (by rewrite length_fmap).
  rewrite take_ge by (by rewrite length_fmap).
  apply Forall_cons in Hf as [[_ Hk] _]. apply Forall_fmap.
  eapply Forall_impl; [by apply Hk |]. by intros o [t ->].
Qed.

(** ** Trailing code *)

Lemma sub_app_code code x p bs : (p <= length code)%nat -> sub code p bs -> sub (code ++ x) p bs.
Proof.
  intros Hp [rest Hr]. exists (rest ++ x). rewrite drop_app_le by done. by rewrite Hr, app_assoc.
Qed.

Lemma fetch_app code x p tok q :
  Forall is_byte code -> Forall is_byte x ->
  fetch code p = Some (tok, q) -> fetch (code ++ x) p = Some (tok, q).
Proof.
  intros Hc Hx Hf. pose proof (fetch_progress _ Hc _ _ _ Hf).
  apply fetch_iff in Hf as (bs & Ht & Hs & ->); [| done]. apply fetch_iff; [by apply Forall_app |].
  exists bs. split_and!; [done | apply sub_app_code; [lia | done] | done].
Qed.

(** The last [end] of a function body that is not the end of the code. *)
Lemma case_end_trailing env f p :
  af_type f = block_type.function -> check_results (af_poly f) (af_res f) (af_seg f) = true ->
  S p <> length (code env) ->
  case_end env (st p [f]) = Thrown (invalid p cvec.trailing_code_after_end sel_none).
Proof.
  intros Ht Hc Hp. unfold case_end. run. cbn [st control_flow_stack cs_of]. rewrite Ht. simpl.
  pose proof (actual_count_st f []) as Hn. simpl in Hn. rewrite Hn.
  rewrite (check_results_spec f []) in Hc. apply andb_true_iff in Hc as [Hm Ha].
  apply negb_true_iff in Hm. unfold result_count_mismatch in *. simpl in *. rewrite Hm. simpl. run.
  pose proof (check_operand_types_st f [] p (S p) (fun e a => invalid p cvec.end_result_mismatch
     (sel_end_result_mismatch "function" (length (af_res f)) (length (af_seg f)) (Some e) a)) (af_res f)
     ltac:(done)) as Hk.
  rewrite Ha in Hk. unfold min_count in Hk. simpl in Hk. unfold refines in Hk.
  rewrite (bind_done _ _ _ _ _ Hk).
  rewrite (bind_done _ _ _ _ _ (clear_to_st f [] (S p))).
  rewrite (bind_done _ _ _ _ _ (push_results_st (upd f (af_poly f) []) [] (S p) (af_res f))).
  rewrite !bind_modify, bind_get. cbn [code_curr set_control_flow_stack set_polymorphic st].
  unfold code_end. by rewrite (proj2 (Nat.eqb_neq _ _)).
Qed.

Lemma astep_closes C tok fs : astep C tok fs = Some [] -> tok = TEnd /\ exists f, fs = [f].
Proof.
  destruct fs as [| f fs]; [done |]. destruct tok; simpl; intros H; option_inv; try done.
  destruct fs; by simplify_eq; eauto.
Qed.

Section Trailing.
Context (env : venv) (C : context) `{!EnvOk env C}.
Context (code0 x : list Z) (Hcode : code env = code0 ++ x) (Hx : x <> []).

Lemma validate_step_trailing p f :
  fetch (code env) p = Some (TEnd, S p) -> frames_ok (tc_return C) [f] ->
  astep C TEnd [f] = Some [] -> S p <> length (code env) ->
  validate_step env (st p [f]) = Thrown (invalid p cvec.trailing_code_after_end sel_none).
Proof using EnvOk0.
  intros Hf [[Ht _] _] Hs Hp. pose proof (fetch_progress _ env_bytes _ _ _ Hf).
  apply fetch_end in Hf as [Hb%sub_one _]; [| apply env_bytes].
  unfold validate_step, code_end. run. cbn [st code_curr].
  rewrite (proj2 (Nat.eqb_neq p (length (code env)))) by lia. rewrite Hb, bind_some.
  apply case_end_trailing; [done | | done]. simpl in Hs. rewrite Ht in Hs. simpl in Hs.
  by destruct (check_results _ _ _).
Qed.

(** After the run over [code0], the closing [end] is followed by more code. *)
Lemma validate_loop_trailing fuel p fs :
  Forall is_byte code0 -> Forall is_byte x ->
  maccepts code0 C p fs -> frames_ok (tc_return C) fs -> (p <= length code0)%nat ->
  (length code0 - p < fuel)%nat ->
  exists q, S q = length code0 /\
    validate_loop env fuel (st p fs) = Thrown (invalid q cvec.trailing_code_after_end sel_none).
Proof using EnvOk0 Hcode Hx.
  intros Hb Hbx Ha Hok Hp. revert p fs Ha Hok Hp.
  induction fuel as [| fuel IH]; intros p fs Ha Hok Hp Hfuel; [lia |]. simpl.
  assert (Hlen : (length code0 < length (code env))%nat).
  { rewrite Hcode, length_app. destruct x; [done | simpl; lia]. }
  apply maccepts_inv in Ha as (tok & q & fs' & Hf & Hs & Ha); [| by destruct fs; [destruct Hok |]].
  pose proof (fetch_progress _ Hb _ _ _ Hf) as Hpq.
  assert (Hf' : fetch (code env) p = Some (tok, q)) by (rewrite Hcode; by apply fetch_app).
  destruct (validate_step_cases env C p fs) as
    [(tok' & q' & s & Hf'' & _ & Hq & _) |
     [(tok' & q' & fs'' & Hf'' & _ & Hs'' & Hok' & Hv) | (e & Hv & _ & Hno)]]; [lia | done | | |].
  - assert (q' = q) by congruence. lia.
  - assert (tok' = tok /\ q' = q) as [-> ->] by (split; congruence).
    assert (fs'' = fs') as -> by congruence. rewrite (bind_done _ _ _ _ _ Hv).
    apply IH; [done | done | lia | lia].
  - destruct fs' as [| g fs'].
    + apply maccepts_nil in Ha. destruct (astep_closes _ _ _ Hs) as (-> & f & ->).
      pose proof Hf' as [_ ->]%fetch_end; [| apply env_bytes]. exists p. split; [done |].
      by rewrite (bind_thrown _ _ _ _ (validate_step_trailing p f Hf' Hok Hs ltac:(lia))).
    + destruct fs as [| f fs]; [by destruct Hok |].
      pose proof (validate_step_refines env C f fs Hok p ltac:(lia)) as Hr.
      rewrite Hf' in Hr. cbn [mbind option_bind] in Hr. rewrite Hs in Hr. simpl in Hr. congruence.
Qed.
End Trailing.
