(* ===== verification/ValidatorTheorems.v ===== *)
(** * The theorems about [validate_code]

    Each is stated for an arbitrary module that passed the section parsers
    ([ModuleOk]) and an arbitrary byte string. *)

From stdpp Require Import base list numbers strings relations.
From Stdlib Require Import ZArith Lia.
From S2P Require Import Prelude Leb128 WasmTypes ValidationError ValidatorState ValidatorControl.
From S2P Require Import ValidatorPlain Validator WasmSpec Fetch Checker Machine Refines.
From S2P Require Import RefineCases RefineControl ModuleInterface MachineTyping.
From S2P Require Import ValidatorCorrect.

(** A module with a memory, a table, a mutable global and two functions, the first
    imported, for the witnesses. *)
Definition sample : module_storage :=
  {| imported_funcs := [FunctionType [i32] []]; imported_tables := 0; imported_memories := 0;
     imported_globals := [GlobalType i64 false];
     types := [FunctionType [i32; i32] [i32]]; funcs := [0]; tables := 1; memories := 1;
     local_globals := [GlobalType f32 true]; codes := [[LocalEntry 2 f64; LocalEntry 1 i32]] |}.

Lemma sample_ok : ModuleOk sample.
Proof. reflexivity. Qed.

(** [block (result i32) local.get 0; local.get 1; i32.add end; end] *)
Definition sample_code : list Z := [2; 127; 32; 0; 32; 1; 106; 11; 11].

Lemma sample_code_bytes : code_bytes sample_code.
Proof. split; [| reflexivity]. unfold sample_code, is_byte. repeat constructor; lia. Qed.

Lemma sample_local_function :
  local_function sample 1 (FunctionType [i32; i32] [i32]) [LocalEntry 2 f64; LocalEntry 1 i32].
Proof. by exists 0%nat, 0. Qed.

(** C2: Soundness. If [validate_code] accepts the body of a function, the body is the
    encoding of an instruction sequence that has the type of the function in the
    WebAssembly 1.0 type system. *)
Theorem validate_code_sound m function_index code :
  ModuleOk m -> code_bytes code ->
  validate_code m function_index code = Done tt ->
  exists ft locals, local_function m function_index ft locals /\ func_body_ok m ft locals code.
Proof.
  intros Hm Hc Hv. destruct (validate_code_cases m function_index code Hc) as
    [(ft & locals & _ & Hl & Ha) | (e & He & _)]; [| congruence].
  exists ft, locals. split; [done |]. destruct Hc as [Hb _].
  by apply (maccepts_sound code (func_context m ft locals) Hb) in Ha.
Qed.

Lemma validate_code_sound_witness :
  exists ft locals, local_function sample 1 ft locals /\ func_body_ok sample ft locals sample_code.
Proof.
  apply validate_code_sound; [apply sample_ok | apply sample_code_bytes | vm_compute; reflexivity].
Defined.

(** C6: Completeness. A body with the type of its function is accepted, provided it
    does not contain both a [select] and a [br_table]. *)
Theorem validate_code_complete m function_index code ft locals es :
  ModuleOk m -> code_bytes code -> local_function m function_index ft locals ->
  expr_bytes es code -> instrs_typing (func_context m ft locals) es [] (rev (result ft)) ->
  occurs_in is_select es = false \/ occurs_in is_br_table es = false ->
  validate_code m function_index code = Done tt.
Proof.
  intros Hm Hc Hl Hes Hty Hex. destruct (validate_code_cases m function_index code Hc) as
    [(ft' & locals' & Hv & _) | (e & _ & _ & _ & Hno)]; [done |].
  exfalso. apply (Hno ft locals Hl). destruct Hc as [Hb _].
  destruct Hex as [Hex | Hex]; [eapply (maccepts_complete _ _ Hb false) | eapply (maccepts_complete _ _ Hb true)];
    eauto.
Qed.

(** The instructions of [sample_code]. *)
Definition sample_es : list instr := [IBlock [i32] [ILocalGet 0; ILocalGet 1; INumeric 106]].

Lemma index_byte n : (n < 128)%nat -> index_bytes n [Z.of_nat n].
Proof. intros Hn. constructor; lia. Qed.

Lemma sample_expr : expr_bytes sample_es sample_code.
Proof.
  exists [2; 127; 32; 0; 32; 1; 106; 11]. split; [| done].
  apply (B_cons _ _ [2; 127; 32; 0; 32; 1; 106; 11] []); [| constructor].
  apply (B_block 127 [i32] _ [32; 0; 32; 1; 106]); [done |].
  apply (B_cons _ _ [32; 0] [32; 1; 106]).
  { constructor. constructor. by apply (index_byte 0); lia. }
  apply (B_cons _ _ [32; 1] [106]).
  { constructor. constructor. by apply (index_byte 1); lia. }
  apply (B_cons _ _ [106] []); [| constructor]. constructor. constructor. done.
Qed.

Lemma sample_typed :
  instrs_typing (func_context sample (FunctionType [i32; i32] [i32]) [LocalEntry 2 f64; LocalEntry 1 i32])
    sample_es [] [i32].
Proof.
  apply (T_cons _ _ _ [] [i32] []); [| constructor]. apply T_block.
  apply (T_cons _ _ _ [] [i32] []); [by repeat constructor |].
  apply (T_cons _ _ _ [] [i32] [i32]); [by repeat constructor |].
  apply (T_cons _ _ _ [i32; i32] [i32] []); [| constructor].
  constructor. by apply (T_numeric _ 106 [i32; i32] i32).
Qed.

Lemma validate_code_complete_witness : validate_code sample 1 sample_code = Done tt.
Proof.
  apply (validate_code_complete sample 1 sample_code _ _ sample_es sample_ok sample_code_bytes
    sample_local_function sample_expr sample_typed).
  left. reflexivity.
Defined.

(** C11: Totality and memory safety. On any bytes [validate_code] either accepts or
    throws: it never reads outside a vector or the code, and never runs out of its
    iteration bound. A rejection throws a code other than [ok] and points at an
    offset inside the body (or at its end). *)
Theorem validate_code_total m function_index code :
  ModuleOk m -> code_bytes code ->
  validate_code m function_index code = Done tt \/
  exists e, validate_code m function_index code = Thrown e /\
    (err_curr e <= length code)%nat /\ thrown e <> pc_ok.
Proof.
  intros Hm Hc. destruct (validate_code_cases m function_index code Hc) as
    [(ft & locals & Hv & _) | (e & He & Hpos & Hth & _)]; [by left | right; eauto].
Qed.

(** [local.get 7; end]: there are five locals. *)
Lemma validate_code_total_witness :
  validate_code sample 1 [32; 7; 11] = Done tt \/
  exists e, validate_code sample 1 [32; 7; 11] = Thrown e /\
    (err_curr e <= 3)%nat /\ thrown e <> pc_ok.
Proof.
  apply (validate_code_total sample 1 [32; 7; 11] sample_ok).
  split; [unfold is_byte; repeat constructor; lia | reflexivity].
Defined.

(** Every body that is not well typed is rejected with an exception. *)
Theorem validate_code_rejects m function_index code ft locals :
  ModuleOk m -> code_bytes code -> local_function m function_index ft locals ->
  ~ func_body_ok m ft locals code ->
  exists e, validate_code m function_index code = Thrown e.
Proof.
  intros Hm Hc Hl Hno. destruct (validate_code_cases m function_index code Hc) as
    [(ft' & locals' & _ & Hl' & Ha) | (e & He & _)]; [| eauto].
  exfalso. destruct (prologue_local m function_index code _ _ Hl) as (env & He & <- & <-).
  destruct (prologue_local m function_index code _ _ Hl') as (env' & He' & <- & <-).
  assert (env' = env) as -> by congruence. apply Hno. destruct Hc as [Hb _].
  by apply (maccepts_sound code _ Hb) in Ha.
Qed.

(** The empty body is not an expression. *)
Lemma validate_code_rejects_witness : exists e, validate_code sample 1 [] = Thrown e.
Proof.
  apply (validate_code_rejects sample 1 [] _ _ sample_ok ltac:(by split) sample_local_function).
  intros (es & (bs & _ & Hbs) & _). by destruct bs.
Defined.

(** C33: Incompleteness. The body [unreachable; select; i32.const 0; br_table 0; end]
    of a function with result [i32] is well typed, but [validate_code] rejects it:
    [br_table] compares the type field of the operand without asking whether the
    operand has an unknown type. *)
Theorem br_table_unknown_rejected :
  let m := Examples.one_func [] [i32] [] in
  let code := [0; 27; 65; 0; 14; 0; 0; 11] in
  func_body_ok m (FunctionType [] [i32]) [] code /\
  validate_code m 0 code = Thrown (invalid 4 cvec.br_value_type_mismatch
    (sel_br_value_type_mismatch "br_table" (Some i32) None)).
Proof.
  split; [| vm_compute; reflexivity].
  exists [IUnreachable; ISelect; II32Const 0; IBrTable [] 0]. split.
  - exists [0; 27; 65; 0; 14; 0; 0]. split; [| done].
    apply (B_cons _ _ [0]); [by repeat constructor |].
    apply (B_cons _ _ [27]); [by repeat constructor |].
    apply (B_cons _ _ [65; 0]); [repeat constructor; lia |].
    apply (B_cons _ _ [14; 0; 0] []); [| constructor]. constructor.
    apply (B_br_table [] 0 [0] [] [0]); [by apply (index_byte 0); lia | constructor | by apply (index_byte 0); lia].
  - apply (T_cons _ _ _ [] [i32; i32; i32] []); [by repeat constructor |].
    apply (T_cons _ _ _ [i32; i32; i32] [i32] []); [by repeat constructor |].
    apply (T_cons _ _ _ [] [i32] [i32]); [by repeat constructor |].
    apply (T_cons _ _ _ [i32; i32] [i32] []); [| constructor].
    constructor. apply (T_br_table _ [] 0 [i32] [] [i32]); by constructor.
Qed.

(** C37: Code after the closing [end] is rejected. If a body is accepted, the same body
    followed by anything is rejected as [trailing_code_after_end], at its last byte. *)
Theorem validate_code_trailing m function_index code x :
  ModuleOk m -> code_bytes (code ++ x) -> x <> [] ->
  validate_code m function_index code = Done tt ->
  exists q, S q = length code /\
    validate_code m function_index (code ++ x) =
    Thrown (invalid q cvec.trailing_code_after_end sel_none).
Proof.
  intros Hm [Hb Hlen] Hx Hv. apply Forall_app in Hb as Hb'. destruct Hb' as [Hb1 Hb2].
  assert (Hc : code_bytes code).
  { split; [done |]. unfold zlen in *. rewrite length_app in Hlen. lia. }
  destruct (validate_code_cases m function_index code Hc) as
    [(ft & locals & _ & Hl & Ha) | (e & He & _)]; [| congruence]. clear Hv.
  destruct (prologue_local m function_index (code ++ x) ft locals Hl) as (env & He & <- & <-).
  pose proof (prologue_env_ok m function_index _ env He Hb Hlen) as Henv.
  destruct (prologue_facts m function_index _ env He) as (Hcode & _).
  destruct (validate_loop_trailing env _ code x Hcode Hx (S (length (code ++ x))) 0 _ Hb1 Hb2 Ha) as (q & Hq & Hv).
  - by eapply initial_ok.
  - lia.
  - rewrite length_app. lia.
  - exists q. split; [done |]. unfold validate_code. rewrite He.
    change (st 0 _) with (initial_state env) in Hv. by rewrite Hv.
Qed.

Lemma validate_code_trailing_witness :
  exists q, S q = length sample_code /\
    validate_code sample 1 (sample_code ++ [1; 11]) =
    Thrown (invalid q cvec.trailing_code_after_end sel_none).
Proof.
  apply (validate_code_trailing sample 1 sample_code [1; 11] sample_ok); [| done | vm_compute; reflexivity].
  split; [unfold is_byte; repeat constructor; lia | reflexivity].
Defined.

(** C35: Invariant of the loop. In every state at the head of the loop: the instruction
    pointer is inside the body; the control stack is not empty, exactly its outermost
    frame is the function frame, the operand bases do not exceed the operand stack and
    do not decrease inwards, every frame has at most one result; an operand is marked
    unknown iff it carries no type; and in a frame that is not polymorphic every
    operand has a known type. *)
Theorem reachable_state_wf m function_index code env s :
  ModuleOk m -> code_bytes code -> validate_prologue m function_index code = Done env ->
  reachable env s -> vstate_wf (length code) s.
Proof.
  intros Hm Hc He Hr. destruct (reachable_st m function_index code env He Hc s Hr) as (p & fs & -> & Hok & Hp).
  by eapply st_wf.
Qed.

(** After [block (result i32); unreachable]. *)
Lemma reachable_state_wf_witness :
  vstate_wf 5 (VState 3
    [Block [i32] 0 block_type.block false; Block [i32] 0 block_type.function false] [] true).
Proof.
  apply (reachable_state_wf sample 1 [2; 127; 0; 11; 11]
    (match validate_prologue sample 1 [2; 127; 0; 11; 11] with Done env => env | _ => VEnv [] sample 0 0 (FunctionType [] []) 0 [] 0 0 0 0 0 end)
    _ sample_ok); [split; [unfold is_byte; repeat constructor; lia | reflexivity] | reflexivity |].
  eapply reachable_step; [eapply reachable_step; [apply reachable_init | vm_compute; reflexivity] | vm_compute; reflexivity].
Defined.

(** Progress. An iteration of the loop that continues has consumed at least one byte
    and stays inside the body. *)
Theorem validate_step_progress m function_index code env s s' :
  ModuleOk m -> code_bytes code -> validate_prologue m function_index code = Done env ->
  reachable env s -> validate_step env s = Done (Continue, s') ->
  (code_curr s < code_curr s' <= length code)%nat.
Proof.
  intros Hm Hc He Hr Hs. destruct (reachable_st m function_index code env He Hc s Hr) as (p & fs & -> & Hok & Hp).
  pose proof (env_ok_here m function_index code env He Hc) as Henv.
  destruct (prologue_facts m function_index code env He) as (Hcode & _).
  destruct (validate_step_cases env _ p fs ltac:(by rewrite Hcode) Hok) as
    [(tok & q & s & _ & _ & _ & Hv) | [(tok & q & fs' & _ & Hpq & _ & _ & Hv) | (e & Hv & _)]];
    rewrite Hv in Hs; [discriminate Hs | injection Hs as <- | discriminate Hs].
  rewrite Hcode in Hpq. exact Hpq.
Qed.

Lemma validate_step_progress_witness : (0 < 2 <= 4)%nat.
Proof.
  exact (validate_step_progress sample 1 [2; 64; 11; 11]
    (match validate_prologue sample 1 [2; 64; 11; 11] with Done env => env | _ => VEnv [] sample 0 0 (FunctionType [] []) 0 [] 0 0 0 0 0 end)
    _ (VState 2 [Block [] 0 block_type.block false; Block [i32] 0 block_type.function false] [] false)
    sample_ok ltac:(split; [unfold is_byte; repeat constructor; lia | reflexivity]) eq_refl
    (reachable_init _) ltac:(vm_compute; reflexivity)).
Defined.

(** C24: Refinement. One iteration of the loop is one step of the abstract machine on the
    decoded instruction: it continues in the machine's next state, it returns when the
    machine closes the function frame at the end of the code, and otherwise throws an
    error at the opcode. *)
Theorem validate_step_simulation env C p f fs :
  EnvOk env C -> frames_ok (tc_return C) (f :: fs) -> (p <= length (code env))%nat ->
  match fetch (code env) p with
  | Some (tok, q) =>
      match astep C tok (f :: fs) with
      | Some [] =>
          if decide (q = length (code env)) then exists s, validate_step env (st p (f :: fs)) = Done (Return, s)
          else exists e, validate_step env (st p (f :: fs)) = Thrown e /\ reports p e
      | Some fs' => validate_step env (st p (f :: fs)) = Done (Continue, st q fs')
      | None => exists e, validate_step env (st p (f :: fs)) = Thrown e /\ reports p e
      end
  | None => exists e, validate_step env (st p (f :: fs)) = Thrown e /\ reports p e
  end.
Proof.
  intros Henv Hok Hp. pose proof (validate_step_refines env C f fs Hok p Hp) as Hr.
  destruct (fetch (code env) p) as [[tok q] |]; cbn [mbind option_bind] in Hr; [| done].
  destruct (astep C tok (f :: fs)) as [[| g fs'] |]; cbn [mbind option_bind after_end] in Hr; [| done ..].
  destruct (Nat.eqb_spec q (length (code env))).
  - rewrite decide_True by done. eauto.
  - by rewrite decide_False.
Qed.

(** [i32.add] on two operands, in the middle of a function. *)
Lemma validate_step_simulation_witness :
  match validate_prologue sample 1 [106; 11] with
  | Done env => validate_step env (st 0 [AFrame [i32] block_type.function false [Some i32; Some i32]]) =
                Done (Continue, st 1 [AFrame [i32] block_type.function false [Some i32]])
  | _ => False
  end.
Proof.
  exact (validate_step_simulation
    (match validate_prologue sample 1 [106; 11] with Done env => env | _ => VEnv [] sample 0 0 (FunctionType [] []) 0 [] 0 0 0 0 0 end)
    (func_context sample (FunctionType [i32; i32] [i32]) [LocalEntry 2 f64; LocalEntry 1 i32]) 0
    (AFrame [i32] block_type.function false [Some i32; Some i32]) []
    (prologue_env_ok sample (ModuleOk0 := sample_ok) 1 [106; 11] _ eq_refl
       ltac:(unfold is_byte; repeat constructor; lia) ltac:(reflexivity))
    ltac:(split; [done | constructor; [split; [simpl; lia | intros _; repeat constructor; eauto] | constructor]])
    ltac:(simpl; lia)).
Defined.
