(* ===== verification/CaseTheorems.v ===== *)
(** * Exact behaviour of individual cases, errors included

    For cases with several error paths, the complete outcome as a function of the
    operands of the current frame: which error is reported first, with which payload. *)

From stdpp Require Import base list numbers strings relations.
From Stdlib Require Import ZArith Lia.
From S2P Require Import Prelude Leb128 WasmTypes ValidationError ValidatorState ValidatorControl.
From S2P Require Import ValidatorPlain Validator WasmSpec Fetch Checker Machine Refines.
From S2P Require Import RefineCases RefineControl ModuleInterface MachineTyping.
From S2P Require Import ValidatorCorrect.

(** The numeric mismatch reported for an operand. *)
Definition numeric_mismatch (p : nat) (name : string) (t : value_type) (o : aoperand) : verr :=
  invalid p cvec.numeric_operand_type_mismatch
    (sel_numeric_operand_type_mismatch name (Some t) (otype (conc o))).

Lemma conc_mismatch o t :
  operand_mismatch (ConcreteOperand true (otype (conc o)) (is_unknown (conc o))) t = negb (accepts o t).
Proof. exact (popped_mismatch [o] t). Qed.

(** Binary numeric instructions. The right operand is checked first, then the left;
    too few operands are an underflow unless the frame is polymorphic; otherwise the
    operands are replaced by one of the result type. *)
Theorem numeric_binary_outcome name t r p f fs :
  validate_numeric_binary name t r (st p (f :: fs)) =
  match af_seg f with
  | o1 :: o2 :: rest =>
      if negb (accepts o1 t) then Thrown (numeric_mismatch p name t o1)
      else if negb (accepts o2 t) then Thrown (numeric_mismatch p name t o2)
      else Done (tt, st (S p) (upd f (af_poly f) (Some r :: rest) :: fs))
  | short =>
      if negb (af_poly f) then
        Thrown (invalid p cvec.operand_stack_underflow
          (sel_operand_stack_underflow name (length short) 2))
      else
        match short with
        | [o1] =>
            if negb (accepts o1 t) then Thrown (numeric_mismatch p name t o1)
            else Done (tt, st (S p) (upd f true [Some r] :: fs))
        | _ => Done (tt, st (S p) (upd f true [Some r] :: fs))
        end
  end.
Proof.
  unfold validate_numeric_binary. run.
  destruct f as [res bt poly [| o1 [| o2 rest]]]; cbn [af_seg af_poly].
  - destruct poly; [| by rewrite underflow_throws by (done || simpl; lia)].
    rewrite underflow_passes by auto. by rewrite !pop_check.
  - destruct poly; [| by rewrite underflow_throws by (done || simpl; lia)].
    rewrite underflow_passes by auto. rewrite pop_check. cbn [af_seg].
    destruct (accepts o1 t); [| done]. cbn [negb]. by rewrite pop_check.
  - rewrite underflow_passes by (simpl; lia). rewrite pop_check. cbn [af_seg].
    destruct (accepts o1 t); [| done]. cbn [negb].
    rewrite pop_check. cbn [af_seg upd tail]. by destruct (accepts o2 t).
Qed.

(** Loads. After the alignment and offset immediates, the checks come in this order:
    a memory must exist, the alignment exponent must not exceed the one of the access,
    an address operand must be there (or the frame be polymorphic) and be [i32]. *)
Theorem mem_load_outcome env name max_align t p f fs a q1 o q2 :
  get_leb (code env) 32 false (S p) = Some (a, q1) ->
  get_leb (code env) 32 false q1 = Some (o, q2) ->
  validate_mem_load env name max_align t (st p (f :: fs)) =
  if all_memory_count env =? 0 then Thrown (invalid p cvec.no_memory (sel_no_memory name a o))
  else if max_align <? a then
    Thrown (invalid p cvec.illegal_memarg_alignment (sel_illegal_memarg_alignment name a max_align))
  else
    match af_seg f with
    | [] =>
        if af_poly f then Done (tt, st q2 (upd f true [Some t] :: fs))
        else Thrown (invalid p cvec.operand_stack_underflow (sel_operand_stack_underflow name 0 1))
    | x :: rest =>
        if accepts x i32 then Done (tt, st q2 (upd f (af_poly f) (Some t :: rest) :: fs))
        else Thrown (invalid p cvec.memarg_address_type_not_i32
               (sel_memarg_address_type_not_i32 name (otype (conc x))))
    end.
Proof.
  intros Ha Ho. unfold validate_mem_load, read_memarg, read_u32. run.
  pose proof (read_leb128_st env 32 false p cvec.invalid_memarg_align sel_none (S p) (f :: fs)) as Hra.
  pose proof (read_leb128_st env 32 false p cvec.invalid_memarg_offset sel_none q1 (f :: fs)) as Hro.
  rewrite Ha in Hra. rewrite Ho in Hro. simpl in Hra, Hro.
  rewrite sm_bind_assoc, (bind_done _ _ _ _ _ Hra). cbv beta.
  rewrite sm_bind_assoc, (bind_done _ _ _ _ _ Hro). cbv beta.
  rewrite sm_bind_assoc. destruct (all_memory_count env =? 0); [done |]. cbn [sm_when]. rewrite bind_ret.
  destruct (max_align <? a); [done |]. cbn [sm_when]. rewrite bind_ret.
  destruct f as [res bt poly [| x rest]]; cbn [af_seg af_poly].
  - destruct poly; [| by rewrite underflow_throws by (done || simpl; lia)].
    rewrite underflow_passes by auto. by rewrite pop_check.
  - rewrite underflow_passes by (simpl; lia). rewrite pop_check. cbn [af_seg]. by destruct (accepts x i32).
Qed.

(** [f64.load align=3 offset=2] on an [i32] address, in a module with a memory. *)
Lemma mem_load_outcome_witness :
  let env := VEnv [43; 3; 2] (Examples.one_func [] [] []) 0 1 (FunctionType [] []) 0 [] 0 0 0 0 1 in
  validate_mem_load env "f64.load" 3 f64 (st 0 [AFrame [] block_type.function false [Some i32]]) =
  Done (tt, st 3 [AFrame [] block_type.function false [Some f64]]).
Proof.
  exact (mem_load_outcome (VEnv [43; 3; 2] (Examples.one_func [] [] []) 0 1 (FunctionType [] []) 0 [] 0 0 0 0 1)
    "f64.load" 3 f64 0 (AFrame [] block_type.function false [Some i32]) [] 3 2%nat 2 3%nat
    ltac:(vm_compute; reflexivity) ltac:(vm_compute; reflexivity)).
Defined.

(** C38: Locals. For every 32-bit index, the lookup by runs of declared locals returns the
    type at that position of the parameters followed by the expanded declarations, and
    reports the number of locals when the index is out of range; the 32-bit counters it
    computes with do not wrap. *)
Theorem local_lookup_correct m function_index code env p x s :
  ModuleOk m -> validate_prologue m function_index code = Done env -> Z.of_nat x < 2 ^ 32 ->
  let all := parameter (curr_func_type env) ++ expand_locals (curr_code_locals env) in
  local_type_of env p (Z.of_nat x) s =
  match all !! x with
  | Some t => Done (t, s)
  | None => Thrown (invalid p cvec.illegal_local_index (sel_illegal_local_index (Z.of_nat x) (zlen all)))
  end.
Proof.
  intros Hm He Hx. pose proof (local_type_of_lookup m function_index code env He p x s Hx) as Hl.
  destruct (locals_facts m function_index code env He) as (_ & _ & _ & _ & Hlc & Hlt).
  unfold tc_locals, func_context in *. cbv zeta.
  destruct ((_ ++ _) !! x) as [t |] eqn:Ht; [done |].
  unfold local_type_of. rewrite Hlc. unfold zlen in *. apply lookup_ge_None in Ht.
  by rewrite (proj2 (Z.leb_le _ _)) by lia.
Qed.

Lemma local_lookup_correct_witness :
  match validate_prologue (Examples.one_func [i32] [] [LocalEntry 2 f32; LocalEntry 1 i64]) 0 [] with
  | Done env => local_type_of env 0 (Z.of_nat 3) (initial_state env) = Done (i64, initial_state env) /\
                local_type_of env 0 (Z.of_nat 4) (initial_state env) =
                Thrown (invalid 0 cvec.illegal_local_index (sel_illegal_local_index 4 4))
  | _ => False
  end.
Proof.
  set (m := Examples.one_func [i32] [] [LocalEntry 2 f32; LocalEntry 1 i64]).
  set (env := match validate_prologue m 0 [] with Done env => env
              | _ => VEnv [] m 0 0 (FunctionType [] []) 0 [] 0 0 0 0 0 end).
  split.
  - exact (local_lookup_correct m 0 [] env 0 3 (initial_state env) eq_refl eq_refl eq_refl).
  - exact (local_lookup_correct m 0 [] env 0 4 (initial_state env) eq_refl eq_refl eq_refl).
Defined.

(** Globals. The lookup through the imported and the defined globals is the lookup in
    their concatenation, for every 32-bit index. *)
Theorem global_lookup_correct m function_index code env p x s :
  ModuleOk m -> validate_prologue m function_index code = Done env -> Z.of_nat x < 2 ^ 32 ->
  let all := imported_globals m ++ local_globals m in
  global_of env p (Z.of_nat x) s =
  match all !! x with
  | Some g => Done (g, s)
  | None => Thrown (invalid p cvec.illegal_global_index (sel_illegal_global_index (Z.of_nat x) (zlen all)))
  end.
Proof.
  intros Hm He Hx. pose proof (global_of_lookup m function_index code env He p x s Hx) as Hl.
  destruct (prologue_facts m function_index code env He) as (_ & _ & _ & _ & _ & _ & _ & Hag & _).
  destruct (module_ok_facts m) as (_ & _ & _ & _ & Hg & _).
  unfold tc_globals, func_context in Hl. cbv zeta.
  destruct ((_ ++ _) !! x) as [g |] eqn:Ht; [done |]. apply lookup_ge_None in Ht.
  unfold global_of. rewrite Hag. unfold u32, wrap, zlen in *. rewrite length_app in *.
  rewrite (Z.mod_small (Z.of_nat (length (imported_globals m)))) by lia.
  rewrite (Z.mod_small (Z.of_nat (length (local_globals m)))) by lia.
  rewrite (Z.mod_small (Z.of_nat (length (imported_globals m)) + Z.of_nat (length (local_globals m)))) by lia. rewrite (proj2 (Z.leb_le _ _)) by lia. simpl.
  unfold sm_throw, mbind, sm_bind. do 3 f_equal. lia.
Qed.

Lemma global_lookup_correct_witness :
  let m := ModuleStorage [] 0 0 [GlobalType i64 false] [FunctionType [] []] [0] 0 0 [GlobalType f32 true] [[]] in
  match validate_prologue m 0 [] with
  | Done env => global_of env 0 (Z.of_nat 1) (initial_state env) = Done (GlobalType f32 true, initial_state env)
  | _ => False
  end.
Proof.
  set (m := ModuleStorage [] 0 0 [GlobalType i64 false] [FunctionType [] []] [0] 0 0 [GlobalType f32 true] [[]]).
  set (env := match validate_prologue m 0 [] with Done env => env
              | _ => VEnv [] m 0 0 (FunctionType [] []) 0 [] 0 0 0 0 0 end).
  exact (global_lookup_correct m 0 [] env 0 1 (initial_state env) eq_refl eq_refl eq_refl).
Defined.

(** Function index. [validate_code] throws before reading any code exactly when the
    index does not name a local function: an imported one is [not_local_function], one
    past the end is [invalid_function_index] with the number of functions. *)
Theorem validate_code_function_index m function_index code :
  ModuleOk m -> code_bytes code ->
  (forall ft locals, ~ local_function m function_index ft locals) ->
  let all := (length (imported_funcs m) + length (funcs m))%nat in
  validate_code m function_index code =
  Thrown (if (function_index <? length (imported_funcs m))%nat
          then invalid 0 cvec.not_local_function (sel_not_local_function function_index)
          else invalid 0 cvec.invalid_function_index
                 (sel_invalid_function_index (Z.of_nat function_index) (Z.of_nat all))).
Proof.
  intros Hm _ Hno. destruct (prologue_total m function_index code) as [(env & He & Hl) | (e & He & _)].
  { by apply Hno in Hl. }
  unfold validate_code. rewrite He. f_equal. revert He. unfold validate_prologue. cbv zeta.
  destruct (function_index <? length (imported_funcs m))%nat; [by intros [= <-] |].
  destruct (_ <=? _)%nat; [by intros [= <-] |]. by repeat case_match.
Qed.

Lemma validate_code_function_index_witness :
  validate_code (Examples.one_func [] [] []) 3 [11] =
  Thrown (invalid 0 cvec.invalid_function_index (sel_invalid_function_index 3 1)).
Proof.
  apply (validate_code_function_index (Examples.one_func [] [] []) 3 [11]).
  - reflexivity.
  - split; [unfold is_byte; repeat constructor; lia | reflexivity].
  - intros ft locals (i & ti & Hi & Hf & _). simpl in Hi. by subst i.
Defined.
