(* ===== verification/Utf8.v ===== *)
(** * UTF-8 checking

    [utils/utf/utf8.h]: [check_legal_utf8_rfc3629_unchecked], in the two forms a build
    without vector extensions contains: the byte-by-byte loop (constant evaluation and
    targets that are not 64-bit little endian) and the loop that skips ASCII sixteen
    bytes at a time through two 64-bit loads and decodes a sequence from one 32-bit load.

    The strings are lists of bytes; the position of a result is an offset from
    [str_begin], and [bs] is always the range from [str_curr] to [str_end]. *)

From stdpp Require Import base list list_numbers numbers.
From Stdlib Require Import ZArith Lia.
From S2P Require Import Prelude Leb128.
Open Scope Z_scope.

Module utf_error_code.
Inductive code :=
  | success | long_header_bits | too_short_sequence | too_long_sequence
  | overlong_encoding | excessive_codepoint | illegal_surrogate | contains_empty_characters.
#[global] Instance code_eq_dec : EqDecision code.
Proof. solve_decision. Defined.

(** The value of the enumerator. *)
Definition value (c : code) : Z :=
  match c with
  | success => 0 | long_header_bits => 1 | too_short_sequence => 2 | too_long_sequence => 3
  | overlong_encoding => 4 | excessive_codepoint => 5 | illegal_surrogate => 6
  | contains_empty_characters => 7
  end.
End utf_error_code.
Module uec := utf_error_code.

Record u8result := U8Result { u8_pos : nat; u8_err : uec.code }.

(** ** The code *)

(** [utf8_b0], [utf8_b1], ...: the bits a byte contributes to the code point of a
    sequence of [utf8_length] bytes. *)
Definition lead_bits (utf8_length b0 : Z) : Z :=
  Z.shiftl (Z.land b0 (Z.shiftl 1 (8 - (utf8_length + 1)) - 1)) ((utf8_length - 1) * 6).
Definition continuation_bits (utf8_length k b : Z) : Z :=
  Z.shiftl (Z.land b 63) ((utf8_length - 1 - k) * 6).

Definition test_overlong_low_bound (utf8_length : Z) : Z :=
  let test_overlong := utf8_length - 2 in
  let test_overlong_pc := Z.shiftr (test_overlong + 1) 1 in
  Z.shiftl 1 (6 * test_overlong + (8 - utf8_length + (1 - test_overlong_pc))).

(** The tests on the code point of a sequence of each length: an error, or the number of
    bytes to advance. *)
Definition check_2 (utf8_c : Z) : uec.code + nat :=
  if utf8_c <? test_overlong_low_bound 2 then inl uec.overlong_encoding else inr 2%nat.
Definition check_3 (utf8_c : Z) : uec.code + nat :=
  if utf8_c <? test_overlong_low_bound 3 then inl uec.overlong_encoding
  else if (55295 <? utf8_c) && (utf8_c <? 57344) then inl uec.illegal_surrogate
  else inr 3%nat.
Definition check_4 (utf8_c : Z) : uec.code + nat :=
  if utf8_c <? test_overlong_low_bound 4 then inl uec.overlong_encoding
  else if 1114111 <? utf8_c then inl uec.excessive_codepoint
  else inr 4%nat.

Definition not_continuation (b : Z) : bool := negb (Z.land b 192 =? 128).

(** The [else] of both loops. *)
Definition bad_header (b : Z) : uec.code + nat :=
  if Z.land b 192 =? 128 then inl uec.too_long_sequence else inl uec.long_header_bits.

(** One iteration of the byte-by-byte loop. A pattern that requires further bytes is the
    test of [str_end - str_curr] before they are read. *)
Definition scalar_step (zero_illegal : bool) (b0 : Z) (rest : list Z) : uec.code + nat :=
  if b0 <? 128 then
    if zero_illegal && (b0 =? 0) then inl uec.contains_empty_characters else inr 1%nat
  else if Z.land b0 224 =? 192 then
    match rest with
    | b1 :: _ =>
        if not_continuation b1 then inl uec.too_short_sequence
        else check_2 (Z.lor (lead_bits 2 b0) (continuation_bits 2 1 b1))
    | _ => inl uec.too_short_sequence
    end
  else if Z.land b0 240 =? 224 then
    match rest with
    | b1 :: b2 :: _ =>
        if not_continuation b1 then inl uec.too_short_sequence
        else if not_continuation b2 then inl uec.too_short_sequence
        else check_3 (Z.lor (Z.lor (lead_bits 3 b0) (continuation_bits 3 1 b1))
               (continuation_bits 3 2 b2))
    | _ => inl uec.too_short_sequence
    end
  else if Z.land b0 248 =? 240 then
    match rest with
    | b1 :: b2 :: b3 :: _ =>
        if not_continuation b1 then inl uec.too_short_sequence
        else if not_continuation b2 then inl uec.too_short_sequence
        else if not_continuation b3 then inl uec.too_short_sequence
        else check_4 (Z.lor (Z.lor (Z.lor (lead_bits 4 b0) (continuation_bits 4 1 b1))
               (continuation_bits 4 2 b2)) (continuation_bits 4 3 b3))
    | _ => inl uec.too_short_sequence
    end
  else bad_header b0.

(** [while(str_curr != str_end)] *)
Fixpoint scalar_loop (fuel : nat) (zero_illegal : bool) (bs : list Z) (str_curr : nat)
    : option u8result :=
  match fuel with
  | O => None
  | S fuel =>
      match bs with
      | [] => Some (U8Result str_curr uec.success)
      | b0 :: rest =>
          match scalar_step zero_illegal b0 rest with
          | inl e => Some (U8Result str_curr e)
          | inr n => scalar_loop fuel zero_illegal (drop n bs) (str_curr + n)
          end
      end
  end.

(** [memcpy] of [n] bytes into an unsigned object on a little-endian target. *)
Fixpoint load_le (n : nat) (bs : list Z) : Z :=
  match n, bs with
  | S n, b :: bs => b + 256 * load_le n bs
  | _, _ => 0
  end.

(** [~((((v & 0x7F..) + 0x7F..) | v) | 0x7F..)] on 64 bits is not zero. *)
Definition low7 : Z := 9187201950435737471.
Definition has_zero_byte (v : Z) : bool :=
  negb (wrap 64 (Z.lnot (Z.lor (Z.lor (wrap 64 (Z.land v low7 + low7)) v) low7)) =? 0).

(** The loop to the first zero of the next [n] bytes: how far [str_curr] moves. *)
Fixpoint first_zero (n : nat) (bs : list Z) : nat :=
  match n, bs with
  | S n, b :: bs => if b =? 0 then 0%nat else S (first_zero n bs)
  | _, _ => 0%nat
  end.

(** The inner loop over bytes below 0b1000'0000u, for a non-empty range. *)
Fixpoint ascii_run (zero_illegal : bool) (bs : list Z) (str_curr : nat)
    : u8result + list Z * nat :=
  match bs with
  | b :: rest =>
      if b <? 128 then
        if zero_illegal && (b =? 0) then inl (U8Result str_curr uec.contains_empty_characters)
        else match rest with
             | [] => inl (U8Result (S str_curr) uec.success)
             | _ => ascii_run zero_illegal rest (S str_curr)
             end
      else inr (bs, str_curr)
  | [] => inl (U8Result str_curr uec.success)
  end.

(** A sequence decoded from the 32-bit load [utf_8]. *)
Definition word_step (utf_8 : Z) : uec.code + nat :=
  if Z.land utf_8 224 =? 192 then
    if negb (Z.land utf_8 49152 =? 32768) then inl uec.too_short_sequence
    else
      let utf8_clean := Z.shiftr (u32 (Z.shiftl utf_8 16)) 16 in
      check_2 (Z.lor (lead_bits 2 utf8_clean) (continuation_bits 2 1 (Z.shiftr utf8_clean 8)))
  else if Z.land utf_8 240 =? 224 then
    if negb (Z.land utf_8 12632064 =? 8421376) then inl uec.too_short_sequence
    else
      let utf8_clean := Z.shiftr (u32 (Z.shiftl utf_8 8)) 8 in
      check_3 (Z.lor (Z.lor (lead_bits 3 utf8_clean) (continuation_bits 3 1 (Z.shiftr utf8_clean 8)))
        (continuation_bits 3 2 (Z.shiftr utf8_clean 16)))
  else if Z.land utf_8 248 =? 240 then
    if negb (Z.land utf_8 3233857536 =? 2155905024) then inl uec.too_short_sequence
    else
      check_4 (Z.lor (Z.lor (Z.lor (lead_bits 4 utf_8) (continuation_bits 4 1 (Z.shiftr utf_8 8)))
        (continuation_bits 4 2 (Z.shiftr utf_8 16))) (continuation_bits 4 3 (Z.shiftr utf_8 24)))
  else bad_header utf_8.

(** The two loads of sixteen bytes, when there are as many and none has its top bit. *)
Definition ascii_block (bs : list Z) : option (Z * Z) :=
  if 16 <=? zlen bs then
    let need_check1 := load_le 8 bs in
    let need_check2 := load_le 8 (drop 8 bs) in
    if Z.land (Z.lor need_check1 need_check2) 9259542123273814144 =? 0
    then Some (need_check1, need_check2) else None
  else None.

Fixpoint word_loop (fuel : nat) (zero_illegal : bool) (bs : list Z) (str_curr : nat)
    : option u8result :=
  match fuel with
  | O => None
  | S fuel =>
      match ascii_block bs with
      | Some (need_check1, need_check2) =>
          if zero_illegal && has_zero_byte need_check1 then
            Some (U8Result (str_curr + first_zero 8 bs) uec.contains_empty_characters)
          else if zero_illegal && has_zero_byte need_check2 then
            Some (U8Result (str_curr + 8 + first_zero 8 (drop 8 bs)) uec.contains_empty_characters)
          else word_loop fuel zero_illegal (drop 16 bs) (str_curr + 16)
      | None =>
          match bs with
          | [] => Some (U8Result str_curr uec.success)
          | _ =>
              match ascii_run zero_illegal bs str_curr with
              | inl r => Some r
              | inr (bs, str_curr) =>
                  if 4 <=? zlen bs then
                    match word_step (load_le 4 bs) with
                    | inl e => Some (U8Result str_curr e)
                    | inr n => word_loop fuel zero_illegal (drop n bs) (str_curr + n)
                    end
                  else scalar_loop (S (length bs)) zero_illegal bs str_curr
              end
          end
      end
  end.

(** [check_legal_utf8_rfc3629_unchecked<zero_illegal>]; [wide] is [is_little_endian &&
    char_bit_is_8] with a 64-bit [std::size_t]. *)
Definition check_legal_utf8_rfc3629_unchecked (wide zero_illegal : bool) (str : list Z)
    : option u8result :=
  if wide then word_loop (S (length str)) zero_illegal str 0
  else scalar_loop (S (length str)) zero_illegal str 0.
