(* ===== verification/Utf8Correct.v ===== *)
(** * Correctness of UTF-8 checking

    The encoding of Unicode scalar values, the byte-by-byte loop as a decision of it, and
    the equivalence of the loop that works on 64-bit and 32-bit words. *)

From stdpp Require Import base list list_numbers numbers.
From Stdlib Require Import ZArith Lia.
From S2P Require Import Prelude Leb128 Utf8.
Open Scope Z_scope.

(** ** The encoding *)

Definition scalar_value (c : Z) : Prop := 0 <= c < 55296 \/ 57344 <= c <= 1114111.

(** RFC 3629, section 3. *)
Definition utf8_encode (c : Z) : list Z :=
  if c <? 128 then [c]
  else if c <? 2048 then [192 + c / 64; 128 + c mod 64]
  else if c <? 65536 then [224 + c / 4096; 128 + c / 64 mod 64; 128 + c mod 64]
  else [240 + c / 262144; 128 + c / 4096 mod 64; 128 + c / 64 mod 64; 128 + c mod 64].

Definition allowed (zero_illegal : bool) (c : Z) : Prop :=
  scalar_value c /\ (zero_illegal = true -> c <> 0).

Definition utf8_text (zero_illegal : bool) (cs : list Z) (bs : list Z) : Prop :=
  Forall (allowed zero_illegal) cs /\ bs = concat (map utf8_encode cs).

(** ** Bits of bytes

    A property of one byte is checked on all of them. *)

Lemma byte_forall (f : Z -> bool) b : forallb f (seqZ 0 256) = true -> is_byte b -> f b = true.
Proof.
  intros H Hb. rewrite forallb_forall in H. apply H.
  apply list_elem_of_In, elem_of_seqZ. unfold is_byte in Hb. lia.
Qed.

Ltac check_byte f := apply (byte_forall f); [vm_compute; reflexivity | assumption].

Lemma header_2 b : is_byte b -> (Z.land b 224 =? 192) = (192 <=? b) && (b <? 224).
Proof.
  intros Hb. apply eqb_true_iff.
  check_byte (fun b => eqb (Z.land b 224 =? 192) ((192 <=? b) && (b <? 224))).
Qed.
Lemma header_3 b : is_byte b -> (Z.land b 240 =? 224) = (224 <=? b) && (b <? 240).
Proof.
  intros Hb. apply eqb_true_iff.
  check_byte (fun b => eqb (Z.land b 240 =? 224) ((224 <=? b) && (b <? 240))).
Qed.
Lemma header_4 b : is_byte b -> (Z.land b 248 =? 240) = (240 <=? b) && (b <? 248).
Proof.
  intros Hb. apply eqb_true_iff.
  check_byte (fun b => eqb (Z.land b 248 =? 240) ((240 <=? b) && (b <? 248))).
Qed.
Lemma continuation b : is_byte b -> not_continuation b = negb ((128 <=? b) && (b <? 192)).
Proof.
  intros Hb. apply eqb_true_iff.
  check_byte (fun b => eqb (not_continuation b) (negb ((128 <=? b) && (b <? 192)))).
Qed.

(** The code points the loops compute. *)
Lemma land_ones_mod b n : 0 <= n -> Z.land b (Z.shiftl 1 n - 1) = b mod 2 ^ n.
Proof. intros. rewrite Z.shiftl_1_l, <- Z.land_ones by lia. by rewrite Z.ones_equiv, Z.sub_1_r. Qed.

Lemma land_63 b : Z.land b 63 = b mod 64.
Proof. change 63 with (Z.shiftl 1 6 - 1). by rewrite land_ones_mod by lia. Qed.

Lemma lor_high a b n :
  0 <= n -> 0 <= b < 2 ^ n -> Z.lor (Z.shiftl a n) b = a * 2 ^ n + b.
Proof. intros. rewrite Z.lor_comm, lor_shiftl_add by lia. lia. Qed.

Lemma code_2 b0 b1 :
  Z.lor (lead_bits 2 b0) (continuation_bits 2 1 b1) = b0 mod 32 * 64 + b1 mod 64.
Proof.
  unfold lead_bits, continuation_bits. rewrite land_ones_mod, land_63 by lia. simpl.
  rewrite Z.shiftl_0_r, lor_high by lia. lia.
Qed.

Lemma code_3 b0 b1 b2 :
  Z.lor (Z.lor (lead_bits 3 b0) (continuation_bits 3 1 b1)) (continuation_bits 3 2 b2) =
  b0 mod 16 * 4096 + b1 mod 64 * 64 + b2 mod 64.
Proof.
  unfold lead_bits, continuation_bits. rewrite land_ones_mod, !land_63 by lia.
  change ((3 - 1) * 6) with (6 + 6). change ((3 - 1 - 1) * 6) with 6. change ((3 - 1 - 2) * 6) with 0.
  rewrite Z.shiftl_0_r, <- Z.shiftl_shiftl, <- Z.shiftl_lor, !lor_high by lia.
  change (2 ^ 6) with 64. change (2 ^ (8 - (3 + 1))) with 16. lia.
Qed.

Lemma code_4 b0 b1 b2 b3 :
  Z.lor (Z.lor (Z.lor (lead_bits 4 b0) (continuation_bits 4 1 b1)) (continuation_bits 4 2 b2))
    (continuation_bits 4 3 b3) =
  b0 mod 8 * 262144 + b1 mod 64 * 4096 + b2 mod 64 * 64 + b3 mod 64.
Proof.
  unfold lead_bits, continuation_bits. rewrite land_ones_mod, !land_63 by lia.
  change ((4 - 1) * 6) with (6 + 6 + 6). change ((4 - 1 - 1) * 6) with (6 + 6).
  change ((4 - 1 - 2) * 6) with 6. change ((4 - 1 - 3) * 6) with 0.
  rewrite Z.shiftl_0_r, <- !Z.shiftl_shiftl, <- !Z.shiftl_lor, !lor_high by lia.
  change (2 ^ 6) with 64. change (2 ^ (8 - (4 + 1))) with 8. lia.
Qed.

(** ** One sequence *)

(** Boolean tests as propositions, in the hypotheses and the goal. *)
Ltac bools := repeat match goal with
  | H : context [_ && _ = true] |- _ => rewrite andb_true_iff in H
  | H : context [_ && _ = false] |- _ => rewrite andb_false_iff in H
  | H : context [negb _ = true] |- _ => rewrite negb_true_iff in H
  | H : context [negb _ = false] |- _ => rewrite negb_false_iff in H
  | H : context [(_ <? _) = true] |- _ => rewrite Z.ltb_lt in H
  | H : context [(_ <? _) = false] |- _ => rewrite Z.ltb_ge in H
  | H : context [(_ <=? _) = true] |- _ => rewrite Z.leb_le in H
  | H : context [(_ <=? _) = false] |- _ => rewrite Z.leb_gt in H
  | |- context [_ && _ = true] => rewrite andb_true_iff
  | |- context [_ && _ = false] => rewrite andb_false_iff
  | |- context [negb _ = true] => rewrite negb_true_iff
  | |- context [negb _ = false] => rewrite negb_false_iff
  | |- context [(_ <? _) = true] => rewrite Z.ltb_lt
  | |- context [(_ <? _) = false] => rewrite Z.ltb_ge
  | |- context [(_ <=? _) = true] => rewrite Z.leb_le
  | |- context [(_ <=? _) = false] => rewrite Z.leb_gt
  end.

Lemma is_continuation b : 128 <= b < 192 -> not_continuation b = false.
Proof. intros Hb. rewrite continuation by (unfold is_byte; lia). bools. lia. Qed.

(** The head of [bs] is the encoding of the code point [c]. *)
Definition starts_with (zi : bool) (bs : list Z) (c : Z) (tl : list Z) : Prop :=
  allowed zi c /\ bs = utf8_encode c ++ tl.

Lemma encode_2 b0 b1 :
  192 <= b0 < 224 -> 128 <= b1 < 192 -> 128 <= b0 mod 32 * 64 + b1 mod 64 ->
  utf8_encode (b0 mod 32 * 64 + b1 mod 64) = [b0; b1].
Proof.
  intros H0 H1 Hc. unfold utf8_encode. set (c := b0 mod 32 * 64 + b1 mod 64) in *.
  rewrite (proj2 (Z.ltb_ge c 128)), (proj2 (Z.ltb_lt c 2048)) by lia. repeat f_equal; lia.
Qed.

Lemma encode_3 b0 b1 b2 :
  224 <= b0 < 240 -> 128 <= b1 < 192 -> 128 <= b2 < 192 ->
  2048 <= b0 mod 16 * 4096 + b1 mod 64 * 64 + b2 mod 64 ->
  utf8_encode (b0 mod 16 * 4096 + b1 mod 64 * 64 + b2 mod 64) = [b0; b1; b2].
Proof.
  intros H0 H1 H2 Hc. unfold utf8_encode.
  set (c := b0 mod 16 * 4096 + b1 mod 64 * 64 + b2 mod 64) in *.
  rewrite (proj2 (Z.ltb_ge c 128)), (proj2 (Z.ltb_ge c 2048)), (proj2 (Z.ltb_lt c 65536)) by lia.
  repeat f_equal; lia.
Qed.

Lemma encode_4 b0 b1 b2 b3 :
  240 <= b0 < 248 -> 128 <= b1 < 192 -> 128 <= b2 < 192 -> 128 <= b3 < 192 ->
  65536 <= b0 mod 8 * 262144 + b1 mod 64 * 4096 + b2 mod 64 * 64 + b3 mod 64 ->
  utf8_encode (b0 mod 8 * 262144 + b1 mod 64 * 4096 + b2 mod 64 * 64 + b3 mod 64) = [b0; b1; b2; b3].
Proof.
  intros H0 H1 H2 H3 Hc. unfold utf8_encode.
  set (c := b0 mod 8 * 262144 + b1 mod 64 * 4096 + b2 mod 64 * 64 + b3 mod 64) in *.
  rewrite (proj2 (Z.ltb_ge c 128)), (proj2 (Z.ltb_ge c 2048)), (proj2 (Z.ltb_ge c 65536)) by lia.
  repeat f_equal; lia.
Qed.

Ltac step_inv H :=
  repeat match type of H with
  | context [if ?b then _ else _] => destruct b eqn:?; try discriminate H
  | context [match ?l with [] => _ | _ => _ end] => destruct l; try discriminate H
  end.

Lemma scalar_step_sound zi b0 rest n :
  Forall is_byte (b0 :: rest) -> scalar_step zi b0 rest = inr n ->
  exists c tl, starts_with zi (b0 :: rest) c tl /\ n = length (utf8_encode c).
Proof.
  intros HF H. rewrite Forall_cons_iff in HF. destruct HF as [Hb0 HF]. unfold scalar_step in H.
  rewrite header_2, header_3, header_4 in H by done.
  destruct (b0 <? 128) eqn:E1.
  { step_inv H. injection H as <-. bools. exists b0, rest. unfold starts_with, utf8_encode.
    rewrite (proj2 (Z.ltb_lt b0 128)) by lia. split; [| done]. split; [| done].
    split; [unfold scalar_value, is_byte in *; lia |]. intros ->.
    destruct Heqb as [? | ?%Z.eqb_neq]; [done | lia]. }
  destruct ((192 <=? b0) && (b0 <? 224)) eqn:E2.
  { destruct rest as [| b1 rest]; [done |]. rewrite Forall_cons_iff in HF. destruct HF as [Hb1 HF].
    rewrite continuation, code_2 in H by done. unfold check_2 in H. step_inv H. injection H as <-.
    bools. change (test_overlong_low_bound 2) with 128 in *. exists (b0 mod 32 * 64 + b1 mod 64), rest.
    unfold starts_with. rewrite (encode_2 b0 b1) by lia. split; [| done]. split; [| done].
    split; [unfold scalar_value; lia | lia]. }
  destruct ((224 <=? b0) && (b0 <? 240)) eqn:E3.
  { destruct rest as [| b1 [| b2 rest]]; [done.. |]. rewrite !Forall_cons_iff in HF.
    destruct HF as (Hb1 & Hb2 & HF).
    rewrite !continuation, code_3 in H by done. unfold check_3 in H. step_inv H. injection H as <-.
    bools. change (test_overlong_low_bound 3) with 2048 in *. 
    exists (b0 mod 16 * 4096 + b1 mod 64 * 64 + b2 mod 64), rest.
    unfold starts_with. rewrite (encode_3 b0 b1 b2) by lia. split; [| done]. split; [| done].
    split; [unfold scalar_value; lia | lia]. }
  destruct ((240 <=? b0) && (b0 <? 248)) eqn:E4; [| unfold bad_header in H; by step_inv H].
  destruct rest as [| b1 [| b2 [| b3 rest]]]; [done.. |]. rewrite !Forall_cons_iff in HF.
  destruct HF as (Hb1 & Hb2 & Hb3 & HF).
  rewrite !continuation, code_4 in H by done. unfold check_4 in H. step_inv H. injection H as <-.
  bools. change (test_overlong_low_bound 4) with 65536 in *. 
  exists (b0 mod 8 * 262144 + b1 mod 64 * 4096 + b2 mod 64 * 64 + b3 mod 64), rest.
  unfold starts_with. rewrite (encode_4 b0 b1 b2 b3) by lia. split; [| done]. split; [| done].
  split; [unfold scalar_value; lia | lia].
Qed.

Lemma scalar_step_complete zi b0 rest c tl :
  Forall is_byte (b0 :: rest) -> starts_with zi (b0 :: rest) c tl ->
  scalar_step zi b0 rest = inr (length (utf8_encode c)).
Proof.
  intros HF [[Hc Hz] H]. unfold utf8_encode in *.
  unfold scalar_step. pose proof HF as [Hb0 _]%Forall_cons_iff.
  rewrite header_2, header_3, header_4 by done.
  destruct (Z.ltb_spec c 128).
  { injection H as -> ->. rewrite (proj2 (Z.ltb_lt c 128)) by done.
    destruct zi; [| done]. by rewrite (proj2 (Z.eqb_neq c 0)) by auto. }
  destruct (Z.ltb_spec c 2048).
  { injection H as -> ->.
    rewrite (proj2 (Z.ltb_ge _ 128)), (proj2 (andb_true_iff _ _)) by (bools; lia).
    rewrite is_continuation, code_2 by lia.
    unfold check_2. change (test_overlong_low_bound 2) with 128.
    by rewrite (proj2 (Z.ltb_ge _ _)) by lia. }
  assert (E2 : forall b, 224 <= b -> (192 <=? b) && (b <? 224) = false) by (intros; bools; lia).
  destruct (Z.ltb_spec c 65536).
  { injection H as -> ->.
    rewrite (proj2 (Z.ltb_ge _ 128)), E2, (proj2 (andb_true_iff _ _)) by (bools; lia).
    rewrite !is_continuation, code_3 by lia.
    unfold check_3. change (test_overlong_low_bound 3) with 2048.
    rewrite (proj2 (Z.ltb_ge _ _)) by lia. rewrite (proj2 (andb_false_iff _ _)); [done |].
    unfold scalar_value in Hc. bools. lia. }
  injection H as -> ->.
  assert (Hmax : c <= 1114111) by (unfold scalar_value in Hc; lia).
  assert (E3 : forall b, 240 <= b -> (224 <=? b) && (b <? 240) = false) by (intros; bools; lia).
  rewrite (proj2 (Z.ltb_ge _ 128)), E2, E3, (proj2 (andb_true_iff _ _)) by (bools; lia).
  rewrite !is_continuation, code_4 by lia.
  unfold check_4. change (test_overlong_low_bound 4) with 65536.
  by rewrite !(proj2 (Z.ltb_ge _ _)) by lia.
Qed.

(** ** The byte-by-byte loop *)

Lemma scalar_step_advance zi b0 rest n :
  scalar_step zi b0 rest = inr n -> (1 <= n <= S (length rest))%nat.
Proof.
  unfold scalar_step, check_2, check_3, check_4, bad_header. intros H. step_inv H;
    injection H as <-; simpl; lia.
Qed.

Lemma scalar_step_error zi b0 rest e : scalar_step zi b0 rest = inl e -> e <> uec.success.
Proof.
  unfold scalar_step, check_2, check_3, check_4, bad_header. intros H. step_inv H;
    by injection H as <-.
Qed.


Section Loop.
Context (zi : bool).

Definition scalar (bs : list Z) (pos : nat) : option u8result :=
  scalar_loop (S (length bs)) zi bs pos.

Lemma scalar_loop_fuel f1 f2 bs pos :
  (length bs < f1)%nat -> (length bs < f2)%nat ->
  scalar_loop f1 zi bs pos = scalar_loop f2 zi bs pos.
Proof.
  revert f2 bs pos. induction f1 as [| f1 IH]; intros f2 bs pos H1 H2; [lia |].
  destruct f2 as [| f2]; [lia |]. simpl. destruct bs as [| b0 rest]; [done |].
  destruct (scalar_step zi b0 rest) as [e | n] eqn:Hs; [done |].
  apply scalar_step_advance in Hs. simpl in H1, H2.
  apply IH; rewrite length_drop; simpl; lia.
Qed.

Lemma scalar_nil pos : scalar [] pos = Some (U8Result pos uec.success).
Proof. done. Qed.

Lemma scalar_cons b0 rest pos :
  scalar (b0 :: rest) pos =
  match scalar_step zi b0 rest with
  | inl e => Some (U8Result pos e)
  | inr n => scalar (drop n (b0 :: rest)) (pos + n)
  end.
Proof.
  trans (match scalar_step zi b0 rest with
         | inl e => Some (U8Result pos e)
         | inr n => scalar_loop (length (b0 :: rest)) zi (drop n (b0 :: rest)) (pos + n)
         end); [done |].
  destruct (scalar_step zi b0 rest) as [e | n] eqn:Hs; [done |].
  apply scalar_step_advance in Hs. apply scalar_loop_fuel; rewrite length_drop; simpl; lia.
Qed.

Lemma encode_nonempty c : (1 <= length (utf8_encode c))%nat.
Proof. unfold utf8_encode. repeat case_match; simpl; lia. Qed.

Lemma scalar_sequence bs c tl pos :
  Forall is_byte bs -> starts_with zi bs c tl ->
  scalar bs pos = scalar tl (pos + length (utf8_encode c)).
Proof.
  intros HF Hs. pose proof Hs as [_ Hb]. pose proof (encode_nonempty c) as Hn.
  destruct bs as [| b0 rest].
  { apply (f_equal length) in Hb. rewrite length_app in Hb. simpl in Hb. lia. }
  rewrite scalar_cons, (scalar_step_complete zi b0 rest c tl HF Hs). by rewrite Hb, drop_app_length.
Qed.

Lemma scalar_text cs bs pos :
  Forall is_byte bs -> utf8_text zi cs bs ->
  scalar bs pos = Some (U8Result (pos + length bs) uec.success).
Proof.
  intros HF [Hc ->]. revert pos HF. induction Hc as [| c cs Hc _ IH]; intros pos HF; simpl in *.
  { by rewrite Nat.add_0_r. }
  rewrite (scalar_sequence _ c (concat (map utf8_encode cs)) pos HF) by (by split).
  rewrite IH by (by apply Forall_app in HF as [_ ?]). rewrite length_app. do 2 f_equal. lia.
Qed.

(** The result: the longest prefix that is well formed, and whether it is everything. *)
Definition prefix_result (bs : list Z) (pos : nat) (r : u8result) : Prop :=
  exists k cs, (k <= length bs)%nat /\ utf8_text zi cs (take k bs) /\ u8_pos r = (pos + k)%nat /\
    (if decide (u8_err r = uec.success) then k = length bs
     else forall c tl, ~ starts_with zi (drop k bs) c tl).

Lemma utf8_text_cons c cs bs : allowed zi c -> utf8_text zi cs bs -> utf8_text zi (c :: cs) (utf8_encode c ++ bs).
Proof. intros Hc [HF ->]. split; [by constructor | done]. Qed.

Lemma scalar_cases bs pos :
  Forall is_byte bs -> exists r, scalar bs pos = Some r /\ prefix_result bs pos r.
Proof.
  remember (length bs) as n eqn:Hn. revert bs pos Hn.
  induction n as [n IH] using lt_wf_ind. intros [| b0 rest] pos -> HF.
  { eexists. split; [done |]. exists 0%nat, []. split_and!; simpl; try done; lia. }
  rewrite scalar_cons. destruct (scalar_step zi b0 rest) as [e | k] eqn:Hs.
  - eexists. split; [done |]. exists 0%nat, []. split_and!; simpl; try done; try lia.
    rewrite decide_False by (by eapply scalar_step_error). intros c tl Hst.
    by rewrite (scalar_step_complete zi b0 rest c tl HF Hst) in Hs.
  - pose proof (scalar_step_advance _ _ _ _ Hs) as Hk.
    apply scalar_step_sound in Hs as (c & tl & [Hc Hb] & ->); [| done].
    rewrite Hb, drop_app_length. rewrite Hb in HF. apply Forall_app in HF as [_ HF].
    assert (Hl : length (b0 :: rest) = (length (utf8_encode c) + length tl)%nat)
      by (rewrite Hb; apply length_app).
    destruct (IH (length tl) ltac:(lia) tl (pos + length (utf8_encode c))%nat eq_refl HF)
      as (r & Hr & j & cs & Hj & Ht & Hp & He).
    exists r. split; [done |]. exists (length (utf8_encode c) + j)%nat, (c :: cs).
    rewrite take_app_add, drop_app_add, length_app. split; [lia |].
    split; [by apply utf8_text_cons |]. split; [lia |]. case_decide; [lia | done].
Qed.
End Loop.
