(* ===== verification/Utf8Words.v ===== *)
(** * UTF-8 checking by words

    The loop on 64-bit and 32-bit loads computes what the byte-by-byte loop computes:
    bitwise operations on a load act on its bytes. *)

From stdpp Require Import base list list_numbers numbers.
From Stdlib Require Import ZArith Lia.
From S2P Require Import Prelude Leb128 Utf8 Utf8Correct.
Open Scope Z_scope.

(** ** Operations on words, byte by byte *)

Lemma testbit_byte a x i :
  is_byte a -> 0 <= i ->
  Z.testbit (a + 256 * x) i = if i <? 8 then Z.testbit a i else Z.testbit x (i - 8).
Proof.
  intros Ha Hi. unfold is_byte in Ha.
  replace (a + 256 * x) with (Z.lor a (Z.shiftl x 8)) by (rewrite lor_shiftl_add by lia; lia).
  rewrite Z.lor_spec, Z.shiftl_spec by lia. destruct (Z.ltb_spec i 8).
  - by rewrite (Z.testbit_neg_r x), orb_false_r by lia.
  - rewrite <- (Z.mod_small a (2 ^ 8)) by lia. by rewrite Z.mod_pow2_bits_high by lia.
Qed.

Lemma land_is_byte a b : is_byte a -> is_byte b -> is_byte (Z.land a b).
Proof.
  intros Ha Hb. unfold is_byte in *. rewrite <- (Z.mod_small a (2 ^ 8)) by lia.
  rewrite <- Z.land_ones, <- Z.land_assoc, (Z.land_comm (Z.ones 8)), Z.land_assoc, Z.land_ones by lia. lia.
Qed.

Lemma lor_is_byte a b : is_byte a -> is_byte b -> is_byte (Z.lor a b).
Proof.
  intros Ha Hb. unfold is_byte in *.
  rewrite <- (Z.mod_small a (2 ^ 8)), <- (Z.mod_small b (2 ^ 8)) by lia.
  rewrite <- !Z.land_ones, <- Z.land_lor_distr_l, Z.land_ones by lia. lia.
Qed.

Lemma land_byte a b x y :
  is_byte a -> is_byte b -> Z.land (a + 256 * x) (b + 256 * y) = Z.land a b + 256 * Z.land x y.
Proof.
  intros Ha Hb. apply Z.bits_inj'. intros i Hi.
  rewrite Z.land_spec, !testbit_byte by auto using land_is_byte.
  by destruct (i <? 8); rewrite Z.land_spec.
Qed.

Lemma lor_byte a b x y :
  is_byte a -> is_byte b -> Z.lor (a + 256 * x) (b + 256 * y) = Z.lor a b + 256 * Z.lor x y.
Proof.
  intros Ha Hb. apply Z.bits_inj'. intros i Hi.
  rewrite Z.lor_spec, !testbit_byte by auto using lor_is_byte.
  by destruct (i <? 8); rewrite Z.lor_spec.
Qed.

(** Masking the low byte. *)
Lemma land_low a x m : is_byte a -> is_byte m -> Z.land (a + 256 * x) m = Z.land a m.
Proof.
  intros Ha Hm. pose proof (land_byte a m x 0 Ha Hm) as H.
  rewrite Z.mul_0_r, Z.add_0_r, Z.land_0_r, Z.mul_0_r, Z.add_0_r in H. done.
Qed.

Ltac is_byte := first [assumption | unfold is_byte; lia].

(** ** A sequence from one load *)

Section Word.
Context (b0 b1 b2 b3 : Z).
Context (H0 : is_byte b0) (H1 : is_byte b1) (H2 : is_byte b2) (H3 : is_byte b3).
Let w := b0 + 256 * (b1 + 256 * (b2 + 256 * (b3 + 256 * 0))).

Lemma land_w m0 m1 m2 m3 :
  is_byte m0 -> is_byte m1 -> is_byte m2 -> is_byte m3 ->
  Z.land w (m0 + 256 * (m1 + 256 * (m2 + 256 * (m3 + 256 * 0)))) =
  Z.land b0 m0 + 256 * (Z.land b1 m1 + 256 * (Z.land b2 m2 + 256 * (Z.land b3 m3 + 256 * 0))).
Proof using H0 H1 H2 H3.
  intros. unfold w. rewrite !land_byte by done. by rewrite Z.land_0_l.
Qed.

Lemma mask_2 : (Z.land w 49152 =? 32768) = (Z.land b1 192 =? 128).
Proof using H0 H1 H2 H3.
  change 49152 with (0 + 256 * (192 + 256 * (0 + 256 * (0 + 256 * 0)))).
  rewrite land_w by is_byte. rewrite !Z.land_0_r. lia.
Qed.

Lemma mask_3 :
  (Z.land w 12632064 =? 8421376) = (Z.land b1 192 =? 128) && (Z.land b2 192 =? 128).
Proof using H0 H1 H2 H3.
  change 12632064 with (0 + 256 * (192 + 256 * (192 + 256 * (0 + 256 * 0)))).
  rewrite land_w by is_byte. rewrite !Z.land_0_r.
  pose proof (land_is_byte b1 192 H1 ltac:(is_byte)) as B1.
  pose proof (land_is_byte b2 192 H2 ltac:(is_byte)) as B2. unfold is_byte in *. lia.
Qed.

Lemma mask_4 :
  (Z.land w 3233857536 =? 2155905024) =
  (Z.land b1 192 =? 128) && (Z.land b2 192 =? 128) && (Z.land b3 192 =? 128).
Proof using H0 H1 H2 H3.
  change 3233857536 with (0 + 256 * (192 + 256 * (192 + 256 * (192 + 256 * 0)))).
  rewrite land_w by is_byte. rewrite !Z.land_0_r.
  pose proof (land_is_byte b1 192 H1 ltac:(is_byte)) as B1.
  pose proof (land_is_byte b2 192 H2 ltac:(is_byte)) as B2.
  pose proof (land_is_byte b3 192 H3 ltac:(is_byte)) as B3. unfold is_byte in *. lia.
Qed.

Lemma w_range : 0 <= w < 2 ^ 32.
Proof using H0 H1 H2 H3. unfold w, is_byte in *. lia. Qed.

(** Clearing the high bytes. *)
Lemma clean v k : 0 <= k <= 32 -> Z.shiftr (u32 (Z.shiftl v k)) k = v mod 2 ^ (32 - k).
Proof.
  intros Hk. unfold u32, wrap. rewrite Z.shiftr_div_pow2, Z.shiftl_mul_pow2 by lia.
  replace (2 ^ 32) with (2 ^ (32 - k) * 2 ^ k) by (rewrite <- Z.pow_add_r by lia; f_equal; lia).
  rewrite Z.mul_mod_distr_r, Z.div_mul by lia. done.
Qed.

Lemma bad_header_low x a : is_byte a -> bad_header (a + 256 * x) = bad_header a.
Proof. intros Ha. unfold bad_header. by rewrite land_low by is_byte. Qed.

Lemma lead_bits_low n x a :
  is_byte a -> 1 <= n <= 7 -> lead_bits n (a + 256 * x) = lead_bits n a.
Proof.
  intros Ha Hn. unfold lead_bits. rewrite land_low; [done.. |]. unfold is_byte.
  rewrite Z.shiftl_1_l. pose proof (Z.pow_le_mono_r 2 (8 - (n + 1)) 8 ltac:(lia) ltac:(lia)).
  pose proof (Z.pow_pos_nonneg 2 (8 - (n + 1)) ltac:(lia) ltac:(lia)). lia.
Qed.

Lemma continuation_bits_low n k x a :
  is_byte a -> continuation_bits n k (a + 256 * x) = continuation_bits n k a.
Proof. intros Ha. unfold continuation_bits. by rewrite land_low by is_byte. Qed.

Lemma word_step_eq zi rest :
  128 <= b0 -> word_step w = scalar_step zi b0 (b1 :: b2 :: b3 :: rest).
Proof using H0 H1 H2 H3.
  intros Hb. unfold word_step, scalar_step, not_continuation.
  rewrite (proj2 (Z.ltb_ge b0 128)) by lia.
  rewrite mask_2, mask_3, mask_4.
  assert (S1 : Z.shiftr w 8 = b1 + 256 * (b2 + 256 * (b3 + 256 * 0)))
    by (rewrite Z.shiftr_div_pow2 by lia; unfold w, is_byte in *; lia).
  assert (S2 : Z.shiftr w 16 = b2 + 256 * (b3 + 256 * 0))
    by (rewrite Z.shiftr_div_pow2 by lia; unfold w, is_byte in *; lia).
  assert (S3 : Z.shiftr w 24 = b3 + 256 * 0)
    by (rewrite Z.shiftr_div_pow2 by lia; unfold w, is_byte in *; lia).
  rewrite S1, S2, S3. rewrite !continuation_bits_low by done.
  assert (C2 : Z.shiftr (u32 (Z.shiftl w 16)) 16 = b0 + 256 * (b1 + 256 * 0))
    by (rewrite clean by lia; change (2 ^ (32 - 16)) with 65536; unfold w, is_byte in *; lia).
  assert (C3 : Z.shiftr (u32 (Z.shiftl w 8)) 8 = b0 + 256 * (b1 + 256 * (b2 + 256 * 0)))
    by (rewrite clean by lia; change (2 ^ (32 - 8)) with 16777216; unfold w, is_byte in *; lia).
  assert (D2 : Z.shiftr (b0 + 256 * (b1 + 256 * 0)) 8 = b1 + 256 * 0)
    by (rewrite Z.shiftr_div_pow2 by lia; unfold is_byte in *; lia).
  assert (D3 : Z.shiftr (b0 + 256 * (b1 + 256 * (b2 + 256 * 0))) 8 = b1 + 256 * (b2 + 256 * 0))
    by (rewrite Z.shiftr_div_pow2 by lia; unfold is_byte in *; lia).
  assert (D3' : Z.shiftr (b0 + 256 * (b1 + 256 * (b2 + 256 * 0))) 16 = b2 + 256 * 0)
    by (rewrite Z.shiftr_div_pow2 by lia; unfold is_byte in *; lia).
  cbv zeta. rewrite C2, C3, D2, D3, D3', !continuation_bits_low by done.
  unfold w. rewrite !lead_bits_low, !land_low, bad_header_low by is_byte.
  destruct (Z.land b1 192 =? 128), (Z.land b2 192 =? 128), (Z.land b3 192 =? 128); done.
Qed.
End Word.

(** ** Blocks of ASCII *)

Lemma load_le_range n bs : Forall is_byte bs -> 0 <= load_le n bs < 256 ^ Z.of_nat n.
Proof.
  revert bs. induction n as [| n IH]; intros bs HF; [simpl; lia |].
  rewrite Nat2Z.inj_succ, Z.pow_succ_r by lia.
  pose proof (Z.pow_pos_nonneg 256 (Z.of_nat n) ltac:(lia) ltac:(lia)).
  destruct HF as [| b bs Hb HF]; simpl; [lia |]. specialize (IH bs HF).
  unfold is_byte in Hb. change (2 ^ 8) with 256 in Hb. lia.
Qed.

(** Words that repeat one byte. *)
Abbreviation rep n b := (load_le n (replicate n b)).

Lemma load_le_top n xs ys :
  Forall is_byte xs -> Forall is_byte ys -> (n <= length xs)%nat -> (n <= length ys)%nat ->
  Z.land (Z.lor (load_le n xs) (load_le n ys)) (rep n 128) = 0 <->
  Forall (fun b => b < 128) (take n xs) /\ Forall (fun b => b < 128) (take n ys).
Proof.
  revert xs ys. induction n as [| n IH]; intros xs ys Hx Hy Lx Ly; [simpl; by split |].
  destruct Hx as [| x xs Bx Hx], Hy as [| y ys By Hy]; simpl in Lx, Ly; try lia.
  specialize (IH xs ys Hx Hy ltac:(lia) ltac:(lia)). simpl.
  rewrite lor_byte, land_byte by first [done | by apply lor_is_byte | is_byte].
  rewrite !Forall_cons_iff. set (r := Z.land (Z.lor (load_le n xs) _) _) in *.
  assert (Hr : 0 <= r) by (apply Z.land_nonneg; left; apply Z.lor_nonneg; split; apply load_le_range; done).
  assert (Hb : Z.land (Z.lor x y) 128 = 0 <-> x < 128 /\ y < 128).
  { rewrite Z.land_lor_distr_l, Z.lor_eq_0_iff.
    pose proof (land_pow2_eqb x 7 ltac:(lia) Bx). pose proof (land_pow2_eqb y 7 ltac:(lia) By).
    change (2 ^ 7) with 128 in *. lia. }
  pose proof (land_is_byte (Z.lor x y) 128 ltac:(by apply lor_is_byte) ltac:(is_byte)) as [Hn _].
  split.
  - intros H. assert (Z.land (Z.lor x y) 128 = 0 /\ r = 0) as [E1 E2] by lia. tauto.
  - intros ((? & ?) & (? & ?)). assert (Z.land (Z.lor x y) 128 = 0) as -> by tauto.
    assert (r = 0) as -> by tauto. done.
Qed.

Lemma ascii_block_Some bs n1 n2 :
  Forall is_byte bs -> ascii_block bs = Some (n1, n2) ->
  (16 <= length bs)%nat /\ n1 = load_le 8 bs /\ n2 = load_le 8 (drop 8 bs) /\
  Forall (fun b => b < 128) (take 8 bs) /\ Forall (fun b => b < 128) (take 8 (drop 8 bs)).
Proof.
  intros HF. unfold ascii_block, zlen. destruct (Z.leb_spec 16 (Z.of_nat (length bs))); [| done].
  cbv zeta. destruct (Z.eqb_spec (Z.land (Z.lor (load_le 8 bs) (load_le 8 (drop 8 bs))) 9259542123273814144) 0)
    as [E |]; [| done]. intros [= <- <-]. change 9259542123273814144 with (rep 8 128) in E.
  apply load_le_top in E; [| done | by apply Forall_drop | lia | rewrite length_drop; lia].
  split; [lia | done].
Qed.

(** The zero-byte test: no carry crosses a byte, and the byte [b] of the word becomes 255
    unless [b] is zero. *)
Definition zero_mask (b : Z) : Z := Z.lor (Z.lor (Z.land b 127 + 127) b) 127.

Lemma zero_mask_byte b : is_byte b -> is_byte (zero_mask b) /\ (zero_mask b = 255 <-> b <> 0).
Proof.
  intros Hb. assert (H : ((0 <=? zero_mask b) && (zero_mask b <? 256) &&
    eqb (zero_mask b =? 255) (negb (b =? 0)))%bool = true).
  { check_byte (fun b => ((0 <=? zero_mask b) && (zero_mask b <? 256) &&
      eqb (zero_mask b =? 255) (negb (b =? 0)))%bool). }
  rewrite !andb_true_iff, eqb_true_iff in H. unfold is_byte. lia.
Qed.

Lemma masked_byte b : is_byte (Z.land b 127 + 127).
Proof. rewrite land_127. unfold is_byte. pose proof (Z.mod_pos_bound b (2 ^ 7)). lia. Qed.

Lemma masked_word n bs :
  Forall is_byte bs -> (n <= length bs)%nat ->
  Z.land (load_le n bs) (rep n 127) + rep n 127 = load_le n (map (fun b => Z.land b 127 + 127) bs).
Proof.
  revert bs. induction n as [| n IH]; intros bs HF Hl; [done |].
  destruct HF as [| b bs Hb HF]; simpl in Hl; [lia |]. simpl.
  rewrite <- IH, land_byte by first [done | lia | is_byte]. lia.
Qed.

Lemma zero_mask_word n bs :
  Forall is_byte bs -> (n <= length bs)%nat ->
  Z.lor (Z.lor (Z.land (load_le n bs) (rep n 127) + rep n 127) (load_le n bs)) (rep n 127) =
  load_le n (map zero_mask bs).
Proof.
  revert bs. induction n as [| n IH]; intros bs HF Hl; [done |].
  destruct HF as [| b bs Hb HF]; simpl in Hl; [lia |].
  rewrite (masked_word (S n) (b :: bs)) by first [by constructor | simpl; lia]. simpl.
  rewrite !lor_byte by first [done | apply lor_is_byte; [apply masked_byte | done] | apply masked_byte | is_byte].
  by rewrite <- IH, masked_word by first [done | lia].
Qed.

Lemma load_le_255 n bs :
  Forall is_byte bs -> (n <= length bs)%nat ->
  load_le n bs = rep n 255 <-> Forall (fun b => b = 255) (take n bs).
Proof.
  revert bs. induction n as [| n IH]; intros bs HF Hl; [simpl; by split |].
  destruct HF as [| b bs Hb HF]; simpl in Hl; [lia |].
  specialize (IH bs HF ltac:(lia)). simpl. rewrite Forall_cons_iff, <- IH.
  unfold is_byte in Hb. lia.
Qed.

Lemma first_zero_bound n bs : (first_zero n bs <= n)%nat.
Proof. revert bs. induction n as [| n IH]; intros [| b bs]; simpl; try lia. specialize (IH bs). case_match; lia. Qed.

Lemma first_zero_none n bs :
  (n <= length bs)%nat -> Forall (fun b => b <> 0) (take n bs) <-> first_zero n bs = n.
Proof.
  revert bs. induction n as [| n IH]; intros [| b bs] Hl; simpl in *; try lia; [by split.. |].
  rewrite Forall_cons_iff, IH by lia. pose proof (first_zero_bound n bs).
  destruct (Z.eqb_spec b 0); lia.
Qed.

Lemma has_zero_byte_eq bs :
  Forall is_byte bs -> (8 <= length bs)%nat ->
  has_zero_byte (load_le 8 bs) = negb (first_zero 8 bs =? 8)%nat.
Proof.
  intros HF Hl. unfold has_zero_byte. change low7 with (rep 8 127).
  pose proof (load_le_range 8 bs HF) as Hr. change (256 ^ Z.of_nat 8) with (2 ^ 64) in Hr.
  assert (Hm : Forall is_byte (map zero_mask bs)).
  { rewrite Forall_map. eapply Forall_impl; [| exact HF]. intros b Hb. by apply zero_mask_byte. }
  pose proof (load_le_range 8 _ Hm) as Hr'. change (256 ^ Z.of_nat 8) with (2 ^ 64) in Hr'.
  assert (Hs : wrap 64 (Z.land (load_le 8 bs) (rep 8 127) + rep 8 127) =
               Z.land (load_le 8 bs) (rep 8 127) + rep 8 127).
  { unfold wrap. apply Z.mod_small.
    rewrite masked_word by done. apply (load_le_range 8).
    rewrite Forall_map. apply Forall_true. intros b. apply masked_byte. }
  rewrite Hs, zero_mask_word by done. f_equal. unfold wrap. rewrite Z.lnot_eq_pred_opp.
  replace ((- load_le 8 (map zero_mask bs) - 1) mod 2 ^ 64) with
    (2 ^ 64 - 1 - load_le 8 (map zero_mask bs)) by (apply (Z.mod_unique _ _ (-1)); lia).
  assert (E : (2 ^ 64 - 1 - load_le 8 (map zero_mask bs) =? 0) =
              (load_le 8 (map zero_mask bs) =? rep 8 255)) by (change (rep 8 255) with (2 ^ 64 - 1); lia).
  rewrite E. apply eq_true_iff_eq. rewrite Z.eqb_eq, Nat.eqb_eq, load_le_255, <- first_zero_none by
    first [done | by rewrite length_map].
  rewrite firstn_map, Forall_map. apply (Forall_take _ 8) in HF.
  induction HF as [| b l Hb HF' IH]; [by split |]. rewrite !Forall_cons_iff, IH.
  by rewrite (proj2 (zero_mask_byte b Hb)).
Qed.

(** ** The loop *)

Section Loop.
Context (zi : bool).
Abbreviation scalar := (scalar zi).

Lemma scalar_ascii b rest pos :
  b < 128 ->
  scalar (b :: rest) pos =
  if zi && (b =? 0) then Some (U8Result pos uec.contains_empty_characters) else scalar rest (S pos).
Proof.
  intros Hb. rewrite scalar_cons. unfold scalar_step. rewrite (proj2 (Z.ltb_lt b 128)) by done.
  destruct (zi && (b =? 0)); [done |]. simpl. by rewrite Nat.add_1_r.
Qed.

(** Over ASCII bytes the loop stops at the first zero, when zeros are illegal. *)
Lemma scalar_skip n bs pos :
  (n <= length bs)%nat -> Forall (fun b => b < 128) (take n bs) ->
  scalar bs pos =
  if zi && negb (first_zero n bs =? n)%nat
  then Some (U8Result (pos + first_zero n bs) uec.contains_empty_characters)
  else scalar (drop n bs) (pos + n).
Proof.
  revert bs pos. induction n as [| n IH]; intros bs pos Hl HF.
  { simpl. rewrite andb_false_r, Nat.add_0_r. done. }
  destruct bs as [| b bs]; [simpl in Hl; lia |]. simpl in Hl, HF. apply Forall_cons_iff in HF as [Hb HF].
  rewrite scalar_ascii by done. simpl. destruct (Z.eqb_spec b 0); simpl.
  { destruct zi; simpl; [by rewrite Nat.add_0_r |]. rewrite IH by first [lia | done]. simpl.
    f_equal. lia. }
  rewrite andb_false_r, IH by first [lia | done].
  change (S (first_zero n bs) =? S n)%nat with (first_zero n bs =? n)%nat.
  by rewrite !Nat.add_succ_r.
Qed.

Lemma ascii_run_cases bs pos :
  bs <> [] ->
  match ascii_run zi bs pos with
  | inl r => scalar bs pos = Some r
  | inr (bs', pos') =>
      scalar bs pos = scalar bs' pos' /\ (length bs' <= length bs)%nat /\
      bs' `suffix_of` bs /\ exists b rest, bs' = b :: rest /\ 128 <= b
  end.
Proof.
  revert pos. induction bs as [| b bs IH]; intros pos Hne; [done |]. simpl.
  destruct (Z.ltb_spec b 128) as [Hb | Hb].
  2: { split_and!; try done. by exists b, bs. }
  rewrite scalar_ascii by done. destruct (zi && (b =? 0)); [done |].
  destruct bs as [| b' bs]; [done |].
  specialize (IH (S pos) ltac:(done)). destruct (ascii_run zi (b' :: bs) (S pos)) as [r | [bs' pos']]; [done |].
  destruct IH as (? & ? & ? & ?). split_and!; try done; [simpl in *; lia |]. by apply suffix_cons_r.
Qed.

Lemma word_loop_scalar fuel bs pos :
  Forall is_byte bs -> (length bs < fuel)%nat -> word_loop fuel zi bs pos = scalar bs pos.
Proof.
  revert bs pos. induction fuel as [| fuel IH]; intros bs pos HF Hf; [lia |]. simpl.
  destruct (ascii_block bs) as [[n1 n2] |] eqn:Hb.
  - apply ascii_block_Some in Hb as (Hl & -> & -> & Ha1 & Ha2); [| done].
    rewrite !has_zero_byte_eq by first [by apply Forall_drop | done | rewrite ?length_drop; lia].
    rewrite (scalar_skip 8 bs) by first [done | lia].
    rewrite (scalar_skip 8 (drop 8 bs)) by first [done | rewrite length_drop; lia].
    destruct (zi && negb (first_zero 8 bs =? 8)%nat); [done |].
    destruct (zi && negb (first_zero 8 (drop 8 bs) =? 8)%nat); [done |].
    rewrite drop_drop, IH by first [by apply Forall_drop | rewrite length_drop; lia].
    f_equal; lia.
  - destruct bs as [| b bs]; [done |]. pose proof (ascii_run_cases (b :: bs) pos ltac:(done)) as Ha.
    destruct (ascii_run zi (b :: bs) pos) as [r | [bs' pos']]; [done |].
    destruct Ha as (-> & Hl & Hsuf & b0 & rest & -> & Hb0).
    assert (HF' : Forall is_byte (b0 :: rest)) by (destruct Hsuf as [k Hk]; rewrite Hk in HF; by apply Forall_app in HF as [_ ?]).
    unfold zlen. destruct (Z.leb_spec 4 (Z.of_nat (length (b0 :: rest)))); [| done].
    destruct rest as [| b1 [| b2 [| b3 rest]]]; simpl in H; try lia.
    pose proof HF' as HF4. rewrite !Forall_cons_iff in HF4. destruct HF4 as (B0 & B1 & B2 & B3 & _).
    simpl load_le. rewrite (word_step_eq b0 b1 b2 b3 B0 B1 B2 B3 zi rest) by lia.
    rewrite scalar_cons. destruct (scalar_step zi b0 _) as [e | n] eqn:Hs; [done |].
    apply scalar_step_advance in Hs. apply IH; [by apply Forall_drop |].
    rewrite length_drop. simpl in *. lia.
Qed.
End Loop.
