(* ===== verification/ParserBase.v ===== *)
(** * Section parsers: errors, cursor and counters

    What the section parsers of [parser/wasm/standard/wasm1/features/] share: the
    error object of [parser/wasm/base/error_code.h], the storage the sections are
    parsed into, the bounded cursor over the bytes of the module, and the checked
    counters of [parser/wasm/utils/base.h].

    The module is one list of bytes and every pointer is an offset into it, so that
    [section_begin], [section_end], [code_end] and the pointers kept in the storage
    (parameter lists, expressions, the zero-copy view of type indices) denote
    positions of the same object. *)

From stdpp Require Import base list numbers strings.
From Stdlib Require Import ZArith Lia.
From S2P Require Import Prelude Leb128 WasmTypes.

(** ** Errors *)

Module wasm_parse_error_code.
Inductive code :=
  | ok | illegal_begin_pointer | illegal_wasm_file_format | no_wasm_section_found
  | invalid_section_length | illegal_section_length | not_enough_space_unmarked
  | illegal_section_id | invalid_custom_name_length | illegal_custom_name_length
  | invalid_parameter_length | illegal_parameter_length | illegal_value_type
  | invalid_result_length | illegal_result_length | wasm1_not_allow_multi_value
  | illegal_type_prefix | duplicate_section | invalid_type_count
  | type_section_resolved_exceeded_the_actual_number
  | type_section_resolved_not_match_the_actual_number | forward_dependency_missing
  | invalid_import_count | import_section_resolved_exceeded_the_actual_number
  | import_section_resolved_not_match_the_actual_number | invalid_import_module_name_length
  | import_module_name_length_cannot_be_zero | import_module_name_too_length
  | invalid_import_extern_name_length | import_extern_name_length_cannot_be_zero
  | import_extern_name_too_length | import_missing_import_type | illegal_importdesc_prefix
  | invalid_type_index | illegal_type_index | not_enough_space | table_type_cannot_find_element
  | table_type_illegal_element | limit_type_cannot_find_flag | limit_type_illegal_flag
  | limit_type_invalid_min | limit_type_invalid_max | global_type_cannot_find_valtype
  | global_type_illegal_valtype | global_type_cannot_find_mut | global_type_illegal_mut
  | invalid_func_count | func_section_resolved_exceeded_the_actual_number
  | func_section_resolved_not_match_the_actual_number | size_exceeds_the_maximum_value_of_size_t
  | duplicate_imports_of_the_same_import_type | invalid_char_sequence | invalid_table_count
  | wasm1_not_allow_multi_table | table_section_resolved_exceeded_the_actual_number
  | table_section_resolved_not_match_the_actual_number | invalid_memory_count
  | wasm1_not_allow_multi_memory | memory_section_resolved_exceeded_the_actual_number
  | memory_section_resolved_not_match_the_actual_number
  | memory_section_resolved_exceeded_the_maximum_value | imp_def_num_exceed_u32max
  | invalid_global_count | global_section_resolved_exceeded_the_actual_number
  | global_section_resolved_not_match_the_actual_number | init_const_expr_terminator_not_found
  | invalid_export_count | export_section_resolved_exceeded_the_actual_number
  | export_name_length_cannot_be_zero | export_name_too_length | export_missing_export_type
  | illegal_exportdesc_prefix | duplicate_exports_of_the_same_export_type
  | export_missing_export_idx | export_section_resolved_not_match_the_actual_number
  | invalid_export_idx | exported_index_exceeds_maxvul | invalid_export_name_length
  | invalid_start_idx | start_index_exceeds_maxvul | invalid_elem_count
  | elem_section_resolved_exceeded_the_actual_number | invalid_elem_table_idx
  | elem_table_index_exceeds_maxvul | invalid_elem_funcidx_count | invalid_elem_funcidx
  | elem_func_index_exceeds_maxvul | element_section_resolved_not_match_the_actual_number
  | invalid_code_count | code_ne_defined_func | code_section_resolved_exceeded_the_actual_number
  | invalid_code_body_size | illegal_code_body_size | code_missing_local_type | invalid_clocal_n
  | final_list_of_locals_exceeds_the_maximum_value_of_u32max_minus_parameter_size
  | code_section_resolved_not_match_the_actual_number | invalid_local_count
  | func_ref_by_start_has_illegal_sign | invalid_data_count
  | data_section_resolved_exceeded_the_actual_number | invalid_data_memory_idx
  | data_memory_index_exceeds_maxvul | invalid_data_byte_size_count
  | illegal_data_byte_size_count | data_section_resolved_not_match_the_actual_number
  | invalid_section_canonical_order | invalid_elem_kind | invalid_data_kind
  | limit_type_max_lt_min | counter_overflows | duplicate_type_function
  | unexpected_section_data | init_const_expr_stack_should_be_only_one_element
  | init_const_expr_illegal_instruction | init_const_expr_type_mismatch
  | init_const_expr_stack_empty | init_const_expr_illegal_data
  | init_const_expr_ref_illegal_imported_global | init_const_expr_ref_mutable_imported_global
  | illegal_custom_section_order | missing_code_body_end | exceed_the_max_parser_limit
  | wasm1p1_feature_required | wasm2_feature_required | wasm3_extended_const_disabled
  | wasm3_table_initializer_disabled | wasm1p1_invalid_data_count_section_count
  | wasm1p1_data_count_section_resolved_not_match_the_actual_number
  | wasm1p1_invalid_element_segment_flag | wasm1p1_invalid_data_segment_flag
  | wasm1p1_invalid_element_kind_byte | wasm1p1_invalid_reference_type
  | wasm1p1_invalid_elem_expr_count | wasm1p1_element_table_type_mismatch
  | wasm1p1_reference_type_mismatch | wasm1p1_init_ref_func_index_exceeds_maxvul
  | wasm3_limit_type_max_lt_min | wasm3_memory_limit_out_of_range
  | wasm3_table_limit_out_of_range | wasm3_rich_signature_not_integrated
  | wasm3_rich_value_not_integrated | wasm3_invalid_tag_type | wasm3_invalid_tag_count.
End wasm_parse_error_code.
Module wpec := wasm_parse_error_code.

(** [err_selectable_t], the members the modelled sections write. *)
Inductive parse_selectable :=
| psel_none
| psel_u8 (v : Z)
| psel_u8arr (v0 v1 : Z)
| psel_u32 (v : Z)
| psel_u32arr (v0 v1 : Z)
| psel_imp_def_num_exceed_u32max (imported defined type : Z)
| psel_exceed_the_max_parser_limit (name : string) (value maxval : Z)
| psel_exported_index_exceeds_maxvul (idx maxval type : Z)
| psel_start_index_exceeds_maxvul (idx maxval : Z)
| psel_elem_table_index_exceeds_maxvul (idx maxval : Z)
| psel_elem_func_index_exceeds_maxvul (idx maxval : Z)
| psel_duplic_exports (name_ptr : nat) (name_n type : Z)
| psel_illegal_custom_section_order (name_ptr : nat) (name_n custom_order wasm_order wasm_sec : Z).

(** [error_impl] with the code passed to [throw_wasm_parse_code]. *)
Record perr := PErr {
  perr_curr : nat;
  perr_code : wpec.code;
  perr_selectable : parse_selectable;
  perr_thrown : parse_code
}.

Definition pinvalid (curr : nat) (c : wpec.code) (sel : parse_selectable) : perr :=
  PErr curr c sel pc_invalid.

(** ** Limits *)

Record wasm1_parser_limit_t := ParserLimit {
  max_code_sec_codes : Z;
  max_code_locals : Z;
  max_data_sec_entries : Z;
  max_elem_sec_funcidx : Z;
  max_elem_sec_elems : Z;
  max_export_sec_exports : Z;
  max_global_sec_globals : Z;
  max_import_sec_imports : Z;
  max_memory_sec_memories : Z;
  max_table_sec_tables : Z;
  max_type_sec_types : Z
}.

Definition default_parser_limit : wasm1_parser_limit_t :=
  ParserLimit 262144 65536 262144 262144 262144 262144 262144 262144 1024 1024 262144.

(** ** Storage *)

(** [section_span_view]; [None] while [sec_begin] is null. *)
Abbreviation sec_span_t := (option (nat * nat)).

(** [final_function_type]: two ranges of bytes of the module. *)
Record final_function_type := FinalFunctionType {
  parameter_begin : nat; parameter_end : nat;
  result_begin : nat; result_end : nat
}.

(** [vectypeidx_minimize_storage_t]: the mode and the active member of its union. *)
Inductive vectypeidx_minimize_storage_t :=
| vt_null
| vt_u8_view (view_begin view_end : nat)
| vt_u8_vector (v : list Z)
| vt_u16_vector (v : list Z)
| vt_u32_vector (v : list Z).

(** [final_local_entry_t]: the byte of the type is kept as read. *)
Record final_local_entry_t := FinalLocalEntry {
  fle_count : Z;
  fle_type : Z
}.

(** [final_wasm_code_t] and its [code_body_t]. *)
Record final_wasm_code_t := FinalWasmCode {
  code_begin : nat; expr_begin : nat; body_code_end : nat;
  code_locals : list final_local_entry_t;
  all_local_count : Z
}.

(** [limits_type]; [max] has a default, so that it is never below [min]. *)
Record limits_type := LimitsType {
  lim_min : Z;
  lim_max : Z;
  lim_present_max : bool
}.
Definition default_max : Z := 2 ^ 32 - 1.

(** [table_type] and [memory_type] are structures with the one member [limits]. *)
Abbreviation table_type := limits_type.
Abbreviation memory_type := limits_type.

(** [u8string_view]: a pointer into the module and a length. *)
Record u8string_view := U8View { sv_ptr : nat; sv_n : Z }.

Inductive external_types := et_func | et_table | et_memory | et_global | et_tag.
Definition external_types_of_byte (b : Z) : option external_types :=
  if b =? 0 then Some et_func else if b =? 1 then Some et_table
  else if b =? 2 then Some et_memory else if b =? 3 then Some et_global
  else if b =? 4 then Some et_tag else None.

(** [wasm1_final_extern_type]: the kind and the active member of its union; [function]
    is a pointer to a type of the type section, kept as the index of the type. *)
Inductive wasm1_final_extern_type :=
| ext_func (function : nat)
| ext_table (t : table_type)
| ext_memory (m : memory_type)
| ext_global (g : global_type).

Definition extern_kind (x : wasm1_final_extern_type) : nat :=
  match x with ext_func _ => 0 | ext_table _ => 1 | ext_memory _ => 2 | ext_global _ => 3 end.

Record final_import_type := FinalImportType {
  fit_module_name : u8string_view;
  fit_extern_name : u8string_view;
  fit_imports : wasm1_final_extern_type
}.

(** [importdesc] holds, for each kind, pointers to the entries of [imports], kept as
    their indices. *)
Record import_section_storage_t := ImportSection {
  importsec_span : sec_span_t;
  importsec_imports : list final_import_type;
  importdesc : list (list nat)
}.
Definition importdesc_count : nat := 5.

Record table_section_storage_t := TableSection {
  tablesec_span : sec_span_t;
  tablesec_tables : list table_type
}.
Record memory_section_storage_t := MemorySection {
  memorysec_span : sec_span_t;
  memorysec_memories : list memory_type
}.

(** [base_const_expr_opcode_t]: the opcode and the active member of its storage; a
    floating-point constant is kept as its bits. *)
Inductive base_const_expr_opcode_t :=
| ce_i32_const (i32 : Z)
| ce_i64_const (i64 : Z)
| ce_f32_const (bits : Z)
| ce_f64_const (bits : Z)
| ce_global_get (imported_global_idx : Z).

Record wasm1_const_expr_storage_t := ConstExpr {
  ce_begin : nat; ce_end : nat;
  ce_opcodes : list base_const_expr_opcode_t
}.

Record final_local_global_type := FinalLocalGlobal {
  lg_global : global_type;
  lg_expr : wasm1_const_expr_storage_t
}.
Record global_section_storage_t := GlobalSection {
  globalsec_span : sec_span_t;
  globalsec_local_globals : list final_local_global_type
}.

(** [final_wasm_export_type]: the members [func_idx], [table_idx], [memory_idx] and
    [global_idx] of the union are the index of the kind [type]. *)
Record final_wasm_export_type := FinalExport {
  fwet_export_name : u8string_view;
  fwet_type : external_types;
  fwet_idx : Z
}.
Record export_section_storage_t := ExportSection {
  exportsec_span : sec_span_t;
  exportsec_exports : list final_wasm_export_type;
  exportdesc : list (list nat)
}.
Definition exportdesc_count : nat := 5.

Record start_section_storage_t := StartSection {
  startsec_span : sec_span_t;
  start_idx : Z
}.

Record wasm1_elem_storage_t := ElemStorage {
  wet_table_idx : Z;
  wet_expr : wasm1_const_expr_storage_t;
  vec_funcidx : list Z
}.
Record element_section_storage_t := ElementSection {
  elemsec_span : sec_span_t;
  elemsec_elems : list wasm1_elem_storage_t
}.

Record wasm1_data_storage_t := DataStorage {
  wdt_memory_idx : Z;
  wdt_expr : wasm1_const_expr_storage_t;
  wdt_byte_begin : nat; wdt_byte_end : nat
}.
Record data_section_storage_t := DataSection {
  datasec_span : sec_span_t;
  datasec_datas : list wasm1_data_storage_t
}.

Record custom_section := CustomSection {
  cs_sec_begin : nat; cs_sec_end : nat;
  cs_custom_name : u8string_view;
  cs_custom_begin : nat
}.

(** The storages of the sections other than type, function and code. *)
Record other_sections := OtherSections {
  customs : list custom_section;
  importsec : import_section_storage_t;
  tablesec : table_section_storage_t;
  memorysec : memory_section_storage_t;
  globalsec : global_section_storage_t;
  exportsec : export_section_storage_t;
  startsec : start_section_storage_t;
  elemsec : element_section_storage_t;
  datasec : data_section_storage_t
}.

Definition empty_others : other_sections :=
  OtherSections [] (ImportSection None [] (replicate importdesc_count [])) (TableSection None [])
    (MemorySection None []) (GlobalSection None [])
    (ExportSection None [] (replicate exportdesc_count [])) (StartSection None 0)
    (ElementSection None []) (DataSection None []).

Record sections := Sections {
  typesec_span : sec_span_t;
  typesec_types : list final_function_type;
  funcsec_span : sec_span_t;
  funcsec_funcs : vectypeidx_minimize_storage_t;
  codesec_span : sec_span_t;
  codesec_codes : list final_wasm_code_t;
  others : other_sections
}.

Definition empty_sections : sections := Sections None [] None vt_null None [] empty_others.

Record pstate := PState {
  section_curr : nat;
  secs : sections
}.

Definition set_curr (p : nat) (s : pstate) : pstate := PState p (secs s).
Definition set_typesec (span : sec_span_t) (ts : list final_function_type) (s : pstate) : pstate :=
  let x := secs s in
  PState (section_curr s) (Sections span ts (funcsec_span x) (funcsec_funcs x) (codesec_span x)
    (codesec_codes x) (others x)).
Definition set_funcsec (span : sec_span_t) (v : vectypeidx_minimize_storage_t) (s : pstate) : pstate :=
  let x := secs s in
  PState (section_curr s) (Sections (typesec_span x) (typesec_types x) span v (codesec_span x)
    (codesec_codes x) (others x)).
Definition set_codesec (span : sec_span_t) (cs : list final_wasm_code_t) (s : pstate) : pstate :=
  let x := secs s in
  PState (section_curr s) (Sections (typesec_span x) (typesec_types x) (funcsec_span x)
    (funcsec_funcs x) span cs (others x)).

Definition set_others (o : other_sections) (s : pstate) : pstate :=
  let x := secs s in
  PState (section_curr s) (Sections (typesec_span x) (typesec_types x) (funcsec_span x)
    (funcsec_funcs x) (codesec_span x) (codesec_codes x) o).

Section Setters.
Context (s : pstate).
Let o := others (secs s).
Definition set_customs (v : list custom_section) : pstate :=
  set_others (OtherSections v (importsec o) (tablesec o) (memorysec o) (globalsec o) (exportsec o)
    (startsec o) (elemsec o) (datasec o)) s.
Definition set_importsec (v : import_section_storage_t) : pstate :=
  set_others (OtherSections (customs o) v (tablesec o) (memorysec o) (globalsec o) (exportsec o)
    (startsec o) (elemsec o) (datasec o)) s.
Definition set_tablesec (v : table_section_storage_t) : pstate :=
  set_others (OtherSections (customs o) (importsec o) v (memorysec o) (globalsec o) (exportsec o)
    (startsec o) (elemsec o) (datasec o)) s.
Definition set_memorysec (v : memory_section_storage_t) : pstate :=
  set_others (OtherSections (customs o) (importsec o) (tablesec o) v (globalsec o) (exportsec o)
    (startsec o) (elemsec o) (datasec o)) s.
Definition set_globalsec (v : global_section_storage_t) : pstate :=
  set_others (OtherSections (customs o) (importsec o) (tablesec o) (memorysec o) v (exportsec o)
    (startsec o) (elemsec o) (datasec o)) s.
Definition set_exportsec (v : export_section_storage_t) : pstate :=
  set_others (OtherSections (customs o) (importsec o) (tablesec o) (memorysec o) (globalsec o) v
    (startsec o) (elemsec o) (datasec o)) s.
Definition set_startsec (v : start_section_storage_t) : pstate :=
  set_others (OtherSections (customs o) (importsec o) (tablesec o) (memorysec o) (globalsec o)
    (exportsec o) v (elemsec o) (datasec o)) s.
Definition set_elemsec (v : element_section_storage_t) : pstate :=
  set_others (OtherSections (customs o) (importsec o) (tablesec o) (memorysec o) (globalsec o)
    (exportsec o) (startsec o) v (datasec o)) s.
Definition set_datasec (v : data_section_storage_t) : pstate :=
  set_others (OtherSections (customs o) (importsec o) (tablesec o) (memorysec o) (globalsec o)
    (exportsec o) (startsec o) (elemsec o) v) s.
End Setters.

Abbreviation P := (SM pstate perr).

(** ** Cursor *)

(** The bytes of the range [[a, b)]. *)
Definition slice (bytes : list Z) (a b : nat) : list Z := take (b - a) (drop a bytes).

Section Cursor.
Context (bytes : list Z).

Definition move_to (p : nat) : P unit := sm_modify (set_curr p).

(** [parse_by_scan(section_curr, end, leb128_get(x))] for a [wasm_u32] and the test of
    its error code: the next position and the value; the cursor is not moved. *)
Definition parse_u32 (end_ : nat) (c : wpec.code) : P (nat * Z) :=
  s ← sm_get;
  let curr := section_curr s in
  let r := scn_cnt_define_leb128_impl 32 false (slice bytes curr end_) in
  if bool_decide (pr_code r = pc_ok) then mret ((curr + pr_iter r)%nat, pr_value r)
  else sm_throw (PErr curr c psel_none (pr_code r)).

(** The byte at the cursor, after the test that there is one; the cursor is not moved. *)
Definition peek_byte (end_ : nat) (missing : wpec.code) : P Z :=
  curr ← sm_gets section_curr;
  sm_when (curr =? end_)%nat (sm_throw (pinvalid curr missing psel_none));;
  sm_unchecked (bytes !! curr).

(** [static_cast<std::size_t>(end - curr)] *)
Definition distance (curr end_ : nat) : Z := uz (Z.of_nat end_ - Z.of_nat curr).

Definition is_valid_value_type (b : Z) : bool :=
  (b =? value_type_byte i32) || (b =? value_type_byte i64) ||
  (b =? value_type_byte f32) || (b =? value_type_byte f64).

(** ** Counters *)

(** [++i] on a [wasm_u32]. *)
Definition counter_selfinc_throw_when_overflow (i : Z) : P Z :=
  s ← sm_get;
  if i =? 2 ^ 32 - 1 then sm_throw (pinvalid (section_curr s) wpec.counter_overflows psel_none)
  else mret (i + 1).

(** [i + add] on a [wasm_u32]. *)
Definition counter_add_throw_when_overflow (i add : Z) : P Z :=
  s ← sm_get;
  let res := u32 (i + add) in
  if res <? i then sm_throw (pinvalid (section_curr s) wpec.counter_overflows psel_none)
  else mret res.

(** The loop of a section over its entries, with the counter test at its head;
    [entry] is the rest of the body, given the incremented counter. *)
Fixpoint entries_loop (fuel : nat) (section_end : nat) (exceeded : wpec.code) (count counter : Z)
    (entry : Z -> P unit) : P Z :=
  match fuel with
  | O => sm_fuel
  | S fuel =>
      s ← sm_get;
      if (section_curr s =? section_end)%nat then mret counter
      else
        counter ← counter_selfinc_throw_when_overflow counter;
        sm_when (count <? counter)
          (sm_throw (pinvalid (section_curr s) exceeded (psel_u32 count)));;
        entry counter;;
        entries_loop fuel section_end exceeded count counter entry
  end.

(** The test after the loop. *)
Definition entries_match (mismatch : wpec.code) (count counter : Z) : P unit :=
  s ← sm_get;
  sm_when (negb (counter =? count))
    (sm_throw (pinvalid (section_curr s) mismatch (psel_u32arr counter count))).

(** The part most handlers share: the count of entries, the tests on it ([checks]), the
    loop and the test after it. *)
Definition counted_section (section_end : nat) (invalid exceeded mismatch : wpec.code)
    (checks : Z -> P unit) (entry : Z -> P unit) : P unit :=
  '(count_next, count) ← parse_u32 section_end invalid;
  checks count;;
  move_to count_next;;
  counter ← entries_loop (S (section_end - count_next)) section_end exceeded count 0 entry;
  entries_match mismatch count counter.

(** The test of the count against a parser limit. *)
Definition check_parser_limit (name : string) (maxval count : Z) : P unit :=
  s ← sm_get;
  sm_when (maxval <? count)
    (sm_throw (pinvalid (section_curr s) wpec.exceed_the_max_parser_limit
      (psel_exceed_the_max_parser_limit name count maxval))).

(** The test that a section of kind [id] has not been seen. *)
Definition check_duplicate (span : sec_span_t) (sec_id_module_ptr : nat) (id : Z) : P unit :=
  sm_when (bool_decide (is_Some span))
    (sm_throw (pinvalid sec_id_module_ptr wpec.duplicate_section (psel_u8 id))).
End Cursor.

(** ** Reading the type indices back *)

(** [size()] and [index_unchecked(sz)] of the minimized storage; a view refers to
    the bytes of the module. *)
Definition vt_size (v : vectypeidx_minimize_storage_t) : nat :=
  match v with
  | vt_null => 0
  | vt_u8_view b e => e - b
  | vt_u8_vector v | vt_u16_vector v | vt_u32_vector v => length v
  end.

Definition vt_index_unchecked (bytes : list Z) (v : vectypeidx_minimize_storage_t) (sz : nat)
    : option Z :=
  match v with
  | vt_null => None
  | vt_u8_view b _ => bytes !! (b + sz)%nat
  | vt_u8_vector v | vt_u16_vector v | vt_u32_vector v => v !! sz
  end.

(** [change_mode]: the old member is destroyed, the new one is empty. *)
Inductive vectypeidx_minimize_storage_mode := m_null | m_u8_view | m_u8_vector | m_u16_vector | m_u32_vector.
#[global] Instance vectypeidx_mode_eq_dec : EqDecision vectypeidx_minimize_storage_mode.
Proof. solve_decision. Defined.

Definition vt_mode (v : vectypeidx_minimize_storage_t) : vectypeidx_minimize_storage_mode :=
  match v with
  | vt_null => m_null | vt_u8_view _ _ => m_u8_view | vt_u8_vector _ => m_u8_vector
  | vt_u16_vector _ => m_u16_vector | vt_u32_vector _ => m_u32_vector
  end.

Definition change_mode (new_mode : vectypeidx_minimize_storage_mode)
    (v : vectypeidx_minimize_storage_t) : vectypeidx_minimize_storage_t :=
  if bool_decide (vt_mode v = new_mode) then v
  else match new_mode with
  | m_null => vt_null | m_u8_view => vt_u8_view 0 0 | m_u8_vector => vt_u8_vector []
  | m_u16_vector => vt_u16_vector [] | m_u32_vector => vt_u32_vector []
  end.
