(* ===== verification/ParserSpec.v ===== *)
(** * Binary grammar of sections and reference parsers

    The grammar of the type, function and code sections of WebAssembly 1.0, and
    parsers on byte strings that decide it. [ParserOf p g] is the interface between
    the two: the parser recognises exactly the prefixes the grammar derives. The
    section handlers are proved to compute the parsers ([parses]), so that soundness,
    completeness and error freedom of a handler all follow from one statement. *)

From stdpp Require Import base list numbers strings.
From Stdlib Require Import ZArith Lia.
From S2P Require Import Prelude Leb128 WasmTypes ParserBase.

(** ** Parsers and grammars *)

Definition parser (A : Type) : Type := list Z -> option (A * list Z).

Class ParserOf {A} (p : parser A) (g : A -> list Z -> Prop) : Prop :=
  parser_of bs x rest :
    Forall is_byte bs -> p bs = Some (x, rest) <-> exists pre, bs = pre ++ rest /\ g x pre.

Definition p_u32 : parser Z := fun bs =>
  let r := scn_cnt_define_leb128_impl 32 false bs in
  if bool_decide (pr_code r = pc_ok) then Some (pr_value r, drop (pr_iter r) bs) else None.

Definition p_byte : parser Z := fun bs =>
  match bs with [] => None | b :: bs => Some (b, bs) end.

(** A known number of bytes. *)
Definition p_bytes (n : Z) : parser (list Z) := fun bs =>
  if zlen bs <? n then None else Some (take (Z.to_nat n) bs, drop (Z.to_nat n) bs).

(** Entries up to the end of the input; entry [i] may depend on its index. *)
Fixpoint p_entries {A} (fuel i : nat) (p : nat -> parser A) (bs : list Z) : option (list A) :=
  match bs, fuel with
  | [], _ => Some []
  | _, O => None
  | _, S fuel =>
      '(x, rest) ← p i bs;
      xs ← p_entries fuel (S i) p rest;
      Some (x :: xs)
  end.

(** The same with a state: entry [t] may depend on what was read before it. *)
Fixpoint p_fold {A T} (next : T -> A -> T) (p : T -> parser A) (fuel : nat) (t : T) (bs : list Z)
    : option (list A) :=
  match bs, fuel with
  | [], _ => Some []
  | _, O => None
  | _, S fuel =>
      '(x, rest) ← p t bs;
      xs ← p_fold next p fuel (next t x) rest;
      Some (x :: xs)
  end.

Lemma p_entries_fold {A} (p : nat -> parser A) fuel i bs :
  p_entries fuel i p bs = p_fold (fun i _ => S i) p fuel i bs.
Proof.
  revert i bs. induction fuel as [| fuel IH]; intros i [| b bs]; simpl; try done.
  destruct (p i (b :: bs)) as [[x rest] |]; simpl; [by rewrite IH | done].
Qed.

(** The bytes of a list of entries. *)
Inductive entries {A} (g : nat -> A -> list Z -> Prop) : nat -> list A -> list Z -> Prop :=
| entries_nil i : entries g i [] []
| entries_cons i x b xs bs : g i x b -> entries g (S i) xs bs -> entries g i (x :: xs) (b ++ bs).

(** [vec(B)]: a count and as many entries. *)
Definition vec {A} (g : nat -> A -> list Z -> Prop) (xs : list A) (bs : list Z) : Prop :=
  exists cb eb, bs = cb ++ eb /\ uN 32 cb (zlen xs) /\ entries g 0 xs eb.

(** ** Value types *)

Definition value_type_of_byte (b : Z) : option value_type :=
  if b =? 127 then Some i32 else if b =? 126 then Some i64
  else if b =? 125 then Some f32 else if b =? 124 then Some f64 else None.

Definition p_valtypes (n : Z) : parser (list value_type) := fun bs =>
  '(b, rest) ← p_bytes n bs;
  ts ← mapM value_type_of_byte b;
  Some (ts, rest).

(** ** Function types *)

Definition functype_bytes (ft : function_type) (bs : list Z) : Prop :=
  exists pb rb,
    uN 32 pb (zlen (parameter ft)) /\ uN 32 rb (zlen (result ft)) /\
    bs = 96 :: pb ++ map value_type_byte (parameter ft) ++
         rb ++ map value_type_byte (result ft).

(** A function type of Release 1.0 has at most one result. *)
Definition functype (_ : nat) (ft : function_type) (bs : list Z) : Prop :=
  (length (result ft) <= 1)%nat /\ functype_bytes ft bs.

Definition p_functype (_ : nat) : parser function_type := fun bs =>
  '(prefix, bs) ← p_byte bs;
  if negb (prefix =? 96) then None
  else
    '(pn, bs) ← p_u32 bs;
    '(ps, bs) ← p_valtypes pn bs;
    '(rn, bs) ← p_u32 bs;
    if 1 <? rn then None
    else
      '(rs, bs) ← p_valtypes rn bs;
      Some (FunctionType ps rs, bs).

(** ** Type indices *)

Definition typeidx (type_count : Z) (_ : nat) (x : Z) (bs : list Z) : Prop :=
  x < type_count /\ uN 32 bs x.

Definition p_typeidx (type_count : Z) (_ : nat) : parser Z := fun bs =>
  '(x, bs) ← p_u32 bs;
  if type_count <=? x then None else Some (x, bs).

(** ** Code *)

(** [locals ::= n:u32 t:valtype] *)
Definition locals_entry (e : local_entry) (bs : list Z) : Prop :=
  exists cb, uN 32 cb (count e) /\ bs = cb ++ [value_type_byte (local_type e)].

Definition local_total (ls : list local_entry) : Z := foldr (fun e n => count e + n) 0 ls.

(** [code ::= size:u32 func], [func ::= vec(locals) expr] with [size] the length of
    [func]: the bytes of the expression end with [end], the runs of locals and the
    parameters of function [i] number less than 2^32, and the runs are at most
    [max_locals]. *)
Definition code_entry (max_locals : Z) (param_count : nat -> option Z) (i : nat)
    (c : list local_entry * list Z) (bs : list Z) : Prop :=
  exists sb lb n,
    param_count i = Some n /\ n + local_total c.1 < 2 ^ 32 /\ zlen c.1 <= max_locals /\
    bs = sb ++ lb ++ c.2 /\ uN 32 sb (zlen (lb ++ c.2)) /\
    vec (fun _ => locals_entry) c.1 lb /\ last c.2 = Some 11.

Definition p_local (room : Z) : parser local_entry := fun bs =>
  '(n, bs) ← p_u32 bs;
  if room <? n then None
  else
    '(b, bs) ← p_byte bs;
    t ← value_type_of_byte b;
    Some (LocalEntry n t, bs).

Fixpoint p_locals (k : nat) (room : Z) : parser (list local_entry) := fun bs =>
  match k with
  | O => Some ([], bs)
  | S k =>
      '(e, bs) ← p_local room bs;
      '(es, bs) ← p_locals k (room - count e) bs;
      Some (e :: es, bs)
  end.

Definition p_code (max_locals : Z) (param_count : nat -> option Z) (i : nat)
    : parser (list local_entry * list Z) := fun bs =>
  '(size, bs) ← p_u32 bs;
  '(body, rest) ← p_bytes size bs;
  '(n, body) ← p_u32 body;
  if max_locals <? n then None
  else
    params ← param_count i;
    '(ls, expr) ← p_locals (Z.to_nat n) (2 ^ 32 - 1 - params) body;
    if bool_decide (last expr = Some 11) then Some ((ls, expr), rest) else None.

(** ** A whole section: a count, within a limit, and exactly as many entries *)

Definition p_section {A} (limit : Z) (p : nat -> parser A) (bs : list Z) : option (list A) :=
  '(n, rest) ← p_u32 bs;
  if limit <? n then None
  else
    xs ← p_entries (length rest) 0 p rest;
    if zlen xs =? n then Some xs else None.

(** The same for entries that may depend on those before them. *)
Definition p_section_fold {A} (limit : Z) (p : list A -> parser A) (bs : list Z) : option (list A) :=
  '(n, rest) ← p_u32 bs;
  if limit <? n then None
  else
    xs ← p_fold (fun seen x => seen ++ [x]) p (length rest) [] rest;
    if zlen xs =? n then Some xs else None.

Lemma p_section_fold_const {A} limit (p : parser A) bs :
  p_section_fold limit (fun _ => p) bs = p_section limit (fun _ => p) bs.
Proof.
  assert (H : forall fuel t i bs,
    p_fold (fun seen (x : A) => seen ++ [x]) (fun _ => p) fuel t bs = p_entries fuel i (fun _ => p) bs).
  { intros fuel. induction fuel as [| fuel IH]; intros t i [| b rest]; simpl; try done.
    destruct (p (b :: rest)) as [[x r] |]; simpl; [| done]. by rewrite (IH _ (S i)). }
  unfold p_section_fold, p_section. destruct (p_u32 bs) as [[n rest] |]; simpl; [| done].
  by rewrite (H _ _ 0%nat).
Qed.

(** Parsers that agree on all inputs give the same lists. *)
Lemma p_fold_ext {A T} (next : T -> A -> T) (p q : T -> parser A) fuel t bs :
  (forall t bs, p t bs = q t bs) -> p_fold next p fuel t bs = p_fold next q fuel t bs.
Proof.
  intros Hpq. revert t bs. induction fuel as [| fuel IH]; intros t [| b bs]; simpl; try done.
  rewrite Hpq. destruct (q t (b :: bs)) as [[x rest] |]; simpl; [by rewrite IH | done].
Qed.

Lemma p_section_ext {A} limit (p q : nat -> parser A) bs :
  (forall i bs, p i bs = q i bs) -> p_section limit p bs = p_section limit q bs.
Proof.
  intros Hpq. unfold p_section. destruct (p_u32 bs) as [[n rest] |]; simpl; [| done].
  by rewrite !p_entries_fold, (p_fold_ext _ p q).
Qed.

(** ** The parsers decide the grammar *)

Ltac bytes := repeat first [rewrite Forall_app in * | rewrite Forall_cons in *]; tauto.

#[global] Instance p_u32_parser : ParserOf p_u32 (fun x bs => uN 32 bs x).
Proof.
  intros bs x rest HF. unfold p_u32.
  destruct (scn_cnt_define_leb128_impl 32 false bs) as [n c v] eqn:Hs; simpl.
  assert (Hw : leb_width 32) by (right; right; left; reflexivity).
  case_bool_decide as Hc; subst.
  - pose proof (proj1 (leb_scan_u 32 bs n v Hw HF) Hs) as [Hn Hu]. split.
    + intros [= <- <-]. exists (take n bs). by rewrite take_drop.
    + intros (pre & -> & Hp).
      assert (Hs' : scn_cnt_define_leb128_impl 32 false (pre ++ rest) =
                    ParseResult (length pre) pc_ok x).
      { apply leb_scan_u; [done.. |]. rewrite length_app, take_app_length. split; [lia | done]. }
      rewrite Hs' in Hs. injection Hs as <- <-. by rewrite drop_app_length.
  - split; [done |]. intros (pre & -> & Hp). exfalso. apply Hc.
    assert (Hs' : scn_cnt_define_leb128_impl 32 false (pre ++ rest) =
                  ParseResult (length pre) pc_ok x).
    { apply leb_scan_u; [done.. |]. rewrite length_app, take_app_length. split; [lia | done]. }
    congruence.
Qed.

#[global] Instance p_byte_parser : ParserOf p_byte (fun x bs => bs = [x]).
Proof.
  intros bs x rest _. unfold p_byte. destruct bs as [| b bs]; split; try done.
  - by intros (pre & Hb & ->).
  - intros [= <- <-]. by exists [b].
  - intros (pre & Hb & ->). simpl in Hb. congruence.
Qed.

#[global] Instance p_bytes_parser n :
  ParserOf (p_bytes n) (fun x bs => bs = x /\ (zlen bs = n \/ n <= 0 /\ bs = [])).
Proof.
  intros bs x rest _. unfold p_bytes, zlen. destruct (Z.ltb_spec (Z.of_nat (length bs)) n).
  - split; [done |]. intros (pre & -> & -> & Hl). rewrite length_app in *. destruct Hl; [lia |].
    lia.
  - split.
    + intros [= <- <-]. exists (take (Z.to_nat n) bs). rewrite take_drop. split; [done |].
      split; [done |]. rewrite length_take. destruct (decide (n <= 0)); [right | left; lia].
      split; [done |]. by replace (Z.to_nat n) with 0%nat by lia.
    + intros (pre & -> & -> & Hl).
      replace (Z.to_nat n) with (length x) by (destruct Hl as [<- | [? ->]]; simpl; lia).
      by rewrite take_app_length, drop_app_length.
Qed.

Lemma value_type_of_byte_Some b t : value_type_of_byte b = Some t <-> b = value_type_byte t.
Proof.
  unfold value_type_of_byte. split.
  - intros H. repeat case_match; simplify_eq; simpl; lia.
  - intros ->. by destruct t.
Qed.

Lemma is_valid_value_type_of_byte b :
  is_valid_value_type b = bool_decide (is_Some (value_type_of_byte b)).
Proof.
  unfold is_valid_value_type, value_type_of_byte. simpl.
  destruct (b =? 127), (b =? 126), (b =? 125), (b =? 124); done.
Qed.

Lemma mapM_value_type bs ts : mapM value_type_of_byte bs = Some ts <-> bs = map value_type_byte ts.
Proof.
  rewrite mapM_Some. split.
  - induction 1 as [| b t bs ts Hb _ IH]; simpl; [done |].
    apply value_type_of_byte_Some in Hb. congruence.
  - intros ->. induction ts as [| t ts IH]; simpl; constructor; [by apply value_type_of_byte_Some | done].
Qed.

(** *** Sequencing

    A successful parse of a sequence splits the input; the lemma is applied once per
    component instead of splitting each time. *)
Lemma p_seq {A B} (p : parser A) g (k : A -> list Z -> option B) bs y `{!ParserOf p g} :
  Forall is_byte bs ->
  ('(x, rest) ← p bs; k x rest) = Some y <->
  exists x pre rest, bs = pre ++ rest /\ g x pre /\ k x rest = Some y.
Proof.
  intros HF. rewrite bind_Some. split.
  - intros ([x rest] & Hp & Hk). apply parser_of in Hp as (pre & -> & Hg); [| done]. by exists x, pre, rest.
  - intros (x & pre & rest & -> & Hg & Hk). exists (x, rest). split; [| done].
    apply parser_of; [done |]. by exists pre.
Qed.

#[global] Instance p_valtypes_parser n :
  ParserOf (p_valtypes n) (fun ts bs => bs = map value_type_byte ts /\ (zlen ts = n \/ n <= 0 /\ ts = [])).
Proof.
  intros bs ts rest HF. unfold p_valtypes. rewrite (p_seq (p_bytes n)) by first [exact HF | apply _]. split.
  - intros (b & pre & r & -> & [-> Hl] & Hk). apply bind_Some in Hk as (ts' & Ht & [= <- <-]).
    apply mapM_value_type in Ht as ->. eexists. split; [done |]. split; [done |].
    unfold zlen in *. rewrite length_map in Hl. destruct Hl as [? | [? ?%map_eq_nil]]; eauto.
  - intros (pre & -> & -> & Hl). eexists _, _, _. split; [done |]. split.
    + split; [done |]. unfold zlen in *. rewrite length_map. destruct Hl as [? | [? ->]]; eauto.
    + apply bind_Some. exists ts. split; [by apply mapM_value_type | done].
Qed.

Lemma u32_bounds bs x : uN 32 bs x -> 0 <= x < 2 ^ 32.
Proof. intros H. apply uN_bounds in H; lia. Qed.

(** A vector of known length read after its count. *)
Lemma counted_length {A} (n : Z) (l : list A) :
  0 <= n -> (zlen l = n \/ n <= 0 /\ l = []) <-> zlen l = n.
Proof. unfold zlen. intros Hn. split; [| by left]. intros [? | [? ->]]; simpl; lia. Qed.

(** The two directions of [ParserOf] as steps: [p_inv H] splits the input of the
    parser at the head of [H], [p_run p] evaluates the parser [p] in the goal. *)
Lemma parser_app {A} (p : parser A) g x pre rest `{!ParserOf p g} :
  g x pre -> Forall is_byte (pre ++ rest) -> p (pre ++ rest) = Some (x, rest).
Proof. intros Hg HF. apply parser_of; [done |]. by exists pre. Qed.

Tactic Notation "p_inv" hyp(H) "as" simple_intropattern(pat) :=
  match type of H with
  | (mbind _ (?p ?bs)) = Some _ =>
      rewrite (p_seq p) in H by first [apply _ | bytes]; destruct H as pat
  end.

Ltac p_run p :=
  let I := constr:(_ : ParserOf p _) in
  erewrite (@parser_app _ p _ _ _ _ I) by first [by eauto | bytes]; simpl.

#[global] Instance p_functype_parser i : ParserOf (p_functype i) (functype i).
Proof.
  intros bs ft rest HF. unfold p_functype. split.
  - intros Hk. p_inv Hk as (b & pre & r & -> & -> & Hk).
    destruct (Z.eqb_spec b 96) as [-> |]; simpl in Hk; [| done].
    p_inv Hk as (pn & pb & r1 & -> & Hpn & Hk).
    p_inv Hk as (ps & ? & r2 & -> & [-> Hps] & Hk).
    p_inv Hk as (rn & rb & r3 & -> & Hrn & Hk).
    destruct (Z.ltb_spec 1 rn); [done |].
    p_inv Hk as (rs & ? & r4 & -> & [-> Hrs] & [= <- <-]).
    apply counted_length in Hps; [| apply u32_bounds in Hpn; lia].
    apply counted_length in Hrs; [| apply u32_bounds in Hrn; lia]. subst pn rn.
    exists (96 :: pb ++ map value_type_byte ps ++ rb ++ map value_type_byte rs).
    split; [simpl; by rewrite <- !app_assoc |].
    split; simpl; [unfold zlen in *; lia |]. by exists pb, rb.
  - intros (pre & -> & Hr & pb & rb & Hpb & Hrb & ->). simpl in HF. simpl.
    rewrite <- !app_assoc in *.
    p_run p_u32.
    p_run (p_valtypes (zlen (parameter ft))).
    p_run p_u32.
    destruct (Z.ltb_spec 1 (zlen (result ft))); [unfold zlen in *; lia |].
    p_run (p_valtypes (zlen (result ft))).
    by destruct ft.
Qed.

#[global] Instance p_typeidx_parser c i : ParserOf (p_typeidx c i) (typeidx c i).
Proof.
  intros bs x rest HF. unfold p_typeidx. split.
  - intros Hk. p_inv Hk as (y & pre & r & -> & Hy & Hk).
    destruct (Z.leb_spec c y); [done |]. injection Hk as <- <-. by exists pre.
  - intros (pre & -> & Hlt & Hu).
    p_run p_u32.
    by destruct (Z.leb_spec c x); [lia |].
Qed.

(** *** Lists of entries *)

Lemma entries_inv {A} (g : nat -> A -> list Z -> Prop) i xs bs :
  entries g i xs bs ->
  match xs with
  | [] => bs = []
  | x :: xs => exists b bs', bs = b ++ bs' /\ g i x b /\ entries g (S i) xs bs'
  end.
Proof. destruct 1; eauto. Qed.

Lemma entries_empty {A} (g : nat -> A -> list Z -> Prop) i xs :
  (forall i x, ~ g i x []) -> entries g i xs [] -> xs = [].
Proof.
  intros Hne He. apply entries_inv in He. destruct xs as [| x xs]; [done |].
  destruct He as (b & bs & [-> ->]%symmetry%app_eq_nil & Hg & _). by destruct (Hne i x).
Qed.

(** Entries whose grammar does not depend on the index can be renumbered. *)
Lemma entries_shift {A} (g : A -> list Z -> Prop) i j xs bs :
  entries (fun _ => g) i xs bs -> entries (fun _ => g) j xs bs.
Proof.
  intros He. revert j. induction He as [| i x b xs bs Hg _ IH]; intros j; constructor; auto.
Qed.

Lemma p_entries_iff {A} (p : nat -> parser A) g (Hp : forall i, ParserOf (p i) (g i))
    (Hne : forall i x, ~ g i x []) fuel i bs xs :
  Forall is_byte bs -> (length bs <= fuel)%nat ->
  p_entries fuel i p bs = Some xs <-> entries g i xs bs.
Proof.
  revert i bs xs. induction fuel as [| fuel IH]; intros i [| b0 bs] xs HF Hl; simpl in *;
    try lia.
  1, 2: split; [intros [= <-]; constructor |];
    intros He; by rewrite (entries_empty g i xs Hne He).
  split.
  - intros Hk. p_inv Hk as (x & pre & rest & Hb & Hg & Hk).
    apply bind_Some in Hk as (xs' & Hk & [= <-]). rewrite Hb. constructor; [done |].
    destruct pre as [| ? pre]; [by apply Hne in Hg |]. injection Hb as -> ->.
    apply IH in Hk; [done | bytes | rewrite length_app in Hl; lia].
  - intros He. apply entries_inv in He. destruct xs as [| x xs]; [done |].
    destruct He as (b & bs' & Hb & Hg & He). rewrite Hb in *.
    rewrite (parser_app (p i) (g i) x b bs') by first [done | apply _]. simpl.
    destruct b as [| ? b]; [by apply Hne in Hg |]. injection Hb as -> ->.
    apply IH in He as ->; [done | bytes | rewrite length_app in Hl; lia].
Qed.

Lemma p_section_iff {A} limit (p : nat -> parser A) g (Hp : forall i, ParserOf (p i) (g i))
    (Hne : forall i x, ~ g i x []) bs xs :
  Forall is_byte bs ->
  p_section limit p bs = Some xs <-> zlen xs <= limit /\ vec g xs bs.
Proof.
  intros HF. unfold p_section, vec. split.
  - intros Hk. p_inv Hk as (n & cb & eb & -> & Hn & Hk).
    destruct (Z.ltb_spec limit n); [done |].
    apply bind_Some in Hk as (xs' & Hk & Hx).
    destruct (Z.eqb_spec (zlen xs') n) as [<- |]; [| done]. injection Hx as ->.
    split; [done |]. exists cb, eb. split; [done |]. split; [done |].
    eapply p_entries_iff; [..| exact Hk]; first [done | bytes].
  - intros (Hl & cb & eb & -> & Hn & He). p_run p_u32.
    destruct (Z.ltb_spec limit (zlen xs)); [lia |].
    apply (p_entries_iff p g Hp Hne (length eb)) in He as ->; [| bytes | lia]. simpl.
    by rewrite Z.eqb_refl.
Qed.

(** *** Locals and code *)

Lemma uN_nonempty N x : ~ uN N [] x.
Proof. intros H. apply uN_length_nonzero in H. simpl in H. lia. Qed.

#[global] Instance p_local_parser room :
  ParserOf (p_local room) (fun e bs => count e <= room /\ locals_entry e bs).
Proof.
  intros bs e rest HF. unfold p_local. split.
  - intros Hk. p_inv Hk as (n & cb & r & -> & Hn & Hk). destruct (Z.ltb_spec room n); [done |].
    p_inv Hk as (b & ? & r' & -> & -> & Hk). apply bind_Some in Hk as (t & Ht & [= <- <-]).
    apply value_type_of_byte_Some in Ht as ->. exists (cb ++ [value_type_byte t]).
    split; [by rewrite <- app_assoc |]. split; [done |]. by exists cb.
  - intros (pre & -> & Hle & cb & Hc & ->). rewrite <- app_assoc in *. p_run p_u32.
    destruct (Z.ltb_spec room (count e)); [lia |].
    rewrite (proj2 (value_type_of_byte_Some _ _) eq_refl). simpl. by destruct e.
Qed.

(** The runs of locals, their total within [room]. *)
Definition locals_within (k : nat) (room : Z) (ls : list local_entry) (bs : list Z) : Prop :=
  length ls = k /\ local_total ls <= room /\ entries (fun _ => locals_entry) 0 ls bs.

Lemma local_total_nonneg i ls bs : entries (fun _ => locals_entry) i ls bs -> 0 <= local_total ls.
Proof.
  induction 1 as [| i e b ls bs (cb & Hc & _) _ IH]; simpl; [done |].
  apply u32_bounds in Hc. lia.
Qed.

Lemma p_locals_parser k room : 0 <= room -> ParserOf (p_locals k room) (locals_within k room).
Proof.
  revert room. induction k as [| k IH]; intros room Hr bs ls rest HF; simpl; split.
  - intros [= <- <-]. exists []. split; [done |]. split; [done |]. split; [done | constructor].
  - intros (pre & -> & ->%nil_length_inv & _ & He). by apply entries_inv in He as ->.
  - intros Hk. p_inv Hk as (e & b & r & -> & [Hle Hg] & Hk).
    pose proof (IH (room - count e) ltac:(lia)).
    p_inv Hk as (es & b' & r' & -> & (Hl & Ht & He) & [= <- <-]).
    exists (b ++ b'). split; [by rewrite app_assoc |].
    split; [by simpl; f_equal |]. split; [simpl; lia |]. constructor; [done |].
    by eapply entries_shift.
  - intros (pre & -> & Hl & Ht & He). destruct ls as [| e es]; [done |].
    apply entries_inv in He as (b & bs & -> & Hg & Hes). simpl in Ht, Hl.
    pose proof (local_total_nonneg _ _ _ Hes). rewrite <- app_assoc in *.
    rewrite (parser_app (p_local room) _ e b)
      by first [apply _ | done | split; [lia | done]]. simpl.
    pose proof (IH (room - count e) ltac:(lia)).
    rewrite (parser_app (p_locals k (room - count e)) (locals_within k (room - count e)) es bs);
      [done | apply _ | | bytes].
    split; [lia |]. split; [lia |]. by eapply entries_shift.
Qed.

Section Code.
Context (max_locals : Z) (param_count : nat -> option Z).
Context (Hparams : forall i n, param_count i = Some n -> 0 <= n < 2 ^ 32).

Lemma p_code_parser i : ParserOf (p_code max_locals param_count i) (code_entry max_locals param_count i).
Proof using Hparams.
  intros bs [ls ex] rest HF. unfold p_code. split.
  - intros Hk. p_inv Hk as (size & sb & r & -> & Hs & Hk).
    p_inv Hk as (body & ? & r' & -> & [-> Hb] & Hk).
    apply counted_length in Hb; [| apply u32_bounds in Hs; lia].
    p_inv Hk as (n & cb & r'' & -> & Hn & Hk).
    destruct (Z.ltb_spec max_locals n); [done |].
    apply bind_Some in Hk as (params & Hpc & Hk). pose proof (Hparams _ _ Hpc).
    pose proof (p_locals_parser (Z.to_nat n) (2 ^ 32 - 1 - params) ltac:(lia)).
    p_inv Hk as (ls' & lb & e' & -> & (Hl & Ht & He) & Hk).
    case_bool_decide as He'; [| done]. injection Hk as <- <- <-.
    apply u32_bounds in Hn as Hn'. subst size.
    exists (sb ++ cb ++ lb ++ e'). split; [by rewrite <- !app_assoc |].
    exists sb, (cb ++ lb), params. simpl. rewrite <- !app_assoc.
    split; [done |]. split; [lia |]. split; [unfold zlen; lia |]. split; [done |].
    split; [done |]. split; [| done]. exists cb, lb. split; [done |].
    split; [| done]. unfold zlen. by replace (Z.of_nat (length ls')) with n by lia.
  - intros (pre & -> & sb & lb & n & Hpc & Hsum & Hmax & -> & Hs & (cb & eb & -> & Hc & He) & Hlast).
    simpl in *. rewrite <- !app_assoc in *. p_run p_u32.
    replace (cb ++ eb ++ ex ++ rest) with ((cb ++ eb ++ ex) ++ rest) in * by (by rewrite <- !app_assoc).
    p_run (p_bytes (zlen (cb ++ eb ++ ex))). p_run p_u32.
    destruct (Z.ltb_spec max_locals (zlen ls)); [lia |]. rewrite Hpc. simpl.
    pose proof (Hparams _ _ Hpc).
    pose proof (p_locals_parser (length ls) (2 ^ 32 - 1 - n) ltac:(lia)).
    unfold zlen. rewrite Nat2Z.id.
    rewrite (parser_app (p_locals (length ls) (2 ^ 32 - 1 - n))
      (locals_within (length ls) (2 ^ 32 - 1 - n)) ls eb); [| apply _ | | bytes]; simpl.
    + by rewrite bool_decide_eq_true_2 by done.
    + split; [done |]. split; [lia | done].
Qed.
End Code.

(** *** What a parsed list of entries satisfies *)

Lemma entries_lookup {A} (g : nat -> A -> list Z -> Prop) i xs bs j x :
  entries g i xs bs -> xs !! j = Some x -> exists b, g (i + j)%nat x b.
Proof.
  intros He. revert j. induction He as [| i y b xs bs Hg _ IH]; intros j Hj; [done |].
  destruct j as [| j]; simpl in Hj.
  - injection Hj as ->. exists b. by rewrite Nat.add_0_r.
  - destruct (IH j Hj) as (b' & Hb'). exists b'. by rewrite Nat.add_succ_r.
Qed.

Lemma vec_lookup {A} (g : nat -> A -> list Z -> Prop) xs bs j x :
  vec g xs bs -> xs !! j = Some x -> exists b, g j x b.
Proof. intros (cb & eb & _ & _ & He). apply (entries_lookup g 0 xs eb j x He). Qed.

Lemma vec_length {A} (g : nat -> A -> list Z -> Prop) xs bs : vec g xs bs -> zlen xs < 2 ^ 32.
Proof. intros (cb & eb & _ & Hn & _). apply u32_bounds in Hn. lia. Qed.

Lemma functype_nonempty i ft : ~ functype i ft [].
Proof. by intros (_ & pb & rb & _ & _ & ?). Qed.

Lemma typeidx_nonempty c i x : ~ typeidx c i x [].
Proof. intros [_ H]. by apply uN_nonempty in H. Qed.

Lemma code_entry_nonempty max_locals pc i c : ~ code_entry max_locals pc i c [].
Proof.
  intros (sb & lb & n & _ & _ & _ & [-> _]%symmetry%app_eq_nil & Hs & _). by apply uN_nonempty in Hs.
Qed.
