(* ===== verification/ParserRefine.v ===== *)
(** * Runs of the section parsers

    Ranges of the module, and what the shared steps of the section handlers (reading
    a count, moving the cursor, the loop over entries) do, in terms of the reference
    parsers of [ParserSpec]. *)

From stdpp Require Import base list numbers strings.
From Stdlib Require Import ZArith Lia.
From S2P Require Import Prelude Leb128 WasmTypes ParserBase ParserSpec.

(** ** Ranges *)

Section Slice.
Context (bytes : list Z).

Lemma slice_length a b : (b <= length bytes)%nat -> length (slice bytes a b) = (b - a)%nat.
Proof. unfold slice. rewrite length_take, length_drop. lia. Qed.

Lemma slice_empty a b : (b <= a)%nat -> slice bytes a b = [].
Proof. intros. unfold slice. by replace (b - a)%nat with 0%nat by lia. Qed.

Lemma slice_drop a b n : drop n (slice bytes a b) = slice bytes (a + n) b.
Proof. unfold slice. rewrite skipn_firstn_comm, drop_drop. f_equal. lia. Qed.

Lemma slice_take a b n : (a + n <= b)%nat -> take n (slice bytes a b) = slice bytes a (a + n).
Proof. intros. unfold slice. rewrite take_take. f_equal. lia. Qed.

Lemma slice_cons a b :
  (a < b)%nat -> (b <= length bytes)%nat ->
  exists x, bytes !! a = Some x /\ slice bytes a b = x :: slice bytes (S a) b.
Proof.
  intros Ha Hb. destruct (lookup_lt_is_Some_2 bytes a) as [x Hx]; [lia |]. exists x.
  split; [done |]. unfold slice. rewrite (drop_S _ x) by done.
  by replace (b - a)%nat with (S (b - S a)) by lia.
Qed.

Lemma slice_app a b c :
  (a <= b)%nat -> (b <= c)%nat -> slice bytes a c = slice bytes a b ++ slice bytes b c.
Proof.
  intros. unfold slice. replace (c - a)%nat with ((b - a) + (c - b))%nat by lia.
  rewrite <- take_take_drop, drop_drop. by replace (a + (b - a))%nat with b by lia.
Qed.

Lemma slice_lookup a b i : (a + i < b)%nat -> slice bytes a b !! i = bytes !! (a + i)%nat.
Proof. intros. unfold slice. rewrite lookup_take_lt by lia. by rewrite lookup_drop. Qed.
End Slice.

(** A vector of the storage and its update. *)
Class VecField {Y} (get : sections -> list Y) (put : list Y -> sections -> sections) : Prop := {
  vf_get_put l x : get (put l x) = l;
  vf_put_put l l' x : put l (put l' x) = put l x;
  vf_put_get x : put (get x) x = x
}.

Section Steps.
Context (bytes : list Z) (Hbytes : Forall is_byte bytes) (Hsize : zlen bytes < 2 ^ 64).

Lemma slice_bytes a b : Forall is_byte (slice bytes a b).
Proof using Hbytes. unfold slice. by apply Forall_take, Forall_drop. Qed.

Lemma distance_eq a b :
  (a <= b)%nat -> (b <= length bytes)%nat -> distance a b = Z.of_nat (b - a).
Proof using Hsize. intros. unfold distance, uz, wrap, zlen in *. rewrite Z.mod_small; lia. Qed.

(** ** Refinement of a reference parser

    The outcome of handler code against the result of a reference parser on the range
    up to [e]: the same bytes are consumed and the final state satisfies [Post], or an
    exception is thrown at a position of [[lo, e]] when the parser fails. *)
Definition agrees {A B} (e lo : nat) (o : outcome perr (B * pstate))
    (r : option (A * list Z)) (Post : A -> B -> pstate -> Prop) : Prop :=
  match r with
  | Some (x, rest) =>
      exists b s', o = Done (b, s') /\ (lo <= section_curr s' <= e)%nat /\
        slice bytes (section_curr s') e = rest /\ Post x b s'
  | None => exists err, o = Thrown err /\ (lo <= perr_curr err <= e)%nat
  end.

Definition parses {A B} (e : nat) (m : P B) (p : parser A)
    (Post : A -> B -> pstate -> pstate -> Prop) (s : pstate) : Prop :=
  agrees e (section_curr s) (m s) (p (slice bytes (section_curr s) e)) (fun x b => Post x b s).

Lemma agrees_weaken {A B} e lo lo' (o : outcome perr (B * pstate)) (r : option (A * list Z)) Q Q' :
  (lo <= lo')%nat -> (forall x b s, (lo' <= section_curr s)%nat -> Q x b s -> Q' x b s) ->
  agrees e lo' o r Q -> agrees e lo o r Q'.
Proof.
  intros Hlo HQ. unfold agrees. destruct r as [[x rest] |].
  - intros (b & s' & ? & ? & ? & ?). exists b, s'. split_and!; [done | lia | lia | done | apply HQ; [lia | done]].
  - intros (err & ? & ?). exists err. split; [done | lia].
Qed.

(** A step that is itself a parser. *)
Lemma agrees_seq {A B A' B'} e lo (m : P B) (k : B -> P B') (r : option (A * list Z))
    (q : A -> list Z -> option (A' * list Z)) Q Q' s :
  agrees e lo (m s) r Q ->
  (forall x b s', (lo <= section_curr s' <= e)%nat -> Q x b s' ->
     agrees e lo (k b s') (q x (slice bytes (section_curr s') e)) Q') ->
  agrees e lo ((m ≫= k) s) ('(x, rest) ← r; q x rest) Q'.
Proof.
  intros Hm Hk. unfold agrees in Hm. destruct r as [[x rest] |]; simpl.
  - destruct Hm as (b & s' & Hd & Hr & <- & HQ). rewrite (bind_done _ _ _ _ _ Hd). auto.
  - destruct Hm as (err & Ht & Hr). exists err. split; [by apply bind_thrown | lia].
Qed.

Lemma agrees_bind {A B A' B'} e (m : P B) (k : B -> P B') (p : parser A)
    (q : A -> list Z -> option (A' * list Z)) Q Q' s lo :
  (lo <= section_curr s)%nat -> parses e m p Q s ->
  (forall x b s', (section_curr s <= section_curr s' <= e)%nat -> Q x b s s' ->
     agrees e lo (k b s') (q x (slice bytes (section_curr s') e)) Q') ->
  agrees e lo ((m ≫= k) s) ('(x, rest) ← p (slice bytes (section_curr s) e); q x rest) Q'.
Proof.
  intros Hlo Hm Hk.
  eapply (agrees_seq _ _ _ _ _ _ (fun x b s' => (section_curr s <= section_curr s')%nat /\ Q x b s s')).
  - eapply agrees_weaken; [exact Hlo | | exact Hm]. eauto.
  - intros x b s' Hr [? ?]. apply Hk; [lia | done].
Qed.

(** Storing what was parsed. *)
Lemma agrees_then {A B B'} e lo (m : P B) (k : B -> P B') (r : option (A * list Z)) Q Q' s :
  agrees e lo (m s) r Q ->
  (forall x b s', (lo <= section_curr s' <= e)%nat -> Q x b s' ->
     exists b' s2, ⟦ k b ⟧ s' ⇓ (b', s2) /\ section_curr s2 = section_curr s' /\ Q' x b' s2) ->
  agrees e lo ((m ≫= k) s) r Q'.
Proof.
  intros Hm Hk. unfold agrees in *. destruct r as [[x rest] |].
  - destruct Hm as (b & s' & Hd & Hr & <- & HQ). rewrite (bind_done _ _ _ _ _ Hd).
    destruct (Hk x b s' Hr HQ) as (b' & s2 & Hd2 & Hc & HQ'). exists b', s2. by rewrite Hc.
  - destruct Hm as (err & Ht & Hr). exists err. split; [by apply bind_thrown | done].
Qed.

(** A test that throws, against a test of the parser. *)
Lemma agrees_guard {A B} e lo (b : bool) err (k : unit -> P B) s (r : option (A * list Z)) Q :
  (lo <= perr_curr err <= e)%nat -> (b = false -> agrees e lo (k tt s) r Q) ->
  agrees e lo ((sm_when b (sm_throw err) ≫= k) s) (if b then None else r) Q.
Proof. intros He Hk. destruct b; [by exists err | by apply Hk]. Qed.

Lemma bind_move {B} p (k : unit -> P B) s : (move_to p ≫= k) s = k tt (set_curr p s).
Proof. done. Qed.

(** A count: the cursor does not move, the next position is returned. *)
Lemma parse_u32_cases e c s :
  (section_curr s <= e)%nat -> (e <= length bytes)%nat ->
  match p_u32 (slice bytes (section_curr s) e) with
  | Some (x, rest) =>
      exists next, ⟦ parse_u32 bytes e c ⟧ s ⇓ ((next, x), s) /\
        (section_curr s < next <= e)%nat /\ slice bytes next e = rest /\ 0 <= x < 2 ^ 32
  | None =>
      exists pc, ⟦ parse_u32 bytes e c ⟧ s ⇑ PErr (section_curr s) c psel_none pc
  end.
Proof using Hbytes.
  intros Hc He. unfold parse_u32, p_u32, mbind, sm_bind, sm_get. simpl.
  destruct (scn_cnt_define_leb128_impl 32 false (slice bytes (section_curr s) e))
    as [n pc v] eqn:Hs; simpl.
  case_bool_decide as Hpc; [| by eexists]. subst pc.
  assert (Hw : leb_width 32) by (right; right; left; reflexivity).
  apply leb_scan_u in Hs as [Hn Hu]; [| done | apply slice_bytes].
  rewrite slice_length in Hn by done. apply uN_bounds in Hu; [| lia].
  rewrite length_take, slice_length in Hu by done.
  eexists. split; [done |]. split; [lia |]. split; [by rewrite slice_drop | lia].
Qed.

Lemma agrees_u32 {A B} e c (k : nat * Z -> P B) (q : Z -> list Z -> option (A * list Z)) Q s lo :
  (lo <= section_curr s <= e)%nat -> (e <= length bytes)%nat ->
  (forall next x, (section_curr s < next <= e)%nat -> 0 <= x < 2 ^ 32 ->
     agrees e lo (k (next, x) s) (q x (slice bytes next e)) Q) ->
  agrees e lo ((parse_u32 bytes e c ≫= k) s)
    ('(x, rest) ← p_u32 (slice bytes (section_curr s) e); q x rest) Q.
Proof using Hbytes.
  intros Hlo He Hk. pose proof (parse_u32_cases e c s ltac:(lia) He) as H.
  destruct (p_u32 _) as [[x rest] |]; simpl.
  - destruct H as (next & H & Hn & <- & Hx). rewrite (bind_done _ _ _ _ _ H). auto.
  - destruct H as (pc & H). eexists. split; [by apply bind_thrown | simpl; lia].
Qed.

(** One byte. *)
Lemma peek_byte_done e c s b rest :
  (section_curr s <= e)%nat -> (e <= length bytes)%nat ->
  slice bytes (section_curr s) e = b :: rest ->
  (section_curr s < e)%nat /\ ⟦ peek_byte bytes e c ⟧ s ⇓ (b, s) /\ slice bytes (S (section_curr s)) e = rest.
Proof.
  intros Hc He Hs. destruct (Nat.eqb_spec (section_curr s) e) as [Heq | Hne].
  { by rewrite slice_empty in Hs by lia. }
  destruct (slice_cons bytes (section_curr s) e) as (b' & Hb & Hs'); [lia.. |].
  rewrite Hs in Hs'. injection Hs' as -> ->. split; [lia |]. split; [| done].
  unfold peek_byte. rewrite bind_gets, (proj2 (Nat.eqb_neq _ _) Hne). simpl. by rewrite bind_ret, Hb.
Qed.

Lemma agrees_peek {A B} e c (k : Z -> P B) (q : Z -> list Z -> option (A * list Z)) Q s lo :
  (lo <= section_curr s <= e)%nat -> (e <= length bytes)%nat ->
  (forall b, (section_curr s < e)%nat -> is_byte b ->
     agrees e lo (k b s) (q b (slice bytes (S (section_curr s)) e)) Q) ->
  agrees e lo ((peek_byte bytes e c ≫= k) s)
    ('(b, rest) ← p_byte (slice bytes (section_curr s) e); q b rest) Q.
Proof using Hbytes.
  intros Hlo He Hk. unfold peek_byte. rewrite sm_bind_assoc, bind_gets, sm_bind_assoc.
  destruct (Nat.eqb_spec (section_curr s) e) as [Heq | Hne].
  - rewrite slice_empty by lia. eexists. split; [done | simpl; lia].
  - destruct (slice_cons bytes (section_curr s) e) as (b & Hb & ->); [lia.. |]. simpl.
    rewrite bind_ret, Hb, bind_some. apply Hk; [lia |]. by eapply Forall_lookup_1.
Qed.

(** The counter test at the head of an entry. *)
Section Counter.
Context (count : Z) (Hcount : 0 <= count < 2 ^ 32) (exceeded : wpec.code) (s : pstate).

Definition count_entry {B} (counter : Z) (k : Z -> P B) : P B :=
  counter ← counter_selfinc_throw_when_overflow counter;
  sm_when (count <? counter)
    (sm_throw (pinvalid (section_curr s) exceeded (psel_u32 count)));;
  k counter.

Lemma count_entry_full {B} (k : Z -> P B) :
  exists err, ⟦ count_entry count k ⟧ s ⇑ err /\ perr_curr err = section_curr s.
Proof using Hcount.
  unfold count_entry, counter_selfinc_throw_when_overflow, mbind, sm_bind, sm_get. simpl.
  destruct (Z.eqb_spec count (2 ^ 32 - 1)); [by eexists |]. simpl.
  rewrite (proj2 (Z.ltb_lt count (count + 1))) by lia. by eexists.
Qed.

Lemma count_entry_next {B} (k : Z -> P B) i :
  i < count -> count_entry i k s = k (i + 1) s.
Proof using Hcount.
  intros Hi. unfold count_entry, counter_selfinc_throw_when_overflow, mbind, sm_bind, sm_get. simpl.
  destruct (Z.eqb_spec i (2 ^ 32 - 1)); [lia |]. simpl.
  by rewrite (proj2 (Z.ltb_ge count (i + 1))) by lia.
Qed.
End Counter.

(** ** The loop over the entries of a section

    [entry] parses the next entry and relates the states by [Post]; the loop collects the
    entries up to the end of the section. What an entry may depend on is [t], updated by
    [next]; [idx t] is the number of entries before it. *)

Section Fold.
Context {A T : Type} (section_end : nat) (next : T -> A -> T) (idx : T -> nat).
Context (Hidx : forall t x, idx (next t x) = S (idx t)).
Context (p : T -> parser A) (entry : Z -> P unit).
Context (Post : T -> A -> pstate -> pstate -> Prop).
Context (Inv : T -> pstate -> Prop).
Context (Hend : (section_end <= length bytes)%nat).
Context (count : Z) (Hcount : 0 <= count < 2 ^ 32).
Context (Hentry : forall t s,
  Inv t s -> Z.of_nat (idx t) < count -> (section_curr s < section_end)%nat ->
  parses section_end (entry (Z.of_nat (idx t) + 1)) (p t)
    (fun x _ s s' => (section_curr s < section_curr s')%nat /\ Post t x s s' /\ Inv (next t x) s') s).

(** The states a list of entries leads through, and the last [t]. *)
Fixpoint fposts (t : T) (xs : list A) (s s' : pstate) : Prop :=
  match xs with
  | [] => s' = s
  | x :: xs => exists s1, Post t x s s1 /\ fposts (next t x) xs s1 s'
  end.

Lemma p_fold_nonempty fuel t b bs xs :
  p_fold next p fuel t (b :: bs) = Some xs -> 1 <= zlen xs.
Proof using.
  destruct fuel as [| fuel]; simpl; [done |]. intros H. option_inv. unfold zlen. simpl.
  clear. lia.
Qed.

Definition rejected {B} (m : P B) (s : pstate) : Prop :=
  exists err, ⟦ m ⟧ s ⇑ err /\ (section_curr s <= perr_curr err <= section_end)%nat.

(** What the loop does from [t], for a result of the reference parser. *)
Definition fold_result (m : P Z) (t : T) (s : pstate) (r : option (list A)) : Prop :=
  match r with
  | Some xs =>
      if Z.of_nat (idx t) + zlen xs <=? count then
        exists s', ⟦ m ⟧ s ⇓ (Z.of_nat (idx t) + zlen xs, s') /\ section_curr s' = section_end /\
          fposts t xs s s' /\ Inv (foldl next t xs) s'
      else rejected m s
  | None => rejected m s
  end.

Lemma fold_result_full m t s b bs pfuel :
  Z.of_nat (idx t) = count -> rejected m s -> fold_result m t s (p_fold next p pfuel t (b :: bs)).
Proof.
  intros Hi Hr. unfold fold_result.
  destruct (p_fold next p pfuel t (b :: bs)) as [xs |] eqn:Hx; [| done].
  apply p_fold_nonempty in Hx. by destruct (Z.leb_spec (Z.of_nat (idx t) + zlen xs) count); [lia |].
Qed.

Lemma fold_result_cons (m m' : P Z) t s x s1 r :
  m s = m' s1 -> (section_curr s <= section_curr s1)%nat -> Post t x s s1 ->
  fold_result m' (next t x) s1 r ->
  fold_result m t s (xs ← r; Some (x :: xs)).
Proof using Hidx Hend Hcount.
  intros Hm Hc Hpost. unfold fold_result, rejected. rewrite Hm.
  destruct r as [xs |]; simpl; [| intros (err & ? & ?); exists err; split; [done | lia]].
  replace (Z.of_nat (idx t) + zlen (x :: xs)) with (Z.of_nat (idx (next t x)) + zlen xs)
    by (rewrite Hidx; unfold zlen; simpl; lia).
  destruct (Z.of_nat (idx (next t x)) + zlen xs <=? count).
  - intros (s' & Hd & He & Hp & HI). exists s'. eauto 10.
  - intros (err & ? & ?). exists err. split; [done | lia].
Qed.

Lemma fold_loop_cases exceeded fuel pfuel t s :
  Inv t s -> (section_curr s <= section_end)%nat ->
  (section_end - section_curr s < fuel)%nat -> (section_end - section_curr s <= pfuel)%nat ->
  Z.of_nat (idx t) <= count ->
  fold_result (entries_loop fuel section_end exceeded count (Z.of_nat (idx t)) entry) t s
    (p_fold next p pfuel t (slice bytes (section_curr s) section_end)).
Proof using Hend Hcount Hentry Hidx.
  revert pfuel t s. induction fuel as [| fuel IH]; intros pfuel t s HI Hc Hf Hp Hi; [lia |].
  destruct (Nat.eqb_spec (section_curr s) section_end) as [Heq | Hne].
  { rewrite slice_empty by lia.
    replace (p_fold next p pfuel t []) with (Some (@nil A)) by (by destruct pfuel).
    unfold fold_result, zlen. simpl. rewrite Z.add_0_r.
    destruct (Z.leb_spec (Z.of_nat (idx t)) count); [| lia].
    exists s. unfold mbind, sm_bind, sm_get. by rewrite (proj2 (Nat.eqb_eq _ _) Heq). }
  set (k := fun counter => entry counter;;
              entries_loop fuel section_end exceeded count counter entry).
  assert (Hm : entries_loop (S fuel) section_end exceeded count (Z.of_nat (idx t)) entry s =
               count_entry count exceeded s (Z.of_nat (idx t)) k s).
  { simpl. unfold mbind at 1, sm_bind at 1, sm_get at 1.
    by rewrite (proj2 (Nat.eqb_neq _ _) Hne). }
  destruct (slice_cons bytes (section_curr s) section_end) as (b & _ & Hb); [lia.. |].
  destruct (decide (Z.of_nat (idx t) = count)) as [Hmax | Hlt].
  { rewrite Hb. apply fold_result_full; [done |]. unfold rejected. rewrite Hm, Hmax.
    destruct (count_entry_full count Hcount exceeded s k) as (err & He & Hcur).
    exists err. split; [done | lia]. }
  rewrite count_entry_next in Hm by lia.
  destruct pfuel as [| pfuel]; [lia |].
  pose proof (Hentry t s HI ltac:(lia) ltac:(lia)) as He. unfold parses, agrees in He.
  rewrite Hb in He |- *. simpl p_fold. destruct (p t _) as [[x rest] |].
  - destruct He as (u & s1 & Hd & Hr & <- & Hgt & Hpost & HI'). simpl.
    pose proof (Hidx t x) as Hix.
    replace (Z.of_nat (idx t) + 1) with (Z.of_nat (idx (next t x))) in Hm, Hd by lia.
    apply (fold_result_cons _ (entries_loop fuel section_end exceeded count
      (Z.of_nat (idx (next t x))) entry) t s x s1); [| lia | done | apply IH; [done | lia..]].
    etrans; [exact Hm |]. unfold k. by rewrite (bind_done _ _ _ _ _ Hd).
  - destruct He as (err & He & Hpos). exists err. split; [| lia].
    etrans; [exact Hm |]. unfold k. by apply bind_thrown.
Qed.

(** The loop and the test of the counter after it. *)
Lemma fold_body_cases exceeded mismatch t s :
  idx t = 0%nat -> Inv t s -> (section_curr s <= section_end)%nat ->
  let rest := slice bytes (section_curr s) section_end in
  let m := counter ← entries_loop (S (section_end - section_curr s)) section_end exceeded count 0 entry;
           entries_match mismatch count counter in
  match xs ← p_fold next p (length rest) t rest; if zlen xs =? count then Some xs else None with
  | Some xs => exists s', ⟦ m ⟧ s ⇓ (tt, s') /\ section_curr s' = section_end /\
      fposts t xs s s' /\ Inv (foldl next t xs) s'
  | None => rejected m s
  end.
Proof using Hend Hcount Hentry Hidx.
  intros Hi0 HI Hc rest m. subst rest m. rewrite slice_length by done.
  pose proof (fold_loop_cases exceeded (S (section_end - section_curr s))
    (section_end - section_curr s) t s HI Hc ltac:(lia) ltac:(lia) ltac:(lia)) as H.
  unfold fold_result in H. rewrite Hi0 in H. destruct (p_fold _ _ _ _ _) as [xs |]; simpl mbind.
  2: { destruct H as (err & H & ?). exists err. split; [by apply bind_thrown | done]. }
  rewrite Z.add_0_l in H. destruct (Z.leb_spec (zlen xs) count) as [Hle | Hgt].
  - destruct H as (s' & Hd & Hcur & Hposts & HI').
    destruct (Z.eqb_spec (zlen xs) count) as [Heq | Hne].
    + exists s'. rewrite (bind_done _ _ _ _ _ Hd). unfold entries_match. autorewrite with sm.
      by rewrite (proj2 (Z.eqb_eq _ _) Heq).
    + eexists. split.
      * rewrite (bind_done _ _ _ _ _ Hd). unfold entries_match. autorewrite with sm.
        by rewrite (proj2 (Z.eqb_neq _ _) Hne).
      * simpl. lia.
  - destruct (Z.eqb_spec (zlen xs) count); [lia |]. destruct H as (err & H & ?).
    exists err. split; [by apply bind_thrown | done].
Qed.
End Fold.

(** Entries that depend on their index only. *)
Section Loop.
Context {A : Type} (section_end : nat) (p : nat -> parser A) (entry : Z -> P unit).
Context (Post : nat -> A -> pstate -> pstate -> Prop).
Context (Inv : nat -> pstate -> Prop).
Context (Hend : (section_end <= length bytes)%nat).
Context (count : Z) (Hcount : 0 <= count < 2 ^ 32).
Context (Hentry : forall i s,
  Inv i s -> Z.of_nat i < count -> (section_curr s < section_end)%nat ->
  parses section_end (entry (Z.of_nat i + 1)) (p i)
    (fun x _ s s' => (section_curr s < section_curr s')%nat /\ Post i x s s' /\ Inv (S i) s') s).

Fixpoint posts (i : nat) (xs : list A) (s s' : pstate) : Prop :=
  match xs with
  | [] => s' = s
  | x :: xs => exists s1, Post i x s s1 /\ posts (S i) xs s1 s'
  end.

Lemma fposts_posts i xs s s' : fposts (fun i _ => S i) Post i xs s s' <-> posts i xs s s'.
Proof.
  revert i s. induction xs as [| x xs IH]; intros i s; simpl; [done |]. by setoid_rewrite IH.
Qed.

Lemma foldl_count i (xs : list A) : foldl (fun i (_ : A) => S i) i xs = (i + length xs)%nat.
Proof. revert i. induction xs as [| x xs IH]; intros i; simpl; [lia |]. rewrite IH. lia. Qed.

Lemma p_entries_nonempty fuel i b bs xs :
  p_entries fuel i p (b :: bs) = Some xs -> 1 <= zlen xs.
Proof. rewrite p_entries_fold. apply p_fold_nonempty. Qed.

Definition loop_result (m : P Z) (i : nat) (s : pstate) (r : option (list A)) : Prop :=
  match r with
  | Some xs =>
      if Z.of_nat i + zlen xs <=? count then
        exists s', ⟦ m ⟧ s ⇓ (Z.of_nat i + zlen xs, s') /\ section_curr s' = section_end /\
          posts i xs s s' /\ Inv (i + length xs) s'
      else rejected section_end m s
  | None => rejected section_end m s
  end.

Lemma entries_loop_cases exceeded fuel pfuel i s :
  Inv i s -> (section_curr s <= section_end)%nat ->
  (section_end - section_curr s < fuel)%nat -> (section_end - section_curr s <= pfuel)%nat ->
  Z.of_nat i <= count ->
  loop_result (entries_loop fuel section_end exceeded count (Z.of_nat i) entry) i s
    (p_entries pfuel i p (slice bytes (section_curr s) section_end)).
Proof using Hend Hcount Hentry.
  intros HI Hc Hf Hp Hi.
  pose proof (fold_loop_cases section_end (fun i _ => S i) (fun i => i) (fun _ _ => eq_refl) p entry
    Post Inv Hend count Hcount Hentry exceeded fuel pfuel i s HI Hc Hf Hp Hi) as H.
  rewrite p_entries_fold. unfold fold_result in H. unfold loop_result.
  destruct (p_fold _ _ _ _ _) as [xs |]; [| done]. destruct (_ <=? count); [| done].
  destruct H as (s' & ? & ? & Hps & HIe). exists s'.
  rewrite fposts_posts in Hps. by rewrite foldl_count in HIe.
Qed.

Lemma section_body_cases exceeded mismatch s :
  Inv 0 s -> (section_curr s <= section_end)%nat ->
  let rest := slice bytes (section_curr s) section_end in
  let m := counter ← entries_loop (S (section_end - section_curr s)) section_end exceeded count 0 entry;
           entries_match mismatch count counter in
  match xs ← p_entries (length rest) 0 p rest; if zlen xs =? count then Some xs else None with
  | Some xs => exists s', ⟦ m ⟧ s ⇓ (tt, s') /\ section_curr s' = section_end /\
      posts 0 xs s s' /\ Inv (length xs) s'
  | None => rejected section_end m s
  end.
Proof using Hend Hcount Hentry.
  intros HI Hc.
  pose proof (fold_body_cases section_end (fun i _ => S i) (fun i => i) (fun _ _ => eq_refl) p entry
    Post Inv Hend count Hcount Hentry exceeded mismatch 0%nat s eq_refl HI Hc) as H. cbv zeta in H |- *.
  rewrite p_entries_fold. destruct (mbind _ _) as [xs |]; [| exact H].
  destruct H as (s' & ? & ? & Hps & HIe). exists s'.
  rewrite fposts_posts in Hps. by rewrite foldl_count in HIe.
Qed.
End Loop.

(** *** A section that fills a vector

    [get] and [put] access the vector of the storage the entries are appended to; [dec]
    relates a stored entry to the parsed one. *)
Section VecSection.
Context {A Y : Type} (get : sections -> list Y) (put : list Y -> sections -> sections).
Context `{!VecField get put} (dec : Y -> A -> Prop).

Lemma snoc_length (t : list A) x : length (t ++ [x]) = S (length t).
Proof. rewrite length_app. simpl. lia. Qed.

(** One more entry. *)
Definition pushed (ys : list Y) (x0 : sections) (x : A) (_ : unit) (s s' : pstate) : Prop :=
  (section_curr s < section_curr s')%nat /\ exists y, dec y x /\ secs s' = put (ys ++ [y]) x0.

Lemma vec_fold_cases e (p : list A -> parser A) entry limit checks invalid exceeded mismatch s :
  (e <= length bytes)%nat -> (section_curr s <= e)%nat -> get (secs s) = [] ->
  (forall n, 0 <= n < 2 ^ 32 ->
     if limit <? n then rejected e (checks n) s else ⟦ checks n ⟧ s ⇓ (tt, s)) ->
  (forall seen ys c, Forall2 dec ys seen -> zlen seen < limit -> (c < e)%nat ->
     parses e (entry (zlen seen + 1)) (p seen) (pushed ys (secs s)) (PState c (put ys (secs s)))) ->
  let m := counted_section bytes e invalid exceeded mismatch checks entry in
  match p_section_fold limit p (slice bytes (section_curr s) e) with
  | Some xs => exists ys, ⟦ m ⟧ s ⇓ (tt, PState e (put ys (secs s))) /\ Forall2 dec ys xs
  | None => rejected e m s
  end.
Proof using Hbytes VecField0.
  intros He Hc Hempty Hchecks Hentry. cbv zeta. unfold counted_section, p_section_fold.
  pose proof (parse_u32_cases e invalid s Hc He) as H.
  destruct (p_u32 _) as [[n rest] |]; simpl.
  2: { destruct H as (pc & H). eexists. split; [by apply bind_thrown | simpl; lia]. }
  destruct H as (nxt & H & Hn & <- & Hrange). unfold rejected. rewrite (bind_done _ _ _ _ _ H).
  specialize (Hchecks n Hrange). destruct (Z.ltb_spec limit n) as [? | Hlim].
  { destruct Hchecks as (err & Ht & ?). exists err. split; [by apply bind_thrown | lia]. }
  rewrite (bind_done _ _ _ _ _ Hchecks), bind_move.
  pose proof (fold_body_cases e (fun seen x => seen ++ [x]) length
    snoc_length p entry (fun _ _ _ _ => True)
    (fun seen s' => exists ys, Forall2 dec ys seen /\ secs s' = put ys (secs s)) He n Hrange) as Hl.
  specialize (Hl ltac:(intros seen [c x1] (ys & Hys & Hx) Hi Hlt; simpl in Hx; subst x1;
    eapply agrees_weaken; [done | | apply (Hentry seen ys c Hys); [unfold zlen; lia | done]];
    intros x [] s2 _ (Hgt & y & Hy & Hs2); split; [done |]; split; [done |];
    exists (ys ++ [y]); split; [by apply Forall2_app; [| constructor] | done])).
  specialize (Hl exceeded mismatch [] (set_curr nxt s) eq_refl
    ltac:(exists []; split; [done | by rewrite <- Hempty, vf_put_get]) ltac:(simpl; lia)).
  cbn zeta in Hl. change (section_curr (set_curr nxt s)) with nxt in Hl.
  destruct (mbind _ _) as [xs |].
  - destruct Hl as (s' & Hd & Hcur & _ & ys & Hys & Hs'). exists ys.
    destruct s' as [c x]. simpl in Hcur, Hs'. subst c x. split; [exact Hd |].
    assert (Hf : forall (l t : list A), foldl (fun seen x => seen ++ [x]) t l = t ++ l).
    { intros l. induction l as [| x l IH]; intros t; simpl; [by rewrite app_nil_r |].
      by rewrite IH, <- app_assoc. }
    by rewrite Hf in Hys.
  - destruct Hl as (err & Hl & ?). exists err. split; [done | simpl in *; lia].
Qed.

(** Entries that do not depend on those before them. *)
Lemma vec_section_cases e (p : parser A) entry limit checks invalid exceeded mismatch s :
  (e <= length bytes)%nat -> (section_curr s <= e)%nat -> get (secs s) = [] ->
  (forall n, 0 <= n < 2 ^ 32 ->
     if limit <? n then rejected e (checks n) s else ⟦ checks n ⟧ s ⇓ (tt, s)) ->
  (forall ys c, (c < e)%nat ->
     parses e entry p (pushed ys (secs s)) (PState c (put ys (secs s)))) ->
  let m := counted_section bytes e invalid exceeded mismatch checks (fun _ => entry) in
  match p_section limit (fun _ => p) (slice bytes (section_curr s) e) with
  | Some xs => exists ys, ⟦ m ⟧ s ⇓ (tt, PState e (put ys (secs s))) /\ Forall2 dec ys xs
  | None => rejected e m s
  end.
Proof using Hbytes VecField0.
  intros He Hc Hempty Hchecks Hentry. rewrite <- p_section_fold_const.
  apply (vec_fold_cases e (fun _ => p)); try done. intros seen ys c _ _ Hc'. by apply Hentry.
Qed.
End VecSection.

Lemma check_parser_limit_cases e name maxval n s :
  (section_curr s <= e)%nat ->
  if maxval <? n then rejected e (check_parser_limit name maxval n) s
  else ⟦ check_parser_limit name maxval n ⟧ s ⇓ (tt, s).
Proof.
  intros He. unfold check_parser_limit, rejected. autorewrite with sm.
  destruct (maxval <? n); [| done]. eexists. split; [done | simpl; lia].
Qed.
End Steps.

#[export] Hint Rewrite @bind_move : sm.
(** Run the statements of a handler up to the next one that can throw. *)
Ltac run_parser := cbn beta iota zeta; autorewrite with sm; cbn beta iota zeta.
