(* ===== verification/TypeSection.v ===== *)
(** * The type section

    [parser/wasm/standard/wasm1/features/type_section.h] for the Release 1.0 feature
    set: the handler of the section, of a type prefix and of a function type, and the
    proof that it accepts exactly the type sections of the binary grammar, storing
    ranges of the module that decode to the function types. *)

From stdpp Require Import base list numbers strings.
From Stdlib Require Import ZArith Lia.
From S2P Require Import Prelude Leb128 WasmTypes ParserBase ParserSpec ParserRefine.
Open Scope Z_scope.

Section TypeSection.
Context (bytes : list Z) (limit : wasm1_parser_limit_t).

(** The loop over the bytes of a vector of value types. *)
Fixpoint check_value_types (curr n : nat) : P unit :=
  match n with
  | O => mret tt
  | S n =>
      b ← sm_unchecked (bytes !! curr);
      sm_when (negb (is_valid_value_type b))
        (sm_throw (pinvalid curr wpec.illegal_value_type (psel_u8 b)));;
      check_value_types (S curr) n
  end.

(** The range of [len] value types at the cursor, once its length is known. *)
Definition take_value_types (section_end : nat) (len : Z) (illegal : wpec.code) : P (nat * nat) :=
  begin ← sm_gets section_curr;
  sm_when (distance begin section_end <? len)
    (sm_throw (pinvalid begin illegal (psel_u32 len)));;
  let end_ := (begin + Z.to_nat len)%nat in
  move_to end_;;
  check_value_types begin (end_ - begin);;
  mret (begin, end_).

Definition exceed_types {A} (curr : nat) (value : Z) : P A :=
  sm_throw (pinvalid curr wpec.exceed_the_max_parser_limit
    (psel_exceed_the_max_parser_limit "typesec_types"%string value (max_type_sec_types limit))).

Definition handle_type_prefix_functype (section_end : nat) : P unit :=
  s ← sm_get;
  let size := zlen (typesec_types (secs s)) in
  sm_when (max_type_sec_types limit <=? size) (exceed_types (section_curr s) (uz (size + 1)));;
  '(next_para_len, para_len) ← parse_u32 bytes section_end wpec.invalid_parameter_length;
  move_to next_para_len;;
  '(pb, pe) ← take_value_types section_end para_len wpec.illegal_parameter_length;
  '(next_result_len, result_len) ← parse_u32 bytes section_end wpec.invalid_result_length;
  move_to next_result_len;;
  curr ← sm_gets section_curr;
  sm_when (1 <? result_len) (sm_throw (pinvalid curr wpec.wasm1_not_allow_multi_value psel_none));;
  '(rb, re) ← take_value_types section_end result_len wpec.illegal_result_length;
  sm_modify (fun s => set_typesec (typesec_span (secs s))
    (typesec_types (secs s) ++ [FinalFunctionType pb pe rb re]) s).

(** [switch(prefix)]; Release 1.0 has no recursive groups. *)
Definition define_type_prefix_handler (prefix : Z) (section_end prefix_module_ptr : nat) : P unit :=
  if prefix =? 96 then handle_type_prefix_functype section_end
  else sm_throw (pinvalid prefix_module_ptr wpec.illegal_type_prefix (psel_u8 prefix)).

(** The body of the loop after the counter test. *)
Definition type_entry (section_end : nat) : P unit :=
  prefix_module_ptr ← sm_gets section_curr;
  prefix ← sm_unchecked (bytes !! prefix_module_ptr);
  move_to (S prefix_module_ptr);;
  define_type_prefix_handler prefix section_end prefix_module_ptr;;
  s ← sm_get;
  let size := zlen (typesec_types (secs s)) in
  sm_when (max_type_sec_types limit <? size) (exceed_types (section_curr s) size).

Definition handle_type_section (section_begin section_end sec_id_module_ptr : nat) : P unit :=
  s ← sm_get;
  sm_when (bool_decide (is_Some (typesec_span (secs s))))
    (sm_throw (pinvalid sec_id_module_ptr wpec.duplicate_section (psel_u8 1)));;
  sm_modify (set_typesec (Some (section_begin, section_end)) (typesec_types (secs s)));;
  move_to section_begin;;
  '(type_count_next, type_count) ← parse_u32 bytes section_end wpec.invalid_type_count;
  sm_when (max_type_sec_types limit <? type_count) (exceed_types section_begin type_count);;
  move_to type_count_next;;
  type_counter ← entries_loop (S (section_end - type_count_next)) section_end
    wpec.type_section_resolved_exceeded_the_actual_number type_count 0
    (fun _ => type_entry section_end);
  entries_match wpec.type_section_resolved_not_match_the_actual_number type_count type_counter.
End TypeSection.

(** ** Decoding the stored ranges *)

Definition decode_function_type (bytes : list Z) (ft : final_function_type) : option function_type :=
  ps ← mapM value_type_of_byte (slice bytes (parameter_begin ft) (parameter_end ft));
  rs ← mapM value_type_of_byte (slice bytes (result_begin ft) (result_end ft));
  Some (FunctionType ps rs).

Definition decode_types (bytes : list Z) (s : sections) : option (list function_type) :=
  mapM (decode_function_type bytes) (typesec_types s).

(** ** Refinement *)

Section Refine.
Context (bytes : list Z) (Hbytes : Forall is_byte bytes) (Hsize : zlen bytes < 2 ^ 64).
Context (limit : wasm1_parser_limit_t).

Lemma check_value_types_cases n curr s :
  (curr + n <= length bytes)%nat ->
  match mapM value_type_of_byte (slice bytes curr (curr + n)) with
  | Some _ => ⟦ check_value_types bytes curr n ⟧ s ⇓ (tt, s)
  | None => exists err, ⟦ check_value_types bytes curr n ⟧ s ⇑ err /\
      (curr <= perr_curr err < curr + n)%nat
  end.
Proof.
  revert curr. induction n as [| n IH]; intros curr Hn.
  { by rewrite slice_empty by lia. }
  destruct (slice_cons bytes curr (curr + S n)) as (b & Hb & ->); [lia.. |].
  simpl. rewrite Hb. autorewrite with sm. rewrite is_valid_value_type_of_byte.
  destruct (value_type_of_byte b) as [t |]; simpl; [| eexists; split; [done | simpl; lia]].
  autorewrite with sm. specialize (IH (S curr) ltac:(lia)).
  replace (S curr + n)%nat with (curr + S n)%nat in IH by lia.
  destruct (mapM _ _); simpl; [done |]. destruct IH as (err & ? & ?).
  exists err. split; [done | lia].
Qed.

Lemma take_value_types_cases e len c s :
  (section_curr s <= e)%nat -> (e <= length bytes)%nat -> 0 <= len ->
  parses bytes e (take_value_types bytes e len c) (p_valtypes len)
    (fun ts r s s' => r.1 = section_curr s /\ s' = set_curr r.2 s /\
       mapM value_type_of_byte (slice bytes r.1 r.2) = Some ts) s.
Proof using Hsize.
  intros Hc He Hlen. unfold parses, agrees, take_value_types, p_valtypes, p_bytes, zlen.
  autorewrite with sm. rewrite (distance_eq bytes Hsize) by done. rewrite slice_length by done.
  destruct (Z.ltb_spec (Z.of_nat (e - section_curr s)) len); simpl.
  { eexists. split; [done | simpl; lia]. }
  run_parser.
  rewrite slice_take, slice_drop by lia.
  replace (section_curr s + Z.to_nat len - section_curr s)%nat with (Z.to_nat len) by lia.
  pose proof (check_value_types_cases (Z.to_nat len) (section_curr s)
    (set_curr (section_curr s + Z.to_nat len) s) ltac:(lia)) as Hk.
  destruct (mapM _ _) as [ts |] eqn:Hm; simpl.
  - eexists _, _. split; [by rewrite (bind_done _ _ _ _ _ Hk) |]. simpl. split; [lia |]. done.
  - destruct Hk as (err & Hk & Hpos). exists err. split; [by apply bind_thrown | lia].
Qed.

(** The pointers of a stored type delimit ranges of the module. *)
Definition type_ranges (fft : final_function_type) : Prop :=
  (parameter_begin fft <= parameter_end fft <= length bytes)%nat /\
  (result_begin fft <= result_end fft <= length bytes)%nat.

(** One more type than before. *)
Definition pushed_type (_ : nat) (ft : function_type) (s s' : pstate) : Prop :=
  exists fft, decode_function_type bytes fft = Some ft /\ type_ranges fft /\
    secs s' = secs (set_typesec (typesec_span (secs s)) (typesec_types (secs s) ++ [fft]) s).

Lemma handle_type_prefix_functype_cases e s :
  (section_curr s <= e)%nat -> (e <= length bytes)%nat ->
  zlen (typesec_types (secs s)) < max_type_sec_types limit ->
  parses bytes e (handle_type_prefix_functype bytes limit e)
    (fun bs => p_functype 0 (96 :: bs))
    (fun ft _ s s' => pushed_type 0 ft s s') s.
Proof using Hbytes Hsize.
  intros Hc He Hlim. unfold parses, handle_type_prefix_functype. autorewrite with sm.
  rewrite (proj2 (Z.leb_gt _ _)) by done. simpl sm_when. autorewrite with sm.
  apply (agrees_u32 bytes Hbytes); [lia.. |]. intros n1 pn Hn1 Hpn.
  run_parser.
  eapply (agrees_bind bytes _ _ _ (p_valtypes pn) _ _ _ (set_curr n1 s));
    [simpl; lia | apply take_value_types_cases; first [lia | simpl; lia] |].
  intros ps [pb pe] ? Hr (Hpb & -> & Hps). simpl in Hr, Hpb, Hps |- *.
  apply (agrees_u32 bytes Hbytes); [simpl; lia.. |]. intros n2 rn Hn2 Hrn. simpl in Hn2.
  run_parser.
  apply agrees_guard; [simpl; lia |]. intros Hone.
  eapply (agrees_bind bytes _ _ _ (p_valtypes rn) _ _ _ (set_curr n2 _));
    [simpl; lia | apply take_value_types_cases; first [lia | simpl; lia] |].
  intros rs [rb re] ? Hr' (Hrb & -> & Hrs). simpl in Hr', Hrb, Hrs |- *.
  eexists _, _. split; [done |]. simpl. split; [lia |]. split; [done |].
  exists (FinalFunctionType pb pe rb re). split; [| split; [split; simpl; lia | done]].
  unfold decode_function_type. simpl. by rewrite Hps; simpl; rewrite Hrs.
Qed.

Definition types_are (i : nat) (s : pstate) : Prop := length (typesec_types (secs s)) = i.

Lemma p_functype_prefix i b bs : b <> 96 -> p_functype i (b :: bs) = None.
Proof. intros Hb. unfold p_functype, p_byte. cbn. by rewrite (proj2 (Z.eqb_neq b 96)). Qed.

Lemma type_entry_cases e i s :
  types_are i s -> Z.of_nat i < max_type_sec_types limit ->
  (section_curr s < e)%nat -> (e <= length bytes)%nat ->
  parses bytes e (type_entry bytes limit e) (p_functype i)
    (fun ft _ s s' => (section_curr s < section_curr s')%nat /\ pushed_type i ft s s' /\
       types_are (S i) s') s.
Proof using Hbytes Hsize.
  intros HI Hlim Hc He. unfold parses, type_entry. autorewrite with sm.
  destruct (slice_cons bytes (section_curr s) e) as (b & Hb & ->); [done.. |]. rewrite Hb.
  run_parser. unfold define_type_prefix_handler.
  destruct (Z.eqb_spec b 96) as [-> | Hne].
  2: { rewrite p_functype_prefix by done. eexists. split; [done | simpl; lia]. }
  pose proof (handle_type_prefix_functype_cases e (set_curr (S (section_curr s)) s)
    ltac:(simpl; lia) He ltac:(simpl; unfold types_are, zlen in *; lia)) as H.
  unfold parses in H. change (section_curr (set_curr _ s)) with (S (section_curr s)) in H.
  change (p_functype i) with (p_functype 0).
  destruct (p_functype 0 _) as [[ft rest] |]; simpl in H.
  - destruct H as (u & s' & Hd & Hr & <- & fft & Hdec & Hrg & Hs'). rewrite (bind_done _ _ _ _ _ Hd).
    run_parser. assert (Hlen : types_are (S i) s').
    { unfold types_are. rewrite Hs'. simpl. rewrite length_app. simpl. unfold types_are in HI. lia. }
    exists tt, s'. unfold types_are, zlen in *. rewrite Hlen.
    rewrite (proj2 (Z.ltb_ge _ _)) by lia. simpl.
    split; [done |]. split; [lia |]. split; [done |]. split; [lia |]. split; [by exists fft | done].
  - destruct H as (err & H & ?). exists err. split; [by apply bind_thrown | lia].
Qed.

Lemma posts_types i fts s s' :
  posts pushed_type i fts s s' ->
  exists ffts, mapM (decode_function_type bytes) ffts = Some fts /\ Forall type_ranges ffts /\
    secs s' = secs (set_typesec (typesec_span (secs s)) (typesec_types (secs s) ++ ffts) s).
Proof.
  revert i s. induction fts as [| ft fts IH]; simpl; intros i s.
  - intros ->. exists []. rewrite app_nil_r. split; [done |]. split; [done |].
    by destruct s as [? []].
  - intros (s1 & (fft & Hd & Hrg & Hs1) & Hp). apply IH in Hp as (ffts & Hm & HF & Hs').
    exists (fft :: ffts). simpl. rewrite Hd. simpl. rewrite Hm. simpl. split; [done |].
    split; [by constructor |].
    rewrite Hs'. unfold set_typesec at 1. simpl. rewrite Hs1. simpl. by rewrite <- app_assoc.
Qed.

Lemma type_section_cases b e ptr s :
  (b <= e)%nat -> (e <= length bytes)%nat -> typesec_span (secs s) = None ->
  typesec_types (secs s) = [] ->
  match p_section (max_type_sec_types limit) p_functype (slice bytes b e) with
  | Some fts => exists s' ffts, ⟦ handle_type_section bytes limit b e ptr ⟧ s ⇓ (tt, s') /\
      mapM (decode_function_type bytes) ffts = Some fts /\ Forall type_ranges ffts /\
      s' = PState e (secs (set_typesec (Some (b, e)) ffts s))
  | None => exists err, ⟦ handle_type_section bytes limit b e ptr ⟧ s ⇑ err /\
      (b <= perr_curr err <= e)%nat
  end.
Proof using Hbytes Hsize.
  intros Hb He Hspan Hempty. unfold handle_type_section, p_section. autorewrite with sm.
  rewrite Hspan. simpl sm_when. autorewrite with sm.
  set (s0 := set_curr b _).
  pose proof (parse_u32_cases bytes Hbytes e wpec.invalid_type_count s0 Hb He) as H.
  change (section_curr s0) with b in H.
  destruct (p_u32 _) as [[n rest] |]; simpl.
  2: { destruct H as (pc & H). eexists. split; [by apply bind_thrown | simpl; lia]. }
  destruct H as (next & H & Hn & <- & Hrange). rewrite (bind_done _ _ _ _ _ H). run_parser.
  destruct (Z.ltb_spec (max_type_sec_types limit) n) as [? | Hlim].
  { eexists. split; [done | simpl; lia]. }
  run_parser.
  pose proof (section_body_cases bytes e p_functype (fun _ => type_entry bytes limit e)
    pushed_type types_are He n Hrange
    ltac:(intros i s1 HI Hi Hc; apply type_entry_cases; first [done | lia])
    wpec.type_section_resolved_exceeded_the_actual_number
    wpec.type_section_resolved_not_match_the_actual_number (set_curr next s0)
    ltac:(by unfold types_are; simpl; rewrite Hempty) ltac:(simpl; lia)) as Hl.
  cbn zeta in Hl. change (section_curr (set_curr next s0)) with next in Hl.
  destruct (mbind _ _) as [fts |].
  - destruct Hl as (s' & Hd & Hcur & Hp & _). apply posts_types in Hp as (ffts & Hm & HF & Hs').
    exists s', ffts. split; [done |]. split; [done |]. split; [done |]. destruct s' as [c x]. simpl in *.
    rewrite Hs', Hcur. by rewrite Hempty.
  - destruct Hl as (err & Hl & ?). exists err. split; [done | simpl in *; lia].
Qed.
End Refine.
