(* ===== verification/ExternTypes.v ===== *)
(** * Limits, table, memory and global types

    [parser/wasm/standard/wasm1/features/types.h], and the test of the number of pages
    the import and the memory section share. First [importdesc] and [exportdesc]: for each
    kind, the entries of a section of that kind, as pointers into the list of entries, kept
    as indices. *)

From stdpp Require Import base list numbers strings.
From Stdlib Require Import ZArith Lia.
From S2P Require Import Prelude Leb128 WasmTypes ParserBase ParserSpec ParserRefine.

(** ** Lists by kind *)

Section KindIndex.
Context {X : Type} (kind : X -> nat).

(** [desc[kind].push_back_unchecked(&x)] for every entry in order. *)
Fixpoint push_desc (i : nat) (xs : list X) (desc : list (list nat)) : list (list nat) :=
  match xs with
  | [] => desc
  | x :: xs => push_desc (S i) xs (alter (fun v => v ++ [i]) (kind x) desc)
  end.

(** The entries of kind [k]. *)
Definition of_kind (k : nat) (xs : list X) : list X := filter (fun x => kind x = k) xs.

(** The positions, counted from [i], of the entries of kind [k]. *)
Fixpoint kind_indices (k i : nat) (xs : list X) : list nat :=
  match xs with
  | [] => []
  | x :: xs =>
      if decide (kind x = k) then i :: kind_indices k (S i) xs else kind_indices k (S i) xs
  end.

Definition desc_indices (count : nat) (xs : list X) : list (list nat) :=
  map (fun k => kind_indices k 0 xs) (seq 0 count).

Lemma push_desc_lookup xs i desc k :
  push_desc i xs desc !! k = (fun v => v ++ kind_indices k i xs) <$> desc !! k.
Proof.
  revert i desc. induction xs as [| x xs IH]; intros i desc; simpl.
  { destruct (desc !! k); simpl; [by rewrite app_nil_r | done]. }
  rewrite IH. destruct (decide (kind x = k)) as [<- | Hne].
  - rewrite list_lookup_alter, decide_True by done. destruct (desc !! _); simpl; [by rewrite <- app_assoc | done].
  - by rewrite list_lookup_alter_ne.
Qed.

Lemma push_desc_empty count xs : push_desc 0 xs (replicate count []) = desc_indices count xs.
Proof.
  apply list_eq. intros k. rewrite push_desc_lookup. unfold desc_indices.
  rewrite list_lookup_fmap. destruct (decide (k < count)%nat) as [Hk | Hk].
  - rewrite lookup_replicate_2, lookup_seq_lt by done. done.
  - rewrite (lookup_ge_None_2 (replicate _ _)) by (rewrite length_replicate; lia).
    by rewrite lookup_seq_ge by lia.
Qed.

Lemma desc_indices_lookup count k xs :
  (k < count)%nat -> desc_indices count xs !! k = Some (kind_indices k 0 xs).
Proof. intros Hk. unfold desc_indices. by rewrite list_lookup_fmap, lookup_seq_lt. Qed.

Lemma desc_indices_nil count : desc_indices count [] = replicate count [].
Proof. symmetry. apply (push_desc_empty count []). Qed.

(** An index leads to the entry of that kind and rank. *)
Lemma kind_indices_lookup k i xs :
  Forall2 (fun j x => (i <= j)%nat /\ xs !! (j - i)%nat = Some x) (kind_indices k i xs) (of_kind k xs).
Proof.
  revert i. induction xs as [| x xs IH]; intros i; simpl; [done |].
  unfold of_kind. rewrite filter_cons. fold (of_kind k xs).
  assert (HF : Forall2 (fun j x' => (i <= j)%nat /\ (x :: xs) !! (j - i)%nat = Some x')
    (kind_indices k (S i) xs) (of_kind k xs)).
  { eapply List.Forall2_impl; [| apply (IH (S i))]. intros j x' [Hj Hl]. split; [lia |].
    by replace (j - i)%nat with (S (j - S i)) by lia. }
  destruct (decide _); [| done]. constructor; [| done]. by rewrite Nat.sub_diag.
Qed.

Lemma kind_indices_length k xs : length (kind_indices k 0 xs) = length (of_kind k xs).
Proof. eapply Forall2_length, (kind_indices_lookup k 0 xs). Qed.

Lemma kind_indices_Forall2 k xs :
  Forall2 (fun j x => xs !! j = Some x) (kind_indices k 0 xs) (of_kind k xs).
Proof.
  eapply List.Forall2_impl; [| apply (kind_indices_lookup k 0)]. intros j x [_ H]. by rewrite Nat.sub_0_r in H.
Qed.

Lemma of_kind_length k xs : (length (of_kind k xs) <= length xs)%nat.
Proof. unfold of_kind. apply length_filter. Qed.
End KindIndex.

Lemma of_kind_map {X Y} (f : X -> Y) (kx : X -> nat) (ky : Y -> nat) k xs :
  (forall x, ky (f x) = kx x) -> of_kind ky k (map f xs) = map f (of_kind kx k xs).
Proof.
  intros Hk. unfold of_kind. induction xs as [| x xs IH]; [done |]. simpl.
  rewrite !filter_cons, Hk. simpl. rewrite IH. by case_decide.
Qed.

Open Scope Z_scope.

Section ExternTypes.
Context (bytes : list Z).

Definition scan_limit_type (end_ : nat) : P limits_type :=
  flags ← peek_byte bytes end_ wpec.limit_type_cannot_find_flag;
  curr ← sm_gets section_curr;
  sm_when (negb (flags =? 0) && negb (flags =? 1))
    (sm_throw (pinvalid curr wpec.limit_type_illegal_flag (psel_u8 flags)));;
  move_to (S curr);;
  '(next_n_min, n_min) ← parse_u32 bytes end_ wpec.limit_type_invalid_min;
  move_to next_n_min;;
  if flags =? 1 then
    '(next_n_max, n_max) ← parse_u32 bytes end_ wpec.limit_type_invalid_max;
    sm_when (n_max <? n_min)
      (sm_throw (pinvalid next_n_min wpec.limit_type_max_lt_min (psel_u32arr n_max n_min)));;
    move_to next_n_max;;
    mret (LimitsType n_min n_max true)
  else mret (LimitsType n_min default_max false).

Definition scan_table_type (end_ : nat) : P table_type :=
  elemtype ← peek_byte bytes end_ wpec.table_type_cannot_find_element;
  curr ← sm_gets section_curr;
  sm_when (negb (elemtype =? 112))
    (sm_throw (pinvalid curr wpec.table_type_illegal_element (psel_u8 elemtype)));;
  move_to (S curr);;
  scan_limit_type end_.

Definition scan_memory_type (end_ : nat) : P memory_type := scan_limit_type end_.

(** [extern_imports_memory_handler] and [memory_section_memory_handler]. *)
Definition wasm1_max_pages : Z := 65536.
Definition memory_type_handler (section_end : nat) : P memory_type :=
  check_max_page_ptr ← sm_gets section_curr;
  m ← scan_memory_type section_end;
  sm_when (wasm1_max_pages <? lim_min m)
    (sm_throw (pinvalid check_max_page_ptr wpec.memory_section_resolved_exceeded_the_maximum_value
      (psel_u32 (lim_min m))));;
  sm_when (lim_present_max m && (wasm1_max_pages <? lim_max m))
    (sm_throw (pinvalid check_max_page_ptr wpec.memory_section_resolved_exceeded_the_maximum_value
      (psel_u32 (lim_max m))));;
  mret m.

Definition scan_global_type (end_ : nat) : P global_type :=
  gvt ← peek_byte bytes end_ wpec.global_type_cannot_find_valtype;
  curr ← sm_gets section_curr;
  sm_when (negb (is_valid_value_type gvt))
    (sm_throw (pinvalid curr wpec.global_type_illegal_valtype (psel_u8 gvt)));;
  type ← sm_unchecked (value_type_of_byte gvt);
  move_to (S curr);;
  mut ← peek_byte bytes end_ wpec.global_type_cannot_find_mut;
  curr ← sm_gets section_curr;
  sm_when (1 <? mut) (sm_throw (pinvalid curr wpec.global_type_illegal_mut (psel_u8 mut)));;
  move_to (S curr);;
  mret (GlobalType type (negb (mut =? 0))).
End ExternTypes.

(** ** The grammar *)

(** [limits ::= 0x00 n:u32 | 0x01 n:u32 m:u32] with [n <= m]. *)
Inductive limits_bytes : limits_type -> list Z -> Prop :=
| limits_min n nb : uN 32 nb n -> limits_bytes (LimitsType n default_max false) (0 :: nb)
| limits_min_max n m nb mb :
    uN 32 nb n -> uN 32 mb m -> n <= m -> limits_bytes (LimitsType n m true) (1 :: nb ++ mb).

Definition tabletype (t : table_type) (bs : list Z) : Prop :=
  exists lb, bs = 112 :: lb /\ limits_bytes t lb.

(** A memory type of Release 1.0 has at most 65536 pages. *)
Definition pages_ok (m : memory_type) : bool :=
  (lim_min m <=? wasm1_max_pages) && (negb (lim_present_max m) || (lim_max m <=? wasm1_max_pages)).
Definition memtype (m : memory_type) (bs : list Z) : Prop :=
  pages_ok m = true /\ limits_bytes m bs.

Definition globaltype (g : global_type) (bs : list Z) : Prop :=
  bs = [value_type_byte (global_value_type g); if is_mutable g then 1 else 0].

(** Reference parsers. *)
Definition p_limits : parser limits_type := fun bs =>
  '(flags, bs) ← p_byte bs;
  if negb (flags =? 0) && negb (flags =? 1) then None
  else
    '(n, bs) ← p_u32 bs;
    if flags =? 1 then
      '(m, bs) ← p_u32 bs;
      if m <? n then None else Some (LimitsType n m true, bs)
    else Some (LimitsType n default_max false, bs).

Definition p_tabletype : parser table_type := fun bs =>
  '(elemtype, bs) ← p_byte bs;
  if negb (elemtype =? 112) then None else p_limits bs.

Definition p_memtype : parser memory_type := fun bs =>
  '(m, bs) ← p_limits bs;
  if negb (pages_ok m) then None else Some (m, bs).

Definition p_globaltype : parser global_type := fun bs =>
  '(b, bs) ← p_byte bs;
  if negb (is_valid_value_type b) then None
  else
    t ← value_type_of_byte b;
    '(mut, bs) ← p_byte bs;
    if 1 <? mut then None else Some (GlobalType t (negb (mut =? 0)), bs).

#[global] Instance p_limits_parser : ParserOf p_limits limits_bytes.
Proof.
  intros bs l rest HF. unfold p_limits. split.
  - intros Hk. p_inv Hk as (f & ? & r & -> & -> & Hk).
    destruct (Z.eqb_spec f 0) as [-> | Hf0]; simpl in Hk.
    + p_inv Hk as (n & nb & r1 & -> & Hn & [= <- <-]). exists (0 :: nb). split; [done | by constructor].
    + destruct (Z.eqb_spec f 1) as [-> |]; simpl in Hk; [| done].
      p_inv Hk as (n & nb & r1 & -> & Hn & Hk). p_inv Hk as (m & mb & r2 & -> & Hm & Hk).
      destruct (Z.ltb_spec m n); [done |]. injection Hk as <- <-. exists (1 :: nb ++ mb).
      split; [simpl; by rewrite <- app_assoc | by constructor].
  - intros (pre & -> & Hl). destruct Hl as [n nb Hn | n m nb mb Hn Hm Hle]; simpl in *.
    + p_run p_u32. done.
    + rewrite <- app_assoc in *. p_run p_u32. p_run p_u32.
      by rewrite (proj2 (Z.ltb_ge m n)) by lia.
Qed.

#[global] Instance p_tabletype_parser : ParserOf p_tabletype tabletype.
Proof.
  intros bs t rest HF. unfold p_tabletype. split.
  - intros Hk. p_inv Hk as (b & ? & r & -> & -> & Hk).
    destruct (Z.eqb_spec b 112) as [-> |]; simpl in Hk; [| done].
    apply parser_of in Hk as (lb & -> & Hl); [| bytes]. exists (112 :: lb). split; [done |]. by exists lb.
  - intros (pre & -> & lb & -> & Hl). simpl in *. by p_run p_limits.
Qed.

#[global] Instance p_memtype_parser : ParserOf p_memtype memtype.
Proof.
  intros bs m rest HF. unfold p_memtype. split.
  - intros Hk. p_inv Hk as (l & lb & r & -> & Hl & Hk). destruct (pages_ok l) eqn:Hp; [| done].
    injection Hk as <- <-. exists lb. by split.
  - intros (pre & -> & Hp & Hl). p_run p_limits. by rewrite Hp.
Qed.

#[global] Instance p_globaltype_parser : ParserOf p_globaltype globaltype.
Proof.
  intros bs g rest HF. unfold p_globaltype. split.
  - intros Hk. p_inv Hk as (b & ? & r & -> & -> & Hk). rewrite is_valid_value_type_of_byte in Hk.
    destruct (value_type_of_byte b) as [t |] eqn:Ht; simpl in Hk; [| done].
    p_inv Hk as (mut & ? & r1 & -> & -> & Hk). destruct (Z.ltb_spec 1 mut); [done |].
    injection Hk as <- <-. apply value_type_of_byte_Some in Ht as ->.
    exists [value_type_byte t; mut]. split; [done |]. unfold globaltype. simpl.
    assert (0 <= mut) by (rewrite !Forall_app, !Forall_singleton in HF; unfold is_byte in HF; lia).
    destruct (Z.eqb_spec mut 0); simpl; do 2 f_equal; lia.
  - intros (pre & -> & ->). destruct g as [t []]; destruct t; done.
Qed.

Lemma limits_nonempty l : ~ limits_bytes l [].
Proof. by inversion 1. Qed.

Lemma tabletype_nonempty t : ~ tabletype t [].
Proof. by intros (lb & ? & _). Qed.
Lemma memtype_nonempty m : ~ memtype m [].
Proof. intros [_ H]. by apply limits_nonempty in H. Qed.

(** ** Refinement *)

Section Refine.
Context (bytes : list Z) (Hbytes : Forall is_byte bytes).

(** The value read is the value parsed, the cursor advances and nothing is stored. *)
Definition reads {A} (x y : A) (s s' : pstate) : Prop :=
  y = x /\ secs s' = secs s /\ (section_curr s < section_curr s')%nat.

Lemma scan_limit_type_cases e s :
  (section_curr s <= e)%nat -> (e <= length bytes)%nat ->
  parses bytes e (scan_limit_type bytes e) p_limits reads s.
Proof using Hbytes.
  intros Hc He. unfold parses, scan_limit_type, p_limits.
  apply (agrees_peek bytes Hbytes); [lia.. |]. intros f Hlt Hf. run_parser.
  apply agrees_guard; [simpl; lia |]. intros Hflag. run_parser.
  apply (agrees_u32 bytes Hbytes); [simpl; lia.. |]. intros n1 n Hn1 Hn. simpl in Hn1. run_parser.
  destruct (f =? 1).
  - apply (agrees_u32 bytes Hbytes _ _ _ _ _ (set_curr n1 _)); [simpl; lia.. |].
    intros n2 m Hn2 Hm. simpl in Hn2. run_parser. apply agrees_guard; [simpl; lia |]. intros Hle.
    eexists _, _. split; [done |]. simpl. split; [lia |]. split; [done |]. split_and!; [done.. | simpl; lia].
  - eexists _, _. split; [done |]. simpl. split; [lia |]. split; [done |]. split_and!; [done.. | simpl; lia].
Qed.

Lemma scan_table_type_cases e s :
  (section_curr s <= e)%nat -> (e <= length bytes)%nat ->
  parses bytes e (scan_table_type bytes e) p_tabletype reads s.
Proof using Hbytes.
  intros Hc He. unfold parses, scan_table_type, p_tabletype.
  apply (agrees_peek bytes Hbytes); [lia.. |]. intros f Hlt Hf. run_parser.
  apply agrees_guard; [simpl; lia |]. intros _. run_parser.
  eapply agrees_weaken; [| | apply (scan_limit_type_cases e (set_curr (S (section_curr s)) s))];
    [simpl; lia | | simpl; lia | done].
  intros x y s' _ (-> & Hx & Hlt'). split_and!; [done.. | simpl in *; lia].
Qed.

Lemma memory_type_handler_cases e s :
  (section_curr s <= e)%nat -> (e <= length bytes)%nat ->
  parses bytes e (memory_type_handler bytes e) p_memtype reads s.
Proof using Hbytes.
  intros Hc He. unfold parses, memory_type_handler, p_memtype. autorewrite with sm.
  eapply (agrees_bind bytes _ _ _ p_limits); [lia | by apply scan_limit_type_cases |].
  intros m ? s' Hs' (-> & Hsecs & Hlt'). cbn beta. unfold pages_ok.
  destruct (Z.ltb_spec wasm1_max_pages (lim_min m)); simpl.
  { rewrite (proj2 (Z.leb_gt (lim_min m) wasm1_max_pages)) by lia. eexists. split; [done | simpl; lia]. }
  rewrite (proj2 (Z.leb_le (lim_min m) wasm1_max_pages)) by lia. simpl. run_parser.
  destruct (lim_present_max m); simpl.
  - destruct (Z.ltb_spec wasm1_max_pages (lim_max m)); simpl.
    + rewrite (proj2 (Z.leb_gt (lim_max m) wasm1_max_pages)) by lia. eexists. split; [done | simpl; lia].
    + rewrite (proj2 (Z.leb_le (lim_max m) wasm1_max_pages)) by lia. eexists _, _. split_and!; first [done | lia].
  - eexists _, _. split_and!; first [done | lia].
Qed.

Lemma scan_global_type_cases e s :
  (section_curr s <= e)%nat -> (e <= length bytes)%nat ->
  parses bytes e (scan_global_type bytes e) p_globaltype reads s.
Proof using Hbytes.
  intros Hc He. unfold parses, scan_global_type, p_globaltype.
  apply (agrees_peek bytes Hbytes); [lia.. |]. intros b Hlt Hb. run_parser.
  apply agrees_guard; [simpl; lia |]. rewrite is_valid_value_type_of_byte. intros Hv.
  destruct (value_type_of_byte b) as [t |]; [| done]. simpl. run_parser.
  apply (agrees_peek bytes Hbytes _ _ _ _ _ (set_curr _ s)); [simpl; lia.. |].
  intros mut Hlt' Hm. simpl in Hlt'. run_parser. apply agrees_guard; [simpl; lia |]. intros _.
  eexists _, _. split; [done |]. simpl. split; [lia |]. split; [done |]. split_and!; [done.. | simpl; lia].
Qed.
End Refine.
