(* ===== verification/Names.v ===== *)
(** * Names

    The part of the import and export sections that reads a name: its length, the test
    that it fits in the section, and [check_import_export_text_format] for the text
    format of Release 1.0, UTF-8 as in RFC 3629. [wide] selects the loop of the UTF-8
    checker the target uses. *)

From stdpp Require Import base list numbers strings.
From Stdlib Require Import ZArith Lia.
From S2P Require Import Prelude Leb128 WasmTypes Utf8 Utf8Correct Utf8Words.
From S2P Require Import ParserBase ParserSpec ParserRefine.
Open Scope Z_scope.

Section Names.
Context (bytes : list Z) (wide : bool).

Definition check_import_export_text_format (begin end_ : nat) : P unit :=
  match check_legal_utf8_rfc3629_unchecked wide false (slice bytes begin end_) with
  | None => sm_fuel
  | Some r =>
      sm_when (bool_decide (u8_err r <> uec.success))
        (sm_throw (pinvalid (begin + u8_pos r) wpec.invalid_char_sequence
          (psel_u32 (uec.value (u8_err r)))))
  end.

Definition read_name (section_end : nat) (invalid too_length : wpec.code) : P u8string_view :=
  name_too_length_ptr ← sm_gets section_curr;
  '(namelen_next, namelen) ← parse_u32 bytes section_end invalid;
  move_to namelen_next;;
  sm_when (distance namelen_next section_end <? namelen)
    (sm_throw (pinvalid name_too_length_ptr too_length (psel_u32 namelen)));;
  let name_end := (namelen_next + Z.to_nat namelen)%nat in
  check_import_export_text_format namelen_next name_end;;
  move_to name_end;;
  mret (U8View namelen_next namelen).

(** The characters a view denotes. *)
Definition view_bytes (v : u8string_view) : list Z :=
  slice bytes (sv_ptr v) (sv_ptr v + Z.to_nat (sv_n v)).
End Names.

(** ** The grammar *)

Definition utf8 (bs : list Z) : Prop := exists cs, utf8_text false cs bs.

(** [name ::= b*:vec(byte)] with [b*] the UTF-8 encoding of some characters. *)
Definition name (x : list Z) (bs : list Z) : Prop :=
  utf8 x /\ exists cb, uN 32 cb (zlen x) /\ bs = cb ++ x.

Definition utf8_ok (bs : list Z) : bool :=
  match scalar false bs 0 with
  | Some r => bool_decide (u8_err r = uec.success)
  | None => false
  end.

Definition p_name : parser (list Z) := fun bs =>
  '(n, bs) ← p_u32 bs;
  '(x, bs) ← p_bytes n bs;
  if negb (utf8_ok x) then None else Some (x, bs).

Lemma utf8_ok_iff bs : Forall is_byte bs -> utf8_ok bs = true <-> utf8 bs.
Proof.
  intros HF. unfold utf8_ok. destruct (scalar_cases false bs 0 HF) as (r & Hr & k & cs & Hk & Ht & Hp & Hc).
  rewrite Hr. split.
  - intros He%bool_decide_eq_true_1. rewrite decide_True in Hc by done. subst k.
    rewrite take_ge in Ht by lia. by exists cs.
  - intros [cs' Ht']. rewrite (scalar_text false cs' bs 0 HF Ht') in Hr. injection Hr as <-.
    by apply bool_decide_eq_true_2.
Qed.

#[global] Instance p_name_parser : ParserOf p_name name.
Proof.
  intros bs x rest HF. unfold p_name. split.
  - intros Hk. p_inv Hk as (n & cb & r & -> & Hn & Hk). p_inv Hk as (y & ? & r' & -> & [-> Hl] & Hk).
    apply counted_length in Hl; [| apply u32_bounds in Hn; lia]. subst n.
    destruct (utf8_ok y) eqn:Hu; [| done]. injection Hk as <- <-.
    apply utf8_ok_iff in Hu; [| bytes]. exists (cb ++ y). split; [by rewrite <- app_assoc |].
    split; [done |]. by exists cb.
  - intros (pre & -> & Hu & cb & Hn & ->). rewrite <- app_assoc in *. p_run p_u32.
    p_run (p_bytes (zlen x)). apply utf8_ok_iff in Hu as ->; [done | bytes].
Qed.

Lemma name_nonempty x : ~ name x [].
Proof. intros (_ & cb & Hn & [-> ->]%symmetry%app_eq_nil). by apply uN_nonempty in Hn. Qed.

(** ** Refinement *)

(** Both loops of the checker give the result of the byte-by-byte one. *)
Lemma check_utf8_scalar wide zi bs :
  Forall is_byte bs -> check_legal_utf8_rfc3629_unchecked wide zi bs = scalar zi bs 0.
Proof.
  intros HF. unfold check_legal_utf8_rfc3629_unchecked. destruct wide; [| done].
  apply word_loop_scalar; [done | lia].
Qed.

Section Refine.
Context (bytes : list Z) (Hbytes : Forall is_byte bytes) (Hsize : zlen bytes < 2 ^ 64) (wide : bool).

Lemma check_text_cases a b s :
  (a <= b <= length bytes)%nat ->
  if utf8_ok (slice bytes a b) then ⟦ check_import_export_text_format bytes wide a b ⟧ s ⇓ (tt, s)
  else exists err, ⟦ check_import_export_text_format bytes wide a b ⟧ s ⇑ err /\
    (a <= perr_curr err <= b)%nat.
Proof using Hbytes.
  intros Hab. unfold check_import_export_text_format, utf8_ok.
  pose proof (slice_bytes bytes Hbytes a b) as HF. rewrite check_utf8_scalar by done.
  destruct (scalar_cases false _ 0 HF) as (r & Hr & k & cs & Hk & _ & Hp & Hc). rewrite Hr.
  rewrite slice_length in Hk by lia.
  case_bool_decide as He.
  - by rewrite bool_decide_eq_false_2 by tauto.
  - rewrite bool_decide_eq_true_2 by done. eexists. split; [done |]. simpl. lia.
Qed.

Definition reads_name (x : list Z) (v : u8string_view) (s s' : pstate) : Prop :=
  view_bytes bytes v = x /\ secs s' = secs s.

Lemma read_name_cases e invalid too_length s :
  (section_curr s <= e)%nat -> (e <= length bytes)%nat ->
  parses bytes e (read_name bytes wide e invalid too_length) p_name
    (fun x v s s' => (section_curr s < section_curr s')%nat /\ reads_name x v s s') s.
Proof using Hbytes Hsize.
  intros Hc He. unfold parses, read_name, p_name. autorewrite with sm.
  apply (agrees_u32 bytes Hbytes); [lia.. |]. intros next n Hn Hrange. run_parser.
  unfold p_bytes, zlen. rewrite slice_length, (distance_eq bytes Hsize) by lia.
  destruct (Z.ltb_spec (Z.of_nat (e - next)) n); simpl.
  { eexists. split; [done | simpl; lia]. }
  run_parser. rewrite slice_take, slice_drop by lia.
  pose proof (check_text_cases next (next + Z.to_nat n) (set_curr next s) ltac:(lia)) as Hu.
  destruct (utf8_ok _); simpl.
  - rewrite (bind_done _ _ _ _ _ Hu). run_parser. eexists _, _. split; [done |]. simpl.
    split; [lia |]. split; [done |]. split; [lia |]. done.
  - destruct Hu as (err & Hu & ?). exists err. split; [by apply bind_thrown | lia].
Qed.
End Refine.
