(* ===== verification/ImportSection.v ===== *)
(** * The import section

    [parser/wasm/standard/wasm1/features/import_section.h] for the Release 1.0 feature
    set: imports are not checked for duplicates, names may be empty, and there is at most
    one imported table and one imported memory. *)

From stdpp Require Import base list numbers strings.
From Stdlib Require Import ZArith Lia.
From S2P Require Import Prelude Leb128 WasmTypes ParserBase ParserSpec ParserRefine.
From S2P Require Import ExternTypes Names.
Open Scope Z_scope.

Section ImportSection.
Context (bytes : list Z) (limit : wasm1_parser_limit_t) (wide : bool).

(** Release 1.0 leaves [core3_type_kinds] empty. *)
Definition extern_imports_func_handler (section_end : nat) : P wasm1_final_extern_type :=
  s ← sm_get;
  '(type_index_next, type_index) ← parse_u32 bytes section_end wpec.invalid_type_index;
  sm_when (zlen (typesec_types (secs s)) <=? type_index)
    (sm_throw (pinvalid (section_curr s) wpec.illegal_type_index (psel_u32 type_index)));;
  move_to type_index_next;;
  mret (ext_func (Z.to_nat type_index)).

Definition define_extern_prefix_imports_handler (type : external_types) (section_end : nat)
    : P wasm1_final_extern_type :=
  match type with
  | et_func => extern_imports_func_handler section_end
  | et_table => t ← scan_table_type bytes section_end; mret (ext_table t)
  | et_memory => m ← memory_type_handler bytes section_end; mret (ext_memory m)
  | et_global => g ← scan_global_type bytes section_end; mret (ext_global g)
  | et_tag =>
      curr ← sm_gets section_curr;
      sm_throw (pinvalid curr wpec.illegal_importdesc_prefix (psel_u8 4))
  end.

Definition push_import (fit : final_import_type) : P unit :=
  sm_modify (fun s =>
    let sec := importsec (others (secs s)) in
    set_importsec s (ImportSection (importsec_span sec) (importsec_imports sec ++ [fit]) (importdesc sec))).

(** The body of the loop after the counter test. *)
Definition import_entry (section_end : nat) : P unit :=
  module_name ← read_name bytes wide section_end wpec.invalid_import_module_name_length
    wpec.import_module_name_too_length;
  extern_name ← read_name bytes wide section_end wpec.invalid_import_extern_name_length
    wpec.import_extern_name_too_length;
  b ← peek_byte bytes section_end wpec.import_missing_import_type;
  curr ← sm_gets section_curr;
  match external_types_of_byte b with
  | None => sm_throw (pinvalid curr wpec.illegal_importdesc_prefix (psel_u8 b))
  | Some type =>
      move_to (S curr);;
      imports ← define_extern_prefix_imports_handler type section_end;
      push_import (FinalImportType module_name extern_name imports)
  end.

(** [importdesc[type].push_back_unchecked(&imp_curr)] for every import in order. *)
Definition fit_kind (fit : final_import_type) : nat := extern_kind (fit_imports fit).
Definition push_importdesc (imports : list final_import_type) (desc : list (list nat)) : list (list nat) :=
  push_desc fit_kind 0 imports desc.

(** [importdesc.index_unchecked(k)] for a constant [k] below [importdesc_count]. *)
Definition importdesc_at (k : nat) (s : pstate) : list nat :=
  default [] (importdesc (importsec (others (secs s))) !! k).

Definition handle_import_section (section_begin section_end sec_id_module_ptr : nat) : P unit :=
  s ← sm_get;
  let sec := importsec (others (secs s)) in
  check_duplicate (importsec_span sec) sec_id_module_ptr 2;;
  sm_modify (fun s => set_importsec s
    (ImportSection (Some (section_begin, section_end)) (importsec_imports sec) (importdesc sec)));;
  move_to section_begin;;
  counted_section bytes section_end wpec.invalid_import_count
    wpec.import_section_resolved_exceeded_the_actual_number
    wpec.import_section_resolved_not_match_the_actual_number
    (check_parser_limit "importsec_imports" (max_import_sec_imports limit))
    (fun _ => import_entry section_end);;
  sm_modify (fun s =>
    let sec := importsec (others (secs s)) in
    set_importsec s (ImportSection (importsec_span sec) (importsec_imports sec)
      (push_importdesc (importsec_imports sec) (importdesc sec))));;
  s ← sm_get;
  sm_when (1 <? zlen (importdesc_at 2 s))
    (sm_throw (pinvalid (section_curr s) wpec.wasm1_not_allow_multi_memory psel_none));;
  sm_when (1 <? zlen (importdesc_at 1 s))
    (sm_throw (pinvalid (section_curr s) wpec.wasm1_not_allow_multi_table psel_none)).
End ImportSection.

(** ** The grammar *)

(** An import: the characters of its two names and its description. *)
Record import := Import {
  import_module : list Z;
  import_name : list Z;
  import_desc : wasm1_final_extern_type
}.

(** [importdesc ::= 0x00 x:typeidx | 0x01 tt:tabletype | 0x02 mt:memtype | 0x03 gt:globaltype] *)
Inductive importdesc_bytes (type_count : Z) : wasm1_final_extern_type -> list Z -> Prop :=
| importdesc_func x xb :
    x < type_count -> uN 32 xb x -> importdesc_bytes type_count (ext_func (Z.to_nat x)) (0 :: xb)
| importdesc_table t tb : tabletype t tb -> importdesc_bytes type_count (ext_table t) (1 :: tb)
| importdesc_memory m mb : memtype m mb -> importdesc_bytes type_count (ext_memory m) (2 :: mb)
| importdesc_global g gb : globaltype g gb -> importdesc_bytes type_count (ext_global g) (3 :: gb).

Definition import_bytes (type_count : Z) (x : import) (bs : list Z) : Prop :=
  exists mb nb db, bs = mb ++ nb ++ db /\ name (import_module x) mb /\ name (import_name x) nb /\
    importdesc_bytes type_count (import_desc x) db.

Definition import_kind (x : import) : nat := extern_kind (import_desc x).

(** At most one table and one memory are imported. *)
Definition single_imports (xs : list import) : bool :=
  (length (of_kind import_kind 2 xs) <=? 1)%nat && (length (of_kind import_kind 1 xs) <=? 1)%nat.

Definition p_importdesc (type_count : Z) : parser wasm1_final_extern_type := fun bs =>
  '(b, bs) ← p_byte bs;
  if b =? 0 then
    '(x, bs) ← p_u32 bs; if type_count <=? x then None else Some (ext_func (Z.to_nat x), bs)
  else if b =? 1 then '(t, bs) ← p_tabletype bs; Some (ext_table t, bs)
  else if b =? 2 then '(m, bs) ← p_memtype bs; Some (ext_memory m, bs)
  else if b =? 3 then '(g, bs) ← p_globaltype bs; Some (ext_global g, bs)
  else None.

Definition p_import (type_count : Z) : parser import := fun bs =>
  '(m, bs) ← p_name bs;
  '(n, bs) ← p_name bs;
  '(d, bs) ← p_importdesc type_count bs;
  Some (Import m n d, bs).

Definition p_imports (max_imports type_count : Z) (bs : list Z) : option (list import) :=
  xs ← p_section max_imports (fun _ => p_import type_count) bs;
  if single_imports xs then Some xs else None.

#[global] Instance p_importdesc_parser tc : ParserOf (p_importdesc tc) (importdesc_bytes tc).
Proof.
  intros bs d rest HF. unfold p_importdesc. split.
  - intros Hk. p_inv Hk as (b & ? & r & -> & -> & Hk).
    destruct (Z.eqb_spec b 0) as [-> | H0].
    { p_inv Hk as (x & xb & r1 & -> & Hx & Hk). destruct (Z.leb_spec tc x); [done |].
      injection Hk as <- <-. exists (0 :: xb). split; [done | by constructor]. }
    destruct (Z.eqb_spec b 1) as [-> | H1].
    { p_inv Hk as (t & tb & r1 & -> & Ht & [= <- <-]). exists (1 :: tb). split; [done | by constructor]. }
    destruct (Z.eqb_spec b 2) as [-> | H2].
    { p_inv Hk as (t & tb & r1 & -> & Ht & [= <- <-]). exists (2 :: tb). split; [done | by constructor]. }
    destruct (Z.eqb_spec b 3) as [-> | H3]; [| done].
    p_inv Hk as (t & tb & r1 & -> & Ht & [= <- <-]). exists (3 :: tb). split; [done | by constructor].
  - intros (pre & -> & Hd). destruct Hd as [x xb Hlt Hx | t tb Ht | m mb Hm | g gb Hg]; simpl in *.
    + p_run p_u32. by rewrite (proj2 (Z.leb_gt tc x)) by lia.
    + by p_run p_tabletype.
    + by p_run p_memtype.
    + by p_run p_globaltype.
Qed.

#[global] Instance p_import_parser tc : ParserOf (p_import tc) (import_bytes tc).
Proof.
  intros bs x rest HF. unfold p_import. split.
  - intros Hk. p_inv Hk as (m & mb & r & -> & Hm & Hk). p_inv Hk as (n & nb & r1 & -> & Hn & Hk).
    p_inv Hk as (d & db & r2 & -> & Hd & [= <- <-]). exists (mb ++ nb ++ db).
    split; [by rewrite <- !app_assoc |]. by exists mb, nb, db.
  - intros (pre & -> & mb & nb & db & -> & Hm & Hn & Hd). rewrite <- !app_assoc in *.
    p_run p_name. p_run p_name. p_run (p_importdesc tc). by destruct x.
Qed.

Lemma import_nonempty tc x : ~ import_bytes tc x [].
Proof.
  intros (mb & nb & db & [-> _]%symmetry%app_eq_nil & Hm & _). by apply name_nonempty in Hm.
Qed.

Lemma p_imports_iff limit tc bs xs :
  Forall is_byte bs ->
  p_imports limit tc bs = Some xs <->
  zlen xs <= limit /\ vec (fun _ => import_bytes tc) xs bs /\ single_imports xs = true.
Proof.
  intros HF. unfold p_imports. rewrite bind_Some.
  setoid_rewrite (p_section_iff limit (fun _ => p_import tc) (fun _ => import_bytes tc)
    (fun _ => p_import_parser tc) (fun _ => import_nonempty tc) bs); [| done].
  split.
  - intros (ys & [Hl Hv] & Hs). destruct (single_imports ys) eqn:?; [| done]. by injection Hs as ->.
  - intros (Hl & Hv & Hs). exists xs. by rewrite Hs.
Qed.

(** [importdesc] after the section: the positions of the imports of each kind. *)
Definition import_indices (imports : list final_import_type) : list (list nat) :=
  desc_indices fit_kind importdesc_count imports.

(** ** Refinement *)

Definition get_imports (x : sections) : list final_import_type := importsec_imports (importsec (others x)).
Definition put_imports (l : list final_import_type) (x : sections) : sections :=
  let sec := importsec (others x) in
  secs (set_importsec (PState 0 x) (ImportSection (importsec_span sec) l (importdesc sec))).

#[global] Instance imports_field : VecField get_imports put_imports.
Proof. by split; intros; repeat match goal with x : sections |- _ => destruct x as [? ? ? ? ? ? [? [] ? ? ? ? ? ? ?]] end. Qed.

Definition decode_import (bytes : list Z) (fit : final_import_type) : import :=
  Import (view_bytes bytes (fit_module_name fit)) (view_bytes bytes (fit_extern_name fit)) (fit_imports fit).

(** The imports a list of [importdesc] leads to. *)
Definition leads_to (bytes : list Z) (x : sections) (i : nat) (imp : import) : Prop :=
  exists fit, get_imports x !! i = Some fit /\ decode_import bytes fit = imp.

Lemma importdesc_leads bytes x k :
  (k < importdesc_count)%nat -> importdesc (importsec (others x)) = import_indices (get_imports x) ->
  Forall2 (leads_to bytes x) (importdesc_at k (PState 0 x))
    (of_kind import_kind k (map (decode_import bytes) (get_imports x))).
Proof.
  intros Hk Hd. unfold importdesc_at. simpl. rewrite Hd. unfold import_indices.
  rewrite desc_indices_lookup by done. simpl. rewrite (of_kind_map _ fit_kind) by done. apply Forall2_fmap_r.
  eapply Forall2_impl; [apply kind_indices_Forall2 |]. intros i fit Hi. by exists fit.
Qed.

Section Refine.
Context (bytes : list Z) (Hbytes : Forall is_byte bytes) (Hsize : zlen bytes < 2 ^ 64).
Context (limit : wasm1_parser_limit_t) (wide : bool).

Definition stored_import (fit : final_import_type) (x : import) : Prop := decode_import bytes fit = x.

(** What follows the kind byte. *)
Definition p_importdesc_of (tc : Z) (type : external_types) : parser wasm1_final_extern_type := fun bs =>
  match type with
  | et_func => '(x, bs) ← p_u32 bs; if tc <=? x then None else Some (ext_func (Z.to_nat x), bs)
  | et_table => '(t, bs) ← p_tabletype bs; Some (ext_table t, bs)
  | et_memory => '(m, bs) ← p_memtype bs; Some (ext_memory m, bs)
  | et_global => '(g, bs) ← p_globaltype bs; Some (ext_global g, bs)
  | et_tag => None
  end.

Lemma p_importdesc_peek {B} tc l (k : wasm1_final_extern_type * list Z -> option B) :
  (p_importdesc tc l ≫= k) =
  ('(b, bs) ← p_byte l;
   match external_types_of_byte b with Some t => p_importdesc_of tc t bs ≫= k | None => None end).
Proof.
  destruct l as [| b bs]; [done |]. unfold p_importdesc, external_types_of_byte. simpl.
  destruct (b =? 0), (b =? 1), (b =? 2), (b =? 3), (b =? 4); done.
Qed.

Lemma extern_prefix_cases tc type e s :
  zlen (typesec_types (secs s)) = tc -> (section_curr s <= e)%nat -> (e <= length bytes)%nat ->
  parses bytes e (define_extern_prefix_imports_handler bytes type e) (p_importdesc_of tc type) reads s.
Proof using Hbytes.
  intros Htc Hc He. unfold parses. destruct type; simpl.
  - unfold extern_imports_func_handler. autorewrite with sm.
    apply (agrees_u32 bytes Hbytes); [lia.. |]. intros next x Hn Hx. run_parser. rewrite Htc.
    apply agrees_guard; [simpl; lia |]. intros _. eexists _, _. split; [done |]. simpl. split; [lia |]. split; [done |]. split_and!; [done.. | simpl; lia].
  - eapply (agrees_bind bytes _ _ _ p_tabletype); [lia | by apply scan_table_type_cases |].
    intros t ? s' Hs' (-> & Hx & Hlt). eexists _, _. split_and!; first [done | lia].
  - eapply (agrees_bind bytes _ _ _ p_memtype); [lia | by apply memory_type_handler_cases |].
    intros t ? s' Hs' (-> & Hx & Hlt). eexists _, _. split_and!; first [done | lia].
  - eapply (agrees_bind bytes _ _ _ p_globaltype); [lia | by apply scan_global_type_cases |].
    intros t ? s' Hs' (-> & Hx & Hlt). eexists _, _. split_and!; first [done | lia].
  - eexists. split; [done | simpl; lia].
Qed.

Lemma import_entry_cases e x0 ys c :
  (c < e)%nat -> (e <= length bytes)%nat ->
  parses bytes e (import_entry bytes wide e) (p_import (zlen (typesec_types x0)))
    (pushed put_imports stored_import ys x0) (PState c (put_imports ys x0)).
Proof using Hbytes Hsize.
  intros Hc He. unfold parses, import_entry, p_import.
  eapply (agrees_bind bytes _ _ _ p_name); [lia | apply (read_name_cases bytes Hbytes Hsize); simpl; lia |].
  intros m mv s1 Hs1 (Hlt1 & Hm & Hx1). simpl in Hs1, Hlt1.
  eapply (agrees_bind bytes _ _ _ p_name); [simpl; lia | apply (read_name_cases bytes Hbytes Hsize); simpl; lia |].
  intros n nv s2 Hs2 (Hlt2 & Hn & Hx2).
  rewrite p_importdesc_peek.
  apply (agrees_peek bytes Hbytes); [simpl; lia.. |]. intros b Hlt Hb. run_parser.
  destruct (external_types_of_byte b) as [type |]; [| eexists; split; [done | simpl; lia]].
  run_parser.
  eapply (agrees_bind bytes _ _ _ (p_importdesc_of _ type) _ _ _ (set_curr _ s2));
    [simpl; lia | apply (extern_prefix_cases (zlen (typesec_types x0))); simpl; try lia |].
  { by rewrite Hx2, Hx1. }
  intros d ? s3 Hs3 (-> & Hx3 & _). simpl in Hs3, Hx3. eexists _, _. split; [done |]. simpl.
  split; [lia |]. split; [done |]. split; [simpl; lia |].
  exists (FinalImportType mv nv d). split; [by unfold stored_import, decode_import; simpl; rewrite Hm, Hn |].
  simpl. rewrite Hx3, Hx2, Hx1. done.
Qed.

Lemma decoded_map fits xs : Forall2 stored_import fits xs -> map (decode_import bytes) fits = xs.
Proof. induction 1 as [| fit x fits xs Hd _ IH]; simpl; [done |]. by rewrite Hd, IH. Qed.

Lemma importdesc_size k fits :
  (k < importdesc_count)%nat ->
  zlen (default [] (import_indices fits !! k)) =
  Z.of_nat (length (of_kind import_kind k (map (decode_import bytes) fits))).
Proof.
  intros Hk. unfold import_indices. rewrite desc_indices_lookup by done. simpl. unfold zlen.
  by rewrite kind_indices_length, (of_kind_map _ fit_kind), length_map.
Qed.

Definition empty_importdesc (x : sections) : Prop :=
  importdesc (importsec (others x)) = replicate importdesc_count [].

Lemma import_section_cases b e ptr s :
  (b <= e)%nat -> (e <= length bytes)%nat -> importsec_span (importsec (others (secs s))) = None ->
  get_imports (secs s) = [] -> empty_importdesc (secs s) ->
  match p_imports (max_import_sec_imports limit) (zlen (typesec_types (secs s))) (slice bytes b e) with
  | Some xs => exists fits,
      ⟦ handle_import_section bytes limit wide b e ptr ⟧ s ⇓ (tt, PState e (secs (set_importsec s
        (ImportSection (Some (b, e)) fits (import_indices fits))))) /\
      map (decode_import bytes) fits = xs
  | None => exists err, ⟦ handle_import_section bytes limit wide b e ptr ⟧ s ⇑ err /\
      (b <= perr_curr err <= e)%nat
  end.
Proof using Hbytes Hsize.
  intros Hb He Hspan Hempty Hdesc. unfold handle_import_section, p_imports, check_duplicate.
  autorewrite with sm. rewrite Hspan. simpl sm_when. autorewrite with sm.
  set (s0 := set_curr b _).
  pose proof (vec_section_cases bytes Hbytes get_imports put_imports stored_import e
    (p_import (zlen (typesec_types (secs s)))) (import_entry bytes wide e) (max_import_sec_imports limit)
    (check_parser_limit "importsec_imports" (max_import_sec_imports limit)) wpec.invalid_import_count
    wpec.import_section_resolved_exceeded_the_actual_number
    wpec.import_section_resolved_not_match_the_actual_number s0 He Hb ltac:(done)
    ltac:(intros n Hn; by apply check_parser_limit_cases)
    (fun ys c Hc => import_entry_cases e (secs s0) ys c Hc He)) as H.
  cbv zeta in H. change (section_curr s0) with b in H.
  destruct (p_section _ _ _) as [xs |]; simpl.
  2: { destruct H as (err & H & ?). exists err. split; [by apply bind_thrown | done]. }
  destruct H as (fits & H & HF). rewrite (bind_done _ _ _ _ _ H). autorewrite with sm.
  assert (Hxs : xs = map (decode_import bytes) fits) by (symmetry; by apply decoded_map). subst xs.
  set (s1 := set_importsec _ _).
  assert (Hs1 : secs s1 = secs (set_importsec s (ImportSection (Some (b, e)) fits (import_indices fits)))).
  { unfold s1, s0. simpl. unfold empty_importdesc in Hdesc. unfold push_importdesc. by rewrite Hdesc, push_desc_empty. }
  assert (Hat : forall k, (k < importdesc_count)%nat ->
    zlen (importdesc_at k s1) = Z.of_nat (length (of_kind import_kind k (map (decode_import bytes) fits)))).
  { intros k Hk. unfold importdesc_at. rewrite Hs1. by apply importdesc_size. }
  rewrite !Hat by (unfold importdesc_count; lia). unfold single_imports.
  change (section_curr s1) with e.
  set (n2 := length (of_kind import_kind 2 _)). set (n1 := length (of_kind import_kind 1 _)).
  destruct (Nat.leb_spec n2 1).
  2: { rewrite (proj2 (Z.ltb_lt 1 (Z.of_nat n2))) by lia. eexists. split; [done | simpl; lia]. }
  rewrite (proj2 (Z.ltb_ge 1 (Z.of_nat n2))) by lia. simpl sm_when. autorewrite with sm.
  destruct (Nat.leb_spec n1 1).
  2: { rewrite (proj2 (Z.ltb_lt 1 (Z.of_nat n1))) by lia. eexists. split; [done | simpl; lia]. }
  rewrite (proj2 (Z.ltb_ge 1 (Z.of_nat n1))) by lia. exists fits. split; [| done].
  exact (f_equal (fun x => Done (tt, PState e x)) Hs1).
Qed.
End Refine.
