(* ===== verification/FunctionSection.v ===== *)
(** * The function section

    [parser/wasm/standard/wasm1/features/function_section.h]: the type indices of the
    functions, stored in the smallest of five representations. The routines modelled
    are the portable ones (the loops outside the vector-extension conditionals), and,
    for the one-byte representation, the 16-byte block loop in front of the scalar
    loop; the block loops of the other representations are not modelled.

    A module with fewer than 128 types whose indices are all written in one byte is
    not copied: the storage becomes a view of the module. *)

From stdpp Require Import base list numbers strings.
From Stdlib Require Import ZArith Lia.
From S2P Require Import Prelude Leb128 WasmTypes ParserBase ParserSpec ParserRefine.
Open Scope Z_scope.

(** [emplace_back_unchecked] on the active vector, with the conversion of the index
    to its element type. *)
Definition vt_emplace_back (x : Z) (v : vectypeidx_minimize_storage_t)
    : option vectypeidx_minimize_storage_t :=
  match v with
  | vt_u8_vector l => Some (vt_u8_vector (l ++ [u8 x]))
  | vt_u16_vector l => Some (vt_u16_vector (l ++ [wrap 16 x]))
  | vt_u32_vector l => Some (vt_u32_vector (l ++ [x]))
  | vt_null | vt_u8_view _ _ => None
  end.

Definition set_funcs (v : vectypeidx_minimize_storage_t) : P unit :=
  sm_modify (fun s => set_funcsec (funcsec_span (secs s)) v s).

Definition push_typeidx (x : Z) : P unit :=
  s ← sm_get;
  v ← sm_unchecked (vt_emplace_back x (funcsec_funcs (secs s)));
  set_funcs v.

(** How a loop over the indices ends: at the end of the section, or by returning
    the result of the fallback to a vector. *)
Inductive scan_flow := Scanned (func_counter : Z) | Fallback (func_counter : Z).

Section FunctionSection.
Context (bytes : list Z) (limit : wasm1_parser_limit_t).
Context (imported_func_size : Z).
(** Whether the 16-byte block loop is compiled in. *)
Context (simd128 : bool).

Section Scan.
Context (section_end : nat) (type_section_count func_count : Z).

(** The index at the cursor: its value and the position after it. *)
Definition read_typeidx : P (nat * Z) :=
  s ← sm_get;
  '(typeidx_next, typeidx) ← parse_u32 bytes section_end wpec.invalid_type_index;
  sm_when (type_section_count <=? typeidx)
    (sm_throw (pinvalid (section_curr s) wpec.illegal_type_index (psel_u32 typeidx)));;
  mret (typeidx_next, typeidx).

Definition typeidx_entry : P unit :=
  '(typeidx_next, typeidx) ← read_typeidx;
  push_typeidx typeidx;;
  move_to typeidx_next.

Definition typeidx_loop (func_counter : Z) : P Z :=
  s ← sm_get;
  entries_loop (S (section_end - section_curr s)) section_end
    wpec.func_section_resolved_exceeded_the_actual_number func_count func_counter
    (fun _ => typeidx_entry).

Definition change_u8_1b_view_to_vec (section_leb_begin : nat) (func_counter : Z) : P Z :=
  s ← sm_get;
  set_funcs (change_mode m_u8_vector (funcsec_funcs (secs s)));;
  sm_when (negb (func_counter =? 0))
    (set_funcs (vt_u8_vector (slice bytes section_leb_begin
       (section_leb_begin + Z.to_nat func_counter))));;
  typeidx_loop func_counter.

(** The block loop: 16 single-byte indices at a time. *)
Fixpoint u8_1b_simd_loop (fuel : nat) (section_leb_begin : nat) (func_counter : Z) : P scan_flow :=
  match fuel with
  | O => sm_fuel
  | S fuel =>
      s ← sm_get;
      let curr := section_curr s in
      if distance curr section_end <? 16 then mret (Scanned func_counter)
      else
        let simd_vector_str := slice bytes curr (curr + 16) in
        let simd_vector_check := u8 type_section_count in
        if existsb (fun b => simd_vector_check <=? b) simd_vector_str then
          c ← change_u8_1b_view_to_vec section_leb_begin func_counter;
          mret (Fallback c)
        else
          func_counter ← counter_add_throw_when_overflow func_counter 16;
          sm_when (func_count <? func_counter)
            (sm_throw (pinvalid curr wpec.func_section_resolved_exceeded_the_actual_number
              (psel_u32 func_count)));;
          move_to (curr + 16);;
          u8_1b_simd_loop fuel section_leb_begin func_counter
  end.

(** The scalar loop: one index at a time, as long as it is one byte. *)
Fixpoint u8_1b_tail_loop (fuel : nat) (section_leb_begin : nat) (func_counter : Z) : P scan_flow :=
  match fuel with
  | O => sm_fuel
  | S fuel =>
      s ← sm_get;
      let curr := section_curr s in
      if (curr =? section_end)%nat then mret (Scanned func_counter)
      else
        let func_counter_this_round_end := u32 (func_counter + 1) in
        sm_when (func_counter_this_round_end <? func_counter)
          (sm_throw (pinvalid curr wpec.counter_overflows psel_none));;
        sm_when (func_count <? func_counter_this_round_end)
          (sm_throw (pinvalid curr wpec.func_section_resolved_exceeded_the_actual_number
            (psel_u32 func_count)));;
        '(typeidx_next, _) ← read_typeidx;
        if 1 <? distance curr typeidx_next then
          c ← change_u8_1b_view_to_vec section_leb_begin func_counter;
          mret (Fallback c)
        else
          move_to typeidx_next;;
          u8_1b_tail_loop fuel section_leb_begin func_counter_this_round_end
  end.

Definition scan_function_section_impl_u8_1b : P Z :=
  section_leb_begin ← sm_gets section_curr;
  set_funcs (vt_u8_view section_leb_begin 0);;
  r ← (if simd128 then u8_1b_simd_loop (S (section_end - section_leb_begin)) section_leb_begin 0
       else mret (Scanned 0));
  match r with
  | Fallback c => mret c
  | Scanned c =>
      s ← sm_get;
      r ← u8_1b_tail_loop (S (section_end - section_curr s)) section_leb_begin c;
      match r with
      | Fallback c => mret c
      | Scanned c =>
          s ← sm_get;
          set_funcs (vt_u8_view section_leb_begin (section_curr s));;
          mret c
      end
  end.

(** [fast_decode_uleb128_u32]: an index of at most two bytes. *)
Definition fast_decode_uleb128_u32 (p : nat) : option (Z * nat) :=
  if (p =? section_end)%nat then None
  else
    let remaining := distance p section_end in
    let last := (p + Z.to_nat (if (remaining <? 2)%Z then remaining else 2%Z))%nat in
    let r := scn_cnt_define_leb128_impl 32 false (slice bytes p last) in
    if bool_decide (pr_code r = pc_ok) then Some (pr_value r, pr_iter r) else None.

Definition u8_2b_entry : P unit :=
  s ← sm_get;
  let curr := section_curr s in
  match fast_decode_uleb128_u32 curr with
  | None => typeidx_entry
  | Some (typeidx, len_bytes) =>
      sm_when (type_section_count <=? typeidx)
        (sm_throw (pinvalid curr wpec.illegal_type_index (psel_u32 typeidx)));;
      push_typeidx typeidx;;
      move_to (curr + len_bytes)
  end.

Definition scan_function_section_impl_u8_2b : P Z :=
  set_funcs (vt_u8_vector []);;
  s ← sm_get;
  entries_loop (S (section_end - section_curr s)) section_end
    wpec.func_section_resolved_exceeded_the_actual_number func_count 0 (fun _ => u8_2b_entry).

Definition scan_function_section_impl_u16_2b : P Z :=
  set_funcs (vt_u16_vector []);; typeidx_loop 0.

Definition scan_function_section_impl_u16_3b : P Z :=
  set_funcs (vt_u16_vector []);; typeidx_loop 0.

Definition scan_function_section_impl_u32_5b : P Z :=
  set_funcs (vt_u32_vector []);; typeidx_loop 0.

Definition scan_function_section : P Z :=
  if type_section_count <? Z.shiftl 1 7 then scan_function_section_impl_u8_1b
  else if type_section_count <? Z.shiftl 1 8 then scan_function_section_impl_u8_2b
  else if type_section_count <? Z.shiftl 1 14 then scan_function_section_impl_u16_2b
  else if type_section_count <? Z.shiftl 1 16 then scan_function_section_impl_u16_3b
  else scan_function_section_impl_u32_5b.
End Scan.

Definition handle_function_section (section_begin section_end sec_id_module_ptr : nat) : P unit :=
  s ← sm_get;
  sm_when (bool_decide (is_Some (funcsec_span (secs s))))
    (sm_throw (pinvalid sec_id_module_ptr wpec.duplicate_section (psel_u8 3)));;
  sm_modify (set_funcsec (Some (section_begin, section_end)) (funcsec_funcs (secs s)));;
  move_to section_begin;;
  '(func_count_next, func_count) ← parse_u32 bytes section_end wpec.invalid_func_count;
  sm_when (max_code_sec_codes limit <? func_count)
    (sm_throw (pinvalid section_begin wpec.exceed_the_max_parser_limit
      (psel_exceed_the_max_parser_limit "codesec_codes"%string func_count (max_code_sec_codes limit))));;
  sm_when (u32 (2 ^ 32 - 1 - imported_func_size) <? func_count)
    (sm_throw (pinvalid section_begin wpec.imp_def_num_exceed_u32max
      (psel_imp_def_num_exceed_u32max imported_func_size func_count 0)));;
  move_to func_count_next;;
  let type_section_count := u32 (zlen (typesec_types (secs s))) in
  func_counter ← scan_function_section section_end type_section_count func_count;
  entries_match wpec.func_section_resolved_not_match_the_actual_number func_count func_counter.
End FunctionSection.

(** The indices a storage holds. *)
Definition vt_contents (bytes : list Z) (v : vectypeidx_minimize_storage_t) : list Z :=
  match v with
  | vt_null => []
  | vt_u8_view b e => slice bytes b e
  | vt_u8_vector l | vt_u16_vector l | vt_u32_vector l => l
  end.

Lemma vt_index_contents bytes v i :
  (i < vt_size v)%nat -> vt_index_unchecked bytes v i = vt_contents bytes v !! i.
Proof.
  destruct v as [| b e | l | l | l]; simpl; try done.
  intros Hi. by rewrite slice_lookup by lia.
Qed.

Lemma vt_size_contents bytes v :
  (forall b e, v = vt_u8_view b e -> (e <= length bytes)%nat) ->
  vt_size v = length (vt_contents bytes v).
Proof. destruct v; simpl; intros H; try done. by rewrite slice_length by eauto. Qed.

(** ** Refinement *)

Section Refine.
Context (bytes : list Z) (Hbytes : Forall is_byte bytes) (Hsize : zlen bytes < 2 ^ 64).
Context (e : nat) (He : (e <= length bytes)%nat).
Context (tc count : Z) (Htc : 0 <= tc < 2 ^ 32) (Hcount : 0 <= count < 2 ^ 32).

(** A vector whose elements are wide enough for every type index. *)
Definition wide_vector (v : vectypeidx_minimize_storage_t) : Prop :=
  match v with
  | vt_null | vt_u8_view _ _ => False
  | vt_u8_vector _ => tc <= 2 ^ 8
  | vt_u16_vector _ => tc <= 2 ^ 16
  | vt_u32_vector _ => True
  end.

Lemma emplace_back_wide x v :
  wide_vector v -> 0 <= x < tc ->
  exists v', vt_emplace_back x v = Some v' /\ wide_vector v' /\
    vt_contents bytes v' = vt_contents bytes v ++ [x].
Proof.
  intros Hv Hx. destruct v as [| | l | l | l]; simpl in Hv |- *; try done;
    eexists; (split; [done |]); (split; [done |]); simpl; [| | done];
    unfold u8, wrap; by rewrite Z.mod_small by lia.
Qed.

Definition pushed_idx (_ : nat) (x : Z) (s s' : pstate) : Prop :=
  exists v, wide_vector v /\ vt_contents bytes v = vt_contents bytes (funcsec_funcs (secs s)) ++ [x] /\
    secs s' = secs (set_funcsec (funcsec_span (secs s)) v s).

Definition in_vector (_ : nat) (s : pstate) : Prop := wide_vector (funcsec_funcs (secs s)).

Lemma read_typeidx_cases {A B} (k : nat * Z -> P B) (q : Z -> list Z -> option (A * list Z)) Q s :
  (section_curr s <= e)%nat ->
  (forall next x, (section_curr s < next <= e)%nat -> 0 <= x < tc ->
     agrees bytes e (section_curr s) (k (next, x) s) (q x (slice bytes next e)) Q) ->
  agrees bytes e (section_curr s) ((read_typeidx bytes e tc ≫= k) s)
    ('(x, rest) ← p_typeidx tc 0 (slice bytes (section_curr s) e); q x rest) Q.
Proof.
  intros Hc Hk. unfold read_typeidx, p_typeidx. rewrite sm_bind_assoc. autorewrite with sm.
  rewrite sm_bind_assoc.
  replace (mbind _ (mbind _ _)) with
    ('(x, rest) ← p_u32 (slice bytes (section_curr s) e);
     if tc <=? x then None else q x rest).
  2: { destruct (p_u32 _) as [[x rest] |]; simpl; [| done]. by destruct (tc <=? x). }
  apply (agrees_u32 bytes Hbytes); [lia | done |]. intros next x Hn Hx. run_parser.
  rewrite sm_bind_assoc. apply agrees_guard; [simpl; lia |]. intros Hlt%Z.leb_gt. run_parser.
  apply Hk; lia.
Qed.

Lemma typeidx_entry_cases i s :
  in_vector i s -> (section_curr s < e)%nat ->
  parses bytes e (typeidx_entry bytes e tc) (p_typeidx tc i)
    (fun x _ s s' => (section_curr s < section_curr s')%nat /\ pushed_idx i x s s' /\
       in_vector (S i) s') s.
Proof.
  intros HI Hc. unfold parses, typeidx_entry. change (p_typeidx tc i) with (p_typeidx tc 0).
  replace (p_typeidx tc 0 (slice bytes (section_curr s) e)) with
    ('(x, rest) ← p_typeidx tc 0 (slice bytes (section_curr s) e); Some (x, rest))
    by (by destruct (p_typeidx _ _ _) as [[] |]).
  apply read_typeidx_cases; [lia |]. intros next x Hn Hx. run_parser.
  destruct (emplace_back_wide x _ HI Hx) as (v & Hv & Hw & Hl).
  unfold push_typeidx. rewrite sm_bind_assoc. autorewrite with sm. rewrite Hv.
  rewrite sm_bind_assoc. autorewrite with sm. unfold set_funcs. autorewrite with sm.
  eexists tt, _. split; [done |]. simpl. split; [lia |]. split; [done |]. split; [lia |].
  split; [| done]. by exists v.
Qed.

Lemma posts_idx i xs s s' :
  in_vector i s -> posts pushed_idx i xs s s' ->
  exists v, wide_vector v /\ vt_contents bytes v = vt_contents bytes (funcsec_funcs (secs s)) ++ xs /\
    secs s' = secs (set_funcsec (funcsec_span (secs s)) v s).
Proof.
  revert i s. induction xs as [| x xs IH]; simpl; intros i s HI.
  - intros ->. eexists. split; [exact HI |]. rewrite app_nil_r. split; [done |].
    by destruct s as [? []].
  - intros (s1 & (v & Hw & Hv & Hs1) & Hp).
    apply IH in Hp as (v' & Hw' & Hv' & Hs'); [| by unfold in_vector; rewrite Hs1].
    exists v'. split; [done |]. rewrite Hs1 in Hv'. simpl in Hv'. rewrite Hv in Hv'.
    rewrite <- app_assoc in Hv'. split; [done |].
    rewrite Hs'. unfold set_funcsec at 1. simpl. by rewrite Hs1.
Qed.
(** *** Scanning routines

    What a routine does that starts with the indices [pre] already stored and with the
    result [r] of the reference parser on the rest of the section. *)
Definition scans (m : P Z) (s : pstate) (pre : list Z) (r : option (list Z)) : Prop :=
  match r with
  | Some xs =>
      if zlen (pre ++ xs) <=? count then
        exists v, ⟦ m ⟧ s ⇓ (zlen (pre ++ xs), PState e (secs (set_funcsec (funcsec_span (secs s)) v s))) /\
          vt_contents bytes v = pre ++ xs /\ vt_size v = length (pre ++ xs)
      else rejected e m s
  | None => rejected e m s
  end.

Abbreviation p_idx := (fun pfuel => p_entries pfuel 0 (p_typeidx tc)).

Lemma scans_ext m m' s pre r : m s = m' s -> scans m' s pre r -> scans m s pre r.
Proof. intros H. unfold scans, rejected. by rewrite H. Qed.

Lemma p_idx_shift pfuel i bs : p_entries pfuel i (p_typeidx tc) bs = p_idx pfuel bs.
Proof.
  generalize 0%nat. revert i bs. induction pfuel as [| f IH]; intros i bs j; destruct bs; try done.
  simpl. change (p_typeidx tc i) with (p_typeidx tc j).
  destruct (p_typeidx tc j _) as [[x rest] |]; simpl; [| done]. by rewrite (IH (S i) rest (S j)).
Qed.

Lemma vector_loop_cases entry pre pfuel s :
  (forall i s, in_vector i s -> (section_curr s < e)%nat ->
     parses bytes e entry (p_typeidx tc i)
       (fun x _ s s' => (section_curr s < section_curr s')%nat /\ pushed_idx i x s s' /\
          in_vector (S i) s') s) ->
  in_vector 0 s -> vt_contents bytes (funcsec_funcs (secs s)) = pre ->
  (section_curr s <= e)%nat -> zlen pre <= count -> (e - section_curr s <= pfuel)%nat ->
  scans (entries_loop (S (e - section_curr s)) e
    wpec.func_section_resolved_exceeded_the_actual_number count (zlen pre) (fun _ => entry))
    s pre (p_idx pfuel (slice bytes (section_curr s) e)).
Proof.
  intros Hentry HI Hpre Hc Hle Hf.
  pose proof (entries_loop_cases bytes e (p_typeidx tc) (fun _ => entry) pushed_idx in_vector
    He count Hcount ltac:(intros i s1 HI' _ Hc'; by apply Hentry)
    wpec.func_section_resolved_exceeded_the_actual_number (S (e - section_curr s)) pfuel
    (length pre) s HI Hc ltac:(lia) Hf Hle) as H.
  rewrite p_idx_shift in H. unfold loop_result in H. unfold scans.
  destruct (p_entries _ _ _ _) as [xs |]; [| done].
  change (Z.of_nat (length pre)) with (zlen pre) in H.
  replace (zlen (pre ++ xs)) with (zlen pre + zlen xs) by (unfold zlen; rewrite length_app; lia).
  destruct (zlen pre + zlen xs <=? count); [| done].
  destruct H as (s' & Hd & Hcur & Hp & _). apply posts_idx in Hp as (v & Hw & Hv & Hs'); [| done].
  exists v. rewrite Hd. destruct s' as [c x]. simpl in *. rewrite Hs', Hcur, Hv, Hpre.
  split; [done |]. split; [done |]. destruct v; simpl in *; try done; congruence.
Qed.

Lemma typeidx_loop_cases pre pfuel s :
  in_vector 0 s -> vt_contents bytes (funcsec_funcs (secs s)) = pre ->
  (section_curr s <= e)%nat -> zlen pre <= count -> (e - section_curr s <= pfuel)%nat ->
  scans (typeidx_loop bytes e tc count (zlen pre)) s pre
    (p_idx pfuel (slice bytes (section_curr s) e)).
Proof.
  intros. eapply scans_ext; [| apply vector_loop_cases; try done; intros; by apply typeidx_entry_cases].
  unfold typeidx_loop. by autorewrite with sm.
Qed.

(** The fallback keeps the indices already scanned as single bytes. *)
Lemma change_view_cases leb pfuel s :
  tc <= 2 ^ 8 -> (leb <= section_curr s <= e)%nat ->
  Z.of_nat (section_curr s - leb) <= count -> (e - section_curr s <= pfuel)%nat ->
  funcsec_funcs (secs s) = vt_u8_view leb 0 ->
  scans (change_u8_1b_view_to_vec bytes e tc count leb (Z.of_nat (section_curr s - leb))) s
    (slice bytes leb (section_curr s)) (p_idx pfuel (slice bytes (section_curr s) e)).
Proof.
  intros Ht Hc Hle Hf Hv. set (pre := slice bytes leb (section_curr s)).
  assert (Hpre : zlen pre = Z.of_nat (section_curr s - leb)).
  { unfold zlen, pre. by rewrite slice_length by lia. }
  set (s1 := set_funcsec (funcsec_span (secs s)) (vt_u8_vector pre) s).
  assert (Hm : change_u8_1b_view_to_vec bytes e tc count leb (Z.of_nat (section_curr s - leb)) s =
               typeidx_loop bytes e tc count (zlen pre) s1).
  { unfold change_u8_1b_view_to_vec, set_funcs. autorewrite with sm. rewrite Hv. simpl.
    rewrite <- Hpre. destruct (Z.eqb_spec (zlen pre) 0) as [H0 | Hne]; simpl.
    - autorewrite with sm. f_equal. unfold s1, set_funcsec. simpl.
      rewrite (nil_length_inv pre) by (unfold zlen in H0; lia). done.
    - autorewrite with sm. replace (leb + Z.to_nat (zlen pre))%nat with (section_curr s) by lia.
      done. }
  pose proof (typeidx_loop_cases pre pfuel s1 Ht eq_refl ltac:(done || (simpl; lia)) ltac:(lia) Hf) as H.
  unfold scans, rejected in *. rewrite Hm. destruct s as [c x]. exact H.
Qed.
(** *** The zero-copy view *)

Lemma read_typeidx_run s :
  (section_curr s <= e)%nat ->
  match p_typeidx tc 0 (slice bytes (section_curr s) e) with
  | Some (x, rest) => exists next, ⟦ read_typeidx bytes e tc ⟧ s ⇓ ((next, x), s) /\
      (section_curr s < next <= e)%nat /\ slice bytes next e = rest
  | None => rejected e (read_typeidx bytes e tc) s
  end.
Proof.
  intros Hc. unfold rejected, read_typeidx, p_typeidx. autorewrite with sm.
  pose proof (parse_u32_cases bytes Hbytes e wpec.invalid_type_index s Hc He) as H.
  destruct (p_u32 _) as [[x rest] |]; simpl.
  - destruct H as (next & H & Hn & <- & Hx). rewrite (bind_done _ _ _ _ _ H). run_parser.
    destruct (tc <=? x); [eexists; split; [done | simpl; lia] |]. by exists next.
  - destruct H as (pc & H). eexists. split; [by apply bind_thrown | simpl; lia].
Qed.

(** An index read from one byte is that byte. *)
Lemma single_byte_idx c x :
  (c < e)%nat -> p_typeidx tc 0 (slice bytes c e) = Some (x, slice bytes (S c) e) ->
  bytes !! c = Some x.
Proof.
  intros Hc Hp. destruct (slice_cons bytes c e) as (b & Hb & Hs); [done.. |].
  apply parser_of in Hp as (pre & Happ & _ & Hu); [| by apply slice_bytes].
  rewrite Hs in Happ. change (b :: ?l) with ([b] ++ l) in Happ. apply app_inv_tail in Happ as <-.
  inversion Hu as [| ? ? ? ? ? ? Hn]; subst; [done |]. by apply uN_nonempty in Hn.
Qed.

(** Extending the indices already stored by those of a prefix of the section. *)
Lemma scans_extend (m m' : P Z) s s1 pre ys r :
  m s = m' s1 -> (section_curr s <= section_curr s1)%nat -> secs s1 = secs s ->
  scans m' s1 (pre ++ ys) r -> scans m s pre (xs ← r; Some (ys ++ xs)).
Proof.
  intros Hm Hc Hs. unfold scans, rejected. rewrite Hm. destruct s as [c x], s1 as [c1 x1].
  simpl in *. subst x1. destruct r as [xs |]; simpl.
  - rewrite <- app_assoc. destruct (zlen (pre ++ ys ++ xs) <=? count); [done |].
    intros (err & ? & ?). exists err. split; [done | lia].
  - intros (err & ? & ?). exists err. split; [done | lia].
Qed.

Lemma scans_full m s pre b bs pfuel :
  zlen pre = count -> rejected e m s -> scans m s pre (p_idx pfuel (b :: bs)).
Proof.
  intros Hl Hr. unfold scans. destruct (p_entries _ _ _ _) as [xs |] eqn:Hx; [| done].
  apply p_entries_nonempty in Hx. unfold zlen in *. rewrite length_app.
  by destruct (Z.leb_spec (Z.of_nat (length pre + length xs)) count); [lia |].
Qed.

(** What is left to do after a loop over single-byte indices. *)
Definition finish_view (leb : nat) (r : scan_flow) : P Z :=
  match r with
  | Fallback c => mret c
  | Scanned c => s ← sm_get; set_funcs (vt_u8_view leb (section_curr s));; mret c
  end.

Definition viewing (leb : nat) (s : pstate) : Prop :=
  funcsec_funcs (secs s) = vt_u8_view leb 0 /\ (leb <= section_curr s <= e)%nat /\
  Z.of_nat (section_curr s - leb) <= count.

Lemma fallback_bind {B} (m : P Z) (k : scan_flow -> P B) (s : pstate) :
  ((c ← m; mret (Fallback c)) ≫= k) s = (m ≫= fun c => k (Fallback c)) s.
Proof. unfold mbind, sm_bind. by destruct (m s) as [[] | | |]. Qed.

Lemma bind_ret_r {B} (m : P B) (s : pstate) : (m ≫= mret) s = m s.
Proof. unfold mbind, sm_bind. by destruct (m s) as [[] | | |]. Qed.

Lemma fallback_cases leb pfuel s (k : scan_flow -> P Z) :
  (forall c, k (Fallback c) = mret c) ->
  tc <= 2 ^ 8 -> viewing leb s -> (e - section_curr s <= pfuel)%nat ->
  scans ((c ← change_u8_1b_view_to_vec bytes e tc count leb (Z.of_nat (section_curr s - leb));
          mret (Fallback c)) ≫= k) s
    (slice bytes leb (section_curr s)) (p_idx pfuel (slice bytes (section_curr s) e)).
Proof.
  intros Hk Ht (Hv & Hc & Hle) Hf. eapply scans_ext; [| by apply change_view_cases].
  rewrite fallback_bind. etrans; [| apply bind_ret_r].
  unfold mbind, sm_bind. destruct (change_u8_1b_view_to_vec _ _ _ _ _ _ _) as [[] | | |]; try done.
  by rewrite Hk.
Qed.

Lemma slice_snoc leb c x :
  (leb <= c)%nat -> bytes !! c = Some x -> slice bytes leb (S c) = slice bytes leb c ++ [x].
Proof.
  intros Hl Hx. apply lookup_lt_Some in Hx as Hlt. rewrite (slice_app bytes leb c (S c)) by lia.
  f_equal. destruct (slice_cons bytes c (S c)) as (y & Hy & ->); [lia.. |].
  rewrite slice_empty by lia. congruence.
Qed.

Lemma tail_step_full fuel leb s :
  viewing leb s -> (section_curr s < e)%nat -> Z.of_nat (section_curr s - leb) = count ->
  rejected e (u8_1b_tail_loop bytes e tc count (S fuel) leb count) s.
Proof.
  intros (_ & Hc & _) Hlt Hi. unfold rejected. simpl. autorewrite with sm.
  rewrite (proj2 (Nat.eqb_neq _ _)) by lia. unfold u32, wrap.
  destruct (decide (count = 2 ^ 32 - 1)) as [Hmax | Hmax].
  - replace ((count + 1) mod 2 ^ 32) with 0 by (by rewrite Hmax).
    rewrite (proj2 (Z.ltb_lt 0 count)) by lia. eexists. split; [done | simpl; lia].
  - rewrite Z.mod_small by lia. rewrite (proj2 (Z.ltb_ge (count + 1) count)) by lia. simpl.
    autorewrite with sm. rewrite (proj2 (Z.ltb_lt count (count + 1))) by lia. eexists. split; [done | simpl; lia].
Qed.

Lemma tail_step fuel leb s i :
  (section_curr s < e)%nat -> 0 <= i < count ->
  u8_1b_tail_loop bytes e tc count (S fuel) leb i s =
  ('(typeidx_next, _) ← read_typeidx bytes e tc;
   if 1 <? distance (section_curr s) typeidx_next then
     c ← change_u8_1b_view_to_vec bytes e tc count leb i; mret (Fallback c)
   else move_to typeidx_next;; u8_1b_tail_loop bytes e tc count fuel leb (i + 1)) s.
Proof.
  intros Hc Hi. simpl. autorewrite with sm. rewrite (proj2 (Nat.eqb_neq _ _)) by lia.
  unfold u32, wrap. rewrite Z.mod_small by lia.
  rewrite (proj2 (Z.ltb_ge (i + 1) i)) by lia. simpl. autorewrite with sm.
  rewrite (proj2 (Z.ltb_ge count (i + 1))) by lia. simpl. by autorewrite with sm.
Qed.

Lemma tail_end fuel pfuel leb s :
  viewing leb s -> section_curr s = e ->
  scans (u8_1b_tail_loop bytes e tc count (S fuel) leb (Z.of_nat (section_curr s - leb)) ≫=
         finish_view leb) s
    (slice bytes leb (section_curr s)) (p_idx pfuel (slice bytes (section_curr s) e)).
Proof.
  intros (Hv & Hc & Hle) Heq. rewrite Heq, (slice_empty bytes e e) by lia.
  replace (p_idx pfuel []) with (Some (@nil Z)) by (by destruct pfuel).
  unfold scans. rewrite app_nil_r.
  assert (Hl : zlen (slice bytes leb e) = Z.of_nat (e - leb)).
  { unfold zlen. by rewrite slice_length by lia. }
  rewrite Hl, (proj2 (Z.leb_le _ _)) by lia.
  exists (vt_u8_view leb e). split; [| split; [done | simpl; by rewrite slice_length by lia]].
  simpl. unfold mbind at 1, sm_bind at 1. autorewrite with sm.
  rewrite (proj2 (Nat.eqb_eq _ _) Heq). simpl. unfold set_funcs. autorewrite with sm.
  unfold mret, sm_ret, set_funcsec. simpl. by rewrite Heq.
Qed.

Lemma tail_cases leb fuel pfuel s :
  tc <= 2 ^ 8 -> viewing leb s -> (e - section_curr s < fuel)%nat ->
  (e - section_curr s <= pfuel)%nat ->
  scans (u8_1b_tail_loop bytes e tc count fuel leb (Z.of_nat (section_curr s - leb)) ≫=
         finish_view leb) s
    (slice bytes leb (section_curr s)) (p_idx pfuel (slice bytes (section_curr s) e)).
Proof.
  intros Ht. revert pfuel s. induction fuel as [| fuel IH]; intros pfuel s Hs Hf Hp; [lia |].
  pose proof Hs as (Hv & Hc & Hle).
  set (i := Z.of_nat (section_curr s - leb)).
  destruct (decide (section_curr s = e)) as [Heq | Hne].
  { by apply tail_end. }
  assert (Hpre : zlen (slice bytes leb (section_curr s)) = i).
  { unfold zlen. by rewrite slice_length by lia. }
  destruct (slice_cons bytes (section_curr s) e) as (b & Hb & Hcons); [lia.. |].
  destruct (decide (i = count)) as [Hmax | Hlt].
  { rewrite Hcons. apply scans_full; [lia |].
    destruct (tail_step_full fuel leb s Hs ltac:(lia) Hmax) as (err & Herr & Hpos).
    exists err. rewrite Hmax. split; [by apply bind_thrown | done]. }
  destruct pfuel as [| pfuel]; [lia |].
  pose proof (tail_step fuel leb s i ltac:(lia) ltac:(unfold i in *; lia)) as Hstep.
  pose proof (read_typeidx_run s ltac:(lia)) as Hr.
  destruct (p_typeidx tc 0 _) as [[x rest] |] eqn:Hx.
  - destruct Hr as (next & Hr & Hn & <-). rewrite (bind_done _ _ _ _ _ Hr) in Hstep.
    cbn beta iota in Hstep. rewrite (distance_eq bytes Hsize) in Hstep by lia.
    destruct (Z.ltb_spec 1 (Z.of_nat (next - section_curr s))) as [Hlong | Hone].
    + eapply scans_ext; [| apply (fallback_cases leb (S pfuel) s (finish_view leb)); done].
      unfold mbind at 1 3, sm_bind at 1 3. by rewrite Hstep.
    + assert (next = S (section_curr s)) as -> by lia.
      apply single_byte_idx in Hx as Hbx; [| lia].
      rewrite Hcons in Hx |- *. cbn [p_entries]. rewrite Hx. cbn [mbind option_bind].
      rewrite p_idx_shift.
      apply (scans_extend _ (u8_1b_tail_loop bytes e tc count fuel leb
        (Z.of_nat (section_curr (set_curr (S (section_curr s)) s) - leb)) ≫= finish_view leb) s
        (set_curr (S (section_curr s)) s) _ [x]); [| simpl; lia | done |].
      * unfold mbind at 1 2, sm_bind at 1 2. rewrite Hstep. autorewrite with sm.
        replace (i + 1) with (Z.of_nat (section_curr (set_curr (S (section_curr s)) s) - leb))
          by (simpl; unfold i; lia). done.
      * rewrite <- slice_snoc by first [lia | done].
        apply (IH pfuel (set_curr (S (section_curr s)) s)); simpl; [| lia..].
        split; [done |]. simpl. unfold i in *. lia.
  - rewrite Hcons in Hx |- *. cbn [p_entries]. rewrite Hx. cbn [mbind option_bind].
    destruct Hr as (err & Hr & Hpos). exists err. split; [| done].
    apply bind_thrown. rewrite Hstep. by apply bind_thrown.
Qed.

(** *** The block loop *)

Lemma p_typeidx_single y bs :
  0 <= y < tc -> tc <= 2 ^ 7 -> Forall is_byte bs -> p_typeidx tc 0 (y :: bs) = Some (y, bs).
Proof.
  intros Hy Ht HF. change (y :: bs) with ([y] ++ bs). apply (parser_app (p_typeidx tc 0) (typeidx tc 0)); [apply _ | |].
  - split; [lia |]. apply uN_last; lia.
  - constructor; [unfold is_byte; lia | done].
Qed.

Lemma p_idx_singles ys bs f :
  Forall (fun y => 0 <= y < tc) ys -> tc <= 2 ^ 7 -> Forall is_byte bs ->
  p_idx (length ys + f)%nat (ys ++ bs) = xs ← p_idx f bs; Some (ys ++ xs).
Proof.
  intros HF Ht Hb. induction HF as [| y ys Hy HF IH]; simpl.
  { by destruct (p_entries _ _ _ _). }
  rewrite p_typeidx_single; [| done.. | apply Forall_app; split; [| done]].
  - simpl. rewrite p_idx_shift, IH. by destruct (p_entries f _ _ _).
  - eapply Forall_impl; [exact HF |]. unfold is_byte. simpl. lia.
Qed.

Definition after_blocks (leb : nat) (r : scan_flow) : P Z :=
  match r with
  | Fallback c => mret c
  | Scanned c =>
      s ← sm_get;
      u8_1b_tail_loop bytes e tc count (S (e - section_curr s)) leb c ≫= finish_view leb
  end.

(** The counter test of a block. *)
Lemma block_counter i (k : Z -> P scan_flow) s :
  0 <= i <= count -> (section_curr s <= e)%nat ->
  let m := func_counter ← counter_add_throw_when_overflow i 16;
    sm_when (count <? func_counter)
      (sm_throw (pinvalid (section_curr s) wpec.func_section_resolved_exceeded_the_actual_number
        (psel_u32 count)));;
    k func_counter in
  if count <? i + 16 then rejected e m s else m s = k (i + 16) s.
Proof.
  intros Hi Hc m. subst m. unfold rejected, counter_add_throw_when_overflow, u32, wrap.
  rewrite sm_bind_assoc. autorewrite with sm. cbv zeta.
  destruct (Z.ltb_spec count (i + 16)).
  - destruct (Z.ltb_spec ((i + 16) mod 2 ^ 32) i) as [Hov | Hno].
    { eexists. split; [done | simpl; lia]. }
    autorewrite with sm. rewrite (proj2 (Z.ltb_lt count _)) by lia.
    eexists. split; [done | simpl; lia].
  - rewrite Z.mod_small by lia. rewrite (proj2 (Z.ltb_ge (i + 16) i)) by lia.
    autorewrite with sm. rewrite (proj2 (Z.ltb_ge count (i + 16))) by lia. done.
Qed.

Lemma scans_over m s pre ys r :
  count < zlen (pre ++ ys) -> rejected e m s -> scans m s pre (xs ← r; Some (ys ++ xs)).
Proof.
  intros Hl Hr. unfold scans. destruct r as [xs |]; simpl; [| done].
  unfold zlen in *. rewrite !length_app in *.
  by destruct (Z.leb_spec (Z.of_nat (length pre + (length ys + length xs))) count); [lia |].
Qed.

(** A block of indices below [tc], as the vector comparison sees it. *)
Lemma block_singles c :
  tc < 2 ^ 7 -> (c + 16 <= e)%nat ->
  existsb (fun b => u8 tc <=? b) (slice bytes c (c + 16)) = false ->
  Forall (fun y => 0 <= y < tc) (slice bytes c (c + 16)).
Proof.
  intros Ht Hc Hex. apply Forall_forall. intros y Hy.
  assert (Hb : is_byte y).
  { pose proof (slice_bytes bytes Hbytes c (c + 16)) as HF. rewrite Forall_forall in HF. by apply HF. }
  unfold is_byte in Hb. split; [lia |]. unfold u8, wrap in Hex. rewrite Z.mod_small in Hex by lia.
  destruct (Z.ltb_spec y tc) as [| Hge]; [done |]. exfalso.
  assert (Hin : existsb (fun b => tc <=? b) (slice bytes c (c + 16)) = true).
  { apply existsb_exists. exists y. split; [by apply list_elem_of_In | lia]. }
  congruence.
Qed.

Lemma simd_step fuel leb i s :
  (section_curr s <= e)%nat ->
  u8_1b_simd_loop bytes e tc count (S fuel) leb i s =
    (if Z.of_nat (e - section_curr s) <? 16 then mret (Scanned i)
     else if existsb (fun b => u8 tc <=? b) (slice bytes (section_curr s) (section_curr s + 16)) then
       c ← change_u8_1b_view_to_vec bytes e tc count leb i; mret (Fallback c)
     else
       func_counter ← counter_add_throw_when_overflow i 16;
       sm_when (count <? func_counter)
         (sm_throw (pinvalid (section_curr s) wpec.func_section_resolved_exceeded_the_actual_number
           (psel_u32 count)));;
       move_to (section_curr s + 16);; u8_1b_simd_loop bytes e tc count fuel leb func_counter) s.
Proof. intros Hc. simpl. autorewrite with sm. by rewrite (distance_eq bytes Hsize) by lia. Qed.

Lemma simd_cases leb fuel pfuel s :
  tc < 2 ^ 7 -> viewing leb s -> (e - section_curr s < fuel)%nat ->
  (e - section_curr s <= pfuel)%nat ->
  scans (u8_1b_simd_loop bytes e tc count fuel leb (Z.of_nat (section_curr s - leb)) ≫=
         after_blocks leb) s
    (slice bytes leb (section_curr s)) (p_idx pfuel (slice bytes (section_curr s) e)).
Proof.
  intros Ht. revert pfuel s. induction fuel as [| fuel IH]; intros pfuel s Hs Hf Hp; [lia |].
  pose proof Hs as (Hv & Hc & Hle). set (i := Z.of_nat (section_curr s - leb)).
  pose proof (simd_step fuel leb i s ltac:(lia)) as Hrun.
  destruct (Z.ltb_spec (Z.of_nat (e - section_curr s)) 16) as [Hfew | Hmany].
  { eapply scans_ext; [| apply (tail_cases leb (S (e - section_curr s))); [lia | done | lia..]].
    unfold mbind at 1, sm_bind at 1. rewrite Hrun. simpl. by autorewrite with sm. }
  destruct (existsb _ _) eqn:Hex.
  { eapply scans_ext; [| apply (fallback_cases leb pfuel s (after_blocks leb)); try done; lia].
    unfold mbind at 1 3, sm_bind at 1 3. by rewrite Hrun. }
  apply block_singles in Hex; [| lia..].
  set (c' := (section_curr s + 16)%nat) in *. set (ys := slice bytes (section_curr s) c') in *.
  assert (Hys : length ys = 16%nat) by (unfold ys, c'; rewrite slice_length; lia).
  rewrite (slice_app bytes (section_curr s) c' e) by (unfold c'; lia). fold ys.
  replace pfuel with (length ys + (pfuel - 16))%nat by lia.
  rewrite p_idx_singles by first [done | lia | by apply slice_bytes].
  assert (Happ : slice bytes leb c' = slice bytes leb (section_curr s) ++ ys)
    by (unfold ys, c'; apply slice_app; lia).
  assert (Hi : zlen (slice bytes leb (section_curr s) ++ ys) = i + 16)
    by (unfold zlen, i; rewrite length_app, Hys, slice_length by lia; lia).
  pose proof (block_counter i (fun fc => move_to c';; u8_1b_simd_loop bytes e tc count fuel leb fc) s
    ltac:(unfold i; lia) ltac:(lia)) as Hb. cbv zeta in Hb.
  destruct (Z.ltb_spec count (i + 16)).
  - apply scans_over; [lia |]. destruct Hb as (err & Hb & ?). exists err.
    split; [apply bind_thrown; by rewrite Hrun | done].
  - eapply (scans_extend _ (u8_1b_simd_loop bytes e tc count fuel leb (Z.of_nat (c' - leb)) ≫=
      after_blocks leb) s (set_curr c' s)); [| simpl; unfold c'; lia | done |].
    + unfold mbind at 1 2, sm_bind at 1 2. rewrite Hrun, Hb. autorewrite with sm.
      by replace (i + 16) with (Z.of_nat (c' - leb)) by (unfold i, c'; lia).
    + rewrite <- Happ. apply (IH (pfuel - 16)%nat (set_curr c' s)); simpl; unfold c'; [| lia..].
      split; [done |]. simpl. unfold c', i in *. lia.
Qed.

(** *** The five routines *)

Lemma scans_set v (m m' : P Z) s pre r :
  m s = m' (set_funcsec (funcsec_span (secs s)) v s) ->
  scans m' (set_funcsec (funcsec_span (secs s)) v s) pre r -> scans m s pre r.
Proof. intros Hm. unfold scans, rejected. rewrite Hm. by destruct s as [c x]. Qed.

Lemma u8_1b_cases simd pfuel s :
  tc < 2 ^ 7 -> (section_curr s <= e)%nat -> (e - section_curr s <= pfuel)%nat ->
  scans (scan_function_section_impl_u8_1b bytes simd e tc count) s []
    (p_idx pfuel (slice bytes (section_curr s) e)).
Proof.
  intros Ht Hc Hp. set (leb := section_curr s).
  set (s1 := set_funcsec (funcsec_span (secs s)) (vt_u8_view leb 0) s).
  assert (Hv : viewing leb s1).
  { split; [done |]. change (section_curr s1) with leb. rewrite Nat.sub_diag. unfold leb. lia. }
  apply (scans_set (vt_u8_view leb 0) _
    ((if simd then u8_1b_simd_loop bytes e tc count (S (e - leb)) leb 0 else mret (Scanned 0)) ≫=
     after_blocks leb)).
  { reflexivity. }
  fold s1. replace (@nil Z) with (slice bytes leb (section_curr s1)) by (apply slice_empty; simpl; lia).
  change (slice bytes leb e) with (slice bytes (section_curr s1) e).
  replace 0 with (Z.of_nat (section_curr s1 - leb)) by (simpl; unfold leb; lia).
  destruct simd.
  - apply simd_cases; [lia | done | simpl; unfold leb; lia..].
  - eapply scans_ext; [| apply (tail_cases leb (S (e - section_curr s1))); [lia | done | simpl; unfold leb; lia..]].
    by autorewrite with sm.
Qed.

(** The two-byte decoder agrees with the general one when it succeeds. *)
Lemma fast_decode_sound c x n :
  (c < e)%nat -> fast_decode_uleb128_u32 bytes e c = Some (x, n) ->
  p_u32 (slice bytes c e) = Some (x, slice bytes (c + n) e) /\ (0 < n)%nat /\ (c + n <= e)%nat /\
  0 <= x.
Proof.
  intros Hc. unfold fast_decode_uleb128_u32. rewrite (proj2 (Nat.eqb_neq _ _)) by lia.
  rewrite (distance_eq bytes Hsize) by lia.
  set (l := (c + Z.to_nat _)%nat). assert (Hl : (c < l <= e)%nat) by (subst l; destruct (Z.ltb_spec (Z.of_nat (e - c)) 2); lia).
  destruct (scn_cnt_define_leb128_impl 32 false (slice bytes c l)) as [n' pc v] eqn:Hs. simpl.
  case_bool_decide; [| done]. intros [= <- <-]. subst pc.
  assert (Hw : leb_width 32) by (right; right; left; reflexivity).
  apply leb_scan_u in Hs as [Hn Hu]; [| done | by apply slice_bytes].
  rewrite slice_length in Hn by lia. rewrite slice_take in Hu by lia.
  pose proof (uN_length_nonzero _ _ _ Hu) as Hpos. rewrite slice_length in Hpos by lia.
  apply u32_bounds in Hu as Hx.
  split; [| lia]. rewrite (slice_app bytes c (c + n') e) by lia.
  apply (parser_app p_u32 (fun x bs => uN 32 bs x)); [apply _ | done |].
  rewrite <- slice_app by lia. by apply slice_bytes.
Qed.

Lemma u8_2b_entry_cases i s :
  in_vector i s -> (section_curr s < e)%nat ->
  parses bytes e (u8_2b_entry bytes e tc) (p_typeidx tc i)
    (fun x _ s s' => (section_curr s < section_curr s')%nat /\ pushed_idx i x s s' /\
       in_vector (S i) s') s.
Proof.
  intros HI Hc. pose proof (typeidx_entry_cases i s HI Hc) as Hslow. unfold parses in *.
  unfold u8_2b_entry. autorewrite with sm. cbv zeta.
  destruct (fast_decode_uleb128_u32 bytes e (section_curr s)) as [[x n] |] eqn:Hfast; [| done].
  apply fast_decode_sound in Hfast as (Hp & Hn & Hle & Hx); [| done].
  unfold p_typeidx. rewrite Hp. simpl.
  apply agrees_guard; [simpl; lia |]. intros Hlt%Z.leb_gt.
  destruct (emplace_back_wide x _ HI ltac:(lia)) as (v & Hv & Hw & Hl).
  unfold push_typeidx. rewrite sm_bind_assoc. autorewrite with sm. rewrite Hv.
  rewrite sm_bind_assoc. autorewrite with sm. unfold set_funcs. autorewrite with sm.
  eexists tt, _. split; [done |]. simpl. split; [lia |]. split; [done |]. split; [lia |].
  split; [| done]. by exists v.
Qed.

Lemma scan_function_section_cases simd pfuel s :
  (section_curr s <= e)%nat -> (e - section_curr s <= pfuel)%nat ->
  scans (scan_function_section bytes simd e tc count) s []
    (p_idx pfuel (slice bytes (section_curr s) e)).
Proof.
  intros Hc Hp. unfold scan_function_section. rewrite !Z.shiftl_1_l.
  destruct (Z.ltb_spec tc (2 ^ 7)); [by apply u8_1b_cases |].
  destruct (Z.ltb_spec tc (2 ^ 8)).
  { eapply (scans_set (vt_u8_vector [])).
    - unfold scan_function_section_impl_u8_2b, set_funcs. by autorewrite with sm.
    - apply (vector_loop_cases (u8_2b_entry bytes e tc) [] pfuel (set_funcsec _ (vt_u8_vector []) s));
        try done; [intros; by apply u8_2b_entry_cases | unfold in_vector, zlen; simpl; lia..]. }
  destruct (Z.ltb_spec tc (2 ^ 14)); [| destruct (Z.ltb_spec tc (2 ^ 16))].
  1, 2: eapply (scans_set (vt_u16_vector [])); [done |];
    apply (typeidx_loop_cases [] pfuel (set_funcsec _ (vt_u16_vector []) s)); try done;
    unfold in_vector, zlen; simpl; lia.
  eapply (scans_set (vt_u32_vector [])); [done |].
  apply (typeidx_loop_cases [] pfuel (set_funcsec _ (vt_u32_vector []) s)); try done; unfold zlen; simpl; lia.
Qed.
End Refine.

(** ** The handler *)

Section Handler.
Context (bytes : list Z) (Hbytes : Forall is_byte bytes) (Hsize : zlen bytes < 2 ^ 64).
Context (limit : wasm1_parser_limit_t) (imported_func_size : Z) (simd128 : bool).
Context (Himported : 0 <= imported_func_size < 2 ^ 32).

(** The number of functions a section may define. *)
Definition func_limit : Z := Z.min (max_code_sec_codes limit) (2 ^ 32 - 1 - imported_func_size).

Lemma function_section_cases b e ptr s :
  (b <= e)%nat -> (e <= length bytes)%nat -> funcsec_span (secs s) = None ->
  zlen (typesec_types (secs s)) < 2 ^ 32 ->
  let m := handle_function_section bytes limit imported_func_size simd128 b e ptr in
  match p_section func_limit (p_typeidx (zlen (typesec_types (secs s)))) (slice bytes b e) with
  | Some xs => exists v,
      ⟦ m ⟧ s ⇓ (tt, PState e (secs (set_funcsec (Some (b, e)) v s))) /\
      vt_contents bytes v = xs /\ vt_size v = length xs
  | None => exists err, ⟦ m ⟧ s ⇑ err /\ (b <= perr_curr err <= e)%nat
  end.
Proof using Hbytes Hsize Himported.
  intros Hb He Hspan Htypes m. subst m. unfold handle_function_section, p_section, func_limit.
  autorewrite with sm. rewrite Hspan. simpl sm_when. autorewrite with sm. set (s0 := set_curr b _).
  pose proof (parse_u32_cases bytes Hbytes e wpec.invalid_func_count s0 Hb He) as H.
  change (section_curr s0) with b in H.
  destruct (p_u32 _) as [[n rest] |]; simpl mbind.
  2: { destruct H as (pc & H). eexists. split; [by apply bind_thrown | simpl; lia]. }
  destruct H as (next & H & Hn & <- & Hrange). rewrite (bind_done _ _ _ _ _ H). run_parser.
  destruct (Z.ltb_spec (max_code_sec_codes limit) n) as [Hmax | Hmax].
  { rewrite (proj2 (Z.ltb_lt _ n)) by lia. eexists. split; [done | simpl; lia]. }
  simpl sm_when. autorewrite with sm.
  replace (u32 (2 ^ 32 - 1 - imported_func_size)) with (2 ^ 32 - 1 - imported_func_size)
    by (unfold u32, wrap; by rewrite Z.mod_small by lia).
  destruct (Z.ltb_spec (2 ^ 32 - 1 - imported_func_size) n) as [Himp | Himp].
  { rewrite (proj2 (Z.ltb_lt _ n)) by lia. eexists. split; [done | simpl; lia]. }
  rewrite (proj2 (Z.ltb_ge _ n)) by lia. simpl sm_when. autorewrite with sm. run_parser.
  set (tc := zlen (typesec_types (secs s))) in *.
  assert (Htc : 0 <= tc < 2 ^ 32) by (unfold tc, zlen in *; lia).
  replace (u32 tc) with tc by (unfold u32, wrap; by rewrite Z.mod_small by lia).
  pose proof (scan_function_section_cases bytes Hbytes Hsize e He tc n Htc Hrange simd128
    (length (slice bytes next e)) (set_curr next s0) ltac:(simpl; lia)
    ltac:(rewrite slice_length by lia; simpl; lia)) as Hs.
  change (section_curr (set_curr next s0)) with next in Hs. unfold scans in Hs.
  destruct (p_entries _ _ _ _) as [xs |]; simpl mbind.
  2: { destruct Hs as (err & Hs & ?). exists err. split; [by apply bind_thrown | simpl in *; lia]. }
  simpl app in Hs. unfold entries_match. destruct (Z.leb_spec (zlen xs) n).
  - destruct Hs as (v & Hs & Hv & Hl). rewrite (bind_done _ _ _ _ _ Hs). autorewrite with sm.
    destruct (Z.eqb_spec (zlen xs) n); [by exists v |]. eexists. split; [done | simpl; lia].
  - destruct (Z.eqb_spec (zlen xs) n); [lia |]. destruct Hs as (err & Hs & ?).
    exists err. split; [by apply bind_thrown | simpl in *; lia].
Qed.
End Handler.
