(* ===== verification/TableMemorySections.v ===== *)
(** * The table and memory sections

    [features/table_section.h] and [features/memory_section.h] for the Release 1.0 feature
    set: with the imported ones, at most one table and one memory. *)

From stdpp Require Import base list numbers strings.
From Stdlib Require Import ZArith Lia.
From S2P Require Import Prelude Leb128 WasmTypes ParserBase ParserSpec ParserRefine.
From S2P Require Import ExternTypes Names ImportSection.
Open Scope Z_scope.

Section Sections_.
Context (bytes : list Z) (limit : wasm1_parser_limit_t).

(** [[assume(b)]]: reaching it with [b] false is undefined. *)
Definition assume (b : bool) : P unit := sm_unchecked (if b then Some tt else None).

(** The test that [count] entries beside [imported] ones are at most one. *)
Definition check_single (imported : Z) (c : wpec.code) (count : Z) : P unit :=
  s ← sm_get;
  assume (imported <=? 1);;
  sm_when ((u32 (2 ^ 32 - 1 - imported) <? count) || (1 <? u32 (count + imported)))
    (sm_throw (pinvalid (section_curr s) c psel_none)).

Definition table_entry (section_end : nat) : P unit :=
  table ← scan_table_type bytes section_end;
  sm_modify (fun s =>
    let sec := tablesec (others (secs s)) in
    set_tablesec s (TableSection (tablesec_span sec) (tablesec_tables sec ++ [table]))).

Definition handle_table_section (section_begin section_end sec_id_module_ptr : nat) : P unit :=
  s ← sm_get;
  let sec := tablesec (others (secs s)) in
  let imported_table_size := u32 (zlen (importdesc_at 1 s)) in
  check_duplicate (tablesec_span sec) sec_id_module_ptr 4;;
  sm_modify (fun s => set_tablesec s
    (TableSection (Some (section_begin, section_end)) (tablesec_tables sec)));;
  move_to section_begin;;
  counted_section bytes section_end wpec.invalid_table_count
    wpec.table_section_resolved_exceeded_the_actual_number
    wpec.table_section_resolved_not_match_the_actual_number
    (fun table_count =>
       check_single imported_table_size wpec.wasm1_not_allow_multi_table table_count;;
       check_parser_limit "tablesec_tables" (max_table_sec_tables limit) table_count)
    (fun _ => table_entry section_end).

Definition memory_entry (section_end : nat) : P unit :=
  memory ← memory_type_handler bytes section_end;
  sm_modify (fun s =>
    let sec := memorysec (others (secs s)) in
    set_memorysec s (MemorySection (memorysec_span sec) (memorysec_memories sec ++ [memory]))).

Definition handle_memory_section (section_begin section_end sec_id_module_ptr : nat) : P unit :=
  s ← sm_get;
  let sec := memorysec (others (secs s)) in
  let imported_memory_size := u32 (zlen (importdesc_at 2 s)) in
  check_duplicate (memorysec_span sec) sec_id_module_ptr 5;;
  sm_modify (fun s => set_memorysec s
    (MemorySection (Some (section_begin, section_end)) (memorysec_memories sec)));;
  move_to section_begin;;
  counted_section bytes section_end wpec.invalid_memory_count
    wpec.memory_section_resolved_exceeded_the_actual_number
    wpec.memory_section_resolved_not_match_the_actual_number
    (fun memory_count =>
       check_single imported_memory_size wpec.wasm1_not_allow_multi_memory memory_count;;
       check_parser_limit "memorysec_memories" (max_memory_sec_memories limit) memory_count)
    (fun _ => memory_entry section_end).
End Sections_.

(** What is left for definitions beside [imported] imports, within the parser limit. *)
Definition single_limit (max imported : Z) : Z := Z.min (1 - imported) max.

(** ** Refinement *)

Definition get_tables (x : sections) : list table_type := tablesec_tables (tablesec (others x)).
Definition put_tables (l : list table_type) (x : sections) : sections :=
  secs (set_tablesec (PState 0 x) (TableSection (tablesec_span (tablesec (others x))) l)).
#[global] Instance tables_field : VecField get_tables put_tables.
Proof. by split; intros; repeat match goal with x : sections |- _ => destruct x as [? ? ? ? ? ? [? ? [] ? ? ? ? ? ?]] end. Qed.

Definition get_memories (x : sections) : list memory_type := memorysec_memories (memorysec (others x)).
Definition put_memories (l : list memory_type) (x : sections) : sections :=
  secs (set_memorysec (PState 0 x) (MemorySection (memorysec_span (memorysec (others x))) l)).
#[global] Instance memories_field : VecField get_memories put_memories.
Proof. by split; intros; repeat match goal with x : sections |- _ => destruct x as [? ? ? ? ? ? [? ? ? [] ? ? ? ? ?]] end. Qed.

Section Refine.
Context (bytes : list Z) (Hbytes : Forall is_byte bytes).
Context (limit : wasm1_parser_limit_t).

Lemma check_single_cases e imported c name max n s :
  0 <= imported <= 1 -> (section_curr s <= e)%nat -> 0 <= n < 2 ^ 32 ->
  let m := check_single imported c n;; check_parser_limit name max n in
  if single_limit max imported <? n then rejected e m s else ⟦ m ⟧ s ⇓ (tt, s).
Proof.
  intros Hi Hc Hn m. subst m. unfold single_limit, check_single, assume, rejected. rewrite sm_bind_assoc, bind_get.
  rewrite (proj2 (Z.leb_le imported 1)) by lia. change (if true then Some tt else None) with (Some tt). rewrite sm_bind_assoc, bind_some.
  assert (Hr : u32 (2 ^ 32 - 1 - imported) = 2 ^ 32 - 1 - imported) by (unfold u32, wrap; rewrite Z.mod_small; lia).
  rewrite Hr. destruct ((2 ^ 32 - 1 - imported <? n) || (1 <? u32 (n + imported))) eqn:Hb.
  - assert (1 - imported < n).
    { apply orb_true_iff in Hb as [Hb | Hb]; [lia |]. unfold u32, wrap in Hb. lia. }
    rewrite (proj2 (Z.ltb_lt (Z.min _ _) n)) by lia. eexists. split; [done | simpl; lia].
  - apply orb_false_iff in Hb as [Hb1 Hb2].
    unfold u32, wrap in Hb2. rewrite Z.mod_small in Hb2 by lia. simpl sm_when. autorewrite with sm.
    pose proof (check_parser_limit_cases e name max n s Hc) as H. unfold rejected in H.
    destruct (Z.ltb_spec max n); [rewrite (proj2 (Z.ltb_lt _ n)) by lia | rewrite (proj2 (Z.ltb_ge _ n)) by lia]; done.
Qed.

Lemma table_entry_cases e x0 ys c :
  (c < e)%nat -> (e <= length bytes)%nat ->
  parses bytes e (table_entry bytes e) p_tabletype (pushed put_tables eq ys x0) (PState c (put_tables ys x0)).
Proof using Hbytes.
  intros Hc He. eapply agrees_then; [apply (scan_table_type_cases bytes Hbytes); simpl; lia |].
  intros t ? s' Hr (-> & Hx & Hlt). eexists _, _. split; [done |]. split; [done |].
  split; [simpl in *; lia |]. exists t. split; [done |]. simpl. by rewrite Hx.
Qed.

Lemma memory_entry_cases e x0 ys c :
  (c < e)%nat -> (e <= length bytes)%nat ->
  parses bytes e (memory_entry bytes e) p_memtype (pushed put_memories eq ys x0)
    (PState c (put_memories ys x0)).
Proof using Hbytes.
  intros Hc He. eapply agrees_then; [apply (memory_type_handler_cases bytes Hbytes); simpl; lia |].
  intros t ? s' Hr (-> & Hx & Hlt). eexists _, _. split; [done |]. split; [done |].
  split; [simpl in *; lia |]. exists t. split; [done |]. simpl. by rewrite Hx.
Qed.

Lemma eq_map {A} (ys xs : list A) : Forall2 eq ys xs -> ys = xs.
Proof. induction 1; congruence. Qed.

Lemma table_section_cases b e ptr s :
  let imported := zlen (importdesc_at 1 s) in
  (b <= e)%nat -> (e <= length bytes)%nat -> tablesec_span (tablesec (others (secs s))) = None ->
  get_tables (secs s) = [] -> imported <= 1 ->
  match p_section (single_limit (max_table_sec_tables limit) imported) (fun _ => p_tabletype)
          (slice bytes b e) with
  | Some ts => ⟦ handle_table_section bytes limit b e ptr ⟧ s ⇓
      (tt, PState e (secs (set_tablesec s (TableSection (Some (b, e)) ts))))
  | None => exists err, ⟦ handle_table_section bytes limit b e ptr ⟧ s ⇑ err /\
      (b <= perr_curr err <= e)%nat
  end.
Proof using Hbytes.
  intros imported Hb He Hspan Hempty Himp. unfold handle_table_section, check_duplicate.
  autorewrite with sm. rewrite Hspan. simpl sm_when. autorewrite with sm.
  assert (Hi : u32 (zlen (importdesc_at 1 s)) = imported).
  { unfold u32, wrap. rewrite Z.mod_small; unfold imported, zlen in *; lia. }
  rewrite Hi. set (s0 := set_curr b _).
  pose proof (vec_section_cases bytes Hbytes get_tables put_tables eq e p_tabletype (table_entry bytes e)
    (single_limit (max_table_sec_tables limit) imported)
    (fun n => check_single imported wpec.wasm1_not_allow_multi_table n;;
       check_parser_limit "tablesec_tables" (max_table_sec_tables limit) n)
    wpec.invalid_table_count wpec.table_section_resolved_exceeded_the_actual_number
    wpec.table_section_resolved_not_match_the_actual_number s0 He Hb Hempty
    (fun n Hn => check_single_cases e imported _ _ _ n s0 ltac:(unfold imported, zlen in *; lia) Hb Hn)
    (fun ys c Hc => table_entry_cases e (secs s0) ys c Hc He)) as H.
  cbv zeta in H. change (section_curr s0) with b in H.
  destruct (p_section _ _ _) as [ts |]; [| exact H]. destruct H as (ys & H & HF).
  apply eq_map in HF as ->. exact H.
Qed.

Lemma memory_section_cases b e ptr s :
  let imported := zlen (importdesc_at 2 s) in
  (b <= e)%nat -> (e <= length bytes)%nat -> memorysec_span (memorysec (others (secs s))) = None ->
  get_memories (secs s) = [] -> imported <= 1 ->
  match p_section (single_limit (max_memory_sec_memories limit) imported) (fun _ => p_memtype)
          (slice bytes b e) with
  | Some ms => ⟦ handle_memory_section bytes limit b e ptr ⟧ s ⇓
      (tt, PState e (secs (set_memorysec s (MemorySection (Some (b, e)) ms))))
  | None => exists err, ⟦ handle_memory_section bytes limit b e ptr ⟧ s ⇑ err /\
      (b <= perr_curr err <= e)%nat
  end.
Proof using Hbytes.
  intros imported Hb He Hspan Hempty Himp. unfold handle_memory_section, check_duplicate.
  autorewrite with sm. rewrite Hspan. simpl sm_when. autorewrite with sm.
  assert (Hi : u32 (zlen (importdesc_at 2 s)) = imported).
  { unfold u32, wrap. rewrite Z.mod_small; unfold imported, zlen in *; lia. }
  rewrite Hi. set (s0 := set_curr b _).
  pose proof (vec_section_cases bytes Hbytes get_memories put_memories eq e p_memtype (memory_entry bytes e)
    (single_limit (max_memory_sec_memories limit) imported)
    (fun n => check_single imported wpec.wasm1_not_allow_multi_memory n;;
       check_parser_limit "memorysec_memories" (max_memory_sec_memories limit) n)
    wpec.invalid_memory_count wpec.memory_section_resolved_exceeded_the_actual_number
    wpec.memory_section_resolved_not_match_the_actual_number s0 He Hb Hempty
    (fun n Hn => check_single_cases e imported _ _ _ n s0 ltac:(unfold imported, zlen in *; lia) Hb Hn)
    (fun ys c Hc => memory_entry_cases e (secs s0) ys c Hc He)) as H.
  cbv zeta in H. change (section_curr s0) with b in H.
  destruct (p_section _ _ _) as [ms |]; [| exact H]. destruct H as (ys & H & HF).
  apply eq_map in HF as ->. exact H.
Qed.
End Refine.
