(* ===== verification/ConstExpr.v ===== *)
(** * Constant expressions

    [parse_and_check_global_expr_valid] of [features/global_section.h],
    [parse_and_check_element_expr_valid] of [features/element_section.h] and
    [parse_and_check_data_expr_valid] of [features/data_section.h]: the initializer of a
    global and the offset of a segment. The three are the same loop; the last two expect
    [i32] and fill the payload of a type mismatch in the other order. *)

From stdpp Require Import base list numbers strings.
From Stdlib Require Import ZArith Lia.
From S2P Require Import Prelude Leb128 WasmTypes Utf8 ParserBase ParserSpec ParserRefine.
From S2P Require Import ExternTypes Names ImportSection.
Open Scope Z_scope.

Section ConstExpr.
Context (bytes : list Z).

(** [parse_by_scan] into a signed integer of [digits] bits. *)
Definition parse_signed (digits : Z) (end_ : nat) (c : wpec.code) : P (nat * Z) :=
  s ← sm_get;
  let curr := section_curr s in
  let r := scn_cnt_define_leb128_impl digits true (slice bytes curr end_) in
  if bool_decide (pr_code r = pc_ok) then mret ((curr + pr_iter r)%nat, pr_value r)
  else sm_throw (PErr curr c psel_none (pr_code r)).

(** The active member of [imports.storage], read as a global type. *)
Definition storage_global (x : wasm1_final_extern_type) : option global_type :=
  match x with ext_global g => Some g | _ => None end.

(** [imported_global.index_unchecked(idx)->imports.storage.global] *)
Definition imported_global_at (idx : Z) : P global_type :=
  s ← sm_get;
  i ← sm_unchecked (importdesc_at 3 s !! Z.to_nat idx);
  fit ← sm_unchecked (get_imports (secs s) !! i);
  sm_unchecked (storage_global (fit_imports fit)).

Section Step.
(** The expected type, and the payload of a mismatch with the type of a constant. *)
Context (section_end : nat) (t : value_type) (mismatch : value_type -> parse_selectable).

Definition only_one (has_data_on_type_stack : bool) : P unit :=
  curr ← sm_gets section_curr;
  sm_when has_data_on_type_stack
    (sm_throw (pinvalid curr wpec.init_const_expr_stack_should_be_only_one_element psel_none)).

Definition expect (actual : value_type) : P unit :=
  curr ← sm_gets section_curr;
  sm_when (bool_decide (t <> actual))
    (sm_throw (pinvalid curr wpec.init_const_expr_type_mismatch (mismatch actual))).

Definition advance : P unit := curr ← sm_gets section_curr; move_to (S curr).

(** [memcpy] of the [n] bytes of a floating-point constant. *)
Definition read_bits (n : nat) : P Z :=
  curr ← sm_gets section_curr;
  sm_when (distance curr section_end <? Z.of_nat n)
    (sm_throw (pinvalid curr wpec.init_const_expr_illegal_data psel_none));;
  move_to (curr + n);;
  mret (load_le n (slice bytes curr section_end)).

(** The cases of the [switch] other than [end]. *)
Definition const_expr_case (has_data : bool) (section_curr_c8 : Z) : P base_const_expr_opcode_t :=
  match wasm1_code.of_byte section_curr_c8 with
  | Some wasm1_code.i32_const =>
      only_one has_data;; expect i32;; advance;;
      '(next, v) ← parse_signed 32 section_end wpec.init_const_expr_illegal_data;
      move_to next;; mret (ce_i32_const v)
  | Some wasm1_code.i64_const =>
      only_one has_data;; expect i64;; advance;;
      '(next, v) ← parse_signed 64 section_end wpec.init_const_expr_illegal_data;
      move_to next;; mret (ce_i64_const v)
  | Some wasm1_code.f32_const =>
      only_one has_data;; expect f32;; advance;;
      v ← read_bits 4; mret (ce_f32_const v)
  | Some wasm1_code.f64_const =>
      only_one has_data;; expect f64;; advance;;
      v ← read_bits 8; mret (ce_f64_const v)
  | Some wasm1_code.global_get =>
      only_one has_data;; advance;;
      curr ← sm_gets section_curr;
      '(next, test_global_idx) ← parse_u32 bytes section_end wpec.init_const_expr_illegal_data;
      s ← sm_get;
      let imported_global_size := u32 (zlen (importdesc_at 3 s)) in
      sm_when (imported_global_size <=? test_global_idx)
        (sm_throw (pinvalid curr wpec.init_const_expr_ref_illegal_imported_global
          (psel_u32arr imported_global_size test_global_idx)));;
      g ← imported_global_at test_global_idx;
      sm_when (bool_decide (global_value_type g <> t))
        (sm_throw (pinvalid curr wpec.init_const_expr_type_mismatch
          (psel_u8arr (value_type_byte t) (value_type_byte (global_value_type g)))));;
      sm_when (is_mutable g)
        (sm_throw (pinvalid curr wpec.init_const_expr_ref_mutable_imported_global
          (psel_u32 test_global_idx)));;
      move_to next;; mret (ce_global_get test_global_idx)
  | _ =>
      curr ← sm_gets section_curr;
      sm_throw (pinvalid curr wpec.init_const_expr_illegal_instruction psel_none)
  end.

(** [for(;;)]; every iteration consumes a byte. *)
Fixpoint const_expr_loop (fuel : nat) (has_data : bool) (opcodes : list base_const_expr_opcode_t)
    : P (bool * list base_const_expr_opcode_t) :=
  match fuel with
  | O => sm_fuel
  | S fuel =>
      section_curr_c8 ← peek_byte bytes section_end wpec.init_const_expr_terminator_not_found;
      if section_curr_c8 =? wasm1_code.opcode wasm1_code.end_ then advance;; mret (has_data, opcodes)
      else
        op ← const_expr_case has_data section_curr_c8;
        const_expr_loop fuel true (opcodes ++ [op])
  end.

Definition const_expr : P wasm1_const_expr_storage_t :=
  begin ← sm_gets section_curr;
  '(has_data, opcodes) ← const_expr_loop (S (section_end - begin)) false [];
  curr ← sm_gets section_curr;
  sm_when (negb has_data) (sm_throw (pinvalid curr wpec.init_const_expr_stack_empty psel_none));;
  mret (ConstExpr begin curr opcodes).
End Step.

Definition parse_and_check_global_expr_valid (section_end : nat) (curr_global_type : value_type)
    : P wasm1_const_expr_storage_t :=
  const_expr section_end curr_global_type
    (fun actual => psel_u8arr (value_type_byte curr_global_type) (value_type_byte actual)).

(** For an element and for a data segment. *)
Definition parse_and_check_offset_expr_valid (section_end : nat) : P wasm1_const_expr_storage_t :=
  const_expr section_end i32
    (fun actual => psel_u8arr (value_type_byte actual) (value_type_byte i32)).
End ConstExpr.

(** ** The grammar and typing of constant expressions *)

(** A constant instruction of type [t], where [globals] are the imported globals. *)
Inductive const_instr (globals : list global_type) : value_type -> base_const_expr_opcode_t -> list Z -> Prop :=
| const_i32 v b : sN 32 b v -> const_instr globals i32 (ce_i32_const v) (65 :: b)
| const_i64 v b : sN 64 b v -> const_instr globals i64 (ce_i64_const v) (66 :: b)
| const_f32 b : length b = 4%nat -> const_instr globals f32 (ce_f32_const (load_le 4 b)) (67 :: b)
| const_f64 b : length b = 8%nat -> const_instr globals f64 (ce_f64_const (load_le 8 b)) (68 :: b)
| const_global x b g :
    uN 32 b x -> globals !! Z.to_nat x = Some g -> is_mutable g = false ->
    const_instr globals (global_value_type g) (ce_global_get x) (35 :: b).

(** [expr ::= in* 0x0B], here with exactly one instruction. *)
Definition constexpr (globals : list global_type) (t : value_type) (op : base_const_expr_opcode_t)
    (bs : list Z) : Prop :=
  exists b, const_instr globals t op b /\ bs = b ++ [11].

Definition p_sN (digits : Z) : parser Z := fun bs =>
  let r := scn_cnt_define_leb128_impl digits true bs in
  if bool_decide (pr_code r = pc_ok) then Some (pr_value r, drop (pr_iter r) bs) else None.

(** What follows the opcode. *)
Definition p_const_case (globals : list global_type) (t : value_type) (b : Z)
    : parser base_const_expr_opcode_t := fun bs =>
  match wasm1_code.of_byte b with
  | Some wasm1_code.i32_const =>
      if bool_decide (t <> i32) then None else '(v, bs) ← p_sN 32 bs; Some (ce_i32_const v, bs)
  | Some wasm1_code.i64_const =>
      if bool_decide (t <> i64) then None else '(v, bs) ← p_sN 64 bs; Some (ce_i64_const v, bs)
  | Some wasm1_code.f32_const =>
      if bool_decide (t <> f32) then None
      else '(v, bs) ← p_bytes 4 bs; Some (ce_f32_const (load_le 4 v), bs)
  | Some wasm1_code.f64_const =>
      if bool_decide (t <> f64) then None
      else '(v, bs) ← p_bytes 8 bs; Some (ce_f64_const (load_le 8 v), bs)
  | Some wasm1_code.global_get =>
      '(x, bs) ← p_u32 bs;
      g ← globals !! Z.to_nat x;
      if bool_decide (global_value_type g <> t) then None
      else if is_mutable g then None
      else Some (ce_global_get x, bs)
  | _ => None
  end.

Definition p_const_instr (globals : list global_type) (t : value_type)
    : parser base_const_expr_opcode_t := fun bs =>
  '(b, bs) ← p_byte bs; p_const_case globals t b bs.

Definition p_constexpr (globals : list global_type) (t : value_type)
    : parser base_const_expr_opcode_t := fun bs =>
  '(op, bs) ← p_const_instr globals t bs;
  '(b, bs) ← p_byte bs;
  if negb (b =? 11) then None else Some (op, bs).

Lemma p_sN_parser digits : leb_width digits -> ParserOf (p_sN digits) (fun x bs => sN digits bs x).
Proof.
  intros Hw bs x rest HF. unfold p_sN.
  destruct (scn_cnt_define_leb128_impl digits true bs) as [n c v] eqn:Hs; simpl.
  assert (Hscan : forall pre, bs = pre ++ rest -> sN digits pre x ->
    scn_cnt_define_leb128_impl digits true bs = ParseResult (length pre) pc_ok x).
  { intros pre -> Hp. apply leb_scan_s; [done.. |]. rewrite length_app, take_app_length. split; [lia | done]. }
  case_bool_decide as Hc; subst.
  - pose proof (proj1 (leb_scan_s digits bs n v Hw HF) Hs) as [Hn Hu]. split.
    + intros [= <- <-]. exists (take n bs). by rewrite take_drop.
    + intros (pre & Hb & Hp). rewrite (Hscan pre Hb Hp) in Hs. injection Hs as <- <-.
      by rewrite Hb, drop_app_length.
  - split; [done |]. intros (pre & Hb & Hp). rewrite (Hscan pre Hb Hp) in Hs. congruence.
Qed.
#[global] Instance p_s32_parser : ParserOf (p_sN 32) (fun x bs => sN 32 bs x).
Proof. apply p_sN_parser. unfold leb_width. lia. Qed.
#[global] Instance p_s64_parser : ParserOf (p_sN 64) (fun x bs => sN 64 bs x).
Proof. apply p_sN_parser. unfold leb_width. lia. Qed.

#[global] Instance p_const_instr_parser gs t : ParserOf (p_const_instr gs t) (const_instr gs t).
Proof.
  intros bs op rest HF. unfold p_const_instr. split.
  - intros Hk. p_inv Hk as (b & ? & r & -> & -> & Hk).
    unfold p_const_case in Hk. destruct (wasm1_code.of_byte b) as [o |] eqn:Hb; [| done].
    apply wasm1_code.of_byte_Some in Hb. destruct o; try done; simpl in Hb; subst b.
    + p_inv Hk as (x & xb & r1 & -> & Hx & Hk). apply bind_Some in Hk as (g & Hg & Hk).
      case_bool_decide as Ht; [done |]. subst t.
      destruct (is_mutable g) eqn:Hm; [done |]. injection Hk as <- <-.
      exists (35 :: xb). split; [done |]. by constructor.
    + case_bool_decide as Ht; [done |]. subst t.
      p_inv Hk as (v & vb & r1 & -> & Hv & [= <- <-]). exists (65 :: vb). split; [done | by constructor].
    + case_bool_decide as Ht; [done |]. subst t.
      p_inv Hk as (v & vb & r1 & -> & Hv & [= <- <-]). exists (66 :: vb). split; [done | by constructor].
    + case_bool_decide as Ht; [done |]. subst t.
      p_inv Hk as (v & vb & r1 & -> & [-> Hl] & [= <- <-]). exists (67 :: v). split; [done |]. constructor.
      apply counted_length in Hl; [| lia]. unfold zlen in Hl. lia.
    + case_bool_decide as Ht; [done |]. subst t.
      p_inv Hk as (v & vb & r1 & -> & [-> Hl] & [= <- <-]). exists (68 :: v). split; [done |]. constructor.
      apply counted_length in Hl; [| lia]. unfold zlen in Hl. lia.
  - intros (pre & -> & Hi). destruct Hi as [v b Hv | v b Hv | b Hl | b Hl | x b g Hx Hg Hm]; simpl in HF |- *;
    unfold p_const_case; simpl.
    + by p_run (p_sN 32).
    + by p_run (p_sN 64).
    + rewrite (parser_app (p_bytes 4) _ b b rest); [done | | bytes]. split; [done |]. left. unfold zlen. lia.
    + rewrite (parser_app (p_bytes 8) _ b b rest); [done | | bytes]. split; [done |]. left. unfold zlen. lia.
    + p_run p_u32. rewrite Hg. simpl. rewrite bool_decide_eq_false_2 by tauto. by rewrite Hm.
Qed.

#[global] Instance p_constexpr_parser gs t : ParserOf (p_constexpr gs t) (constexpr gs t).
Proof.
  intros bs op rest HF. unfold p_constexpr. split.
  - intros Hk. p_inv Hk as (o & ob & r & -> & Ho & Hk). p_inv Hk as (b & ? & r1 & -> & -> & Hk).
    destruct (Z.eqb_spec b 11) as [-> |]; [| done]. injection Hk as <- <-.
    exists (ob ++ [11]). split; [by rewrite <- app_assoc |]. by exists ob.
  - intros (pre & -> & b & Hi & ->). rewrite <- app_assoc in *. simpl in *.
    by p_run (p_const_instr gs t).
Qed.

Lemma constexpr_nonempty gs t op : ~ constexpr gs t op [].
Proof. intros (b & _ & Hb). by destruct b. Qed.

(** ** Refinement *)

(** [globals] are the global types [importdesc] leads to. *)
Definition globals_space (x : sections) (globals : list global_type) : Prop :=
  Forall2 (fun i g => exists fit, get_imports x !! i = Some fit /\ fit_imports fit = ext_global g)
    (importdesc_at 3 (PState 0 x)) globals /\ zlen globals < 2 ^ 32.

Lemma load_le_take n bs : load_le n (take n bs) = load_le n bs.
Proof. revert bs. induction n as [| n IH]; intros [| b bs]; simpl; [done.. |]. by rewrite IH. Qed.

Section Refine.
Context (bytes : list Z) (Hbytes : Forall is_byte bytes) (Hsize : zlen bytes < 2 ^ 64).

Lemma agrees_signed {A B} digits e c (k : nat * Z -> P B) (q : Z -> list Z -> option (A * list Z)) Q s lo :
  leb_width digits -> (lo <= section_curr s <= e)%nat -> (e <= length bytes)%nat ->
  (forall next x, (section_curr s < next <= e)%nat ->
     agrees bytes e lo (k (next, x) s) (q x (slice bytes next e)) Q) ->
  agrees bytes e lo ((parse_signed bytes digits e c ≫= k) s)
    ('(x, rest) ← p_sN digits (slice bytes (section_curr s) e); q x rest) Q.
Proof using Hbytes.
  intros Hw Hlo He Hk. unfold parse_signed, p_sN. rewrite sm_bind_assoc, bind_get.
  destruct (scn_cnt_define_leb128_impl digits true (slice bytes (section_curr s) e)) as [n pc v] eqn:Hs; simpl.
  case_bool_decide as Hpc; [| eexists; split; [done | simpl; lia]]. subst pc.
  apply leb_scan_s in Hs as [Hn Hu]; [| done | by apply slice_bytes].
  rewrite slice_length in Hn by done. rewrite bind_ret, slice_drop. simpl. apply Hk.
  apply sN_length_nonzero in Hu. rewrite length_take, slice_length in Hu by done. lia.
Qed.

(** What reading a constant instruction leaves: the instruction, the storage unchanged
    and the cursor past it. *)
Definition reads_op (s : pstate) (op o : base_const_expr_opcode_t) (s' : pstate) : Prop :=
  o = op /\ secs s' = secs s /\ (section_curr s < section_curr s')%nat.

Lemma only_one_false (s : pstate) : ⟦ only_one false ⟧ s ⇓ (tt, s).
Proof. done. Qed.

(** The constant of an instruction whose type is [actual]. *)
Lemma agrees_expect {A B} e t mm actual (k : unit -> P B) s (r : option (A * list Z)) Q :
  (section_curr s <= e)%nat ->
  (t = actual -> agrees bytes e (section_curr s) (k tt (set_curr (S (section_curr s)) s)) r Q) ->
  agrees bytes e (section_curr s) ((only_one false;; expect t mm actual;; advance ≫= k) s)
    (if bool_decide (t <> actual) then None else r) Q.
Proof.
  intros He Hk. rewrite (bind_done _ _ _ _ _ (only_one_false s)). unfold expect, advance.
  autorewrite with sm. apply agrees_guard; [simpl; lia |].
  intros Ht%bool_decide_eq_false_1%dec_stable. run_parser. by apply Hk.
Qed.

Lemma read_bits_cases {A B} e n (k : Z -> P B) (q : list Z -> list Z -> option (A * list Z)) Q s lo :
  (lo <= section_curr s <= e)%nat -> (e <= length bytes)%nat ->
  (forall v, (section_curr s + n <= e)%nat -> length v = n ->
     agrees bytes e lo (k (load_le n v) (set_curr (section_curr s + n) s))
       (q v (slice bytes (section_curr s + n) e)) Q) ->
  agrees bytes e lo ((read_bits bytes e n ≫= k) s)
    ('(v, rest) ← p_bytes (Z.of_nat n) (slice bytes (section_curr s) e); q v rest) Q.
Proof using Hbytes Hsize.
  intros Hlo He Hk. unfold read_bits, p_bytes, zlen.
  rewrite !sm_bind_assoc, bind_gets, sm_bind_assoc, slice_length, (distance_eq bytes Hsize) by lia.
  destruct (Z.ltb_spec (Z.of_nat (e - section_curr s)) (Z.of_nat n)); simpl.
  { eexists. split; [done | simpl; lia]. }
  rewrite bind_ret, sm_bind_assoc, bind_move, bind_ret, Nat2Z.id, slice_drop, slice_take by lia.
  assert (Hl : length (slice bytes (section_curr s) (section_curr s + n)) = n) by (rewrite slice_length; lia).
  rewrite <- (load_le_take n (slice bytes (section_curr s) e)), slice_take by lia.
  by apply Hk; [lia |].
Qed.
Section Case.
Context (e : nat) (He : (e <= length bytes)%nat) (t : value_type) (mm : value_type -> parse_selectable).
Context (gs : list global_type).

Lemma imported_global_lookup (s : pstate) idx :
  globals_space (secs s) gs -> u32 (zlen (importdesc_at 3 s)) = zlen gs /\
  forall g, gs !! Z.to_nat idx = Some g -> ⟦ imported_global_at idx ⟧ s ⇓ (g, s).
Proof using.
  intros [HF Hlen]. change (importdesc_at 3 (PState 0 (secs s))) with (importdesc_at 3 s) in HF. split.
  - unfold u32, wrap, zlen in *. rewrite (Forall2_length _ _ _ HF), Z.mod_small; clear -Hlen; lia.
  - intros g Hg. destruct (Forall2_lookup_r _ _ _ _ _ HF Hg) as (i & Hi & fit & Hf & Hx).
    unfold imported_global_at. rewrite bind_get, Hi, bind_some, Hf, bind_some, Hx. done.
Qed.

Lemma global_get_cases lo s :
  globals_space (secs s) gs -> (lo <= section_curr s)%nat -> (section_curr s < e)%nat ->
  agrees bytes e lo
    (const_expr_case bytes e t mm false (wasm1_code.opcode wasm1_code.global_get) s)
    (p_const_case gs t (wasm1_code.opcode wasm1_code.global_get) (slice bytes (S (section_curr s)) e))
    (reads_op s).
Proof using Hbytes He.
  intros Hg Hlo Hlt. unfold const_expr_case, p_const_case. rewrite wasm1_code.of_byte_opcode.
  rewrite (bind_done _ _ _ _ _ (only_one_false s)). unfold advance.
  rewrite sm_bind_assoc, bind_gets, bind_move, bind_gets.
  apply (agrees_u32 bytes Hbytes _ _ _ _ _ (set_curr _ s)); [simpl; lia.. |].
  intros next x Hn Hx. simpl in Hn. cbv iota beta. rewrite bind_get. cbv zeta.
  destruct (imported_global_lookup (set_curr (S (section_curr s)) s) x Hg) as [-> Hat].
  destruct (Z.leb_spec (zlen gs) x).
  { rewrite (lookup_ge_None_2 gs) by (unfold zlen in *; lia). eexists. split; [done | simpl; lia]. }
  simpl sm_when. rewrite bind_ret.
  destruct (lookup_lt_is_Some_2 gs (Z.to_nat x)) as [g Hgx]; [unfold zlen in *; lia |].
  rewrite (bind_done _ _ _ _ _ (Hat g Hgx)), Hgx. change (mbind ?f (Some g)) with (f g). cbv beta.
  apply agrees_guard; [simpl; lia |]. intros _. apply agrees_guard; [simpl; lia |]. intros _.
  eexists _, _. split; [done |]. simpl. split; [lia |]. split; [done |]. split_and!; [done.. | simpl; lia].
Qed.

Lemma const_case_cases lo b s :
  globals_space (secs s) gs -> (lo <= section_curr s)%nat -> (section_curr s < e)%nat ->
  agrees bytes e lo (const_expr_case bytes e t mm false b s)
    (p_const_case gs t b (slice bytes (S (section_curr s)) e)) (reads_op s).
Proof using Hbytes He Hsize.
  intros Hg Hlo Hlt. destruct (wasm1_code.of_byte b) as [o |] eqn:Hb.
  2: { unfold const_expr_case, p_const_case. rewrite Hb. eexists. split; [done | simpl; lia]. }
  apply wasm1_code.of_byte_Some in Hb as ->.
  destruct o; try (eexists; split; [done | simpl; lia]).
  { by apply global_get_cases. }
  all: unfold const_expr_case, p_const_case; rewrite wasm1_code.of_byte_opcode;
    eapply agrees_weaken; [exact Hlo | intros ? ? ? _ H; exact H | apply agrees_expect; [lia | intros ->]].
  1, 2: apply (agrees_signed _ _ _ _ _ _ (set_curr _ s)); [unfold leb_width; lia | simpl; lia | done |];
    intros next x Hn; simpl in Hn; cbv iota beta; rewrite bind_move.
  3, 4: (apply (read_bits_cases e 4 _ (fun v bs => Some (ce_f32_const (load_le 4 v), bs)) _ (set_curr _ s)) ||
    apply (read_bits_cases e 8 _ (fun v bs => Some (ce_f64_const (load_le 8 v), bs)) _ (set_curr _ s)));
    [simpl; lia | done |]; intros v Hv Hl; simpl in Hv.
  all: eexists _, _; split; [done |]; simpl; split; [lia |]; split; [done |];
    split_and!; [done.. | simpl; lia].
Qed.

(** A second instruction is never accepted. *)
Lemma second_instr_throws b s :
  exists err, ⟦ const_expr_case bytes e t mm true b ⟧ s ⇑ err /\ perr_curr err = section_curr s.
Proof. unfold const_expr_case. destruct (wasm1_code.of_byte b) as [[] |]; by eexists. Qed.

(** The expression read: one instruction, between the positions it starts and ends at. *)
Definition reads_expr (op : base_const_expr_opcode_t) (x : wasm1_const_expr_storage_t) (s s' : pstate) : Prop :=
  x = ConstExpr (section_curr s) (section_curr s') [op] /\ secs s' = secs s /\
  (section_curr s < section_curr s')%nat.

Lemma const_expr_cases s :
  globals_space (secs s) gs -> (section_curr s <= e)%nat ->
  parses bytes e (const_expr bytes e t mm) (p_constexpr gs t) reads_expr s.
Proof using Hbytes He Hsize.
  intros Hg Hc. unfold parses, const_expr, p_constexpr, p_const_instr. rewrite bind_gets.
  destruct (decide (section_curr s = e)) as [Heq | Hne].
  { rewrite slice_empty by lia. rewrite Heq, Nat.sub_diag. simpl. unfold peek_byte.
    rewrite !sm_bind_assoc, bind_gets, sm_bind_assoc, Heq, Nat.eqb_refl. eexists. split; [done | simpl; lia]. }
  replace (e - section_curr s)%nat with (S (e - S (section_curr s))) by lia.
  destruct (slice bytes (section_curr s) e) as [| b rest] eqn:Hb.
  { apply (f_equal length) in Hb. rewrite slice_length in Hb by done. simpl in Hb. lia. }
  set (fuel := (e - S (section_curr s))%nat). cbn [const_expr_loop].
  destruct (peek_byte_done bytes e wpec.init_const_expr_terminator_not_found s b rest Hc He Hb)
    as (Hlt & Hp & <-).
  rewrite sm_bind_assoc, (bind_done _ _ _ _ _ Hp). simpl p_byte. change (mbind ?f (Some ?x)) with (f x).
  cbv beta iota.
  destruct (Z.eqb_spec b (wasm1_code.opcode wasm1_code.end_)) as [-> | Hnend].
  { eexists. split; [done | simpl; lia]. }
  rewrite sm_bind_assoc.
  eapply agrees_seq; [apply (const_case_cases (section_curr s) b s Hg); lia |].
  intros op ? s1 Hs1 (-> & Hx1 & Hlt1). rewrite sm_bind_assoc.
  apply (agrees_peek bytes Hbytes); [lia.. |]. intros b2 Hlt2 _. change (wasm1_code.opcode wasm1_code.end_) with 11.
  destruct (Z.eqb_spec b2 11) as [-> | Hnend2]; simpl negb; cbv iota.
  - unfold advance. rewrite !sm_bind_assoc, bind_gets, bind_move, bind_ret. cbv iota beta.
    rewrite bind_gets. simpl sm_when. rewrite bind_ret. eexists _, _. split; [done |]. simpl.
    split; [lia |]. split; [done |]. split_and!; [done.. | simpl; lia].
  - rewrite sm_bind_assoc. destruct (second_instr_throws b2 s1) as (err & Ht & Hp2).
    exists err. split; [by apply bind_thrown | lia].
Qed.
End Case.
End Refine.
