(* ===== verification/GlobalSection.v ===== *)
(** * The global section and the index spaces

    [parser/wasm/standard/wasm1/features/global_section.h] for the Release 1.0 feature
    set, and the sizes of the index spaces, imported and defined, that the sections after
    it test indices against. *)

From stdpp Require Import base list numbers strings.
From Stdlib Require Import ZArith Lia.
From S2P Require Import Prelude Leb128 WasmTypes ParserBase ParserSpec ParserRefine.
From S2P Require Import ExternTypes Names ImportSection TableMemorySections ConstExpr.
Open Scope Z_scope.

Section GlobalSection.
Context (bytes : list Z) (limit : wasm1_parser_limit_t).

Definition push_global (g : final_local_global_type) : P unit :=
  sm_modify (fun s =>
    let sec := globalsec (others (secs s)) in
    set_globalsec s (GlobalSection (globalsec_span sec) (globalsec_local_globals sec ++ [g]))).

(** The body of the loop after the counter test. *)
Definition global_entry (section_end : nat) : P unit :=
  global ← scan_global_type bytes section_end;
  expr ← parse_and_check_global_expr_valid bytes section_end (global_value_type global);
  push_global (FinalLocalGlobal global expr).

Definition check_imported_global (imported_global_size global_count : Z) : P unit :=
  s ← sm_get;
  sm_when (u32 (2 ^ 32 - 1 - imported_global_size) <? global_count)
    (sm_throw (pinvalid (section_curr s) wpec.imp_def_num_exceed_u32max
      (psel_imp_def_num_exceed_u32max imported_global_size global_count 3))).

Definition handle_global_section (section_begin section_end sec_id_module_ptr : nat) : P unit :=
  s ← sm_get;
  let sec := globalsec (others (secs s)) in
  let imported_global_size := u32 (zlen (importdesc_at 3 s)) in
  check_duplicate (globalsec_span sec) sec_id_module_ptr 6;;
  sm_modify (fun s => set_globalsec s
    (GlobalSection (Some (section_begin, section_end)) (globalsec_local_globals sec)));;
  move_to section_begin;;
  counted_section bytes section_end wpec.invalid_global_count
    wpec.global_section_resolved_exceeded_the_actual_number
    wpec.global_section_resolved_not_match_the_actual_number
    (fun global_count =>
       check_parser_limit "globalsec_globals" (max_global_sec_globals limit) global_count;;
       check_imported_global imported_global_size global_count)
    (fun _ => global_entry section_end).
End GlobalSection.

(** The number of definitions of a kind, and [all_func_size], [all_table_size],
    [all_memory_size] and [all_global_size]: with the imported ones, as a [wasm_u32]. *)
Definition defined_size (type : external_types) (s : pstate) : Z :=
  match type with
  | et_func => Z.of_nat (vt_size (funcsec_funcs (secs s)))
  | et_table => zlen (tablesec_tables (tablesec (others (secs s))))
  | et_memory => zlen (memorysec_memories (memorysec (others (secs s))))
  | et_global => zlen (globalsec_local_globals (globalsec (others (secs s))))
  | et_tag => 0
  end.

Definition kind_of (type : external_types) : nat :=
  match type with et_func => 0 | et_table => 1 | et_memory => 2 | et_global => 3 | et_tag => 4 end.

Definition all_size (type : external_types) (s : pstate) : Z :=
  u32 (u32 (defined_size type s) + u32 (zlen (importdesc_at (kind_of type) s))).

(** ** The grammar *)

(** [global ::= gt:globaltype e:expr] with [e] a constant expression of the type of the
    global; [globals] are the imported ones. *)
Definition global_bytes (globals : list global_type) (g : global_type * base_const_expr_opcode_t)
    (bs : list Z) : Prop :=
  exists gb eb, bs = gb ++ eb /\ globaltype g.1 gb /\ constexpr globals (global_value_type g.1) g.2 eb.

Definition p_global (globals : list global_type) : parser (global_type * base_const_expr_opcode_t) :=
  fun bs =>
  '(g, bs) ← p_globaltype bs;
  '(op, bs) ← p_constexpr globals (global_value_type g) bs;
  Some ((g, op), bs).

#[global] Instance p_global_parser gs : ParserOf (p_global gs) (global_bytes gs).
Proof.
  intros bs g rest HF. unfold p_global. split.
  - intros Hk. p_inv Hk as (t & gb & r & -> & Hg & Hk). p_inv Hk as (op & eb & r1 & -> & He & [= <- <-]).
    exists (gb ++ eb). split; [by rewrite <- app_assoc |]. by exists gb, eb.
  - intros (pre & -> & gb & eb & -> & Hg & He). rewrite <- app_assoc in *.
    p_run p_globaltype. p_run (p_constexpr gs (global_value_type g.1)). by destruct g.
Qed.

Lemma global_nonempty gs g : ~ global_bytes gs g [].
Proof. intros (gb & eb & [-> _]%symmetry%app_eq_nil & Hg & _). done. Qed.

(** ** Refinement *)

Definition get_globals (x : sections) : list final_local_global_type :=
  globalsec_local_globals (globalsec (others x)).
Definition put_globals (l : list final_local_global_type) (x : sections) : sections :=
  secs (set_globalsec (PState 0 x) (GlobalSection (globalsec_span (globalsec (others x))) l)).
#[global] Instance globals_field : VecField get_globals put_globals.
Proof. by split; intros; repeat match goal with x : sections |- _ => destruct x as [? ? ? ? ? ? [? ? ? ? [] ? ? ? ?]] end. Qed.

(** A stored expression is one instruction. *)
Definition stored_expr (x : wasm1_const_expr_storage_t) (op : base_const_expr_opcode_t) : Prop :=
  ce_opcodes x = [op].
Definition stored_global (y : final_local_global_type) (g : global_type * base_const_expr_opcode_t) : Prop :=
  lg_global y = g.1 /\ stored_expr (lg_expr y) g.2.

(** The most definitions that fit beside [imported] imports. *)
Definition index_limit (max imported : Z) : Z := Z.min max (2 ^ 32 - 1 - imported).

Section Refine.
Context (bytes : list Z) (Hbytes : Forall is_byte bytes) (Hsize : zlen bytes < 2 ^ 64).
Context (limit : wasm1_parser_limit_t).

Lemma global_entry_cases gs e x0 ys c :
  globals_space x0 gs -> (c < e)%nat -> (e <= length bytes)%nat ->
  parses bytes e (global_entry bytes e) (p_global gs) (pushed put_globals stored_global ys x0)
    (PState c (put_globals ys x0)).
Proof using Hbytes Hsize.
  intros Hg Hc He. unfold parses, global_entry, p_global.
  eapply (agrees_bind bytes _ _ _ p_globaltype); [lia | apply (scan_global_type_cases bytes Hbytes); simpl; lia |].
  intros g ? s1 Hs1 (-> & Hx1 & Hlt1). simpl in Hs1, Hlt1, Hx1.
  eapply (agrees_bind bytes _ _ _ (p_constexpr gs (global_value_type g))); [simpl; lia | |].
  { apply (const_expr_cases bytes Hbytes Hsize e He); [by rewrite Hx1 | lia]. }
  intros op ? s2 Hs2 (-> & Hx2 & Hlt2). eexists _, _. split; [done |]. simpl. split; [lia |]. split; [done |].
  split; [simpl; lia |]. exists (FinalLocalGlobal g (ConstExpr (section_curr s1) (section_curr s2) [op])). split; [by split |]. simpl. by rewrite Hx2, Hx1.
Qed.

Lemma check_global_cases e imported max n s :
  0 <= imported < 2 ^ 32 -> (section_curr s <= e)%nat ->
  let m := check_parser_limit "globalsec_globals" max n;; check_imported_global imported n in
  if index_limit max imported <? n then rejected e m s else ⟦ m ⟧ s ⇓ (tt, s).
Proof.
  intros Hi Hc m. subst m. unfold index_limit.
  pose proof (check_parser_limit_cases e "globalsec_globals" max n s Hc) as H.
  destruct (Z.ltb_spec max n).
  { rewrite (proj2 (Z.ltb_lt (Z.min _ _) n)) by lia. destruct H as (err & H & ?).
    exists err. split; [by apply bind_thrown | done]. }
  unfold rejected. rewrite (bind_done _ _ _ _ _ H). unfold check_imported_global. rewrite bind_get.
  replace (u32 (2 ^ 32 - 1 - imported)) with (2 ^ 32 - 1 - imported)
    by (unfold u32, wrap; rewrite Z.mod_small; lia).
  destruct (Z.ltb_spec (2 ^ 32 - 1 - imported) n).
  - rewrite (proj2 (Z.ltb_lt (Z.min _ _) n)) by lia. eexists. split; [done | simpl; lia].
  - rewrite (proj2 (Z.ltb_ge (Z.min _ _) n)) by lia. done.
Qed.

Lemma global_section_cases gs b e ptr s :
  (b <= e)%nat -> (e <= length bytes)%nat -> globalsec_span (globalsec (others (secs s))) = None ->
  get_globals (secs s) = [] -> globals_space (secs s) gs ->
  match p_section (index_limit (max_global_sec_globals limit) (zlen gs)) (fun _ => p_global gs)
          (slice bytes b e) with
  | Some ts => exists ys, ⟦ handle_global_section bytes limit b e ptr ⟧ s ⇓
      (tt, PState e (secs (set_globalsec s (GlobalSection (Some (b, e)) ys)))) /\ Forall2 stored_global ys ts
  | None => exists err, ⟦ handle_global_section bytes limit b e ptr ⟧ s ⇑ err /\
      (b <= perr_curr err <= e)%nat
  end.
Proof using Hbytes Hsize.
  intros Hb He Hspan Hempty Hg. unfold handle_global_section, check_duplicate.
  autorewrite with sm. rewrite Hspan. simpl sm_when. autorewrite with sm.
  destruct (imported_global_lookup gs s 0 Hg) as [-> _].
  set (s0 := set_curr b _).
  pose proof (vec_section_cases bytes Hbytes get_globals put_globals stored_global e (p_global gs)
    (global_entry bytes e) (index_limit (max_global_sec_globals limit) (zlen gs))
    (fun n => check_parser_limit "globalsec_globals" (max_global_sec_globals limit) n;;
       check_imported_global (zlen gs) n)
    wpec.invalid_global_count wpec.global_section_resolved_exceeded_the_actual_number
    wpec.global_section_resolved_not_match_the_actual_number s0 He Hb Hempty
    (fun n Hn => check_global_cases e (zlen gs) _ n s0
      ltac:(destruct Hg; unfold zlen in *; lia) Hb)
    (fun ys c Hc => global_entry_cases gs e (secs s0) ys c Hg Hc He)) as H.
  cbv zeta in H. change (section_curr s0) with b in H.
  destruct (p_section _ _ _) as [ts |]; exact H.
Qed.
End Refine.
