(* ===== verification/ExportSection.v ===== *)
(** * The export section

    [parser/wasm/standard/wasm1/features/export_section.h] for the Release 1.0 feature
    set: an export refers to an existing function, table, memory or global, and no two
    exports have the same name. *)

From stdpp Require Import base list numbers strings.
From Stdlib Require Import ZArith Lia.
From S2P Require Import Prelude Leb128 WasmTypes ParserBase ParserSpec ParserRefine.
From S2P Require Import ExternTypes Names ImportSection GlobalSection.
Open Scope Z_scope.

Section ExportSection.
Context (bytes : list Z) (limit : wasm1_parser_limit_t) (wide : bool).

(** Release 1.0 has no [validate_extended_tag_export]. *)
Definition define_handler_export_index (type : external_types) (section_end : nat) : P Z :=
  s ← sm_get;
  '(export_idx_next, export_idx) ← parse_u32 bytes section_end wpec.invalid_export_idx;
  match type with
  | et_tag => sm_throw (pinvalid (section_curr s) wpec.illegal_exportdesc_prefix (psel_u8 4))
  | _ =>
      sm_when (all_size type s <=? export_idx)
        (sm_throw (pinvalid (section_curr s) wpec.exported_index_exceeds_maxvul
          (psel_exported_index_exceeds_maxvul export_idx (all_size type s) (Z.of_nat (kind_of type)))));;
      move_to export_idx_next;;
      mret export_idx
  end.

(** [duplicate_name_checker]: a name put into the set is the name of an export pushed in the
    same iteration, so that the set holds the names of the exports before. *)
Definition export_names (s : pstate) : list (list Z) :=
  map (fun x => view_bytes bytes (fwet_export_name x)) (exportsec_exports (exportsec (others (secs s)))).

Definition push_export (fwet : final_wasm_export_type) : P unit :=
  sm_modify (fun s =>
    let sec := exportsec (others (secs s)) in
    set_exportsec s (ExportSection (exportsec_span sec) (exportsec_exports sec ++ [fwet]) (exportdesc sec))).

(** The body of the loop after the counter test. *)
Definition export_entry (section_end : nat) : P unit :=
  export_name ← read_name bytes wide section_end wpec.invalid_export_name_length
    wpec.export_name_too_length;
  b ← peek_byte bytes section_end wpec.export_missing_export_type;
  s ← sm_get;
  let curr := section_curr s in
  match external_types_of_byte b with
  | None => sm_throw (pinvalid curr wpec.illegal_exportdesc_prefix (psel_u8 b))
  | Some type =>
      sm_when (bool_decide (view_bytes bytes export_name ∈ export_names s))
        (sm_throw (pinvalid curr wpec.duplicate_exports_of_the_same_export_type
          (psel_duplic_exports (sv_ptr export_name) (sv_n export_name) b)));;
      move_to (S curr);;
      sm_when (S curr =? section_end)%nat
        (sm_throw (pinvalid (S curr) wpec.export_missing_export_idx psel_none));;
      idx ← define_handler_export_index type section_end;
      push_export (FinalExport export_name type idx)
  end.

(** [exportsec_exportdesc_begin[type].push_back_unchecked(&export_curr)] for every export. *)
Definition fwet_kind (x : final_wasm_export_type) : nat := kind_of (fwet_type x).
Definition push_exportdesc (exports : list final_wasm_export_type) (desc : list (list nat))
    : list (list nat) :=
  push_desc fwet_kind 0 exports desc.

Definition handle_export_section (section_begin section_end sec_id_module_ptr : nat) : P unit :=
  s ← sm_get;
  let sec := exportsec (others (secs s)) in
  check_duplicate (exportsec_span sec) sec_id_module_ptr 7;;
  sm_modify (fun s => set_exportsec s
    (ExportSection (Some (section_begin, section_end)) (exportsec_exports sec) (exportdesc sec)));;
  move_to section_begin;;
  counted_section bytes section_end wpec.invalid_export_count
    wpec.export_section_resolved_exceeded_the_actual_number
    wpec.export_section_resolved_not_match_the_actual_number
    (check_parser_limit "exportsec_exports" (max_export_sec_exports limit))
    (fun _ => export_entry section_end);;
  sm_modify (fun s =>
    let sec := exportsec (others (secs s)) in
    set_exportsec s (ExportSection (exportsec_span sec) (exportsec_exports sec)
      (push_exportdesc (exportsec_exports sec) (exportdesc sec)))).
End ExportSection.

(** ** The grammar *)

Record export := Export {
  export_name : list Z;
  export_kind : external_types;
  export_index : Z
}.

(** [export ::= nm:name d:exportdesc], [exportdesc ::= kind x:u32] where [x] is in the index
    space of the kind, of size [size kind]. *)
Definition export_bytes (size : external_types -> Z) (x : export) (bs : list Z) : Prop :=
  exists nb xb, bs = nb ++ Z.of_nat (kind_of (export_kind x)) :: xb /\
    name (export_name x) nb /\ export_kind x <> et_tag /\
    uN 32 xb (export_index x) /\ export_index x < size (export_kind x).

(** An export whose name is not one of [seen]. *)
Definition p_export (size : external_types -> Z) (seen : list (list Z)) : parser export := fun bs =>
  '(n, bs) ← p_name bs;
  '(b, bs) ← p_byte bs;
  match external_types_of_byte b with
  | None | Some et_tag => None
  | Some type =>
      if bool_decide (n ∈ seen) then None
      else
        '(x, bs) ← p_u32 bs;
        if size type <=? x then None else Some (Export n type x, bs)
  end.

Definition p_exports (limit : Z) (size : external_types -> Z) (bs : list Z) : option (list export) :=
  p_section_fold limit (fun seen => p_export size (map export_name seen)) bs.

Lemma p_exports_ext limit f g bs :
  (forall type, f type = g type) -> p_exports limit f bs = p_exports limit g bs.
Proof.
  intros Hfg. unfold p_exports, p_section_fold. destruct (p_u32 bs) as [[n rest] |]; simpl; [| done].
  rewrite (p_fold_ext _ _ (fun seen => p_export g (map export_name seen))); [done |].
  intros seen l. unfold p_export. destruct (p_name l) as [[x r] |]; simpl; [| done].
  destruct (p_byte r) as [[b r1] |]; simpl; [| done].
  destruct (external_types_of_byte b) as [[] |]; by rewrite ?Hfg.
Qed.

Lemma external_types_of_byte_Some b t :
  external_types_of_byte b = Some t <-> b = Z.of_nat (kind_of t).
Proof.
  unfold external_types_of_byte. split.
  - intros H. repeat case_match; simplify_eq; simpl; lia.
  - intros ->. by destruct t.
Qed.

#[global] Instance p_export_parser size seen :
  ParserOf (p_export size seen) (fun x bs => export_name x ∉ seen /\ export_bytes size x bs).
Proof.
  intros bs x rest HF. unfold p_export. split.
  - intros Hk. p_inv Hk as (n & nb & r & -> & Hn & Hk). p_inv Hk as (b & ? & r1 & -> & -> & Hk).
    destruct (external_types_of_byte b) as [t |] eqn:Hb; [| done].
    apply external_types_of_byte_Some in Hb as ->.
    assert (Ht : t <> et_tag) by (intros ->; done).
    assert (Hk' : (if bool_decide (n ∈ seen) then None else
      '(x, bs) ← p_u32 r1; if size t <=? x then None else Some (Export n t x, bs)) = Some (x, rest))
      by (by destruct t).
    clear Hk. case_bool_decide as Hseen; [done |].
    p_inv Hk' as (i & xb & r2 & -> & Hi & Hk). destruct (Z.leb_spec (size t) i); [done |].
    injection Hk as <- <-. exists (nb ++ Z.of_nat (kind_of t) :: xb).
    split; [by rewrite <- app_assoc |]. split; [done |]. by exists nb, xb.
  - intros (pre & -> & Hseen & nb & xb & -> & Hn & Ht & Hi & Hlt). rewrite <- app_assoc in *. simpl in *.
    p_run p_name. rewrite (proj2 (external_types_of_byte_Some _ _) eq_refl).
    rewrite bool_decide_eq_false_2 by done.
    assert (Hr : ('(x0, bs) ← p_u32 (xb ++ rest);
      if size (export_kind x) <=? x0 then None else Some (Export (export_name x) (export_kind x) x0, bs)) =
      Some (x, rest)).
    { p_run p_u32. rewrite (proj2 (Z.leb_gt _ _)) by lia. by destruct x. }
    by destruct (export_kind x).
Qed.

Lemma export_nonempty size x : ~ export_bytes size x [].
Proof. intros (nb & xb & Hb & _). by destruct nb. Qed.

(** *** Lists of exports with distinct names *)

Lemma p_exports_fold_iff size fuel seen bs xs :
  Forall is_byte bs -> (length bs <= fuel)%nat ->
  p_fold (fun seen x => seen ++ [x]) (fun seen => p_export size (map export_name seen)) fuel seen bs = Some xs <->
  entries (fun _ => export_bytes size) 0 xs bs /\
  NoDup (map export_name xs) /\ Forall (fun x => export_name x ∉ map export_name seen) xs.
Proof.
  revert seen bs xs. induction fuel as [| fuel IH]; intros seen [| b0 bs] xs HF Hl; simpl in *; try lia.
  1, 2: split; [intros [= <-]; split_and!; constructor |];
    intros [He _]; by rewrite (entries_empty _ _ xs (fun _ => export_nonempty size) He).
  split.
  - intros Hk. p_inv Hk as (x & pre & rest & Hb & [Hseen Hg] & Hk).
    apply bind_Some in Hk as (xs' & Hk & [= <-]). rewrite Hb.
    destruct pre as [| ? pre]; [by apply export_nonempty in Hg |]. injection Hb as -> ->.
    apply IH in Hk as (He & Hnd & Hns); [| bytes | rewrite length_app in Hl; lia].
    rewrite map_app in Hns. simpl. split_and!.
    + apply (entries_cons _ 0 x (_ :: pre)); [done |]. by eapply entries_shift.
    + constructor; [| done]. intros (y & Hy & Hin)%list_elem_of_fmap.
      rewrite Forall_forall in Hns. apply (Hns y Hin). rewrite elem_of_app. right. by apply list_elem_of_singleton.
    + constructor; [done |]. eapply Forall_impl; [exact Hns |]. intros y Hy Hin. apply Hy. apply elem_of_app. by left.
  - intros (He & Hnd & Hns). apply entries_inv in He. destruct xs as [| x xs]; [done |].
    destruct He as (b & bs' & Hb & Hg & He). rewrite Hb in *. simpl in Hnd.
    apply NoDup_cons in Hnd as [Hni Hnd]. apply Forall_cons in Hns as [Hseen Hns].
    rewrite (parser_app (p_export size (map export_name seen)) _ x b bs') by first [done | apply _]. simpl.
    destruct b as [| ? b]; [by apply export_nonempty in Hg |]. injection Hb as -> ->.
    assert (Hk : p_fold (fun seen x => seen ++ [x]) (fun seen => p_export size (map export_name seen))
      fuel (seen ++ [x]) bs' = Some xs).
    { apply IH; [bytes | rewrite length_app in Hl; lia |]. split; [by eapply entries_shift |]. split; [done |].
      rewrite Forall_forall in Hns |- *. intros y Hy. rewrite map_app, elem_of_app. simpl.
      rewrite list_elem_of_singleton.
      intros [Hin | Heq]; [by apply (Hns y) |]. apply Hni. rewrite <- Heq. by apply list_elem_of_fmap_2. }
    by rewrite Hk.
Qed.

Lemma p_exports_iff limit size bs xs :
  Forall is_byte bs ->
  p_exports limit size bs = Some xs <->
  zlen xs <= limit /\ vec (fun _ => export_bytes size) xs bs /\ NoDup (map export_name xs).
Proof.
  intros HF. unfold p_exports, p_section_fold, vec. split.
  - intros Hk. p_inv Hk as (n & cb & eb & -> & Hn & Hk). destruct (Z.ltb_spec limit n); [done |].
    apply bind_Some in Hk as (xs' & Hk & Hx). destruct (Z.eqb_spec (zlen xs') n) as [<- |]; [| done].
    injection Hx as ->. apply p_exports_fold_iff in Hk as (He & Hnd & _); [| bytes | lia].
    split; [done |]. split; [| done]. by exists cb, eb.
  - intros (Hl & (cb & eb & -> & Hn & He) & Hnd). p_run p_u32.
    destruct (Z.ltb_spec limit (zlen xs)); [lia |].
    rewrite (proj2 (p_exports_fold_iff size (length eb) [] eb xs ltac:(bytes) ltac:(lia))); simpl.
    + by rewrite Z.eqb_refl.
    + split; [done |]. split; [done |]. apply Forall_forall. intros x _. apply not_elem_of_nil.
Qed.

(** ** Refinement *)

Definition get_exports (x : sections) : list final_wasm_export_type := exportsec_exports (exportsec (others x)).
Definition put_exports (l : list final_wasm_export_type) (x : sections) : sections :=
  let sec := exportsec (others x) in
  secs (set_exportsec (PState 0 x) (ExportSection (exportsec_span sec) l (exportdesc sec))).
#[global] Instance exports_field : VecField get_exports put_exports.
Proof. by split; intros; repeat match goal with x : sections |- _ => destruct x as [? ? ? ? ? ? [? ? ? ? ? [] ? ? ?]] end. Qed.

Definition decode_export (bytes : list Z) (x : final_wasm_export_type) : export :=
  Export (view_bytes bytes (fwet_export_name x)) (fwet_type x) (fwet_idx x).

(** [exportdesc] after the section. *)
Definition export_indices (exports : list final_wasm_export_type) : list (list nat) :=
  desc_indices fwet_kind exportdesc_count exports.

Section Refine.
Context (bytes : list Z) (Hbytes : Forall is_byte bytes) (Hsize : zlen bytes < 2 ^ 64).
Context (limit : wasm1_parser_limit_t) (wide : bool).

Definition stored_export (y : final_wasm_export_type) (x : export) : Prop := decode_export bytes y = x.

Lemma stored_export_map ys xs : Forall2 stored_export ys xs <-> map (decode_export bytes) ys = xs.
Proof.
  split.
  - induction 1 as [| y x ys xs Hd _ IH]; simpl; [done |]. by rewrite Hd, IH.
  - intros <-. induction ys as [| y ys IH]; constructor; done.
Qed.

Lemma export_index_cases type e s :
  (section_curr s <= e)%nat -> (e <= length bytes)%nat ->
  parses bytes e (define_handler_export_index bytes type e)
    (fun bs => match type with
     | et_tag => None
     | _ => '(x, bs) ← p_u32 bs; if all_size type s <=? x then None else Some (x, bs)
     end) reads s.
Proof using Hbytes.
  intros Hc He. unfold parses, define_handler_export_index. rewrite bind_get.
  pose proof (parse_u32_cases bytes Hbytes e wpec.invalid_export_idx s Hc He) as H.
  destruct (p_u32 _) as [[x rest] |].
  2: { destruct H as (pc & H). destruct type; simpl; (eexists; split; [by apply bind_thrown | simpl; lia]). }
  destruct H as (next & H & Hn & <- & Hx). rewrite (bind_done _ _ _ _ _ H).
  destruct type; simpl; try (eexists; split; [done | simpl; lia]).
  all: apply agrees_guard; [simpl; lia |]; intros _; rewrite bind_move; eexists _, _; split; [done |];
    simpl; split; [lia |]; split; [done |]; split_and!; [done.. | simpl; lia].
Qed.
(** What follows the kind of an export. *)
Definition p_export_index (size : external_types -> Z) (type : external_types) : parser Z := fun bs =>
  match type with
  | et_tag => None
  | _ => '(x, bs) ← p_u32 bs; if size type <=? x then None else Some (x, bs)
  end.

Lemma p_export_peek size seen l :
  p_export size seen l =
  ('(n, bs) ← p_name l; '(b, bs) ← p_byte bs;
   match external_types_of_byte b with
   | None => None
   | Some type =>
       if bool_decide (n ∈ seen) then None
       else '(x, bs) ← p_export_index size type bs; Some (Export n type x, bs)
   end).
Proof.
  unfold p_export, p_export_index. destruct (p_name l) as [[n bs] |]; simpl; [| done].
  destruct bs as [| b bs]; [done |]. simpl. destruct (external_types_of_byte b) as [[] |]; [..| done]; simpl;
    case_bool_decide; try done; destruct (p_u32 bs) as [[x r] |]; simpl; try done; by destruct (_ <=? x).
Qed.

Lemma export_index_empty size type : p_export_index size type [] = None.
Proof. by destruct type. Qed.

Lemma export_entry_cases e x0 seen ys c :
  let size type := all_size type (PState 0 x0) in
  Forall2 stored_export ys seen -> (c < e)%nat -> (e <= length bytes)%nat ->
  parses bytes e (export_entry bytes wide e) (p_export size (map export_name seen))
    (pushed put_exports stored_export ys x0) (PState c (put_exports ys x0)).
Proof using Hbytes Hsize.
  intros size Hys Hc He. unfold parses, export_entry. rewrite p_export_peek.
  eapply (agrees_bind bytes _ _ _ p_name); [lia | apply (read_name_cases bytes Hbytes Hsize); simpl; lia |].
  intros n nv s1 Hs1 (Hlt1 & Hn & Hx1). simpl in Hs1, Hlt1, Hx1.
  apply (agrees_peek bytes Hbytes); [simpl; lia.. |]. intros b Hlt Hb. rewrite bind_get. cbv zeta.
  destruct (external_types_of_byte b) as [type |]; [| eexists; split; [done | simpl; lia]].
  assert (Hnames : export_names bytes s1 = map export_name seen).
  { apply stored_export_map in Hys as <-. unfold export_names. rewrite Hx1. simpl. by rewrite map_map. }
  rewrite Hnames, Hn. apply agrees_guard; [simpl; lia |]. intros _. rewrite bind_move.
  destruct (Nat.eqb_spec (S (section_curr s1)) e) as [Heq | Hne].
  { rewrite slice_empty, export_index_empty by lia. eexists. split; [done | simpl; lia]. }
  simpl sm_when. rewrite bind_ret.
  assert (Hall : size = fun type => all_size type (set_curr (S (section_curr s1)) s1)).
  { unfold size, all_size, importdesc_at, defined_size. simpl. by rewrite Hx1. }
  rewrite Hall.
  eapply (agrees_bind bytes _ _ _ (p_export_index _ type) _ _ _ (set_curr (S (section_curr s1)) s1));
    [simpl; lia | apply (export_index_cases type); simpl; lia |].
  intros idx ? s2 Hs2 (-> & Hx2 & _). simpl in Hs2, Hx2. eexists _, _. split; [done |]. simpl.
  split; [lia |]. split; [done |]. split; [simpl; lia |]. exists (FinalExport nv type idx).
  split; [by unfold stored_export, decode_export; simpl; rewrite Hn |]. simpl. by rewrite Hx2, Hx1.
Qed.

Lemma export_section_cases b e ptr s :
  (b <= e)%nat -> (e <= length bytes)%nat -> exportsec_span (exportsec (others (secs s))) = None ->
  get_exports (secs s) = [] ->
  exportdesc (exportsec (others (secs s))) = replicate exportdesc_count [] ->
  match p_exports (max_export_sec_exports limit) (fun type => all_size type s) (slice bytes b e) with
  | Some xs => exists ys,
      ⟦ handle_export_section bytes limit wide b e ptr ⟧ s ⇓ (tt, PState e (secs (set_exportsec s
        (ExportSection (Some (b, e)) ys (export_indices ys))))) /\ map (decode_export bytes) ys = xs
  | None => exists err, ⟦ handle_export_section bytes limit wide b e ptr ⟧ s ⇑ err /\
      (b <= perr_curr err <= e)%nat
  end.
Proof using Hbytes Hsize.
  intros Hb He Hspan Hempty Hdesc. unfold handle_export_section, p_exports, check_duplicate.
  autorewrite with sm. rewrite Hspan. simpl sm_when. autorewrite with sm.
  set (s0 := set_curr b _).
  pose proof (vec_fold_cases bytes Hbytes get_exports put_exports stored_export e
    (fun seen => p_export (fun type => all_size type s) (map export_name seen))
    (fun _ => export_entry bytes wide e) (max_export_sec_exports limit)
    (check_parser_limit "exportsec_exports" (max_export_sec_exports limit)) wpec.invalid_export_count
    wpec.export_section_resolved_exceeded_the_actual_number
    wpec.export_section_resolved_not_match_the_actual_number s0 He Hb ltac:(done)
    ltac:(intros n Hn; by apply check_parser_limit_cases)
    (fun seen ys c Hys _ Hc => export_entry_cases e (secs s0) seen ys c Hys Hc He)) as H.
  cbv zeta in H. change (section_curr s0) with b in H.
  destruct (p_section_fold _ _ _) as [xs |].
  2: { destruct H as (err & H & ?). exists err. split; [by apply bind_thrown | done]. }
  destruct H as (ys & H & HF). exists ys. split; [| by apply stored_export_map].
  rewrite (bind_done _ _ _ _ _ H). unfold sm_modify. do 3 f_equal.
  unfold s0. simpl. unfold push_exportdesc. by rewrite Hdesc, push_desc_empty.
Qed.
End Refine.
