(* ===== verification/StartSection.v ===== *)
(** * The start section

    [parser/wasm/standard/wasm1/features/start_section.h]: the index of a function,
    imported or defined, without parameters and results. *)

From stdpp Require Import base list numbers strings.
From Stdlib Require Import ZArith Lia.
From S2P Require Import Prelude Leb128 WasmTypes ParserBase ParserSpec ParserRefine.
From S2P Require Import TypeSection ExternTypes Names ImportSection GlobalSection.
From S2P Require Import FunctionSection.
Open Scope Z_scope.

Section StartSection.
Context (bytes : list Z).

(** The active member of [imports.storage], read as a pointer to a type. *)
Definition storage_function (x : wasm1_final_extern_type) : option nat :=
  match x with ext_func i => Some i | _ => None end.

(** The type of the function, found through the function section or the import. *)
Definition start_function_type (start_idx : Z) : P final_function_type :=
  s ← sm_get;
  let imported_func := importdesc_at 0 s in
  let imported_func_size := u32 (zlen imported_func) in
  if imported_func_size <=? start_idx then
    let defined_func_index := u32 (start_idx - imported_func_size) in
    func_type_idx ← sm_unchecked
      (vt_index_unchecked bytes (funcsec_funcs (secs s)) (Z.to_nat defined_func_index));
    sm_unchecked (typesec_types (secs s) !! Z.to_nat func_type_idx)
  else
    i ← sm_unchecked (imported_func !! Z.to_nat start_idx);
    fit ← sm_unchecked (get_imports (secs s) !! i);
    function ← sm_unchecked (storage_function (fit_imports fit));
    sm_unchecked (typesec_types (secs s) !! function).

(** [static_cast<wasm_u32>(end - begin)] *)
Definition range_size (begin end_ : nat) : Z := u32 (uz (Z.of_nat end_ - Z.of_nat begin)).

Definition handle_start_section (section_begin section_end sec_id_module_ptr : nat) : P unit :=
  s ← sm_get;
  check_duplicate (startsec_span (startsec (others (secs s)))) sec_id_module_ptr 8;;
  sm_modify (fun s => set_startsec s
    (StartSection (Some (section_begin, section_end)) (start_idx (startsec (others (secs s))))));;
  move_to section_begin;;
  '(start_idx_next, idx) ← parse_u32 bytes section_end wpec.invalid_start_idx;
  s ← sm_get;
  sm_when (all_size et_func s <=? idx)
    (sm_throw (pinvalid (section_curr s) wpec.start_index_exceeds_maxvul
      (psel_start_index_exceeds_maxvul idx (all_size et_func s))));;
  sm_modify (fun s => set_startsec s
    (StartSection (startsec_span (startsec (others (secs s)))) idx));;
  move_to start_idx_next;;
  curr_type ← start_function_type idx;
  let func_para_size := range_size (parameter_begin curr_type) (parameter_end curr_type) in
  let func_res_size := range_size (result_begin curr_type) (result_end curr_type) in
  sm_when (negb (func_para_size =? 0) || negb (func_res_size =? 0))
    (sm_throw (pinvalid start_idx_next wpec.func_ref_by_start_has_illegal_sign (psel_u32 idx)));;
  sm_when (negb (start_idx_next =? section_end)%nat)
    (sm_throw (pinvalid start_idx_next wpec.unexpected_section_data psel_none)).
End StartSection.

(** ** The grammar *)

(** [start ::= x:funcidx] where the function [x] of the index space [sigs] has type
    [[] -> []]. *)
Definition start_bytes (sigs : list function_type) (x : Z) (bs : list Z) : Prop :=
  uN 32 bs x /\ sigs !! Z.to_nat x = Some (FunctionType [] []).

Definition p_start (sigs : list function_type) (bs : list Z) : option Z :=
  '(x, rest) ← p_u32 bs;
  ft ← sigs !! Z.to_nat x;
  if bool_decide (parameter ft = [] /\ result ft = [] /\ rest = []) then Some x else None.

Lemma p_start_iff sigs bs x : Forall is_byte bs -> p_start sigs bs = Some x <-> start_bytes sigs x bs.
Proof.
  intros HF. unfold p_start, start_bytes. split.
  - intros Hk. p_inv Hk as (y & b & rest & -> & Hy & Hk). apply bind_Some in Hk as ([ps rs] & Hft & Hk).
    case_bool_decide as Hc; [| done]. simpl in Hc. destruct Hc as (-> & -> & ->). injection Hk as ->.
    by rewrite app_nil_r.
  - intros [Hu Hft]. rewrite <- (app_nil_r bs) in HF |- *. p_run p_u32. rewrite Hft. done.
Qed.

(** ** Refinement *)

(** The function index space: [importdesc] and the function section lead to the types
    [imported] and [defined]. *)
Record func_space (bytes : list Z) (x : sections) (imported defined : list function_type) : Prop := FuncSpace {
  fs_imported : Forall2 (fun i ft => exists fit k fft, get_imports x !! i = Some fit /\
      fit_imports fit = ext_func k /\ typesec_types x !! k = Some fft /\
      decode_function_type bytes fft = Some ft)
    (importdesc_at 0 (PState 0 x)) imported;
  fs_defined : Forall2 (fun ti ft => exists fft, typesec_types x !! Z.to_nat ti = Some fft /\
      decode_function_type bytes fft = Some ft)
    (vt_contents bytes (funcsec_funcs x)) defined;
  fs_size : vt_size (funcsec_funcs x) = length defined;
  fs_ranges : Forall (type_ranges bytes) (typesec_types x);
  fs_params : forall fft ft, fft ∈ typesec_types x -> decode_function_type bytes fft = Some ft ->
    zlen (parameter ft) < 2 ^ 32 /\ zlen (result ft) < 2 ^ 32;
  fs_total : zlen imported + zlen defined < 2 ^ 32
}.

Section Refine.
Context (bytes : list Z) (Hbytes : Forall is_byte bytes) (Hsize : zlen bytes < 2 ^ 64).

Lemma range_size_eq a b :
  (a <= b <= length bytes)%nat -> Z.of_nat (b - a) < 2 ^ 32 -> range_size a b = Z.of_nat (b - a).
Proof using Hsize.
  intros Hab Hlt. unfold range_size, u32, uz, wrap, zlen in *.
  rewrite (Z.mod_small (Z.of_nat b - _)) by lia. rewrite Z.mod_small; lia.
Qed.

Section Space.
Context (x : sections) (imported defined : list function_type).
Context (Hspace : func_space bytes x imported defined).

Lemma decoded_sizes fft ft :
  fft ∈ typesec_types x -> decode_function_type bytes fft = Some ft ->
  range_size (parameter_begin fft) (parameter_end fft) = zlen (parameter ft) /\
  range_size (result_begin fft) (result_end fft) = zlen (result ft).
Proof using Hsize Hspace.
  intros Hin Hd. destruct (fs_params _ _ _ _ Hspace fft ft Hin Hd) as [Hp Hr].
  pose proof (fs_ranges _ _ _ _ Hspace) as HF. rewrite Forall_forall in HF. destruct (HF fft Hin) as [Ha Hb].
  unfold decode_function_type in Hd. option_inv. simpl in *.
  repeat match goal with H : mapM _ _ = Some _ |- _ => apply mapM_Some, Forall2_length in H;
    rewrite slice_length in H by lia end.
  unfold zlen in *. by rewrite !range_size_eq by lia; split; f_equal.
Qed.

Lemma imported_size : zlen (importdesc_at 0 (PState 0 x)) = zlen imported.
Proof using Hspace. unfold zlen. by rewrite (Forall2_length _ _ _ (fs_imported _ _ _ _ Hspace)). Qed.

Lemma all_func_size c : all_size et_func (PState c x) = zlen (imported ++ defined).
Proof using Hspace.
  unfold all_size, defined_size. simpl. rewrite (fs_size _ _ _ _ Hspace).
  change (importdesc_at 0 (PState c x)) with (importdesc_at 0 (PState 0 x)). rewrite imported_size.
  pose proof (fs_total _ _ _ _ Hspace). unfold u32, wrap, zlen in *. rewrite length_app.
  rewrite !Z.mod_small; rewrite ?Z.mod_small; lia.
Qed.

(** The lookup finds the type of the function in the index space. *)
Lemma start_function_type_run c idx ft :
  0 <= idx -> (imported ++ defined) !! Z.to_nat idx = Some ft ->
  exists fft, ⟦ start_function_type bytes idx ⟧ (PState c x) ⇓ (fft, PState c x) /\
    fft ∈ typesec_types x /\ decode_function_type bytes fft = Some ft.
Proof using Hspace.
  intros Hidx Hft. pose proof (fs_total _ _ _ _ Hspace) as Htot. unfold start_function_type. rewrite bind_get.
  cbv zeta. change (importdesc_at 0 (PState c x)) with (importdesc_at 0 (PState 0 x)). rewrite imported_size.
  assert (Hu : forall z, 0 <= z < 2 ^ 32 -> u32 z = z) by (intros; unfold u32, wrap; apply Z.mod_small; lia).
  pose proof (lookup_lt_Some _ _ _ Hft) as Hlt. rewrite length_app in Hlt.
  rewrite (Hu (zlen imported)) by (unfold zlen in *; lia).
  destruct (Z.leb_spec (zlen imported) idx) as [Hge | Hltn].
  - rewrite lookup_app_r in Hft by (unfold zlen in *; lia). rewrite Hu by (unfold zlen in *; lia).
    destruct (Forall2_lookup_r _ _ _ _ _ (fs_defined _ _ _ _ Hspace) Hft) as (ti & Hti & fft & Hfft & Hd).
    exists fft. cbn [secs]. rewrite vt_index_contents by (rewrite (fs_size _ _ _ _ Hspace); unfold zlen in *; lia).
    replace (Z.to_nat (idx - zlen imported)) with (Z.to_nat idx - length imported)%nat
      by (unfold zlen in *; lia).
    rewrite Hti, bind_some, Hfft. split; [done |]. split; [| done]. by eapply list_elem_of_lookup_2.
  - rewrite lookup_app_l in Hft by (unfold zlen in *; lia).
    destruct (Forall2_lookup_r _ _ _ _ _ (fs_imported _ _ _ _ Hspace) Hft)
      as (i & Hi & fit & k & fft & Hfit & Hk & Hfft & Hd).
    exists fft. rewrite Hi, bind_some. cbn [secs]. rewrite Hfit, bind_some, Hk. cbn [storage_function]. rewrite bind_some, Hfft.
    split; [done |]. split; [| done]. by eapply list_elem_of_lookup_2.
Qed.
End Space.

Lemma start_section_cases imported defined b e ptr s :
  (b <= e)%nat -> (e <= length bytes)%nat -> startsec_span (startsec (others (secs s))) = None ->
  func_space bytes (secs s) imported defined ->
  match p_start (imported ++ defined) (slice bytes b e) with
  | Some x => ⟦ handle_start_section bytes b e ptr ⟧ s ⇓
      (tt, PState e (secs (set_startsec s (StartSection (Some (b, e)) x))))
  | None => exists err, ⟦ handle_start_section bytes b e ptr ⟧ s ⇑ err /\ (b <= perr_curr err <= e)%nat
  end.
Proof using Hbytes Hsize.
  intros Hb He Hspan Hspace. unfold handle_start_section, check_duplicate, p_start.
  rewrite bind_get, Hspan. simpl sm_when. rewrite bind_ret, bind_modify, bind_move.
  set (s0 := set_curr b _).
  assert (Hs0 : func_space bytes (secs s0) imported defined) by (destruct Hspace; by constructor).
  pose proof (parse_u32_cases bytes Hbytes e wpec.invalid_start_idx s0 Hb He) as H.
  change (section_curr s0) with b in H. destruct (p_u32 _) as [[x rest] |]; simpl.
  2: { destruct H as (pc & H). eexists. split; [by apply bind_thrown | simpl; lia]. }
  destruct H as (next & H & Hn & <- & Hx). rewrite (bind_done _ _ _ _ _ H), bind_get.
  assert (Hall : all_size et_func s0 = zlen (imported ++ defined)) by exact (all_func_size (secs s0) imported defined Hs0 b).
  rewrite Hall.
  destruct (Z.leb_spec (zlen (imported ++ defined)) x).
  { rewrite lookup_ge_None_2 by (unfold zlen in *; lia). cbn.
    eexists. split; [reflexivity | simpl; lia]. }
  simpl sm_when. rewrite bind_ret, bind_modify, bind_move.
  destruct (lookup_lt_is_Some_2 (imported ++ defined) (Z.to_nat x)) as [ft Hft]; [unfold zlen in *; lia |].
  rewrite Hft. simpl. set (s1 := set_curr next _).
  assert (Hs1 : func_space bytes (secs s1) imported defined) by (destruct Hspace; by constructor).
  destruct (start_function_type_run (secs s1) imported defined Hs1 next x ft) as (fft & Hrun & Hin & Hd); [lia | done |].
  change (PState next (secs s1)) with s1 in Hrun. rewrite (bind_done _ _ _ _ _ Hrun). cbv zeta.
  destruct (decoded_sizes (secs s1) imported defined Hs1 fft ft Hin Hd) as [-> ->].
  destruct ft as [[| p ps] [| r rs]]; unfold zlen; simpl parameter; simpl result; simpl length.
  2, 3, 4: rewrite bool_decide_eq_false_2 by (intros (? & ? & _); done);
    eexists; split; [done | simpl; lia].
  simpl sm_when. rewrite bind_ret. destruct (Nat.eqb_spec next e) as [-> | Hne].
  - rewrite slice_empty by lia. by rewrite bool_decide_eq_true_2.
  - rewrite bool_decide_eq_false_2.
    + eexists. split; [done | simpl; lia].
    + intros (_ & _ & Hs). apply (f_equal length) in Hs. rewrite slice_length in Hs by done. simpl in Hs. lia.
Qed.
End Refine.
