(* ===== verification/SegmentSections.v ===== *)
(** * The element and data sections

    [parser/wasm/standard/wasm1/features/element_section.h] and [data_section.h] for the
    Release 1.0 feature set: the segments that initialize tables and memories. The checks
    of their offsets are in [ConstExpr]. *)

From stdpp Require Import base list numbers strings.
From Stdlib Require Import ZArith Lia.
From S2P Require Import Prelude Leb128 WasmTypes ParserBase ParserSpec ParserRefine.
From S2P Require Import ExternTypes Names ImportSection ConstExpr GlobalSection.
Open Scope Z_scope.

Section SegmentSections.
Context (bytes : list Z) (limit : wasm1_parser_limit_t).

(** ** Elements *)

(** [for(size_t funcidx_counter{}; funcidx_counter != funcidx_count; ++funcidx_counter)] *)
Fixpoint funcidx_loop (k : nat) (section_end : nat) (all_func_size : Z) : P (list Z) :=
  match k with
  | O => mret []
  | S k =>
      curr ← sm_gets section_curr;
      '(funcidx_next, funcidx) ← parse_u32 bytes section_end wpec.invalid_elem_funcidx;
      sm_when (all_func_size <=? funcidx)
        (sm_throw (pinvalid curr wpec.elem_func_index_exceeds_maxvul
          (psel_elem_func_index_exceeds_maxvul funcidx all_func_size)));;
      move_to funcidx_next;;
      xs ← funcidx_loop k section_end all_func_size;
      mret (funcidx :: xs)
  end.

Definition define_handler_element_type (elem_table_idx : Z) (section_end : nat) : P wasm1_elem_storage_t :=
  s ← sm_get;
  sm_when (all_size et_table s <=? elem_table_idx)
    (sm_throw (pinvalid (section_curr s) wpec.elem_table_index_exceeds_maxvul
      (psel_elem_table_index_exceeds_maxvul elem_table_idx (all_size et_table s))));;
  expr ← parse_and_check_offset_expr_valid bytes section_end;
  '(funcidx_count_next, funcidx_count) ← parse_u32 bytes section_end wpec.invalid_elem_funcidx_count;
  check_parser_limit "elemsec_funcidx" (max_elem_sec_funcidx limit) funcidx_count;;
  move_to funcidx_count_next;;
  vec_funcidx ← funcidx_loop (Z.to_nat funcidx_count) section_end (all_size et_func s);
  mret (ElemStorage elem_table_idx expr vec_funcidx).

(** The body of the loop after the counter test; [fet.type] is the index of the table. *)
Definition elem_entry (section_end : nat) : P unit :=
  '(elem_kind_next, elem_kind) ← parse_u32 bytes section_end wpec.invalid_elem_table_idx;
  move_to elem_kind_next;;
  fet ← define_handler_element_type elem_kind section_end;
  sm_modify (fun s =>
    let sec := elemsec (others (secs s)) in
    set_elemsec s (ElementSection (elemsec_span sec) (elemsec_elems sec ++ [fet]))).

Definition handle_element_section (section_begin section_end sec_id_module_ptr : nat) : P unit :=
  s ← sm_get;
  let sec := elemsec (others (secs s)) in
  check_duplicate (elemsec_span sec) sec_id_module_ptr 9;;
  sm_modify (fun s => set_elemsec s (ElementSection (Some (section_begin, section_end)) (elemsec_elems sec)));;
  move_to section_begin;;
  counted_section bytes section_end wpec.invalid_elem_count
    wpec.elem_section_resolved_exceeded_the_actual_number
    wpec.element_section_resolved_not_match_the_actual_number
    (check_parser_limit "elemsec_elems" (max_elem_sec_elems limit))
    (fun _ => elem_entry section_end).

(** ** Data *)

Definition define_handler_data_type (data_memory_idx : Z) (section_end : nat) : P wasm1_data_storage_t :=
  s ← sm_get;
  sm_when (all_size et_memory s <=? data_memory_idx)
    (sm_throw (pinvalid (section_curr s) wpec.data_memory_index_exceeds_maxvul
      (psel_u32arr data_memory_idx (all_size et_memory s))));;
  expr ← parse_and_check_offset_expr_valid bytes section_end;
  '(byte_size_count_next, byte_size_count) ← parse_u32 bytes section_end wpec.invalid_data_byte_size_count;
  move_to byte_size_count_next;;
  sm_when (distance byte_size_count_next section_end <? byte_size_count)
    (sm_throw (pinvalid byte_size_count_next wpec.illegal_data_byte_size_count (psel_u32 byte_size_count)));;
  let byte_end := (byte_size_count_next + Z.to_nat byte_size_count)%nat in
  move_to byte_end;;
  mret (DataStorage data_memory_idx expr byte_size_count_next byte_end).

Definition data_entry (section_end : nat) : P unit :=
  '(data_kind_next, data_kind) ← parse_u32 bytes section_end wpec.invalid_data_memory_idx;
  move_to data_kind_next;;
  fdt ← define_handler_data_type data_kind section_end;
  sm_modify (fun s =>
    let sec := datasec (others (secs s)) in
    set_datasec s (DataSection (datasec_span sec) (datasec_datas sec ++ [fdt]))).

Definition handle_data_section (section_begin section_end sec_id_module_ptr : nat) : P unit :=
  s ← sm_get;
  let sec := datasec (others (secs s)) in
  check_duplicate (datasec_span sec) sec_id_module_ptr 11;;
  sm_modify (fun s => set_datasec s (DataSection (Some (section_begin, section_end)) (datasec_datas sec)));;
  move_to section_begin;;
  counted_section bytes section_end wpec.invalid_data_count
    wpec.data_section_resolved_exceeded_the_actual_number
    wpec.data_section_resolved_not_match_the_actual_number
    (check_parser_limit "datasec_entries" (max_data_sec_entries limit))
    (fun _ => data_entry section_end).
End SegmentSections.

(** ** The grammar *)

(** An element segment: the table, the offset, the functions. *)
Record elem_segment := ElemSegment {
  elem_table : Z;
  elem_offset : base_const_expr_opcode_t;
  elem_init : list Z
}.
Record data_segment := DataSegment {
  data_memory : Z;
  data_offset : base_const_expr_opcode_t;
  data_init : list Z
}.

(** An index below [size]. *)
Definition index_below (size x : Z) (bs : list Z) : Prop := x < size /\ uN 32 bs x.

Section Grammar.
(** The imported globals, the sizes of the index spaces and the limit on functions. *)
Context (globals : list global_type) (funcs tables memories max_funcidx : Z).

(** [elem ::= x:tableidx e:expr y*:vec(funcidx)] *)
Definition elem_bytes (x : elem_segment) (bs : list Z) : Prop :=
  exists tb eb fb, bs = tb ++ eb ++ fb /\ index_below tables (elem_table x) tb /\
    constexpr globals i32 (elem_offset x) eb /\
    zlen (elem_init x) <= max_funcidx /\ vec (fun _ => index_below funcs) (elem_init x) fb.

(** [data ::= x:memidx e:expr b*:vec(byte)] *)
Definition data_bytes (x : data_segment) (bs : list Z) : Prop :=
  exists mb eb cb, bs = mb ++ eb ++ cb ++ data_init x /\ index_below memories (data_memory x) mb /\
    constexpr globals i32 (data_offset x) eb /\ uN 32 cb (zlen (data_init x)).

Definition p_index (size : Z) : parser Z := fun bs =>
  '(x, bs) ← p_u32 bs; if size <=? x then None else Some (x, bs).

Fixpoint p_list {A} (k : nat) (p : parser A) : parser (list A) := fun bs =>
  match k with
  | O => Some ([], bs)
  | S k => '(x, bs) ← p bs; '(xs, bs) ← p_list k p bs; Some (x :: xs, bs)
  end.

Definition p_elem : parser elem_segment := fun bs =>
  '(t, bs) ← p_index tables bs;
  '(op, bs) ← p_constexpr globals i32 bs;
  '(n, bs) ← p_u32 bs;
  if max_funcidx <? n then None
  else '(xs, bs) ← p_list (Z.to_nat n) (p_index funcs) bs; Some (ElemSegment t op xs, bs).

Definition p_data : parser data_segment := fun bs =>
  '(m, bs) ← p_index memories bs;
  '(op, bs) ← p_constexpr globals i32 bs;
  '(n, bs) ← p_u32 bs;
  '(b, bs) ← p_bytes n bs;
  Some (DataSegment m op b, bs).
End Grammar.

#[global] Instance p_index_parser size : ParserOf (p_index size) (index_below size).
Proof.
  intros bs x rest HF. unfold p_index. split.
  - intros Hk. p_inv Hk as (y & pre & r & -> & Hy & Hk).
    destruct (Z.leb_spec size y); [done |]. injection Hk as <- <-. by exists pre.
  - intros (pre & -> & Hlt & Hu). p_run p_u32. by destruct (Z.leb_spec size x); [lia |].
Qed.

#[global] Instance p_list_parser {A} k (p : parser A) g `{!ParserOf p g} :
  ParserOf (p_list k p) (fun xs bs => length xs = k /\ entries (fun _ => g) 0 xs bs).
Proof.
  induction k as [| k IH]; intros bs xs rest HF; simpl; split.
  - intros [= <- <-]. exists []. split; [done |]. split; [done | constructor].
  - intros (pre & -> & ->%nil_length_inv & He). by apply entries_inv in He as ->.
  - intros Hk. p_inv Hk as (x & b & r & -> & Hg & Hk). p_inv Hk as (ys & b' & r' & -> & [Hl He] & [= <- <-]).
    exists (b ++ b'). split; [by rewrite app_assoc |]. split; [by simpl; f_equal |].
    constructor; [done |]. by eapply entries_shift.
  - intros (pre & -> & Hl & He). destruct xs as [| x xs]; [done |].
    apply entries_inv in He as (b & bs & -> & Hg & Hes). rewrite <- app_assoc in *.
    rewrite (parser_app p g x b) by done. simpl.
    erewrite (@parser_app _ (p_list k p) _ xs bs rest IH); [done | | bytes]. split; [by injection Hl |].
    by eapply entries_shift.
Qed.

#[global] Instance p_elem_parser gs f t m : ParserOf (p_elem gs f t m) (elem_bytes gs f t m).
Proof.
  intros bs x rest HF. unfold p_elem. split.
  - intros Hk. p_inv Hk as (i & tb & r & -> & Hi & Hk). p_inv Hk as (op & eb & r1 & -> & He & Hk).
    p_inv Hk as (n & cb & r2 & -> & Hn & Hk). destruct (Z.ltb_spec m n); [done |].
    p_inv Hk as (xs & fb & r3 & -> & [Hl Hf] & [= <- <-]). apply u32_bounds in Hn as Hn'.
    exists (tb ++ eb ++ cb ++ fb). split; [by rewrite <- !app_assoc |].
    exists tb, eb, (cb ++ fb). split_and!; [done.. | simpl; unfold zlen; lia |].
    exists cb, fb. split_and!; [done | | done]. simpl. unfold zlen. by rewrite Hl, Z2Nat.id by lia.
  - intros (pre & -> & tb & eb & fb & -> & Hi & He & Hm & cb & ib & -> & Hn & Hf).
    rewrite <- !app_assoc in *. p_run (p_index t). p_run (p_constexpr gs i32). p_run p_u32.
    rewrite (proj2 (Z.ltb_ge m _)) by lia. unfold zlen. rewrite Nat2Z.id.
    p_run (p_list (length (elem_init x)) (p_index f)). by destruct x.
Qed.

#[global] Instance p_data_parser gs m : ParserOf (p_data gs m) (data_bytes gs m).
Proof.
  intros bs x rest HF. unfold p_data. split.
  - intros Hk. p_inv Hk as (i & tb & r & -> & Hi & Hk). p_inv Hk as (op & eb & r1 & -> & He & Hk).
    p_inv Hk as (n & cb & r2 & -> & Hn & Hk). p_inv Hk as (b & ? & r3 & -> & [-> Hl] & [= <- <-]).
    apply counted_length in Hl; [| apply u32_bounds in Hn; lia]. subst n.
    exists (tb ++ eb ++ cb ++ b). split; [by rewrite <- !app_assoc |]. by exists tb, eb, cb.
  - intros (pre & -> & tb & eb & cb & -> & Hi & He & Hn). rewrite <- !app_assoc in *.
    p_run (p_index m). p_run (p_constexpr gs i32). p_run p_u32. p_run (p_bytes (zlen (data_init x))).
    by destruct x.
Qed.

Lemma index_nonempty size x : ~ index_below size x [].
Proof. intros [_ H]. by apply uN_nonempty in H. Qed.
Lemma elem_nonempty gs f t m x : ~ elem_bytes gs f t m x [].
Proof. intros (tb & eb & fb & [-> _]%symmetry%app_eq_nil & Hi & _). by apply index_nonempty in Hi. Qed.
Lemma data_nonempty gs m x : ~ data_bytes gs m x [].
Proof. intros (tb & eb & fb & [-> _]%symmetry%app_eq_nil & Hi & _). by apply index_nonempty in Hi. Qed.

(** ** Refinement *)

Definition get_elems (x : sections) : list wasm1_elem_storage_t := elemsec_elems (elemsec (others x)).
Definition put_elems (l : list wasm1_elem_storage_t) (x : sections) : sections :=
  secs (set_elemsec (PState 0 x) (ElementSection (elemsec_span (elemsec (others x))) l)).
#[global] Instance elems_field : VecField get_elems put_elems.
Proof. by split; intros; repeat match goal with x : sections |- _ => destruct x as [? ? ? ? ? ? [? ? ? ? ? ? ? [] ?]] end. Qed.

Definition get_datas (x : sections) : list wasm1_data_storage_t := datasec_datas (datasec (others x)).
Definition put_datas (l : list wasm1_data_storage_t) (x : sections) : sections :=
  secs (set_datasec (PState 0 x) (DataSection (datasec_span (datasec (others x))) l)).
#[global] Instance datas_field : VecField get_datas put_datas.
Proof. by split; intros; repeat match goal with x : sections |- _ => destruct x as [? ? ? ? ? ? [? ? ? ? ? ? ? ? []]] end. Qed.

Definition stored_elem (y : wasm1_elem_storage_t) (x : elem_segment) : Prop :=
  wet_table_idx y = elem_table x /\ stored_expr (wet_expr y) (elem_offset x) /\ vec_funcidx y = elem_init x.
Definition stored_data (bytes : list Z) (y : wasm1_data_storage_t) (x : data_segment) : Prop :=
  wdt_memory_idx y = data_memory x /\ stored_expr (wdt_expr y) (data_offset x) /\
  slice bytes (wdt_byte_begin y) (wdt_byte_end y) = data_init x.

Section Refine.
Context (bytes : list Z) (Hbytes : Forall is_byte bytes) (Hsize : zlen bytes < 2 ^ 64).
Context (limit : wasm1_parser_limit_t).

Lemma funcidx_loop_cases k e all lo s :
  (lo <= section_curr s <= e)%nat -> (e <= length bytes)%nat ->
  agrees bytes e lo (funcidx_loop bytes k e all s) (p_list k (p_index all) (slice bytes (section_curr s) e))
    (fun xs ys s' => ys = xs /\ secs s' = secs s).
Proof using Hbytes.
  revert s. induction k as [| k IH]; intros s Hlo He; simpl.
  { eexists _, _. split; [done |]. simpl. split; [lia |]. done. }
  unfold p_index. rewrite bind_gets, option_bind_assoc.
  pose proof (parse_u32_cases bytes Hbytes e wpec.invalid_elem_funcidx s ltac:(lia) He) as H.
  destruct (p_u32 _) as [[x rest] |]; simpl.
  2: { destruct H as (pc & H). eexists. split; [by apply bind_thrown | simpl; lia]. }
  destruct H as (next & H & Hn & <- & Hx). rewrite (bind_done _ _ _ _ _ H).
  destruct (all <=? x); simpl; [eexists; split; [done | simpl; lia] |].
  rewrite bind_ret, bind_move.
  eapply agrees_seq; [apply (IH (set_curr next s)); simpl; lia |].
  intros xs ? s' Hs' [-> Hs]. eexists _, _. split; [done |]. simpl. split; [lia |]. done.
Qed.

Section Offsets.
Context (gs : list global_type) (e : nat) (He : (e <= length bytes)%nat).

(** A segment: an index within [size], and an offset. *)
Lemma segment_head {A B} size lo sel c err s (k : wasm1_const_expr_storage_t -> P B)
    (q : base_const_expr_opcode_t -> list Z -> option (A * list Z)) idx Q :
  globals_space (secs s) gs -> (lo <= section_curr s <= e)%nat -> err = pinvalid (section_curr s) c sel ->
  (forall op x s', (section_curr s <= section_curr s' <= e)%nat -> secs s' = secs s ->
     stored_expr x op -> agrees bytes e lo (k x s') (q op (slice bytes (section_curr s') e)) Q) ->
  agrees bytes e lo
    ((sm_when (size <=? idx) (sm_throw err);; parse_and_check_offset_expr_valid bytes e ≫= k) s)
    (if size <=? idx then None
     else '(op, bs) ← p_constexpr gs i32 (slice bytes (section_curr s) e); q op bs) Q.
Proof using Hbytes Hsize He.
  intros Hg Hlo -> Hk. apply agrees_guard; [simpl; lia |]. intros _.
  eapply (agrees_bind bytes _ _ _ (p_constexpr gs i32)); [lia | |].
  { by apply (const_expr_cases bytes Hbytes Hsize e He); [| lia]. }
  intros op x s' Hs' (-> & Hx & _). by apply Hk.
Qed.

(** The two parsers after the index of the table or memory. *)
Definition p_elem_rest (funcs max_funcidx t : Z) : parser elem_segment := fun bs =>
  '(op, bs) ← p_constexpr gs i32 bs;
  '(n, bs) ← p_u32 bs;
  if max_funcidx <? n then None
  else '(xs, bs) ← p_list (Z.to_nat n) (p_index funcs) bs; Some (ElemSegment t op xs, bs).

Definition p_data_rest (m : Z) : parser data_segment := fun bs =>
  '(op, bs) ← p_constexpr gs i32 bs;
  '(n, bs) ← p_u32 bs;
  '(b, bs) ← p_bytes n bs;
  Some (DataSegment m op b, bs).

Lemma p_index_bind {A} size l (q : Z -> list Z -> option (A * list Z)) :
  ('(x, bs) ← p_index size l; q x bs) = ('(x, bs) ← p_u32 l; if size <=? x then None else q x bs).
Proof. unfold p_index. destruct (p_u32 l) as [[x bs] |]; simpl; [by destruct (size <=? x) | done]. Qed.

Lemma element_type_cases lo t s :
  globals_space (secs s) gs -> (lo <= section_curr s <= e)%nat ->
  agrees bytes e lo (define_handler_element_type bytes limit t e s)
    (if all_size et_table s <=? t then None
     else p_elem_rest (all_size et_func s) (max_elem_sec_funcidx limit) t (slice bytes (section_curr s) e))
    (fun x y s' => stored_elem y x /\ secs s' = secs s).
Proof using Hbytes Hsize He.
  intros Hg Hlo. unfold define_handler_element_type. rewrite bind_get.
  eapply segment_head; [done | done | done |]. intros op x s1 Hs1 Hx1 Hop.
  apply (agrees_u32 bytes Hbytes); [lia.. |]. intros next n Hn Hr. cbv iota beta.
  pose proof (check_parser_limit_cases e "elemsec_funcidx" (max_elem_sec_funcidx limit) n s1 ltac:(lia)) as Hl.
  destruct (max_elem_sec_funcidx limit <? n).
  { destruct Hl as (err & Hl & ?). exists err. split; [by apply bind_thrown | lia]. }
  rewrite (bind_done _ _ _ _ _ Hl), bind_move.
  eapply agrees_seq; [apply (funcidx_loop_cases _ _ _ _ (set_curr next s1)); simpl; lia |].
  intros xs ? s2 Hs2 [-> Hx2]. eexists _, _. split; [done |]. simpl in Hx2 |- *. split; [lia |]. split; [done |].
  split; [done | congruence].
Qed.

Lemma data_type_cases lo m s :
  globals_space (secs s) gs -> (lo <= section_curr s <= e)%nat ->
  agrees bytes e lo (define_handler_data_type bytes m e s)
    (if all_size et_memory s <=? m then None else p_data_rest m (slice bytes (section_curr s) e))
    (fun x y s' => stored_data bytes y x /\ secs s' = secs s).
Proof using Hbytes Hsize He.
  intros Hg Hlo. unfold define_handler_data_type. rewrite bind_get.
  eapply segment_head; [done | done | done |]. intros op x s1 Hs1 Hx1 Hop.
  apply (agrees_u32 bytes Hbytes); [lia.. |]. intros next n Hn Hr. rewrite bind_move.
  unfold p_bytes, zlen. rewrite slice_length, (distance_eq bytes Hsize) by lia.
  destruct (Z.ltb_spec (Z.of_nat (e - next)) n); simpl.
  { eexists. split; [done | simpl; lia]. }
  rewrite bind_ret, bind_move, slice_take, slice_drop by lia.
  eexists _, _. split; [done |]. simpl. split; [lia |]. split; [done |]. split; [done | congruence].
Qed.

Lemma elem_entry_cases x0 ys c :
  globals_space x0 gs -> (c < e)%nat ->
  parses bytes e (elem_entry bytes limit e)
    (p_elem gs (all_size et_func (PState 0 x0)) (all_size et_table (PState 0 x0)) (max_elem_sec_funcidx limit))
    (pushed put_elems stored_elem ys x0) (PState c (put_elems ys x0)).
Proof using Hbytes Hsize He.
  intros Hg Hc. unfold parses, elem_entry, p_elem. rewrite p_index_bind.
  apply (agrees_u32 bytes Hbytes); [simpl; lia.. |]. intros next t Hn Ht. simpl in Hn. rewrite bind_move.
  eapply agrees_then.
  { eapply agrees_weaken; [| intros ? ? ? Hle HQ; exact (conj Hle HQ) |
      exact (element_type_cases next t (set_curr next (PState c (put_elems ys x0))) Hg ltac:(simpl; lia))]. simpl. lia. }
  intros x y s' Hs' (Hle & Hy & Hx). eexists _, _. split; [done |]. split; [done |].
  split; [simpl in *; lia |]. exists y. split; [done |]. simpl in Hx |- *. by rewrite Hx.
Qed.

Lemma data_entry_cases x0 ys c :
  globals_space x0 gs -> (c < e)%nat ->
  parses bytes e (data_entry bytes e) (p_data gs (all_size et_memory (PState 0 x0)))
    (pushed put_datas (stored_data bytes) ys x0) (PState c (put_datas ys x0)).
Proof using Hbytes Hsize He.
  intros Hg Hc. unfold parses, data_entry, p_data. rewrite p_index_bind.
  apply (agrees_u32 bytes Hbytes); [simpl; lia.. |]. intros next t Hn Ht. simpl in Hn. rewrite bind_move.
  eapply agrees_then.
  { eapply agrees_weaken; [| intros ? ? ? Hle HQ; exact (conj Hle HQ) |
      exact (data_type_cases next t (set_curr next (PState c (put_datas ys x0))) Hg ltac:(simpl; lia))]. simpl. lia. }
  intros x y s' Hs' (Hle & Hy & Hx). eexists _, _. split; [done |]. split; [done |].
  split; [simpl in *; lia |]. exists y. split; [done |]. simpl in Hx |- *. by rewrite Hx.
Qed.

Lemma element_section_cases b ptr s :
  (b <= e)%nat -> elemsec_span (elemsec (others (secs s))) = None -> get_elems (secs s) = [] ->
  globals_space (secs s) gs ->
  match p_section (max_elem_sec_elems limit) (fun _ => p_elem gs (all_size et_func s) (all_size et_table s)
          (max_elem_sec_funcidx limit)) (slice bytes b e) with
  | Some xs => exists ys, ⟦ handle_element_section bytes limit b e ptr ⟧ s ⇓
      (tt, PState e (secs (set_elemsec s (ElementSection (Some (b, e)) ys)))) /\ Forall2 stored_elem ys xs
  | None => exists err, ⟦ handle_element_section bytes limit b e ptr ⟧ s ⇑ err /\ (b <= perr_curr err <= e)%nat
  end.
Proof using Hbytes Hsize He.
  intros Hb Hspan Hempty Hg. unfold handle_element_section, check_duplicate.
  autorewrite with sm. rewrite Hspan. simpl sm_when. autorewrite with sm. set (s0 := set_curr b _).
  pose proof (vec_section_cases bytes Hbytes get_elems put_elems stored_elem e
    (p_elem gs (all_size et_func s) (all_size et_table s) (max_elem_sec_funcidx limit))
    (elem_entry bytes limit e) (max_elem_sec_elems limit)
    (check_parser_limit "elemsec_elems" (max_elem_sec_elems limit)) wpec.invalid_elem_count
    wpec.elem_section_resolved_exceeded_the_actual_number
    wpec.element_section_resolved_not_match_the_actual_number s0 He Hb Hempty
    ltac:(intros n Hn; by apply check_parser_limit_cases)
    (fun ys c Hc => elem_entry_cases (secs s0) ys c Hg Hc)) as H.
  cbv zeta in H. change (section_curr s0) with b in H.
  destruct (p_section _ _ _) as [xs |]; exact H.
Qed.

Lemma data_section_cases b ptr s :
  (b <= e)%nat -> datasec_span (datasec (others (secs s))) = None -> get_datas (secs s) = [] ->
  globals_space (secs s) gs ->
  match p_section (max_data_sec_entries limit) (fun _ => p_data gs (all_size et_memory s)) (slice bytes b e) with
  | Some xs => exists ys, ⟦ handle_data_section bytes limit b e ptr ⟧ s ⇓
      (tt, PState e (secs (set_datasec s (DataSection (Some (b, e)) ys)))) /\ Forall2 (stored_data bytes) ys xs
  | None => exists err, ⟦ handle_data_section bytes limit b e ptr ⟧ s ⇑ err /\ (b <= perr_curr err <= e)%nat
  end.
Proof using Hbytes Hsize He.
  intros Hb Hspan Hempty Hg. unfold handle_data_section, check_duplicate.
  autorewrite with sm. rewrite Hspan. simpl sm_when. autorewrite with sm. set (s0 := set_curr b _).
  pose proof (vec_section_cases bytes Hbytes get_datas put_datas (stored_data bytes) e
    (p_data gs (all_size et_memory s)) (data_entry bytes e) (max_data_sec_entries limit)
    (check_parser_limit "datasec_entries" (max_data_sec_entries limit)) wpec.invalid_data_count
    wpec.data_section_resolved_exceeded_the_actual_number
    wpec.data_section_resolved_not_match_the_actual_number s0 He Hb Hempty
    ltac:(intros n Hn; by apply check_parser_limit_cases)
    (fun ys c Hc => data_entry_cases (secs s0) ys c Hg Hc)) as H.
  cbv zeta in H. change (section_curr s0) with b in H.
  destruct (p_section _ _ _) as [xs |]; exact H.
Qed.
End Offsets.
End Refine.
