(* ===== verification/CodeSection.v ===== *)
(** * The code section

    [parser/wasm/standard/wasm1/features/code_section.h] for the Release 1.0 feature
    set, and the final check of [final_check.h]: the bodies of the functions are cut
    out of the module and their declarations of locals are read; the expressions are
    left to the code validator. *)

From stdpp Require Import base list numbers strings.
From Stdlib Require Import ZArith Lia.
From S2P Require Import Prelude Leb128 WasmTypes ParserBase ParserSpec ParserRefine.
From S2P Require Import TypeSection FunctionSection.
Open Scope Z_scope.

Section CodeSection.
Context (bytes : list Z) (limit : wasm1_parser_limit_t).

(** One run of locals; [all] is [all_clocal_counter]. *)
Definition local_run (code_end : nat) (curr_code_parameter_size all : Z)
    : P (final_local_entry_t * Z) :=
  s ← sm_get;
  let max_local_defined_count := u32 (2 ^ 32 - 1 - curr_code_parameter_size) in
  '(clocal_n_next, clocal_n) ← parse_u32 bytes code_end wpec.invalid_clocal_n;
  sm_when (u32 (max_local_defined_count - all) <? clocal_n)
    (sm_throw (pinvalid (section_curr s)
      wpec.final_list_of_locals_exceeds_the_maximum_value_of_u32max_minus_parameter_size
      (psel_u32 curr_code_parameter_size)));;
  let all := u32 (all + clocal_n) in
  move_to clocal_n_next;;
  sm_when (clocal_n_next =? code_end)%nat
    (sm_throw (pinvalid clocal_n_next wpec.code_missing_local_type psel_none));;
  fvt ← sm_unchecked (bytes !! clocal_n_next);
  sm_when (negb (is_valid_value_type fvt))
    (sm_throw (pinvalid clocal_n_next wpec.illegal_value_type (psel_u8 fvt)));;
  move_to (S clocal_n_next);;
  mret (FinalLocalEntry clocal_n fvt, all).

Fixpoint local_runs (k : nat) (code_end : nat) (curr_code_parameter_size all : Z)
    : P (list final_local_entry_t * Z) :=
  match k with
  | O => mret ([], all)
  | S k =>
      '(fle, all) ← local_run code_end curr_code_parameter_size all;
      '(fles, all) ← local_runs k code_end curr_code_parameter_size all;
      mret (fle :: fles, all)
  end.

(** The number of parameters of the function a code entry belongs to. *)
Definition code_parameter_size (code_counter : Z) : P Z :=
  s ← sm_get;
  let curr_code_match_type_index := u32 (code_counter - 1) in
  type_index ← sm_unchecked
    (vt_index_unchecked bytes (funcsec_funcs (secs s)) (Z.to_nat curr_code_match_type_index));
  curr_code_match_type ← sm_unchecked (typesec_types (secs s) !! Z.to_nat type_index);
  mret (u32 (uz (Z.of_nat (parameter_end curr_code_match_type) -
                 Z.of_nat (parameter_begin curr_code_match_type)))).

(** The minimum check of an expression: its last byte is [end]. *)
Definition check_code_body_end (code_end : nat) : P unit :=
  s ← sm_get;
  sm_when (section_curr s =? code_end)%nat
    (sm_throw (pinvalid (section_curr s) wpec.missing_code_body_end psel_none));;
  b ← sm_unchecked (bytes !! (code_end - 1)%nat);
  sm_when (negb (b =? 11))
    (sm_throw (pinvalid (code_end - 1) wpec.missing_code_body_end psel_none)).

(** The body of the loop after the counter test. *)
Definition code_section_entry (section_end : nat) (code_counter : Z) : P unit :=
  '(body_size_next, body_size) ← parse_u32 bytes section_end wpec.invalid_code_body_size;
  move_to body_size_next;;
  sm_when (distance body_size_next section_end <? body_size)
    (sm_throw (pinvalid body_size_next wpec.illegal_code_body_size (psel_u32 body_size)));;
  let code_end := (body_size_next + Z.to_nat body_size)%nat in
  '(local_count_next, local_count) ← parse_u32 bytes code_end wpec.invalid_local_count;
  sm_when (max_code_locals limit <? local_count)
    (sm_throw (pinvalid body_size_next wpec.exceed_the_max_parser_limit
      (psel_exceed_the_max_parser_limit "code_locals"%string local_count (max_code_locals limit))));;
  move_to local_count_next;;
  curr_code_parameter_size ← code_parameter_size code_counter;
  '(locals, all_clocal_counter) ← local_runs (Z.to_nat local_count) code_end curr_code_parameter_size 0;
  expr_begin ← sm_gets section_curr;
  check_code_body_end code_end;;
  move_to code_end;;
  sm_modify (fun s => set_codesec (codesec_span (secs s)) (codesec_codes (secs s) ++
    [FinalWasmCode body_size_next expr_begin code_end locals all_clocal_counter]) s).

Definition handle_code_section (section_begin section_end sec_id_module_ptr : nat) : P unit :=
  s ← sm_get;
  let defined_func_count := u32 (Z.of_nat (vt_size (funcsec_funcs (secs s)))) in
  sm_when (bool_decide (is_Some (codesec_span (secs s))))
    (sm_throw (pinvalid sec_id_module_ptr wpec.duplicate_section (psel_u8 10)));;
  sm_modify (set_codesec (Some (section_begin, section_end)) (codesec_codes (secs s)));;
  move_to section_begin;;
  '(code_count_next, code_count) ← parse_u32 bytes section_end wpec.invalid_code_count;
  sm_when (negb (code_count =? defined_func_count))
    (sm_throw (pinvalid section_begin wpec.code_ne_defined_func
      (psel_u32arr code_count defined_func_count)));;
  sm_when (max_code_sec_codes limit <? code_count)
    (sm_throw (pinvalid section_begin wpec.exceed_the_max_parser_limit
      (psel_exceed_the_max_parser_limit "codesec_codes"%string code_count (max_code_sec_codes limit))));;
  move_to code_count_next;;
  code_counter ← entries_loop (S (section_end - code_count_next)) section_end
    wpec.code_section_resolved_exceeded_the_actual_number code_count 0
    (code_section_entry section_end);
  entries_match wpec.code_section_resolved_not_match_the_actual_number code_count code_counter.

(** [define_final_check]: a body for every function. *)
Definition define_final_check (module_end : nat) : P unit :=
  s ← sm_get;
  let defined_code_count := u32 (zlen (codesec_codes (secs s))) in
  let defined_func_count := u32 (Z.of_nat (vt_size (funcsec_funcs (secs s)))) in
  sm_when (negb (defined_code_count =? defined_func_count))
    (sm_throw (pinvalid module_end wpec.code_ne_defined_func
      (psel_u32arr defined_code_count defined_func_count))).
End CodeSection.

(** ** Decoding the stored bodies *)

Definition decode_local (fle : final_local_entry_t) : option local_entry :=
  t ← value_type_of_byte (fle_type fle); Some (LocalEntry (fle_count fle) t).

(** The declarations of locals and the bytes of the expression. *)
Definition decode_code (bytes : list Z) (c : final_wasm_code_t) : option (list local_entry * list Z) :=
  ls ← mapM decode_local (code_locals c);
  Some (ls, slice bytes (expr_begin c) (body_code_end c)).

(** The number of parameters of function [i]. *)
Definition param_count (bytes : list Z) (x : sections) (i : nat) : option Z :=
  ti ← vt_contents bytes (funcsec_funcs x) !! i;
  ft ← typesec_types x !! Z.to_nat ti;
  Some (Z.of_nat (parameter_end ft - parameter_begin ft)).

(** ** Refinement *)

Section Refine.
Context (bytes : list Z) (Hbytes : Forall is_byte bytes) (Hsize : zlen bytes < 2 ^ 64).
Context (limit : wasm1_parser_limit_t).

Lemma wrap32_small x : 0 <= x < 2 ^ 32 -> u32 x = x.
Proof. intros. unfold u32, wrap. by rewrite Z.mod_small. Qed.

Lemma local_run_cases ce params all s :
  (section_curr s <= ce)%nat -> (ce <= length bytes)%nat ->
  0 <= params < 2 ^ 32 -> 0 <= all -> 0 <= 2 ^ 32 - 1 - params - all ->
  parses bytes ce (local_run bytes ce params all) (p_local (2 ^ 32 - 1 - params - all))
    (fun e r s s' => decode_local r.1 = Some e /\ r.2 = all + count e /\ 0 <= count e /\
       count e <= 2 ^ 32 - 1 - params - all /\ secs s' = secs s) s.
Proof using Hbytes.
  intros Hc He Hp Ha Hroom. unfold parses, local_run, p_local. autorewrite with sm.
  rewrite (wrap32_small (2 ^ 32 - 1 - params)), (wrap32_small (2 ^ 32 - 1 - params - all)) by lia.
  apply (agrees_u32 bytes Hbytes); [lia | done |]. intros next n Hn Hrange. run_parser.
  apply agrees_guard; [simpl; lia |]. intros Hle%Z.ltb_ge. run_parser.
  rewrite wrap32_small by lia.
  destruct (Nat.eqb_spec next ce) as [-> | Hne].
  { rewrite slice_empty by lia. simpl. eexists. split; [done | simpl; lia]. }
  simpl sm_when. autorewrite with sm.
  destruct (slice_cons bytes next ce) as (b & Hb & ->); [lia.. |]. rewrite Hb. run_parser.
  rewrite is_valid_value_type_of_byte. unfold p_byte. simpl.
  destruct (value_type_of_byte b) as [t |] eqn:Ht; simpl.
  2: { eexists. split; [done | simpl; lia]. }
  autorewrite with sm. eexists _, _. split; [done |]. simpl. split; [lia |]. split; [done |].
  unfold decode_local. simpl. rewrite Ht. simpl. split_and!; try done; lia.
Qed.

Lemma local_runs_cases ce params k all s :
  (section_curr s <= ce)%nat -> (ce <= length bytes)%nat ->
  0 <= params < 2 ^ 32 -> 0 <= all -> 0 <= 2 ^ 32 - 1 - params - all ->
  parses bytes ce (local_runs bytes k ce params all) (p_locals k (2 ^ 32 - 1 - params - all))
    (fun es r s s' => mapM decode_local r.1 = Some es /\ r.2 = all + local_total es /\
       secs s' = secs s) s.
Proof using Hbytes.
  revert all s. induction k as [| k IH]; intros all s Hc He Hp Ha Hroom; simpl.
  { eexists _, s. split; [done |]. simpl. split; [lia |]. split; [done |]. split_and!; try done; lia. }
  unfold parses. cbn [p_locals].
  eapply (agrees_bind bytes); [lia | by apply local_run_cases |].
  intros x [fle all'] s1 Hc1 (Hd & Hall & Hnn & Hle & Hs1). simpl in Hd, Hall. subst all'.
  eapply (agrees_weaken bytes _ _ (section_curr s1)); [lia | intros ? ? ? _ HQ; exact HQ |].
  replace (2 ^ 32 - 1 - params - all - count x) with (2 ^ 32 - 1 - params - (all + count x)) by lia.
  eapply (agrees_bind bytes); [lia | apply IH; lia |].
  intros es [fles all'] s2 Hc2 (Hds & Hall & Hs2). simpl in Hds, Hall. run_parser.
  eexists _, s2. split; [done |]. split; [lia |]. split; [done |]. simpl.
  rewrite Hd. simpl. rewrite Hds. simpl. split; [done |]. split; [lia | congruence].
Qed.

(** *** One entry

    The types and functions parsed before ([x0]) do not change while the section is
    read, and every function has a type. *)
Section Entry.
Context (x0 : sections) (count : Z).
Context (Hsize0 : vt_size (funcsec_funcs x0) = length (vt_contents bytes (funcsec_funcs x0))).
Context (Hcount : 0 <= count < 2 ^ 32) (Hfuncs : count = zlen (vt_contents bytes (funcsec_funcs x0))).
Context (Hparams : forall i, Z.of_nat i < count ->
  exists n, param_count bytes x0 i = Some n /\ 0 <= n < 2 ^ 32).
Context (Hranges : Forall (type_ranges bytes) (typesec_types x0)).

Definition codes_are (i : nat) (s : pstate) : Prop :=
  typesec_types (secs s) = typesec_types x0 /\ funcsec_funcs (secs s) = funcsec_funcs x0 /\
  length (codesec_codes (secs s)) = i.

Definition stored_code (c : final_wasm_code_t) (body : list local_entry * list Z) : Prop :=
  decode_code bytes c = Some body /\ all_local_count c = local_total body.1 /\
  (code_begin c <= expr_begin c <= body_code_end c)%nat /\ (body_code_end c <= length bytes)%nat.

Definition pushed_code (_ : nat) (body : list local_entry * list Z) (s s' : pstate) : Prop :=
  exists c, stored_code c body /\
    secs s' = secs (set_codesec (codesec_span (secs s)) (codesec_codes (secs s) ++ [c]) s).

Lemma code_parameter_size_run i s n :
  codes_are i s -> Z.of_nat i < count -> param_count bytes x0 i = Some n -> 0 <= n < 2 ^ 32 ->
  ⟦ code_parameter_size bytes (Z.of_nat i + 1) ⟧ s ⇓ (n, s).
Proof.
  intros (Ht & Hf & _) Hi Hn Hr. unfold code_parameter_size. autorewrite with sm.
  replace (Z.of_nat i + 1 - 1) with (Z.of_nat i) by lia. rewrite wrap32_small, Nat2Z.id by lia.
  rewrite Hf, Ht, vt_index_contents by (rewrite Hsize0; unfold zlen in Hfuncs; lia).
  unfold param_count in Hn. option_inv. rewrite H. autorewrite with sm. rewrite H0.
  autorewrite with sm. unfold mret, sm_ret. do 2 f_equal.
  pose proof (Forall_lookup_1 _ _ _ _ Hranges H0) as [[? ?] _]. unfold zlen in *.
  unfold uz, wrap. rewrite Z.mod_small by lia. rewrite wrap32_small by lia. lia.
Qed.

Lemma last_slice a b : (a < b)%nat -> (b <= length bytes)%nat ->
  last (slice bytes a b) = bytes !! (b - 1)%nat.
Proof.
  intros Ha Hb. rewrite last_lookup, slice_length by done. rewrite slice_lookup by lia.
  f_equal. lia.
Qed.

Lemma check_code_body_end_cases ce s :
  (section_curr s <= ce)%nat -> (ce <= length bytes)%nat ->
  if bool_decide (last (slice bytes (section_curr s) ce) = Some 11) then
    ⟦ check_code_body_end bytes ce ⟧ s ⇓ (tt, s)
  else exists err, ⟦ check_code_body_end bytes ce ⟧ s ⇑ err /\
    (section_curr s <= perr_curr err <= ce)%nat.
Proof.
  intros Hc He. unfold check_code_body_end. autorewrite with sm.
  destruct (Nat.eqb_spec (section_curr s) ce) as [Heq | Hne].
  { rewrite slice_empty by lia. simpl. eexists. split; [done | simpl; lia]. }
  simpl sm_when. autorewrite with sm. rewrite last_slice by lia.
  destruct (lookup_lt_is_Some_2 bytes (ce - 1)) as [b Hb]; [lia |]. rewrite Hb. autorewrite with sm.
  destruct (Z.eqb_spec b 11) as [-> |]; case_bool_decide as Hbd; simplify_eq; [done |].
  eexists. split; [done | simpl; lia].
Qed.

(** The end of an entry: the expression is checked and the code is stored. *)
Lemma store_code_cases e i s s2 next ce fles all ls :
  codes_are i s -> secs s2 = secs s -> (section_curr s < next)%nat ->
  (next <= section_curr s2 <= ce)%nat -> (ce <= e)%nat -> (e <= length bytes)%nat ->
  mapM decode_local fles = Some ls -> all = local_total ls ->
  agrees bytes e (section_curr s)
    ((expr_begin ← sm_gets section_curr;
      check_code_body_end bytes ce;;
      move_to ce;;
      sm_modify (fun s => set_codesec (codesec_span (secs s)) (codesec_codes (secs s) ++
        [FinalWasmCode next expr_begin ce fles all]) s)) s2)
    (let expr := slice bytes (section_curr s2) ce in
     if bool_decide (last expr = Some 11) then Some ((ls, expr), slice bytes ce e) else None)
    (fun body _ s' => (section_curr s < section_curr s')%nat /\ pushed_code i body s s' /\
       codes_are (S i) s').
Proof.
  intros HI Hs2 Hn Hc Hce He Hdec Hall. destruct s as [c x], s2 as [c2 x2]. simpl in Hs2. subst x2.
  autorewrite with sm. cbv zeta.
  pose proof (check_code_body_end_cases ce (PState c2 x) ltac:(lia) ltac:(lia)) as Hk.
  destruct (bool_decide _).
  2: { destruct Hk as (err & Hk & ?). exists err. split; [by apply bind_thrown | lia]. }
  rewrite (bind_done _ _ _ _ _ Hk). run_parser. eexists tt, _. split; [done |].
  simpl in *. split; [lia |]. split; [done |]. split; [lia |]. split.
  - exists (FinalWasmCode next c2 ce fles all). split; [| done].
    split; [by unfold decode_code; simpl; rewrite Hdec |]. split; [done |]. simpl. lia.
  - destruct HI as (Ht & Hf & Hl). split; [done |]. split; [done |]. simpl.
    rewrite length_app. simpl in *. lia.
Qed.

Lemma code_section_entry_cases e i s :
  codes_are i s -> Z.of_nat i < count -> (section_curr s < e)%nat -> (e <= length bytes)%nat ->
  parses bytes e (code_section_entry bytes limit e (Z.of_nat i + 1))
    (p_code (max_code_locals limit) (param_count bytes x0) i)
    (fun body _ s s' => (section_curr s < section_curr s')%nat /\ pushed_code i body s s' /\
       codes_are (S i) s') s.
Proof.
  intros HI Hi Hc He. unfold parses, code_section_entry, p_code.
  apply (agrees_u32 bytes Hbytes); [lia | done |]. intros next size Hn Hs. run_parser.
  unfold p_bytes, zlen. rewrite slice_length, (distance_eq bytes Hsize) by lia.
  rewrite option_bind_guard. apply agrees_guard; [simpl; lia |]. intros Hle%Z.ltb_ge. run_parser.
  set (ce := (next + Z.to_nat size)%nat). rewrite slice_take, slice_drop by lia. fold ce.
  cbn [mbind option_bind].
  pose proof (parse_u32_cases bytes Hbytes ce wpec.invalid_local_count (set_curr next s)
    ltac:(simpl; unfold ce; lia) ltac:(unfold ce; lia)) as H1.
  change (section_curr (set_curr next s)) with next in H1.
  destruct (p_u32 (slice bytes next ce)) as [[n body] |]; cbn [mbind option_bind].
  2: { destruct H1 as (pc & H1). eexists. split; [by apply bind_thrown | simpl; lia]. }
  destruct H1 as (lnext & H1 & Hln & <- & Hnr). rewrite (bind_done _ _ _ _ _ H1). run_parser.
  apply agrees_guard; [simpl; lia |]. intros _. run_parser.
  destruct (Hparams i Hi) as (params & Hpc & Hpr). rewrite Hpc. cbn [mbind option_bind].
  rewrite (bind_done _ _ _ _ _ (code_parameter_size_run i (set_curr lnext (set_curr next s)) params
    HI Hi Hpc Hpr)).
  pose proof (local_runs_cases ce params (Z.to_nat n) 0 (set_curr lnext (set_curr next s))
    ltac:(simpl; lia) ltac:(unfold ce; lia) Hpr ltac:(lia) ltac:(lia)) as H2.
  unfold parses in H2. change (section_curr (set_curr lnext _)) with lnext in H2.
  rewrite Z.sub_0_r in H2.
  destruct (p_locals _ _ _) as [[ls expr] |]; cbn [mbind option_bind].
  2: { destruct H2 as (err & H2 & Hpos). exists err.
       split; [by apply bind_thrown | unfold ce in *; lia]. }
  destruct H2 as ([fles all] & s2 & H2 & Hc2 & <- & Hdec & Hall & Hs2).
  rewrite (bind_done _ _ _ _ _ H2). cbn beta iota.
  apply store_code_cases; first [done | unfold ce in *; simpl in *; lia].
Qed.
End Entry.

Lemma posts_codes i bodies s s' :
  posts pushed_code i bodies s s' ->
  exists cs, Forall2 stored_code cs bodies /\
    secs s' = secs (set_codesec (codesec_span (secs s)) (codesec_codes (secs s) ++ cs) s).
Proof.
  revert i s. induction bodies as [| body bodies IH]; simpl; intros i s.
  - intros ->. exists []. rewrite app_nil_r. split; [done |]. by destruct s as [? []].
  - intros (s1 & (c & Hc & Hs1) & Hp). apply IH in Hp as (cs & HF & Hs').
    exists (c :: cs). split; [by constructor |].
    rewrite Hs'. unfold set_codesec at 1. simpl. rewrite Hs1. simpl. by rewrite <- app_assoc.
Qed.

Lemma code_section_cases b e ptr s :
  let x := secs s in
  let fs := vt_contents bytes (funcsec_funcs x) in
  (b <= e)%nat -> (e <= length bytes)%nat -> codesec_span x = None -> codesec_codes x = [] ->
  vt_size (funcsec_funcs x) = length fs -> zlen fs < 2 ^ 32 ->
  (forall i, Z.of_nat i < zlen fs -> exists n, param_count bytes x i = Some n /\ 0 <= n < 2 ^ 32) ->
  Forall (type_ranges bytes) (typesec_types x) ->
  let m := handle_code_section bytes limit b e ptr in
  match bodies ← p_section (max_code_sec_codes limit)
          (p_code (max_code_locals limit) (param_count bytes x)) (slice bytes b e);
        if zlen bodies =? zlen fs then Some bodies else None with
  | Some bodies => exists cs,
      ⟦ m ⟧ s ⇓ (tt, PState e (secs (set_codesec (Some (b, e)) cs s))) /\
      Forall2 stored_code cs bodies
  | None => exists err, ⟦ m ⟧ s ⇑ err /\ (b <= perr_curr err <= e)%nat
  end.
Proof using Hbytes Hsize.
  intros x fs Hb He Hspan Hempty Hsz Hlt Hparams Hranges m. subst m.
  unfold handle_code_section, p_section. autorewrite with sm. fold x.
  rewrite Hspan, Hsz. simpl sm_when. autorewrite with sm. set (s0 := set_curr b _).
  pose proof (parse_u32_cases bytes Hbytes e wpec.invalid_code_count s0 Hb He) as H.
  change (section_curr s0) with b in H.
  destruct (p_u32 _) as [[n rest] |]; simpl mbind.
  2: { destruct H as (pc & H). eexists. split; [by apply bind_thrown | simpl; lia]. }
  destruct H as (next & H & Hn & <- & Hrange). rewrite (bind_done _ _ _ _ _ H). run_parser.
  change (Z.of_nat (length fs)) with (zlen fs).
  rewrite (wrap32_small (zlen fs)) by (unfold zlen in *; lia).
  destruct (Z.eqb_spec n (zlen fs)) as [Hnf | Hnf].
  2: { (* the count differs from the number of functions *)
    replace (mbind _ _) with (@None (list (list local_entry * list Z))).
    { eexists. split; [done | simpl; lia]. }
    destruct (max_code_sec_codes limit <? n); [done |]. cbn [mbind option_bind].
    destruct (p_entries _ _ _ _) as [bodies |]; [| done]. cbn [mbind option_bind].
    destruct (Z.eqb_spec (zlen bodies) n); [| done]. cbn [mbind option_bind].
    by destruct (Z.eqb_spec (zlen bodies) (zlen fs)); [congruence |]. }
  simpl sm_when. autorewrite with sm.
  destruct (Z.ltb_spec (max_code_sec_codes limit) n) as [? | Hlim].
  { simpl. eexists. split; [done | simpl; lia]. }
  run_parser. subst n.
  pose proof (section_body_cases bytes e (p_code (max_code_locals limit) (param_count bytes x))
    (code_section_entry bytes limit e) pushed_code (codes_are x) He (zlen fs) Hrange
    ltac:(intros i s1 HI Hi Hc; by apply (code_section_entry_cases x (zlen fs)))
    wpec.code_section_resolved_exceeded_the_actual_number
    wpec.code_section_resolved_not_match_the_actual_number (set_curr next s0)
    ltac:(split; [done |]; split; [done |]; simpl; by rewrite Hempty) ltac:(simpl; lia)) as Hl.
  cbn zeta in Hl. change (section_curr (set_curr next s0)) with next in Hl.
  destruct (mbind _ (p_entries _ _ _ _)) as [bodies |] eqn:Hbodies; cbn [mbind option_bind].
  2: { destruct Hl as (err & Hl & ?). exists err. split; [done | simpl in *; lia]. }
  assert (Hz : zlen bodies = zlen fs).
  { apply bind_Some in Hbodies as (ys & _ & Hy).
    destruct (Z.eqb_spec (zlen ys) (zlen fs)); congruence. }
  rewrite Hz, Z.eqb_refl.
  destruct Hl as (s' & Hd & Hcur & Hp & _). apply posts_codes in Hp as (cs & HF & Hs').
  exists cs. split; [| done]. etrans; [exact Hd |]. destruct s' as [c y]. simpl in *.
  rewrite Hs', Hcur. by rewrite Hempty.
Qed.
End Refine.
