(* ===== verification/ModuleParser.v ===== *)
(** * From sections to a module

    The type, function and code sections and the final check, run one after the other
    as the binary format driver runs them, and the module they produce: the storage,
    decoded, is a [module_storage] with the property [module_ok] the code validator
    relies on. *)

From stdpp Require Import base list numbers strings.
From Stdlib Require Import ZArith Lia.
From S2P Require Import Prelude Leb128 WasmTypes ValidationError ValidatorState ValidatorControl.
From S2P Require Import ValidatorPlain WasmSpec Fetch Checker Machine Refines RefineCases.
From S2P Require Import ModuleInterface ParserBase ParserSpec ParserRefine.
From S2P Require Import TypeSection FunctionSection CodeSection.

(** The place of a section: the byte of its identifier and the range of its contents. *)
Record section_place := SectionPlace { sec_ptr : nat; sec_begin : nat; sec_end : nat }.

Definition place_ok (bytes : list Z) (p : section_place) : Prop :=
  (sec_begin p <= sec_end p <= length bytes)%nat.

Section Module.
Context (bytes : list Z) (limit : wasm1_parser_limit_t) (simd128 : bool).
(** What the other sections leave: imports, tables, memories and globals. *)
Context (m0 : module_storage).

Definition imported_func_size : Z := u32 (zlen (imported_funcs m0)).

Definition core_sections (typesec funcsec codesec : section_place) : P unit :=
  handle_type_section bytes limit (sec_begin typesec) (sec_end typesec) (sec_ptr typesec);;
  handle_function_section bytes limit imported_func_size simd128
    (sec_begin funcsec) (sec_end funcsec) (sec_ptr funcsec);;
  handle_code_section bytes limit (sec_begin codesec) (sec_end codesec) (sec_ptr codesec);;
  define_final_check (length bytes).

(** The module the storage represents. *)
Definition module_of (x : sections) : option module_storage :=
  ts ← decode_types bytes x;
  bodies ← mapM (decode_code bytes) (codesec_codes x);
  Some {| imported_funcs := imported_funcs m0; imported_tables := imported_tables m0;
          imported_memories := imported_memories m0; imported_globals := imported_globals m0;
          types := ts; funcs := vt_contents bytes (funcsec_funcs x); tables := tables m0;
          memories := memories m0; local_globals := local_globals m0;
          codes := map fst bodies |}.

(** The bytes of the expression of function [i], as they are passed to the validator. *)
Definition expr_of (x : sections) (i : nat) : option (list Z) :=
  c ← codesec_codes x !! i; Some (slice bytes (expr_begin c) (body_code_end c)).

(** The counts of the other sections, within the limits their parsers enforce. *)
Definition counts_ok : bool :=
  (zlen (imported_globals m0) + zlen (local_globals m0) <? 2 ^ 32) &&
  (Z.of_nat (imported_tables m0 + tables m0) <? 2 ^ 32) &&
  (Z.of_nat (imported_memories m0 + memories m0) <? 2 ^ 32).
End Module.

(** ** Lengths of parameter lists *)

Section Facts.
Context (bytes : list Z) (Hbytes : Forall is_byte bytes) (Hsize : zlen bytes < 2 ^ 64).

(** A stored type and its decoding have as many parameters. *)
Lemma decoded_parameters fft ft :
  type_ranges bytes fft -> decode_function_type bytes fft = Some ft ->
  (parameter_end fft - parameter_begin fft)%nat = length (parameter ft).
Proof.
  intros [[_ Hr] _] Hd. unfold decode_function_type in Hd. option_inv.
  apply mapM_Some, Forall2_length in H. rewrite slice_length in H by done. done.
Qed.

Lemma functype_parameters i ft b : functype i ft b -> zlen (parameter ft) < 2 ^ 32.
Proof. intros (_ & pb & rb & Hp & _). apply u32_bounds in Hp. lia. Qed.

(** Function [i] of a parsed module has a type, and its number of parameters. *)
Lemma param_count_run x ffts fts xs i ti :
  typesec_types x = ffts -> mapM (decode_function_type bytes) ffts = Some fts ->
  Forall (type_ranges bytes) ffts -> vt_contents bytes (funcsec_funcs x) = xs ->
  xs !! i = Some ti -> 0 <= ti < zlen fts ->
  exists ft, fts !! Z.to_nat ti = Some ft /\ param_count bytes x i = Some (zlen (parameter ft)).
Proof.
  intros Ht Hm HF Hv Hi Hti. apply mapM_Some in Hm.
  destruct (lookup_lt_is_Some_2 fts (Z.to_nat ti)) as [ft Hft]; [unfold zlen in *; lia |].
  exists ft. split; [done |].
  destruct (Forall2_lookup_r _ _ _ _ _ Hm Hft) as (fft & Hfft & Hd).
  unfold param_count. rewrite Hv, Hi. simpl. rewrite Ht, Hfft. simpl.
  rewrite (decoded_parameters fft ft); [done | | done].
  by eapply Forall_lookup_1 in HF.
Qed.
End Facts.

(** ** The sections in sequence *)

Section Run.
Context (bytes : list Z) (Hbytes : Forall is_byte bytes) (Hsize : zlen bytes < 2 ^ 64).
Context (limit : wasm1_parser_limit_t) (simd128 : bool) (m0 : module_storage).
Context (tp fp cp : section_place).
Context (Htp : place_ok bytes tp) (Hfp : place_ok bytes fp) (Hcp : place_ok bytes cp).

(** What an accepting run leaves in the storage. *)
Record parsed (x : sections) (fts : list function_type) (xs : list Z)
    (bodies : list (list local_entry * list Z)) : Prop := Parsed {
  parsed_types : decode_types bytes x = Some fts;
  parsed_types_bytes : vec functype fts (slice bytes (sec_begin tp) (sec_end tp));
  parsed_funcs : vt_contents bytes (funcsec_funcs x) = xs;
  parsed_funcs_size : vt_size (funcsec_funcs x) = length xs;
  parsed_funcs_bytes : vec (typeidx (zlen fts)) xs (slice bytes (sec_begin fp) (sec_end fp));
  parsed_codes : Forall2 (stored_code bytes) (codesec_codes x) bodies;
  parsed_codes_bytes : vec (code_entry (max_code_locals limit) (param_count bytes x)) bodies
    (slice bytes (sec_begin cp) (sec_end cp));
  parsed_codes_size : length bodies = length xs;
  parsed_params : forall i ti, xs !! i = Some ti ->
    exists ft, 0 <= ti /\ fts !! Z.to_nat ti = Some ft /\
      param_count bytes x i = Some (zlen (parameter ft))
}.

Lemma imported_func_size_range : 0 <= imported_func_size m0 < 2 ^ 32.
Proof. unfold imported_func_size, u32, wrap. lia. Qed.

Lemma final_check_run c x n :
  length (codesec_codes x) = n -> vt_size (funcsec_funcs x) = n ->
  ⟦ define_final_check (length bytes) ⟧ (PState c x) ⇓ (tt, PState c x).
Proof.
  intros Hc Hf. unfold define_final_check. autorewrite with sm. simpl. unfold zlen.
  rewrite Hc, Hf, Z.eqb_refl. done.
Qed.

Lemma typeidx_range c xs bs i ti : vec (typeidx c) xs bs -> xs !! i = Some ti -> 0 <= ti < c.
Proof.
  intros Hv Hi. destruct (vec_lookup _ _ _ _ _ Hv Hi) as (b & Hlt & Hu).
  apply u32_bounds in Hu. lia.
Qed.

(** The code section and the final check, after the types and functions. *)
Lemma code_stage_cases s2 ffts fts xs :
  typesec_types (secs s2) = ffts -> mapM (decode_function_type bytes) ffts = Some fts ->
  Forall (type_ranges bytes) ffts -> vec functype fts (slice bytes (sec_begin tp) (sec_end tp)) ->
  vt_contents bytes (funcsec_funcs (secs s2)) = xs -> vt_size (funcsec_funcs (secs s2)) = length xs ->
  vec (typeidx (zlen fts)) xs (slice bytes (sec_begin fp) (sec_end fp)) ->
  codesec_span (secs s2) = None -> codesec_codes (secs s2) = [] ->
  let m := handle_code_section bytes limit (sec_begin cp) (sec_end cp) (sec_ptr cp);;
           define_final_check (length bytes) in
  (exists e x bodies, ⟦ m ⟧ s2 ⇓ (tt, PState e x) /\ parsed x fts xs bodies) \/
  (exists err, ⟦ m ⟧ s2 ⇑ err /\ (perr_curr err <= length bytes)%nat).
Proof using Hbytes Hsize Hcp.
  intros Ht Hm HF Hv1 Hxs Hvs Hv2 Hspan Hcodes m. subst m. destruct Hcp as [Hc1 Hc2].
  assert (Hpar : forall i ti, xs !! i = Some ti -> exists ft, 0 <= ti /\
    fts !! Z.to_nat ti = Some ft /\ param_count bytes (secs s2) i = Some (zlen (parameter ft))).
  { intros i ti Hi. pose proof (typeidx_range _ _ _ _ _ Hv2 Hi) as Hti.
    destruct (param_count_run bytes _ ffts fts xs i ti Ht Hm HF Hxs Hi Hti) as (ft & ? & ?).
    exists ft. split; [lia | done]. }
  assert (Hpr : forall i, Z.of_nat i < zlen (vt_contents bytes (funcsec_funcs (secs s2))) ->
    exists n, param_count bytes (secs s2) i = Some n /\ 0 <= n < 2 ^ 32).
  { intros i Hi. rewrite Hxs in Hi.
    destruct (lookup_lt_is_Some_2 xs i) as [ti Hti]; [unfold zlen in Hi; lia |].
    destruct (Hpar i ti Hti) as (ft & _ & Hft & Hp). eexists. split; [exact Hp |].
    destruct (vec_lookup _ _ _ _ _ Hv1 Hft) as (b & Hb). apply functype_parameters in Hb.
    unfold zlen in *. lia. }
  pose proof (code_section_cases bytes Hbytes Hsize limit (sec_begin cp) (sec_end cp) (sec_ptr cp) s2
    Hc1 Hc2 Hspan Hcodes ltac:(by rewrite Hxs) ltac:(rewrite Hxs; by eapply vec_length) Hpr
    ltac:(by rewrite Ht)) as H3. cbv zeta in H3.
  destruct (mbind _ _) as [bodies |] eqn:Hp3.
  2: { right. destruct H3 as (err & H3 & ?). exists err. split; [by apply bind_thrown | lia]. }
  left. destruct H3 as (cs & H3 & Hcs). apply bind_Some in Hp3 as (ys & Hp3 & Hlen).
  rewrite Hxs in Hlen. destruct (Z.eqb_spec (zlen ys) (zlen xs)) as [Hl | ]; [| done].
  injection Hlen as ->. unfold zlen in Hl.
  eexists _, _, bodies. split.
  - rewrite (bind_done _ _ _ _ _ H3). apply (final_check_run _ _ (length xs)); simpl; [| done].
    rewrite (Forall2_length _ _ _ Hcs). lia.
  - split; simpl; try done; [by unfold decode_types; simpl; rewrite Ht | | lia].
    apply (p_section_iff _ _ (code_entry (max_code_locals limit) (param_count bytes (secs s2)))) in Hp3
      as [_ Hv3]; [done | | apply code_entry_nonempty | by apply slice_bytes].
    intros i. apply p_code_parser. intros j n Hn.
    assert (Hj : Z.of_nat j < zlen (vt_contents bytes (funcsec_funcs (secs s2)))).
    { unfold param_count in Hn. apply bind_Some in Hn as (ti & Hti & _).
      apply lookup_lt_Some in Hti. unfold zlen. lia. }
    destruct (Hpr j Hj) as (n' & Hn' & Hr). rewrite Hn in Hn'. by injection Hn' as ->.
Qed.

Lemma core_sections_cases c :
  (exists e x fts xs bodies,
     ⟦ core_sections bytes limit simd128 m0 tp fp cp ⟧ (PState c empty_sections) ⇓ (tt, PState e x) /\
     parsed x fts xs bodies) \/
  (exists err, ⟦ core_sections bytes limit simd128 m0 tp fp cp ⟧ (PState c empty_sections) ⇑ err /\
     (perr_curr err <= length bytes)%nat).
Proof using Hbytes Hsize Htp Hfp Hcp.
  unfold core_sections. destruct Htp as [Ht1 Ht2], Hfp as [Hf1 Hf2], Hcp as [Hc1 Hc2].
  pose proof (type_section_cases bytes Hbytes Hsize limit (sec_begin tp) (sec_end tp) (sec_ptr tp)
    (PState c empty_sections) Ht1 Ht2 eq_refl eq_refl) as H1.
  destruct (p_section _ p_functype _) as [fts |] eqn:Hp1.
  2: { right. destruct H1 as (err & H1 & ?). exists err. split; [by apply bind_thrown | lia]. }
  destruct H1 as (s1 & ffts & H1 & Hm & HF & Hs1). rewrite (bind_done _ _ _ _ _ H1).
  apply (p_section_iff _ _ functype) in Hp1 as [_ Hv1];
    [| apply _ | apply functype_nonempty | by apply slice_bytes].
  pose proof (length_mapM _ _ _ Hm) as Hlen1. pose proof (vec_length _ _ _ Hv1) as Hmax1.
  assert (Htypes : zlen (typesec_types (secs s1)) = zlen fts).
  { rewrite Hs1. unfold zlen. simpl. by rewrite Hlen1. }
  pose proof (function_section_cases bytes Hbytes Hsize limit (imported_func_size m0) simd128
    imported_func_size_range (sec_begin fp) (sec_end fp) (sec_ptr fp) s1 Hf1 Hf2
    ltac:(by rewrite Hs1) ltac:(by rewrite Htypes)) as H2. cbv zeta in H2.
  destruct (p_section _ (p_typeidx _) _) as [xs |] eqn:Hp2.
  2: { right. destruct H2 as (err & H2 & ?). exists err. split; [by apply bind_thrown | lia]. }
  destruct H2 as (v & H2 & Hv & Hvs). rewrite (bind_done _ _ _ _ _ H2).
  rewrite Htypes in Hp2. apply (p_section_iff _ _ (typeidx (zlen fts))) in Hp2 as [_ Hv2];
    [| apply _ | apply typeidx_nonempty | by apply slice_bytes].
  set (s2 := PState (sec_end fp) _).
  destruct (code_stage_cases s2 ffts fts xs) as [(e & x & bodies & H3 & Hparsed) | (err & H3 & Herr)];
    try done; try (by unfold s2; simpl; rewrite Hs1).
  - left. by exists e, x, fts, xs, bodies.
  - right. by exists err.
Qed.

(** ** The module is well formed *)

Lemma stored_codes_decode cs bodies :
  Forall2 (stored_code bytes) cs bodies -> mapM (decode_code bytes) cs = Some bodies.
Proof. intros HF. apply mapM_Some. eapply Forall2_impl; [exact HF |]. by intros c body [Hd _]. Qed.

Lemma locals_nonneg max_locals pc i body b :
  code_entry max_locals pc i body b -> Forall (fun e => 0 <= count e) body.1.
Proof.
  intros (sb & lb & n & _ & _ & _ & _ & _ & Hv & _). apply Forall_lookup. intros j e He.
  destruct (vec_lookup _ _ _ _ _ Hv He) as (b' & cb & Hc & _). apply u32_bounds in Hc. lia.
Qed.

Definition parsed_module (fts : list function_type) (xs : list Z)
    (bodies : list (list local_entry * list Z)) : module_storage :=
  {| imported_funcs := imported_funcs m0; imported_tables := imported_tables m0;
     imported_memories := imported_memories m0; imported_globals := imported_globals m0;
     types := fts; funcs := xs; tables := tables m0; memories := memories m0;
     local_globals := local_globals m0; codes := map fst bodies |}.

Lemma parsed_module_of x fts xs bodies :
  parsed x fts xs bodies -> module_of bytes m0 x = Some (parsed_module fts xs bodies).
Proof.
  intros [Ht _ Hf _ _ Hc _ _ _]. unfold module_of. rewrite Ht. simpl.
  rewrite (stored_codes_decode _ _ Hc). simpl. by rewrite Hf.
Qed.

Lemma parsed_types_ok fts bs : vec functype fts bs -> forallb type_ok fts = true.
Proof.
  intros Hv. apply forallb_Forall, Forall_lookup. intros i ft Hi.
  destruct (vec_lookup _ _ _ _ _ Hv Hi) as (b & Hft). pose proof Hft as [Hr _].
  apply functype_parameters in Hft. unfold type_ok. by rewrite andb_true_iff, Nat.leb_le, Z.ltb_lt.
Qed.

Lemma parsed_code_ok x fts xs bodies i ti ls :
  parsed x fts xs bodies -> xs !! i = Some ti -> map fst bodies !! i = Some ls ->
  code_ok (parsed_module fts xs bodies) (ti, ls) = true.
Proof.
  intros [_ _ _ _ _ _ Hv _ Hpar] Hti Hls. rewrite list_lookup_fmap in Hls.
  destruct (bodies !! i) as [body |] eqn:Hb; [| done]. injection Hls as <-.
  destruct (Hpar i ti Hti) as (ft & Hnn & Hft & Hpc).
  destruct (vec_lookup _ _ _ _ _ Hv Hb) as (b & Hcode).
  pose proof (locals_nonneg _ _ _ _ _ Hcode) as Hn.
  destruct Hcode as (_ & _ & n & Hn' & Hsum & _). rewrite Hpc in Hn'. injection Hn' as <-.
  unfold code_ok. simpl. rewrite Hft, andb_true_iff, Z.ltb_lt, forallb_Forall. split; [| exact Hsum].
  eapply Forall_impl; [exact Hn |]. intros e He. simpl in *. lia.
Qed.

Lemma parsed_module_ok x fts xs bodies :
  counts_ok m0 = true -> parsed x fts xs bodies -> module_ok (parsed_module fts xs bodies) = true.
Proof.
  intros Hcounts Hp. pose proof Hp as [_ Hv1 _ _ Hv2 _ _ Hlen _].
  unfold counts_ok in Hcounts. rewrite !andb_true_iff in Hcounts. destruct Hcounts as [[Hg Ht] Hm].
  unfold module_ok. simpl. rewrite (parsed_types_ok _ _ Hv1), Hg, Ht, Hm, !andb_true_r.
  rewrite !andb_true_iff. repeat split.
  - apply forallb_Forall, Forall_lookup. intros i ti Hi.
    pose proof (typeidx_range _ _ _ _ _ Hv2 Hi). lia.
  - rewrite length_map. by apply Nat.eqb_eq.
  - apply forallb_Forall, Forall_lookup. intros i [ti ls] Hi.
    apply lookup_zip_with_Some in Hi as (ti' & ls' & [= <- <-] & Hi & Hl).
    by eapply parsed_code_ok.
Qed.
End Run.
