(* ===== verification/SectionTheorems.v ===== *)
(** * The theorems about the section parsers

    Each section handler accepts exactly the byte strings of the grammar of its
    section; run in sequence they are total and produce a module on which the code
    validator is sound. *)

From stdpp Require Import base list numbers strings relations.
From Stdlib Require Import ZArith Lia.
From S2P Require Import Prelude Leb128 WasmTypes ValidationError ValidatorState ValidatorControl.
From S2P Require Import ValidatorPlain Validator WasmSpec Fetch Checker Machine Refines.
From S2P Require Import RefineCases RefineControl ModuleInterface MachineTyping.
From S2P Require Import ValidatorCorrect ParserBase ParserSpec ParserRefine.
From S2P Require Import TypeSection FunctionSection CodeSection ModuleParser.

(** A module image for the witnesses: a type section with [i32 i32 -> i32], a function
    section with one function of that type, and a code section with its body. *)
Definition image : list Z :=
  [1; 96; 2; 127; 127; 1; 127; 1; 0; 1; 7; 0; 32; 0; 32; 1; 106; 11].
Definition image_types : section_place := SectionPlace 0 0 7.
Definition image_funcs : section_place := SectionPlace 7 7 9.
Definition image_codes : section_place := SectionPlace 9 9 18.

Lemma image_bytes : Forall is_byte image.
Proof. unfold image, is_byte. repeat constructor; lia. Qed.

(** No imports, tables, memories or globals. *)
Definition bare : module_storage :=
  {| imported_funcs := []; imported_tables := 0; imported_memories := 0; imported_globals := [];
     types := []; funcs := []; tables := 0; memories := 0; local_globals := []; codes := [] |}.

(** The type section. On a fresh storage the handler accepts the contents of a
    section and stores ranges that decode to the function types [fts] exactly when the
    contents are the encoding of the vector [fts] in the binary grammar, each type has
    at most one result, and their number is within the parser limit. *)
Theorem type_section_iff_grammar bytes limit b e ptr s fts :
  Forall is_byte bytes -> zlen bytes < 2 ^ 64 -> (b <= e)%nat -> (e <= length bytes)%nat ->
  typesec_span (secs s) = None -> typesec_types (secs s) = [] ->
  (exists s', ⟦ handle_type_section bytes limit b e ptr ⟧ s ⇓ (tt, s') /\
     decode_types bytes (secs s') = Some fts) <->
  zlen fts <= max_type_sec_types limit /\ vec functype fts (slice bytes b e).
Proof.
  intros Hb Hs Hbe He Hspan Hempty.
  pose proof (type_section_cases bytes Hb Hs limit b e ptr s Hbe He Hspan Hempty) as H.
  rewrite <- (p_section_iff _ p_functype) by
    first [apply _ | apply functype_nonempty | by apply slice_bytes].
  destruct (p_section _ _ _) as [fts' |].
  - destruct H as (s' & ffts & Hd & Hm & _ & Hs'). split.
    + intros (s'' & Hd' & Hdec). rewrite Hd in Hd'. injection Hd' as <-. rewrite Hs' in Hdec.
      unfold decode_types in Hdec. simpl in Hdec. congruence.
    + intros [= ->]. exists s'. split; [done |]. by rewrite Hs'.
  - destruct H as (err & Ht & _). split; [| done]. intros (s' & Hd & _). congruence.
Qed.

Lemma type_section_iff_grammar_witness :
  (exists s', ⟦ handle_type_section image default_parser_limit 0 7 0 ⟧ (PState 0 empty_sections) ⇓ (tt, s') /\
     decode_types image (secs s') = Some [FunctionType [i32; i32] [i32]]) <->
  zlen [FunctionType [i32; i32] [i32]] <= 262144 /\
  vec functype [FunctionType [i32; i32] [i32]] [1; 96; 2; 127; 127; 1; 127].
Proof.
  apply (type_section_iff_grammar image default_parser_limit 0 7 0 (PState 0 empty_sections)
    [FunctionType [i32; i32] [i32]]).
  - exact image_bytes.
  - reflexivity.
  - simpl. lia.
  - simpl. lia.
  - reflexivity.
  - reflexivity.
Defined.

(** C34: the function section. The handler, with or without the 16-byte block loop, and
    whichever of the five representations the number of types selects, accepts and
    stores the indices [xs] (read back by [index_unchecked], their number by [size])
    exactly when the contents encode the vector [xs] of indices of existing types,
    within the parser limit and with the imported functions less than 2^32. *)
Theorem function_section_iff_grammar bytes limit imported simd128 b e ptr s xs :
  Forall is_byte bytes -> zlen bytes < 2 ^ 64 -> 0 <= imported < 2 ^ 32 ->
  (b <= e)%nat -> (e <= length bytes)%nat ->
  funcsec_span (secs s) = None -> zlen (typesec_types (secs s)) < 2 ^ 32 ->
  (exists s', ⟦ handle_function_section bytes limit imported simd128 b e ptr ⟧ s ⇓ (tt, s') /\
     let v := funcsec_funcs (secs s') in
     vt_size v = length xs /\
     forall i, (i < length xs)%nat -> vt_index_unchecked bytes v i = xs !! i) <->
  zlen xs <= func_limit limit imported /\
  vec (typeidx (zlen (typesec_types (secs s)))) xs (slice bytes b e).
Proof.
  intros Hb Hs Himp Hbe He Hspan Htypes.
  pose proof (function_section_cases bytes Hb Hs limit imported simd128 Himp b e ptr s
    Hbe He Hspan Htypes) as H. cbv zeta in H.
  rewrite <- (p_section_iff _ (p_typeidx _)) by
    first [apply _ | apply typeidx_nonempty | by apply slice_bytes].
  destruct (p_section _ _ _) as [xs' |].
  - destruct H as (v & Hd & Hv & Hsz). split.
    + intros (s' & Hd' & Hl & Hi). rewrite Hd in Hd'. injection Hd' as <-. simpl in Hl, Hi.
      f_equal. apply list_eq_same_length with (length xs); [done | lia |].
      intros i x y Hlt Hx Hy. rewrite <- Hi, vt_index_contents, Hv in Hy by lia. congruence.
    + intros [= ->]. eexists. split; [exact Hd |]. simpl. split; [done |]. intros i Hi.
      rewrite vt_index_contents by lia. by rewrite Hv.
  - destruct H as (err & Ht & _). split; [| done]. intros (s' & Hd & _). congruence.
Qed.

(** The state after the type section of [image]. *)
Definition image_typed : pstate :=
  PState 7 (Sections (Some (0, 7)%nat) [FinalFunctionType 3 5 6 7] None vt_null None [] empty_others).

Lemma function_section_iff_grammar_witness :
  (exists s', ⟦ handle_function_section image default_parser_limit 0 true 7 9 7 ⟧ image_typed ⇓ (tt, s') /\
     let v := funcsec_funcs (secs s') in
     vt_size v = 1%nat /\ forall i, (i < 1)%nat -> vt_index_unchecked image v i = [0] !! i) <->
  zlen [0] <= 262144 /\ vec (typeidx 1) [0] [1; 0].
Proof.
  apply (function_section_iff_grammar image default_parser_limit 0 true 7 9 7 image_typed [0]).
  - exact image_bytes.
  - reflexivity.
  - lia.
  - simpl. lia.
  - simpl. lia.
  - reflexivity.
  - reflexivity.
Defined.

(** C32: the block loop. On every section, the handler compiled with the 16-byte block
    loop and the one without it both accept, and then store the same indices, or both
    throw. *)
Theorem function_section_simd_equivalence bytes limit imported b e ptr s :
  Forall is_byte bytes -> zlen bytes < 2 ^ 64 -> 0 <= imported < 2 ^ 32 ->
  (b <= e)%nat -> (e <= length bytes)%nat ->
  funcsec_span (secs s) = None -> zlen (typesec_types (secs s)) < 2 ^ 32 ->
  match handle_function_section bytes limit imported true b e ptr s,
        handle_function_section bytes limit imported false b e ptr s with
  | Done (_, s1), Done (_, s2) =>
      vt_contents bytes (funcsec_funcs (secs s1)) = vt_contents bytes (funcsec_funcs (secs s2)) /\
      typesec_types (secs s1) = typesec_types (secs s2) /\ section_curr s1 = section_curr s2
  | Thrown _, Thrown _ => True
  | _, _ => False
  end.
Proof.
  intros Hb Hs Himp Hbe He Hspan Htypes.
  pose proof (function_section_cases bytes Hb Hs limit imported true Himp b e ptr s
    Hbe He Hspan Htypes) as H1.
  pose proof (function_section_cases bytes Hb Hs limit imported false Himp b e ptr s
    Hbe He Hspan Htypes) as H2. cbv zeta in H1, H2.
  destruct (p_section _ _ _) as [xs |].
  - destruct H1 as (v1 & -> & Hv1 & _), H2 as (v2 & -> & Hv2 & _). simpl. split; [congruence | done].
  - by destruct H1 as (? & -> & _), H2 as (? & -> & _).
Qed.

(** A function section whose 17 indices run through the block loop. *)
Definition blocks : list Z := 17 :: replicate 17 0.

Lemma blocks_bytes : Forall is_byte blocks.
Proof. unfold blocks, is_byte. constructor; [lia |]. apply Forall_replicate. lia. Qed.

Lemma function_section_simd_equivalence_witness :
  match handle_function_section blocks default_parser_limit 0 true 0 18 0 image_typed,
        handle_function_section blocks default_parser_limit 0 false 0 18 0 image_typed with
  | Done (_, s1), Done (_, s2) =>
      vt_contents blocks (funcsec_funcs (secs s1)) = vt_contents blocks (funcsec_funcs (secs s2)) /\
      typesec_types (secs s1) = typesec_types (secs s2) /\ section_curr s1 = section_curr s2
  | Thrown _, Thrown _ => True
  | _, _ => False
  end.
Proof.
  apply (function_section_simd_equivalence blocks default_parser_limit 0 0 18 0 image_typed).
  - exact blocks_bytes.
  - reflexivity.
  - lia.
  - lia.
  - simpl. lia.
  - reflexivity.
  - reflexivity.
Defined.

(** The sections in sequence are total. On every byte string and all places of the
    three sections inside it, the type, function and code handlers followed by the
    final check either succeed or throw an error that points into the module: no read
    of the module, of the types or of the functions is out of range, and no loop
    exceeds its bound. *)
Theorem core_sections_total bytes limit simd128 m0 tp fp cp c :
  Forall is_byte bytes -> zlen bytes < 2 ^ 64 ->
  place_ok bytes tp -> place_ok bytes fp -> place_ok bytes cp ->
  let m := core_sections bytes limit simd128 m0 tp fp cp in
  (exists s, ⟦ m ⟧ (PState c empty_sections) ⇓ (tt, s)) \/
  (exists err, ⟦ m ⟧ (PState c empty_sections) ⇑ err /\ (perr_curr err <= length bytes)%nat).
Proof.
  intros Hb Hs Ht Hf Hc m. destruct (core_sections_cases bytes Hb Hs limit simd128 m0 tp fp cp
    Ht Hf Hc c) as [(e & x & fts & xs & bodies & Hd & _) | (err & Herr & Hpos)]; [left | right]; eauto.
Qed.

Lemma core_sections_total_witness :
  (exists s, ⟦ core_sections image default_parser_limit true bare image_types image_funcs image_codes ⟧
     (PState 0 empty_sections) ⇓ (tt, s)) \/
  (exists err, ⟦ core_sections image default_parser_limit true bare image_types image_funcs image_codes ⟧
     (PState 0 empty_sections) ⇑ err /\ (perr_curr err <= 18)%nat).
Proof.
  apply (core_sections_total image default_parser_limit true bare image_types image_funcs image_codes 0).
  - exact image_bytes.
  - reflexivity.
  - unfold place_ok. simpl. lia.
  - unfold place_ok. simpl. lia.
  - unfold place_ok. simpl. lia.
Defined.

(** The parsers establish what the validator assumes. When the three sections and
    the final check succeed, and the imports, tables, memories and globals are within
    their index spaces, the storage decodes to a module that satisfies [module_ok]. *)
Theorem core_sections_module_ok bytes limit simd128 m0 tp fp cp c s :
  Forall is_byte bytes -> zlen bytes < 2 ^ 64 ->
  place_ok bytes tp -> place_ok bytes fp -> place_ok bytes cp -> counts_ok m0 = true ->
  ⟦ core_sections bytes limit simd128 m0 tp fp cp ⟧ (PState c empty_sections) ⇓ (tt, s) ->
  exists m, module_of bytes m0 (secs s) = Some m /\ module_ok m = true.
Proof.
  intros Hb Hs Ht Hf Hc Hcounts Hd. destruct (core_sections_cases bytes Hb Hs limit simd128 m0 tp fp cp
    Ht Hf Hc c) as [(e & x & fts & xs & bodies & Hd' & Hp) | (err & Herr & _)]; [| congruence].
  rewrite Hd in Hd'. injection Hd' as ->. simpl.
  exists (parsed_module m0 fts xs bodies).
  split; [by eapply parsed_module_of | by eapply parsed_module_ok].
Qed.

(** The state after the three sections of [image]. *)
Definition image_parsed : pstate :=
  PState 18 (Sections (Some (0, 7)%nat) [FinalFunctionType 3 5 6 7] (Some (7, 9)%nat) (vt_u8_view 8 9)
    (Some (9, 18)%nat) [FinalWasmCode 11 12 18 [] 0] empty_others).

Lemma image_accepted :
  ⟦ core_sections image default_parser_limit true bare image_types image_funcs image_codes ⟧
    (PState 0 empty_sections) ⇓ (tt, image_parsed).
Proof. vm_compute. reflexivity. Qed.

Lemma core_sections_module_ok_witness :
  exists m, module_of image bare (secs image_parsed) = Some m /\ module_ok m = true.
Proof.
  apply (core_sections_module_ok image default_parser_limit true bare image_types image_funcs
    image_codes 0 image_parsed).
  - exact image_bytes.
  - reflexivity.
  - unfold place_ok. simpl. lia.
  - unfold place_ok. simpl. lia.
  - unfold place_ok. simpl. lia.
  - reflexivity.
  - exact image_accepted.
Defined.

(** From bytes to typed functions. After the sections of a module have been
    accepted, the code validator, run on the expression of any of its functions,
    either accepts it, and then the expression encodes a well-typed body for the type
    and locals that were parsed, or throws an error that points into it. *)
Theorem parsed_function_validated bytes limit simd128 m0 tp fp cp c s m i code :
  Forall is_byte bytes -> zlen bytes < 2 ^ 64 ->
  place_ok bytes tp -> place_ok bytes fp -> place_ok bytes cp -> counts_ok m0 = true ->
  ⟦ core_sections bytes limit simd128 m0 tp fp cp ⟧ (PState c empty_sections) ⇓ (tt, s) ->
  module_of bytes m0 (secs s) = Some m -> expr_of bytes (secs s) i = Some code ->
  let function_index := (length (imported_funcs m0) + i)%nat in
  (validate_code m function_index code = Done tt /\
   exists ft locals, local_function m function_index ft locals /\ func_body_ok m ft locals code) \/
  (exists e, validate_code m function_index code = Thrown e /\ (err_curr e <= length code)%nat).
Proof.
  intros Hb Hs Ht Hf Hc Hcounts Hd Hm Hcode function_index.
  destruct (core_sections_cases bytes Hb Hs limit simd128 m0 tp fp cp
    Ht Hf Hc c) as [(e & x & fts & xs & bodies & Hd' & Hp) | (err & Herr & _)]; [| congruence].
  rewrite Hd in Hd'. injection Hd' as ->. simpl in Hm, Hcode.
  pose proof (parsed_module_of bytes limit m0 tp fp cp x fts xs bodies Hp) as Hm'.
  rewrite Hm in Hm'. injection Hm' as ->.
  pose proof (parsed_module_ok bytes limit m0 tp fp cp x fts xs bodies Hcounts Hp) as Hok.
  assert (Hcb : code_bytes code).
  { unfold expr_of in Hcode. option_inv. split; [by apply slice_bytes |].
    unfold zlen, slice in *. rewrite length_take, length_drop. lia. }
  destruct (@validate_code_cases _ Hok function_index code Hcb) as
    [(ft & locals & Hv & Hl & Ha) | (e' & Hv & Hpos & _)]; [left | right; by exists e'].
  split; [done |]. exists ft, locals. split; [done |]. destruct Hcb as [Hb' _].
  by apply (maccepts_sound code _ Hb') in Ha.
Qed.

(** The module of [image]. *)
Definition image_module : module_storage :=
  parsed_module bare [FunctionType [i32; i32] [i32]] [0] [([], [32; 0; 32; 1; 106; 11])].

Lemma parsed_function_validated_witness :
  (validate_code image_module 0 [32; 0; 32; 1; 106; 11] = Done tt /\
   exists ft locals, local_function image_module 0 ft locals /\
     func_body_ok image_module ft locals [32; 0; 32; 1; 106; 11]) \/
  (exists e, validate_code image_module 0 [32; 0; 32; 1; 106; 11] = Thrown e /\ (err_curr e <= 6)%nat).
Proof.
  apply (parsed_function_validated image default_parser_limit true bare image_types image_funcs
    image_codes 0 image_parsed image_module 0 [32; 0; 32; 1; 106; 11]).
  - exact image_bytes.
  - reflexivity.
  - unfold place_ok. simpl. lia.
  - unfold place_ok. simpl. lia.
  - unfold place_ok. simpl. lia.
  - reflexivity.
  - exact image_accepted.
  - reflexivity.
  - reflexivity.
Defined.

(** C36: the code section. After the types and functions, the handler accepts and stores
    the declarations of locals and the expressions [bodies] exactly when the contents
    encode them in the binary grammar (each size the length of its entry, each
    expression ended by [end], parameters and locals of a function fewer than 2^32),
    there is one for each function, and they are within the parser limits. *)
Theorem code_section_iff_grammar bytes limit b e ptr s bodies :
  let x := secs s in
  let fs := vt_contents bytes (funcsec_funcs x) in
  Forall is_byte bytes -> zlen bytes < 2 ^ 64 ->
  (b <= e)%nat -> (e <= length bytes)%nat -> codesec_span x = None -> codesec_codes x = [] ->
  vt_size (funcsec_funcs x) = length fs -> zlen fs < 2 ^ 32 ->
  (forall i, Z.of_nat i < zlen fs -> exists n, param_count bytes x i = Some n /\ 0 <= n < 2 ^ 32) ->
  Forall (type_ranges bytes) (typesec_types x) ->
  (exists s', ⟦ handle_code_section bytes limit b e ptr ⟧ s ⇓ (tt, s') /\
     mapM (decode_code bytes) (codesec_codes (secs s')) = Some bodies) <->
  zlen bodies = zlen fs /\ zlen bodies <= max_code_sec_codes limit /\
  vec (code_entry (max_code_locals limit) (param_count bytes x)) bodies (slice bytes b e).
Proof.
  intros x fs Hb Hs Hbe He Hspan Hempty Hsz Hlt Hpar Hranges.
  pose proof (code_section_cases bytes Hb Hs limit b e ptr s Hbe He Hspan Hempty Hsz Hlt Hpar
    Hranges) as H. cbv zeta in H. fold x fs in H.
  assert (Hparams : forall i n, param_count bytes x i = Some n -> 0 <= n < 2 ^ 32).
  { intros i n Hn. destruct (Hpar i) as (n' & Hn' & Hr); [| congruence].
    apply bind_Some in Hn as (ti & Hti & _). apply lookup_lt_Some in Hti. unfold zlen, fs. lia. }
  rewrite <- (p_section_iff _ (p_code _ (param_count bytes x))) by
    first [intros i; by apply p_code_parser | apply code_entry_nonempty | by apply slice_bytes].
  destruct (p_section _ _ _) as [bodies' |]; simpl in H.
  - destruct (Z.eqb_spec (zlen bodies') (zlen fs)) as [Hl | Hl].
    + destruct H as (cs & Hd & Hcs). apply (stored_codes_decode bytes) in Hcs. split.
      * intros (s' & Hd' & Hm). rewrite Hd in Hd'. injection Hd' as <-. simpl in Hm.
        rewrite Hcs in Hm. by injection Hm as <-.
      * intros [_ [= ->]]. by eexists.
    + destruct H as (err & Ht & _). split; [intros (s' & Hd & _); congruence |].
      intros [Hl' [= ->]]. congruence.
  - destruct H as (err & Ht & _). split; [| by intros [_ ?]]. intros (s' & Hd & _). congruence.
Qed.

(** The state after the type and function sections of [image]. *)
Definition image_functions : pstate :=
  PState 9 (Sections (Some (0, 7)%nat) [FinalFunctionType 3 5 6 7] (Some (7, 9)%nat) (vt_u8_view 8 9)
    None [] empty_others).

Lemma code_section_iff_grammar_witness :
  (exists s', ⟦ handle_code_section image default_parser_limit 9 18 9 ⟧ image_functions ⇓ (tt, s') /\
     mapM (decode_code image) (codesec_codes (secs s')) = Some [([], [32; 0; 32; 1; 106; 11])]) <->
  zlen [(@nil local_entry, [32; 0; 32; 1; 106; 11])] = 1 /\
  zlen [(@nil local_entry, [32; 0; 32; 1; 106; 11])] <= 262144 /\
  vec (code_entry 65536 (param_count image (secs image_functions)))
    [([], [32; 0; 32; 1; 106; 11])] [1; 7; 0; 32; 0; 32; 1; 106; 11].
Proof.
  apply (code_section_iff_grammar image default_parser_limit 9 18 9 image_functions
    [([], [32; 0; 32; 1; 106; 11])]).
  - exact image_bytes.
  - reflexivity.
  - lia.
  - simpl. lia.
  - reflexivity.
  - reflexivity.
  - reflexivity.
  - reflexivity.
  - intros i Hi. exists 2. assert (i = 0%nat) as -> by (unfold zlen in Hi; simpl in Hi; lia).
    split; [reflexivity | lia].
  - repeat constructor; simpl; lia.
Defined.
