(* ===== verification/OrderTable.v ===== *)
(** * The table of custom section names

    [binfmt/binfmt_ver1/handler_def.h], namespace [details]: a hash table, built at compile
    time, from the names of custom sections to the place they may have in a module. Its
    size is the least power of two, from 16, for which no bucket has more than
    [max_conflict_size] entries; a bucket with more than one entry is a row of the conflict
    table, ended by an entry of order 0. The digest of a name (xxh3) is the parameter
    [digest]. *)

From Stdlib Require Import ZArith Lia.
From S2P Require Import Prelude.
From stdpp Require Import base list numbers strings.
Open Scope Z_scope.

Record mapping_entry := MappingEntry { me_name : list Z; me_order : Z }.
#[global] Instance mapping_entry_eq_dec : EqDecision mapping_entry.
Proof. solve_decision. Defined.
Definition empty_entry : mapping_entry := MappingEntry [] 0.

(** The name of a slot: characters, or a null pointer whose length is the place of the
    bucket in the conflict table. *)
Inductive slot_name := slot_string (s : list Z) | slot_place (n : nat).
Definition slot_size (n : slot_name) : nat :=
  match n with slot_string s => length s | slot_place n => n end.
Record ht_entry := HtEntry { ht_name : slot_name; ht_order : Z }.
Definition empty_slot : ht_entry := HtEntry (slot_string []) 0.

Record hash_table := HashTable {
  ht : list ht_entry;
  ct : list (list mapping_entry)
}.

Definition hash_size_base : nat := 4.
Definition max_conflict_size : nat := 8.
(** [numeric_limits<size_t>::digits10] for 64 bits. *)
Definition sizet_d10 : nat := 19.

Record calculate_hash_table_size_res := SizeRes {
  hash_table_size : nat;
  extra_size : nat;
  real_max_conflict_size : nat
}.

Section OrderTable.
Context (digest : list Z -> nat).

(** ** The size *)

(** One pass over the entries: the number of entries in each bucket, [extra_size],
    [real_max_conflict_size] and [need_expand]. *)
Record pass := Pass { hash_size_array : list nat; p_extra : nat; p_max : nat; need_expand : bool }.

Definition pass_entry (hash_size : nat) (p : pass) (j : mapping_entry) : option pass :=
  let val := (digest (me_name j) mod hash_size)%nat in
  n ← hash_size_array p !! val;
  let n := S n in
  Some (Pass (<[val := n]> (hash_size_array p))
    (if (n =? 2)%nat then S (p_extra p) else p_extra p)
    (if (p_max p <? n)%nat then n else p_max p)
    (need_expand p || (max_conflict_size <? n)%nat)).

Definition size_pass (hash_size : nat) (entries : list mapping_entry) : option pass :=
  foldl (fun p j => p ← p; pass_entry hash_size p j)
    (Some (Pass (replicate hash_size 0%nat) 0 0 false)) entries.

(** [for(auto i{hash_size_base}; i < sizet_d10; ++i)]; [None] is [fast_terminate]. *)
Fixpoint size_loop (k i : nat) (entries : list mapping_entry) : option calculate_hash_table_size_res :=
  match k with
  | O => None
  | S k =>
      let hash_size := (2 ^ i)%nat in
      p ← size_pass hash_size entries;
      if need_expand p then size_loop k (S i) entries
      else Some (SizeRes hash_size (p_extra p) (p_max p))
  end.

Definition calculate_hash_table_size (entries : list mapping_entry) : option calculate_hash_table_size_res :=
  size_loop (sizet_d10 - hash_size_base) hash_size_base entries.

(** ** The table *)

(** The [break]ing loop that stores into the first entry of order 0. *)
Fixpoint put_first (j : mapping_entry) (ctmem : list mapping_entry) : list mapping_entry :=
  match ctmem with
  | [] => []
  | i :: ctmem => if me_order i =? 0 then j :: ctmem else i :: put_first j ctmem
  end.

Section Generate.
Context (sz : calculate_hash_table_size_res).

Definition empty_table : hash_table :=
  HashTable (replicate (hash_table_size sz) empty_slot)
    (replicate (extra_size sz) (replicate (S (real_max_conflict_size sz)) empty_entry)).

(** The table and [conflictplace]; [None] is an access out of range. *)
Definition generate_entry (st : hash_table * nat) (j : mapping_entry) : option (hash_table * nat) :=
  let '(res, conflictplace) := st in
  let val := (digest (me_name j) mod hash_table_size sz)%nat in
  slot ← ht res !! val;
  let own := HashTable (<[val := HtEntry (slot_string (me_name j)) (me_order j)]> (ht res)) (ct res) in
  if (extra_size sz =? 0)%nat then Some (own, conflictplace)
  else if ht_order slot =? 0 then
    if (slot_size (ht_name slot) =? 0)%nat then Some (own, conflictplace)
    else
      ctmem ← ct res !! (slot_size (ht_name slot) - 1)%nat;
      Some (HashTable (ht res) (<[(slot_size (ht_name slot) - 1)%nat := put_first j ctmem]> (ct res)), conflictplace)
  else
    match ht_name slot with
    | slot_place _ => None
    | slot_string name =>
        ctmem ← ct res !! (conflictplace - 1)%nat;
        if (length ctmem <? 2)%nat then None
        else
          let ctmem := <[1%nat := j]> (<[0%nat := MappingEntry name (ht_order slot)]> ctmem) in
          Some (HashTable (<[val := HtEntry (slot_place conflictplace) 0]> (ht res))
                  (<[(conflictplace - 1)%nat := ctmem]> (ct res)), S conflictplace)
    end.

Definition generate_custom_section_sequential_mapping_table (entries : list mapping_entry) : option hash_table :=
  fst <$> foldl (fun st j => st ← st; generate_entry st j) (Some (empty_table, 1%nat)) entries.

(** The loop over a row of the conflict table; [None] is a read past its end. *)
Fixpoint find_conflict (name : list Z) (ctmem : list mapping_entry) : option Z :=
  match ctmem with
  | [] => None
  | i :: ctmem =>
      if bool_decide (me_name i = name) then Some (me_order i)
      else if me_order i =? 0 then Some 0
      else find_conflict name ctmem
  end.

Definition slot_is (n : slot_name) (name : list Z) : bool :=
  match n with slot_string s => bool_decide (name = s) | slot_place _ => false end.

Definition find_from_custom_section_sequential_mapping_table (table : hash_table) (name : list Z) : option Z :=
  let val := (digest name mod hash_table_size sz)%nat in
  htval ← ht table !! val;
  if negb (extra_size sz =? 0)%nat && (ht_order htval =? 0) then
    if negb (slot_size (ht_name htval) =? 0)%nat then
      ctmem ← ct table !! (slot_size (ht_name htval) - 1)%nat;
      find_conflict name ctmem
    else Some 0
  else if slot_is (ht_name htval) name then Some (ht_order htval)
  else Some 0.
End Generate.
End OrderTable.

(** ** The map the table implements *)

Fixpoint order_of (entries : list mapping_entry) (name : list Z) : Z :=
  match entries with
  | [] => 0
  | j :: entries => if bool_decide (me_name j = name) then me_order j else order_of entries name
  end.

(** ** Correctness *)

Lemma filter_agree {A} (Q R : A -> Prop) `{!forall x, Decision (Q x), !forall x, Decision (R x)} (l : list A) :
  (forall x, x ∈ l -> Q x <-> R x) -> filter Q l = filter R l.
Proof.
  induction l as [| x l IH]; intros Hiff; [done |]. rewrite !filter_cons.
  rewrite IH by (intros; apply Hiff; by right). specialize (Hiff x ltac:(by left)).
  destruct (decide (Q x)), (decide (R x)); first [done | tauto].
Qed.

Lemma length_filter_flip {A} (Q R : A -> Prop) `{!forall x, Decision (Q x), !forall x, Decision (R x)} (l : list A) (a : A) :
  NoDup l -> a ∈ l -> ~ Q a -> R a -> (forall x, x <> a -> Q x <-> R x) ->
  length (filter R l) = S (length (filter Q l)).
Proof.
  intros Hnd Hin HQ HR Hiff. induction l as [| x l IH]; [by apply not_elem_of_nil in Hin |].
  apply NoDup_cons in Hnd as [Hx Hnd]. rewrite !filter_cons. apply elem_of_cons in Hin as [<- | Hin].
  - rewrite decide_True, decide_False by done. simpl. do 2 f_equal. apply filter_agree.
    intros y Hy. symmetry. apply Hiff. by intros ->.
  - assert (x <> a) by (by intros ->). specialize (IH Hnd Hin).
    destruct (decide (Q x)); [rewrite decide_True by (by apply Hiff) | rewrite decide_False by (by rewrite <- Hiff)];
      simpl; by rewrite IH.
Qed.

Section Correct.
Context (digest : list Z -> nat) (h : nat) (Hh : (0 < h)%nat).

Definition slot_of (name : list Z) : nat := (digest name mod h)%nat.
Definition bucket (es : list mapping_entry) (v : nat) : list mapping_entry :=
  filter (fun j => slot_of (me_name j) = v) es.
(** The buckets with more than one entry. *)
Definition shared (es : list mapping_entry) : list nat :=
  filter (fun v => (2 <= length (bucket es v))%nat) (seq 0 h).

Lemma slot_of_lt name : (slot_of name < h)%nat.
Proof using Hh. apply Nat.mod_upper_bound. lia. Qed.

Lemma bucket_snoc es j v :
  bucket (es ++ [j]) v = bucket es v ++ (if decide (slot_of (me_name j) = v) then [j] else []).
Proof. unfold bucket. rewrite filter_app, filter_cons, filter_nil. done. Qed.

Lemma bucket_snoc_same es j : bucket (es ++ [j]) (slot_of (me_name j)) = bucket es (slot_of (me_name j)) ++ [j].
Proof. by rewrite bucket_snoc, decide_True. Qed.

Lemma bucket_snoc_other es j v : slot_of (me_name j) <> v -> bucket (es ++ [j]) v = bucket es v.
Proof. intros. by rewrite bucket_snoc, decide_False, app_nil_r. Qed.

(** A new entry shares its bucket with exactly one other. *)
Lemma shared_snoc es j :
  length (shared (es ++ [j])) =
  if (length (bucket es (slot_of (me_name j))) =? 1)%nat then S (length (shared es)) else length (shared es).
Proof using Hh.
  unfold shared. destruct (Nat.eqb_spec (length (bucket es (slot_of (me_name j)))) 1) as [H1 | H1].
  - apply length_filter_flip with (slot_of (me_name j)).
    + apply NoDup_seq.
    + apply elem_of_seq. pose proof (slot_of_lt (me_name j)). lia.
    + lia.
    + rewrite bucket_snoc_same, length_app. simpl. lia.
    + intros v Hv. by rewrite bucket_snoc_other.
  - f_equal. apply filter_agree. intros v _. destruct (decide (slot_of (me_name j) = v)) as [<- | Hv].
    + rewrite bucket_snoc_same, length_app. simpl. lia.
    + by rewrite bucket_snoc_other.
Qed.

(** The pass counts the entries of each bucket. *)
Record pass_inv (es : list mapping_entry) (p : pass) : Prop := PassInv {
  pi_array : hash_size_array p = map (fun v => length (bucket es v)) (seq 0 h);
  pi_extra : p_extra p = length (shared es);
  pi_max v : (length (bucket es v) <= p_max p)%nat;
  pi_expand : need_expand p = true -> (max_conflict_size < length es)%nat
}.

Lemma pass_entry_inv es p j :
  pass_inv es p -> exists p', pass_entry digest h p j = Some p' /\ pass_inv (es ++ [j]) p'.
Proof using Hh.
  intros [Ha Hx Hm He]. unfold pass_entry. fold (slot_of (me_name j)).
  pose proof (slot_of_lt (me_name j)) as Hlt. set (v := slot_of (me_name j)) in *.
  rewrite Ha, list_lookup_fmap, lookup_seq_lt by done. simpl. eexists. split; [done |].
  assert (Hb : forall w, length (bucket (es ++ [j]) w) =
    if decide (v = w) then S (length (bucket es w)) else length (bucket es w)).
  { intros w. rewrite bucket_snoc. fold v. destruct (decide (v = w)); rewrite length_app; simpl; lia. }
  constructor; simpl.
  - apply list_eq. intros w. rewrite list_lookup_fmap. destruct (decide (w < h)%nat) as [Hw | Hw].
    + rewrite lookup_seq_lt by done. simpl. rewrite Hb. destruct (decide (v = w)) as [<- | Hne].
      * rewrite list_lookup_insert, decide_True; [done |]. rewrite length_map, length_seq. done.
      * rewrite list_lookup_insert_ne by done. by rewrite list_lookup_fmap, lookup_seq_lt.
    + rewrite lookup_seq_ge by lia. simpl. apply lookup_ge_None_2.
      rewrite length_insert, length_map, length_seq. lia.
  - rewrite shared_snoc, Hx. fold v. by destruct (length (bucket es v)) as [| [|]].
  - intros w. rewrite Hb. specialize (Hm w). destruct (Nat.ltb_spec (p_max p) (S (length (bucket es v))));
      destruct (decide (v = w)) as [<- | ]; lia.
  - rewrite orb_true_iff, length_app. simpl. intros [Hn | Hn%Nat.ltb_lt]; [specialize (He Hn); lia |].
    assert ((length (bucket es v) <= length es)%nat) by apply length_filter. lia.
Qed.

Lemma size_pass_inv es : exists p, size_pass digest h es = Some p /\ pass_inv es p.
Proof using Hh.
  unfold size_pass. induction es as [| j es IH] using rev_ind.
  - eexists. split; [done |]. constructor; simpl; try done.
    + rewrite <- (length_seq h 0) at 1. generalize (seq 0 h). intros l. induction l; simpl; congruence.
    + unfold shared. generalize (seq 0 h). intros l. induction l; [done |]. by rewrite filter_cons.
  - destruct IH as (p & Hp & Hi). rewrite foldl_snoc, Hp. simpl. by apply pass_entry_inv.
Qed.

(** *** The table *)

Section Table.
Context (ex mx : nat).
Let sz := SizeRes h ex mx.

(** A row of the conflict table that holds [l]. *)
Definition row (l : list mapping_entry) : list mapping_entry := l ++ replicate (S mx - length l) empty_entry.
#[local] Arguments row : simpl never.
Definition own_slot (j : mapping_entry) : ht_entry := HtEntry (slot_string (me_name j)) (me_order j).

(** [linked] lists the shared buckets in the order of their rows. *)
Record table_inv (es : list mapping_entry) (linked : list nat) (t : hash_table) (cp : nat) : Prop := TableInv {
  ti_nodup : NoDup linked;
  ti_linked v : v ∈ linked <-> v ∈ shared es;
  ti_place : cp = S (length linked);
  ti_ht : length (ht t) = h;
  ti_slot v : (v < h)%nat -> match bucket es v with
    | [] => ht t !! v = Some empty_slot
    | [j] => ht t !! v = Some (own_slot j)
    | _ => exists c, linked !! c = Some v /\ ht t !! v = Some (HtEntry (slot_place (S c)) 0)
    end;
  ti_ct : length (ct t) = ex;
  ti_row c v : linked !! c = Some v -> ct t !! c = Some (row (bucket es v));
  ti_free c : (length linked <= c < ex)%nat -> ct t !! c = Some (row [])
}.

Lemma linked_length es linked t cp : table_inv es linked t cp -> length linked = length (shared es).
Proof.
  intros [Hnd Hl]. apply Permutation_length, NoDup_Permutation; [done | | done].
  unfold shared. apply NoDup_filter, NoDup_seq.
Qed.

Lemma row_length : length (row []) = S mx.
Proof. unfold row. simpl. by rewrite length_replicate. Qed.

Lemma row_two i j : (1 <= mx)%nat -> <[1%nat := j]> (<[0%nat := i]> (row [])) = row [i; j].
Proof. intros. unfold row. simpl. replace mx with (S (mx - 1)) at 1 by lia. done. Qed.

Lemma put_first_row l j :
  Forall (fun i => me_order i <> 0) l -> (length l <= mx)%nat -> put_first j (row l) = row (l ++ [j]).
Proof.
  intros HF Hl. unfold row. rewrite length_app. simpl.
  replace (S mx - length l)%nat with (S (S mx - (length l + 1))) by lia. simpl. clear Hl.
  generalize (S mx - (length l + 1))%nat. intros n.
  induction HF as [| i l Hi _ IH]; simpl.
  - done.
  - rewrite (proj2 (Z.eqb_neq _ _) Hi), IH. by rewrite <- app_assoc.
Qed.

Lemma find_conflict_row l name :
  Forall (fun i => me_order i <> 0) l -> (length l <= mx)%nat -> find_conflict name (row l) = Some (order_of l name).
Proof.
  intros HF Hl. unfold row. replace (S mx - length l)%nat with (S (mx - length l)) by lia. clear Hl.
  generalize (mx - length l)%nat. intros n. simpl replicate. induction HF as [| i l Hi _ IH]; simpl.
  - by case_bool_decide.
  - case_bool_decide; [done |]. by rewrite (proj2 (Z.eqb_neq _ _) Hi), IH.
Qed.

Lemma shared_elem es v : v ∈ shared es <-> (v < h)%nat /\ (2 <= length (bucket es v))%nat.
Proof. unfold shared. rewrite list_elem_of_filter, elem_of_seq. lia. Qed.

Lemma table_inv_nil : table_inv [] [] (empty_table sz) 1.
Proof.
  constructor; simpl; try done.
  - constructor.
  - intros v. rewrite shared_elem. simpl. split; [by intros ?%not_elem_of_nil | lia].
  - by rewrite length_replicate.
  - intros v Hv. by apply lookup_replicate_2.
  - by rewrite length_replicate.
  - intros c Hc. apply lookup_replicate_2. lia.
Qed.
(** An entry [j] more, in the bucket [v]. *)
Section Step.
Context (es : list mapping_entry) (linked : list nat) (t : hash_table) (cp : nat) (j : mapping_entry).
Context (Hinv : table_inv es linked t cp).
Let v := slot_of (me_name j).

Lemma step_other w : v <> w -> bucket (es ++ [j]) w = bucket es w.
Proof. apply bucket_snoc_other. Qed.

Lemma step_first :
  bucket es v = [] ->
  table_inv (es ++ [j]) linked (HashTable (<[v := own_slot j]> (ht t)) (ct t)) cp.
Proof using Hh Hinv.
  intros Hbv. destruct Hinv as [Hnd Hl Hcp Hht Hslot Hct Hrow Hfree].
  pose proof (bucket_snoc_same es j) as Hb. fold v in Hb. rewrite Hbv in Hb. simpl in Hb.
  constructor; simpl; try done.
  - intros w. rewrite Hl, !shared_elem. destruct (decide (v = w)) as [<- |]; [| by rewrite step_other].
    rewrite Hb, Hbv. simpl. lia.
  - by rewrite length_insert.
  - intros w Hw. destruct (decide (v = w)) as [<- | Hne].
    + rewrite Hb. rewrite list_lookup_insert, decide_True; [done | lia].
    + rewrite step_other, list_lookup_insert_ne by done. by apply Hslot.
  - intros c w Hc. destruct (decide (v = w)) as [<- | Hne]; [| rewrite step_other by done; eauto].
    apply list_elem_of_lookup_2, Hl, shared_elem in Hc. rewrite Hbv in Hc. simpl in Hc. lia.
Qed.

Lemma step_new_row i :
  bucket es v = [i] -> (length linked < ex)%nat -> (2 <= mx)%nat ->
  table_inv (es ++ [j]) (linked ++ [v])
    (HashTable (<[v := HtEntry (slot_place cp) 0]> (ht t)) (<[length linked := row [i; j]]> (ct t))) (S cp).
Proof using Hh Hinv.
  intros Hbv Hex Hmx. destruct Hinv as [Hnd Hl Hcp Hht Hslot Hct Hrow Hfree].
  pose proof (bucket_snoc_same es j) as Hb. fold v in Hb. rewrite Hbv in Hb. simpl in Hb.
  pose proof (slot_of_lt (me_name j)) as Hlt. fold v in Hlt.
  assert (Hv : v ∉ linked) by (rewrite Hl, shared_elem, Hbv; simpl; lia).
  constructor; simpl.
  - apply NoDup_app. split; [done |]. split; [| apply NoDup_singleton].
    intros w Hw ->%list_elem_of_singleton. done.
  - intros w. rewrite elem_of_app, list_elem_of_singleton, Hl, !shared_elem.
    destruct (decide (v = w)) as [<- |]; [rewrite Hb; simpl; naive_solver lia |].
    rewrite step_other by done. naive_solver.
  - rewrite length_app, Hcp. simpl. lia.
  - by rewrite length_insert.
  - intros w Hw. destruct (decide (v = w)) as [<- | Hne].
    + rewrite Hb. exists (length linked). rewrite lookup_app_r, Nat.sub_diag by lia. split; [done |].
      rewrite list_lookup_insert, decide_True by lia. by rewrite Hcp.
    + rewrite step_other, list_lookup_insert_ne by done. specialize (Hslot w Hw).
      destruct (bucket es w) as [| ? [| ? ?]]; [done.. |]. destruct Hslot as (c & Hc & ?).
      exists c. split; [| done]. by apply lookup_app_l_Some.
  - by rewrite length_insert.
  - intros c w [Hc | [Hge Hc]]%lookup_app_Some.
    + rewrite list_lookup_insert_ne by (apply lookup_lt_Some in Hc; lia).
      rewrite step_other; [eauto |]. intros <-. by apply list_elem_of_lookup_2 in Hc.
    + apply list_lookup_singleton_Some in Hc as [Hc <-]. rewrite Hb.
      replace c with (length linked) by lia. rewrite list_lookup_insert, decide_True; [done | lia].
  - intros c Hc. rewrite length_app in Hc. simpl in Hc. rewrite list_lookup_insert_ne by lia. apply Hfree. lia.
Qed.

Lemma step_push_row c :
  (2 <= length (bucket es v))%nat -> linked !! c = Some v ->
  table_inv (es ++ [j]) linked (HashTable (ht t) (<[c := row (bucket es v ++ [j])]> (ct t))) cp.
Proof using Hh Hinv.
  intros Hbv Hcv. destruct Hinv as [Hnd Hl Hcp Hht Hslot Hct Hrow Hfree].
  pose proof (bucket_snoc_same es j) as Hb. fold v in Hb.
  pose proof (lookup_lt_Some _ _ _ Hcv) as Hlt.
  assert (Hc' : (c < ex)%nat) by (rewrite <- Hct; apply lookup_lt_is_Some_1; rewrite (Hrow _ _ Hcv); eauto).
  constructor; simpl; try done.
  - intros w. rewrite Hl, !shared_elem. destruct (decide (v = w)) as [<- |]; [| by rewrite step_other].
    rewrite Hb, length_app. simpl. lia.
  - intros w Hw. specialize (Hslot w Hw). destruct (decide (v = w)) as [<- | Hne]; [| by rewrite step_other].
    rewrite Hb. by destruct (bucket es v) as [| ? [| ? ?]]; simpl in *; [lia.. |].
  - by rewrite length_insert.
  - intros c' w Hw. destruct (decide (c = c')) as [<- | Hne].
    + assert (w = v) as -> by congruence. rewrite Hb, list_lookup_insert, decide_True; [done | lia].
    + rewrite list_lookup_insert_ne by done. rewrite step_other; [eauto |].
      intros ->. apply Hne. by eapply NoDup_lookup.
  - intros c' Hc''. rewrite list_lookup_insert_ne by lia. by apply Hfree.
Qed.
End Step.

Lemma generate_step es linked t cp j :
  ex <> 0%nat -> Forall (fun i => me_order i <> 0) (es ++ [j]) ->
  (length (shared (es ++ [j])) <= ex)%nat -> (forall v, (length (bucket (es ++ [j]) v) <= mx)%nat) ->
  table_inv es linked t cp ->
  exists linked' t' cp', generate_entry digest sz (t, cp) j = Some (t', cp') /\ table_inv (es ++ [j]) linked' t' cp'.
Proof using Hh.
  intros Hex HF Hsh Hmx Hinv. pose proof (linked_length _ _ _ _ Hinv) as Hlen.
  unfold generate_entry. simpl hash_table_size. simpl extra_size. fold (slot_of (me_name j)).
  pose proof (slot_of_lt (me_name j)) as Hlt. rewrite (proj2 (Nat.eqb_neq ex 0) Hex).
  pose proof (ti_slot _ _ _ _ Hinv _ Hlt) as Hv. specialize (Hmx (slot_of (me_name j))).
  rewrite bucket_snoc_same, length_app in Hmx. rewrite shared_snoc in Hsh. simpl in Hmx.
  assert (Ho : Forall (fun i => me_order i <> 0) (bucket es (slot_of (me_name j)))).
  { apply Forall_app in HF as [HF _]. rewrite Forall_forall in HF |- *.
    intros x [_ Hx]%list_elem_of_filter. by apply HF. }
  destruct (bucket es (slot_of (me_name j))) as [| i [| i2 l]] eqn:Hbv.
  - rewrite Hv. eexists linked, _, cp. split; [done |]. by apply step_first.
  - rewrite Hv. simpl in *. rewrite Forall_singleton in Ho. rewrite (proj2 (Z.eqb_neq _ _) Ho).
    rewrite (ti_place _ _ _ _ Hinv). simpl. rewrite Nat.sub_0_r, (ti_free _ _ _ _ Hinv) by lia.
    change (mbind ?f (Some ?x)) with (f x). cbv beta zeta.
    rewrite row_length, (proj2 (Nat.ltb_ge _ _)), row_two by lia.
    eexists _, _, _. split; [done |].
    pose proof (step_new_row es linked t cp j Hinv i Hbv ltac:(lia) ltac:(lia)) as H.
    rewrite (ti_place _ _ _ _ Hinv) in H. by destruct i.
  - destruct Hv as (c & Hc & Hv). rewrite Hv. simpl.
    rewrite Nat.sub_0_r, (ti_row _ _ _ _ Hinv c _ Hc). simpl. rewrite Hbv, put_first_row by first [done | simpl in *; lia].
    eexists _, _, _. split; [done |]. rewrite <- Hbv. apply (step_push_row es linked t cp j Hinv c); [| done].
    rewrite Hbv. simpl. lia.
Qed.
Abbreviation run es := (foldl (fun st j => st ← st; generate_entry digest sz st j) (Some (empty_table sz, 1%nat)) es).

Lemma table_built es :
  ex <> 0%nat -> Forall (fun i => me_order i <> 0) es ->
  (length (shared es) <= ex)%nat -> (forall v, (length (bucket es v) <= mx)%nat) ->
  exists linked t cp, run es = Some (t, cp) /\ table_inv es linked t cp.
Proof using Hh.
  intros Hex. induction es as [| j es IH] using rev_ind; intros HF Hsh Hmx.
  { eexists _, _, _. split; [done | apply table_inv_nil]. }
  rewrite foldl_snoc. destruct IH as (linked & t & cp & -> & Hinv).
  - by apply Forall_app in HF as [? _].
  - rewrite shared_snoc in Hsh. destruct (_ =? 1)%nat; lia.
  - intros v. specialize (Hmx v). rewrite bucket_snoc, length_app in Hmx. lia.
  - simpl. by apply (generate_step es linked).
Qed.

(** Without shared buckets every slot holds the entry of its bucket. *)
Definition plain_slot (l : list mapping_entry) : ht_entry :=
  match last l with None => empty_slot | Some j => own_slot j end.

Lemma plain_built es :
  ex = 0%nat ->
  exists t cp, run es = Some (t, cp) /\ length (ht t) = h /\
    forall v, (v < h)%nat -> ht t !! v = Some (plain_slot (bucket es v)).
Proof using Hh.
  intros Hex. induction es as [| j es IH] using rev_ind.
  { eexists _, _. split; [done |]. simpl. rewrite length_replicate. split; [done |].
    intros v Hv. by apply lookup_replicate_2. }
  destruct IH as (t & cp & Ht & Hlen & Hs). rewrite foldl_snoc, Ht. simpl.
  fold (slot_of (me_name j)). pose proof (slot_of_lt (me_name j)) as Hlt.
  rewrite (Hs _ Hlt). simpl. rewrite (proj2 (Nat.eqb_eq ex 0) Hex). eexists _, _. split; [done |]. simpl.
  rewrite length_insert. split; [done |]. intros v Hv.
  destruct (decide (slot_of (me_name j) = v)) as [<- | Hne].
  - rewrite bucket_snoc_same, list_lookup_insert, decide_True by lia. unfold plain_slot. by rewrite last_snoc.
  - by rewrite bucket_snoc_other, list_lookup_insert_ne, Hs.
Qed.

Lemma order_of_bucket es name : order_of es name = order_of (bucket es (slot_of name)) name.
Proof.
  unfold bucket. induction es as [| j es IH]; [done |]. rewrite filter_cons. simpl.
  case_bool_decide as Hn.
  - rewrite decide_True by (by rewrite Hn). simpl. by rewrite bool_decide_eq_true_2.
  - case_decide; simpl; [by rewrite bool_decide_eq_false_2 |]; done.
Qed.

Lemma find_plain t es name :
  ht t !! slot_of name = Some (plain_slot (bucket es (slot_of name))) ->
  (length (bucket es (slot_of name)) <= 1)%nat -> ex = 0%nat ->
  find_from_custom_section_sequential_mapping_table digest sz t name = Some (order_of es name).
Proof.
  intros Hs Hl Hex. rewrite order_of_bucket.
  unfold find_from_custom_section_sequential_mapping_table. simpl. fold (slot_of name). rewrite Hs. simpl.
  rewrite (proj2 (Nat.eqb_eq ex 0) Hex). simpl.
  destruct (bucket es (slot_of name)) as [| j [| ? ?]]; simpl in *; [by case_bool_decide | | lia].
  destruct (decide (name = me_name j)) as [-> | Hne].
  - by rewrite !bool_decide_eq_true_2.
  - rewrite !bool_decide_eq_false_2; [done | congruence | done].
Qed.

Lemma find_shared t es linked cp name :
  table_inv es linked t cp -> ex <> 0%nat -> Forall (fun i => me_order i <> 0) es ->
  (forall v, (length (bucket es v) <= mx)%nat) ->
  find_from_custom_section_sequential_mapping_table digest sz t name = Some (order_of es name).
Proof using Hh.
  intros Hinv Hex HF Hmx. rewrite order_of_bucket.
  unfold find_from_custom_section_sequential_mapping_table. simpl. fold (slot_of name).
  pose proof (ti_slot _ _ _ _ Hinv _ (slot_of_lt name)) as Hs. specialize (Hmx (slot_of name)).
  rewrite (proj2 (Nat.eqb_neq ex 0) Hex). simpl.
  assert (Ho : Forall (fun i => me_order i <> 0) (bucket es (slot_of name))).
  { rewrite Forall_forall in HF |- *. intros x [_ Hx]%list_elem_of_filter. by apply HF. }
  destruct (bucket es (slot_of name)) as [| j [| j2 l]] eqn:Hb.
  - by rewrite Hs.
  - rewrite Hs. simpl. rewrite Forall_singleton in Ho. rewrite (proj2 (Z.eqb_neq _ _) Ho). simpl.
    destruct (decide (name = me_name j)) as [-> | Hne]; [by rewrite !bool_decide_eq_true_2 |].
    rewrite !bool_decide_eq_false_2; [done | congruence | done].
  - destruct Hs as (c & Hc & Hs). rewrite Hs. simpl.
    rewrite Nat.sub_0_r, (ti_row _ _ _ _ Hinv c _ Hc). simpl. rewrite Hb. by apply find_conflict_row.
Qed.
End Table.

Lemma table_lookup es p :
  size_pass digest h es = Some p -> Forall (fun i => me_order i <> 0) es ->
  let sz := SizeRes h (p_extra p) (p_max p) in
  exists t, generate_custom_section_sequential_mapping_table digest sz es = Some t /\
    forall name, find_from_custom_section_sequential_mapping_table digest sz t name = Some (order_of es name).
Proof using Hh.
  intros Hp HF sz. destruct (size_pass_inv es) as (p' & Hp' & [_ Hx Hm _]).
  rewrite Hp in Hp'. injection Hp' as <-. unfold generate_custom_section_sequential_mapping_table.
  destruct (decide (p_extra p = 0%nat)) as [Hz | Hnz].
  - destruct (plain_built (p_extra p) (p_max p) es Hz) as (t & cp & Ht & _ & Hs). unfold sz. rewrite Ht.
    exists t. split; [done |]. intros name. apply (find_plain _ _ t es); [apply Hs, slot_of_lt | | done].
    rewrite Hz in Hx. symmetry in Hx. apply nil_length_inv in Hx.
    assert (~ slot_of name ∈ shared es) by (rewrite Hx; apply not_elem_of_nil).
    rewrite shared_elem in H. pose proof (slot_of_lt name). lia.
  - destruct (table_built (p_extra p) (p_max p) es Hnz HF ltac:(lia) Hm) as (linked & t & cp & Ht & Hinv).
    unfold sz. rewrite Ht. exists t. split; [done |]. intros name. by eapply find_shared.
Qed.
End Correct.

Lemma size_loop_pass digest k i es sz :
  size_loop digest k i es = Some sz ->
  exists j p, size_pass digest (2 ^ j) es = Some p /\ sz = SizeRes (2 ^ j) (p_extra p) (p_max p).
Proof.
  revert i. induction k as [| k IH]; intros i; simpl; [done |]. intros (p & Hp & Hk)%bind_Some.
  destruct (need_expand p); [eauto |]. injection Hk as <-. eauto.
Qed.

Lemma pow2_pos j : (0 < 2 ^ j)%nat.
Proof. apply Nat.neq_0_lt_0, Nat.pow_nonzero. lia. Qed.

(** The table built for a list of entries is the map from their names to their orders. *)
Lemma order_table_map digest es sz :
  calculate_hash_table_size digest es = Some sz -> Forall (fun i => me_order i <> 0) es ->
  exists t, generate_custom_section_sequential_mapping_table digest sz es = Some t /\
    forall name, find_from_custom_section_sequential_mapping_table digest sz t name = Some (order_of es name).
Proof.
  intros (j & p & Hp & ->)%size_loop_pass HF. by apply (table_lookup digest (2 ^ j) (pow2_pos j) es p).
Qed.

(** At most [max_conflict_size] entries always fit. *)
Lemma size_loop_small digest k i es :
  (length es <= max_conflict_size)%nat -> is_Some (size_loop digest (S k) i es).
Proof.
  intros Hl. simpl. destruct (size_pass_inv digest (2 ^ i) (pow2_pos _) es) as (p & Hp & [_ _ _ He]).
  rewrite Hp. simpl. destruct (need_expand p); [specialize (He eq_refl); lia | eauto].
Qed.

Lemma calculate_small digest es :
  (length es <= max_conflict_size)%nat -> is_Some (calculate_hash_table_size digest es).
Proof. apply (size_loop_small digest 14 4). Qed.
