(* ===== verification/Binfmt.v ===== *)
(** * Custom sections and the binary format driver

    [features/custom_section.h], [features/sequence.h], [binfmt/base/base.h] and
    [binfmt/binfmt_ver1/handler.h] for the Release 1.0 feature set: the loop over the
    sections of a module, the order they must have, and the dispatch to their handlers. *)

From stdpp Require Import base list numbers strings.
From Stdlib Require Import ZArith Lia.
From S2P Require Import Prelude Leb128 WasmTypes ParserBase Names ImportSection.
From S2P Require Import TypeSection FunctionSection TableMemorySections GlobalSection ExportSection.
From S2P Require Import StartSection SegmentSections CodeSection OrderTable.
Open Scope Z_scope.

(** [max_section_id_map_sec_id_t] *)
Record max_section_id_map_sec_id_t := MaxOrder {
  max_section_id : Z;
  max_section_id_map_sec_id : Z
}.

(** [wasm1_sequence_storage_t]: the name section comes after the data section. *)
Definition custom_name_order : Z := 11 + 1.
Definition name_string : list Z := [110; 97; 109; 101].
Definition custom_section_sequential_mapping_table_entries : list mapping_entry :=
  [MappingEntry name_string custom_name_order].

Section Binfmt.
Context (bytes : list Z) (limit : wasm1_parser_limit_t).
(** The loop of the UTF-8 checker, the block loop of the function section, and xxh3. *)
Context (wide simd128 : bool) (digest : list Z -> nat).

Definition custom_section_sequential_mapping_table : option (calculate_hash_table_size_res * hash_table) :=
  sz ← calculate_hash_table_size digest custom_section_sequential_mapping_table_entries;
  t ← generate_custom_section_sequential_mapping_table digest sz custom_section_sequential_mapping_table_entries;
  Some (sz, t).

Definition find_custom_order (name : list Z) : option Z :=
  '(sz, t) ← custom_section_sequential_mapping_table;
  find_from_custom_section_sequential_mapping_table digest sz t name.

(** The handler returns the order it leaves in [wasm_order]. *)
Definition handle_custom_section (wasm_order : max_section_id_map_sec_id_t)
    (section_begin section_end : nat) : P max_section_id_map_sec_id_t :=
  move_to section_begin;;
  '(next_name_len, name_len) ← parse_u32 bytes section_end wpec.invalid_custom_name_length;
  move_to next_name_len;;
  sm_when (distance next_name_len section_end <? name_len)
    (sm_throw (pinvalid next_name_len wpec.illegal_custom_name_length (psel_u32 name_len)));;
  let custom_name := U8View next_name_len name_len in
  let name_end := (next_name_len + Z.to_nat name_len)%nat in
  check_import_export_text_format bytes wide next_name_len name_end;;
  curr_section_order ← sm_unchecked (find_custom_order (view_bytes bytes custom_name));
  sm_when (negb (curr_section_order =? 0) && (curr_section_order <? max_section_id wasm_order))
    (sm_throw (pinvalid next_name_len wpec.illegal_custom_section_order
      (psel_illegal_custom_section_order next_name_len name_len curr_section_order
        (max_section_id wasm_order) (max_section_id_map_sec_id wasm_order))));;
  move_to name_end;;
  sm_modify (fun s => set_customs s
    (customs (others (secs s)) ++ [CustomSection section_begin section_end custom_name name_end]));;
  mret (if curr_section_order =? 0 then wasm_order else MaxOrder curr_section_order 0).

Definition handle_function (section_begin section_end ptr : nat) : P unit :=
  s ← sm_get;
  handle_function_section bytes limit (u32 (zlen (importdesc_at 0 s))) simd128 section_begin section_end ptr.

(** [handle_all_binfmt_ver1_extensible_section]: the handler of the section with this
    identifier, in the order of [binfmt_ver1_section_type]. *)
Definition handle_all_binfmt_ver1_extensible_section (wasm_order : max_section_id_map_sec_id_t)
    (section_id : Z) (section_begin section_end sec_id_module_ptr : nat) : P max_section_id_map_sec_id_t :=
  let run (h : nat -> nat -> nat -> P unit) := h section_begin section_end sec_id_module_ptr;; mret wasm_order in
  if section_id =? 0 then handle_custom_section wasm_order section_begin section_end
  else if section_id =? 1 then run (handle_type_section bytes limit)
  else if section_id =? 2 then run (handle_import_section bytes limit wide)
  else if section_id =? 3 then run handle_function
  else if section_id =? 4 then run (handle_table_section bytes limit)
  else if section_id =? 5 then run (handle_memory_section bytes limit)
  else if section_id =? 6 then run (handle_global_section bytes limit)
  else if section_id =? 7 then run (handle_export_section bytes limit wide)
  else if section_id =? 8 then run (handle_start_section bytes)
  else if section_id =? 9 then run (handle_element_section bytes limit)
  else if section_id =? 10 then run (handle_code_section bytes limit)
  else if section_id =? 11 then run (handle_data_section bytes limit)
  else sm_throw (pinvalid sec_id_module_ptr wpec.illegal_section_id (psel_u8 section_id)).

(** The test of the order of a section that is not custom. *)
Definition next_order (max_order : max_section_id_map_sec_id_t) (sec_id : Z) : P max_section_id_map_sec_id_t :=
  curr ← sm_gets section_curr;
  if sec_id =? 0 then mret max_order
  else
    sm_when (sec_id <? max_section_id max_order)
      (sm_throw (pinvalid curr wpec.invalid_section_canonical_order
        (psel_u8arr sec_id (max_section_id_map_sec_id max_order))));;
    mret (MaxOrder sec_id sec_id).

(** The [do]-[while] loop; every iteration consumes the byte of an identifier. *)
Fixpoint sections_loop (fuel : nat) (max_order : max_section_id_map_sec_id_t) : P unit :=
  match fuel with
  | O => sm_fuel
  | S fuel =>
      let module_end := length bytes in
      sec_id_module_ptr ← sm_gets section_curr;
      sec_id ← sm_unchecked (bytes !! sec_id_module_ptr);
      max_order ← next_order max_order sec_id;
      move_to (S sec_id_module_ptr);;
      '(sec_len_next, sec_len) ← parse_u32 bytes module_end wpec.invalid_section_length;
      move_to sec_len_next;;
      sm_when (distance sec_len_next module_end <? sec_len)
        (sm_throw (pinvalid sec_len_next wpec.illegal_section_length (psel_u32 sec_len)));;
      let sec_end := (sec_len_next + Z.to_nat sec_len)%nat in
      max_order ← handle_all_binfmt_ver1_extensible_section max_order sec_id sec_len_next sec_end sec_id_module_ptr;
      move_to sec_end;;
      if (sec_end =? module_end)%nat then mret tt else sections_loop fuel max_order
  end.

(** [is_wasm_file_unchecked]: the first four bytes are [\0asm]. *)
Definition is_wasm_file_unchecked : bool := bool_decide (take 4 bytes = [0; 97; 115; 109]).

(** The module is the whole list, so that [module_begin] is not after [module_end]. *)
Definition wasm_binfmt_ver1_handle_func : P unit :=
  let module_end := length bytes in
  sm_when ((distance 0 module_end <? 8) || negb is_wasm_file_unchecked)
    (sm_throw (pinvalid 0 wpec.illegal_wasm_file_format psel_none));;
  move_to 8;;
  if (8 =? module_end)%nat then define_final_check module_end
  else sections_loop (S module_end) (MaxOrder 0 0);; define_final_check module_end.
End Binfmt.

(** The storage a module is parsed into. *)
Definition parse_module (limit : wasm1_parser_limit_t) (wide simd128 : bool) (digest : list Z -> nat)
    (bytes : list Z) : outcome perr (unit * pstate) :=
  wasm_binfmt_ver1_handle_func bytes limit wide simd128 digest (PState 0 empty_sections).
