(* ===== verification/ModuleSpec.v ===== *)
(** * Modules

    The binary grammar of a module of Release 1.0, with the conditions the parser tests
    (indices within their spaces, constant expressions of the right type, limits), and a
    reference parser that decides it. The contents of a section may depend on the sections
    before it, so that a section is a step from one module to a larger one. *)

From stdpp Require Import base list numbers strings.
From Stdlib Require Import ZArith Lia.
From S2P Require Import Prelude Leb128 WasmTypes ParserBase ParserSpec ParserRefine.
From S2P Require Import ExternTypes Names ImportSection TableMemorySections ConstExpr.
From S2P Require Import GlobalSection ExportSection StartSection SegmentSections Binfmt.
Open Scope Z_scope.

(** ** Abstract modules *)

Record wmodule := WModule {
  w_customs : list (list Z * list Z);
  w_types : list function_type;
  w_imports : list import;
  w_funcs : list Z;
  w_tables : list table_type;
  w_memories : list memory_type;
  w_globals : list (global_type * base_const_expr_opcode_t);
  w_exports : list export;
  w_start : option Z;
  w_elems : list elem_segment;
  w_codes : list (list local_entry * list Z);
  w_datas : list data_segment
}.

Definition empty_module : wmodule := WModule [] [] [] [] [] [] [] [] None [] [] [].

Section Setters.
Context (w : wmodule).
Definition add_custom v := WModule (w_customs w ++ [v]) (w_types w) (w_imports w) (w_funcs w) (w_tables w)
  (w_memories w) (w_globals w) (w_exports w) (w_start w) (w_elems w) (w_codes w) (w_datas w).
Definition with_types v := WModule (w_customs w) v (w_imports w) (w_funcs w) (w_tables w)
  (w_memories w) (w_globals w) (w_exports w) (w_start w) (w_elems w) (w_codes w) (w_datas w).
Definition with_imports v := WModule (w_customs w) (w_types w) v (w_funcs w) (w_tables w)
  (w_memories w) (w_globals w) (w_exports w) (w_start w) (w_elems w) (w_codes w) (w_datas w).
Definition with_funcs v := WModule (w_customs w) (w_types w) (w_imports w) v (w_tables w)
  (w_memories w) (w_globals w) (w_exports w) (w_start w) (w_elems w) (w_codes w) (w_datas w).
Definition with_tables v := WModule (w_customs w) (w_types w) (w_imports w) (w_funcs w) v
  (w_memories w) (w_globals w) (w_exports w) (w_start w) (w_elems w) (w_codes w) (w_datas w).
Definition with_memories v := WModule (w_customs w) (w_types w) (w_imports w) (w_funcs w) (w_tables w)
  v (w_globals w) (w_exports w) (w_start w) (w_elems w) (w_codes w) (w_datas w).
Definition with_globals v := WModule (w_customs w) (w_types w) (w_imports w) (w_funcs w) (w_tables w)
  (w_memories w) v (w_exports w) (w_start w) (w_elems w) (w_codes w) (w_datas w).
Definition with_exports v := WModule (w_customs w) (w_types w) (w_imports w) (w_funcs w) (w_tables w)
  (w_memories w) (w_globals w) v (w_start w) (w_elems w) (w_codes w) (w_datas w).
Definition with_start v := WModule (w_customs w) (w_types w) (w_imports w) (w_funcs w) (w_tables w)
  (w_memories w) (w_globals w) (w_exports w) (Some v) (w_elems w) (w_codes w) (w_datas w).
Definition with_elems v := WModule (w_customs w) (w_types w) (w_imports w) (w_funcs w) (w_tables w)
  (w_memories w) (w_globals w) (w_exports w) (w_start w) v (w_codes w) (w_datas w).
Definition with_codes v := WModule (w_customs w) (w_types w) (w_imports w) (w_funcs w) (w_tables w)
  (w_memories w) (w_globals w) (w_exports w) (w_start w) (w_elems w) v (w_datas w).
Definition with_datas v := WModule (w_customs w) (w_types w) (w_imports w) (w_funcs w) (w_tables w)
  (w_memories w) (w_globals w) (w_exports w) (w_start w) (w_elems w) (w_codes w) v.
End Setters.

(** ** Index spaces *)

(** The types of the imported functions and globals. *)
Definition import_function (ts : list function_type) (x : import) : option function_type :=
  i ← storage_function (import_desc x); ts !! i.
Definition import_global (x : import) : option global_type := storage_global (import_desc x).

Section Spaces.
Context (w : wmodule).
Definition imported_sigs : list function_type := omap (import_function (w_types w)) (of_kind import_kind 0 (w_imports w)).
Definition defined_sigs : list function_type := omap (fun ti => w_types w !! Z.to_nat ti) (w_funcs w).
Definition w_imported_globals : list global_type := omap import_global (of_kind import_kind 3 (w_imports w)).
Definition imported_count (k : nat) : Z := zlen (of_kind import_kind k (w_imports w)).

(** The size of the index space of a kind. *)
Definition w_size (type : external_types) : Z :=
  match type with
  | et_func => imported_count 0 + zlen (w_funcs w)
  | et_table => imported_count 1 + zlen (w_tables w)
  | et_memory => imported_count 2 + zlen (w_memories w)
  | et_global => imported_count 3 + zlen (w_globals w)
  | et_tag => 0
  end.

(** The number of parameters of the defined function [i]. *)
Definition w_param_count (i : nat) : option Z :=
  ti ← w_funcs w !! i; ft ← w_types w !! Z.to_nat ti; Some (zlen (parameter ft)).
End Spaces.

Section Spec.
Context (limit : wasm1_parser_limit_t).

(** ** The grammar *)

(** The contents of the section with an identifier, from one module to the next. *)
Inductive section_content (w : wmodule) : Z -> wmodule -> list Z -> Prop :=
| content_types v bs :
    zlen v <= max_type_sec_types limit -> vec functype v bs -> section_content w 1 (with_types w v) bs
| content_imports v bs :
    zlen v <= max_import_sec_imports limit -> vec (fun _ => import_bytes (zlen (w_types w))) v bs ->
    single_imports v = true -> section_content w 2 (with_imports w v) bs
| content_funcs v bs :
    zlen v <= index_limit (max_code_sec_codes limit) (imported_count w 0) ->
    vec (typeidx (zlen (w_types w))) v bs -> section_content w 3 (with_funcs w v) bs
| content_tables v bs :
    zlen v <= single_limit (max_table_sec_tables limit) (imported_count w 1) ->
    vec (fun _ => tabletype) v bs -> section_content w 4 (with_tables w v) bs
| content_memories v bs :
    zlen v <= single_limit (max_memory_sec_memories limit) (imported_count w 2) ->
    vec (fun _ => memtype) v bs -> section_content w 5 (with_memories w v) bs
| content_globals v bs :
    zlen v <= index_limit (max_global_sec_globals limit) (imported_count w 3) ->
    vec (fun _ => global_bytes (w_imported_globals w)) v bs -> section_content w 6 (with_globals w v) bs
| content_exports v bs :
    zlen v <= max_export_sec_exports limit -> vec (fun _ => export_bytes (w_size w)) v bs ->
    NoDup (map export_name v) -> section_content w 7 (with_exports w v) bs
| content_start v bs :
    start_bytes (imported_sigs w ++ defined_sigs w) v bs -> section_content w 8 (with_start w v) bs
| content_elems v bs :
    zlen v <= max_elem_sec_elems limit ->
    vec (fun _ => elem_bytes (w_imported_globals w) (w_size w et_func) (w_size w et_table)
      (max_elem_sec_funcidx limit)) v bs -> section_content w 9 (with_elems w v) bs
| content_codes v bs :
    zlen v = zlen (w_funcs w) -> zlen v <= max_code_sec_codes limit ->
    vec (code_entry (max_code_locals limit) (w_param_count w)) v bs -> section_content w 10 (with_codes w v) bs
| content_datas v bs :
    zlen v <= max_data_sec_entries limit ->
    vec (fun _ => data_bytes (w_imported_globals w) (w_size w et_memory)) v bs ->
    section_content w 11 (with_datas w v) bs.

(** The place a custom section leaves: the name section comes last. *)
Definition custom_place (n : list Z) (last : Z) : Z :=
  if bool_decide (n = name_string) then custom_name_order else last.

(** The sections of a module, in increasing order of their identifiers after [last], with
    custom sections anywhere but after the name section nothing but custom ones. *)
Inductive sections_bytes : Z -> wmodule -> wmodule -> list Z -> Prop :=
| sections_nil last w : sections_bytes last w w []
| sections_custom last w w' n nb payload sb bs :
    name n nb -> uN 32 sb (zlen (nb ++ payload)) ->
    sections_bytes (custom_place n last) (add_custom w (n, payload)) w' bs ->
    sections_bytes last w w' (0 :: sb ++ (nb ++ payload) ++ bs)
| sections_known last w w1 w' id sb content bs :
    last < id -> section_content w id w1 content -> uN 32 sb (zlen content) ->
    sections_bytes id w1 w' bs ->
    sections_bytes last w w' (id :: sb ++ content ++ bs).

(** A part of the sections of a module: the place and the module that it leaves. *)
Inductive sections_read : Z -> wmodule -> Z -> wmodule -> list Z -> Prop :=
| read_nil last w : sections_read last w last w []
| read_custom last w last' w' n nb payload sb bs :
    name n nb -> uN 32 sb (zlen (nb ++ payload)) ->
    sections_read (custom_place n last) (add_custom w (n, payload)) last' w' bs ->
    sections_read last w last' w' (0 :: sb ++ (nb ++ payload) ++ bs)
| read_known last w w1 last' w' id sb content bs :
    last < id -> section_content w id w1 content -> uN 32 sb (zlen content) ->
    sections_read id w1 last' w' bs ->
    sections_read last w last' w' (id :: sb ++ content ++ bs).

(** [module ::= magic version section*], with a body for every function. The four bytes of
    the version are not examined here. *)
Definition module_bytes (w : wmodule) (bs : list Z) : Prop :=
  exists version body, bs = [0; 97; 115; 109] ++ version ++ body /\ length version = 4%nat /\
    sections_bytes 0 empty_module w body /\ length (w_codes w) = length (w_funcs w).

(** ** The reference parser *)

Definition p_content (id : Z) (w : wmodule) (bs : list Z) : option wmodule :=
  if id =? 1 then with_types w <$> p_section (max_type_sec_types limit) p_functype bs
  else if id =? 2 then with_imports w <$> p_imports (max_import_sec_imports limit) (zlen (w_types w)) bs
  else if id =? 3 then with_funcs w <$>
    p_section (index_limit (max_code_sec_codes limit) (imported_count w 0)) (p_typeidx (zlen (w_types w))) bs
  else if id =? 4 then with_tables w <$>
    p_section (single_limit (max_table_sec_tables limit) (imported_count w 1)) (fun _ => p_tabletype) bs
  else if id =? 5 then with_memories w <$>
    p_section (single_limit (max_memory_sec_memories limit) (imported_count w 2)) (fun _ => p_memtype) bs
  else if id =? 6 then with_globals w <$>
    p_section (index_limit (max_global_sec_globals limit) (imported_count w 3))
      (fun _ => p_global (w_imported_globals w)) bs
  else if id =? 7 then with_exports w <$> p_exports (max_export_sec_exports limit) (w_size w) bs
  else if id =? 8 then with_start w <$> p_start (imported_sigs w ++ defined_sigs w) bs
  else if id =? 9 then with_elems w <$>
    p_section (max_elem_sec_elems limit) (fun _ => p_elem (w_imported_globals w) (w_size w et_func)
      (w_size w et_table) (max_elem_sec_funcidx limit)) bs
  else if id =? 10 then
    v ← p_section (max_code_sec_codes limit) (p_code (max_code_locals limit) (w_param_count w)) bs;
    if zlen v =? zlen (w_funcs w) then Some (with_codes w v) else None
  else if id =? 11 then with_datas w <$>
    p_section (max_data_sec_entries limit) (fun _ => p_data (w_imported_globals w) (w_size w et_memory)) bs
  else None.

(** One section: the place it leaves and the module. *)
Definition p_one (id last : Z) (w : wmodule) (content : list Z) : option (Z * wmodule) :=
  if id =? 0 then
    '(n, payload) ← p_name content; Some (custom_place n last, add_custom w (n, payload))
  else if last <? id then
    w' ← p_content id w content; Some (id, w')
  else None.

Fixpoint p_sections (fuel : nat) (last : Z) (w : wmodule) (bs : list Z) : option wmodule :=
  match bs, fuel with
  | [], _ => Some w
  | _, O => None
  | id :: bs, S fuel =>
      '(len, bs) ← p_u32 bs;
      '(content, bs) ← p_bytes len bs;
      '(last, w) ← p_one id last w content;
      p_sections fuel last w bs
  end.

Definition p_module (bs : list Z) : option wmodule :=
  if (length bs <? 8)%nat || negb (bool_decide (take 4 bs = [0; 97; 115; 109])) then None
  else
    w ← p_sections (length (drop 8 bs)) 0 empty_module (drop 8 bs);
    if (length (w_codes w) =? length (w_funcs w))%nat then Some w else None.

(** ** The parser decides the grammar *)

Definition small_types (w : wmodule) : Prop := Forall (fun ft => zlen (parameter ft) < 2 ^ 32) (w_types w).

Lemma small_param_count w i n : small_types w -> w_param_count w i = Some n -> 0 <= n < 2 ^ 32.
Proof.
  intros HF H. unfold w_param_count in H. option_inv.
  match goal with H : w_types w !! _ = Some _ |- _ => apply (Forall_lookup_1 _ _ _ _ HF) in H end.
  unfold zlen in *. lia.
Qed.

Lemma content_small w id w' bs : small_types w -> section_content w id w' bs -> small_types w'.
Proof.
  intros HF Hc. destruct Hc; try exact HF. unfold small_types. simpl. apply Forall_forall.
  intros ft (i & Hi)%list_elem_of_lookup. destruct (vec_lookup _ _ _ _ _ H0 Hi) as (b & _ & pb & rb & Hp & _).
  apply u32_bounds in Hp. lia.
Qed.

Lemma p_content_iff id w w' bs :
  Forall is_byte bs -> small_types w -> p_content id w bs = Some w' <-> section_content w id w' bs.
Proof.
  intros HF Hs.
  assert (Hpar : forall i n, w_param_count w i = Some n -> 0 <= n < 2 ^ 32) by eauto using small_param_count.
  pose proof (fun l => p_section_iff l p_functype functype p_functype_parser functype_nonempty bs) as H1.
  pose proof (p_imports_iff (max_import_sec_imports limit) (zlen (w_types w)) bs) as H2.
  pose proof (fun l => p_section_iff l _ (typeidx (zlen (w_types w))) (p_typeidx_parser _) (typeidx_nonempty _) bs) as H3.
  pose proof (fun l => p_section_iff l (fun _ => p_tabletype) (fun _ => tabletype) (fun _ => _)
    (fun _ x => tabletype_nonempty x) bs) as H4.
  pose proof (fun l => p_section_iff l (fun _ => p_memtype) (fun _ => memtype) (fun _ => _)
    (fun _ x => memtype_nonempty x) bs) as H5.
  pose proof (fun l => p_section_iff l (fun _ => p_global (w_imported_globals w)) (fun _ => global_bytes _)
    (fun _ => _) (fun _ x => global_nonempty _ x) bs) as H6.
  pose proof (p_exports_iff (max_export_sec_exports limit) (w_size w) bs) as H7.
  pose proof (p_start_iff (imported_sigs w ++ defined_sigs w) bs) as H8.
  pose proof (fun l => p_section_iff l (fun _ => p_elem (w_imported_globals w) (w_size w et_func)
    (w_size w et_table) (max_elem_sec_funcidx limit)) (fun _ => elem_bytes _ _ _ _)
    (fun _ => _) (fun _ x => elem_nonempty _ _ _ _ x) bs) as H9.
  pose proof (fun l => p_section_iff l _ (code_entry (max_code_locals limit) (w_param_count w))
    (p_code_parser _ _ Hpar) (code_entry_nonempty _ _) bs) as H10.
  pose proof (fun l => p_section_iff l (fun _ => p_data (w_imported_globals w) (w_size w et_memory))
    (fun _ => data_bytes _ _) (fun _ => _) (fun _ x => data_nonempty _ _ x) bs) as H11.
  split.
  - unfold p_content. intros H.
    repeat match type of H with
    | (if ?a =? ?b then _ else _) = _ => destruct (Z.eqb_spec a b) as [-> | _]
    end; try (apply fmap_Some in H as (v & H & ->)); [..| done].
    10: { apply bind_Some in H as (v & H & Hv). destruct (Z.eqb_spec (zlen v) (zlen (w_funcs w))); [| done].
          injection Hv as <-. apply H10 in H as [? ?]; [by constructor | done]. }
    all: first [apply H1 in H | apply H2 in H | apply H3 in H | apply H4 in H | apply H5 in H | apply H6 in H
      | apply H7 in H | apply H8 in H | apply H9 in H | apply H11 in H]; [| done].
    all: try destruct H as (? & ?); destruct_and?; by constructor.
  - intros Hc. unfold p_content. destruct Hc; cbn [Z.eqb Pos.eqb].
    10: { rewrite (proj2 (H10 _ v HF)) by done. simpl. by rewrite (proj2 (Z.eqb_eq _ _)). }
    all: first [rewrite (proj2 (H1 _ v HF)) | rewrite (proj2 (H2 v HF)) | rewrite (proj2 (H3 _ v HF))
      | rewrite (proj2 (H4 _ v HF)) | rewrite (proj2 (H5 _ v HF)) | rewrite (proj2 (H6 _ v HF))
      | rewrite (proj2 (H7 v HF)) | rewrite (proj2 (H8 v HF)) | rewrite (proj2 (H9 _ v HF))
      | rewrite (proj2 (H11 _ v HF))]; done.
Qed.

(** The rest of a section after its identifier. *)
Lemma p_framed {B} (k : list Z -> list Z -> option B) bs y :
  Forall is_byte bs ->
  ('(len, bs) ← p_u32 bs; '(content, bs) ← p_bytes len bs; k content bs) = Some y <->
  exists sb content rest, bs = sb ++ content ++ rest /\ uN 32 sb (zlen content) /\ k content rest = Some y.
Proof.
  intros HF. split.
  - intros Hk. p_inv Hk as (n & sb & r & -> & Hn & Hk). p_inv Hk as (c & ? & r' & -> & [-> Hl] & Hk).
    apply counted_length in Hl; [| apply u32_bounds in Hn; lia]. subst n. by exists sb, c, r'.
  - intros (sb & c & rest & -> & Hn & Hk). p_run p_u32. p_run (p_bytes (zlen c)). done.
Qed.

Lemma p_framed_none {B} (k : list Z -> list Z -> option B) bs :
  (forall content rest, k content rest = None) ->
  ('(len, bs) ← p_u32 bs; '(content, bs) ← p_bytes len bs; k content bs) = None.
Proof.
  intros Hk. destruct (p_u32 bs) as [[n r] |]; simpl; [| done]. destruct (p_bytes n r) as [[c r'] |]; simpl; done.
Qed.

Lemma sections_inv last w w' bs :
  sections_bytes last w w' bs ->
  match bs with
  | [] => w' = w
  | id :: bs => exists sb content rest last1 w1, bs = sb ++ content ++ rest /\ uN 32 sb (zlen content) /\
      sections_bytes last1 w1 w' rest /\
      ((id = 0 /\ exists n nb payload, content = nb ++ payload /\ name n nb /\
          last1 = custom_place n last /\ w1 = add_custom w (n, payload)) \/
       (last < id /\ section_content w id w1 content /\ last1 = id))
  end.
Proof.
  destruct 1; [done | |].
  - eexists sb, (nb ++ payload), bs, _, _. split_and!; [done.. |]. left. split; [done |]. by exists n, nb, payload.
  - eexists sb, content, bs, _, _. split_and!; [done.. |]. by right.
Qed.

Lemma content_id w id w' bs : section_content w id w' bs -> 1 <= id <= 11.
Proof. destruct 1; lia. Qed.

Lemma p_one_iff id last w content last' w' :
  Forall is_byte content -> small_types w ->
  p_one id last w content = Some (last', w') <->
  (id = 0 /\ exists n nb payload, content = nb ++ payload /\ name n nb /\
     last' = custom_place n last /\ w' = add_custom w (n, payload)) \/
  (last < id /\ section_content w id w' content /\ last' = id).
Proof.
  intros HF Hs. unfold p_one. destruct (Z.eqb_spec id 0) as [-> | Hid].
  - split.
    + intros Hk. p_inv Hk as (n & nb & payload & -> & Hn & [= <- <-]). left. split; [done |]. by exists n, nb, payload.
    + intros [(_ & n & nb & payload & -> & Hn & -> & ->) | (_ & Hc & _)].
      * by p_run p_name.
      * apply content_id in Hc. lia.
  - split.
    + destruct (Z.ltb_spec last id); [| done]. intros (w1 & Hc & [= <- <-])%bind_Some.
      apply p_content_iff in Hc; [| done..]. by right.
    + intros [[? _] | (Hlt & Hc & ->)]; [done |]. rewrite (proj2 (Z.ltb_lt _ _)) by done.
      apply p_content_iff in Hc as ->; [done.. | done].
Qed.

Lemma p_sections_iff fuel last w w' bs :
  Forall is_byte bs -> small_types w -> (length bs <= fuel)%nat ->
  p_sections fuel last w bs = Some w' <-> sections_bytes last w w' bs.
Proof.
  revert last w bs. induction fuel as [| fuel IH]; intros last w [| id bs] HF Hs Hl; simpl in *; try lia.
  1, 2: split; [intros [= <-]; constructor | intros H; by apply sections_inv in H as ->].
  apply Forall_cons in HF as [Hid HF].
  rewrite (p_framed (fun content bs => '(last, w) ← p_one id last w content; p_sections fuel last w bs)) by exact HF.
  assert (Hrest : forall sb content rest, bs = sb ++ content ++ rest ->
    Forall is_byte content /\ Forall is_byte rest /\ (length rest <= fuel)%nat).
  { intros sb c rest ->. rewrite !length_app in Hl. rewrite !Forall_app in HF. split_and!; [tauto.. | lia]. }
  assert (Hsmall : forall last1 w1 content, Forall is_byte content -> p_one id last w content = Some (last1, w1) -> small_types w1).
  { intros last1 w1 content Hb H. apply p_one_iff in H as [(_ & n & nb & payload & _ & _ & _ & ->) | (_ & Hc & _)];
      [done | by eapply content_small | done..]. }
  split.
  - intros (sb & content & rest & Hb & Hn & Hk). destruct (Hrest _ _ _ Hb) as (Hc & Hr & Hlr).
    apply bind_Some in Hk as ([last1 w1] & Ho & Hk). pose proof (Hsmall _ _ _ Hc Ho) as Hs1.
    apply IH in Hk; [| done..]. rewrite Hb.
    apply p_one_iff in Ho as [(-> & n & nb & payload & -> & Hnm & -> & ->) | (Hlt & Hsc & ->)]; [| | done..].
    + by apply (sections_custom _ _ _ n).
    + by eapply sections_known.
  - intros H. apply sections_inv in H as (sb & content & rest & last1 & w1 & Hb & Hn & Hk & Ho).
    destruct (Hrest _ _ _ Hb) as (Hc & Hr & Hlr). exists sb, content, rest. split; [done |]. split; [done |].
    apply p_one_iff in Ho; [| done..]. rewrite Ho. simpl. apply IH; [done | exact (Hsmall _ _ _ Hc Ho) | done | done].
Qed.

Lemma p_module_iff w bs : Forall is_byte bs -> p_module bs = Some w <-> module_bytes w bs.
Proof.
  intros HF. unfold p_module, module_bytes.
  assert (Hd : Forall is_byte (drop 8 bs)) by (by apply Forall_drop).
  assert (Hs : small_types empty_module) by constructor.
  split.
  - destruct (Nat.ltb_spec (length bs) 8); simpl; [done |]. case_bool_decide as Hm; simpl; [| done].
    intros (w1 & Hp & Hk)%bind_Some. destruct (Nat.eqb_spec (length (w_codes w1)) (length (w_funcs w1))); [| done].
    injection Hk as <-. apply p_sections_iff in Hp; [| done..].
    exists (take 4 (drop 4 bs)), (drop 8 bs). split; [| split; [rewrite length_take, length_drop; lia | done]].
    rewrite <- (take_drop 4 bs) at 1. rewrite Hm. f_equal. rewrite <- (take_drop 4 (drop 4 bs)) at 1.
    by rewrite drop_drop.
  - intros (version & body & -> & Hv & Hb & Hl). rewrite !length_app, Hv.
    rewrite (proj2 (Nat.ltb_ge _ 8)) by (simpl; lia). rewrite bool_decide_eq_true_2 by done. simpl negb. cbv iota.
    assert (Hdrop : drop 8 ([0; 97; 115; 109] ++ version ++ body) = body).
    { destruct version as [| ? [| ? [| ? [| ? [|]]]]]; done. }
    rewrite Hdrop in *. cbn [orb]. apply (p_sections_iff (length body)) in Hb as ->; [| done.. | lia]. simpl.
    by rewrite (proj2 (Nat.eqb_eq _ _)).
Qed.
End Spec.
