(* ===== verification/ModuleWf.v ===== *)
(** * Well-formed modules

    What the grammar of [ModuleSpec] guarantees of the module it derives: every index is in
    its space, every function has a type and at most 2^32 - 1 locals, the index spaces
    are below 2^32. [wf last w] is the invariant along the sections, after the section
    [last]; the sections after [last] are empty. It gives the [module_ok] the code
    validator assumes. *)

From stdpp Require Import base list numbers strings.
From Stdlib Require Import ZArith Lia.
From S2P Require Import Prelude Leb128 WasmTypes ModuleInterface ParserBase ParserSpec ParserRefine.
From S2P Require Import ExternTypes Names ImportSection TableMemorySections ConstExpr.
From S2P Require Import GlobalSection ExportSection StartSection SegmentSections Binfmt ModuleSpec.
Open Scope Z_scope.

(** A declaration of locals that fits beside the parameters of its function. *)
Definition locals_fit (w : wmodule) (i : nat) (c : list local_entry * list Z) : Prop :=
  Forall (fun e => 0 <= count e) c.1 /\
  exists n, w_param_count w i = Some n /\ n + local_total c.1 < 2 ^ 32.

Definition import_in_types (w : wmodule) (x : import) : Prop :=
  forall k, import_desc x = ext_func k -> (k < length (w_types w))%nat.

Record wf (last : Z) (w : wmodule) : Prop := Wf {
  wf_types : Forall (fun ft => zlen (parameter ft) < 2 ^ 32 /\ (length (result ft) <= 1)%nat) (w_types w);
  wf_type_count : zlen (w_types w) < 2 ^ 32;
  wf_no_imports : last < 2 -> w_imports w = [];
  wf_import_types : Forall (import_in_types w) (w_imports w);
  wf_import_count : zlen (w_imports w) < 2 ^ 32;
  wf_single : single_imports (w_imports w) = true;
  wf_no_funcs : last < 3 -> w_funcs w = [];
  wf_funcs : Forall (fun ti => 0 <= ti < zlen (w_types w)) (w_funcs w);
  wf_func_count : imported_count w 0 + zlen (w_funcs w) < 2 ^ 32;
  wf_no_tables : last < 4 -> w_tables w = [];
  wf_table_count : imported_count w 1 + zlen (w_tables w) <= 1;
  wf_no_memories : last < 5 -> w_memories w = [];
  wf_memory_count : imported_count w 2 + zlen (w_memories w) <= 1;
  wf_no_globals : last < 6 -> w_globals w = [];
  wf_global_count : imported_count w 3 + zlen (w_globals w) < 2 ^ 32;
  wf_no_exports : last < 7 -> w_exports w = [];
  wf_exports : Forall (fun x => 0 <= export_index x < w_size w (export_kind x)) (w_exports w);
  wf_no_start : last < 8 -> w_start w = None;
  wf_start x : w_start w = Some x ->
    0 <= x /\ (imported_sigs w ++ defined_sigs w) !! Z.to_nat x = Some (FunctionType [] []);
  wf_no_elems : last < 9 -> w_elems w = [];
  wf_elems : Forall (fun x => 0 <= elem_table x < w_size w et_table /\
    Forall (fun f => 0 <= f < w_size w et_func) (elem_init x)) (w_elems w);
  wf_no_codes : last < 10 -> w_codes w = [];
  wf_code_count : zlen (w_codes w) < 2 ^ 32;
  wf_codes i c : w_codes w !! i = Some c -> locals_fit w i c;
  wf_no_datas : last < 11 -> w_datas w = [];
  wf_datas : Forall (fun x => 0 <= data_memory x < w_size w et_memory) (w_datas w)
}.

(** ** From the grammar of entries *)

Lemma vec_Forall {A} (g : nat -> A -> list Z -> Prop) (Q : A -> Prop) xs bs :
  vec g xs bs -> (forall i x b, g i x b -> Q x) -> Forall Q xs.
Proof.
  intros Hv HQ. apply Forall_forall. intros x (i & Hi)%list_elem_of_lookup.
  destruct (vec_lookup _ _ _ _ _ Hv Hi) as (b & Hb). eauto.
Qed.

Lemma index_below_range size x b : index_below size x b -> 0 <= x < size.
Proof. intros [Hlt Hu]. apply u32_bounds in Hu. lia. Qed.

Lemma import_bytes_types tc w x b :
  tc = zlen (w_types w) -> import_bytes tc x b -> import_in_types w x.
Proof.
  intros -> (mb & nb & db & _ & _ & _ & Hd) k Hk. destruct Hd as [x' xb Hlt Hu | | |]; try done.
  injection Hk as <-. apply u32_bounds in Hu. unfold zlen in Hlt. lia.
Qed.

Lemma elem_bytes_range gs f t m x b :
  elem_bytes gs f t m x b -> 0 <= elem_table x < t /\ Forall (fun i => 0 <= i < f) (elem_init x).
Proof.
  intros (tb & eb & fb & _ & Ht & _ & _ & Hv). split; [by eapply index_below_range |].
  eapply vec_Forall; [exact Hv |]. intros ? y c Hy. exact (index_below_range _ _ _ Hy).
Qed.

Lemma code_entry_fit max w i c b :
  code_entry max (w_param_count w) i c b -> locals_fit w i c.
Proof.
  intros (sb & lb & n & Hpc & Hsum & _ & _ & _ & Hv & _). split; [| by exists n].
  eapply vec_Forall; [exact Hv |]. intros ? e b' (cb & Hc & _). apply u32_bounds in Hc. lia.
Qed.

Lemma single_counts xs :
  single_imports xs = true ->
  zlen (of_kind import_kind 1 xs) <= 1 /\ zlen (of_kind import_kind 2 xs) <= 1.
Proof. unfold single_imports, zlen. rewrite andb_true_iff, !Nat.leb_le. lia. Qed.

Lemma of_kind_zlen {X} (kind : X -> nat) k xs : 0 <= zlen (of_kind kind k xs) <= zlen xs.
Proof. unfold zlen. pose proof (of_kind_length kind k xs). lia. Qed.

(** ** The sections preserve it *)

Lemma wf_empty : wf 0 empty_module.
Proof. constructor; try done; try constructor. Qed.

Lemma code_entry_ext max pc pc' i c b :
  (forall i, pc i = pc' i) -> code_entry max pc i c b -> code_entry max pc' i c b.
Proof. intros He (sb & lb & n & Hpc & H). exists sb, lb, n. by rewrite <- He. Qed.

(** The fields a section leaves alone, and those of sections not yet read. *)
Ltac wf_fresh :=
  match goal with
  | E : _ -> ?X = [] |- _ -> ?X = [] => intros _; apply E; lia
  | E : _ -> ?X = None |- _ -> ?X = None => intros _; apply E; lia
  | E : _ -> ?X = None |- forall x, ?X = Some x -> _ => rewrite E by lia; done
  | E : _ -> ?X = [] |- Forall _ ?X => rewrite E by lia; constructor
  | E : _ -> ?X = [] |- forall i c, ?X !! i = Some c -> _ => rewrite E by lia; done
  end.
Ltac wf_keep H := destruct H; constructor; simpl; try assumption; try done; try lia; try wf_fresh.

Section Preserve.
Context (limit : wasm1_parser_limit_t) (last : Z) (w : wmodule) (Hwf : wf last w).

Lemma wf_section id w' bs : last < id -> section_content limit w id w' bs -> wf id w'.
Proof using Hwf.
  intros Hlast Hc. pose proof Hwf as Hw. destruct Hc as
    [v bs Hl Hv | v bs Hl Hv Hsi | v bs Hl Hv | v bs Hl Hv | v bs Hl Hv | v bs Hl Hv | v bs Hl Hv Hnd
    | v bs Hv | v bs Hl Hv | v bs Heq Hl Hv | v bs Hl Hv]; try pose proof (vec_length _ _ _ Hv) as Hlen.
  all: wf_keep Hw.
  - eapply vec_Forall; [exact Hv |]. intros i ft b (Hr & pb & rb & Hp & _). apply u32_bounds in Hp. lia.
  - eapply vec_Forall; [exact Hv |]. intros i x b Hx. by eapply import_bytes_types in Hx.
  - rewrite wf_no_funcs0 by lia. pose proof (of_kind_zlen import_kind 0 v). unfold imported_count, zlen in *. simpl. lia.
  - rewrite wf_no_tables0 by lia. apply single_counts in Hsi. unfold imported_count, zlen in *. simpl. lia.
  - rewrite wf_no_memories0 by lia. apply single_counts in Hsi. unfold imported_count, zlen in *. simpl. lia.
  - rewrite wf_no_globals0 by lia. pose proof (of_kind_zlen import_kind 3 v). unfold imported_count, zlen in *. simpl. lia.
  - eapply vec_Forall; [exact Hv |]. intros i x b [Hlt Hu]. apply u32_bounds in Hu. lia.
  - unfold index_limit in Hl. change (imported_count (with_funcs w v)) with (imported_count w). lia.
  - unfold single_limit in Hl. change (imported_count (with_tables w v)) with (imported_count w). lia.
  - unfold single_limit in Hl. change (imported_count (with_memories w v)) with (imported_count w). lia.
  - unfold index_limit in Hl. change (imported_count (with_globals w v)) with (imported_count w). lia.
  - eapply vec_Forall; [exact Hv |]. intros i x b (nb & xb & _ & _ & _ & Hu & Hlt).
    apply u32_bounds in Hu. split; [lia | exact Hlt].
  - intros y [= <-]. destruct Hv as [Hu Hsig]. apply u32_bounds in Hu. split; [lia | exact Hsig].
  - eapply vec_Forall; [exact Hv |]. intros i x b Hx. exact (elem_bytes_range _ _ _ _ _ _ Hx).
  - intros i c Hi. destruct (vec_lookup _ _ _ _ _ Hv Hi) as (b & Hb). exact (code_entry_fit _ w i c b Hb).
  - eapply vec_Forall; [exact Hv |]. intros i x b (mb & eb & cb & _ & Hi & _). exact (index_below_range _ _ _ Hi).
Qed.
End Preserve.

Lemma wf_custom last w n payload : wf last w -> wf (custom_place n last) (add_custom w (n, payload)).
Proof.
  intros Hw. assert (last <= custom_place n last \/ custom_place n last = 12) as Hle.
  { unfold custom_place. case_bool_decide; [by right | left; lia]. }
  wf_keep Hw; intros ?; match goal with E : _ -> ?X = _ |- ?X = _ => apply E; lia end.
Qed.

Lemma wf_sections limit last w w' bs :
  sections_bytes limit last w w' bs -> wf last w -> exists last', wf last' w'.
Proof.
  induction 1 as [last w | last w w' n nb payload sb bs Hn Hsb _ IH | last w w1 w' id sb content bs Hlt Hc Hsb _ IH];
    intros Hw; [by exists last | |].
  - apply IH. by apply wf_custom.
  - apply IH. by eapply wf_section.
Qed.

Lemma wf_module limit w bs : module_bytes limit w bs -> exists last, wf last w /\ length (w_codes w) = length (w_funcs w).
Proof.
  intros (version & body & _ & _ & Hs & Hl). destruct (wf_sections _ _ _ _ _ Hs wf_empty) as (last & Hw). eauto.
Qed.

(** ** The module the code validator reads *)

Definition validator_module (w : wmodule) : module_storage :=
  {| imported_funcs := imported_sigs w;
     imported_tables := length (of_kind import_kind 1 (w_imports w));
     imported_memories := length (of_kind import_kind 2 (w_imports w));
     imported_globals := w_imported_globals w;
     types := w_types w; funcs := w_funcs w;
     tables := length (w_tables w); memories := length (w_memories w);
     local_globals := map fst (w_globals w); codes := map fst (w_codes w) |}.

Lemma omap_zlen {A B} (f : A -> option B) l : zlen (omap f l) <= zlen l.
Proof.
  unfold zlen. induction l as [| x l IH]; [done |]. simpl. change (list_omap A B f l) with (omap f l).
  destruct (f x); cbn [length]; lia.
Qed.

Lemma wf_module_ok last w :
  wf last w -> length (w_codes w) = length (w_funcs w) -> module_ok (validator_module w) = true.
Proof.
  intros [] Hl. unfold module_ok. simpl. rewrite !andb_true_iff, !Z.ltb_lt, Nat.eqb_eq, !forallb_Forall.
  split_and!.
  - eapply Forall_impl; [exact wf_types0 |]. intros ft [Hp Hr]. unfold type_ok.
    rewrite andb_true_iff, Nat.leb_le, Z.ltb_lt. done.
  - eapply Forall_impl; [exact wf_funcs0 |]. intros ti Hti. simpl in *. lia.
  - by rewrite length_map.
  - apply Forall_forall. intros [ti ls] (i & Hi)%list_elem_of_lookup.
    apply lookup_zip_with_Some in Hi as (ti' & ls' & [= <- <-] & Hti & Hls).
    apply list_lookup_fmap_Some in Hls as (c & -> & Hc). destruct (wf_codes0 i c Hc) as (Hn & n & Hpc & Hsum).
    unfold w_param_count in Hpc. rewrite Hti in Hpc. simpl in Hpc. apply bind_Some in Hpc as (ft & Hft & [= <-]).
    unfold code_ok. simpl. rewrite Hft, andb_true_iff, Z.ltb_lt, forallb_Forall. split; [| exact Hsum].
    eapply Forall_impl; [exact Hn |]. intros e He. simpl in *. lia.
  - pose proof (omap_zlen import_global (of_kind import_kind 3 (w_imports w))).
    unfold imported_count, w_imported_globals, zlen in *. rewrite length_map. lia.
  - unfold imported_count, zlen in *. lia.
  - unfold imported_count, zlen in *. lia.
Qed.
