(* ===== verification/ModuleRefine.v ===== *)
(** * The parser computes the module

    [rep last x w]: the storage [x] represents the module [w] after the section [last].
    Every section handler, run on the contents of its section, leaves a storage that
    represents the module the reference parser of [ModuleSpec] gives, or throws when the
    reference parser fails; so does the loop of the driver, and the whole parser. *)

From stdpp Require Import base list numbers strings.
From Stdlib Require Import ZArith Lia.
From S2P Require Import Prelude Leb128 WasmTypes ParserBase ParserSpec ParserRefine.
From S2P Require Import TypeSection ExternTypes Names ImportSection FunctionSection.
From S2P Require Import TableMemorySections ConstExpr GlobalSection ExportSection StartSection.
From S2P Require Import SegmentSections CodeSection ModuleParser OrderTable Binfmt ModuleSpec ModuleWf.
Open Scope Z_scope.

(** The span of a section that is not custom. *)
Definition section_span (id : Z) (x : sections) : sec_span_t :=
  if id =? 1 then typesec_span x
  else if id =? 2 then importsec_span (importsec (others x))
  else if id =? 3 then funcsec_span x
  else if id =? 4 then tablesec_span (tablesec (others x))
  else if id =? 5 then memorysec_span (memorysec (others x))
  else if id =? 6 then globalsec_span (globalsec (others x))
  else if id =? 7 then exportsec_span (exportsec (others x))
  else if id =? 8 then startsec_span (startsec (others x))
  else if id =? 9 then elemsec_span (elemsec (others x))
  else if id =? 10 then codesec_span x
  else if id =? 11 then datasec_span (datasec (others x))
  else None.

(** The storage of the sections after [last] is as it was constructed. *)
Record fresh (last : Z) (x : sections) : Prop := Fresh {
  fresh_span id : last < id -> section_span id x = None;
  fresh_types : last < 1 -> typesec_types x = [];
  fresh_imports : last < 2 -> get_imports x = [];
  fresh_funcs : last < 3 -> funcsec_funcs x = vt_null;
  fresh_tables : last < 4 -> get_tables x = [];
  fresh_memories : last < 5 -> get_memories x = [];
  fresh_globals : last < 6 -> get_globals x = [];
  fresh_exports : last < 7 -> get_exports x = [];
  fresh_elems : last < 9 -> get_elems x = [];
  fresh_codes : last < 10 -> codesec_codes x = [];
  fresh_datas : last < 11 -> get_datas x = []
}.

(** A stored custom section and its name and contents. *)
Definition stored_custom (bytes : list Z) (y : custom_section) (c : list Z * list Z) : Prop :=
  view_bytes bytes (cs_custom_name y) = c.1 /\ slice bytes (cs_custom_begin y) (cs_sec_end y) = c.2.

Record rep (bytes : list Z) (last : Z) (x : sections) (w : wmodule) : Prop := Rep {
  rep_fresh : fresh last x;
  rep_seen : 1 <= last <= 11 -> is_Some (section_span last x);
  rep_types : mapM (decode_function_type bytes) (typesec_types x) = Some (w_types w);
  rep_ranges : Forall (type_ranges bytes) (typesec_types x);
  rep_imports : map (decode_import bytes) (get_imports x) = w_imports w;
  rep_importdesc : importdesc (importsec (others x)) = import_indices (get_imports x);
  rep_funcs : vt_contents bytes (funcsec_funcs x) = w_funcs w;
  rep_func_size : vt_size (funcsec_funcs x) = length (w_funcs w);
  rep_tables : get_tables x = w_tables w;
  rep_memories : get_memories x = w_memories w;
  rep_globals : Forall2 stored_global (get_globals x) (w_globals w);
  rep_exports : map (decode_export bytes) (get_exports x) = w_exports w;
  rep_exportdesc : exportdesc (exportsec (others x)) = export_indices (get_exports x);
  rep_start : w_start w = (fun _ => start_idx (startsec (others x))) <$> startsec_span (startsec (others x));
  rep_elems : Forall2 stored_elem (get_elems x) (w_elems w);
  rep_codes : Forall2 (stored_code bytes) (codesec_codes x) (w_codes w);
  rep_datas : Forall2 (stored_data bytes) (get_datas x) (w_datas w);
  rep_customs : Forall2 (stored_custom bytes) (customs (others x)) (w_customs w)
}.

Lemma rep_empty bytes : rep bytes 0 empty_sections empty_module.
Proof.
  constructor; try done; [| lia].
  constructor; try done. intros id _. unfold section_span. by repeat case_match.
Qed.

(** ** Index spaces *)

Lemma Forall2_omap {A B C} (R : A -> B -> Prop) (f : B -> option C) ids l :
  Forall2 R ids l -> (forall y, y ∈ l -> is_Some (f y)) ->
  Forall2 (fun i z => exists y, R i y /\ f y = Some z) ids (omap f l).
Proof.
  induction 1 as [| i y ids l HR _ IH]; intros Hf; simpl; [constructor |].
  destruct (Hf y ltac:(by left)) as [z Hz]. rewrite Hz. constructor; [by exists y |].
  apply IH. intros y' Hy. apply Hf. by right.
Qed.

Lemma omap_total_length {A B} (f : A -> option B) l :
  (forall y, y ∈ l -> is_Some (f y)) -> length (omap f l) = length l.
Proof.
  intros Hf. symmetry. eapply (Forall2_length (fun i z => exists y, i = y /\ f y = Some z)).
  apply Forall2_omap; [| done]. clear Hf. induction l; by constructor.
Qed.

Lemma of_kind_elem {X} (kind : X -> nat) k xs x : x ∈ of_kind kind k xs -> kind x = k /\ x ∈ xs.
Proof. unfold of_kind. by rewrite list_elem_of_filter. Qed.

Section Spaces.
Context (bytes : list Z) (last : Z) (x : sections) (w : wmodule).
Context (Hrep : rep bytes last x w) (Hwf : wf last w).

Lemma importdesc_zlen c k : (k < importdesc_count)%nat -> zlen (importdesc_at k (PState c x)) = imported_count w k.
Proof using Hrep.
  intros Hk. unfold importdesc_at. simpl. rewrite (rep_importdesc _ _ _ _ Hrep), (importdesc_size bytes) by done.
  by rewrite (rep_imports _ _ _ _ Hrep).
Qed.

(** The imports [importdesc] lists for a kind. *)
Lemma importdesc_imports k :
  (k < importdesc_count)%nat ->
  Forall2 (leads_to bytes x) (importdesc_at k (PState 0 x)) (of_kind import_kind k (w_imports w)).
Proof using Hrep.
  intros Hk. rewrite <- (rep_imports _ _ _ _ Hrep).
  apply importdesc_leads; [done | apply (rep_importdesc _ _ _ _ Hrep)].
Qed.

Lemma import_global_total imp : imp ∈ of_kind import_kind 3 (w_imports w) -> is_Some (import_global imp).
Proof. intros [Hk _]%of_kind_elem. unfold import_global, import_kind in *. destruct (import_desc imp); done. Qed.

Lemma imported_globals_count : zlen (w_imported_globals w) = imported_count w 3.
Proof. unfold w_imported_globals, imported_count, zlen. rewrite omap_total_length; [done | apply import_global_total]. Qed.

Lemma rep_globals_space : globals_space x (w_imported_globals w).
Proof using Hrep Hwf.
  split.
  - eapply Forall2_impl; [apply Forall2_omap; [apply (importdesc_imports 3); unfold importdesc_count; lia |] |].
    + apply import_global_total.
    + intros i g (imp & (fit & Hfit & <-) & Hg). exists fit. split; [done |].
      unfold import_global in Hg. simpl in Hg. destruct (fit_imports fit); try done. by injection Hg as ->.
  - rewrite imported_globals_count. pose proof (wf_global_count _ _ Hwf). unfold zlen in *. lia.
Qed.

Lemma import_function_total imp :
  imp ∈ of_kind import_kind 0 (w_imports w) -> is_Some (import_function (w_types w) imp).
Proof using Hwf.
  intros [Hk Hin]%of_kind_elem. pose proof (wf_import_types _ _ Hwf) as HF. rewrite Forall_forall in HF.
  specialize (HF imp Hin). unfold import_function, import_kind, import_in_types in *.
  destruct (import_desc imp) as [i | | |]; try done. simpl. by apply lookup_lt_is_Some_2, HF.
Qed.

Lemma imported_sigs_count : zlen (imported_sigs w) = imported_count w 0.
Proof using Hwf. unfold imported_sigs, imported_count, zlen. rewrite omap_total_length; [done | apply import_function_total]. Qed.

Lemma defined_sig_total ti : ti ∈ w_funcs w -> is_Some (w_types w !! Z.to_nat ti).
Proof using Hwf.
  pose proof (wf_funcs _ _ Hwf) as HF. rewrite Forall_forall in HF. intros Hin. specialize (HF ti Hin). simpl in HF.
  apply lookup_lt_is_Some_2. unfold zlen in HF. lia.
Qed.

Lemma stored_type k ft :
  w_types w !! k = Some ft ->
  exists fft, typesec_types x !! k = Some fft /\ decode_function_type bytes fft = Some ft.
Proof using Hrep.
  intros Hk. pose proof (rep_types _ _ _ _ Hrep) as Hm. apply mapM_Some in Hm.
  destruct (Forall2_lookup_r _ _ _ _ _ Hm Hk) as (fft & ? & ?). eauto.
Qed.

Lemma rep_func_space : func_space bytes x (imported_sigs w) (defined_sigs w).
Proof using Hrep Hwf.
  assert (Hdef : length (defined_sigs w) = length (w_funcs w)) by (apply omap_total_length, defined_sig_total).
  constructor.
  - eapply Forall2_impl; [apply Forall2_omap; [apply (importdesc_imports 0); unfold importdesc_count; lia |] |].
    + apply import_function_total.
    + intros i ft (imp & (fit & Hfit & <-) & Hft). unfold import_function in Hft. simpl in Hft.
      apply bind_Some in Hft as (k & Hk & Hft). destruct (stored_type k ft Hft) as (fft & ? & ?).
      exists fit, k, fft. split_and!; try done. destruct (fit_imports fit); try done. by injection Hk as ->.
  - eapply Forall2_impl; [apply (Forall2_omap eq) |].
    + rewrite (rep_funcs _ _ _ _ Hrep). by apply Forall_Forall2_diag, Forall_true.
    + apply defined_sig_total.
    + intros ti ft (? & <- & Hft). by apply stored_type.
  - by rewrite (rep_func_size _ _ _ _ Hrep).
  - apply (rep_ranges _ _ _ _ Hrep).
  - intros fft ft (k & Hk)%list_elem_of_lookup Hd. pose proof (rep_types _ _ _ _ Hrep) as Hm. apply mapM_Some in Hm.
    destruct (Forall2_lookup_l _ _ _ _ _ Hm Hk) as (ft' & Hft & Hd'). assert (ft' = ft) as -> by congruence.
    destruct (Forall_lookup_1 _ _ _ _ (wf_types _ _ Hwf) Hft) as [? Hr]. unfold zlen in *. lia.
  - rewrite imported_sigs_count. pose proof (wf_func_count _ _ Hwf). unfold zlen in *. lia.
Qed.

Lemma rep_all_size c type : all_size type (PState c x) = w_size w type.
Proof using Hrep Hwf.
  pose proof (rep_func_size _ _ _ _ Hrep) as Hf. pose proof (rep_tables _ _ _ _ Hrep) as Ht.
  pose proof (rep_memories _ _ _ _ Hrep) as Hm. pose proof (Forall2_length _ _ _ (rep_globals _ _ _ _ Hrep)) as Hg.
  pose proof (wf_func_count _ _ Hwf). pose proof (wf_table_count _ _ Hwf).
  pose proof (wf_memory_count _ _ Hwf). pose proof (wf_global_count _ _ Hwf).
  assert (Hpos : forall k, 0 <= imported_count w k) by (intros; unfold imported_count, zlen; lia).
  assert (Hadd : forall a b, 0 <= a -> 0 <= b -> b + a < 2 ^ 32 -> u32 (u32 a + u32 b) = b + a).
  { intros a b Ha Hb Hab. unfold u32, wrap. rewrite (Z.mod_small a), (Z.mod_small b), Z.mod_small; lia. }
  unfold all_size. rewrite importdesc_zlen by (destruct type; unfold importdesc_count; simpl; lia).
  destruct type; simpl; unfold get_tables, get_memories, get_globals in *;
    rewrite ?Hf, ?Ht, ?Hm; unfold zlen in *; rewrite ?Hg; try (apply Hadd; [lia | apply Hpos | lia]).
  replace (imported_count w 4) with 0; [done |]. unfold imported_count, zlen. symmetry.
  replace (of_kind import_kind 4 (w_imports w)) with (@nil import); [done |].
  destruct (of_kind import_kind 4 (w_imports w)) as [| i l] eqn:Hk; [done |].
  destruct (of_kind_elem import_kind 4 (w_imports w) i) as [Hi _]; [rewrite Hk; by left |].
  unfold import_kind in Hi. destruct (import_desc i); done.
Qed.

Lemma rep_param_count i : param_count bytes x i = w_param_count w i.
Proof using Hrep Hwf.
  unfold w_param_count. destruct (w_funcs w !! i) as [ti |] eqn:Hi; simpl.
  - destruct (param_count_run bytes x (typesec_types x) (w_types w) (w_funcs w) i ti) as (ft & Hft & Hp); try done;
      [by apply rep_types in Hrep | by apply rep_ranges in Hrep | by apply rep_funcs in Hrep | |].
    + exact (Forall_lookup_1 _ _ _ _ (wf_funcs _ _ Hwf) Hi).
    + by rewrite Hp, Hft.
  - unfold param_count. by rewrite (rep_funcs _ _ _ _ Hrep), Hi.
Qed.
End Spaces.

(** ** The handlers *)

(** The spans of the other sections are not touched. *)
Ltac span_keep :=
  let id := fresh "id" in let Hid := fresh "Hid" in
  intros id Hid;
  match goal with H : forall id, _ < id -> section_span id _ = None |- _ =>
    generalize (H id ltac:(lia)); unfold section_span; simpl;
    repeat match goal with |- context [?a =? ?b] => destruct (Z.eqb_spec a b) end;
    first [exact (fun E => E) | lia]
  end.

(** The parts of the storage a handler leaves alone. *)
Ltac fresh_keep :=
  constructor; [span_keep | ..];
  (intros ?; first [lia | match goal with H : _ < _ -> _ |- _ => refine (H _); lia end]).
Ltac rep_keep H :=
  destruct H as [[] ?]; constructor; [fresh_keep | intros _; eexists; reflexivity | ..]; try assumption.

Section Handlers.
Context (bytes : list Z) (Hbytes : Forall is_byte bytes) (Hsize : zlen bytes < 2 ^ 64).
Context (limit : wasm1_parser_limit_t) (wide simd128 : bool).
Context (last : Z) (x : sections) (w : wmodule) (Hrep : rep bytes last x w) (Hwf : wf last w).
Context (b e c : nat) (Hb : (b <= e)%nat) (He : (e <= length bytes)%nat) (ptr : nat).

(** What a handler does, against a result of the reference parser. *)
Definition content_result (id : Z) (m : P unit) (r : option wmodule) : Prop :=
  match r with
  | Some w' => exists x', ⟦ m ⟧ (PState c x) ⇓ (tt, PState e x') /\ rep bytes id x' w'
  | None => exists err, ⟦ m ⟧ (PState c x) ⇑ err /\ (perr_curr err <= length bytes)%nat
  end.

(** A handler that stores [ys] for the entries [v]. *)
Lemma stored_result {A Y} id (m : P unit) (r : option A) (f : A -> wmodule) (Q : Y -> A -> Prop) (g : Y -> sections) :
  match r with
  | Some v => exists ys, ⟦ m ⟧ (PState c x) ⇓ (tt, PState e (g ys)) /\ Q ys v
  | None => exists err, ⟦ m ⟧ (PState c x) ⇑ err /\ (b <= perr_curr err <= e)%nat
  end ->
  (forall ys v, Q ys v -> rep bytes id (g ys) (f v)) ->
  content_result id m (f <$> r).
Proof using Hb He.
  intros Hm HQ. unfold content_result. destruct r as [v |]; simpl.
  - destruct Hm as (ys & Hd & HQv). eauto.
  - destruct Hm as (err & H & ?). exists err. split; [done | lia].
Qed.

Abbreviation contents id := (p_content limit id w (slice bytes b e)).
Let Hfr := rep_fresh _ _ _ _ Hrep.

Lemma type_count : zlen (typesec_types (secs (PState c x))) = zlen (w_types w).
Proof using Hrep.
  pose proof (rep_types _ _ _ _ Hrep) as Hm. apply mapM_Some, Forall2_length in Hm. unfold zlen. by rewrite <- Hm.
Qed.

Lemma imported_u32 k :
  (k < importdesc_count)%nat -> u32 (zlen (importdesc_at k (PState c x))) = imported_count w k /\
  0 <= imported_count w k < 2 ^ 32.
Proof using Hrep Hwf Hb He.
  intros Hk. rewrite (importdesc_zlen bytes last x w Hrep c k Hk).
  pose proof (wf_import_count _ _ Hwf). pose proof (of_kind_zlen import_kind k (w_imports w)).
  unfold imported_count in *. unfold u32, wrap. rewrite Z.mod_small; lia.
Qed.

Lemma type_step : last < 1 -> content_result 1 (handle_type_section bytes limit b e ptr) (contents 1).
Proof using Hbytes Hsize Hrep Hb He.
  intros Hlast. pose proof (type_section_cases bytes Hbytes Hsize limit b e ptr (PState c x) Hb He
    (fresh_span _ _ Hfr 1 Hlast) (fresh_types _ _ Hfr Hlast)) as H.
  apply (stored_result _ _ _ _ (fun ffts v => mapM (decode_function_type bytes) ffts = Some v /\
    Forall (type_ranges bytes) ffts) (fun ffts => secs (set_typesec (Some (b, e)) ffts (PState c x)))).
  - destruct (p_section _ _ _); [| exact H]. destruct H as (s' & ffts & Hd & Hm & HF & ->). eauto.
  - intros ffts v [Hm HF]. rep_keep Hrep.
Qed.

Lemma import_step : last < 2 -> content_result 2 (handle_import_section bytes limit wide b e ptr) (contents 2).
Proof using Hbytes Hsize Hrep Hb He.
  intros Hlast.
  pose proof (import_section_cases bytes Hbytes Hsize limit wide b e ptr (PState c x) Hb He
    (fresh_span _ _ Hfr 2 Hlast) (fresh_imports _ _ Hfr Hlast)) as H.
  assert (Hd : empty_importdesc x).
  { unfold empty_importdesc. rewrite (rep_importdesc _ _ _ _ Hrep), (fresh_imports _ _ Hfr Hlast).
    apply desc_indices_nil. }
  specialize (H Hd).
  rewrite type_count in H.
  apply (stored_result _ _ _ _ (fun fits v => map (decode_import bytes) fits = v) _ H).
  intros fits v Hm. rep_keep Hrep. done.
Qed.

Lemma func_step : last < 3 -> content_result 3 (handle_function bytes limit simd128 b e ptr) (contents 3).
Proof using Hbytes Hsize Hrep Hwf Hb He.
  intros Hlast. destruct (imported_u32 0) as [Hi Hr]; [unfold importdesc_count; lia |].
  assert (Htc : zlen (typesec_types (secs (PState c x))) < 2 ^ 32) by (rewrite type_count; apply (wf_type_count _ _ Hwf)).
  pose proof (function_section_cases bytes Hbytes Hsize limit (imported_count w 0) simd128 Hr b e ptr (PState c x)
    Hb He (fresh_span _ _ Hfr 3 Hlast) Htc) as H.
  cbv zeta in H. rewrite type_count in H.
  apply (stored_result _ _ _ _ (fun v xs => vt_contents bytes v = xs /\ vt_size v = length xs)
    (fun v => secs (set_funcsec (Some (b, e)) v (PState c x)))).
  - unfold handle_function. rewrite bind_get, Hi. exact H.
  - intros v xs [Hv Hs]. rep_keep Hrep.
Qed.

Lemma table_step : last < 4 -> content_result 4 (handle_table_section bytes limit b e ptr) (contents 4).
Proof using Hbytes Hrep Hwf Hb He.
  intros Hlast. pose proof (importdesc_zlen bytes last x w Hrep c 1 ltac:(unfold importdesc_count; lia)) as Hi.
  pose proof (table_section_cases bytes Hbytes limit b e ptr (PState c x) Hb He (fresh_span _ _ Hfr 4 Hlast)
    (fresh_tables _ _ Hfr Hlast)) as H. cbv zeta in H. rewrite Hi in H.
  specialize (H ltac:(pose proof (wf_table_count _ _ Hwf); unfold zlen in *; lia)).
  apply (stored_result _ _ _ _ eq (fun v => secs (set_tablesec (PState c x) (TableSection (Some (b, e)) v)))).
  - destruct (p_section _ _ _); [eauto | exact H].
  - intros ? v ->. rep_keep Hrep. done.
Qed.

Lemma memory_step : last < 5 -> content_result 5 (handle_memory_section bytes limit b e ptr) (contents 5).
Proof using Hbytes Hrep Hwf Hb He.
  intros Hlast. pose proof (importdesc_zlen bytes last x w Hrep c 2 ltac:(unfold importdesc_count; lia)) as Hi.
  pose proof (memory_section_cases bytes Hbytes limit b e ptr (PState c x) Hb He (fresh_span _ _ Hfr 5 Hlast)
    (fresh_memories _ _ Hfr Hlast)) as H. cbv zeta in H. rewrite Hi in H.
  specialize (H ltac:(pose proof (wf_memory_count _ _ Hwf); unfold zlen in *; lia)).
  apply (stored_result _ _ _ _ eq (fun v => secs (set_memorysec (PState c x) (MemorySection (Some (b, e)) v)))).
  - destruct (p_section _ _ _); [eauto | exact H].
  - intros ? v ->. rep_keep Hrep. done.
Qed.

Let Hgs := rep_globals_space bytes last x w Hrep Hwf.

Lemma global_step : last < 6 -> content_result 6 (handle_global_section bytes limit b e ptr) (contents 6).
Proof using Hbytes Hsize Hrep Hwf Hb He.
  intros Hlast.
  pose proof (global_section_cases bytes Hbytes Hsize limit (w_imported_globals w) b e ptr (PState c x) Hb He
    (fresh_span _ _ Hfr 6 Hlast) (fresh_globals _ _ Hfr Hlast) Hgs) as H.
  rewrite imported_globals_count in H.
  apply (stored_result _ _ _ _ _ (fun v => secs (set_globalsec (PState c x) (GlobalSection (Some (b, e)) v))) H).
  intros ys v Hy. rep_keep Hrep.
Qed.

Lemma export_step : last < 7 -> content_result 7 (handle_export_section bytes limit wide b e ptr) (contents 7).
Proof using Hbytes Hsize Hrep Hwf Hb He.
  intros Hlast.
  pose proof (export_section_cases bytes Hbytes Hsize limit wide b e ptr (PState c x) Hb He
    (fresh_span _ _ Hfr 7 Hlast) (fresh_exports _ _ Hfr Hlast)) as H.
  assert (Hd : exportdesc (exportsec (others (secs (PState c x)))) = replicate exportdesc_count []).
  { simpl. rewrite (rep_exportdesc _ _ _ _ Hrep), (fresh_exports _ _ Hfr Hlast). apply desc_indices_nil. }
  specialize (H Hd). rewrite (p_exports_ext _ _ (w_size w)) in H by apply (rep_all_size bytes last x w Hrep Hwf).
  apply (stored_result _ _ _ _ (fun ys v => map (decode_export bytes) ys = v)
    (fun ys => secs (set_exportsec (PState c x) (ExportSection (Some (b, e)) ys (export_indices ys)))) H).
  intros ys v Hy. rep_keep Hrep. done.
Qed.

Lemma start_step : last < 8 -> content_result 8 (handle_start_section bytes b e ptr) (contents 8).
Proof using Hbytes Hsize Hrep Hwf Hb He.
  intros Hlast.
  pose proof (start_section_cases bytes Hbytes Hsize (imported_sigs w) (defined_sigs w) b e ptr (PState c x) Hb He
    (fresh_span _ _ Hfr 8 Hlast) (rep_func_space bytes last x w Hrep Hwf)) as H.
  apply (stored_result _ _ _ _ eq (fun v => secs (set_startsec (PState c x) (StartSection (Some (b, e)) v)))).
  - destruct (p_start _ _); [eauto | exact H].
  - intros ? v ->. rep_keep Hrep. done.
Qed.

Lemma elem_step : last < 9 -> content_result 9 (handle_element_section bytes limit b e ptr) (contents 9).
Proof using Hbytes Hsize Hrep Hwf Hb He.
  intros Hlast.
  pose proof (element_section_cases bytes Hbytes Hsize limit (w_imported_globals w) e He b ptr (PState c x) Hb
    (fresh_span _ _ Hfr 9 Hlast) (fresh_elems _ _ Hfr Hlast) Hgs) as H.
  rewrite !(rep_all_size bytes last x w Hrep Hwf) in H.
  apply (stored_result _ _ _ _ _ (fun v => secs (set_elemsec (PState c x) (ElementSection (Some (b, e)) v))) H).
  intros ys v Hy. rep_keep Hrep.
Qed.

Lemma code_step : last < 10 -> content_result 10 (handle_code_section bytes limit b e ptr) (contents 10).
Proof using Hbytes Hsize Hrep Hwf Hb He.
  intros Hlast. pose proof (rep_funcs _ _ _ _ Hrep) as Hf. pose proof (rep_func_size _ _ _ _ Hrep) as Hfs.
  pose proof (wf_func_count _ _ Hwf) as Hfc.
  pose proof (code_section_cases bytes Hbytes Hsize limit b e ptr (PState c x)) as H. cbv zeta in H.
  change (secs (PState c x)) with x in H. rewrite Hf in H.
  assert (Hpar : forall i, Z.of_nat i < zlen (w_funcs w) ->
    exists n, param_count bytes x i = Some n /\ 0 <= n < 2 ^ 32).
  { intros i Hi. rewrite (rep_param_count bytes last x w Hrep Hwf).
    destruct (lookup_lt_is_Some_2 (w_funcs w) i) as [ti Hti]; [unfold zlen in *; lia |].
    destruct (defined_sig_total last w Hwf ti) as [ft Hft]; [by eapply list_elem_of_lookup_2 |].
    assert (Hp : w_param_count w i = Some (zlen (parameter ft))) by (unfold w_param_count; rewrite Hti; simpl; by rewrite Hft).
    exists (zlen (parameter ft)). split; [done |].
    destruct (Forall_lookup_1 _ _ _ _ (wf_types _ _ Hwf) Hft). unfold zlen in *. lia. }
  specialize (H Hb He (fresh_span _ _ Hfr 10 Hlast) (fresh_codes _ _ Hfr Hlast) Hfs
    ltac:(unfold imported_count, zlen in *; lia) Hpar (rep_ranges _ _ _ _ Hrep)).
  rewrite (p_section_ext _ _ (p_code (max_code_locals limit) (w_param_count w))) in H.
  2: { intros i bs. unfold p_code. by rewrite (rep_param_count bytes last x w Hrep Hwf). }
  unfold p_content. cbn [Z.eqb Pos.eqb].
  replace (mbind _ _) with (with_codes w <$> (bodies ← p_section (max_code_sec_codes limit)
    (p_code (max_code_locals limit) (w_param_count w)) (slice bytes b e);
    if zlen bodies =? zlen (w_funcs w) then Some bodies else None)).
  2: { destruct (p_section _ _ _) as [v |]; simpl; [by destruct (_ =? _) | done]. }
  apply (stored_result _ _ _ _ _ (fun v => secs (set_codesec (Some (b, e)) v (PState c x))) H).
  intros ys v Hy. rep_keep Hrep.
Qed.

Lemma data_step : last < 11 -> content_result 11 (handle_data_section bytes limit b e ptr) (contents 11).
Proof using Hbytes Hsize Hrep Hwf Hb He.
  intros Hlast.
  pose proof (data_section_cases bytes Hbytes Hsize limit (w_imported_globals w) e He b ptr (PState c x) Hb
    (fresh_span _ _ Hfr 11 Hlast) (fresh_datas _ _ Hfr Hlast) Hgs) as H.
  rewrite !(rep_all_size bytes last x w Hrep Hwf) in H.
  apply (stored_result _ _ _ _ _ (fun v => secs (set_datasec (PState c x) (DataSection (Some (b, e)) v))) H).
  intros ys v Hy. rep_keep Hrep.
Qed.
End Handlers.

(** ** The driver *)

Lemma custom_place_range n last : 0 <= last <= 12 -> last <= custom_place n last <= 12.
Proof. unfold custom_place, custom_name_order. case_bool_decide; lia. Qed.

Lemma custom_place_cases n last : custom_place n last = last \/ custom_place n last = 12.
Proof. unfold custom_place, custom_name_order. case_bool_decide; lia. Qed.

Lemma custom_rep bytes last x w c y n payload :
  rep bytes last x w -> 0 <= last <= 12 ->
  stored_custom bytes y (n, payload) ->
  rep bytes (custom_place n last) (secs (set_customs (PState c x) (customs (others x) ++ [y])))
    (add_custom w (n, payload)).
Proof.
  intros Hrep Hlast Hy. pose proof (custom_place_range n last Hlast) as Hr.
  pose proof (custom_place_cases n last) as Hsame.
  destruct Hrep as [[] ?]; constructor; [fresh_keep | ..]; try assumption.
  - intros Hp. destruct Hsame as [E | ?]; [rewrite E in * | lia]. exact (rep_seen0 Hp).
  - simpl. apply Forall2_app; [done |]. by constructor.
Qed.

Section Driver.
Context (bytes : list Z) (Hbytes : Forall is_byte bytes) (Hsize : zlen bytes < 2 ^ 64).
Context (limit : wasm1_parser_limit_t) (wide simd128 : bool) (digest : list Z -> nat).

(** The table has the one entry of the name section. *)
Lemma find_custom_order_run n :
  find_custom_order digest n = Some (if bool_decide (n = name_string) then custom_name_order else 0).
Proof.
  unfold find_custom_order, custom_section_sequential_mapping_table.
  destruct (calculate_small digest custom_section_sequential_mapping_table_entries) as [sz Hsz];
    [unfold max_conflict_size; simpl; lia |].
  rewrite Hsz. simpl mbind at 1.
  destruct (order_table_map digest _ sz Hsz) as (t & Ht & Hf); [repeat constructor; done |].
  rewrite Ht. simpl. rewrite Hf. simpl. f_equal.
  destruct (decide (n = name_string)) as [-> | Hne].
  - by rewrite !bool_decide_eq_true_2.
  - rewrite !bool_decide_eq_false_2; [done | done | congruence].
Qed.

(** What handling a section does, against a result of the reference parser. *)
Definition one_result (c : nat) (x : sections) (m : P max_section_id_map_sec_id_t)
    (r : option (Z * wmodule)) : Prop :=
  match r with
  | Some (last', w') => exists order' c' x', ⟦ m ⟧ (PState c x) ⇓ (order', PState c' x') /\
      max_section_id order' = last' /\ rep bytes last' x' w'
  | None => exists err, ⟦ m ⟧ (PState c x) ⇑ err /\ (perr_curr err <= length bytes)%nat
  end.

Section One.
Context (last : Z) (x : sections) (w : wmodule) (Hrep : rep bytes last x w) (Hwf : wf last w).
Context (Hlast : 0 <= last <= 12) (c : nat).

Context (b e : nat) (Hb : (b <= e)%nat) (He : (e <= length bytes)%nat) (ptr : nat).

Lemma custom_step order :
  max_section_id order = last ->
  one_result c x (handle_custom_section bytes wide digest order b e)
    ('(n, payload) ← p_name (slice bytes b e); Some (custom_place n last, add_custom w (n, payload))).
Proof using Hbytes Hsize Hrep Hlast Hb He.
  intros Hord. unfold one_result, handle_custom_section, p_name. rewrite bind_move.
  pose proof (parse_u32_cases bytes Hbytes e wpec.invalid_custom_name_length (set_curr b (PState c x)) Hb He) as H.
  change (section_curr (set_curr b (PState c x))) with b in H.
  destruct (p_u32 _) as [[len rest] |]; simpl.
  2: { destruct H as (pc & H). eexists. split; [by apply bind_thrown | simpl; lia]. }
  destruct H as (next & H & Hn & <- & Hx). rewrite (bind_done _ _ _ _ _ H), bind_move.
  unfold p_bytes, zlen. rewrite slice_length, (distance_eq bytes Hsize) by lia.
  destruct (Z.ltb_spec (Z.of_nat (e - next)) len); simpl.
  { eexists. split; [done | simpl; lia]. }
  rewrite bind_ret, slice_take, slice_drop by lia.
  pose proof (check_text_cases bytes Hbytes wide next (next + Z.to_nat len)
    (set_curr next (set_curr b (PState c x))) ltac:(lia)) as Hu.
  destruct (utf8_ok _) eqn:Hok; simpl.
  2: { destruct Hu as (err & Hu & ?). exists err. split; [by apply bind_thrown | lia]. }
  rewrite (bind_done _ _ _ _ _ Hu). unfold view_bytes. simpl sv_ptr. simpl sv_n.
  rewrite find_custom_order_run, bind_some. set (n := slice bytes next (next + Z.to_nat len)).
  rewrite Hord. replace (negb _ && _) with false.
  2: { case_bool_decide; [| done]. symmetry. apply andb_false_iff. right.
    apply Z.ltb_ge. unfold custom_name_order. lia. }
  simpl sm_when. rewrite bind_ret, bind_move, bind_modify.
  eexists _, _, _. split; [done |]. split.
  - unfold custom_place. by case_bool_decide.
  - by apply (custom_rep bytes last x w c (CustomSection b e (U8View next len) (next + Z.to_nat len))).
Qed.

(** A second section of a kind. *)
Lemma duplicate_thrown order id :
  is_Some (section_span id x) ->
  exists err, ⟦ handle_all_binfmt_ver1_extensible_section bytes limit wide simd128 digest order id b e ptr ⟧
    (PState c x) ⇑ err /\ perr_curr err = ptr /\ perr_code err = wpec.duplicate_section.
Proof using.
  intros Hs. unfold handle_all_binfmt_ver1_extensible_section, section_span in *.
  revert Hs. destruct (Z.eqb_spec id 0) as [-> | _]; [by intros [? ?] |].
  repeat match goal with |- context [id =? ?n] => destruct (Z.eqb_spec id n) as [_ | _];
    [intros [sp Hs] |] end; [..| by intros [? ?]].
  all: eexists; (split; [| split]); [apply bind_thrown | ..].
  all: unfold handle_type_section, handle_import_section, handle_function, handle_function_section,
    handle_table_section, handle_memory_section, handle_global_section, handle_export_section,
    handle_start_section, handle_element_section, handle_code_section, handle_data_section, check_duplicate;
    rewrite ?bind_get; cbn [secs]; rewrite ?bind_get; cbn [secs]; rewrite ?Hs; done.
Qed.

Abbreviation handle := (handle_all_binfmt_ver1_extensible_section bytes limit wide simd128 digest).

(** A section that is not custom, after the test of its order. *)
Lemma content_step id :
  last < id -> 1 <= id <= 11 ->
  one_result c x (handle (MaxOrder id id) id b e ptr)
    (w' ← p_content limit id w (slice bytes b e); Some (id, w')).
Proof using Hbytes Hsize Hrep Hwf Hb He.
  intros Hlt Hid.
  assert (Hrun : forall h : P unit, content_result bytes x e c id h (p_content limit id w (slice bytes b e)) ->
    one_result c x (h;; mret (MaxOrder id id)) (w' ← p_content limit id w (slice bytes b e); Some (id, w'))).
  { intros h Hh. unfold content_result in Hh. unfold one_result.
    destruct (p_content limit id w (slice bytes b e)) as [w' |]; simpl.
    - destruct Hh as (x' & Hd & Hr). rewrite (bind_done _ _ _ _ _ Hd). by eexists _, _, _.
    - destruct Hh as (err & Ht & ?). exists err. split; [by apply bind_thrown | done]. }
  unfold handle_all_binfmt_ver1_extensible_section.
  destruct (Z.eqb_spec id 0); [lia |].
  repeat match goal with |- context [id =? ?n] => destruct (Z.eqb_spec id n) as [-> | ?] end;
    [..| lia]; apply Hrun.
  - by apply (type_step bytes Hbytes Hsize limit last x w Hrep b e c Hb He).
  - by apply (import_step bytes Hbytes Hsize limit wide last x w Hrep b e c Hb He).
  - by apply (func_step bytes Hbytes Hsize limit simd128 last x w Hrep Hwf b e c Hb He).
  - by apply (table_step bytes Hbytes limit last x w Hrep Hwf b e c Hb He).
  - by apply (memory_step bytes Hbytes limit last x w Hrep Hwf b e c Hb He).
  - by apply (global_step bytes Hbytes Hsize limit last x w Hrep Hwf b e c Hb He).
  - by apply (export_step bytes Hbytes Hsize limit wide last x w Hrep Hwf b e c Hb He).
  - by apply (start_step bytes Hbytes Hsize limit last x w Hrep Hwf b e c Hb He).
  - by apply (elem_step bytes Hbytes Hsize limit last x w Hrep Hwf b e c Hb He).
  - by apply (code_step bytes Hbytes Hsize limit last x w Hrep Hwf b e c Hb He).
  - by apply (data_step bytes Hbytes Hsize limit last x w Hrep Hwf b e c Hb He).
Qed.

Lemma unknown_thrown order id :
  11 < id -> exists err, ⟦ handle order id b e ptr ⟧ (PState c x) ⇑ err /\ perr_curr err = ptr.
Proof using.
  intros Hid. unfold handle_all_binfmt_ver1_extensible_section.
  repeat match goal with |- context [id =? ?n] => rewrite (proj2 (Z.eqb_neq id n)) by (clear -Hid; lia) end.
  by eexists.
Qed.

Lemma p_content_unknown id bs : 11 < id -> p_content limit id w bs = None.
Proof using.
  intros Hid. unfold p_content.
  by repeat match goal with |- context [id =? ?n] => rewrite (proj2 (Z.eqb_neq id n)) by (clear -Hid; lia) end.
Qed.

(** Any section, after the test of its order. *)
Lemma one_step order id :
  0 <= id -> max_section_id order = last -> id = 0 \/ last <= id -> (ptr <= length bytes)%nat ->
  one_result c x (handle (if id =? 0 then order else MaxOrder id id) id b e ptr)
    (p_one limit id last w (slice bytes b e)).
Proof using Hbytes Hsize Hrep Hwf Hlast Hb He.
  intros Hpos Hord Hle Hptr. unfold p_one. destruct (Z.eqb_spec id 0) as [-> | Hnz].
  { by apply custom_step. }
  destruct (Z.ltb_spec last id) as [Hlt | Hge].
  - destruct (decide (id <= 11)) as [Hk | Hk]; [apply content_step; lia |].
    rewrite p_content_unknown by lia. destruct (unknown_thrown (MaxOrder id id) id ltac:(lia)) as (err & Ht & Hp).
    exists err. split; [done | lia].
  - destruct (decide (id <= 11)) as [Hk | Hk].
    + destruct (duplicate_thrown (MaxOrder id id) id) as (err & Ht & Hp & _).
      { assert (id = last) as -> by lia. apply (rep_seen _ _ _ _ Hrep). lia. }
      exists err. split; [done | lia].
    + destruct (unknown_thrown (MaxOrder id id) id ltac:(lia)) as (err & Ht & Hp).
      exists err. split; [done | lia].
Qed.
End One.

(** The invariant along the loop. *)
Record loop_inv (last : Z) (order : max_section_id_map_sec_id_t) (x : sections) (w : wmodule) : Prop := LoopInv {
  li_rep : rep bytes last x w;
  li_wf : wf last w;
  li_range : 0 <= last <= 12;
  li_order : max_section_id order = last
}.

Lemma wf_small last w : wf last w -> small_types w.
Proof. intros Hw. eapply Forall_impl; [exact (wf_types _ _ Hw) |]. by intros ft [? _]. Qed.

Lemma p_one_inv id last order x w bs last' w' order' x' :
  loop_inv last order x w -> Forall is_byte bs -> p_one limit id last w bs = Some (last', w') ->
  rep bytes last' x' w' -> max_section_id order' = last' -> loop_inv last' order' x' w'.
Proof.
  intros [_ Hwf Hr _] HF Hp Hrep Hord. pose proof (wf_small _ _ Hwf) as Hs.
  apply p_one_iff in Hp as [(-> & n & nb & payload & _ & _ & -> & ->) | (Hlt & Hc & ->)]; [| | done..].
  - constructor; [done | by apply wf_custom | | done].
    pose proof (custom_place_range n last Hr). lia.
  - constructor; [done | by eapply wf_section | | done]. apply content_id in Hc. lia.
Qed.

(** A section out of order is not accepted. *)
Lemma next_order_cases last order x w c id :
  loop_inv last order x w -> 0 <= id ->
  if negb (id =? 0) && (id <? last)
  then exists err, ⟦ next_order order id ⟧ (PState c x) ⇑ err /\ perr_curr err = c
  else ⟦ next_order order id ⟧ (PState c x) ⇓ (if id =? 0 then order else MaxOrder id id, PState c x).
Proof.
  intros [_ _ _ Hord] Hid. unfold next_order. rewrite bind_gets. simpl section_curr. rewrite Hord.
  destruct (id =? 0); [done |]. simpl. destruct (id <? last); [by eexists | done].
Qed.

Lemma p_one_order id last w bs : id <> 0 -> id < last -> p_one limit id last w bs = None.
Proof using.
  intros Hnz Hlt. unfold p_one. rewrite (proj2 (Z.eqb_neq _ _) Hnz).
  by rewrite (proj2 (Z.ltb_ge last id)) by (clear -Hlt; lia).
Qed.

Definition loop_result (m : P unit) (c : nat) (x : sections) (r : option wmodule) : Prop :=
  match r with
  | Some w' => exists last' x', ⟦ m ⟧ (PState c x) ⇓ (tt, PState (length bytes) x') /\
      rep bytes last' x' w' /\ wf last' w'
  | None => exists err, ⟦ m ⟧ (PState c x) ⇑ err /\ (perr_curr err <= length bytes)%nat
  end.

Lemma loop_result_eq (m m' : P unit) c x c' x' r :
  m (PState c x) = m' (PState c' x') -> loop_result m' c' x' r -> loop_result m c x r.
Proof. intros He. unfold loop_result. by rewrite He. Qed.

Abbreviation loop := (sections_loop bytes limit wide simd128 digest).

(** One iteration, when the frame of the section is read. *)
Lemma loop_section fuel pfuel order last x w c id next len :
  loop_inv last order x w -> is_byte id -> (c < next)%nat -> 0 <= len <= Z.of_nat (length bytes - next) ->
  (next <= length bytes)%nat -> id = 0 \/ last <= id ->
  let e := (next + Z.to_nat len)%nat in
  let m := max_order ← handle_all_binfmt_ver1_extensible_section bytes limit wide simd128 digest
             (if id =? 0 then order else MaxOrder id id) id next e c;
           move_to e;;
           if (e =? length bytes)%nat then mret tt else loop fuel max_order in
  (forall last' order' x' w', loop_inv last' order' x' w' -> (e < length bytes)%nat ->
     loop_result (loop fuel order') e x' (p_sections limit pfuel last' w' (slice bytes e (length bytes)))) ->
  loop_result m next x
    ('(last, w) ← p_one limit id last w (slice bytes next e);
     p_sections limit pfuel last w (slice bytes e (length bytes))).
Proof using Hbytes Hsize.
  intros Hinv Hid Hc Hlen Hnext Hle e m IH. pose proof Hinv as [Hrep Hwf Hr Hord].
  pose proof (one_step last x w Hrep Hwf Hr next next e ltac:(unfold e; lia) ltac:(unfold e; lia) c order id
    ltac:(unfold is_byte in Hid; lia) Hord Hle ltac:(lia)) as H.
  unfold one_result in H. destruct (p_one limit id last w (slice bytes next e)) as [[last' w'] |] eqn:Hp; simpl.
  2: { destruct H as (err & Ht & ?). exists err. split; [by apply bind_thrown | done]. }
  destruct H as (order' & c' & x' & Hd & Hord' & Hrep').
  pose proof (p_one_inv id last order x w _ last' w' order' x' Hinv (slice_bytes bytes Hbytes next e) Hp Hrep' Hord') as Hinv'.
  apply (loop_result_eq _ (if (e =? length bytes)%nat then mret tt else loop fuel order') _ _ e x').
  { unfold m. by rewrite (bind_done _ _ _ _ _ Hd), bind_move. }
  destruct (Nat.eqb_spec e (length bytes)) as [Heq | Hne].
  - rewrite Heq, slice_empty by lia. replace (p_sections limit pfuel last' w' []) with (Some w') by (by destruct pfuel).
    exists last', x'. destruct Hinv'. done.
  - apply IH; [exact Hinv' | unfold e in *; lia].
Qed.

Lemma sections_loop_cases fuel pfuel order last x w c :
  loop_inv last order x w -> (c < length bytes)%nat -> (length bytes - c <= fuel)%nat ->
  (length bytes - c <= pfuel)%nat ->
  loop_result (loop fuel order) c x (p_sections limit pfuel last w (slice bytes c (length bytes))).
Proof using Hbytes Hsize.
  revert pfuel order last x w c. induction fuel as [| fuel IH]; intros pfuel order last x w c Hinv Hc Hf Hpf; [lia |].
  destruct pfuel as [| pfuel]; [lia |].
  destruct (slice_cons bytes c (length bytes)) as (id & Hid & ->); [lia.. |].
  assert (Hib : is_byte id) by (by eapply Forall_lookup_1 in Hid).
  pose proof (next_order_cases last order x w c id Hinv ltac:(unfold is_byte in Hib; lia)) as Hno.
  simpl p_sections. cbn [sections_loop]. unfold loop_result. rewrite bind_gets. cbn [section_curr].
  rewrite Hid, bind_some.
  destruct (negb (id =? 0) && (id <? last)) eqn:Hb.
  { apply andb_true_iff in Hb as [Hnz%negb_true_iff%Z.eqb_neq Hlt%Z.ltb_lt]. rewrite p_framed_none.
    - destruct Hno as (err & Ht & Hp). exists err. split; [by apply bind_thrown | lia].
    - intros content rest. by rewrite p_one_order. }
  rewrite (bind_done _ _ _ _ _ Hno), bind_move.
  pose proof (parse_u32_cases bytes Hbytes (length bytes) wpec.invalid_section_length
    (set_curr (S c) (PState c x)) ltac:(simpl; lia) ltac:(lia)) as H.
  change (section_curr (set_curr (S c) (PState c x))) with (S c) in H.
  destruct (p_u32 _) as [[len rest] |]; simpl.
  2: { destruct H as (pc & H). eexists. split; [by apply bind_thrown | simpl; lia]. }
  destruct H as (next & H & Hn & <- & Hx). rewrite (bind_done _ _ _ _ _ H), bind_move.
  unfold p_bytes, zlen. rewrite slice_length, (distance_eq bytes Hsize) by lia.
  destruct (Z.ltb_spec (Z.of_nat (length bytes - next)) len); simpl.
  { eexists. split; [done | simpl; lia]. }
  rewrite bind_ret, slice_take, slice_drop by lia.
  apply (loop_section fuel pfuel order last x w c id next len Hinv Hib); [lia | lia | lia | |].
  - apply andb_false_iff in Hb as [Hz%negb_false_iff%Z.eqb_eq | Hge%Z.ltb_ge]; [by left | by right].
  - intros last' order' x' w' Hinv' Hlt. apply IH; [done | lia..].
Qed.

(** ** A module that starts with given sections *)

(** The identifier, the length and the contents of a section that may come here. *)
Lemma section_frame fuel order last x w c id sb content rest :
  loop_inv last order x w -> (c < length bytes)%nat -> slice bytes c (length bytes) = id :: sb ++ content ++ rest ->
  uN 32 sb (zlen content) -> id = 0 \/ last <= id ->
  exists next, let e := (next + length content)%nat in
    e = (c + length (id :: sb ++ content))%nat /\ (c < next)%nat /\ (e <= length bytes)%nat /\
    slice bytes next e = content /\ slice bytes e (length bytes) = rest /\ is_byte id /\
    loop (S fuel) order (PState c x) =
      (max_order ← handle_all_binfmt_ver1_extensible_section bytes limit wide simd128 digest
         (if id =? 0 then order else MaxOrder id id) id next e c;
       move_to e;;
       if (e =? length bytes)%nat then mret tt else loop fuel max_order) (PState next x).
Proof using Hbytes Hsize.
  intros Hinv Hc Hs Hsb Hle. destruct (slice_cons bytes c (length bytes)) as (id' & Hid & Hs'); [lia.. |].
  rewrite Hs in Hs'. injection Hs' as <- Hs'. assert (Hib : is_byte id) by (by eapply Forall_lookup_1 in Hid).
  pose proof (next_order_cases last order x w c id Hinv ltac:(unfold is_byte in Hib; lia)) as Hno.
  assert (negb (id =? 0) && (id <? last) = false) as E.
  { apply andb_false_iff. destruct Hle as [-> | Hge]; [by left | right; by apply Z.ltb_ge]. }
  rewrite E in Hno. cbn [sections_loop]. rewrite bind_gets. cbn [section_curr]. rewrite Hid, bind_some, (bind_done _ _ _ _ _ Hno), bind_move.
  pose proof (parse_u32_cases bytes Hbytes (length bytes) wpec.invalid_section_length
    (set_curr (S c) (PState c x)) ltac:(simpl; lia) ltac:(lia)) as H.
  change (section_curr (set_curr (S c) (PState c x))) with (S c) in H. rewrite <- Hs' in H.
  assert (Forall is_byte (sb ++ content ++ rest)) as HF by (rewrite Hs'; apply slice_bytes, Hbytes).
  assert (p_u32 (sb ++ content ++ rest) = Some (zlen content, content ++ rest)) as Hp.
  { apply (parser_of (g := fun x bs => uN 32 bs x)); [exact HF |]. by exists sb. }
  rewrite Hp in H. destruct H as (next & H & Hn & Hr & Hx).
  rewrite (bind_done _ _ _ _ _ H), bind_move.
  assert (length (content ++ rest) = length bytes - next)%nat as Hl by (rewrite <- Hr; by apply slice_length).
  assert (length (sb ++ content ++ rest) = length bytes - S c)%nat as Hl2 by (rewrite Hs'; by apply slice_length).
  rewrite !length_app in *. rewrite (distance_eq bytes Hsize) by lia.
  rewrite (proj2 (Z.ltb_ge _ _)) by (unfold zlen; lia). exists next. cbv zeta. simpl length. rewrite length_app.
  replace (Z.to_nat (zlen content)) with (length content) by (unfold zlen; lia).
  split_and!; [lia | lia | lia | | | done | done].
  - rewrite <- slice_take with (b := length bytes) by lia. by rewrite Hr, take_app_length.
  - rewrite <- slice_drop. by rewrite Hr, drop_app_length.
Qed.

(** The loop takes one section. *)
Lemma section_taken fuel order last x w c id sb content rest last' w' :
  loop_inv last order x w -> (c < length bytes)%nat -> slice bytes c (length bytes) = id :: sb ++ content ++ rest -> rest <> [] ->
  uN 32 sb (zlen content) -> id = 0 \/ last <= id -> p_one limit id last w content = Some (last', w') ->
  exists order' x', loop (S fuel) order (PState c x) = loop fuel order' (PState (c + length (id :: sb ++ content)) x') /\
    loop_inv last' order' x' w' /\ slice bytes (c + length (id :: sb ++ content)) (length bytes) = rest.
Proof using Hbytes Hsize.
  intros Hinv Hc Hs Hne Hsb Hle Hp. pose proof Hinv as [Hrep Hwf Hr Hord].
  destruct (section_frame fuel order last x w c id sb content rest Hinv Hc Hs Hsb Hle) as (next & He & Hn & Hb & Hcon & Hrest & Hib & ->).
  cbv zeta in *. rewrite <- He.
  pose proof (one_step last x w Hrep Hwf Hr next next (next + length content) ltac:(lia) Hb c order id
    ltac:(unfold is_byte in Hib; lia) Hord Hle ltac:(lia)) as H.
  rewrite Hcon in H. unfold one_result in H. rewrite Hp in H. destruct H as (order' & c' & x' & Hd & Hord' & Hrep').
  exists order', x'. rewrite (bind_done _ _ _ _ _ Hd), bind_move. split_and!; [| | done].
  - destruct (Nat.eqb_spec (next + length content) (length bytes)) as [E | _]; [| done].
    rewrite E, slice_empty in Hrest by lia. congruence.
  - eapply p_one_inv; [exact Hinv | | exact Hp | done | done]. rewrite <- Hcon. apply slice_bytes, Hbytes.
Qed.

(** The loop takes the sections of a prefix. *)
Lemma prefix_taken last w last' w' body : sections_read limit last w last' w' body -> forall fuel order x c rest,
  loop_inv last order x w -> (c < length bytes)%nat -> slice bytes c (length bytes) = body ++ rest -> rest <> [] ->
  (length body <= fuel)%nat ->
  exists fuel' order' x', (fuel <= fuel' + length body)%nat /\
    loop fuel order (PState c x) = loop fuel' order' (PState (c + length body) x') /\ loop_inv last' order' x' w' /\
    slice bytes (c + length body) (length bytes) = rest.
Proof using Hbytes Hsize.
  assert (Hcons : forall last w last1 w1 last' w' id sb content bs,
    uN 32 sb (zlen content) -> id = 0 \/ last <= id ->
    (Forall is_byte content -> small_types w -> p_one limit id last w content = Some (last1, w1)) ->
    (forall fuel order x c rest, loop_inv last1 order x w1 -> (c < length bytes)%nat ->
      slice bytes c (length bytes) = bs ++ rest -> rest <> [] -> (length bs <= fuel)%nat ->
      exists fuel' order' x', (fuel <= fuel' + length bs)%nat /\
        loop fuel order (PState c x) = loop fuel' order' (PState (c + length bs) x') /\ loop_inv last' order' x' w' /\
        slice bytes (c + length bs) (length bytes) = rest) ->
    forall fuel order x c rest, loop_inv last order x w -> (c < length bytes)%nat ->
      slice bytes c (length bytes) = (id :: sb ++ content ++ bs) ++ rest -> rest <> [] -> (length (id :: sb ++ content ++ bs) <= fuel)%nat ->
      exists fuel' order' x', (fuel <= fuel' + length (id :: sb ++ content ++ bs))%nat /\
        loop fuel order (PState c x) = loop fuel' order' (PState (c + length (id :: sb ++ content ++ bs)) x') /\ loop_inv last' order' x' w' /\
        slice bytes (c + length (id :: sb ++ content ++ bs)) (length bytes) = rest).
  { intros last0 w0 last1 w1 last2 w2 id sb content bs Hsb Hle Hp IH fuel order x c rest Hinv Hc Hs Hne Hf.
    rewrite <- app_comm_cons, <- !app_assoc in Hs. destruct fuel as [| fuel]; [simpl in Hf; lia |].
    assert (bs ++ rest <> []) as Hne' by (by destruct bs).
    pose proof (slice_bytes bytes Hbytes c (length bytes)) as HF. rewrite Hs in HF. inversion HF as [| ? ? _ HF']; subst.
    rewrite !Forall_app in HF'. destruct HF' as (_ & HFc & _).
    destruct (section_taken fuel order last0 x w0 c id sb content (bs ++ rest) last1 w1 Hinv Hc Hs Hne' Hsb Hle
      (Hp HFc (wf_small _ _ (li_wf _ _ _ _ Hinv)))) as (order1 & x1 & E & Hinv1 & Hs1).
    simpl length in *. rewrite !length_app in *.
    assert (c + S (length sb + length content) < length bytes)%nat as Hc1.
    { apply (f_equal length) in Hs1. simpl length in *. rewrite !length_app in *. rewrite slice_length in Hs1 by done. destruct rest; [done |]. simpl in Hs1. lia. }
    destruct (IH fuel order1 x1 _ rest Hinv1 Hc1 Hs1 Hne ltac:(lia)) as (fuel' & order' & x' & Hf' & E' & Hinv' & Hs').
    simpl length in *. rewrite ?length_app in *.
    replace (c + S (length sb + (length content + length bs)))%nat with (c + S (length sb + length content) + length bs)%nat by lia.
    exists fuel', order', x'. split_and!; [lia | by rewrite E | done | done]. }
  induction 1 as [| last w last' w' n nb payload sb bs Hn Hsb Hr IH | last w w1 last' w' id sb content bs Hlt Hsc Hsb Hr IH].
  - intros fuel order x c rest Hinv Hc Hs Hne Hf. exists fuel, order, x. simpl. rewrite !Nat.add_0_r. by split_and!.
  - eapply Hcons; [done | by left | | exact IH]. intros HF Hsm. apply p_one_iff; [done.. |]. left. split; [done |]. by exists n, nb, payload.
  - eapply Hcons; [done | right; lia | | exact IH]. intros HF Hsm. apply p_one_iff; [done.. |]. by right.
Qed.

(** The identifier that follows them, when its place has passed. *)
Lemma order_thrown fuel last order x w c id rest :
  loop_inv last order x w -> slice bytes c (length bytes) = id :: rest -> (c < length bytes)%nat -> id <> 0 -> id < last ->
  exists err, loop (S fuel) order (PState c x) = Thrown err /\ perr_curr err = c /\ perr_code err = wpec.invalid_section_canonical_order.
Proof using.
  intros [_ _ _ Hord] Hs Hc Hnz Hlt. destruct (slice_cons bytes c (length bytes)) as (id' & Hid & Hs'); [lia.. |].
  rewrite Hs in Hs'. injection Hs' as <- _. eexists. split.
  - cbn [sections_loop]. rewrite bind_gets. cbn [section_curr]. rewrite Hid, bind_some. apply bind_thrown.
    unfold next_order. rewrite bind_gets, Hord, (proj2 (Z.eqb_neq _ _) Hnz). by rewrite (proj2 (Z.ltb_lt _ _) Hlt).
  - done.
Qed.

Lemma repeated_thrown fuel last order x w c sb content rest :
  loop_inv last order x w -> slice bytes c (length bytes) = last :: sb ++ content ++ rest -> (c < length bytes)%nat ->
  uN 32 sb (zlen content) -> 1 <= last <= 11 ->
  exists err, loop (S fuel) order (PState c x) = Thrown err /\ perr_curr err = c /\ perr_code err = wpec.duplicate_section.
Proof using Hbytes Hsize.
  intros Hinv Hs Hc Hsb Hl.
  destruct (section_frame fuel order last x w c last sb content rest Hinv Hc Hs Hsb ltac:(right; lia)) as (next & He & Hn & Hb & _ & _ & _ & ->).
  destruct (duplicate_thrown x next next (next + length content)%nat c (if last =? 0 then order else MaxOrder last last) last) as (err & Ht & H1 & H2).
  { apply (rep_seen _ _ _ _ (li_rep _ _ _ _ Hinv)). lia. }
  exists err. split; [by apply bind_thrown | done].
Qed.

(** ** The module *)

Lemma final_check_cases last c x w :
  rep bytes last x w -> wf last w ->
  if (length (w_codes w) =? length (w_funcs w))%nat
  then ⟦ define_final_check (length bytes) ⟧ (PState c x) ⇓ (tt, PState c x)
  else exists err, ⟦ define_final_check (length bytes) ⟧ (PState c x) ⇑ err /\ perr_curr err = length bytes.
Proof.
  intros Hrep Hwf. unfold define_final_check. rewrite bind_get. cbn [secs]. rewrite (rep_func_size _ _ _ _ Hrep).
  pose proof (Forall2_length _ _ _ (rep_codes _ _ _ _ Hrep)) as Hc.
  pose proof (wf_func_count _ _ Hwf). pose proof (wf_code_count _ _ Hwf).
  unfold imported_count, u32, wrap, zlen in *. rewrite Hc, !Z.mod_small by lia.
  destruct (Nat.eqb_spec (length (w_codes w)) (length (w_funcs w))) as [-> | Hne].
  - by rewrite Z.eqb_refl.
  - rewrite (proj2 (Z.eqb_neq _ _)) by lia. by eexists.
Qed.

(** The whole parser against the reference parser. *)
Lemma parse_module_cases :
  match p_module limit bytes with
  | Some w => exists last c x, parse_module limit wide simd128 digest bytes = Done (tt, PState c x) /\
      rep bytes last x w /\ wf last w
  | None => exists err, parse_module limit wide simd128 digest bytes = Thrown err /\
      (perr_curr err <= length bytes)%nat
  end.
Proof using Hbytes Hsize.
  unfold parse_module, wasm_binfmt_ver1_handle_func, p_module, is_wasm_file_unchecked.
  rewrite (distance_eq bytes Hsize), Nat.sub_0_r by lia.
  replace (Z.of_nat (length bytes) <? 8) with (length bytes <? 8)%nat
    by (destruct (Nat.ltb_spec (length bytes) 8), (Z.ltb_spec (Z.of_nat (length bytes)) 8); lia || done).
  destruct (Nat.ltb_spec (length bytes) 8) as [? | Hlen]; [eexists; split; [done | simpl; lia] |].
  simpl orb. destruct (bool_decide _); [| eexists; split; [done | simpl; lia]]. simpl negb. simpl sm_when.
  rewrite bind_ret, bind_move.
  assert (Hfinal : forall (m : P unit) r, loop_result m 8 empty_sections r ->
    match w ← r; if (length (w_codes w) =? length (w_funcs w))%nat then Some w else None with
    | Some w => exists last c x, ⟦ m;; define_final_check (length bytes) ⟧ (PState 8 empty_sections) ⇓
        (tt, PState c x) /\ rep bytes last x w /\ wf last w
    | None => exists err, ⟦ m;; define_final_check (length bytes) ⟧ (PState 8 empty_sections) ⇑ err /\
        (perr_curr err <= length bytes)%nat
    end).
  { intros m r Hm. destruct r as [w |]; simpl.
    - destruct Hm as (last' & x' & Hd & Hrep & Hwf). rewrite (bind_done _ _ _ _ _ Hd).
      pose proof (final_check_cases last' (length bytes) x' w Hrep Hwf) as Hc. destruct (_ =? _)%nat.
      + exists last', (length bytes), x'. done.
      + destruct Hc as (err & Ht & Hp). exists err. split; [done | lia].
    - destruct Hm as (err & Ht & ?). exists err. split; [by apply bind_thrown | done]. }
  assert (Hslice : drop 8 bytes = slice bytes 8 (length bytes)) by (unfold slice; by rewrite take_ge by (rewrite length_drop; clear; lia)).
  assert (Hinv : loop_inv 0 (MaxOrder 0 0) empty_sections empty_module)
    by (constructor; [apply rep_empty | apply wf_empty | lia | done]).
  change (set_curr 8 (PState 0 empty_sections)) with (PState 8 empty_sections).
  rewrite Hslice, slice_length by lia. destruct (Nat.eqb_spec 8 (length bytes)) as [Heq | Hne].
  - rewrite slice_empty by lia. replace (p_sections limit (length bytes - 8) 0 empty_module []) with (Some empty_module)
      by (by destruct (length bytes - 8)%nat).
    refine (Hfinal (mret tt) (Some empty_module) _). exists 0, empty_sections. rewrite <- Heq.
    split; [done |]. split; [apply rep_empty | apply wf_empty].
  - apply Hfinal. apply (sections_loop_cases _ _ (MaxOrder 0 0)); [done | lia..].
Qed.

(** The run of the parser up to a byte after the sections of a prefix. *)
Lemma prefix_reached version body last w rest :
  bytes = [0; 97; 115; 109] ++ version ++ body ++ rest -> length version = 4%nat ->
  sections_read limit 0 empty_module last w body -> rest <> [] ->
  exists fuel order x, loop_inv last order x w /\ slice bytes (8 + length body) (length bytes) = rest /\
    (8 + length body < length bytes)%nat /\
    forall err, loop (S fuel) order (PState (8 + length body) x) = Thrown err -> parse_module limit wide simd128 digest bytes = Thrown err.
Proof using Hbytes Hsize.
  intros Heq Hv Hr Hne. assert (length bytes = 8 + length body + length rest)%nat as Hl by (rewrite Heq, !length_app; simpl; lia).
  assert (0 < length rest)%nat as Hp by (destruct rest; simpl; [done | lia]).
  assert (slice bytes 8 (length bytes) = body ++ rest) as Hsl.
  { unfold slice. rewrite take_ge by (rewrite length_drop; lia). rewrite Heq, app_assoc. apply drop_app_length'. by rewrite length_app, Hv. }
  assert (loop_inv 0 (MaxOrder 0 0) empty_sections empty_module) as Hinv
    by (constructor; [apply rep_empty | apply wf_empty | lia | done]).
  destruct (prefix_taken _ _ _ _ _ Hr (S (length bytes)) (MaxOrder 0 0) empty_sections 8 rest Hinv ltac:(lia) Hsl Hne ltac:(lia))
    as (fuel & order & x & Hf & E & Hinv' & Hs'). destruct fuel as [| fuel]; [lia |].
  exists fuel, order, x. split_and!; [done | done | lia |]. intros err Ht. rewrite <- E in Ht.
  unfold parse_module, wasm_binfmt_ver1_handle_func, is_wasm_file_unchecked. rewrite (distance_eq bytes Hsize), Nat.sub_0_r by lia.
  rewrite (proj2 (Z.ltb_ge _ _)) by lia. rewrite bool_decide_eq_true_2 by (by rewrite Heq). cbn [orb negb]. simpl sm_when.
  rewrite bind_ret, bind_move, (proj2 (Nat.eqb_neq 8 _)) by lia. by apply bind_thrown.
Qed.
End Driver.

(** ** Reading a module back *)

Definition decode_expr (x : wasm1_const_expr_storage_t) : option base_const_expr_opcode_t :=
  match ce_opcodes x with [op] => Some op | _ => None end.
Definition decode_global (y : final_local_global_type) : option (global_type * base_const_expr_opcode_t) :=
  op ← decode_expr (lg_expr y); Some (lg_global y, op).
Definition decode_elem (y : wasm1_elem_storage_t) : option elem_segment :=
  op ← decode_expr (wet_expr y); Some (ElemSegment (wet_table_idx y) op (vec_funcidx y)).
Definition decode_data (bytes : list Z) (y : wasm1_data_storage_t) : option data_segment :=
  op ← decode_expr (wdt_expr y);
  Some (DataSegment (wdt_memory_idx y) op (slice bytes (wdt_byte_begin y) (wdt_byte_end y))).
Definition decode_custom (bytes : list Z) (y : custom_section) : list Z * list Z :=
  (view_bytes bytes (cs_custom_name y), slice bytes (cs_custom_begin y) (cs_sec_end y)).

(** The module a storage holds. *)
Definition decode_module (bytes : list Z) (x : sections) : option wmodule :=
  let o := others x in
  ts ← decode_types bytes x;
  gs ← mapM decode_global (get_globals x);
  es ← mapM decode_elem (get_elems x);
  cs ← mapM (decode_code bytes) (codesec_codes x);
  ds ← mapM (decode_data bytes) (get_datas x);
  Some (WModule (map (decode_custom bytes) (customs o)) ts (map (decode_import bytes) (get_imports x))
    (vt_contents bytes (funcsec_funcs x)) (get_tables x) (get_memories x) gs
    (map (decode_export bytes) (get_exports x))
    ((fun _ => start_idx (startsec o)) <$> startsec_span (startsec o)) es cs ds).

Lemma mapM_stored {A B} (f : A -> option B) (R : A -> B -> Prop) ys xs :
  (forall y x, R y x -> f y = Some x) -> Forall2 R ys xs -> mapM f ys = Some xs.
Proof. intros Hf HF. apply mapM_Some. eapply Forall2_impl; [exact HF | exact Hf]. Qed.

Lemma decode_stored_global y g : stored_global y g -> decode_global y = Some g.
Proof. destruct g. intros [Hg Hop]. unfold decode_global, decode_expr. rewrite Hop. simpl. by rewrite Hg. Qed.
Lemma decode_stored_elem y x : stored_elem y x -> decode_elem y = Some x.
Proof. destruct x. intros (Ht & Hop & Hi). unfold decode_elem, decode_expr. rewrite Hop. simpl. by rewrite Ht, Hi. Qed.
Lemma decode_stored_data bytes y x : stored_data bytes y x -> decode_data bytes y = Some x.
Proof. destruct x. intros (Ht & Hop & Hi). unfold decode_data, decode_expr. rewrite Hop. simpl. by rewrite Ht, Hi. Qed.

Lemma rep_decode bytes last x w : rep bytes last x w -> decode_module bytes x = Some w.
Proof.
  intros Hrep. destruct Hrep as [_ _ Ht _ Hi _ Hf _ Htb Hm Hg He _ Hs Hel Hc Hd Hcu].
  unfold decode_module, decode_types. rewrite Ht. simpl.
  rewrite (mapM_stored decode_global stored_global _ _ decode_stored_global Hg). simpl.
  rewrite (mapM_stored decode_elem stored_elem _ _ decode_stored_elem Hel). simpl.
  rewrite (mapM_stored (decode_code bytes) (stored_code bytes) _ _ ltac:(by intros y z [? _]) Hc). simpl.
  rewrite (mapM_stored (decode_data bytes) (stored_data bytes) _ _ (decode_stored_data bytes) Hd). simpl.
  assert (Hcm : map (decode_custom bytes) (customs (others x)) = w_customs w).
  { revert Hcu. generalize (customs (others x)), (w_customs w). intros ys xs.
    induction 1 as [| y [n p] ys xs [Hn Hp] _ IH]; simpl; [done |].
    rewrite IH. f_equal. unfold decode_custom. by rewrite Hn, Hp. }
  rewrite Hcm, Hi, Hf, Htb, Hm, He, <- Hs. by destruct w.
Qed.
