(* ===== verification/ModuleTheorems.v ===== *)
(** * The theorems about whole modules

    [parse_module] accepts exactly the modules of the grammar, terminates on every byte
    string, does not depend on the loops and the digest it is compiled with, and gives the
    code validator the module it assumes. *)

From stdpp Require Import base list numbers strings relations.
From Stdlib Require Import ZArith Lia.
From S2P Require Import Prelude Leb128 WasmTypes ValidationError ValidatorState ValidatorControl.
From S2P Require Import ValidatorPlain Validator WasmSpec Fetch Checker Machine Refines.
From S2P Require Import RefineCases RefineControl ModuleInterface MachineTyping.
From S2P Require Import ValidatorCorrect Utf8 Utf8Correct Utf8Words ParserBase ParserSpec ParserRefine.
From S2P Require Import TypeSection ExternTypes Names ImportSection FunctionSection.
From S2P Require Import TableMemorySections ConstExpr GlobalSection ExportSection StartSection.
From S2P Require Import SegmentSections CodeSection OrderTable Binfmt ModuleSpec ModuleWf ModuleRefine.
Open Scope Z_scope.

(** A module with every section, for the witnesses: two types, an imported immutable
    global, two functions, a table, a memory, a global initialized by the imported one, two
    exports, a start function, an element and a data segment, two bodies, and a name
    section. *)
Definition demo : list Z :=
  [0; 97; 115; 109; 1; 0; 0; 0;
   1; 10; 2; 96; 0; 0; 96; 2; 127; 127; 1; 127;
   2; 8; 1; 1; 109; 1; 103; 3; 127; 0;
   3; 3; 2; 0; 1;
   4; 4; 1; 112; 0; 2;
   5; 4; 1; 1; 1; 2;
   6; 6; 1; 127; 1; 35; 0; 11;
   7; 9; 2; 1; 102; 0; 1; 1; 116; 1; 0;
   8; 1; 0;
   9; 8; 1; 0; 65; 0; 11; 2; 0; 1;
   10; 12; 2; 2; 0; 11; 7; 0; 32; 0; 32; 1; 106; 11;
   11; 8; 1; 0; 65; 4; 11; 2; 104; 105;
   0; 6; 4; 110; 97; 109; 101; 0].

Lemma demo_bytes : Forall is_byte demo.
Proof. unfold demo, is_byte. repeat constructor; lia. Qed.

Definition demo_digest (_ : list Z) : nat := 0.
Abbreviation parse_demo := (parse_module default_parser_limit true true demo_digest demo).

Definition demo_state : pstate :=
  Eval vm_compute in match parse_demo with Done (_, s) => s | _ => PState 0 empty_sections end.
Definition demo_module : wmodule :=
  Eval vm_compute in default empty_module (decode_module demo (secs demo_state)).

Lemma demo_parsed : parse_demo = Done (tt, demo_state).
Proof. vm_compute. reflexivity. Qed.
Lemma demo_decoded : decode_module demo (secs demo_state) = Some demo_module.
Proof. vm_compute. reflexivity. Qed.

(** What an accepting run leaves. *)
Lemma parsed_rep bytes limit wide simd128 digest s :
  Forall is_byte bytes -> zlen bytes < 2 ^ 64 -> parse_module limit wide simd128 digest bytes = Done (tt, s) ->
  exists last w, rep bytes last (secs s) w /\ wf last w /\ module_bytes limit w bytes.
Proof.
  intros Hb Hs Hp. pose proof (parse_module_cases bytes Hb Hs limit wide simd128 digest) as H.
  destruct (p_module limit bytes) as [w |] eqn:Hm.
  - destruct H as (last & c & x & Hd & Hrep & Hwf). rewrite Hp in Hd. injection Hd as ->.
    exists last, w. split; [done |]. split; [done |]. by apply p_module_iff.
  - destruct H as (err & Ht & _). congruence.
Qed.

(** C4: the module parser implements the binary grammar. The parser of the binary format
    accepts a byte string and leaves a storage that reads back as the module [w] exactly
    when the byte string is an encoding of [w]: the magic number, four bytes, and sections
    in increasing order, each of which satisfies its grammar and the conditions on indices,
    names, constant expressions and limits in the module before it, with a body for every
    function. *)
Theorem module_iff_grammar bytes limit wide simd128 digest w :
  Forall is_byte bytes -> zlen bytes < 2 ^ 64 ->
  (exists s, parse_module limit wide simd128 digest bytes = Done (tt, s) /\
     decode_module bytes (secs s) = Some w) <->
  module_bytes limit w bytes.
Proof.
  intros Hb Hs. rewrite <- p_module_iff by done.
  pose proof (parse_module_cases bytes Hb Hs limit wide simd128 digest) as H.
  destruct (p_module limit bytes) as [w' |].
  - destruct H as (last & c & x & Hd & Hrep & Hwf). pose proof (rep_decode _ _ _ _ Hrep) as Hdec. split.
    + intros (s & Hd' & Hm). rewrite Hd in Hd'. injection Hd' as <-. simpl in Hm. congruence.
    + intros [= ->]. by eexists.
  - destruct H as (err & Ht & _). split; [| done]. intros (s & Hd & _). congruence.
Qed.

Lemma module_iff_grammar_witness :
  (exists s, parse_demo = Done (tt, s) /\ decode_module demo (secs s) = Some demo_module) <->
  module_bytes default_parser_limit demo_module demo.
Proof.
  apply (module_iff_grammar demo default_parser_limit true true demo_digest demo_module).
  - exact demo_bytes.
  - reflexivity.
Defined.

(** C7: the module parser is total. On every byte string it either accepts or throws an
    error that points into the module or at its end: no read of the module or of the
    storage is out of range, the hash table included, and no loop exceeds its bound. *)
Theorem module_total bytes limit wide simd128 digest :
  Forall is_byte bytes -> zlen bytes < 2 ^ 64 ->
  (exists s, parse_module limit wide simd128 digest bytes = Done (tt, s)) \/
  (exists err, parse_module limit wide simd128 digest bytes = Thrown err /\ (perr_curr err <= length bytes)%nat).
Proof.
  intros Hb Hs. pose proof (parse_module_cases bytes Hb Hs limit wide simd128 digest) as H.
  destruct (p_module limit bytes) as [w |]; [left | by right].
  destruct H as (last & c & x & Hd & _). eauto.
Qed.

Lemma module_total_witness :
  (exists s, parse_demo = Done (tt, s)) \/
  (exists err, parse_demo = Thrown err /\ (perr_curr err <= length demo)%nat).
Proof.
  apply (module_total demo default_parser_limit true true demo_digest).
  - exact demo_bytes.
  - reflexivity.
Defined.

(** C1: from the bytes of a module to typed functions. When a module is accepted, its
    storage reads back as a module [w] that satisfies what the code validator assumes, and
    the validator, run on the body of any function, either accepts it, and then the body is
    well-typed for the type and locals that were parsed, or throws an error that points into
    the body. *)
Theorem module_functions_typed bytes limit wide simd128 digest s :
  Forall is_byte bytes -> zlen bytes < 2 ^ 64 -> parse_module limit wide simd128 digest bytes = Done (tt, s) ->
  exists w, decode_module bytes (secs s) = Some w /\ module_ok (validator_module w) = true /\
    forall i ls code, w_codes w !! i = Some (ls, code) ->
      let m := validator_module w in
      let function_index := (length (imported_funcs m) + i)%nat in
      (validate_code m function_index code = Done tt /\
       exists ft locals, local_function m function_index ft locals /\ func_body_ok m ft locals code) \/
      (exists e, validate_code m function_index code = Thrown e /\ (err_curr e <= length code)%nat).
Proof.
  intros Hb Hs Hp. destruct (parsed_rep _ _ _ _ _ _ Hb Hs Hp) as (last & w & Hrep & Hwf & Hm).
  assert (Hl : length (w_codes w) = length (w_funcs w)) by (by destruct Hm as (? & ? & _ & _ & _ & ?)).
  pose proof (wf_module_ok last w Hwf Hl) as Hok.
  exists w. split; [by eapply rep_decode |]. split; [done |]. intros i ls code Hi m function_index.
  assert (Hcb : code_bytes code).
  { destruct (Forall2_lookup_r _ _ _ _ _ (rep_codes _ _ _ _ Hrep) Hi) as (c & _ & Hd & _).
    unfold decode_code in Hd. option_inv. split; [by apply slice_bytes |].
    unfold zlen, slice in *. rewrite length_take, length_drop. lia. }
  destruct (@validate_code_cases _ Hok function_index code Hcb) as
    [(ft & locals & Hv & Hlf & Ha) | (e & Hv & Hpos & _)]; [left | right; by exists e].
  split; [done |]. exists ft, locals. split; [done |]. destruct Hcb as [Hb' _].
  by apply (maccepts_sound code _ Hb') in Ha.
Qed.

Lemma module_functions_typed_witness :
  exists w, decode_module demo (secs demo_state) = Some w /\ module_ok (validator_module w) = true /\
    forall i ls code, w_codes w !! i = Some (ls, code) ->
      let m := validator_module w in
      let function_index := (length (imported_funcs m) + i)%nat in
      (validate_code m function_index code = Done tt /\
       exists ft locals, local_function m function_index ft locals /\ func_body_ok m ft locals code) \/
      (exists e, validate_code m function_index code = Thrown e /\ (err_curr e <= length code)%nat).
Proof.
  apply (module_functions_typed demo default_parser_limit true true demo_digest demo_state).
  - exact demo_bytes.
  - reflexivity.
  - exact demo_parsed.
Defined.

(** C23: every index of an accepted module is in its space: the types of functions, the
    indices of exports, the tables and functions of element segments, the memories of data
    segments; and the start function has no parameters and results. *)
Theorem module_indices_in_range bytes limit wide simd128 digest s w :
  Forall is_byte bytes -> zlen bytes < 2 ^ 64 -> parse_module limit wide simd128 digest bytes = Done (tt, s) ->
  decode_module bytes (secs s) = Some w ->
  Forall (fun ti => 0 <= ti < zlen (w_types w)) (w_funcs w) /\
  Forall (import_in_types w) (w_imports w) /\
  Forall (fun x => 0 <= export_index x < w_size w (export_kind x)) (w_exports w) /\
  Forall (fun x => 0 <= elem_table x < w_size w et_table /\
    Forall (fun f => 0 <= f < w_size w et_func) (elem_init x)) (w_elems w) /\
  Forall (fun x => 0 <= data_memory x < w_size w et_memory) (w_datas w) /\
  (forall x, w_start w = Some x ->
     (imported_sigs w ++ defined_sigs w) !! Z.to_nat x = Some (FunctionType [] [])) /\
  (forall type, w_size w type < 2 ^ 32) /\ w_size w et_table <= 1 /\ w_size w et_memory <= 1.
Proof.
  intros Hb Hs Hp Hd. destruct (parsed_rep _ _ _ _ _ _ Hb Hs Hp) as (last & w' & Hrep & Hwf & _).
  apply rep_decode in Hrep. rewrite Hd in Hrep. injection Hrep as <-. destruct Hwf.
  split_and!; try done.
  - intros x Hx. by destruct (wf_start x Hx).
  - intros type. unfold imported_count, zlen in *. destruct type; simpl; unfold imported_count, zlen; lia.
Qed.

Lemma module_indices_in_range_witness :
  Forall (fun ti => 0 <= ti < zlen (w_types demo_module)) (w_funcs demo_module) /\
  Forall (import_in_types demo_module) (w_imports demo_module) /\
  Forall (fun x => 0 <= export_index x < w_size demo_module (export_kind x)) (w_exports demo_module) /\
  Forall (fun x => 0 <= elem_table x < w_size demo_module et_table /\
    Forall (fun f => 0 <= f < w_size demo_module et_func) (elem_init x)) (w_elems demo_module) /\
  Forall (fun x => 0 <= data_memory x < w_size demo_module et_memory) (w_datas demo_module) /\
  (forall x, w_start demo_module = Some x ->
     (imported_sigs demo_module ++ defined_sigs demo_module) !! Z.to_nat x = Some (FunctionType [] [])) /\
  (forall type, w_size demo_module type < 2 ^ 32) /\
  w_size demo_module et_table <= 1 /\ w_size demo_module et_memory <= 1.
Proof.
  apply (module_indices_in_range demo default_parser_limit true true demo_digest demo_state demo_module).
  - exact demo_bytes.
  - reflexivity.
  - exact demo_parsed.
  - exact demo_decoded.
Defined.

(** C31: the parser does not depend on how it is compiled. With either loop of the UTF-8
    checker, with or without the block loop of the function section, and with any digest
    for the hash table of custom section names, a byte string is accepted as the same
    module or rejected. *)
Theorem module_configuration_equivalence bytes limit wide simd128 digest wide' simd128' digest' :
  Forall is_byte bytes -> zlen bytes < 2 ^ 64 ->
  match parse_module limit wide simd128 digest bytes, parse_module limit wide' simd128' digest' bytes with
  | Done (_, s), Done (_, s') =>
      is_Some (decode_module bytes (secs s)) /\ decode_module bytes (secs s) = decode_module bytes (secs s')
  | Thrown _, Thrown _ => True
  | _, _ => False
  end.
Proof.
  intros Hb Hs. pose proof (parse_module_cases bytes Hb Hs limit wide simd128 digest) as H1.
  pose proof (parse_module_cases bytes Hb Hs limit wide' simd128' digest') as H2.
  destruct (p_module limit bytes) as [w |].
  - destruct H1 as (l1 & c1 & x1 & -> & H1 & _), H2 as (l2 & c2 & x2 & -> & H2 & _).
    apply rep_decode in H1, H2. simpl. rewrite H1, H2. eauto.
  - by destruct H1 as (? & -> & _), H2 as (? & -> & _).
Qed.

Lemma module_configuration_equivalence_witness :
  match parse_module default_parser_limit true true demo_digest demo,
        parse_module default_parser_limit false false (@length Z) demo with
  | Done (_, s), Done (_, s') =>
      is_Some (decode_module demo (secs s)) /\ decode_module demo (secs s) = decode_module demo (secs s')
  | Thrown _, Thrown _ => True
  | _, _ => False
  end.
Proof.
  apply (module_configuration_equivalence demo default_parser_limit true true demo_digest false false (@length Z)).
  - exact demo_bytes.
  - reflexivity.
Defined.

(** C25: The order of sections. Take any sections that may start a module, the last of them at
    the place [last], and the identifier of a section that is not custom after them. If it is smaller
    than [last], the parser throws [invalid_section_canonical_order] at that byte, whatever
    follows; if it is [last] again, and the contents of the section lie within the module, the
    parser throws [duplicate_section] at that byte. *)
Theorem section_order_enforced bytes limit wide simd128 digest version body last w id rest :
  Forall is_byte bytes -> zlen bytes < 2 ^ 64 ->
  bytes = [0; 97; 115; 109] ++ version ++ body ++ id :: rest -> length version = 4%nat ->
  sections_read limit 0 empty_module last w body -> id <> 0 ->
  (id < last -> exists err, parse_module limit wide simd128 digest bytes = Thrown err /\
     perr_curr err = (8 + length body)%nat /\ perr_code err = wpec.invalid_section_canonical_order) /\
  (id = last -> id <= 11 -> forall sb content rest', rest = sb ++ content ++ rest' -> uN 32 sb (zlen content) ->
     exists err, parse_module limit wide simd128 digest bytes = Thrown err /\
       perr_curr err = (8 + length body)%nat /\ perr_code err = wpec.duplicate_section).
Proof.
  intros Hb Hs E Hv Hr Hnz.
  destruct (prefix_reached bytes Hb Hs limit wide simd128 digest version body last w (id :: rest) E Hv Hr ltac:(done))
    as (fuel & order & x & Hinv & Hsl & Hlen & Hrun). split.
  - intros Hlt. destruct (order_thrown bytes limit wide simd128 digest fuel last order x w _ id rest Hinv Hsl Hlen Hnz Hlt) as (err & Ht & H).
    exists err. split; [by apply Hrun | done].
  - intros -> Hk sb content rest' -> Hsb. pose proof (li_range _ _ _ _ _ Hinv) as Hl.
    destruct (repeated_thrown bytes Hb Hs limit wide simd128 digest fuel last order x w _ sb content rest' Hinv Hsl Hlen Hsb ltac:(lia)) as (err & Ht & H).
    exists err. split; [by apply Hrun | done].
Qed.

(** A module whose memory section is followed by the section [id]. *)
Definition after_memory (id : Z) : list Z := [0; 97; 115; 109; 1; 0; 0; 0; 5; 3; 1; 0; 1; id; 0].

Lemma memory_section_read : sections_read default_parser_limit 0 empty_module 5
  (with_memories empty_module [LimitsType 1 default_max false]) [5; 3; 1; 0; 1].
Proof.
  apply (read_known _ 0 empty_module (with_memories empty_module [LimitsType 1 default_max false]) 5 _ 5 [3] [1; 0; 1] []);
    [lia | | constructor; unfold zlen; simpl; lia | constructor].
  apply p_content_iff; [unfold is_byte; repeat constructor; lia | constructor | reflexivity].
Qed.

Lemma section_order_enforced_witness :
  (exists err, parse_module default_parser_limit true true demo_digest (after_memory 1) = Thrown err /\
     perr_curr err = 13%nat /\ perr_code err = wpec.invalid_section_canonical_order) /\
  (exists err, parse_module default_parser_limit true true demo_digest (after_memory 5) = Thrown err /\
     perr_curr err = 13%nat /\ perr_code err = wpec.duplicate_section).
Proof.
  split.
  - apply (section_order_enforced (after_memory 1) default_parser_limit true true demo_digest [1; 0; 0; 0] [5; 3; 1; 0; 1] 5
      (with_memories empty_module [LimitsType 1 default_max false]) 1 [0]);
      [unfold after_memory, is_byte; repeat constructor; lia | reflexivity | reflexivity | reflexivity | exact memory_section_read | discriminate | reflexivity].
  - eapply (section_order_enforced (after_memory 5) default_parser_limit true true demo_digest [1; 0; 0; 0] [5; 3; 1; 0; 1] 5
      (with_memories empty_module [LimitsType 1 default_max false]) 5 [0]) with (sb := [0]) (content := []) (rest' := []);
      [unfold after_memory, is_byte; repeat constructor; lia | reflexivity | reflexivity | reflexivity | exact memory_section_read | discriminate
      | reflexivity | lia | reflexivity | constructor; unfold zlen; simpl; lia].
Defined.
