(* ===== verification/EntityTheorems.v ===== *)
(** * The theorems about names, imports, globals, exports and segments

    The handlers of the sections that declare the entities of a module accept exactly the
    grammar of their section in the module read so far; the UTF-8 checker and the table of
    custom section names they use are correct. *)

From stdpp Require Import base list numbers strings relations.
From Stdlib Require Import ZArith Lia.
From S2P Require Import Prelude Leb128 WasmTypes Utf8 Utf8Correct Utf8Words ParserBase ParserSpec ParserRefine.
From S2P Require Import TypeSection ExternTypes Names ImportSection FunctionSection.
From S2P Require Import TableMemorySections ConstExpr GlobalSection ExportSection StartSection.
From S2P Require Import SegmentSections OrderTable Binfmt ModuleSpec ModuleRefine.
Open Scope Z_scope.

(** Sections for the witnesses: an import of an immutable global, a table, a global initialized by
    it, an export of the global, and an element segment at the offset it gives. *)
Definition parts : list Z :=
  [1; 1; 109; 1; 103; 3; 127; 0;   1; 112; 0; 2;   1; 127; 1; 35; 0; 11;   1; 1; 102; 3; 1;   1; 0; 35; 0; 11; 0].

Lemma parts_bytes : Forall is_byte parts.
Proof. unfold parts, is_byte. repeat constructor; lia. Qed.

(** The states before and after the sections. *)
Definition parts_start : pstate := PState 0 empty_sections.
Definition after (m : P unit) (s : pstate) : pstate := match m s with Done (_, s') => s' | _ => s end.
Definition parts_imported : pstate :=
  Eval vm_compute in after (handle_import_section parts default_parser_limit true 0 8 0) parts_start.
Definition parts_tables : pstate :=
  Eval vm_compute in after (handle_table_section parts default_parser_limit 8 12 8) parts_imported.
Definition parts_defined : pstate :=
  Eval vm_compute in after (handle_global_section parts default_parser_limit 12 18 12) parts_tables.

Lemma parts_globals s : s = parts_tables \/ s = parts_defined -> globals_space (secs s) [GlobalType i32 false].
Proof.
  intros Hs. split; [| done].
  destruct Hs as [-> | ->]; (constructor; [| constructor]); eexists; split; reflexivity.
Qed.

(** The import section. On a fresh storage the handler accepts and stores the imports
    [xs] exactly when the contents encode the vector [xs] (names in UTF-8, functions of
    existing types, tables, memories and globals of legal types), with at most one table and
    one memory and within the parser limit; the list it keeps for a kind then leads to the
    imports of that kind in order. *)
Theorem import_section_iff_grammar bytes limit wide b e ptr s xs :
  Forall is_byte bytes -> zlen bytes < 2 ^ 64 -> (b <= e)%nat -> (e <= length bytes)%nat ->
  importsec_span (importsec (others (secs s))) = None -> get_imports (secs s) = [] ->
  empty_importdesc (secs s) ->
  (exists s', ⟦ handle_import_section bytes limit wide b e ptr ⟧ s ⇓ (tt, s') /\
     map (decode_import bytes) (get_imports (secs s')) = xs /\
     forall k, (k < importdesc_count)%nat ->
       Forall2 (leads_to bytes (secs s')) (importdesc_at k s') (of_kind import_kind k xs)) <->
  zlen xs <= max_import_sec_imports limit /\
  vec (fun _ => import_bytes (zlen (typesec_types (secs s)))) xs (slice bytes b e) /\
  single_imports xs = true.
Proof.
  intros Hb Hs Hbe He Hspan Hempty Hdesc. rewrite <- p_imports_iff by (by apply slice_bytes).
  pose proof (import_section_cases bytes Hb Hs limit wide b e ptr s Hbe He Hspan Hempty Hdesc) as H.
  destruct (p_imports _ _ _) as [ys |].
  - destruct H as (fits & Hd & Hm). split.
    + intros (s' & Hd' & Hm' & _). rewrite Hd in Hd'. injection Hd' as <-. simpl in Hm'. unfold get_imports in Hm'.
      simpl in Hm'. congruence.
    + intros [= ->]. eexists. split; [exact Hd |]. split; [exact Hm |]. intros k Hk. rewrite <- Hm.
      exact (importdesc_leads bytes (secs (set_importsec s (ImportSection (Some (b, e)) fits (import_indices fits))))
        k Hk eq_refl).
  - destruct H as (err & Ht & _). split; [| done]. intros (s' & Hd & _). congruence.
Qed.

Definition parts_import : import := Import [109] [103] (ext_global (GlobalType i32 false)).

Lemma import_section_iff_grammar_witness :
  (exists s', ⟦ handle_import_section parts default_parser_limit true 0 8 0 ⟧ parts_start ⇓ (tt, s') /\
     map (decode_import parts) (get_imports (secs s')) = [parts_import] /\
     forall k, (k < importdesc_count)%nat ->
       Forall2 (leads_to parts (secs s')) (importdesc_at k s') (of_kind import_kind k [parts_import])) <->
  zlen [parts_import] <= 262144 /\
  vec (fun _ => import_bytes 0) [parts_import] [1; 1; 109; 1; 103; 3; 127; 0] /\
  single_imports [parts_import] = true.
Proof.
  apply (import_section_iff_grammar parts default_parser_limit true 0 8 0 parts_start [parts_import]).
  - exact parts_bytes.
  - reflexivity.
  - lia.
  - simpl. lia.
  - reflexivity.
  - reflexivity.
  - reflexivity.
Defined.

(** The global section. After the imports, the handler accepts and stores the globals
    [xs] exactly when the contents encode them: each a type and a constant expression of that
    type, a constant or an imported immutable global, their number within the parser limit
    and with the imported ones less than 2^32. *)
Theorem global_section_iff_grammar bytes limit globals b e ptr s xs :
  Forall is_byte bytes -> zlen bytes < 2 ^ 64 -> (b <= e)%nat -> (e <= length bytes)%nat ->
  globalsec_span (globalsec (others (secs s))) = None -> get_globals (secs s) = [] ->
  globals_space (secs s) globals ->
  (exists s', ⟦ handle_global_section bytes limit b e ptr ⟧ s ⇓ (tt, s') /\
     mapM decode_global (get_globals (secs s')) = Some xs) <->
  zlen xs <= index_limit (max_global_sec_globals limit) (zlen globals) /\
  vec (fun _ => global_bytes globals) xs (slice bytes b e).
Proof.
  intros Hb Hs Hbe He Hspan Hempty Hg.
  rewrite <- (p_section_iff _ (fun _ => p_global globals)) by
    first [intros; apply _ | intros; apply global_nonempty | by apply slice_bytes].
  pose proof (global_section_cases bytes Hb Hs limit globals b e ptr s Hbe He Hspan Hempty Hg) as H.
  destruct (p_section _ _ _) as [ys |].
  - destruct H as (st & Hd & HF). pose proof (mapM_stored _ _ _ _ decode_stored_global HF) as Hm. split.
    + intros (s' & Hd' & Hm'). rewrite Hd in Hd'. injection Hd' as <-. unfold get_globals in Hm'. simpl in Hm'. congruence.
    + intros [= ->]. eexists. split; [exact Hd | exact Hm].
  - destruct H as (err & Ht & _). split; [| done]. intros (s' & Hd & _). congruence.
Qed.

Lemma global_section_iff_grammar_witness :
  (exists s', ⟦ handle_global_section parts default_parser_limit 12 18 12 ⟧ parts_tables ⇓ (tt, s') /\
     mapM decode_global (get_globals (secs s')) = Some [(GlobalType i32 true, ce_global_get 0)]) <->
  zlen [(GlobalType i32 true, ce_global_get 0)] <= 262144 /\
  vec (fun _ => global_bytes [GlobalType i32 false]) [(GlobalType i32 true, ce_global_get 0)] [1; 127; 1; 35; 0; 11].
Proof.
  apply (global_section_iff_grammar parts default_parser_limit [GlobalType i32 false] 12 18 12 parts_tables).
  - exact parts_bytes.
  - reflexivity.
  - lia.
  - simpl. lia.
  - reflexivity.
  - reflexivity.
  - apply parts_globals. left. reflexivity.
Defined.

(** C26: the export section. On a storage without exports, the handler accepts and stores the
    exports [xs] exactly when the contents encode them, each with an index inside the
    index space of its kind, no two with the same name, within the parser limit. *)
Theorem export_section_iff_grammar bytes limit wide b e ptr s xs :
  Forall is_byte bytes -> zlen bytes < 2 ^ 64 -> (b <= e)%nat -> (e <= length bytes)%nat ->
  exportsec_span (exportsec (others (secs s))) = None -> get_exports (secs s) = [] ->
  exportdesc (exportsec (others (secs s))) = replicate exportdesc_count [] ->
  (exists s', ⟦ handle_export_section bytes limit wide b e ptr ⟧ s ⇓ (tt, s') /\
     map (decode_export bytes) (get_exports (secs s')) = xs) <->
  zlen xs <= max_export_sec_exports limit /\
  vec (fun _ => export_bytes (fun type => all_size type s)) xs (slice bytes b e) /\
  NoDup (map export_name xs).
Proof.
  intros Hb Hs Hbe He Hspan Hempty Hdesc. rewrite <- p_exports_iff by (by apply slice_bytes).
  pose proof (export_section_cases bytes Hb Hs limit wide b e ptr s Hbe He Hspan Hempty Hdesc) as H.
  destruct (p_exports _ _ _) as [ys |].
  - destruct H as (st & Hd & Hm). split.
    + intros (s' & Hd' & Hm'). rewrite Hd in Hd'. injection Hd' as <-. unfold get_exports in Hm'. simpl in Hm'. congruence.
    + intros [= ->]. eexists. split; [exact Hd | exact Hm].
  - destruct H as (err & Ht & _). split; [| done]. intros (s' & Hd & _). congruence.
Qed.

Lemma export_section_iff_grammar_witness :
  (exists s', ⟦ handle_export_section parts default_parser_limit true 18 23 18 ⟧ parts_defined ⇓ (tt, s') /\
     map (decode_export parts) (get_exports (secs s')) = [Export [102] et_global 1]) <->
  zlen [Export [102] et_global 1] <= 262144 /\
  vec (fun _ => export_bytes (fun type => all_size type parts_defined)) [Export [102] et_global 1] [1; 1; 102; 3; 1] /\
  NoDup (map export_name [Export [102] et_global 1]).
Proof.
  apply (export_section_iff_grammar parts default_parser_limit true 18 23 18 parts_defined).
  - exact parts_bytes.
  - reflexivity.
  - lia.
  - simpl. lia.
  - reflexivity.
  - reflexivity.
  - reflexivity.
Defined.

(** The element section. After the imports, the handler accepts and stores the segments
    [xs] exactly when the contents encode them: an existing table, a constant expression of
    type [i32], and indices of existing functions, within the two parser limits. *)
Theorem element_section_iff_grammar bytes limit globals b e ptr s xs :
  Forall is_byte bytes -> zlen bytes < 2 ^ 64 -> (b <= e)%nat -> (e <= length bytes)%nat ->
  elemsec_span (elemsec (others (secs s))) = None -> get_elems (secs s) = [] ->
  globals_space (secs s) globals ->
  (exists s', ⟦ handle_element_section bytes limit b e ptr ⟧ s ⇓ (tt, s') /\
     mapM decode_elem (get_elems (secs s')) = Some xs) <->
  zlen xs <= max_elem_sec_elems limit /\
  vec (fun _ => elem_bytes globals (all_size et_func s) (all_size et_table s) (max_elem_sec_funcidx limit))
    xs (slice bytes b e).
Proof.
  intros Hb Hs Hbe He Hspan Hempty Hg.
  rewrite <- (p_section_iff _ (fun _ => p_elem globals (all_size et_func s) (all_size et_table s)
    (max_elem_sec_funcidx limit))) by
    first [intros; apply _ | intros; apply elem_nonempty | by apply slice_bytes].
  pose proof (element_section_cases bytes Hb Hs limit globals e He b ptr s Hbe Hspan Hempty Hg) as H.
  destruct (p_section _ _ _) as [ys |].
  - destruct H as (st & Hd & HF). pose proof (mapM_stored _ _ _ _ decode_stored_elem HF) as Hm. split.
    + intros (s' & Hd' & Hm'). rewrite Hd in Hd'. injection Hd' as <-. unfold get_elems in Hm'. simpl in Hm'. congruence.
    + intros [= ->]. eexists. split; [exact Hd | exact Hm].
  - destruct H as (err & Ht & _). split; [| done]. intros (s' & Hd & _). congruence.
Qed.

Lemma element_section_iff_grammar_witness :
  (exists s', ⟦ handle_element_section parts default_parser_limit 23 29 23 ⟧ parts_defined ⇓ (tt, s') /\
     mapM decode_elem (get_elems (secs s')) = Some [ElemSegment 0 (ce_global_get 0) []]) <->
  zlen [ElemSegment 0 (ce_global_get 0) []] <= 262144 /\
  vec (fun _ => elem_bytes [GlobalType i32 false] (all_size et_func parts_defined) (all_size et_table parts_defined) 262144)
    [ElemSegment 0 (ce_global_get 0) []] [1; 0; 35; 0; 11; 0].
Proof.
  apply (element_section_iff_grammar parts default_parser_limit [GlobalType i32 false] 23 29 23 parts_defined).
  - exact parts_bytes.
  - reflexivity.
  - lia.
  - simpl. lia.
  - reflexivity.
  - reflexivity.
  - apply parts_globals. right. reflexivity.
Defined.

(** C28: the UTF-8 checker. On every byte string, with either loop, it gives a position
    and an error code. The bytes before the position are the encoding of some characters,
    with [U+0000] among them only when it is allowed; it is a success exactly when the whole
    string is such an encoding, and then the position is its end; otherwise no character's
    encoding starts at the position, so that it ends the longest legal prefix. *)
Theorem utf8_check_outcome wide zero_illegal bs :
  Forall is_byte bs ->
  exists r, check_legal_utf8_rfc3629_unchecked wide zero_illegal bs = Some r /\
    (u8_pos r <= length bs)%nat /\
    (exists cs, utf8_text zero_illegal cs (take (u8_pos r) bs)) /\
    (u8_err r = uec.success <-> exists cs, utf8_text zero_illegal cs bs) /\
    (u8_err r = uec.success -> u8_pos r = length bs) /\
    (u8_err r <> uec.success -> forall c tl, ~ starts_with zero_illegal (drop (u8_pos r) bs) c tl).
Proof.
  intros HF. rewrite check_utf8_scalar by done.
  destruct (scalar_cases zero_illegal bs 0 HF) as (r & Hr & k & cs & Hk & Ht & Hp & Hc).
  exists r. rewrite Hp. simpl. split; [done |]. split; [done |]. split; [by exists cs |].
  destruct (decide (u8_err r = uec.success)) as [Hs | Hs].
  - subst k. split_and!; try done. split; [intros _; exists cs; by rewrite take_ge in Ht by lia | done].
  - split_and!; try done. split; [done |]. intros [cs' Ht'].
    rewrite (scalar_text zero_illegal cs' bs 0 HF Ht') in Hr. by injection Hr as <-.
Qed.

Lemma utf8_check_outcome_witness :
  exists r, check_legal_utf8_rfc3629_unchecked true false [97; 195; 169; 192] = Some r /\
    (u8_pos r <= 4)%nat /\
    (exists cs, utf8_text false cs (take (u8_pos r) [97; 195; 169; 192])) /\
    (u8_err r = uec.success <-> exists cs, utf8_text false cs [97; 195; 169; 192]) /\
    (u8_err r = uec.success -> u8_pos r = 4%nat) /\
    (u8_err r <> uec.success -> forall c tl, ~ starts_with false (drop (u8_pos r) [97; 195; 169; 192]) c tl).
Proof. apply (utf8_check_outcome true false [97; 195; 169; 192]). unfold is_byte. repeat constructor; lia. Defined.

(** The loop over words of the UTF-8 checker, which skips sixteen ASCII bytes at a
    time, gives the same position and the same error code as the loop over bytes. *)
Theorem utf8_word_loop_equivalence zero_illegal bs :
  Forall is_byte bs ->
  check_legal_utf8_rfc3629_unchecked true zero_illegal bs =
  check_legal_utf8_rfc3629_unchecked false zero_illegal bs.
Proof. intros HF. by rewrite !check_utf8_scalar. Qed.

Lemma utf8_word_loop_equivalence_witness :
  check_legal_utf8_rfc3629_unchecked true true (replicate 40 97 ++ [0]) =
  check_legal_utf8_rfc3629_unchecked false true (replicate 40 97 ++ [0]).
Proof. apply (utf8_word_loop_equivalence true (replicate 40 97 ++ [0])). unfold is_byte. repeat constructor; lia. Defined.

(** C29: the table of custom section names. For every digest and every list of names with
    orders other than 0, the table that is built, when a size is found for it, is built
    without an access out of range, and looking up a name in it gives the order of the name
    in the list, 0 for a name that is not there; a size is found for up to eight names. *)
Theorem order_table_correct digest entries :
  Forall (fun i => me_order i <> 0) entries ->
  ((length entries <= max_conflict_size)%nat -> is_Some (calculate_hash_table_size digest entries)) /\
  forall sz, calculate_hash_table_size digest entries = Some sz ->
    exists t, generate_custom_section_sequential_mapping_table digest sz entries = Some t /\
      forall name, find_from_custom_section_sequential_mapping_table digest sz t name = Some (order_of entries name).
Proof.
  intros HF. split; [apply calculate_small |]. intros sz Hsz. by apply order_table_map.
Qed.

(** Three names, two of them in one bucket. *)
Definition three_names : list mapping_entry :=
  [MappingEntry [97] 3; MappingEntry [98; 98] 4; MappingEntry [99] 5].

Lemma order_table_correct_witness :
  ((length three_names <= max_conflict_size)%nat -> is_Some (calculate_hash_table_size (@length Z) three_names)) /\
  forall sz, calculate_hash_table_size (@length Z) three_names = Some sz ->
    exists t, generate_custom_section_sequential_mapping_table (@length Z) sz three_names = Some t /\
      forall name, find_from_custom_section_sequential_mapping_table (@length Z) sz t name = Some (order_of three_names name).
Proof. apply (order_table_correct (@length Z) three_names). repeat constructor; discriminate. Defined.

(** The instruction that pushes a constant of a type. *)
Definition const_opcode (t : value_type) : Z :=
  wasm1_code.opcode match t with
  | i32 => wasm1_code.i32_const | i64 => wasm1_code.i64_const
  | f32 => wasm1_code.f32_const | f64 => wasm1_code.f64_const
  end.

(** C27: a constant of the wrong type. At the start of an initializer of type [i32], a
    constant of another type [t] is rejected where it stands with
    [init_const_expr_type_mismatch], in the global section with the expected type first in
    the payload, in the element and data sections with the type that was found first. *)
Theorem init_expr_mismatch_payload bytes section_end c x t :
  c <> section_end -> t <> i32 -> bytes !! c = Some (const_opcode t) ->
  ⟦ parse_and_check_global_expr_valid bytes section_end i32 ⟧ (PState c x) ⇑
    pinvalid c wpec.init_const_expr_type_mismatch (psel_u8arr (value_type_byte i32) (value_type_byte t)) /\
  ⟦ parse_and_check_offset_expr_valid bytes section_end ⟧ (PState c x) ⇑
    pinvalid c wpec.init_const_expr_type_mismatch (psel_u8arr (value_type_byte t) (value_type_byte i32)).
Proof.
  intros Hc Ht Hb. apply Nat.eqb_neq in Hc.
  split; unfold parse_and_check_global_expr_valid, parse_and_check_offset_expr_valid, const_expr;
    rewrite bind_gets; apply bind_thrown; cbn [const_expr_loop];
    (erewrite bind_done; [| unfold peek_byte; rewrite bind_gets; cbn [section_curr]; rewrite Hc, Hb; reflexivity]);
    by destruct t.
Qed.

Lemma init_expr_mismatch_payload_witness :
  ⟦ parse_and_check_global_expr_valid [66; 0; 11] 3 i32 ⟧ parts_start ⇑
    pinvalid 0 wpec.init_const_expr_type_mismatch (psel_u8arr 127 126) /\
  ⟦ parse_and_check_offset_expr_valid [66; 0; 11] 3 ⟧ parts_start ⇑
    pinvalid 0 wpec.init_const_expr_type_mismatch (psel_u8arr 126 127).
Proof. apply (init_expr_mismatch_payload [66; 0; 11] 3 0 empty_sections i64); [lia | discriminate | reflexivity]. Defined.
