(* ===== verification/IeeeBits.v ===== *)
(** * IEEE 754 encodings

    The specification side of the floating-point code: the value of a binary32 or binary64
    encoding as an integer multiple of the smallest positive number of its format, and
    rounding to nearest, ties to even, as a relation between exact numbers and encodings.
    Nothing here refers to the code. *)

From stdpp Require Import base numbers.
From Stdlib Require Import ZArith Lia.
From S2P Require Import Prelude.
Open Scope Z_scope.

Inductive format := binary32 | binary64.

Definition width (f : format) : Z := match f with binary32 => 32 | binary64 => 64 end.
(** The number of bits of the fraction. *)
Definition fraction (f : format) : Z := match f with binary32 => 23 | binary64 => 52 end.
Definition bias (f : format) : Z := match f with binary32 => 127 | binary64 => 1023 end.
Definition max_exponent (f : format) : Z := match f with binary32 => 255 | binary64 => 2047 end.

Section Format.
Context (f : format).

(** The encoding of +infinity, the sign bit, and the encodings without their sign. *)
Definition infinity : Z := max_exponent f * 2 ^ fraction f.
Definition sign_of (raw : Z) : bool := 2 ^ (width f - 1) <=? raw.
Definition magnitude_of (raw : Z) : Z := raw mod 2 ^ (width f - 1).
Definition encoding (raw : Z) : Prop := 0 <= raw < 2 ^ width f.
Definition is_nan (raw : Z) : bool := infinity <? magnitude_of raw.
Definition is_finite (raw : Z) : bool := magnitude_of raw <? infinity.

(** The number an encoding without sign denotes, in units of the smallest positive one,
    [2 ^ (1 - bias - fraction)]. The encoding of infinity has the number that follows the
    largest finite one. *)
Definition magnitude (m : Z) : Z :=
  let e := m / 2 ^ fraction f in
  let g := m mod 2 ^ fraction f in
  if e =? 0 then g else (2 ^ fraction f + g) * 2 ^ (e - 1).

(** The number 1 in these units. *)
Definition unit_value : Z := 2 ^ (bias f + fraction f - 1).

Definition value (raw : Z) : Z :=
  (if sign_of raw then -1 else 1) * magnitude (magnitude_of raw).

(** [m] is the encoding, infinity included, nearest to [num / den] units, the one with an
    even significand when there are two. *)
Definition rounds_to (num den m : Z) : Prop :=
  0 <= m <= infinity /\
  forall m', 0 <= m' <= infinity ->
    Z.abs (num - magnitude m * den) <= Z.abs (num - magnitude m' * den) /\
    (Z.abs (num - magnitude m * den) = Z.abs (num - magnitude m' * den) -> m' <> m -> Z.even m = true).
End Format.

(** [n] is the integer nearest to [num / den], the even one when there are two. *)
Definition nearest_int (num den n : Z) : Prop :=
  2 * Z.abs (num - n * den) <= den /\ (2 * Z.abs (num - n * den) = den -> Z.even n = true).

(** ** Facts about the formats *)

Section Facts.
Context (f : format).
Let F := fraction f.

Lemma format_facts :
  2 <= F /\ 0 < width f - 1 - F /\ max_exponent f + 1 = 2 ^ (width f - 1 - F) /\
  max_exponent f = 2 * bias f + 1 /\ 2 * F < bias f /\ bias f + F <= 1075 /\ F <= 52 /\ 100 < bias f.
Proof. destruct f; vm_compute; repeat split; congruence. Qed.

Lemma pow_fraction_pos : 0 < 2 ^ F.
Proof. apply Z.pow_pos_nonneg; [lia |]. pose proof format_facts. lia. Qed.

Lemma sign_bit_split : 2 ^ (width f - 1) = (max_exponent f + 1) * 2 ^ F.
Proof.
  destruct format_facts as (? & ? & -> & ?). rewrite <- Z.pow_add_r by lia.
  f_equal. lia.
Qed.

Lemma width_split : 2 ^ width f = 2 * 2 ^ (width f - 1).
Proof. rewrite <- Z.pow_succ_r by (destruct f; simpl; lia). f_equal. lia. Qed.

Lemma infinity_lt : infinity f < 2 ^ (width f - 1).
Proof. rewrite sign_bit_split. unfold infinity. pose proof pow_fraction_pos. unfold F in *. lia. Qed.

Lemma encoding_split raw :
  encoding f raw -> raw = (if sign_of f raw then 2 ^ (width f - 1) else 0) + magnitude_of f raw /\
    0 <= magnitude_of f raw < 2 ^ (width f - 1).
Proof.
  unfold encoding, sign_of, magnitude_of. rewrite width_split. intros H.
  assert (0 < 2 ^ (width f - 1)) by (destruct f; reflexivity).
  destruct (Z.leb_spec (2 ^ (width f - 1)) raw).
  - rewrite <- (Z.mod_unique raw (2 ^ (width f - 1)) 1 (raw - 2 ^ (width f - 1))) by lia. lia.
  - rewrite Z.mod_small by lia. lia.
Qed.

(** *** The magnitude is linear between powers of two, and increasing *)

Lemma magnitude_linear e g :
  0 <= e -> 0 <= g <= 2 ^ F ->
  magnitude f (e * 2 ^ F + g) = if e =? 0 then g else (2 ^ F + g) * 2 ^ (e - 1).
Proof.
  intros He Hg. pose proof pow_fraction_pos as HF. unfold magnitude. fold F.
  destruct (Z.eq_dec g (2 ^ F)) as [-> | Hne].
  - rewrite <- (Z.div_unique (e * 2 ^ F + 2 ^ F) (2 ^ F) (e + 1) 0),
      <- (Z.mod_unique (e * 2 ^ F + 2 ^ F) (2 ^ F) (e + 1) 0) by lia.
    rewrite (proj2 (Z.eqb_neq (e + 1) 0)) by lia. destruct (Z.eqb_spec e 0) as [-> | Hz].
    + simpl. lia.
    + replace (e + 1 - 1) with (Z.succ (e - 1)) by lia. rewrite Z.pow_succ_r by lia. ring.
  - rewrite <- (Z.div_unique (e * 2 ^ F + g) (2 ^ F) e g), <- (Z.mod_unique (e * 2 ^ F + g) (2 ^ F) e g) by lia.
    done.
Qed.

Lemma magnitude_small m : 0 <= m <= 2 ^ F -> magnitude f m = m.
Proof. intros H. by rewrite <- (Z.add_0_l m) at 1; rewrite <- (Z.mul_0_l (2 ^ F)), magnitude_linear by lia. Qed.

Lemma magnitude_parts m :
  0 <= m -> exists e g, m = e * 2 ^ F + g /\ 0 <= e /\ 0 <= g < 2 ^ F.
Proof.
  intros H. pose proof pow_fraction_pos. exists (m / 2 ^ F), (m mod 2 ^ F).
  pose proof (Z.div_mod m (2 ^ F)). pose proof (Z.mod_pos_bound m (2 ^ F)).
  pose proof (Z.div_pos m (2 ^ F)). split_and!; lia.
Qed.

Lemma magnitude_succ m : 0 <= m -> magnitude f m < magnitude f (m + 1).
Proof.
  intros (e & g & -> & He & Hg)%magnitude_parts. rewrite <- Z.add_assoc, !magnitude_linear by lia.
  destruct (Z.eqb_spec e 0); [lia |]. pose proof (Z.pow_pos_nonneg 2 (e - 1)). nia.
Qed.

Lemma magnitude_mono m m' : 0 <= m < m' -> magnitude f m < magnitude f m'.
Proof.
  intros H. replace m' with (m + 1 + (m' - m - 1)) by lia. assert (0 <= m' - m - 1) as Hd by lia.
  remember (m' - m - 1) as d eqn:Ed. clear Ed. revert d Hd. apply natlike_ind.
  - rewrite Z.add_0_r. apply magnitude_succ. lia.
  - intros d Hd IH. etransitivity; [exact IH |]. replace (m + 1 + Z.succ d) with (m + 1 + d + 1) by lia.
    apply magnitude_succ. lia.
Qed.

Lemma magnitude_mono_iff m m' : 0 <= m -> 0 <= m' -> magnitude f m < magnitude f m' <-> m < m'.
Proof.
  intros H H'. split; [| intros; apply magnitude_mono; lia]. intros Hlt.
  destruct (Z.lt_trichotomy m m') as [| [-> | Hgt]]; [done | lia |].
  pose proof (magnitude_mono m' m ltac:(lia)). lia.
Qed.

Lemma magnitude_inj m m' : 0 <= m -> 0 <= m' -> magnitude f m = magnitude f m' -> m = m'.
Proof.
  intros H H' Heq. pose proof (magnitude_mono_iff m m' H H'). pose proof (magnitude_mono_iff m' m H' H). lia.
Qed.

Lemma magnitude_zero : magnitude f 0 = 0.
Proof. apply magnitude_small. pose proof pow_fraction_pos. lia. Qed.

Lemma magnitude_nonneg m : 0 <= m -> 0 <= magnitude f m.
Proof.
  intros H. destruct (Z.eq_dec m 0) as [-> |]; [by rewrite magnitude_zero |].
  pose proof (magnitude_mono 0 m). rewrite magnitude_zero in *. lia.
Qed.

(** A number between the midpoints around an encoding rounds to it. *)
Lemma rounds_intro num den m :
  0 < den -> 0 <= m <= infinity f ->
  (m = 0 -> 0 <= num) ->
  (0 < m -> (magnitude f (m - 1) + magnitude f m) * den <= 2 * num /\
     ((magnitude f (m - 1) + magnitude f m) * den = 2 * num -> Z.even m = true)) ->
  (m < infinity f -> 2 * num <= (magnitude f m + magnitude f (m + 1)) * den /\
     (2 * num = (magnitude f m + magnitude f (m + 1)) * den -> Z.even m = true)) ->
  rounds_to f num den m.
Proof.
  intros Hden Hm Hz Hlo Hhi. split; [done |]. intros m' Hm'.
  destruct (Z.lt_trichotomy m' m) as [Hlt | [-> | Hgt]].
  - specialize (Hlo ltac:(lia)) as [Hlo Hlo'].
    assert (magnitude f m' <= magnitude f (m - 1)) as H1.
    { destruct (Z.eq_dec m' (m - 1)) as [-> |]; [lia |]. apply Z.lt_le_incl, magnitude_mono. lia. }
    apply (Z.mul_le_mono_nonneg_r _ _ den) in H1; [| lia].
    pose proof (magnitude_mono (m - 1) m ltac:(lia)) as H2. apply (Z.mul_lt_mono_pos_r den) in H2; [| lia].
    rewrite Z.mul_add_distr_r in *. split; [lia |]. intros Heq _. apply Hlo'. lia.
  - lia.
  - specialize (Hhi ltac:(lia)) as [Hhi Hhi'].
    assert (magnitude f (m + 1) <= magnitude f m') as H1.
    { destruct (Z.eq_dec m' (m + 1)) as [-> |]; [lia |]. apply Z.lt_le_incl, magnitude_mono. lia. }
    apply (Z.mul_le_mono_nonneg_r _ _ den) in H1; [| lia].
    pose proof (magnitude_mono m (m + 1) ltac:(lia)) as H2. apply (Z.mul_lt_mono_pos_r den) in H2; [| lia].
    rewrite Z.mul_add_distr_r in *. split; [lia |]. intros Heq _. apply Hhi'. lia.
Qed.

(** Rounding is a function. *)
Lemma rounds_to_unique num den m1 m2 :
  0 < den -> rounds_to f num den m1 -> rounds_to f num den m2 -> m1 = m2.
Proof.
  intros Hden [H1 R1] [H2 R2]. destruct (Z.eq_dec m1 m2) as [| Hne]; [done | exfalso].
  destruct (R1 m2 H2) as [Ha Hb], (R2 m1 H1) as [Hc Hd].
  assert (Z.abs (num - magnitude f m1 * den) = Z.abs (num - magnitude f m2 * den)) as He by lia.
  specialize (Hb He ltac:(done)). specialize (Hd ltac:(done) ltac:(done)).
  assert (exists a b, a < b /\ (a = m1 /\ b = m2 \/ a = m2 /\ b = m1)) as (a & b & Hab & Hor).
  { destruct (Z.lt_ge_cases m1 m2); [by exists m1, m2; auto | exists m2, m1; split; [lia | auto]]. }
  assert (Z.even a = true /\ Z.even b = true) as [Hea Heb] by (destruct Hor as [[-> ->] | [-> ->]]; done).
  assert (a + 1 < b) as Hgap.
  { destruct (Z.eq_dec b (a + 1)) as [-> |]; [| lia]. rewrite Z.even_add, Hea in Heb. done. }
  assert (0 <= a /\ b <= infinity f) as [Ha0 Hb0] by lia.
  pose proof (magnitude_mono a (a + 1) ltac:(lia)) as L1. pose proof (magnitude_mono (a + 1) b ltac:(lia)) as L2.
  apply (Z.mul_lt_mono_pos_r den) in L1, L2; [| lia ..].
  assert (0 <= a + 1 <= infinity f) as Hin by lia.
  pose proof (proj1 (R1 (a + 1) Hin)). pose proof (proj1 (R2 (a + 1) Hin)).
  destruct Hor as [[-> ->] | [-> ->]]; lia.
Qed.
End Facts.

Lemma nearest_int_range num den n a b :
  0 < den -> nearest_int num den n -> a * den <= num <= b * den -> a <= n <= b.
Proof. intros Hd [H _] Hn. split; nia. Qed.
