(* ===== verification/StrictFloat.v ===== *)
(** * Floating-point operations on encodings

    [runtime/compiler/shared/strict_float.h]: the integer algorithms the interpreter and the
    JIT use where the host's floating-point instructions do not give the results of
    WebAssembly. A [UInt] of four or eight bytes is the [format] it encodes; its values are
    [Z] below [2 ^ width], and every operation that can leave the type is wrapped. Hosts
    with the signaling bit inverted ([needs_nan_canonicalization]) are the argument
    [legacy_nan]. *)

From stdpp Require Import base numbers.
From Stdlib Require Import ZArith Lia.
From S2P Require Import Prelude IeeeBits.
Open Scope Z_scope.

Section Bits.
Context (f : format).

(** Unsigned arithmetic of the encoding's type, and [u64]. *)
Definition uw (z : Z) : Z := wrap (width f) z.
Definition u64 (z : Z) : Z := wrap 64 z.

(** [UInt{1} << (sizeof(UInt) * 8u - 1u)], its complement, and [infinity]. *)
Definition sign : Z := uw (Z.shiftl 1 (width f - 1)).
Definition signless : Z := uw (Z.lnot sign).
Definition infinity_bits : Z :=
  match f with binary32 => 2139095040 | binary64 => 9218868437227405312 end.
Definition quiet : Z := uw (Z.shiftl 1 (fraction f - 1)).

(** The result is the encoding of the [Float]. *)
Definition canonical_nan : Z :=
  match f with binary32 => 2143289344 | binary64 => 9221120237041090560 end.

Definition quiet_arithmetic_nan (legacy_nan : bool) (raw : Z) : Z :=
  if infinity_bits <? Z.land raw signless then
    if legacy_nan then Z.lor infinity_bits quiet else Z.lor raw quiet
  else raw.

Inductive integral_rounding := ir_ceil | ir_floor | ir_trunc | ir_nearest.

Definition round_integral_bits (mode : integral_rounding) (raw : Z) : Z :=
  let one := uw (Z.shiftl (bias f) (fraction f)) in
  let magnitude := Z.land raw signless in
  if uw (Z.shiftl (bias f + fraction f) (fraction f)) <=? magnitude then
    if infinity_bits <? magnitude then Z.lor raw quiet else raw
  else if magnitude <? one then
    if magnitude =? 0 then raw
    else
      let zero := Z.land raw sign in
      match mode with
      | ir_ceil => if negb (zero =? 0) then zero else one
      | ir_floor => if negb (zero =? 0) then Z.lor zero one else zero
      | ir_trunc => zero
      | ir_nearest =>
          if uw (Z.shiftl (bias f - 1) (fraction f)) <? magnitude then Z.lor zero one else zero
      end
  else
    let shift := u32 (bias f + fraction f - Z.shiftr magnitude (fraction f)) in
    let step := uw (Z.shiftl 1 shift) in
    let mask := uw (step - 1) in
    let remainder := Z.land raw mask in
    let result := Z.land raw (uw (Z.lnot mask)) in
    match mode with
    | ir_ceil =>
        if (Z.land raw sign =? 0) && negb (remainder =? 0) then uw (result + step) else result
    | ir_floor =>
        if negb (Z.land raw sign =? 0) && negb (remainder =? 0) then uw (result + step) else result
    | ir_trunc => result
    | ir_nearest =>
        let halfway := Z.shiftr step 1 in
        if (halfway <? remainder) || ((remainder =? halfway) && negb (Z.land result step =? 0))
        then uw (result + step) else result
    end.

Definition minmax_bits (minimum : bool) (lhs rhs : Z) : Z :=
  if (infinity_bits <? Z.land lhs signless) || (infinity_bits <? Z.land rhs signless)
  then Z.lor infinity_bits quiet
  else if Z.land (Z.lor lhs rhs) signless =? 0 then
    if minimum then Z.lor lhs rhs else Z.land lhs rhs
  else
    let key x := if negb (Z.land x sign =? 0) then uw (Z.lnot x) else Z.lxor x sign in
    if (if minimum then key lhs <? key rhs else key rhs <? key lhs) then lhs else rhs.

Inductive comparison := cmp_eq | cmp_ne | cmp_lt | cmp_gt | cmp_le | cmp_ge.

Definition compare_ieee_bits (op : comparison) (lhs rhs : Z) : bool :=
  if (infinity_bits <? Z.land lhs signless) || (infinity_bits <? Z.land rhs signless)
  then match op with cmp_ne => true | _ => false end
  else
    let equal := (lhs =? rhs) || (Z.land (Z.lor lhs rhs) signless =? 0) in
    let less := negb equal &&
      (if negb (Z.land (Z.lxor lhs rhs) sign =? 0) then negb (Z.land lhs sign =? 0)
       else if negb (Z.land lhs sign =? 0) then rhs <? lhs else lhs <? rhs) in
    match op with
    | cmp_eq => equal
    | cmp_ne => negb equal
    | cmp_lt => less
    | cmp_le => less || equal
    | cmp_gt => negb less && negb equal
    | cmp_ge => negb less
    end.

(** [eval_float_sign_bits] and [eval_float_copysign_bits] of [optable/numeric.h]. *)
Definition float_abs_bits (value : Z) : Z := Z.land value signless.
Definition float_neg_bits (value : Z) : Z := Z.lxor value sign.
Definition eval_float_copysign_bits (left right : Z) : Z :=
  Z.lor (Z.land left signless) (Z.land right sign).

(** The conversion saturates to 32 bits, signed or not. *)
Definition trunc_sat_i32_bits (signed : bool) (raw : Z) : Z :=
  let magnitude := Z.land raw signless in
  let negative := negb (Z.land raw sign =? 0) in
  if (infinity_bits <? magnitude) || (magnitude <? uw (Z.shiftl (bias f) (fraction f))) then 0
  else if negb signed && negative then 0
  else
    let exponent := u32 (Z.shiftr magnitude (fraction f) - bias f) in
    if (if signed then 31 else 32) <=? exponent then
      if signed then if negative then 2147483648 else 2147483647 else 4294967295
    else
      let significand := Z.lor (uw (Z.shiftl 1 (fraction f)))
        (Z.land magnitude (uw (Z.shiftl 1 (fraction f) - 1))) in
      let result := u32 (if exponent <? fraction f then Z.shiftr significand (fraction f - exponent)
        else uw (Z.shiftl significand (exponent - fraction f))) in
      if negative then u32 (- result) else result.
End Bits.

(** ** Rounding of extended values *)

(** A 64-bit significand with an explicit leading bit, and the sign and the biased exponent
    of 15 bits. *)
Record extended_value := ExtendedValue { significand : Z; sign_exponent : Z }.

Definition round_shift_even (value shift : Z) : Z :=
  if 64 <? shift then 0
  else if shift =? 64 then (if Z.shiftl 1 63 <? value then 1 else 0)
  else if shift =? 0 then value
  else
    let truncated := Z.shiftr value shift in
    let remainder := Z.land value (u64 (u64 (Z.shiftl 1 shift) - 1)) in
    let halfway := u64 (Z.shiftl 1 (shift - 1)) in
    u64 (truncated + (if (halfway <? remainder) ||
      ((remainder =? halfway) && negb (Z.land truncated 1 =? 0)) then 1 else 0)).

Section Extended.
Context (f : format).

Definition round_extended (value : extended_value) : Z :=
  let precision := fraction f + 1 in
  let sign := u64 (Z.shiftl (Z.shiftr (sign_exponent value) 15) (width f - 1)) in
  let exponent := Z.land (sign_exponent value) 32767 in
  if exponent =? 32767 then
    let payload :=
      if Z.land (significand value) (u64 (Z.lnot (u64 (Z.shiftl 1 63)))) =? 0 then 0
      else u64 (Z.shiftl 1 (precision - 2)) in
    uw f (Z.lor (Z.lor sign (u64 (Z.shiftl (max_exponent f) (precision - 1)))) payload)
  else if significand value =? 0 then uw f sign
  else
    let result_exponent := exponent - 16383 + bias f in
    if result_exponent <=? 0 then
      uw f (Z.lor sign (round_shift_even (significand value)
        (u32 (64 - precision + u32 (1 - result_exponent)))))
    else
      let significand := round_shift_even (significand value) (64 - precision) in
      let '(significand, result_exponent) :=
        if significand =? u64 (Z.shiftl 1 precision)
        then (Z.shiftr significand 1, result_exponent + 1) else (significand, result_exponent) in
      if max_exponent f <=? result_exponent then
        uw f (Z.lor sign (u64 (Z.shiftl (max_exponent f) (precision - 1))))
      else
        uw f (Z.lor (Z.lor sign (u64 (Z.shiftl result_exponent (precision - 1))))
          (Z.land significand (u64 (u64 (Z.shiftl 1 (precision - 1)) - 1)))).

(** [std::countl_zero] of a non-zero 64-bit value. *)
Definition countl_zero (digits v : Z) : Z := if v =? 0 then digits else digits - 1 - Z.log2 v.

(** The argument is the value of an integer type of at most 64 bits. *)
Definition integer_to_float_bits (value : Z) : Z :=
  let negative := value <? 0 in
  let magnitude := if negative then u64 (0 - u64 value) else u64 value in
  if magnitude =? 0 then 0
  else
    let leading := countl_zero 64 magnitude in
    round_extended (ExtendedValue (u64 (Z.shiftl magnitude leading))
      (Z.lor (if negative then 32768 else 0) (u32 (16383 + 63 - leading)))).

Definition ieee_bits_to_extended (raw : Z) : extended_value :=
  let sign := u32 (Z.shiftl (u32 (Z.shiftr raw (width f - 1))) 15) in
  let exponent := u32 (Z.land (Z.shiftr raw (fraction f)) (max_exponent f)) in
  let payload := Z.land (u64 raw) (u64 (u64 (Z.shiftl 1 (fraction f)) - 1)) in
  if exponent =? max_exponent f then
    ExtendedValue (Z.lor (u64 (Z.shiftl 1 63)) (u64 (Z.shiftl payload (63 - fraction f)))) (Z.lor sign 32767)
  else if exponent =? 0 then
    if payload =? 0 then ExtendedValue 0 sign
    else
      let shift := countl_zero 64 payload in
      ExtendedValue (u64 (Z.shiftl payload shift))
        (Z.lor sign (u32 (16383 + 64 - shift - bias f - fraction f)))
  else
    ExtendedValue (u64 (Z.shiftl (Z.lor (u64 (Z.shiftl 1 (fraction f))) payload) (63 - fraction f)))
      (Z.lor sign (u32 (exponent + 16383 - bias f))).
End Extended.

(** [convert<float>(double)] where binary64 is evaluated in extended registers: the input and
    the result are encodings. *)
Definition demote_extended (bits : Z) : Z :=
  let exponent := Z.land (Z.shiftr bits 52) 2047 in
  let fraction := Z.land bits (u64 (u64 (Z.shiftl 1 52) - 1)) in
  let sign := u32 (Z.shiftl (u32 (Z.shiftr bits 63)) 15) in
  if exponent =? 2047 then
    round_extended binary32
      (ExtendedValue (Z.lor (u64 (Z.shiftl 1 63)) (u64 (Z.shiftl fraction 11))) (Z.lor sign 32767))
  else if exponent =? 0 then u32 (Z.shiftl (u32 sign) 16)
  else
    round_extended binary32
      (ExtendedValue (u64 (Z.shiftl (Z.lor (u64 (Z.shiftl 1 52)) fraction) 11))
        (Z.lor sign (u32 (exponent + 16383 - 1023)))).

(** A lane of [f32x4.demote_f64x2_zero] and [f64x2.promote_low_f32x4] on targets that keep
    floating-point values out of their calling convention ([wasm1p1_simd.h]). *)
Definition convert_lane (input output : format) (raw : Z) : Z :=
  round_extended output (ieee_bits_to_extended input raw).

(** ** Operations evaluated in extended registers *)

Inductive operation := op_add | op_sub | op_mul | op_div.

(** What the instructions of [evaluate_extended] leave in memory: the ten bytes of the result
    and the status word. The processor is the argument [fpu]. *)
Record raw_extended := RawExtended { raw_significand : Z; raw_sign_exponent : Z; status : Z }.

Definition evaluate_extended (fpu : operation -> Z -> Z -> raw_extended) (op : operation) (lhs rhs : Z) : extended_value :=
  let raw := fpu op lhs rhs in
  ExtendedValue (Z.lor (raw_significand raw) (if negb (Z.land (status raw) 32 =? 0) then 1 else 0))
    (raw_sign_exponent raw).

(** The encoding that [slow_operation] returns. *)
Definition slow_operation (f : format) (fpu : operation -> Z -> Z -> raw_extended) (op : operation) (lhs rhs : Z) : Z :=
  round_extended f (evaluate_extended fpu op lhs rhs).
