(* ===== verification/StrictFloatCorrect.v ===== *)
(** * Correctness of the floating-point operations on encodings

    The operations of [StrictFloat] against the values of [IeeeBits]: rounding to an
    integer, comparison, minimum and maximum, and saturating truncation. *)

From stdpp Require Import base numbers.
From Stdlib Require Import ZArith Lia.
From S2P Require Import Prelude IeeeBits StrictFloat.
Open Scope Z_scope.

(** ** Masks as divisions *)

Lemma land_lnot_ones a n digits :
  0 <= n <= digits -> 0 <= a < 2 ^ digits ->
  Z.land a (wrap digits (Z.lnot (2 ^ n - 1))) = a - a mod 2 ^ n.
Proof.
  intros Hn Ha. replace (a - a mod 2 ^ n) with (Z.shiftl (Z.shiftr a n) n).
  2: { rewrite Z.shiftl_mul_pow2, Z.shiftr_div_pow2 by lia.
       pose proof (Z.div_mod a (2 ^ n) ltac:(apply Z.pow_nonzero; lia)). lia. }
  replace (2 ^ n - 1) with (Z.ones n) by (rewrite Z.ones_equiv; lia).
  unfold wrap. apply Z.bits_inj'. intros i Hi. rewrite Z.land_spec, Z.shiftl_spec by lia.
  destruct (Z.lt_ge_cases i digits) as [Hlt | Hge].
  - rewrite Z.mod_pow2_bits_low, Z.lnot_spec, Z.testbit_ones_nonneg by lia.
    destruct (Z.ltb_spec i n).
    + rewrite andb_false_r. by rewrite Z.testbit_neg_r by lia.
    + rewrite andb_true_r, Z.shiftr_spec by lia. f_equal. lia.
  - rewrite Z.mod_pow2_bits_high, andb_false_r by lia.
    rewrite Z.shiftr_spec by lia. replace (i - n + n) with i by lia.
    rewrite <- (Z.mod_small a (2 ^ digits)) by lia. by rewrite Z.mod_pow2_bits_high by lia.
Qed.

Lemma lor_pow2_add a n : 0 <= n -> 0 <= a < 2 ^ n -> Z.lor (2 ^ n) a = 2 ^ n + a.
Proof.
  intros Hn Ha. rewrite Z.lor_comm. replace (2 ^ n) with (Z.shiftl 1 n) at 1 by (rewrite Z.shiftl_1_l; done).
  rewrite lor_shiftl_add by lia. lia.
Qed.

(** Testing one bit with a mask. *)
Lemma land_pow2_odd a k : 0 <= k -> (Z.land a (2 ^ k) =? 0) = negb (Z.odd (a / 2 ^ k)).
Proof.
  intros Hk. rewrite <- Z.shiftr_div_pow2, <- Z.testbit_odd by lia.
  replace (Z.land a (2 ^ k)) with (if Z.testbit a k then 2 ^ k else 0).
  - pose proof (Z.pow_pos_nonneg 2 k). destruct (Z.testbit a k); simpl; lia.
  - apply Z.bits_inj'. intros i Hi. rewrite Z.land_spec, Z.pow2_bits_eqb by lia.
    destruct (Z.eqb_spec k i) as [-> | Hne].
    + destruct (Z.testbit a i); [by rewrite Z.pow2_bits_true by lia | by rewrite Z.bits_0].
    + rewrite andb_false_r. destruct (Z.testbit a k); [by rewrite Z.pow2_bits_false by lia | by rewrite Z.bits_0].
Qed.

(** ** The parts of an encoding *)

Section Parts.
Context (f : format).
Let F := fraction f.
Let B := 2 ^ (width f - 1).

Lemma sign_eq : sign f = 2 ^ (width f - 1).
Proof. by destruct f. Qed.
Lemma signless_eq : signless f = 2 ^ (width f - 1) - 1.
Proof. by destruct f. Qed.
Lemma infinity_bits_eq : infinity_bits f = infinity f.
Proof. by destruct f. Qed.
Lemma quiet_eq : quiet f = 2 ^ (fraction f - 1).
Proof. by destruct f. Qed.
Lemma exponent_bits k : 0 <= k <= max_exponent f -> uw f (Z.shiftl k F) = k * 2 ^ F.
Proof.
  intros H. unfold uw, wrap. rewrite Z.shiftl_mul_pow2 by (unfold F; destruct f; simpl; lia).
  apply Z.mod_small. rewrite width_split, sign_bit_split. pose proof (pow_fraction_pos f).
  unfold F in *.
  pose proof (Z.mul_le_mono_nonneg_r k (max_exponent f) (2 ^ fraction f)).
  pose proof (Z.mul_nonneg_nonneg k (2 ^ fraction f)). pose proof (Z.mul_nonneg_nonneg (max_exponent f) (2 ^ fraction f)). lia.
Qed.

Lemma land_signless raw : encoding f raw -> Z.land raw (signless f) = magnitude_of f raw.
Proof.
  intros H. rewrite signless_eq. unfold magnitude_of. rewrite <- Z.land_ones by (destruct f; simpl; lia).
  f_equal. rewrite Z.ones_equiv. lia.
Qed.

Lemma sign_mask_zero raw : encoding f raw -> (Z.land raw (sign f) =? 0) = negb (sign_of f raw).
Proof.
  intros H. rewrite sign_eq. unfold encoding in H.
  rewrite land_pow2_eqb; [| by destruct f | by replace (width f - 1 + 1) with (width f) by lia].
  unfold sign_of. by rewrite Z.leb_antisym, negb_involutive.
Qed.

Lemma land_sign raw : encoding f raw -> Z.land raw (sign f) = if sign_of f raw then B else 0.
Proof.
  intros H. pose proof (sign_mask_zero raw H) as Hz. pose proof H as [E Hm]%encoding_split.
  destruct (sign_of f raw); [| by apply Z.eqb_eq].
  apply Z.eqb_neq in Hz. rewrite E, sign_eq. fold B in Hm |- *.
  rewrite <- (lor_pow2_add _ (width f - 1)) by (unfold B in Hm; lia || (destruct f; simpl; lia)).
  rewrite Z.land_lor_distr_l, Z.land_diag. fold B.
  replace (Z.land (magnitude_of f raw) B) with 0; [apply Z.lor_0_r |].
  symmetry. apply Z.eqb_eq. unfold B in *. rewrite land_pow2_eqb.
  - apply Z.ltb_lt. lia.
  - destruct f; simpl; lia.
  - replace (width f - 1 + 1) with (width f) by lia. rewrite width_split. lia.
Qed.

(** Building an encoding back from a sign and a magnitude. *)
Definition signed (s : bool) (m : Z) : Z := (if s then B else 0) + m.

Lemma signed_parts s m :
  0 <= m < B -> encoding f (signed s m) /\ sign_of f (signed s m) = s /\ magnitude_of f (signed s m) = m.
Proof.
  intros Hm. assert (encoding f (signed s m)) as He
    by (unfold encoding, signed; rewrite width_split; fold B; destruct s; lia).
  assert (sign_of f (signed s m) = s) as Hs.
  { unfold sign_of, signed. fold B. destruct s; [apply Z.leb_le | apply Z.leb_gt]; lia. }
  split_and!; [done | done |]. destruct (encoding_split f _ He) as [E _]. rewrite Hs in E.
  unfold signed in E at 1. fold B in E. lia.
Qed.

Lemma signed_eta raw : encoding f raw -> raw = signed (sign_of f raw) (magnitude_of f raw).
Proof. apply encoding_split. Qed.

Lemma signed_value s m : 0 <= m < B -> value f (signed s m) = (if s then -1 else 1) * magnitude f m.
Proof. intros H. destruct (signed_parts s m H) as (_ & Hs & Hm). unfold value. by rewrite Hs, Hm. Qed.

Lemma lor_signed (s : bool) m : 0 <= m < B -> Z.lor (if s then B else 0) m = signed s m.
Proof.
  intros Hm. unfold signed, B in *. destruct s; [| done].
  apply lor_pow2_add; [destruct f; simpl; lia | done].
Qed.
End Parts.

(** ** Rounding to an integer *)

Definition sgn (s : bool) (v : Z) : Z := if s then - v else v.

Section Rounds.
Context (U : Z) (HU : 0 < U).

(** [n] is the integer the mode gives for the number [v / U]. *)
Definition integral_of (mode : integral_rounding) (v n : Z) : Prop :=
  match mode with
  | ir_ceil => n = - (- v / U)
  | ir_floor => n = v / U
  | ir_trunc => n = Z.quot v U
  | ir_nearest => nearest_int v U n
  end.

(** Whether the magnitude [w] of a number of sign [s] is rounded up. *)
Definition rounds_up (mode : integral_rounding) (s : bool) (w : Z) : bool :=
  match mode with
  | ir_ceil => negb s && negb (w mod U =? 0)
  | ir_floor => s && negb (w mod U =? 0)
  | ir_trunc => false
  | ir_nearest => (U <? 2 * (w mod U)) || ((U =? 2 * (w mod U)) && Z.odd (w / U))
  end.

Lemma floor_opp w : - w / U = - (w / U + Z.b2z (negb (w mod U =? 0))).
Proof.
  pose proof (Z.div_mod w U ltac:(lia)) as E. pose proof (Z.mod_pos_bound w U ltac:(lia)).
  destruct (Z.eqb_spec (w mod U) 0) as [Hz | Hz]; simpl.
  - symmetry. apply (Z.div_unique (- w) U _ 0); [lia | nia].
  - symmetry. apply (Z.div_unique (- w) U _ (U - w mod U)); [lia | nia].
Qed.

Lemma nearest_up w (up : bool) :
  up = rounds_up ir_nearest false w -> nearest_int w U (w / U + Z.b2z up).
Proof.
  pose proof (Z.div_mod w U ltac:(lia)) as E. pose proof (Z.mod_pos_bound w U ltac:(lia)) as Hr.
  simpl. unfold nearest_int. remember (w / U) as q eqn:Eq. remember (w mod U) as r eqn:Er. clear Eq Er.
  assert (forall b, w - (q + b) * U = r - b * U) as Ed by (intros; rewrite E; ring).
  intros ->. rewrite Ed. destruct (Z.ltb_spec U (2 * r)); [simpl; split; lia |].
  destruct (Z.eqb_spec U (2 * r)); simpl; [| split; lia].
  destruct (Z.odd q) eqn:Ho; simpl; (split; [lia | intros _]).
  - by rewrite Z.even_add, <- Z.negb_odd, Ho.
  - by rewrite Z.add_0_r, <- Z.negb_odd, Ho.
Qed.

Lemma nearest_opp num n : nearest_int num U n -> nearest_int (- num) U (- n).
Proof.
  unfold nearest_int. replace (- num - - n * U) with (- (num - n * U)) by ring.
  by rewrite Z.abs_opp, Z.even_opp.
Qed.

Lemma integral_of_rounds_up mode s w :
  0 <= w -> integral_of mode (sgn s w) (sgn s (w / U + Z.b2z (rounds_up mode s w))).
Proof.
  intros Hw. pose proof (floor_opp w) as Hf. unfold sgn.
  destruct mode; cbn [integral_of rounds_up]; destruct s; cbn [negb andb Z.b2z];
    rewrite ?Z.add_0_r, ?Z.opp_involutive; try lia.
  - rewrite Z.quot_opp_l, Z.quot_div_nonneg by lia. done.
  - by rewrite Z.quot_div_nonneg by lia.
  - apply nearest_opp, nearest_up. done.
  - by apply nearest_up.
Qed.
End Rounds.

Section Integral.
Context (f : format).
Let F := fraction f.
Let B := 2 ^ (width f - 1).
Let U := unit_value f.

Lemma unit_pos : 0 < U.
Proof. apply Z.pow_pos_nonneg; [lia |]. pose proof (format_facts f). lia. Qed.

Lemma magnitude_one : magnitude f (bias f * 2 ^ F) = U.
Proof.
  pose proof (format_facts f) as Hf. pose proof (pow_fraction_pos f) as HF. fold F in Hf, HF.
  rewrite <- (Z.add_0_r (_ * _)), magnitude_linear by lia. fold F.
  rewrite (proj2 (Z.eqb_neq _ 0)) by lia. rewrite Z.add_0_r, <- Z.pow_add_r by lia.
  unfold U, unit_value. f_equal. unfold F. lia.
Qed.

Lemma magnitude_half : 2 * magnitude f ((bias f - 1) * 2 ^ F) = U.
Proof.
  pose proof (format_facts f) as Hf. pose proof (pow_fraction_pos f) as HF. fold F in Hf, HF.
  rewrite <- (Z.add_0_r ((bias f - 1) * 2 ^ F)), magnitude_linear by lia. fold F.
  rewrite (proj2 (Z.eqb_neq _ 0)) by lia. rewrite Z.add_0_r, <- Z.pow_add_r, <- Z.pow_succ_r by lia.
  unfold U, unit_value. f_equal. unfold F. lia.
Qed.

(** The encoding of the rounded number: [m] and [m'] are magnitudes of the same sign. *)
Definition rounded_magnitude (mode : integral_rounding) (s : bool) (m m' : Z) : Prop :=
  0 <= m' < infinity f /\
  magnitude f m' = (magnitude f m / U + Z.b2z (rounds_up U mode s (magnitude f m))) * U.

Lemma rounded_signed mode s m m' :
  0 <= m -> rounded_magnitude mode s m m' ->
  encoding f (signed f s m') /\ is_finite f (signed f s m') = true /\ sign_of f (signed f s m') = s /\
  exists n, value f (signed f s m') = n * U /\ integral_of U mode (sgn s (magnitude f m)) n.
Proof.
  intros Hm [Hm' Hv]. pose proof (infinity_lt f). pose proof unit_pos.
  destruct (signed_parts f s m' ltac:(lia)) as (He & Hs & Hmag).
  split_and!; [done | unfold is_finite; rewrite Hmag; lia | done |].
  exists (sgn s (magnitude f m / U + Z.b2z (rounds_up U mode s (magnitude f m)))). split.
  - rewrite signed_value by lia. rewrite Hv. unfold sgn. destruct s; lia.
  - apply integral_of_rounds_up; [lia |]. by apply magnitude_nonneg.
Qed.

Lemma rounded_zero mode s : rounded_magnitude mode s 0 0.
Proof.
  pose proof unit_pos as HU. unfold rounded_magnitude, rounds_up. rewrite magnitude_zero, Z.div_0_l, Z.mod_0_l by lia.
  rewrite (proj2 (Z.ltb_ge U _)), (proj2 (Z.eqb_neq U _)) by lia.
  split; [by destruct f | by destruct mode, s].
Qed.

Lemma rounded_large mode s m :
  (bias f + F) * 2 ^ F <= m < infinity f -> rounded_magnitude mode s m m.
Proof.
  intros Hm. pose proof (format_facts f) as Hf. fold F in Hf.
  pose proof (pow_fraction_pos f) as HF. fold F in HF. pose proof unit_pos as HU.
  split; [split; [| lia]; pose proof (Z.mul_nonneg_nonneg (bias f + F) (2 ^ F)); lia |].
  destruct (magnitude_parts f m ltac:(pose proof (Z.mul_nonneg_nonneg (bias f + F) (2 ^ F)); lia))
    as (e & g & -> & He & Hg). fold F in Hm, Hg |- *.
  assert (bias f + F <= e) by (destruct (Z.le_gt_cases (bias f + F) e); [done | nia]).
  rewrite magnitude_linear by (fold F; lia). fold F. rewrite (proj2 (Z.eqb_neq e 0)) by lia.
  replace (e - 1) with (e - bias f - F + (bias f + F - 1)) by lia.
  rewrite Z.pow_add_r, Z.mul_assoc by lia. change (2 ^ (bias f + F - 1)) with U.
  rewrite Z.div_mul by lia. unfold rounds_up. rewrite Z.mod_mul by lia. simpl.
  rewrite !andb_false_r, (proj2 (Z.ltb_ge U _)), (proj2 (Z.eqb_neq U _)) by lia.
  destruct mode; simpl; lia.
Qed.

Lemma rounded_small mode s m m' :
  0 < m < bias f * 2 ^ F ->
  m' = (if match mode with ir_ceil => negb s | ir_floor => s | ir_trunc => false
           | ir_nearest => (bias f - 1) * 2 ^ F <? m end then bias f * 2 ^ F else 0) ->
  rounded_magnitude mode s m m'.
Proof.
  intros Hm ->. pose proof (format_facts f) as Hf. fold F in Hf.
  pose proof (pow_fraction_pos f) as HF. fold F in HF. pose proof unit_pos as HU.
  assert (0 < magnitude f m < U) as Hv.
  { rewrite <- magnitude_one, <- (magnitude_zero f). split; apply magnitude_mono; lia. }
  unfold rounded_magnitude.
  assert (rounds_up U mode s (magnitude f m) = match mode with ir_ceil => negb s | ir_floor => s
    | ir_trunc => false | ir_nearest => (bias f - 1) * 2 ^ F <? m end) as ->.
  { unfold rounds_up. rewrite Z.mod_small, Z.div_small by lia.
    rewrite (proj2 (Z.eqb_neq _ 0)) by lia. simpl. rewrite !andb_true_r, andb_false_r, orb_false_r.
    destruct mode; try done. pose proof magnitude_half as Hh.
    pose proof (magnitude_mono_iff f ((bias f - 1) * 2 ^ F) m ltac:(nia) ltac:(lia)).
    apply eq_true_iff_eq. rewrite !Z.ltb_lt. lia. }
  rewrite Z.div_small by lia.
  destruct (match mode with ir_ceil => _ | _ => _ end); simpl.
  - rewrite magnitude_one. split; [| lia]. unfold infinity. fold F. nia.
  - rewrite magnitude_zero. split; [| lia]. unfold infinity. fold F. nia.
Qed.

Lemma rounded_normal mode s e g m' :
  bias f <= e < bias f + F -> 0 <= g < 2 ^ F ->
  let m := e * 2 ^ F + g in
  let step := 2 ^ (bias f + F - e) in
  m' = m - m mod step + (if match mode with
      | ir_ceil => negb s && negb (m mod step =? 0) | ir_floor => s && negb (m mod step =? 0)
      | ir_trunc => false
      | ir_nearest => (step <? 2 * (m mod step)) || ((step =? 2 * (m mod step)) && Z.odd (m / step))
      end then step else 0) ->
  rounded_magnitude mode s m m'.
Proof.
  intros He Hg m step ->. pose proof (format_facts f) as Hf. fold F in Hf.
  pose proof (pow_fraction_pos f) as HF. fold F in HF.
  set (k := 2 ^ (e - bias f)). set (W := 2 ^ (e - 1)).
  assert (2 ^ F = k * step) as Ek by (unfold k, step; rewrite <- Z.pow_add_r by lia; f_equal; lia).
  assert (U = W * step) as EU
    by (unfold U, unit_value, W, step; rewrite <- Z.pow_add_r by lia; f_equal; unfold F; lia).
  assert (0 < k /\ 0 < step /\ 0 < W) as (Hk & Hstep & HW)
    by (unfold k, step, W; split_and!; apply Z.pow_pos_nonneg; lia).
  (* the significand and the encoding agree modulo the step *)
  set (q := g / step). set (r := g mod step).
  assert (g = q * step + r /\ 0 <= r < step /\ 0 <= q < k) as (Eg & Hr & Hq).
  { pose proof (Z.div_mod g step ltac:(lia)) as E. fold q r in E. pose proof (Z.mod_pos_bound g step ltac:(lia)) as Hr.
    fold r in Hr. split_and!; [lia | lia | lia | apply Z.div_pos; lia | apply Z.div_lt_upper_bound; lia]. }
  assert (m / step = e * k + q /\ m mod step = r) as [Emq Emr].
  { unfold m. split; symmetry; [apply (Z.div_unique _ _ _ r) | apply (Z.mod_unique _ _ (e * k + q))]; nia. }
  assert (magnitude f m = W * ((k + q) * step + r)) as Ev.
  { unfold m. rewrite magnitude_linear by (fold F; lia). fold F W. rewrite (proj2 (Z.eqb_neq e 0)) by lia. nia. }
  assert (magnitude f m / U = k + q /\ magnitude f m mod U = W * r) as [Evq Evr].
  { rewrite Ev, EU. split; symmetry; [apply (Z.div_unique _ _ _ (W * r)) | apply (Z.mod_unique _ _ (k + q))]; nia. }
  assert (Z.odd (e * k + q) = Z.odd (k + q)) as Eodd.
  { rewrite !Z.odd_add, Z.odd_mul. destruct (Z.eq_dec e (bias f)) as [-> | Hne].
    - unfold k. rewrite Z.sub_diag. by destruct f.
    - unfold k. replace (e - bias f) with (Z.succ (e - bias f - 1)) by lia.
      rewrite Z.pow_succ_r, Z.odd_mul, andb_false_r by lia. done. }
  unfold rounded_magnitude, rounds_up. rewrite Evq, Evr, Emr, Emq, Eodd.
  assert ((W * r =? 0) = (r =? 0)) as -> by (apply eq_true_iff_eq; rewrite !Z.eqb_eq; nia).
  assert ((U <? 2 * (W * r)) = (step <? 2 * r)) as -> by (apply eq_true_iff_eq; rewrite !Z.ltb_lt, EU; nia).
  assert ((U =? 2 * (W * r)) = (step =? 2 * r)) as -> by (apply eq_true_iff_eq; rewrite !Z.eqb_eq, EU; nia).
  set (up := match mode with ir_ceil => _ | _ => _ end).
  replace (m - r + (if up then step else 0)) with (e * 2 ^ F + (q + Z.b2z up) * step)
    by (unfold m; destruct up; simpl; lia).
  assert (0 <= (q + Z.b2z up) * step <= 2 ^ F) as Hg'.
  { rewrite Ek. split; [| apply Z.mul_le_mono_nonneg_r]; destruct up; simpl; nia. }
  split; [| rewrite magnitude_linear by (fold F; lia); fold F W;
    rewrite (proj2 (Z.eqb_neq e 0)) by lia; rewrite EU, Ek; ring].
  unfold infinity. fold F. nia.
Qed.

Lemma step_bits e : bias f <= e < bias f + F ->
  uw f (Z.shiftl 1 (u32 (bias f + F - e))) = 2 ^ (bias f + F - e).
Proof.
  intros He. pose proof (format_facts f) as Hf. fold F in Hf. unfold u32, wrap at 1.
  rewrite Z.mod_small by lia. rewrite Z.shiftl_1_l. unfold uw, wrap. apply Z.mod_small.
  split; [apply Z.pow_nonneg; lia | apply Z.pow_lt_mono_r; lia].
Qed.

(** What the masks of the general case compute, on an encoding of sign [s] and magnitude
    [e * 2 ^ F + g]. *)
Lemma normal_parts raw e g :
  encoding f raw -> magnitude_of f raw = e * 2 ^ F + g -> 0 <= g < 2 ^ F -> bias f <= e < bias f + F ->
  let m := magnitude_of f raw in
  let s := sign_of f raw in
  let step := 2 ^ (bias f + F - e) in
  uw f (Z.shiftl 1 (u32 (bias f + F - Z.shiftr m F))) = step /\ uw f (step - 1) = step - 1 /\
  2 * Z.shiftr step 1 = step /\
  Z.land raw (step - 1) = m mod step /\
  Z.land raw (uw f (Z.lnot (step - 1))) = signed f s (m - m mod step) /\
  negb (Z.land (signed f s (m - m mod step)) step =? 0) = Z.odd (m / step) /\
  uw f (signed f s (m - m mod step) + step) = signed f s (m - m mod step + step).
Proof.
  intros He Em Hg Hexp m s step. pose proof (encoding_split f raw He) as [Eraw Hm]. fold m s in Eraw, Hm, Em.
  pose proof (format_facts f) as Hf. fold F in Hf. pose proof (pow_fraction_pos f) as HF. fold F in HF.
  assert (0 < step) as Hstep by (apply Z.pow_pos_nonneg; lia).
  assert (2 * step <= 2 * 2 ^ F) as HstepF by (apply Z.mul_le_mono_nonneg_l; [lia |]; apply Z.pow_le_mono_r; lia).
  assert (B = 2 ^ (width f - 2 - (bias f + F - e)) * 2 * step) as EB.
  { unfold B, step. rewrite <- Z.mul_assoc, <- Z.pow_succ_r, <- Z.pow_add_r by lia. f_equal. lia. }
  set (c := 2 ^ (width f - 2 - (bias f + F - e))) in *.
  assert (0 <= c) as Hc by (apply Z.pow_nonneg; lia).
  fold B in Eraw, Hm.
  pose proof (Z.div_mod m step ltac:(lia)) as Emd. pose proof (Z.mod_pos_bound m step ltac:(lia)) as Hmod.
  assert (raw mod step = m mod step) as Erm.
  { rewrite Eraw. destruct s; [| by rewrite Z.add_0_l].
    rewrite EB. rewrite Z.add_comm, Z.mod_add by lia. done. }
  assert (2 ^ F < B) as HFB by (unfold B; apply Z.pow_lt_mono_r; lia).
  assert (m - m mod step + step < B) as Hup.
  { assert (m < (bias f + F) * 2 ^ F) by nia. unfold B. rewrite sign_bit_split. fold F. nia. }
  split_and!.
  - unfold step. rewrite <- (step_bits e) by done. do 3 f_equal. rewrite Em, Z.shiftr_div_pow2 by lia.
    rewrite <- (Z.div_unique _ (2 ^ F) e g) by lia. done.
  - unfold uw, wrap. apply Z.mod_small. rewrite width_split. fold B. lia.
  - unfold step. rewrite Z.shiftr_div_pow2 by lia.
    replace (bias f + F - e) with (Z.succ (bias f + F - e - 1)) by lia. rewrite Z.pow_succ_r by lia. lia.
  - rewrite <- Erm. unfold step. rewrite <- Z.land_ones by lia. f_equal. rewrite Z.ones_equiv. lia.
  - unfold uw, step. rewrite land_lnot_ones by (lia || done). fold step. rewrite Erm, Eraw. unfold signed. fold B. lia.
  - unfold step. rewrite land_pow2_odd by lia. fold step. rewrite negb_involutive.
    replace (signed f s (m - m mod step) / step) with ((if s then c * 2 else 0) + m / step).
    { destruct s; [| done]. by rewrite Z.odd_add, Z.odd_mul, andb_false_r. }
    apply (Z.div_unique _ _ _ 0); [lia |]. unfold signed. fold B. rewrite EB. destruct s; lia.
  - unfold uw, wrap, signed. fold B. rewrite Z.mod_small; [lia |]. rewrite width_split. fold B. destruct s; lia.
Qed.

(** The three branches of the function that return numbers are the three cases above. *)
Lemma round_integral_bits_finite mode raw :
  encoding f raw -> is_finite f raw = true ->
  exists m', round_integral_bits f mode raw = signed f (sign_of f raw) m' /\
    rounded_magnitude mode (sign_of f raw) (magnitude_of f raw) m'.
Proof.
  intros He Hfin. pose proof (encoding_split f raw He) as [Eraw Hm]. unfold is_finite in Hfin.
  pose proof (format_facts f) as Hf. fold F in Hf. pose proof (pow_fraction_pos f) as HF. fold F in HF.
  unfold round_integral_bits. fold F. rewrite !(exponent_bits f) by lia. fold F.
  rewrite land_signless, infinity_bits_eq by done.
  set (m := magnitude_of f raw) in *. set (s := sign_of f raw) in *.
  destruct (Z.leb_spec ((bias f + F) * 2 ^ F) m) as [Hlarge | Hlarge].
  { rewrite (proj2 (Z.ltb_ge _ _)) by lia. exists m. split; [done | apply rounded_large; lia]. }
  destruct (Z.ltb_spec m (bias f * 2 ^ F)) as [Hsmall | Hsmall].
  { destruct (Z.eqb_spec m 0) as [Hz | Hz]; [exists 0; split; [unfold signed; lia | rewrite Hz; apply rounded_zero] |].
    rewrite land_sign by done. fold B s.
    exists (if match mode with ir_ceil => negb s | ir_floor => s | ir_trunc => false
           | ir_nearest => (bias f - 1) * 2 ^ F <? m end then bias f * 2 ^ F else 0).
    split; [| apply rounded_small; [lia | done]].
    assert (0 <= bias f * 2 ^ F < B) as Hone by (unfold B; rewrite sign_bit_split; fold F; nia).
    assert (0 < B) as HB by (unfold B; lia).
    assert ((B =? 0) = false) as HB0 by lia.
    destruct mode.
    - destruct s; cbn [negb]; rewrite ?HB0; cbn [negb Z.eqb]; unfold signed; fold B; lia.
    - destruct s; cbn [negb]; rewrite ?HB0; cbn [negb Z.eqb];
        rewrite ?(lor_signed f true) by done; unfold signed; fold B; lia.
    - destruct s; unfold signed; fold B; lia.
    - destruct (_ <? m); [apply lor_signed; exact Hone | unfold signed; fold B; lia]. }
  destruct (magnitude_parts f m ltac:(lia)) as (e & g & Em & Hepos & Hg). fold F in Em, Hg.
  assert (bias f <= e < bias f + F) as Hexp by (split; apply Z.nlt_ge || apply Z.nle_gt; intros ?; nia).
  pose proof (normal_parts raw e g He Em Hg Hexp) as Hp. cbv zeta in Hp. fold m s in Hp.
  destruct Hp as (-> & -> & Ehalf & -> & -> & -> & ->). set (step := 2 ^ (bias f + F - e)) in *.
  eexists. split; [| rewrite Em; eapply rounded_normal; [done | done | reflexivity]].
  rewrite <- Em. fold step. rewrite (sign_mask_zero f raw He). fold s.
  destruct mode; rewrite ?negb_involutive, ?Z.add_0_r.
  - by destruct (negb s && _); rewrite ?Z.add_0_r.
  - by destruct (s && _); rewrite ?Z.add_0_r.
  - done.
  - replace (Z.shiftr step 1 <? m mod step) with (step <? 2 * (m mod step)) by lia.
    replace (m mod step =? Z.shiftr step 1) with (step =? 2 * (m mod step)) by lia.
    by destruct (_ || _); rewrite ?Z.add_0_r.
Qed.
End Integral.

(** ** Order *)

Section Order.
Context (f : format).
Let B := 2 ^ (width f - 1).

(** Numbers, infinities included, are ordered as sign and magnitude. *)
Lemma value_lt l r :
  encoding f l -> encoding f r ->
  value f l < value f r <->
    sgn (sign_of f l) (magnitude_of f l) < sgn (sign_of f r) (magnitude_of f r).
Proof.
  intros [El Hl]%encoding_split [Er Hr]%encoding_split. unfold value.
  pose proof (magnitude_mono_iff f (magnitude_of f l) (magnitude_of f r)).
  pose proof (magnitude_mono_iff f (magnitude_of f r) (magnitude_of f l)).
  pose proof (magnitude_mono_iff f 0 (magnitude_of f l)). pose proof (magnitude_mono_iff f 0 (magnitude_of f r)).
  pose proof (magnitude_nonneg f (magnitude_of f l)). pose proof (magnitude_nonneg f (magnitude_of f r)).
  rewrite magnitude_zero in *. unfold sgn. destruct (sign_of f l), (sign_of f r); lia.
Qed.

Lemma sign_mask_xor l r :
  encoding f l -> encoding f r ->
  (Z.land (Z.lxor l r) (sign f) =? 0) = Bool.eqb (sign_of f l) (sign_of f r).
Proof.
  intros Hl Hr.
  assert (Z.land (Z.lxor l r) (sign f) = Z.lxor (Z.land l (sign f)) (Z.land r (sign f))) as ->.
  { apply Z.bits_inj'. intros i Hi. rewrite !Z.land_spec, !Z.lxor_spec, !Z.land_spec.
    by destruct (Z.testbit l i), (Z.testbit r i), (Z.testbit (sign f) i). }
  rewrite !land_sign by done. fold B. assert (0 < B) by (apply Z.pow_pos_nonneg; destruct f; simpl; lia).
  destruct (sign_of f l), (sign_of f r); rewrite ?Z.lxor_nilpotent, ?Z.lxor_0_l, ?Z.lxor_0_r; simpl; lia.
Qed.

Lemma both_zero l r :
  encoding f l -> encoding f r ->
  (Z.land (Z.lor l r) (signless f) =? 0) = (magnitude_of f l =? 0) && (magnitude_of f r =? 0).
Proof.
  intros Hl Hr. rewrite Z.land_lor_distr_l, !land_signless by done.
  apply eq_true_iff_eq. rewrite andb_true_iff, !Z.eqb_eq. apply Z.lor_eq_0_iff.
Qed.

Definition compare_values (op : comparison) (a b : Z) : bool :=
  match op with
  | cmp_eq => a =? b | cmp_ne => negb (a =? b) | cmp_lt => a <? b
  | cmp_gt => b <? a | cmp_le => a <=? b | cmp_ge => b <=? a
  end.

Lemma compare_not_nan op l r :
  encoding f l -> encoding f r -> is_nan f l = false -> is_nan f r = false ->
  compare_ieee_bits f op l r = compare_values op (value f l) (value f r).
Proof.
  intros Hl Hr Nl Nr. unfold compare_ieee_bits. unfold is_nan in Nl, Nr.
  rewrite !land_signless, infinity_bits_eq, Nl, Nr, sign_mask_xor, both_zero, !sign_mask_zero by done.
  pose proof (value_lt l r Hl Hr) as L1. pose proof (value_lt r l Hr Hl) as L2.
  apply encoding_split in Hl as [El Hl]. apply encoding_split in Hr as [Er Hr].
  cbn [orb]. set (equal := _ || _).
  assert (equal = (value f l =? value f r)) as ->.
  { subst equal. apply eq_true_iff_eq. rewrite orb_true_iff, andb_true_iff, !Z.eqb_eq.
    unfold sgn in *. destruct (sign_of f l), (sign_of f r); lia. }
  set (less := _ && _).
  assert (less = (value f l <? value f r)) as ->.
  { subst less. unfold sgn in *. destruct (sign_of f l), (sign_of f r); simpl; lia. }
  destruct op; simpl; lia.
Qed.

Lemma lor_zeros l r : encoding f l -> encoding f r -> magnitude_of f l = 0 -> magnitude_of f r = 0 ->
  Z.lor l r = (if sign_of f l || sign_of f r then B else 0) /\
  Z.land l r = if sign_of f l && sign_of f r then B else 0.
Proof.
  intros [El Hl]%encoding_split [Er Hr]%encoding_split Zl Zr.
  rewrite Zl, Z.add_0_r in El. rewrite Zr, Z.add_0_r in Er. fold B in El, Er.
  destruct (sign_of f l), (sign_of f r); subst l r; simpl; rewrite ?Z.add_0_r, ?Z.lor_diag, ?Z.land_diag,
    ?Z.lor_0_l, ?Z.lor_0_r, ?Z.land_0_l, ?Z.land_0_r; done.
Qed.

(** The keys that [minmax_bits] compares. *)
Lemma minmax_key x : encoding f x ->
  (if negb (Z.land x (sign f) =? 0) then uw f (Z.lnot x) else Z.lxor x (sign f)) =
  if sign_of f x then B - 1 - magnitude_of f x else B + magnitude_of f x.
Proof.
  intros Hx. rewrite sign_mask_zero, negb_involutive by done.
  pose proof (encoding_split f x Hx) as [Ex Hm]. fold B in Ex, Hm. destruct (sign_of f x) eqn:Es.
  - unfold uw, wrap, Z.lnot. rewrite width_split. fold B.
    rewrite <- (Z.mod_unique _ (2 * B) (-1) (B - 1 - magnitude_of f x)) by lia. done.
  - rewrite Z.add_0_l in Ex. rewrite Z.lxor_lor by (by rewrite land_sign, Es).
    rewrite Z.lor_comm, sign_eq, lor_pow2_add by (unfold B in Hm; destruct f; simpl in *; lia).
    fold B. lia.
Qed.

Lemma minmax_not_nan (minimum : bool) l r :
  encoding f l -> encoding f r -> is_nan f l = false -> is_nan f r = false ->
  let result := minmax_bits f minimum l r in
  (result = l \/ result = r) /\
  value f result = (if minimum then Z.min else Z.max) (value f l) (value f r) /\
  (value f l = value f r ->
   sign_of f result = if minimum then sign_of f l || sign_of f r else sign_of f l && sign_of f r).
Proof.
  intros Hl Hr Nl Nr result. unfold is_nan in Nl, Nr.
  assert (result = if (magnitude_of f l =? 0) && (magnitude_of f r =? 0)
      then if minimum then Z.lor l r else Z.land l r
      else if (if minimum then value f l <? value f r else value f r <? value f l) then l else r) as E.
  { unfold result, minmax_bits. rewrite both_zero, !minmax_key, !land_signless, infinity_bits_eq, Nl, Nr by done.
    cbn [orb]. destruct (_ && _) eqn:Ez; [done |].
    pose proof (value_lt l r Hl Hr) as L1. pose proof (value_lt r l Hr Hl) as L2.
    pose proof (encoding_split f l Hl) as [El Bl]. pose proof (encoding_split f r Hr) as [Er Br]. fold B in El, Bl, Er, Br.
    unfold sgn in *.
    assert (forall b c : bool, b = c -> (if b then l else r) = (if c then l else r)) as Hc by (by intros ? ? ->).
    destruct minimum; apply Hc; destruct (sign_of f l), (sign_of f r); lia. }
  clearbody result. subst result.
  pose proof (value_lt l r Hl Hr) as L1. pose proof (value_lt r l Hr Hl) as L2.
  destruct (encoding_split f l Hl) as [El Bl], (encoding_split f r Hr) as [Er Br]. fold B in El, Bl, Er, Br.
  destruct (_ && _) eqn:Ez.
  - apply andb_true_iff in Ez as [Zl%Z.eqb_eq Zr%Z.eqb_eq].
    destruct (lor_zeros l r Hl Hr Zl Zr) as [-> ->]. rewrite Zl, Z.add_0_r in *. rewrite Zr, Z.add_0_r in *.
    assert (value f l = value f r) as Ev by (unfold sgn in *; destruct (sign_of f l), (sign_of f r); lia).
    assert (forall x, (x = l /\ sign_of f x = sign_of f l \/ x = r /\ sign_of f x = sign_of f r) ->
      (x = l \/ x = r) /\ value f x = (if minimum then Z.min else Z.max) (value f l) (value f r)) as Hx.
    { intros x Hx. split; [tauto |]. destruct minimum; rewrite Ev, ?Z.min_id, ?Z.max_id;
        destruct Hx as [[-> _] | [-> _]]; done. }
    destruct minimum, (sign_of f l) eqn:Sl, (sign_of f r) eqn:Sr; cbn [orb andb];
      first [rewrite <- El | rewrite <- Er]; (split; [| split; [| done]]); apply Hx; rewrite ?Sl, ?Sr; tauto.
  - assert (value f l <> value f r \/ l = r) as Hd.
    { unfold sgn in *. destruct (Z.eq_dec l r); [by right | left].
      destruct (sign_of f l), (sign_of f r); lia. }
    destruct minimum.
    + destruct (Z.ltb_spec (value f l) (value f r)); (split_and!; [tauto | lia | intros Ev]);
        destruct Hd as [| ->]; try done; by rewrite orb_diag.
    + destruct (Z.ltb_spec (value f r) (value f l)); (split_and!; [tauto | lia | intros Ev]);
        destruct Hd as [| ->]; try done; by rewrite andb_diag.
Qed.
End Order.

(** ** Truncation to 32 bits *)

Section Truncation.
Context (f : format).
Let F := fraction f.
Let U := unit_value f.

(** The integer part of a normal number at least 1. *)
Lemma magnitude_div_unit e g :
  bias f <= e -> 0 <= g < 2 ^ F ->
  let k := e - bias f in
  magnitude f (e * 2 ^ F + g) / U = (if k <? F then Z.shiftr (2 ^ F + g) (F - k) else (2 ^ F + g) * 2 ^ (k - F)) /\
  2 ^ k <= magnitude f (e * 2 ^ F + g) / U < 2 ^ (k + 1).
Proof.
  intros He Hg k. pose proof (format_facts f) as Hf. fold F in Hf. pose proof (pow_fraction_pos f) as HF. fold F in HF.
  rewrite magnitude_linear by (fold F; lia). fold F. rewrite (proj2 (Z.eqb_neq e 0)) by lia.
  pose proof (unit_pos f) as HU. fold U in HU.
  assert (0 < 2 ^ k) as Hk by (apply Z.pow_pos_nonneg; lia).
  assert (2 ^ F * 2 ^ (e - 1) = 2 ^ k * U) as E1
    by (unfold k, U, unit_value; rewrite <- !Z.pow_add_r by (unfold F in *; lia); f_equal; unfold F; lia).
  assert (0 < 2 ^ (e - 1)) as He1 by (apply Z.pow_pos_nonneg; lia).
  split.
  - destruct (Z.ltb_spec k F).
    + rewrite Z.shiftr_div_pow2 by lia.
      assert (U = 2 ^ (F - k) * 2 ^ (e - 1)) as ->
        by (unfold k, U, unit_value; rewrite <- Z.pow_add_r by lia; f_equal; unfold F; lia).
      rewrite Z.div_mul_cancel_r; [done | |]; pose proof (Z.pow_pos_nonneg 2 (F - k)); lia.
    + assert (2 ^ (e - 1) = 2 ^ (k - F) * U) as ->
        by (unfold k, U, unit_value; rewrite <- Z.pow_add_r by (unfold F in *; lia); f_equal; unfold F; lia).
      by rewrite Z.mul_assoc, Z.div_mul by lia.
  - rewrite Z.pow_add_r by lia. change (2 ^ 1) with 2. split.
    + apply Z.div_le_lower_bound; [lia |]. nia.
    + apply Z.div_lt_upper_bound; [lia |]. nia.
Qed.

(** The exponent and the significand that the masks of the code take from a magnitude. *)
Lemma exponent_parts m :
  0 <= m < 2 ^ (width f - 1) ->
  exists e g, m = e * 2 ^ F + g /\ 0 <= e <= max_exponent f /\ 0 <= g < 2 ^ F /\
    Z.shiftr m F = e /\ Z.land m (2 ^ F - 1) = g.
Proof.
  intros Hm. destruct (magnitude_parts f m ltac:(lia)) as (e & g & Em & He & Hg). fold F in Em, Hg.
  pose proof (format_facts f) as Hf. fold F in Hf. exists e, g. split_and!; try lia.
  - rewrite sign_bit_split in Hm. fold F in Hm. nia.
  - rewrite Em, Z.shiftr_div_pow2 by lia. symmetry. apply (Z.div_unique _ _ _ g); lia.
  - replace (2 ^ F - 1) with (Z.ones F) by (rewrite Z.ones_equiv; lia). rewrite Z.land_ones by lia.
    symmetry. apply (Z.mod_unique _ _ e); lia.
Qed.

Lemma implicit_bit : uw f (Z.shiftl 1 F) = 2 ^ F /\ uw f (Z.shiftl 1 F - 1) = 2 ^ F - 1.
Proof. unfold F. destruct f; split; reflexivity. Qed.

Definition clamp (lo hi n : Z) : Z := Z.max lo (Z.min hi n).

(** The magnitude [q] of the result of the last branch. *)
Lemma trunc_shift e g :
  0 <= g < 2 ^ F -> bias f <= e < bias f + 32 ->
  u32 (if e - bias f <? F then Z.shiftr (2 ^ F + g) (F - (e - bias f))
       else uw f (Z.shiftl (2 ^ F + g) (e - bias f - F))) = magnitude f (e * 2 ^ F + g) / U.
Proof.
  intros Hg He. pose proof (format_facts f) as Hf. fold F in Hf.
  destruct (magnitude_div_unit e g ltac:(lia) Hg) as [Eq Hq].
  assert (2 ^ (e - bias f + 1) <= 2 ^ 32) as H32 by (apply Z.pow_le_mono_r; lia).
  assert (0 < 2 ^ (e - bias f)) as Hpos by (apply Z.pow_pos_nonneg; lia).
  replace (if e - bias f <? F then _ else _) with (magnitude f (e * 2 ^ F + g) / U).
  - apply Z.mod_small. lia.
  - rewrite Eq. destruct (_ <? F) eqn:E; [done |]. rewrite Z.shiftl_mul_pow2 by lia. symmetry. apply Z.mod_small.
    assert (2 ^ 32 <= 2 ^ width f) by (destruct f; vm_compute; congruence). lia.
Qed.

Lemma trunc_sat_cases (signed_out : bool) raw :
  encoding f raw -> is_nan f raw = false ->
  let q := magnitude f (magnitude_of f raw) / U in
  trunc_sat_i32_bits f signed_out raw =
    if signed_out then
      if sign_of f raw then u32 (- Z.min (2 ^ 31) q) else Z.min (2 ^ 31 - 1) q
    else if sign_of f raw then 0 else Z.min (2 ^ 32 - 1) q.
Proof.
  intros He Hn q. unfold trunc_sat_i32_bits. unfold is_nan in Hn.
  pose proof (format_facts f) as Hf. fold F in Hf. pose proof (pow_fraction_pos f) as HF. fold F in HF.
  fold F. destruct implicit_bit as [Ei1 Ei2].
  rewrite land_signless, infinity_bits_eq, Hn, sign_mask_zero, (exponent_bits f), negb_involutive, Ei1, Ei2 by (done || lia).
  fold F. pose proof (encoding_split f raw He) as [_ Hm]. set (m := magnitude_of f raw) in *.
  pose proof (unit_pos f) as HU. fold U in HU. cbn [orb].
  destruct (Z.ltb_spec m (bias f * 2 ^ F)) as [Hs | Hs].
  { assert (q = 0) as ->.
    { apply Z.div_small. split; [apply magnitude_nonneg; lia |]. unfold U. rewrite <- magnitude_one. apply magnitude_mono. fold F. lia. }
    by destruct signed_out, (sign_of f raw). }
  destruct (exponent_parts m Hm) as (e & g & Em & Hepos & Hg & -> & ->).
  assert (bias f <= e) as Hexp by (apply Z.nlt_ge; intros ?; nia).
  destruct (magnitude_div_unit e g Hexp Hg) as [_ Hq]. pose proof (trunc_shift e g Hg) as Hsh.
  rewrite <- Em in Hq, Hsh. fold q in Hq, Hsh.
  replace (u32 (e - bias f)) with (e - bias f) by (symmetry; apply Z.mod_small; lia).
  rewrite lor_pow2_add by lia.
  destruct (Z.leb_spec (if signed_out then 31 else 32) (e - bias f)) as [Hbig | Hok].
  - assert (2 ^ (if signed_out then 31 else 32) <= q) as Hle.
    { etransitivity; [apply Z.pow_le_mono_r; [lia | exact Hbig] | apply Hq]. }
    destruct signed_out, (sign_of f raw); simpl in *; rewrite ?Z.min_l by lia; reflexivity || lia.
  - assert (q < 2 ^ (if signed_out then 31 else 32)) as Hlt.
    { eapply Z.lt_le_trans; [apply Hq |]. apply Z.pow_le_mono_r; lia. }
    rewrite Hsh by (destruct signed_out; lia).
    destruct signed_out, (sign_of f raw); cbn [negb andb]; try done; rewrite ?Z.min_r by lia; done.
Qed.

(** The integer part of a number, from its magnitude. *)
Lemma quot_value raw :
  encoding f raw -> Z.quot (value f raw) U = sgn (sign_of f raw) (magnitude f (magnitude_of f raw) / U).
Proof.
  intros [_ Hm]%encoding_split. pose proof (unit_pos f) as HU. fold U in HU.
  pose proof (magnitude_nonneg f (magnitude_of f raw)). unfold value, sgn. destruct (sign_of f raw).
  - replace (-1 * _) with (- magnitude f (magnitude_of f raw)) by lia.
    by rewrite Z.quot_opp_l, Z.quot_div_nonneg by lia.
  - by rewrite Z.mul_1_l, Z.quot_div_nonneg by lia.
Qed.
End Truncation.
