(* ===== verification/ExtendedCorrect.v ===== *)
(** * Correctness of conversions through extended values

    [round_extended] of [StrictFloat] rounds to nearest, ties to even, in every format; so do
    the conversions from integers and between formats that are built on it. *)

From stdpp Require Import base numbers.
From Stdlib Require Import ZArith Lia.
From S2P Require Import Prelude IeeeBits StrictFloat StrictFloatCorrect.
Open Scope Z_scope.

(** ** Rounding a significand *)

Lemma nearest_scale num den n c : 0 < c -> nearest_int num den n -> nearest_int (num * c) (den * c) n.
Proof.
  unfold nearest_int. intros Hc [H1 H2].
  replace (num * c - n * (den * c)) with ((num - n * den) * c) by ring.
  rewrite Z.abs_mul, (Z.abs_eq c) by lia. split; [nia | intros E; apply H2; nia].
Qed.

Lemma rounds_scale f num den m c :
  0 < c -> rounds_to f num den m -> rounds_to f (num * c) (den * c) m.
Proof.
  unfold rounds_to. intros Hc [Hm H]. split; [done |]. intros m' Hm'. specialize (H m' Hm').
  assert (forall k, Z.abs (num * c - magnitude f k * (den * c)) = Z.abs (num - magnitude f k * den) * c) as E.
  { intros k. replace (num * c - magnitude f k * (den * c)) with ((num - magnitude f k * den) * c) by ring.
    rewrite Z.abs_mul, (Z.abs_eq c) by lia. done. }
  rewrite !E. destruct H as [H1 H2]. split; [nia | intros Ee; apply H2; nia].
Qed.

Lemma rounds_unscale f num den m c :
  0 < c -> rounds_to f (num * c) (den * c) m -> rounds_to f num den m.
Proof.
  unfold rounds_to. intros Hc [Hm H]. split; [done |]. intros m' Hm'. specialize (H m' Hm').
  assert (forall k, Z.abs (num * c - magnitude f k * (den * c)) = Z.abs (num - magnitude f k * den) * c) as E.
  { intros k. replace (num * c - magnitude f k * (den * c)) with ((num - magnitude f k * den) * c) by ring.
    rewrite Z.abs_mul, (Z.abs_eq c) by lia. done. }
  rewrite !E in H. destruct H as [H1 H2]. split; [nia | intros Ee; apply H2; nia].
Qed.

Lemma u64_small z : 0 <= z < 2 ^ 64 -> u64 z = z.
Proof. apply Z.mod_small. Qed.

Lemma u64_pow2 n : 0 <= n < 64 -> u64 (Z.shiftl 1 n) = 2 ^ n.
Proof.
  intros H. rewrite Z.shiftl_1_l. apply u64_small. split; [apply Z.pow_nonneg; lia | apply Z.pow_lt_mono_r; lia].
Qed.

Lemma u64_ones n : 0 <= n < 64 -> u64 (u64 (Z.shiftl 1 n) - 1) = Z.ones n.
Proof.
  intros H. rewrite u64_pow2 by done. rewrite Z.ones_equiv, <- Z.sub_1_r. apply u64_small.
  pose proof (Z.pow_lt_mono_r 2 n 64). pose proof (Z.pow_pos_nonneg 2 n). lia.
Qed.

(** Normalisation of a significand. *)
Lemma countl_zero_normal v :
  0 < v < 2 ^ 64 ->
  let leading := countl_zero 64 v in
  0 <= leading <= 63 /\ u64 (Z.shiftl v leading) = v * 2 ^ leading /\ 2 ^ 63 <= v * 2 ^ leading < 2 ^ 64.
Proof.
  intros Hv leading. unfold leading, countl_zero. rewrite (proj2 (Z.eqb_neq v 0)) by lia.
  pose proof (Z.log2_spec v ltac:(lia)) as [Hl Hh]. pose proof (Z.log2_nonneg v).
  assert (Z.log2 v < 64) by (apply Z.log2_lt_pow2; lia).
  replace (64 - 1 - Z.log2 v) with (63 - Z.log2 v) by lia.
  assert (2 ^ 63 = 2 ^ Z.log2 v * 2 ^ (63 - Z.log2 v)) as E by (rewrite <- Z.pow_add_r by lia; f_equal; lia).
  assert (0 < 2 ^ (63 - Z.log2 v)) by (apply Z.pow_pos_nonneg; lia).
  rewrite Z.pow_succ_r in Hh by done. change (2 ^ 64) with (2 * 2 ^ 63). rewrite Z.shiftl_mul_pow2 by lia.
  assert (2 ^ 63 <= v * 2 ^ (63 - Z.log2 v) < 2 * 2 ^ 63) as Hb by (rewrite E; split; nia).
  split; [lia | split; [apply u64_small; change (2 ^ 64) with (2 * 2 ^ 63); lia | done]].
Qed.

(** [round_shift_even] is the quotient, or the quotient and one. *)
Lemma round_shift_even_eq value shift :
  0 <= value < 2 ^ 64 -> 0 <= shift ->
  round_shift_even value shift =
    value / 2 ^ shift + Z.b2z (rounds_up (2 ^ shift) ir_nearest false value).
Proof.
  intros Hv Hs. unfold round_shift_even, rounds_up.
  destruct (Z.ltb_spec 64 shift) as [H64 | H64].
  { assert (2 ^ 65 <= 2 ^ shift) by (apply Z.pow_le_mono_r; lia).
    rewrite Z.div_small, Z.mod_small by lia. simpl. rewrite andb_false_r, orb_false_r.
    rewrite (proj2 (Z.ltb_ge _ _)) by lia. done. }
  destruct (Z.eqb_spec shift 64) as [-> | Hne].
  { rewrite Z.div_small, Z.mod_small by lia. simpl. rewrite andb_false_r, orb_false_r.
    change (Z.shiftl 1 63) with 9223372036854775808. change (2 ^ 64) with 18446744073709551616.
    replace (18446744073709551616 <? 2 * value) with (9223372036854775808 <? value) by lia.
    by destruct (_ <? value). }
  destruct (Z.eqb_spec shift 0) as [-> | Hne0].
  { change (2 ^ 0) with 1. rewrite Z.div_1_r, Z.mod_1_r. simpl. lia. }
  rewrite u64_ones, u64_pow2, Z.land_ones, Z.shiftr_div_pow2 by lia.
  assert (2 ^ shift = 2 * 2 ^ (shift - 1)) as E by (rewrite <- Z.pow_succ_r by lia; f_equal; lia).
  assert (0 < 2 ^ (shift - 1)) as Hp by (apply Z.pow_pos_nonneg; lia).
  pose proof (land_pow2_odd (value / 2 ^ shift) 0 ltac:(lia)) as Ho. change (2 ^ 0) with 1 in Ho.
  rewrite Z.div_1_r in Ho. rewrite Ho, negb_involutive.
  replace (2 ^ shift <? 2 * (value mod 2 ^ shift)) with (2 ^ (shift - 1) <? value mod 2 ^ shift) by lia.
  replace (2 ^ shift =? 2 * (value mod 2 ^ shift)) with (value mod 2 ^ shift =? 2 ^ (shift - 1)) by lia.
  assert (0 <= value / 2 ^ shift <= 2 ^ 63) as Hq.
  { split; [apply Z.div_pos; lia | apply Z.lt_succ_r, Z.div_lt_upper_bound; [lia |]]. nia. }
  destruct (_ || _); simpl; apply u64_small; lia.
Qed.

(** ** Significands with a sticky bit

    [sig] stands for the exact number [num / unit]: it is that number, or it is odd and its
    neighbours enclose the number. *)
Definition sticky (num unit sig : Z) : Prop :=
  num = sig * unit \/ Z.odd sig = true /\ (sig - 1) * unit < num < (sig + 1) * unit.

Lemma even_pow2 n : 0 < n -> Z.even (2 ^ n) = true.
Proof. intros H. rewrite Z.even_pow by lia. done. Qed.

Lemma sticky_nearest num unit sig shift n :
  0 < unit -> 2 <= shift -> sticky num unit sig ->
  nearest_int sig (2 ^ shift) n -> nearest_int num (unit * 2 ^ shift) n.
Proof.
  intros Hu Hs [-> | [Ho Hn]] H; [rewrite (Z.mul_comm unit); by apply nearest_scale |].
  destruct H as [H _].
  assert (2 ^ shift = 2 * 2 ^ (shift - 1)) as E by (rewrite <- Z.pow_succ_r by lia; f_equal; lia).
  assert (0 < 2 ^ (shift - 1)) as Hp by (apply Z.pow_pos_nonneg; lia).
  pose proof (even_pow2 (shift - 1) ltac:(lia)) as He. rewrite E in *. set (h := 2 ^ (shift - 1)) in *.
  assert (sig - n * (2 * h) <> h /\ sig - n * (2 * h) <> - h) as [H1 H2].
  { split; intros Eh; [replace sig with (h + 2 * (n * h)) in Ho by lia | replace sig with (- h + 2 * (n * h)) in Ho by lia];
      rewrite Z.odd_add, Z.odd_mul, ?Z.odd_opp, <- Z.negb_even, He in Ho; done. }
  assert (- h < sig - n * (2 * h) < h) as [Hlo Hhi] by lia.
  assert (- (h * unit) < num - n * (unit * (2 * h)) < h * unit); [| unfold nearest_int; lia].
  split; nia.
Qed.

Lemma sticky_bounds num unit sig a b :
  0 < unit -> 0 < a -> 0 < b -> sticky num unit sig -> 2 ^ a <= sig < 2 ^ b ->
  2 ^ a * unit <= num < 2 ^ b * unit.
Proof.
  intros Hu Ha Hb Hst Hs. pose proof (even_pow2 a Ha) as Ea. pose proof (even_pow2 b Hb) as Eb.
  destruct Hst as [-> | [Ho Hn]]; [split; nia |].
  assert (sig <> 2 ^ a) by (intros ->; rewrite <- Z.negb_even, Ea in Ho; done). split; nia.
Qed.

(** ** Encodings from rounded significands *)

Section Block.
Context (f : format).
Let F := fraction f.

Lemma magnitude_block r n :
  1 <= r -> 0 <= n <= 2 * 2 ^ F -> r = 1 \/ 2 ^ F <= n ->
  magnitude f ((r - 1) * 2 ^ F + n) = n * 2 ^ (r - 1).
Proof.
  intros Hr Hn Hor. pose proof (pow_fraction_pos f) as HF. fold F in HF.
  destruct (Z.lt_ge_cases n (2 ^ F)) as [Hlt | Hge].
  - assert (r = 1) as -> by lia. replace (_ + n) with n by lia. rewrite magnitude_small by (fold F; lia). lia.
  - replace ((r - 1) * 2 ^ F + n) with (r * 2 ^ F + (n - 2 ^ F)) by lia.
    rewrite magnitude_linear by (fold F; lia). fold F. rewrite (proj2 (Z.eqb_neq r 0)) by lia. f_equal. lia.
Qed.

(** Rounding within the numbers of exponent [r], subnormal when it is 1, and the first of
    the next exponent. *)
Lemma rounds_block r n num den :
  1 <= r -> 0 < den -> 0 <= n <= 2 * 2 ^ F -> r = 1 \/ 2 ^ F <= n ->
  0 <= num < 2 * 2 ^ F * (den * 2 ^ (r - 1)) -> r = 1 \/ 2 ^ F * (den * 2 ^ (r - 1)) <= num ->
  nearest_int num (den * 2 ^ (r - 1)) n -> (r - 1) * 2 ^ F + n <= infinity f ->
  rounds_to f num den ((r - 1) * 2 ^ F + n).
Proof.
  intros Hr Hden Hn Hor Hnum Hlow [Hne Htie] Hinf. pose proof (pow_fraction_pos f) as HF. fold F in HF.
  set (ulp := 2 ^ (r - 1)) in *. assert (0 < ulp) as Hulp by (apply Z.pow_pos_nonneg; lia).
  assert (0 <= (r - 1) * 2 ^ F) as H0 by nia.
  assert (Z.even ((r - 1) * 2 ^ F + n) = Z.even n) as Eev.
  { rewrite Z.even_add, Z.even_mul. rewrite (even_pow2 F) by (pose proof (format_facts f); unfold F; lia).
    rewrite orb_true_r. by destruct (Z.even n). }
  assert (- (den * ulp) <= 2 * (num - n * (den * ulp)) <= den * ulp) as [Ha Hb] by lia.
  apply rounds_intro; [done | split; [lia | done] | lia | |].
  - intros Hpos. rewrite Eev. rewrite (magnitude_block r n) by done. fold ulp.
    destruct (Z.eq_dec r 1) as [Hr1 | Hr1]; [| destruct (Z.eq_dec n (2 ^ F)) as [Hn1 | Hn1]].
    + replace ((r - 1) * 2 ^ F + n - 1) with ((r - 1) * 2 ^ F + (n - 1)) by lia.
      rewrite magnitude_block by (lia || (subst r; lia)). fold ulp.
      split; [nia | intros E; apply Htie; nia].
    + pose proof (magnitude_mono f ((r - 1) * 2 ^ F + n - 1) ((r - 1) * 2 ^ F + n) ltac:(lia)) as Hm.
      rewrite (magnitude_block r n) in Hm by done. fold ulp in Hm. destruct Hlow as [| Hlow]; [done |].
      assert (magnitude f ((r - 1) * 2 ^ F + n - 1) * den < n * ulp * den) by nia.
      split; nia.
    + replace ((r - 1) * 2 ^ F + n - 1) with ((r - 1) * 2 ^ F + (n - 1)) by lia.
      rewrite magnitude_block by lia. fold ulp. split; [nia | intros E; apply Htie; nia].
  - intros Hlt. rewrite Eev. rewrite (magnitude_block r n) by done. fold ulp.
    destruct (Z.eq_dec n (2 * 2 ^ F)) as [Hn1 | Hn1].
    + pose proof (magnitude_mono f ((r - 1) * 2 ^ F + n) ((r - 1) * 2 ^ F + n + 1) ltac:(lia)) as Hm.
      rewrite (magnitude_block r n) in Hm by done. fold ulp in Hm.
      assert (n * ulp * den < magnitude f ((r - 1) * 2 ^ F + n + 1) * den) by nia.
      split; nia.
    + replace ((r - 1) * 2 ^ F + n + 1) with ((r - 1) * 2 ^ F + (n + 1)) by lia.
      rewrite (magnitude_block r (n + 1)) by lia. fold ulp. split; [nia | intros E; apply Htie; nia].
Qed.

Lemma rounds_overflow num den :
  0 < den -> magnitude f (infinity f) * den <= num -> rounds_to f num den (infinity f).
Proof.
  intros Hden Hn. pose proof (pow_fraction_pos f) as HF. pose proof (format_facts f) as Hf.
  assert (0 < infinity f) as Hi by (unfold infinity; apply Z.mul_pos_pos; lia).
  pose proof (magnitude_mono f (infinity f - 1) (infinity f) ltac:(lia)) as Hm.
  assert (magnitude f (infinity f - 1) * den < magnitude f (infinity f) * den) by nia.
  apply rounds_intro; [done | lia | lia | intros _; split; [nia | intros; nia] | lia].
Qed.
End Block.

(** ** [round_extended] *)

(** The sign and the exponent of an extended value, as the code combines them. *)
Definition sign_exponent_of (s : bool) (x : Z) : Z := (if s then 32768 else 0) + x.

Lemma sign_exponent_parts s x :
  0 <= x < 32768 ->
  Z.shiftr (sign_exponent_of s x) 15 = Z.b2z s /\ Z.land (sign_exponent_of s x) 32767 = x.
Proof.
  intros Hx. unfold sign_exponent_of. change 32767 with (Z.ones 15).
  rewrite Z.shiftr_div_pow2, Z.land_ones by lia. change (2 ^ 15) with 32768. destruct s; simpl; lia.
Qed.

Lemma lor_sign_exponent (s : bool) x :
  0 <= x < 32768 -> Z.lor (if s then 32768 else 0) x = sign_exponent_of s x.
Proof.
  intros Hx. unfold sign_exponent_of. destruct s; [| done]. by apply (lor_pow2_add x 15).
Qed.

Section RoundExtended.
Context (f : format).
Let F := fraction f.
Let B := 2 ^ (width f - 1).

Lemma sign_bit_of (s : bool) : u64 (Z.shiftl (Z.b2z s) (width f - 1)) = if s then B else 0.
Proof. unfold B. destruct f, s; reflexivity. Qed.

Lemma infinity_field : u64 (Z.shiftl (max_exponent f) (fraction f + 1 - 1)) = infinity f.
Proof. by destruct f. Qed.

Lemma uw_signed s m : 0 <= m < B -> uw f (signed f s m) = signed f s m.
Proof.
  intros Hm. apply Z.mod_small. destruct (signed_parts f s m Hm) as [He _]. exact He.
Qed.

Lemma pack (s : bool) e g :
  0 <= e < max_exponent f -> 0 <= g < 2 ^ F ->
  uw f (Z.lor (Z.lor (if s then B else 0) (u64 (Z.shiftl e F))) g) = signed f s (e * 2 ^ F + g).
Proof.
  intros He Hg. pose proof (format_facts f) as Hf. fold F in Hf. pose proof (pow_fraction_pos f) as HF. fold F in HF.
  assert (e * 2 ^ F + g < infinity f) as Hlt by (unfold infinity; fold F; nia).
  pose proof (infinity_lt f) as Hinf. fold B in Hinf.
  assert (u64 (Z.shiftl e F) = Z.shiftl e F) as ->.
  { rewrite Z.shiftl_mul_pow2 by lia. apply u64_small. split; [nia |].
    assert (B <= 2 ^ 64) by (unfold B; destruct f; vm_compute; congruence). lia. }
  rewrite <- Z.lor_assoc, (Z.lor_comm (Z.shiftl e F)), lor_shiftl_add by lia.
  rewrite (lor_signed f s) by (unfold B in *; nia). rewrite Z.add_comm in *. rewrite uw_signed by nia.
  done.
Qed.

(** The last part of the function, on a significand [n] of [F + 1] bits or the next power
    of two. *)
Lemma pack_normal (s : bool) e n :
  0 < e -> 2 ^ F <= n <= 2 * 2 ^ F ->
  (let '(significand, result_exponent) :=
     if n =? u64 (Z.shiftl 1 (F + 1)) then (Z.shiftr n 1, e + 1) else (n, e) in
   if max_exponent f <=? result_exponent
   then uw f (Z.lor (if s then B else 0) (infinity f))
   else uw f (Z.lor (Z.lor (if s then B else 0) (u64 (Z.shiftl result_exponent (F + 1 - 1))))
          (Z.land significand (u64 (u64 (Z.shiftl 1 (F + 1 - 1)) - 1))))) =
  signed f s (Z.min (infinity f) ((e - 1) * 2 ^ F + n)).
Proof.
  intros He Hn. pose proof (format_facts f) as Hf. fold F in Hf.
  pose proof (pow_fraction_pos f) as HF. fold F in HF.
  pose proof (infinity_lt f) as Hinf. fold B in Hinf.
  rewrite u64_pow2 by lia. replace (2 ^ (F + 1)) with (2 * 2 ^ F) by (rewrite Z.add_comm, Z.pow_add_r by lia; done).
  set (p := if n =? 2 * 2 ^ F then (Z.shiftr n 1, e + 1) else (n, e)).
  assert (exists n' e', p = (n', e') /\ (e - 1) * 2 ^ F + n = (e' - 1) * 2 ^ F + n' /\ 2 ^ F <= n' < 2 * 2 ^ F /\ e <= e')
    as (n' & e' & -> & -> & Hn' & He').
  { unfold p. destruct (Z.eqb_spec n (2 * 2 ^ F)) as [-> | Hne].
    - exists (2 ^ F), (e + 1). rewrite Z.shiftr_div_pow2, Z.mul_comm, Z.div_mul by lia. split_and!; try done; lia.
    - exists n, e. split_and!; try done; lia. }
  assert (0 <= infinity f) by (unfold infinity; apply Z.mul_nonneg_nonneg; fold F; lia).
  replace (F + 1 - 1) with F by lia. rewrite u64_ones, Z.land_ones by lia.
  destruct (Z.leb_spec (max_exponent f) e') as [Hm | Hm].
  - apply (Z.mul_le_mono_nonneg_r _ _ (2 ^ F)) in Hm; [| lia].
    rewrite (lor_signed f s), uw_signed, Z.min_l by (lia || (unfold infinity; fold F; lia)). done.
  - assert (n' mod 2 ^ F = n' - 2 ^ F) as -> by (symmetry; apply (Z.mod_unique _ _ 1); lia).
    rewrite pack by lia. apply Z.le_succ_l in Hm. unfold Z.succ in Hm. apply (Z.mul_le_mono_nonneg_r (e' + 1) _ (2 ^ F)) in Hm; [| lia].
    rewrite Z.min_r by (unfold infinity; fold F; lia). f_equal. lia.
Qed.

(** The quotient that the rounding of a significand gives. *)
Lemma rounded_quotient e sig :
  2 ^ 63 <= sig < 2 ^ 64 ->
  let r := Z.max 1 e in
  let shift := 63 - F + (r - e) in
  let n := sig / 2 ^ shift + Z.b2z (rounds_up (2 ^ shift) ir_nearest false sig) in
  2 <= shift /\ 0 <= n <= 2 * 2 ^ F /\ (e <= 0 \/ 2 ^ F <= n) /\ (0 < e \/ n <= 2 ^ F).
Proof.
  intros Hsig r shift n. pose proof (format_facts f) as Hf. fold F in Hf.
  assert (2 <= shift) as Hshift by lia.
  assert (2 ^ 64 = 2 ^ (F + 1 - (r - e)) * 2 ^ shift \/ 64 < shift) as E64.
  { destruct (Z.lt_ge_cases 64 shift); [by right | left]. rewrite <- Z.pow_add_r by lia. f_equal. lia. }
  assert (0 < 2 ^ shift) as Hp by (apply Z.pow_pos_nonneg; lia).
  pose proof (pow_fraction_pos f) as HF. fold F in HF.
  assert (0 <= sig / 2 ^ shift) as Hq0 by (apply Z.div_pos; lia).
  assert (n = sig / 2 ^ shift \/ n = sig / 2 ^ shift + 1) as Hn
    by (unfold n; destruct (rounds_up _ _ _ _); simpl; lia).
  destruct (Z.le_gt_cases e 0) as [He | He].
  - assert (sig / 2 ^ shift < 2 ^ F); [| lia].
    apply Z.div_lt_upper_bound; [done |].
    assert (2 ^ (64 - F) * 2 ^ F <= 2 ^ shift * 2 ^ F)
      by (apply Z.mul_le_mono_nonneg_r; [lia |]; apply Z.pow_le_mono_r; lia).
    rewrite <- Z.pow_add_r in H by lia. replace (64 - F + F) with 64 in H by lia. lia.
  - assert (shift = 63 - F) as Es by lia.
    assert (2 ^ 63 = 2 ^ shift * 2 ^ F) as E63 by (rewrite <- Z.pow_add_r by lia; f_equal; lia).
    assert (2 ^ F <= sig / 2 ^ shift < 2 * 2 ^ F); [| lia].
    split; [apply Z.div_le_lower_bound | apply Z.div_lt_upper_bound]; lia.
Qed.

Lemma round_extended_finite s x sig :
  0 <= x < 32767 -> 2 ^ 63 <= sig < 2 ^ 64 ->
  let e := x - 16383 + bias f in
  let r := Z.max 1 e in
  let shift := 63 - F + (r - e) in
  let n := sig / 2 ^ shift + Z.b2z (rounds_up (2 ^ shift) ir_nearest false sig) in
  round_extended f (ExtendedValue sig (sign_exponent_of s x)) =
    signed f s (Z.min (infinity f) ((r - 1) * 2 ^ F + n)).
Proof.
  intros Hx Hsig e r shift n. pose proof (format_facts f) as Hf. fold F in Hf.
  pose proof (rounded_quotient e sig Hsig) as (Hshift & Hn & Hr & Hr'). fold r in Hshift, Hn, Hr, Hr'.
  fold shift in Hshift, Hn, Hr, Hr'. fold n in Hn, Hr, Hr'.
  pose proof (pow_fraction_pos f) as HF. fold F in HF. pose proof (infinity_lt f) as Hinf. fold B in Hinf.
  unfold round_extended. cbn [significand sign_exponent]. cbv zeta.
  destruct (sign_exponent_parts s x ltac:(lia)) as [-> ->]. rewrite sign_bit_of, infinity_field.
  rewrite (proj2 (Z.eqb_neq x 32767)), (proj2 (Z.eqb_neq sig 0)) by lia. fold F e.
  destruct (Z.leb_spec e 0) as [Hsub | Hnorm].
  - assert (r = 1) as Er by lia.
    replace (u32 (64 - (F + 1) + u32 (1 - e))) with shift
      by (unfold u32, wrap; rewrite (Z.mod_small (1 - e)), Z.mod_small by lia; lia).
    rewrite round_shift_even_eq by lia. fold n. clearbody n shift r.
    assert (n < infinity f) by (unfold infinity; fold F; nia).
    rewrite Er, Z.min_r, (lor_signed f s), uw_signed by lia. done.
  - assert (r = e) as Er by lia. replace (64 - (F + 1)) with shift by lia.
    rewrite round_shift_even_eq by lia. fold n. rewrite Er. apply pack_normal; lia.
Qed.

(** The bounds of a number with a significand of 64 bits, in the units of the result. *)
Lemma extended_bounds e num unit :
  0 < unit -> 2 ^ 63 * unit <= num < 2 ^ 64 * unit ->
  let r := Z.max 1 e in
  let shift := 63 - F + (r - e) in
  num < 2 * 2 ^ F * (unit * 2 ^ shift) /\ (e <= 0 \/ 2 ^ F * (unit * 2 ^ shift) <= num).
Proof.
  intros Hu Hb r shift. pose proof (format_facts f) as Hf. fold F in Hf. split.
  - eapply Z.lt_le_trans; [apply Hb |].
    replace (2 * 2 ^ F * (unit * 2 ^ shift)) with (2 ^ (F + 1 + shift) * unit)
      by (rewrite !Z.pow_add_r by lia; ring).
    apply Z.mul_le_mono_nonneg_r; [lia | apply Z.pow_le_mono_r; lia].
  - destruct (Z.le_gt_cases e 0); [by left | right]. etransitivity; [| apply Hb].
    replace (2 ^ F * (unit * 2 ^ shift)) with (2 ^ (F + shift) * unit)
      by (rewrite !Z.pow_add_r by lia; ring).
    apply Z.mul_le_mono_nonneg_r; [lia | apply Z.pow_le_mono_r; lia].
Qed.

(** The result has the sign of the value and is the encoding nearest to the number [num / unit]
    units of the last place of the significand stands for. *)
Lemma round_extended_rounds s x sig num unit :
  0 <= x < 32767 -> 2 ^ 63 <= sig < 2 ^ 64 -> 0 < unit -> sticky num unit sig ->
  exists m, round_extended f (ExtendedValue sig (sign_exponent_of s x)) = signed f s m /\
    rounds_to f (num * 2 ^ x) (unit * 2 ^ (16447 - bias f - F)) m.
Proof.
  intros Hx Hsig Hu Hst. rewrite round_extended_finite by done. eexists. split; [reflexivity |].
  remember (x - 16383 + bias f) as e eqn:Ee.
  pose proof (rounded_quotient e sig Hsig) as (Hshift & Hn & Hr & Hr').
  pose proof (sticky_bounds num unit sig 63 64 Hu ltac:(lia) ltac:(lia) Hst Hsig) as Hb.
  pose proof (extended_bounds e num unit Hu Hb) as [Hup Hlow].
  assert (e <= 0 /\ Z.max 1 e = 1 \/ 0 < e /\ Z.max 1 e = e) as Er by lia.
  assert (63 - F + (Z.max 1 e - e) + x = 16447 - bias f - F + (Z.max 1 e - 1)) as Eexp by lia.
  remember (Z.max 1 e) as r eqn:Er0. remember (63 - F + (r - e)) as shift eqn:Es. clear Er0 Es Ee.
  pose proof (nearest_up (2 ^ shift) ltac:(apply Z.pow_pos_nonneg; lia) sig _ eq_refl) as Hne.
  remember (sig / 2 ^ shift + _) as n eqn:En. clear En.
  pose proof (format_facts f) as Hf. fold F in Hf. pose proof (pow_fraction_pos f) as HF. fold F in HF.
  assert (0 < 2 ^ x) as Hpx by (apply Z.pow_pos_nonneg; lia).
  assert (unit * 2 ^ (16447 - bias f - F) * 2 ^ (r - 1) = unit * 2 ^ shift * 2 ^ x) as Eden
    by (rewrite <- !Z.mul_assoc, <- !Z.pow_add_r by lia; do 2 f_equal; lia).
  assert (0 < unit * 2 ^ (16447 - bias f - F)) as Hden by (apply Z.mul_pos_pos; [lia | apply Z.pow_pos_nonneg; lia]).
  apply (sticky_nearest num unit sig shift n Hu Hshift Hst) in Hne.
  apply (nearest_scale _ _ _ (2 ^ x) Hpx) in Hne. rewrite <- Eden in Hne.
  apply (Z.mul_lt_mono_pos_r (2 ^ x)) in Hup; [| done]. rewrite <- Z.mul_assoc, <- Eden in Hup.
  assert (r = 1 \/ 2 ^ F * (unit * 2 ^ (16447 - bias f - F) * 2 ^ (r - 1)) <= num * 2 ^ x) as Hge.
  { destruct Hlow as [| Hlow]; [left; lia | right]. apply (Z.mul_le_mono_pos_r _ _ (2 ^ x)) in Hlow; [| done].
    by rewrite Eden, Z.mul_assoc. }
  remember (unit * 2 ^ (16447 - bias f - F)) as den eqn:Ed. clear Ed Eden Hlow.
  assert (0 <= num * 2 ^ x) by (apply Z.mul_nonneg_nonneg; lia).
  destruct (Z.le_gt_cases ((r - 1) * 2 ^ F + n) (infinity f)) as [Hle | Hgt].
  - rewrite Z.min_r by done. apply rounds_block; fold F; try done; lia.
  - rewrite Z.min_l by lia. apply rounds_overflow; [done |].
    assert (max_exponent f <= r) as Hmax.
    { unfold infinity in Hgt. fold F in Hgt. apply Z.nlt_ge. intros Hlt.
      pose proof (Z.mul_le_mono_nonneg_r (r + 1) (max_exponent f) (2 ^ F)). lia. }
    destruct Hge as [| Hge]; [lia |]. etransitivity; [| exact Hge].
    unfold infinity. fold F. rewrite <- (Z.add_0_r (max_exponent f * 2 ^ F)), magnitude_linear by (fold F; lia).
    fold F. rewrite (proj2 (Z.eqb_neq (max_exponent f) 0)), Z.add_0_r, <- Z.mul_assoc, (Z.mul_comm _ den) by lia.
    apply Z.mul_le_mono_nonneg_l; [lia |]. apply Z.mul_le_mono_nonneg_l; [lia |]. apply Z.pow_le_mono_r; lia.
Qed.

Lemma infinity_quiet : infinity f + 2 ^ (F - 1) < B.
Proof. unfold F, B. destruct f; reflexivity. Qed.

(** Infinities stay infinities, NaNs become the canonical NaN of their sign. *)
Lemma round_extended_special s sig :
  0 <= sig < 2 ^ 64 ->
  round_extended f (ExtendedValue sig (sign_exponent_of s 32767)) =
    signed f s (infinity f + if sig mod 2 ^ 63 =? 0 then 0 else 2 ^ (F - 1)).
Proof.
  intros Hsig. unfold round_extended. cbn [significand sign_exponent]. cbv zeta.
  destruct (sign_exponent_parts s 32767 ltac:(lia)) as [-> ->]. rewrite Z.eqb_refl, sign_bit_of, infinity_field.
  assert (Z.land sig (u64 (Z.lnot (u64 (Z.shiftl 1 63)))) = sig mod 2 ^ 63) as ->.
  { change (u64 (Z.lnot (u64 (Z.shiftl 1 63)))) with (Z.ones 63). apply Z.land_ones. lia. }
  pose proof infinity_quiet as Hq. pose proof (infinity_lt f) as Hinf. fold B in Hinf.
  assert (0 <= infinity f) as Hi by (destruct f; vm_compute; congruence).
  assert (0 < 2 ^ (F - 1)) as Hp by (apply Z.pow_pos_nonneg; [lia | unfold F; destruct f; simpl; lia]).
  rewrite <- Z.lor_assoc.
  assert (Z.lor (infinity f) (if sig mod 2 ^ 63 =? 0 then 0 else u64 (Z.shiftl 1 (fraction f + 1 - 2))) =
    infinity f + if sig mod 2 ^ 63 =? 0 then 0 else 2 ^ (F - 1)) as ->.
  { unfold F. destruct (_ =? 0); destruct f; reflexivity. }
  rewrite (lor_signed f s), uw_signed by (destruct (_ =? 0); lia). done.
Qed.

(** *** Integers *)

(** The integer, in units of the result, is rounded. *)
Lemma integer_rounds value :
  - 2 ^ 63 <= value < 2 ^ 64 ->
  exists m, integer_to_float_bits f value = signed f (value <? 0) m /\
    rounds_to f (Z.abs value * unit_value f) 1 m.
Proof.
  intros Hv. unfold integer_to_float_bits. cbv zeta.
  assert ((if value <? 0 then u64 (0 - u64 value) else u64 value) = Z.abs value) as ->.
  { unfold u64, wrap. destruct (Z.ltb_spec value 0); [| rewrite Z.mod_small by lia; lia].
    rewrite Zminus_mod_idemp_r, Z.mod_small by lia. lia. }
  pose proof (format_facts f) as Hf. fold F in Hf.
  destruct (Z.eqb_spec (Z.abs value) 0) as [Hz | Hz].
  { exists 0. assert (value = 0) as -> by lia. split; [done |]. rewrite Z.mul_0_l.
    assert (0 < infinity f) by (destruct f; reflexivity).
    apply rounds_intro; [lia | lia | lia | lia |]. intros _. rewrite magnitude_zero.
    pose proof (magnitude_mono f 0 (0 + 1)). rewrite magnitude_zero in *. split; [lia | done]. }
  destruct (countl_zero_normal (Z.abs value) ltac:(lia)) as (Hl & Eu & Hb).
  set (leading := countl_zero 64 (Z.abs value)) in *. rewrite Eu.
  assert (u32 (16383 + 63 - leading) = 16446 - leading) as -> by (unfold u32, wrap; rewrite Z.mod_small; lia).
  rewrite lor_sign_exponent by lia.
  destruct (round_extended_rounds (value <? 0) (16446 - leading) (Z.abs value * 2 ^ leading) (Z.abs value * 2 ^ leading) 1)
    as (m & Em & Hr); [lia | done | lia | left; lia |].
  exists m. split; [done |]. apply (rounds_unscale f _ _ _ (2 ^ (16447 - bias f - F))); [apply Z.pow_pos_nonneg; lia |].
  replace (Z.abs value * unit_value f * 2 ^ (16447 - bias f - F)) with (Z.abs value * 2 ^ leading * 2 ^ (16446 - leading));
    [done |].
  rewrite <- !Z.mul_assoc. f_equal. unfold unit_value. rewrite <- !Z.pow_add_r by lia. f_equal. unfold F. lia.
Qed.
End RoundExtended.

(** ** Conversions between formats *)

Section Decode.
Context (f : format).
Let F := fraction f.

Lemma encoding_fields raw :
  encoding f raw ->
  u32 (Z.shiftl (u32 (Z.shiftr raw (width f - 1))) 15) = (if sign_of f raw then 32768 else 0) /\
  exists e g, magnitude_of f raw = e * 2 ^ F + g /\ 0 <= e <= max_exponent f /\ 0 <= g < 2 ^ F /\
    u32 (Z.land (Z.shiftr raw F) (max_exponent f)) = e /\
    Z.land (u64 raw) (u64 (u64 (Z.shiftl 1 F) - 1)) = g.
Proof.
  intros He. pose proof (encoding_split f raw He) as [Eraw Hm].
  pose proof (format_facts f) as Hf. fold F in Hf. pose proof (pow_fraction_pos f) as HF. fold F in HF.
  destruct (exponent_parts f (magnitude_of f raw) Hm) as (e & g & Em & Hepos & Hg & _). fold F in Em, Hg.
  rewrite Em in Eraw, Hm. pose proof (sign_bit_split f) as EB. fold F in EB.
  set (B := 2 ^ (width f - 1)) in *. set (s := sign_of f raw) in *. clearbody s. split.
  - rewrite Z.shiftr_div_pow2 by lia. fold B.
    assert (raw / B = Z.b2z s) as ->
      by (symmetry; apply (Z.div_unique _ _ _ (e * 2 ^ F + g)); [lia | destruct s; simpl; lia]).
    by destruct s.
  - assert (max_exponent f = Z.ones (width f - 1 - F)) as Emax by (unfold F; by destruct f).
    assert (raw = ((if s then max_exponent f + 1 else 0) + e) * 2 ^ F + g) as E by (destruct s; nia).
    exists e, g. split_and!; try lia.
    + rewrite Z.shiftr_div_pow2 by lia.
      assert (raw / 2 ^ F = (if s then max_exponent f + 1 else 0) + e) as -> by (symmetry; apply (Z.div_unique _ _ _ g); lia).
      rewrite Emax at 2. rewrite Z.land_ones by lia.
      replace (2 ^ (width f - 1 - F)) with (max_exponent f + 1) by lia.
      rewrite <- (Z.mod_unique ((if s then max_exponent f + 1 else 0) + e) (max_exponent f + 1) (Z.b2z s) e) by (destruct s; simpl; lia).
      assert (max_exponent f < 2 ^ 32) by (destruct f; reflexivity). apply Z.mod_small. lia.
    + rewrite u64_ones, Z.land_ones by lia. unfold encoding in He.
      assert (2 ^ width f <= 2 ^ 64) by (destruct f; vm_compute; congruence).
      rewrite u64_small by lia. symmetry. apply (Z.mod_unique _ _ ((if s then max_exponent f + 1 else 0) + e)); lia.
Qed.

(** The extended value of a number other than zero is that number. *)
Lemma ieee_bits_to_extended_exact raw :
  encoding f raw -> is_finite f raw = true -> 0 < magnitude_of f raw ->
  exists sig x, ieee_bits_to_extended f raw = ExtendedValue sig (sign_exponent_of (sign_of f raw) x) /\
    0 <= x < 32767 /\ 2 ^ 63 <= sig < 2 ^ 64 /\
    sig * 2 ^ x = magnitude f (magnitude_of f raw) * 2 ^ (16447 - bias f - F).
Proof.
  intros He Hfin Hpos. destruct (encoding_fields raw He) as [Es (e & g & Em & Hepos & Hg & Ee & Eg)].
  unfold ieee_bits_to_extended. cbv zeta. fold F. rewrite Es, Ee, Eg.
  pose proof (format_facts f) as Hf. fold F in Hf. pose proof (pow_fraction_pos f) as HF. fold F in HF.
  assert (e < max_exponent f) as Hlt by (unfold is_finite, infinity in Hfin; fold F in Hfin; nia).
  rewrite (proj2 (Z.eqb_neq e (max_exponent f))) by lia. rewrite Em, magnitude_linear by (fold F; lia). fold F.
  destruct (Z.eqb_spec e 0) as [He0 | He0].
  - rewrite (proj2 (Z.eqb_neq g 0)) by lia.
    assert (2 ^ F < 2 ^ 64) by (apply Z.pow_lt_mono_r; lia).
    destruct (countl_zero_normal g ltac:(lia)) as (Hl & Eu & Hb). set (leading := countl_zero 64 g) in *.
    exists (g * 2 ^ leading), (16447 - leading - bias f - F). rewrite Eu.
    assert (u32 (16383 + 64 - leading - bias f - F) = 16447 - leading - bias f - F) as ->
      by (apply Z.mod_small; lia).
    rewrite lor_sign_exponent by lia. split_and!; try done; try lia.
    rewrite <- Z.mul_assoc, <- Z.pow_add_r by lia. do 2 f_equal. lia.
  - assert (2 ^ 63 = 2 ^ F * 2 ^ (63 - F)) as E63 by (rewrite <- Z.pow_add_r by lia; f_equal; lia).
    assert (0 < 2 ^ (63 - F)) by (apply Z.pow_pos_nonneg; lia).
    exists ((2 ^ F + g) * 2 ^ (63 - F)), (e + 16383 - bias f).
    rewrite u64_pow2, lor_pow2_add, Z.shiftl_mul_pow2 by lia.
    assert (2 ^ 63 <= (2 ^ F + g) * 2 ^ (63 - F) < 2 ^ 64) as Hb
      by (change (2 ^ 64) with (2 * 2 ^ 63); rewrite E63; split; nia).
    rewrite u64_small by lia.
    assert (u32 (e + 16383 - bias f) = e + 16383 - bias f) as -> by (apply Z.mod_small; lia).
    rewrite lor_sign_exponent by lia. split_and!; try done; try lia.
    rewrite <- !Z.mul_assoc, <- !Z.pow_add_r by lia. do 2 f_equal. lia.
Qed.
End Decode.

Section Convert.
Context (input output : format).

Lemma convert_zero raw :
  encoding input raw -> magnitude_of input raw = 0 ->
  convert_lane input output raw = signed output (sign_of input raw) 0.
Proof.
  intros He Hz. destruct (encoding_fields input raw He) as [Es (e & g & Em & Hepos & Hg & Ee & Eg)].
  pose proof (pow_fraction_pos input). rewrite Em in Hz. assert (e = 0 /\ g = 0) as [-> ->] by nia.
  unfold convert_lane, ieee_bits_to_extended. cbv zeta. rewrite Es, Ee, Eg.
  by destruct input, output, (sign_of _ raw).
Qed.

Lemma convert_special raw :
  encoding input raw -> infinity input <= magnitude_of input raw ->
  convert_lane input output raw =
    signed output (sign_of input raw) (infinity output + if is_nan input raw then 2 ^ (fraction output - 1) else 0).
Proof.
  intros He Hinf. destruct (encoding_fields input raw He) as [Es (e & g & Em & Hepos & Hg & Ee & Eg)].
  pose proof (pow_fraction_pos input) as HF. pose proof (format_facts input) as Hf.
  unfold is_nan. rewrite Em in Hinf |- *.
  assert (e = max_exponent input) as -> by (unfold infinity in Hinf; nia).
  unfold convert_lane, ieee_bits_to_extended. cbv zeta. rewrite Es, Ee, Eg, Z.eqb_refl.
  rewrite lor_sign_exponent by lia.
  assert (2 ^ 63 = 2 ^ fraction input * 2 ^ (63 - fraction input)) as E63 by (rewrite <- Z.pow_add_r by lia; f_equal; lia).
  assert (0 < 2 ^ (63 - fraction input)) by (apply Z.pow_pos_nonneg; lia).
  assert (0 <= g * 2 ^ (63 - fraction input) < 2 ^ 63) as Hb by (rewrite E63; nia).
  rewrite u64_pow2, Z.shiftl_mul_pow2, u64_small by lia. rewrite lor_pow2_add by lia.
  rewrite round_extended_special by lia. f_equal. f_equal. unfold infinity.
  rewrite <- (Z.mod_unique _ (2 ^ 63) 1 (g * 2 ^ (63 - fraction input))) by lia.
  destruct (Z.eqb_spec (g * 2 ^ (63 - fraction input)) 0); destruct (Z.ltb_spec (max_exponent input * 2 ^ fraction input)
    (max_exponent input * 2 ^ fraction input + g)); try done; nia.
Qed.

Lemma convert_finite raw :
  encoding input raw -> is_finite input raw = true ->
  exists m, convert_lane input output raw = signed output (sign_of input raw) m /\
    rounds_to output (magnitude input (magnitude_of input raw) * unit_value output) (unit_value input) m.
Proof.
  intros He Hfin. pose proof (encoding_split input raw He) as [_ Hm].
  destruct (Z.eq_dec (magnitude_of input raw) 0) as [Hz | Hz].
  - exists 0. rewrite convert_zero by done. split; [done |]. rewrite Hz, magnitude_zero, Z.mul_0_l.
    pose proof (unit_pos input). assert (0 < infinity output) by (by destruct output).
    pose proof (magnitude_mono output 0 (0 + 1) ltac:(lia)) as Hlt. rewrite magnitude_zero in Hlt.
    apply rounds_intro; [lia | lia | lia | lia |]. intros _. rewrite magnitude_zero. split; [nia | done].
  - destruct (ieee_bits_to_extended_exact input raw He Hfin ltac:(lia)) as (sig & x & E & Hx & Hsig & Ev).
    destruct (round_extended_rounds output (sign_of input raw) x sig sig 1) as (m & Em & Hr);
      [done | done | lia | left; lia |].
    exists m. unfold convert_lane. rewrite E. split; [done |]. rewrite Ev in Hr.
    pose proof (format_facts input). pose proof (format_facts output).
    apply (rounds_unscale _ _ _ _ (2 ^ (16448 - bias input - fraction input - bias output - fraction output)));
      [apply Z.pow_pos_nonneg; lia |].
    unfold unit_value. rewrite <- !Z.mul_assoc, <- !Z.pow_add_r by lia. rewrite Z.mul_1_l in Hr.
    replace (bias output + fraction output - 1 + (16448 - bias input - fraction input - bias output - fraction output))
      with (16447 - bias input - fraction input) by lia.
    by replace (bias input + fraction input - 1 + (16448 - bias input - fraction input - bias output - fraction output))
      with (16447 - bias output - fraction output) by lia.
Qed.
End Convert.
