(* ===== verification/FloatTheorems.v ===== *)
(** * Theorems about floating-point operations

    What the operations of [StrictFloat] promise, on every encoding: rounding to an integer,
    comparison, minimum and maximum, saturating truncation, conversion from integers and
    between formats, and arithmetic through extended registers. *)

From stdpp Require Import base numbers.
From Stdlib Require Import ZArith Lia.
From S2P Require Import Prelude IeeeBits StrictFloat StrictFloatCorrect ExtendedCorrect.
Open Scope Z_scope.

(** ** Quieting *)

Lemma lor_bound a b n : 0 <= n -> 0 <= a < 2 ^ n -> 0 <= b < 2 ^ n -> a <= Z.lor a b < 2 ^ n.
Proof.
  intros Hn Ha Hb. assert (Z.lor a b = Z.lor a b mod 2 ^ n) as E.
  { rewrite <- (Z.mod_small a (2 ^ n)), <- (Z.mod_small b (2 ^ n)) by done.
    apply Z.bits_inj'. intros i Hi. destruct (Z.lt_ge_cases i n).
    - by rewrite Z.mod_pow2_bits_low.
    - by rewrite Z.lor_spec, !Z.mod_pow2_bits_high by lia. }
  assert (Z.lor a (Z.ldiff b a) = Z.lor a b /\ Z.land a (Z.ldiff b a) = 0) as [E1 E2].
  { split; apply Z.bits_inj'; intros i Hi; rewrite ?Z.lor_spec, ?Z.land_spec, ?Z.ldiff_spec, ?Z.bits_0;
      by destruct (Z.testbit a i), (Z.testbit b i). }
  pose proof (Z.add_lor_land a (Z.ldiff b a)). assert (0 <= Z.ldiff b a) by (apply Z.ldiff_nonneg; lia).
  split; [lia |]. rewrite E. apply Z.mod_pos_bound. lia.
Qed.

(** A NaN made quiet: only that bit can change. *)
Definition quieted (f : format) (raw result : Z) : Prop :=
  encoding f result /\ is_nan f result = true /\ sign_of f result = sign_of f raw /\
  Z.testbit result (fraction f - 1) = true /\
  forall i, i <> fraction f - 1 -> Z.testbit result i = Z.testbit raw i.

Lemma lor_quiet f raw :
  encoding f raw -> is_nan f raw = true -> quieted f raw (Z.lor raw (quiet f)).
Proof.
  intros He Hn. pose proof (format_facts f) as Hf. rewrite quiet_eq.
  pose proof (encoding_split f raw He) as [Eraw Hm].
  assert (0 <= 2 ^ (fraction f - 1) < 2 ^ (width f - 1)) as Hq
    by (split; [apply Z.pow_nonneg; lia | apply Z.pow_lt_mono_r; lia]).
  pose proof (lor_bound _ _ (width f - 1) ltac:(lia) Hm Hq) as Hb.
  assert (Z.lor raw (2 ^ (fraction f - 1)) =
    signed f (sign_of f raw) (Z.lor (magnitude_of f raw) (2 ^ (fraction f - 1)))) as E.
  { rewrite <- lor_signed by lia. rewrite Z.lor_assoc. f_equal. rewrite (lor_signed f (sign_of f raw)) by done.
    by apply signed_eta. }
  destruct (signed_parts f (sign_of f raw) (Z.lor (magnitude_of f raw) (2 ^ (fraction f - 1))) ltac:(lia)) as (H1 & H2 & H3).
  split_and!.
  - by rewrite E.
  - unfold is_nan in *. rewrite E, H3. lia.
  - by rewrite E.
  - rewrite Z.lor_spec, Z.pow2_bits_true by lia. apply orb_true_r.
  - intros i Hi. rewrite Z.lor_spec, Z.pow2_bits_false by lia. apply orb_false_r.
Qed.

(** ** Rounding to an integer *)

(** C18: [ceil], [floor], [trunc] and [nearest] of an encoding: a NaN is made quiet with its sign
    and payload, an infinity stays as it is, a number gives the encoding of its sign of the
    integer the operation denotes, the nearest with ties to even for [nearest]. *)
Theorem round_integral_correct f mode raw :
  encoding f raw ->
  let result := round_integral_bits f mode raw in
  if is_nan f raw then quieted f raw result
  else if is_finite f raw then
    encoding f result /\ is_finite f result = true /\ sign_of f result = sign_of f raw /\
    exists n, value f result = n * unit_value f /\ integral_of (unit_value f) mode (value f raw) n
  else result = raw.
Proof.
  intros He result. subst result.
  destruct (is_finite f raw) eqn:Hfin.
  - assert (is_nan f raw = false) as -> by (unfold is_nan, is_finite in *; lia).
    destruct (round_integral_bits_finite f mode raw He Hfin) as (m' & -> & Hm').
    pose proof (encoding_split f raw He) as [_ Hm].
    assert (value f raw = sgn (sign_of f raw) (magnitude f (magnitude_of f raw))) as Ev
      by (unfold value, sgn; destruct (sign_of f raw); lia).
    rewrite Ev. apply rounded_signed; [lia | done].
  - assert (round_integral_bits f mode raw = if is_nan f raw then Z.lor raw (quiet f) else raw) as ->.
    { pose proof (format_facts f). unfold round_integral_bits. rewrite land_signless, infinity_bits_eq, exponent_bits by (done || lia).
      rewrite (proj2 (Z.leb_le _ _)); [done |]. unfold is_finite, infinity in Hfin.
      pose proof (Z.mul_le_mono_nonneg_r (bias f + fraction f) (max_exponent f) (2 ^ fraction f)).
      pose proof (pow_fraction_pos f). lia. }
    destruct (is_nan f raw) eqn:Hn; [by apply lor_quiet | done].
Qed.

(** 2.5 rounds to 2, and a signaling NaN becomes quiet. *)
Lemma round_integral_correct_witness :
  (exists n, value binary32 (round_integral_bits binary32 ir_nearest 1075838976) = n * unit_value binary32 /\
    integral_of (unit_value binary32) ir_nearest (value binary32 1075838976) n) /\
  quieted binary64 18442240474082181121 (round_integral_bits binary64 ir_floor 18442240474082181121).
Proof.
  split.
  - pose proof (round_integral_correct binary32 ir_nearest 1075838976 ltac:(split; [discriminate | reflexivity])) as H.
    exact (proj2 (proj2 (proj2 H))).
  - exact (round_integral_correct binary64 ir_floor 18442240474082181121 ltac:(split; [discriminate | reflexivity])).
Defined.

(** ** Comparison, minimum and maximum *)

(** C20: the minimum and maximum of two encodings: the canonical NaN when one is a NaN, otherwise
    one of the operands, with the smaller or larger value, infinities included; of two zeros
    the negative one is smaller. *)
Theorem minmax_correct f (minimum : bool) l r :
  encoding f l -> encoding f r ->
  let result := minmax_bits f minimum l r in
  if is_nan f l || is_nan f r then result = canonical_nan f
  else (result = l \/ result = r) /\
    value f result = (if minimum then Z.min else Z.max) (value f l) (value f r) /\
    (value f l = value f r ->
     sign_of f result = if minimum then sign_of f l || sign_of f r else sign_of f l && sign_of f r).
Proof.
  intros Hl Hr result. destruct (is_nan f l || is_nan f r) eqn:Hn.
  - unfold result, minmax_bits. rewrite !land_signless, infinity_bits_eq by done. unfold is_nan in Hn.
    rewrite Hn. by destruct f.
  - apply orb_false_iff in Hn as [Nl Nr]. by apply minmax_not_nan.
Qed.

Lemma minmax_correct_witness :
  sign_of binary64 (minmax_bits binary64 true 0 9223372036854775808) = true.
Proof.
  pose proof (minmax_correct binary64 true 0 9223372036854775808 ltac:(split; [discriminate | reflexivity])
    ltac:(split; [discriminate | reflexivity])) as H.
  exact (proj2 (proj2 H) eq_refl).
Defined.

(** C21: the comparisons are those of the values, with both zeros equal and infinities at the
    ends; with a NaN only [ne] holds. *)
Theorem compare_correct f op l r :
  encoding f l -> encoding f r ->
  compare_ieee_bits f op l r =
    if is_nan f l || is_nan f r then match op with cmp_ne => true | _ => false end
    else compare_values op (value f l) (value f r).
Proof.
  intros Hl Hr. destruct (is_nan f l || is_nan f r) eqn:Hn.
  - unfold compare_ieee_bits. rewrite !land_signless, infinity_bits_eq by done. unfold is_nan in Hn.
    by rewrite Hn.
  - apply orb_false_iff in Hn as [Nl Nr]. by apply compare_not_nan.
Qed.

Lemma compare_correct_witness :
  compare_ieee_bits binary32 cmp_eq 0 2147483648 = compare_values cmp_eq (value binary32 0) (value binary32 2147483648).
Proof.
  exact (compare_correct binary32 cmp_eq 0 2147483648 ltac:(split; [discriminate | reflexivity])
    ltac:(split; [discriminate | reflexivity])).
Defined.

(** ** Conversions *)

(** C22: saturating truncation to 32 bits: zero for a NaN, otherwise the number truncated toward
    zero and clamped to the range of the type, infinities included. *)
Theorem trunc_sat_correct f (signed_out : bool) raw :
  encoding f raw ->
  trunc_sat_i32_bits f signed_out raw =
    if is_nan f raw then 0
    else u32 (if signed_out then clamp (- 2 ^ 31) (2 ^ 31 - 1) (Z.quot (value f raw) (unit_value f))
              else clamp 0 (2 ^ 32 - 1) (Z.quot (value f raw) (unit_value f))).
Proof.
  intros He. destruct (is_nan f raw) eqn:Hn.
  - unfold trunc_sat_i32_bits. rewrite land_signless, infinity_bits_eq by done. unfold is_nan in Hn. by rewrite Hn.
  - rewrite trunc_sat_cases by done. cbv zeta. rewrite (quot_value f raw He).
    assert (0 <= magnitude f (magnitude_of f raw) / unit_value f) as Hq.
    { apply Z.div_pos; [apply magnitude_nonneg; apply (encoding_split f raw He) | apply unit_pos]. }
    set (q := magnitude f (magnitude_of f raw) / unit_value f) in *. clearbody q.
    unfold clamp, sgn, u32, wrap. destruct signed_out, (sign_of f raw).
    + f_equal. lia.
    + rewrite Z.mod_small by lia. lia.
    + rewrite Z.mod_small by lia. lia.
    + rewrite Z.mod_small by lia. lia.
Qed.

Lemma trunc_sat_correct_witness :
  trunc_sat_i32_bits binary64 true 13855201051464826880 =
    u32 (clamp (- 2 ^ 31) (2 ^ 31 - 1) (Z.quot (value binary64 13855201051464826880) (unit_value binary64))).
Proof.
  exact (trunc_sat_correct binary64 true 13855201051464826880 ltac:(split; [discriminate | reflexivity])).
Defined.

(** C19: the conversion of any integer of at most 64 bits has its sign and the encoding nearest
    to it, ties to even. *)
Theorem integer_to_float_correct f value :
  - 2 ^ 63 <= value < 2 ^ 64 ->
  exists m, integer_to_float_bits f value = signed f (value <? 0) m /\
    rounds_to f (Z.abs value * unit_value f) 1 m.
Proof. apply integer_rounds. Qed.

Lemma integer_to_float_correct_witness :
  exists m, integer_to_float_bits binary32 (-16777217) = signed binary32 true m /\
    rounds_to binary32 (16777217 * unit_value binary32) 1 m.
Proof. exact (integer_to_float_correct binary32 (-16777217) ltac:(lia)). Defined.

(** C17: promotion and demotion keep the sign; a number gives the nearest encoding of the other
    format, ties to even, infinities stay infinities and NaNs become canonical. *)
Theorem convert_lane_correct input output raw :
  encoding input raw ->
  let result := convert_lane input output raw in
  encoding output result /\ sign_of output result = sign_of input raw /\
  if is_nan input raw then magnitude_of output result = canonical_nan output
  else if is_finite input raw then
    rounds_to output (magnitude input (magnitude_of input raw) * unit_value output) (unit_value input)
      (magnitude_of output result)
  else magnitude_of output result = infinity output.
Proof.
  intros He result. subst result. pose proof (infinity_lt output) as Hi.
  destruct (is_finite input raw) eqn:Hfin.
  - assert (is_nan input raw = false) as -> by (unfold is_nan, is_finite in *; lia).
    destruct (convert_finite input output raw He Hfin) as (m & -> & Hr).
    destruct (signed_parts output (sign_of input raw) m) as (H1 & H2 & H3); [destruct Hr; lia |].
    by rewrite H3.
  - rewrite convert_special by (done || (unfold is_finite in Hfin; lia)).
    destruct (signed_parts output (sign_of input raw)
      (infinity output + if is_nan input raw then 2 ^ (fraction output - 1) else 0)) as (H1 & H2 & H3).
    { destruct output, (is_nan input raw); split; (reflexivity || discriminate). }
    rewrite H3. split_and!; [done | done |]. destruct (is_nan input raw); by destruct output.
Qed.

Lemma convert_lane_correct_witness :
  rounds_to binary32 (magnitude binary64 4607182418800017409 * unit_value binary32) (unit_value binary64)
    (magnitude_of binary32 (convert_lane binary64 binary32 4607182418800017409)).
Proof.
  exact (proj2 (proj2 (convert_lane_correct binary64 binary32 4607182418800017409 ltac:(split; [discriminate | reflexivity])))).
Defined.

(** The demotion of [convert], which returns zero for a subnormal input, is the same function. *)
Lemma demote_extended_eq raw : encoding binary64 raw -> demote_extended raw = convert_lane binary64 binary32 raw.
Proof.
  intros He. destruct (encoding_fields binary64 raw He) as [Es (e & g & Em & Hepos & Hg & Ee & Eg)].
  change (fraction binary64) with 52 in *. change (width binary64 - 1) with 63 in *.
  change (max_exponent binary64) with 2047 in *.
  pose proof (encoding_split binary64 raw He) as [_ Hm].
  assert (Z.land (Z.shiftr raw 52) 2047 = e) as Ee'.
  { rewrite <- Ee. unfold u32, wrap. rewrite Z.mod_small; [done |].
    change 2047 with (Z.ones 11). rewrite Z.land_ones by lia.
    pose proof (Z.mod_pos_bound (Z.shiftr raw 52) (2 ^ 11)). lia. }
  assert (Z.land raw (u64 (u64 (Z.shiftl 1 52) - 1)) = g) as Eg'.
  { rewrite <- Eg. rewrite (u64_small raw) by exact He. done. }
  destruct (Z.eq_dec e 0) as [-> | Hne].
  - destruct (convert_finite binary64 binary32 raw He) as (m & E & Hr); [unfold is_finite; rewrite Em; change (infinity binary64) with (2047 * 2 ^ 52); lia |].
    rewrite E. assert (m = 0) as ->.
    { apply (rounds_to_unique _ _ _ _ _ (unit_pos binary64) Hr).
      rewrite Em, (magnitude_small binary64) by (change (fraction binary64) with 52; lia).
      rewrite Z.add_0_l. change (unit_value binary64) with (2 ^ 925 * unit_value binary32).
      assert (0 < unit_value binary32) by apply unit_pos.
      apply rounds_intro; [nia | split; [lia | discriminate] | intros; nia | lia |].
      intros _. change (magnitude binary32 0) with 0. change (magnitude binary32 (0 + 1)) with 1.
      assert (2 * 2 ^ 52 < 2 ^ 925) by reflexivity. split; [nia | done]. }
    unfold demote_extended. rewrite Ee'. simpl (0 =? _). cbv iota. rewrite Es.
    by destruct (sign_of binary64 raw).
  - unfold demote_extended, convert_lane, ieee_bits_to_extended.
    change (fraction binary64) with 52. change (width binary64 - 1) with 63. change (max_exponent binary64) with 2047.
    rewrite Ee, Ee', Eg, Eg', Es. rewrite (proj2 (Z.eqb_neq e 0)) by done. by destruct (e =? 2047).
Qed.

(** ** Arithmetic in extended registers *)

(** The exact result of an operation on two numbers, as a fraction in units of the format. *)
Definition exact_result (f : format) (op : operation) (lhs rhs : Z) : Z * Z :=
  match op with
  | op_add => (value f lhs + value f rhs, 1)
  | op_sub => (value f lhs - value f rhs, 1)
  | op_mul => (value f lhs * value f rhs, unit_value f)
  | op_div => (value f lhs * unit_value f * Z.sgn (value f rhs), Z.abs (value f rhs))
  end.

(** What the processor documents of an operation rounded toward zero with 64 bits of precision,
    on a result that is not zero: the significand is truncated and bit 5 of the status word
    tells whether that was exact. *)
Definition truncated (f : format) (num den : Z) (raw : raw_extended) : Prop :=
  exists x, 0 <= x < 32767 /\ raw_sign_exponent raw = sign_exponent_of (num <? 0) x /\
    let ulp := 2 ^ x * den in
    let exact := Z.abs num * 2 ^ (16447 - bias f - fraction f) in
    2 ^ 63 <= raw_significand raw < 2 ^ 64 /\
    raw_significand raw * ulp <= exact < (raw_significand raw + 1) * ulp /\
    Z.testbit (status raw) 5 = negb (raw_significand raw * ulp =? exact).

(** C16: addition, subtraction, multiplication and division through the extended registers of
    the x87 round once: the encoding returned is the one nearest to the exact result, ties to
    even, subnormal results and overflow included. *)
Theorem slow_operation_correct f fpu op lhs rhs :
  let '(num, den) := exact_result f op lhs rhs in
  num <> 0 -> 0 < den -> truncated f num den (fpu op lhs rhs) ->
  exists m, slow_operation f fpu op lhs rhs = signed f (num <? 0) m /\ rounds_to f (Z.abs num) den m.
Proof.
  destruct (exact_result f op lhs rhs) as [num den]. intros Hnum Hden (x & Hx & Ese & Hsig & Htr & Hst).
  unfold slow_operation, evaluate_extended. rewrite Ese. remember (fpu op lhs rhs) as raw eqn:Eraw. clear Eraw Ese.
  pose proof (format_facts f) as Hf. set (c := 2 ^ (16447 - bias f - fraction f)) in *.
  assert (0 < c) as Hc by (apply Z.pow_pos_nonneg; lia).
  assert (0 < 2 ^ x) as Hpx by (apply Z.pow_pos_nonneg; lia).
  assert (0 < 2 ^ x * den) as Hu by (apply Z.mul_pos_pos; lia).
  assert (negb (Z.land (status raw) 32 =? 0) = Z.testbit (status raw) 5) as ->.
  { change 32 with (2 ^ 5). rewrite land_pow2_odd, negb_involutive, Z.testbit_odd, Z.shiftr_div_pow2 by lia. done. }
  rewrite Hst. set (sig := raw_significand raw) in *.
  pose proof (lor_bound sig (if negb (sig * (2 ^ x * den) =? Z.abs num * c) then 1 else 0) 64
    ltac:(lia) ltac:(lia) ltac:(destruct (_ =? _); simpl; lia)) as Hlor.
  destruct (round_extended_rounds f (num <? 0) x
    (Z.lor sig (if negb (sig * (2 ^ x * den) =? Z.abs num * c) then 1 else 0)) (Z.abs num * c) (2 ^ x * den))
    as (m & E & Hr); [done | lia | done | |].
  - destruct (Z.eqb_spec (sig * (2 ^ x * den)) (Z.abs num * c)) as [Heq | Hne]; cbn [negb].
    + left. by rewrite Z.lor_0_r.
    + right. assert (Z.lor sig 1 = sig + (if Z.even sig then 1 else 0)) as ->.
      { destruct (Z.even sig) eqn:Ev; [| rewrite Z.add_0_r].
        - apply Z.even_spec in Ev as [k ->]. rewrite Z.lor_comm.
          replace (2 * k) with (Z.shiftl k 1) by (rewrite Z.shiftl_mul_pow2 by lia; lia).
          rewrite lor_shiftl_add, Z.shiftl_mul_pow2 by lia. lia.
        - rewrite <- Z.negb_odd in Ev. apply negb_false_iff, Z.odd_spec in Ev as [k ->].
          replace (2 * k + 1) with (Z.lor 1 (Z.shiftl k 1)) by (rewrite lor_shiftl_add by lia; lia).
          rewrite (Z.lor_comm _ 1), Z.lor_assoc. done. }
      destruct (Z.even sig) eqn:Ev; rewrite Z.odd_add, <- Z.negb_even, Ev; (split; [done | nia]).
  - exists m. split; [done |].
    apply (rounds_unscale f _ _ _ (2 ^ x * c)); [nia |].
    replace (Z.abs num * (2 ^ x * c)) with (Z.abs num * c * 2 ^ x) by ring.
    by replace (den * (2 ^ x * c)) with (2 ^ x * den * c) by ring.
Qed.

(** One and the smallest positive number: the sum is inexact in any precision. *)
Lemma slow_operation_correct_witness :
  let fpu := fun (_ : operation) (_ _ : Z) => RawExtended (2 ^ 63) 16383 32 in
  exists m, slow_operation binary32 fpu op_add 1065353216 1 = signed binary32 false m /\
    rounds_to binary32 (2 ^ 149 + 1) 1 m.
Proof.
  intros fpu. apply (slow_operation_correct binary32 fpu op_add 1065353216 1); [discriminate | lia |].
  exists 16383. vm_compute. repeat split; discriminate || reflexivity.
Defined.
