(* ===== verification/IntegerSpec.v ===== *)
(** * Integer operations of WebAssembly

    The operations on [N]-bit integers of the WebAssembly specification, on their unsigned
    values; [None] is a result the specification leaves undefined, on which an instruction
    traps. Nothing here refers to the code. *)

From stdpp Require Import base numbers.
From Stdlib Require Import ZArith Lia.
From S2P Require Import Prelude.
Open Scope Z_scope.

(** The number with the [n] bits [f]. *)
Fixpoint of_bits (n : nat) (f : Z -> bool) : Z :=
  match n with
  | O => 0
  | S n' => Z.b2z (f (Z.of_nat n')) * 2 ^ Z.of_nat n' + of_bits n' f
  end.

Section Operations.
Context (N : Z).

Definition signed_N (i : Z) : Z := to_signed N i.
Definition bitwise (f : Z -> bool) : Z := of_bits (Z.to_nat N) f.

Definition iadd (i1 i2 : Z) : Z := (i1 + i2) mod 2 ^ N.
Definition isub (i1 i2 : Z) : Z := (i1 - i2) mod 2 ^ N.
Definition imul (i1 i2 : Z) : Z := (i1 * i2) mod 2 ^ N.
Definition idiv_u (i1 i2 : Z) : option Z := if i2 =? 0 then None else Some (i1 / i2).
Definition idiv_s (i1 i2 : Z) : option Z :=
  if i2 =? 0 then None
  else if Z.quot (signed_N i1) (signed_N i2) =? 2 ^ (N - 1) then None
  else Some (Z.quot (signed_N i1) (signed_N i2) mod 2 ^ N).
Definition irem_u (i1 i2 : Z) : option Z := if i2 =? 0 then None else Some (i1 - i2 * (i1 / i2)).
Definition irem_s (i1 i2 : Z) : option Z :=
  if i2 =? 0 then None
  else Some ((signed_N i1 - signed_N i2 * Z.quot (signed_N i1) (signed_N i2)) mod 2 ^ N).
Definition iand (i1 i2 : Z) : Z := bitwise (fun k => Z.testbit i1 k && Z.testbit i2 k).
Definition ior (i1 i2 : Z) : Z := bitwise (fun k => Z.testbit i1 k || Z.testbit i2 k).
Definition ixor (i1 i2 : Z) : Z := bitwise (fun k => xorb (Z.testbit i1 k) (Z.testbit i2 k)).
Definition ishl (i1 i2 : Z) : Z := (i1 * 2 ^ (i2 mod N)) mod 2 ^ N.
Definition ishr_u (i1 i2 : Z) : Z := i1 / 2 ^ (i2 mod N).
Definition ishr_s (i1 i2 : Z) : Z := (signed_N i1 / 2 ^ (i2 mod N)) mod 2 ^ N.
(** Bit [k] of the result is the bit that the rotation moves there. *)
Definition irotl (i1 i2 : Z) : Z := bitwise (fun k => Z.testbit i1 ((k - i2) mod N)).
Definition irotr (i1 i2 : Z) : Z := bitwise (fun k => Z.testbit i1 ((k + i2) mod N)).

Fixpoint leading_zeros (n : nat) (i : Z) : Z :=
  match n with
  | O => 0
  | S n' => if Z.testbit i (Z.of_nat n') then 0 else 1 + leading_zeros n' i
  end.
Fixpoint trailing_zeros (n : nat) (k i : Z) : Z :=
  match n with
  | O => 0
  | S n' => if Z.testbit i k then 0 else 1 + trailing_zeros n' (k + 1) i
  end.
Fixpoint bit_count (n : nat) (i : Z) : Z :=
  match n with
  | O => 0
  | S n' => Z.b2z (Z.testbit i (Z.of_nat n')) + bit_count n' i
  end.
Definition iclz (i : Z) : Z := leading_zeros (Z.to_nat N) i.
Definition ictz (i : Z) : Z := trailing_zeros (Z.to_nat N) 0 i.
Definition ipopcnt (i : Z) : Z := bit_count (Z.to_nat N) i.
End Operations.

(** ** Bits *)

Lemma of_bits_spec n f i :
  0 <= i -> Z.testbit (of_bits n f) i = (i <? Z.of_nat n) && f i.
Proof.
  assert (forall m, 0 <= of_bits m f < 2 ^ Z.of_nat m) as Hb.
  { induction m as [| m IH]; [done |]. simpl of_bits. rewrite Nat2Z.inj_succ, Z.pow_succ_r by lia.
    destruct (f (Z.of_nat m)); simpl Z.b2z; lia. }
  intros Hi. induction n as [| n IH]; [by rewrite Z.bits_0, (proj2 (Z.ltb_ge i (Z.of_nat 0))) by lia |].
  simpl of_bits. specialize (Hb n). set (k := Z.of_nat n) in *. replace (Z.of_nat (S n)) with (k + 1) by lia.
  assert (0 <= k) as Hk by lia.
  assert (Z.b2z (f k) * 2 ^ k + of_bits n f = Z.lor (of_bits n f) (Z.shiftl (Z.b2z (f k)) k)) as ->
    by (rewrite lor_shiftl_add by lia; lia).
  rewrite Z.lor_spec, IH, Z.shiftl_spec by lia. destruct (Z.lt_trichotomy i k) as [Hlt | [-> | Hgt]].
  - rewrite (proj2 (Z.ltb_lt i k)), (proj2 (Z.ltb_lt i (k + 1))), Z.testbit_neg_r, orb_false_r by lia. done.
  - rewrite Z.ltb_irrefl, (proj2 (Z.ltb_lt k (k + 1))), Z.sub_diag by lia. simpl. by destruct (f k).
  - rewrite (proj2 (Z.ltb_ge i k)), (proj2 (Z.ltb_ge i (k + 1))) by lia. simpl.
    rewrite <- (Z.mod_small (Z.b2z (f k)) (2 ^ 1)) by (destruct (f k); simpl; lia).
    apply Z.mod_pow2_bits_high. lia.
Qed.

Lemma testbit_high x n i : 0 <= x < 2 ^ n -> n <= i -> Z.testbit x i = false.
Proof.
  intros Hx Hi. destruct (Z.lt_ge_cases n 0) as [Hn | Hn]; [rewrite Z.pow_neg_r in Hx by done; lia |].
  rewrite <- (Z.mod_small x (2 ^ n)) by done. apply Z.mod_pow2_bits_high. lia.
Qed.

(** A number below [2 ^ N] is what its bits are. *)
Lemma bitwise_eq N f x :
  0 <= N -> 0 <= x < 2 ^ N -> (forall i, 0 <= i < N -> Z.testbit x i = f i) -> x = bitwise N f.
Proof.
  intros HN Hx H. apply Z.bits_inj'. intros i Hi. unfold bitwise. rewrite of_bits_spec, Z2Nat.id by lia.
  destruct (Z.ltb_spec i N); [by apply H | by apply (testbit_high x N)].
Qed.

Lemma of_bits_ext n f g : (forall i, 0 <= i < Z.of_nat n -> f i = g i) -> of_bits n f = of_bits n g.
Proof.
  induction n as [| n IH]; intros H; [done |]. simpl. rewrite H by lia. f_equal. apply IH. intros i Hi. apply H. lia.
Qed.
