(* ===== verification/NumericOps.v ===== *)
(** * Integer operations, comparisons and truncations

    The functions of [runtime/compiler/uwvm_int/optable/numeric.h], [compare.h] and
    [convert.h] that compute the results of numeric instructions. A [wasm_i32] or [wasm_i64]
    is its signed value; [digits] is its width. The functions that trap do not return. *)

From stdpp Require Import base numbers.
From Stdlib Require Import ZArith Lia.
From S2P Require Import Prelude IeeeBits StrictFloat.
Open Scope Z_scope.

Inductive trap := trap_integer_divide_by_zero | trap_integer_overflow | trap_invalid_conversion_to_integer.

Inductive evaluation := Value (v : Z) | Trap (t : trap).

Section Integers.
Context (digits : Z).

Definition to_unsigned_bits (v : Z) : Z := wrap digits v.
Definition from_unsigned_bits (v : Z) : Z := to_signed digits v.
Definition numeric_min : Z := - 2 ^ (digits - 1).
Definition numeric_max : Z := 2 ^ (digits - 1) - 1.

Inductive int_unop := unop_clz | unop_ctz | unop_popcnt.

Inductive int_binop :=
| bin_add | bin_sub | bin_mul | bin_div_s | bin_div_u | bin_rem_s | bin_rem_u
| bin_and | bin_or | bin_xor | bin_shl | bin_shr_s | bin_shr_u | bin_rotl | bin_rotr.

(** [std::countr_zero]: the position of the lowest bit set. *)
Definition countr_zero (v : Z) : Z := if v =? 0 then digits else Z.log2 (Z.land v (- v)).

(** [std::popcount]. *)
Definition popcount (v : Z) : Z :=
  match v with
  | Zpos p => (fix count (p : positive) : Z :=
      match p with xH => 1 | xO p' => count p' | xI p' => 1 + count p' end) p
  | _ => 0
  end.

Definition eval_int_unop (op : int_unop) (v : Z) : Z :=
  let u := to_unsigned_bits v in
  match op with
  | unop_clz => countl_zero digits u
  | unop_ctz => countr_zero u
  | unop_popcnt => popcount u
  end.

Definition eval_int_binop (op : int_binop) (lhs rhs : Z) : evaluation :=
  let l := to_unsigned_bits lhs in
  let r := to_unsigned_bits rhs in
  let mask := u32 (digits - 1) in
  let sh := Z.land (u32 r) mask in
  match op with
  | bin_add => Value (from_unsigned_bits (wrap digits (l + r)))
  | bin_sub => Value (from_unsigned_bits (wrap digits (l - r)))
  | bin_mul => Value (from_unsigned_bits (wrap digits (l * r)))
  | bin_and => Value (from_unsigned_bits (Z.land l r))
  | bin_or => Value (from_unsigned_bits (Z.lor l r))
  | bin_xor => Value (from_unsigned_bits (Z.lxor l r))
  | bin_shl => Value (from_unsigned_bits (wrap digits (Z.shiftl l sh)))
  | bin_shr_u => Value (from_unsigned_bits (Z.shiftr l sh))
  | bin_shr_s => Value (Z.shiftr lhs sh)
  | bin_rotl =>
      Value (from_unsigned_bits (Z.lor (wrap digits (Z.shiftl l sh)) (Z.shiftr l (Z.land (u32 (digits - sh)) mask))))
  | bin_rotr =>
      Value (from_unsigned_bits (Z.lor (Z.shiftr l sh) (wrap digits (Z.shiftl l (Z.land (u32 (digits - sh)) mask)))))
  | bin_div_s =>
      if rhs =? 0 then Trap trap_integer_divide_by_zero
      else if (lhs =? numeric_min) && (rhs =? -1) then Trap trap_integer_overflow
      else Value (Z.quot lhs rhs)
  | bin_div_u =>
      if r =? 0 then Trap trap_integer_divide_by_zero else Value (from_unsigned_bits (l / r))
  | bin_rem_s =>
      if rhs =? 0 then Trap trap_integer_divide_by_zero
      else if (lhs =? numeric_min) && (rhs =? -1) then Value 0
      else Value (Z.rem lhs rhs)
  | bin_rem_u =>
      if r =? 0 then Trap trap_integer_divide_by_zero else Value (from_unsigned_bits (l mod r))
  end.

Inductive int_cmp :=
| icmp_eq | icmp_ne | icmp_lt_s | icmp_lt_u | icmp_gt_s | icmp_gt_u | icmp_le_s | icmp_le_u | icmp_ge_s | icmp_ge_u.

Definition eval_int_cmp (cmp : int_cmp) (lhs rhs : Z) : bool :=
  let l := wrap digits lhs in
  let r := wrap digits rhs in
  match cmp with
  | icmp_eq => lhs =? rhs
  | icmp_ne => negb (lhs =? rhs)
  | icmp_lt_s => lhs <? rhs
  | icmp_lt_u => l <? r
  | icmp_gt_s => rhs <? lhs
  | icmp_gt_u => r <? l
  | icmp_le_s => lhs <=? rhs
  | icmp_le_u => l <=? r
  | icmp_ge_s => rhs <=? lhs
  | icmp_ge_u => r <=? l
  end.
End Integers.

(** ** Truncation of a float

    A [FloatIn] is its encoding. The comparisons and the conversion of a number in range are
    the host's; [static_cast] of an integral [long double] rounds to nearest. *)

Section Truncation.
Context (f : format) (digits : Z).

Definition float_gt (lhs rhs : Z) : bool :=
  negb (is_nan f lhs || is_nan f rhs) && (value f rhs <? value f lhs).
Definition float_lt (lhs rhs : Z) : bool :=
  negb (is_nan f lhs || is_nan f rhs) && (value f lhs <? value f rhs).

(** The constant that is the encoding of a power of two or its opposite. *)
Definition float_pow2 (negative : bool) (k : Z) : Z :=
  (if negative then 2 ^ (width f - 1) else 0) + (bias f + k) * 2 ^ fraction f.

Definition trunc_float_to_int_s_lower_exclusive : Z :=
  let min_v := float_pow2 true (digits - 1) in
  let rounded_min_minus_one := integer_to_float_bits f (numeric_min digits - 1) in
  if float_lt rounded_min_minus_one min_v then rounded_min_minus_one else uw f (min_v + 1).

Definition trunc_float_to_int_s_in_range (x : Z) : bool :=
  float_gt x trunc_float_to_int_s_lower_exclusive && float_lt x (float_pow2 false (digits - 1)).

Definition trunc_float_to_int_u_in_range (x : Z) : bool :=
  float_gt x (float_pow2 true 0) && float_lt x (float_pow2 false digits).

(** [static_cast] of a number in range: truncation toward zero. *)
Definition trunc_float_to_int_s (x : Z) : evaluation :=
  if trunc_float_to_int_s_in_range x then Value (Z.quot (value f x) (unit_value f))
  else if is_nan f x then Trap trap_invalid_conversion_to_integer
  else Trap trap_integer_overflow.

Definition trunc_float_to_int_u (x : Z) : evaluation :=
  if trunc_float_to_int_u_in_range x then Value (Z.quot (value f x) (unit_value f))
  else if is_nan f x then Trap trap_invalid_conversion_to_integer
  else Trap trap_integer_overflow.
End Truncation.
