(* ===== verification/NumericTheorems.v ===== *)
(** * Theorems about numeric instructions

    The integer operations, comparisons and truncations of [NumericOps] compute what the
    specification of WebAssembly says, and trap where it leaves the result undefined. *)

From stdpp Require Import base numbers.
From Stdlib Require Import ZArith Lia.
From S2P Require Import Prelude IeeeBits StrictFloat StrictFloatCorrect ExtendedCorrect IntegerSpec NumericOps.
Open Scope Z_scope.

Lemma quot_minus_one x : Z.quot x (-1) = - x.
Proof. change (-1) with (- (1)). rewrite Z.quot_opp_r, Z.quot_1_r by lia. done. Qed.

Section Integers.
Context (digits : Z) (Hd : digits = 32 \/ digits = 64).

Definition in_range (v : Z) : Prop := numeric_min digits <= v <= numeric_max digits.

Lemma half_width : 2 ^ digits = 2 * 2 ^ (digits - 1) /\ 0 < 2 ^ (digits - 1).
Proof using Hd. by destruct Hd as [-> | ->]. Qed.

Lemma from_to_unsigned u : 0 <= u < 2 ^ digits ->
  in_range (from_unsigned_bits digits u) /\ wrap digits (from_unsigned_bits digits u) = u.
Proof using Hd.
  intros Hu. pose proof half_width. unfold in_range, from_unsigned_bits, to_signed, numeric_min, numeric_max, wrap.
  destruct (Z.ltb_spec u (2 ^ (digits - 1))).
  - rewrite Z.mod_small by lia. lia.
  - rewrite <- (Z.mod_unique (u - 2 ^ digits) (2 ^ digits) (-1) u) by lia. lia.
Qed.

Lemma signed_of_wrap v : in_range v -> signed_N digits (wrap digits v) = v.
Proof using Hd.
  unfold in_range, numeric_min, numeric_max, signed_N, to_signed, wrap. intros Hv. pose proof half_width.
  destruct (Z.lt_ge_cases v 0).
  - rewrite <- (Z.mod_unique v (2 ^ digits) (-1) (v + 2 ^ digits)) by lia.
    rewrite (proj2 (Z.ltb_ge _ _)) by lia. lia.
  - rewrite Z.mod_small by lia. rewrite (proj2 (Z.ltb_lt _ _)) by lia. done.
Qed.

Lemma wrap_range v : 0 <= wrap digits v < 2 ^ digits.
Proof using Hd. apply Z.mod_pos_bound. pose proof half_width. lia. Qed.

Lemma wrap_zero v : in_range v -> (wrap digits v =? 0) = (v =? 0).
Proof using Hd.
  intros Hv. apply eq_true_iff_eq. rewrite !Z.eqb_eq. split; [| by intros ->].
  intros E. rewrite <- (signed_of_wrap v Hv), E. unfold signed_N, to_signed. pose proof half_width.
  rewrite (proj2 (Z.ltb_lt _ _)) by lia. done.
Qed.

(** The masks of the shift amounts. *)
Lemma shift_mask z : Z.land (u32 z) (u32 (digits - 1)) = z mod digits.
Proof using Hd.
  unfold u32, wrap. destruct Hd as [-> | ->].
  - change ((32 - 1) mod 2 ^ 32) with (Z.ones 5). rewrite Z.land_ones by lia. change (2 ^ 5) with 32. lia.
  - change ((64 - 1) mod 2 ^ 32) with (Z.ones 6). rewrite Z.land_ones by lia. change (2 ^ 6) with 64. lia.
Qed.

(** A rotation is the disjunction of two shifts. *)
Lemma rotate_bits u k :
  0 <= u < 2 ^ digits -> 0 <= k < digits ->
  Z.lor (wrap digits (Z.shiftl u k)) (Z.shiftr u ((digits - k) mod digits)) =
    bitwise digits (fun i => Z.testbit u ((i - k) mod digits)) /\
  0 <= Z.lor (wrap digits (Z.shiftl u k)) (Z.shiftr u ((digits - k) mod digits)) < 2 ^ digits.
Proof using Hd.
  intros Hu Hk. assert (0 < digits) as Hpos by (destruct Hd; lia). pose proof half_width.
  set (x := Z.lor _ _). assert (0 <= (digits - k) mod digits < digits) as Hm by (apply Z.mod_pos_bound; lia).
  assert (0 <= x < 2 ^ digits) as Hx.
  { assert (Z.shiftr u ((digits - k) mod digits) <= u /\ 0 <= Z.shiftr u ((digits - k) mod digits)) as Hs.
    { rewrite Z.shiftr_div_pow2 by lia. assert (0 < 2 ^ ((digits - k) mod digits)) by (apply Z.pow_pos_nonneg; lia).
      split; [apply Z.div_le_upper_bound; nia | apply Z.div_pos; lia]. }
    unfold x. split; [apply Z.lor_nonneg; split; [apply wrap_range | apply Hs] |].
    assert (forall y, 0 <= y -> (forall i, digits <= i -> Z.testbit y i = false) -> y < 2 ^ digits) as Hlt.
    { intros y Hy Hb. rewrite <- (Z.mod_small y (2 ^ digits)) at 1; [apply Z.mod_pos_bound; lia |].
      split; [done |]. destruct (Z.eq_dec y 0) as [-> |]; [lia |]. apply Z.log2_lt_pow2; [lia |].
      apply Z.nle_gt. intros Hle. pose proof (Hb _ Hle) as Hf. rewrite Z.bit_log2 in Hf by lia. done. }
    apply Hlt; [apply Z.lor_nonneg; split; [apply wrap_range | apply Hs] |].
    intros i Hi. rewrite Z.lor_spec. rewrite !(testbit_high _ digits) by (apply wrap_range || lia). done. }
  split; [| done]. apply bitwise_eq; [lia | done |]. intros i Hi. unfold x.
  rewrite Z.lor_spec, Z.shiftr_spec by lia. unfold wrap. rewrite Z.mod_pow2_bits_low, Z.shiftl_spec by lia.
  destruct (Z.eq_dec k 0) as [-> | Hk0].
  { rewrite !Z.sub_0_r, Z.mod_same, Z.add_0_r, Z.mod_small by lia. by rewrite orb_diag. }
  rewrite (Z.mod_small (digits - k)) by lia. destruct (Z.lt_ge_cases i k).
  - rewrite (Z.testbit_neg_r u (i - k)) by lia. simpl. f_equal. apply (Z.mod_unique _ _ (-1)); lia.
  - rewrite (testbit_high u digits (i + (digits - k))) by lia. rewrite orb_false_r. f_equal. rewrite Z.mod_small; lia.
Qed.

(** The bits of a disjunction, conjunction or exclusive disjunction of two words. *)
Lemma bitwise_op (op : Z -> Z -> Z) (b : bool -> bool -> bool) l r :
  (forall x y i, Z.testbit (op x y) i = b (Z.testbit x i) (Z.testbit y i)) -> b false false = false ->
  0 <= l < 2 ^ digits -> 0 <= r < 2 ^ digits -> 0 <= op l r ->
  op l r = bitwise digits (fun i => b (Z.testbit l i) (Z.testbit r i)) /\ 0 <= op l r < 2 ^ digits.
Proof using Hd.
  intros Hop Hb Hl Hr H0. assert (op l r < 2 ^ digits) as Hlt.
  { destruct (Z.eq_dec (op l r) 0) as [-> |]; [pose proof half_width; lia |]. apply Z.log2_lt_pow2; [lia |].
    apply Z.nle_gt. intros Hle. pose proof (Z.bit_log2 (op l r) ltac:(lia)) as Hf.
    rewrite Hop, !(testbit_high _ digits), Hb in Hf by lia. done. }
  split; [| done]. apply bitwise_eq; [destruct Hd; lia | done |]. intros i _. apply Hop.
Qed.

Definition int_binop_spec (op : int_binop) (i1 i2 : Z) : option Z :=
  match op with
  | bin_add => Some (iadd digits i1 i2)
  | bin_sub => Some (isub digits i1 i2)
  | bin_mul => Some (imul digits i1 i2)
  | bin_div_s => idiv_s digits i1 i2
  | bin_div_u => idiv_u i1 i2
  | bin_rem_s => irem_s digits i1 i2
  | bin_rem_u => irem_u i1 i2
  | bin_and => Some (iand digits i1 i2)
  | bin_or => Some (ior digits i1 i2)
  | bin_xor => Some (ixor digits i1 i2)
  | bin_shl => Some (ishl digits i1 i2)
  | bin_shr_s => Some (ishr_s digits i1 i2)
  | bin_shr_u => Some (ishr_u digits i1 i2)
  | bin_rotl => Some (irotl digits i1 i2)
  | bin_rotr => Some (irotr digits i1 i2)
  end.

(** The value of the specification, or the trap where there is none. *)
Definition evaluates (op : int_binop) (lhs rhs : Z) (e : evaluation) : Prop :=
  match e with
  | Value v => in_range v /\ int_binop_spec op (wrap digits lhs) (wrap digits rhs) = Some (wrap digits v)
  | Trap t => int_binop_spec op (wrap digits lhs) (wrap digits rhs) = None /\
      t = if rhs =? 0 then trap_integer_divide_by_zero else trap_integer_overflow
  end.

Lemma evaluates_unsigned op lhs rhs u :
  0 <= u < 2 ^ digits -> int_binop_spec op (wrap digits lhs) (wrap digits rhs) = Some u ->
  evaluates op lhs rhs (Value (from_unsigned_bits digits u)).
Proof using Hd. intros Hu Hs. destruct (from_to_unsigned u Hu) as [H1 H2]. split; [done |]. by rewrite H2. Qed.

(** Only the smallest number divided by -1 leaves the range. *)
Lemma quot_in_range lhs rhs :
  in_range lhs -> rhs <> 0 -> (lhs =? numeric_min digits) && (rhs =? -1) = false -> in_range (Z.quot lhs rhs).
Proof using Hd.
  unfold in_range, numeric_min, numeric_max. intros Hl Hr Ho. pose proof half_width.
  assert (Z.abs (Z.quot lhs rhs) <= Z.abs lhs /\ (1 < Z.abs rhs -> lhs <> 0 -> Z.abs (Z.quot lhs rhs) < Z.abs lhs)) as [H1 H2].
  { rewrite <- Z.quot_abs, Z.quot_div_nonneg by lia. split; [apply Z.div_le_upper_bound; nia | intros; apply Z.div_lt; lia]. }
  destruct (Z.eq_dec rhs (-1)) as [-> |]; [| destruct (Z.eq_dec rhs 1) as [-> |]].
  - rewrite quot_minus_one. lia.
  - rewrite Z.quot_1_r. lia.
  - destruct (Z.eq_dec lhs 0) as [-> |]; [rewrite Z.quot_0_l by done; lia | lia].
Qed.

Lemma bitwises op lhs rhs :
  In op [bin_and; bin_or; bin_xor] -> evaluates op lhs rhs (eval_int_binop digits op lhs rhs).
Proof using Hd.
  intros Hop. pose proof (wrap_range lhs) as Rl. pose proof (wrap_range rhs) as Rr.
  unfold eval_int_binop, to_unsigned_bits. cbv zeta. destruct Hop as [<- | [<- | [<- | []]]].
  - destruct (bitwise_op Z.land andb (wrap digits lhs) (wrap digits rhs)) as [E Hb]; try done.
    { intros. apply Z.land_spec. } { apply Z.land_nonneg. lia. }
    apply evaluates_unsigned; [done |]. simpl. by rewrite E.
  - destruct (bitwise_op Z.lor orb (wrap digits lhs) (wrap digits rhs)) as [E Hb]; try done.
    { intros. apply Z.lor_spec. } { apply Z.lor_nonneg. lia. }
    apply evaluates_unsigned; [done |]. simpl. by rewrite E.
  - destruct (bitwise_op Z.lxor xorb (wrap digits lhs) (wrap digits rhs)) as [E Hb]; try done.
    { intros. apply Z.lxor_spec. } { apply Z.lxor_nonneg. lia. }
    apply evaluates_unsigned; [done |]. simpl. by rewrite E.
Qed.

Lemma divides op lhs rhs :
  in_range lhs -> in_range rhs -> In op [bin_div_s; bin_div_u; bin_rem_s; bin_rem_u] ->
  evaluates op lhs rhs (eval_int_binop digits op lhs rhs).
Proof using Hd.
  intros Hl Hr Hop. pose proof half_width as [Hw Hw0]. pose proof (wrap_range lhs) as Rl. pose proof (wrap_range rhs) as Rr.
  pose proof (wrap_zero rhs Hr) as Hz. unfold eval_int_binop, to_unsigned_bits. cbv zeta.
  destruct Hop as [<- | [<- | [<- | [<- | []]]]]; rewrite ?Hz;
    (destruct (Z.eqb_spec rhs 0) as [-> | Hne];
      [split; [unfold int_binop_spec, idiv_s, idiv_u, irem_s, irem_u; by rewrite ?Z.mod_0_l by lia | done] |]).
  - destruct ((lhs =? numeric_min digits) && (rhs =? -1)) eqn:Ho.
    + split; [| by rewrite (proj2 (Z.eqb_neq rhs 0)) by done]. simpl. unfold idiv_s. rewrite Hz.
      rewrite !signed_of_wrap by done. apply andb_true_iff in Ho as [->%Z.eqb_eq ->%Z.eqb_eq]. unfold numeric_min.
      by rewrite quot_minus_one, Z.opp_involutive, Z.eqb_refl.
    + pose proof (quot_in_range lhs rhs Hl Hne Ho) as Hq.
      split; [done |]. simpl. unfold idiv_s. rewrite Hz.
      rewrite !signed_of_wrap by done. rewrite (proj2 (Z.eqb_neq _ _)); [done |].
      unfold in_range, numeric_max in Hq. lia.
  - assert (wrap digits rhs <> 0) as Hne' by (by apply Z.eqb_neq).
    apply evaluates_unsigned; [split; [apply Z.div_pos; lia | apply Z.div_lt_upper_bound; nia] |].
    simpl. unfold idiv_u. by rewrite Hz.
  - assert (forall v, in_range v -> v = lhs - rhs * Z.quot lhs rhs ->
      evaluates bin_rem_s lhs rhs (Value v)) as Hev.
    { intros v Hv ->. split; [done |]. simpl. unfold irem_s. rewrite Hz.
      by rewrite !signed_of_wrap by done. }
    pose proof (Z.quot_rem' lhs rhs) as E. unfold in_range, numeric_min, numeric_max in *.
    destruct (_ && _) eqn:Ho; apply Hev.
    + lia.
    + apply andb_true_iff in Ho as [->%Z.eqb_eq ->%Z.eqb_eq]. rewrite quot_minus_one. lia.
    + pose proof (Z.rem_bound_abs lhs rhs Hne). pose proof (Z.rem_sign_nz lhs rhs). lia.
    + lia.
  - assert (wrap digits rhs <> 0) as Hne' by (by apply Z.eqb_neq).
    pose proof (Z.mod_pos_bound (wrap digits lhs) (wrap digits rhs)).
    apply evaluates_unsigned; [lia |].
    simpl. unfold irem_u. rewrite Hz. f_equal.
    pose proof (Z.div_mod (wrap digits lhs) (wrap digits rhs) Hne'). lia.
Qed.

Lemma rotates op lhs rhs :
  op = bin_rotl \/ op = bin_rotr -> evaluates op lhs rhs (eval_int_binop digits op lhs rhs).
Proof using Hd.
  intros Hop. pose proof (wrap_range lhs) as Rl. assert (0 < digits) as Hpos by (destruct Hd; lia).
  unfold eval_int_binop, to_unsigned_bits. cbv zeta. rewrite !shift_mask.
  set (u := wrap digits lhs) in *. set (r := wrap digits rhs). set (k := r mod digits).
  assert (0 <= k < digits) as Hk by (apply Z.mod_pos_bound; lia).
  destruct Hop as [-> | ->]; [destruct (rotate_bits u k Rl Hk) as [E Hb] |
    destruct (rotate_bits u ((digits - k) mod digits) Rl ltac:(apply Z.mod_pos_bound; lia)) as [E Hb]].
  - apply evaluates_unsigned; [done |]. rewrite E. simpl. unfold irotl, bitwise. f_equal. unfold u at 1.
    apply of_bits_ext. intros i _. by rewrite <- (Zminus_mod_idemp_r i (wrap digits rhs)).
  - replace ((digits - (digits - k) mod digits) mod digits) with k in E, Hb.
    2: { destruct (Z.eq_dec k 0) as [-> | Hk0].
         - by rewrite Z.sub_0_r, Z.mod_same, Z.sub_0_r, Z.mod_same by lia.
         - rewrite (Z.mod_small (digits - k)), Z.mod_small by lia. lia. }
    rewrite Z.lor_comm. apply evaluates_unsigned; [done |]. rewrite E. simpl. unfold irotr, bitwise. f_equal. unfold u at 1.
    apply of_bits_ext. intros i _. f_equal. rewrite Zminus_mod_idemp_r.
    replace (i - (digits - k)) with (i + k + (-1) * digits) by lia. rewrite Z.mod_add by lia.
    unfold k. by rewrite Zplus_mod_idemp_r.
Qed.

Lemma shifts op lhs rhs :
  in_range lhs -> In op [bin_shl; bin_shr_s; bin_shr_u] -> evaluates op lhs rhs (eval_int_binop digits op lhs rhs).
Proof using Hd.
  intros Hl Hop. pose proof (wrap_range lhs) as Rl. assert (0 < digits) as Hpos by (destruct Hd; lia).
  unfold eval_int_binop, to_unsigned_bits. cbv zeta. rewrite !shift_mask.
  assert (0 <= wrap digits rhs mod digits) as Hk by (apply Z.mod_pos_bound; lia).
  pose proof (Z.pow_pos_nonneg 2 (wrap digits rhs mod digits) ltac:(lia) Hk) as Hp.
  destruct Hop as [<- | [<- | [<- | []]]].
  - apply evaluates_unsigned; [apply wrap_range |]. simpl. by rewrite Z.shiftl_mul_pow2.
  - split.
    + unfold in_range, numeric_min, numeric_max in *. rewrite Z.shiftr_div_pow2 by done.
      split; [apply Z.div_le_lower_bound; nia | apply Z.lt_succ_r; apply Z.div_lt_upper_bound; nia].
    + simpl. unfold ishr_s. by rewrite signed_of_wrap, Z.shiftr_div_pow2.
  - rewrite Z.shiftr_div_pow2 by done. apply evaluates_unsigned; [| done].
    split; [apply Z.div_pos; lia | apply Z.div_lt_upper_bound; nia].
Qed.
End Integers.

(** ** Counting bits *)

Lemma leading_zeros_eq n u :
  0 <= u < 2 ^ Z.of_nat n -> leading_zeros n u = countl_zero (Z.of_nat n) u.
Proof.
  induction n as [| n IH]; intros Hu; [simpl in *; unfold countl_zero; by replace u with 0 by lia |].
  simpl leading_zeros. set (k := Z.of_nat n) in *. replace (Z.of_nat (S n)) with (k + 1) in * by lia.
  rewrite Z.pow_add_r in Hu by lia. unfold countl_zero in *. destruct (Z.lt_ge_cases u (2 ^ k)) as [Hlt | Hge].
  - rewrite (testbit_high u k) by lia. rewrite IH by lia. destruct (Z.eqb_spec u 0); lia.
  - assert (0 < 2 ^ k) by (apply Z.pow_pos_nonneg; lia).
    assert (Z.log2 u = k) as Hlog by (apply Z.log2_unique; [lia |]; rewrite Z.pow_succ_r by lia; lia).
    rewrite (proj2 (Z.eqb_neq u 0)) by lia. rewrite <- Hlog at 1. rewrite Z.bit_log2 by lia. lia.
Qed.

(** The lowest bit set. *)
Lemma lowest_bit u t :
  0 <= t -> Z.testbit u t = true -> (forall i, 0 <= i < t -> Z.testbit u i = false) -> Z.land u (- u) = 2 ^ t.
Proof.
  intros Ht Hb Hlow. apply Z.bits_inj'. intros i Hi. rewrite Z.land_spec.
  assert (u = (u / 2 ^ t) * 2 ^ t) as E.
  { rewrite <- Z.shiftr_div_pow2, <- Z.shiftl_mul_pow2 by lia. apply Z.bits_inj'. intros j Hj.
    rewrite Z.shiftl_spec by lia. destruct (Z.lt_ge_cases j t).
    - rewrite Hlow, Z.testbit_neg_r by lia. done.
    - rewrite Z.shiftr_spec by lia. f_equal. lia. }
  set (a := u / 2 ^ t) in *. assert (Z.odd a = true) as Ho.
  { unfold a. by rewrite <- Z.shiftr_div_pow2, <- Z.testbit_odd by lia. }
  assert (- u = (- a) * 2 ^ t) as E' by lia. rewrite E', E, <- !Z.shiftl_mul_pow2, !Z.shiftl_spec, Z.pow2_bits_eqb by lia.
  destruct (Z.eqb_spec t i) as [<- | Hne].
  - rewrite Z.sub_diag, !Z.bit0_odd, Z.odd_opp, Ho. done.
  - destruct (Z.lt_ge_cases i t); [by rewrite Z.testbit_neg_r by lia |].
    replace (- a) with (Z.lnot (a - 1)) by (unfold Z.lnot; lia). rewrite Z.lnot_spec by lia.
    assert (Z.testbit (a - 1) (i - t) = Z.testbit a (i - t)) as ->; [| apply andb_negb_r].
    apply Z.odd_spec in Ho as [b ->]. replace (2 * b + 1 - 1) with (2 * b) by lia.
    replace (i - t) with (Z.succ (i - t - 1)) by lia. by rewrite Z.testbit_even_succ, Z.testbit_odd_succ by lia.
Qed.

Lemma trailing_zeros_first n k u :
  0 <= k -> (exists t, k <= t < k + Z.of_nat n /\ Z.testbit u t = true /\
    (forall i, k <= i < t -> Z.testbit u i = false) /\ trailing_zeros n k u = t - k) \/
  ((forall i, k <= i < k + Z.of_nat n -> Z.testbit u i = false) /\ trailing_zeros n k u = Z.of_nat n).
Proof.
  revert k. induction n as [| n IH]; intros k Hk; [right; split; [lia | done] |]. simpl trailing_zeros.
  destruct (Z.testbit u k) eqn:Eb; [left; exists k; split_and!; try done; lia |].
  destruct (IH (k + 1) ltac:(lia)) as [(t & Ht & Hbt & Hlow & ->) | [Hlow ->]]; [left; exists t | right].
  - split_and!; try done; try lia. intros i Hi. destruct (Z.eq_dec i k) as [-> |]; [done | apply Hlow; lia].
  - split; [| lia]. intros i Hi. destruct (Z.eq_dec i k) as [-> |]; [done | apply Hlow; lia].
Qed.

Lemma trailing_zeros_eq n u :
  0 <= u < 2 ^ Z.of_nat n -> trailing_zeros n 0 u = countr_zero (Z.of_nat n) u.
Proof.
  intros Hu. unfold countr_zero.
  destruct (trailing_zeros_first n 0 u ltac:(lia)) as [(t & Ht & Hb & Hlow & ->) | [Hlow ->]].
  - rewrite (proj2 (Z.eqb_neq u 0)) by (intros ->; by rewrite Z.bits_0 in Hb).
    rewrite (lowest_bit u t), Z.log2_pow2 by (done || lia). lia.
  - assert (u = 0) as ->; [| done]. apply Z.bits_inj_0. intros i.
    destruct (Z.lt_ge_cases i 0); [by rewrite Z.testbit_neg_r by done |].
    destruct (Z.lt_ge_cases i (Z.of_nat n)); [apply Hlow; lia | by apply (testbit_high u (Z.of_nat n))].
Qed.

Lemma bit_count_half n u : bit_count (S n) u = Z.b2z (Z.odd u) + bit_count n (u / 2).
Proof.
  induction n as [| n IH]; [done |].
  assert (forall m v, bit_count (S m) v = Z.b2z (Z.testbit v (Z.of_nat m)) + bit_count m v) as E by done.
  rewrite E, IH, (E n (u / 2)), <- Z.div2_div, Z.div2_spec, Z.shiftr_spec by lia.
  replace (Z.of_nat n + 1) with (Z.of_nat (S n)) by lia. lia.
Qed.

Lemma bit_count_zero n : bit_count n 0 = 0.
Proof. induction n as [| n IH]; [done |]. simpl. by rewrite Z.bits_0, IH. Qed.

Lemma bit_count_eq n u : 0 <= u < 2 ^ Z.of_nat n -> bit_count n u = popcount u.
Proof.
  revert u. induction n as [| n IH]; intros u Hu; [simpl in Hu; by replace u with 0 by lia |].
  rewrite Nat2Z.inj_succ, Z.pow_succ_r in Hu by lia. rewrite bit_count_half, IH by lia.
  destruct u as [| p | p]; [done | | lia]. destruct p as [p | p |]; [| | done].
  - replace (Z.pos p~1 / 2) with (Z.pos p) by lia. done.
  - replace (Z.pos p~0 / 2) with (Z.pos p) by lia. done.
Qed.

(** ** Integer instructions *)

Lemma eval_int_binop_correct digits op lhs rhs :
  digits = 32 \/ digits = 64 -> in_range digits lhs -> in_range digits rhs ->
  evaluates digits op lhs rhs (eval_int_binop digits op lhs rhs).
Proof.
  intros Hd Hl Hr. destruct op;
    try (apply divides; simpl; tauto); try (apply shifts; simpl; tauto); try (apply rotates; tauto);
    try (apply bitwises; simpl; tauto); apply evaluates_unsigned; try apply wrap_range; done.
Qed.

(** C14: every binary integer instruction, on every pair of operands of 32 or 64 bits: the
    result is a value of the type with the bits the specification gives, and it traps exactly
    when the specification gives none, on a zero divisor or on the overflow of [div_s]. *)
Theorem int_binop_correct digits op lhs rhs :
  digits = 32 \/ digits = 64 -> in_range digits lhs -> in_range digits rhs ->
  evaluates digits op lhs rhs (eval_int_binop digits op lhs rhs).
Proof. apply eval_int_binop_correct. Qed.

Lemma int_binop_correct_witness :
  evaluates 32 bin_div_s (-2147483648) (-1) (Trap trap_integer_overflow) /\
  evaluates 64 bin_rotl (-2) 65 (Value (-3)).
Proof.
  split.
  - apply (int_binop_correct 32 bin_div_s (-2147483648) (-1)); [by left | by vm_compute | by vm_compute].
  - apply (int_binop_correct 64 bin_rotl (-2) 65); [by right | by vm_compute | by vm_compute].
Defined.

Definition int_unop_spec (digits : Z) (op : int_unop) (i : Z) : Z :=
  match op with
  | unop_clz => iclz digits i
  | unop_ctz => ictz digits i
  | unop_popcnt => ipopcnt digits i
  end.

Lemma eval_int_unop_correct digits op v :
  digits = 32 \/ digits = 64 -> in_range digits v ->
  eval_int_unop digits op v = int_unop_spec digits op (wrap digits v).
Proof.
  intros Hd Hv. pose proof (wrap_range digits Hd v) as Hu.
  assert (Z.of_nat (Z.to_nat digits) = digits) as En by (destruct Hd; lia). rewrite <- En in Hu at 3.
  destruct op; simpl; unfold to_unsigned_bits, iclz, ictz, ipopcnt.
  - rewrite leading_zeros_eq by done. by rewrite En.
  - rewrite trailing_zeros_eq by done. by rewrite En.
  - by rewrite bit_count_eq.
Qed.

(** [clz], [ctz] and [popcnt] count the bits of the operand, zero included. *)
Theorem int_unop_correct digits op v :
  digits = 32 \/ digits = 64 -> in_range digits v ->
  eval_int_unop digits op v = int_unop_spec digits op (wrap digits v).
Proof. apply eval_int_unop_correct. Qed.

Lemma int_unop_correct_witness : eval_int_unop 32 unop_clz 0 = int_unop_spec 32 unop_clz (wrap 32 0).
Proof. apply (int_unop_correct 32 unop_clz 0); [by left | by vm_compute]. Defined.

(** ** Truncation *)

Section Truncation.
Context (f : format) (digits : Z) (Hd : digits = 32 \/ digits = 64).
Let U := unit_value f.

Lemma pow2_value negative k :
  0 <= k <= 64 -> encoding f (float_pow2 f negative k) /\ is_nan f (float_pow2 f negative k) = false /\
    value f (float_pow2 f negative k) = sgn negative (2 ^ k * U).
Proof using.
  intros Hk. pose proof (format_facts f) as Hf. pose proof (pow_fraction_pos f) as HF.
  pose proof (infinity_lt f) as Hinf.
  assert (bias f + k < max_exponent f) as He by lia.
  apply (Z.mul_lt_mono_pos_r (2 ^ fraction f)) in He; [| done]. fold (infinity f) in He.
  change (float_pow2 f negative k) with (signed f negative ((bias f + k) * 2 ^ fraction f)).
  assert (0 <= (bias f + k) * 2 ^ fraction f) by (apply Z.mul_nonneg_nonneg; lia).
  destruct (signed_parts f negative ((bias f + k) * 2 ^ fraction f)) as (H1 & _ & H3); [lia |].
  split_and!; [done | unfold is_nan; rewrite H3; lia |]. rewrite signed_value by lia.
  rewrite <- (Z.add_0_r (_ * 2 ^ fraction f)), magnitude_linear by lia.
  rewrite (proj2 (Z.eqb_neq (bias f + k) 0)), Z.add_0_r by lia.
  replace (2 ^ fraction f * 2 ^ (bias f + k - 1)) with (2 ^ k * U)
    by (unfold U, unit_value; rewrite <- !Z.pow_add_r by lia; f_equal; lia).
  unfold sgn. destruct negative; lia.
Qed.

(** The exclusive lower bound is the encoding that follows the smallest number in range,
    downwards, or the integer below it. *)
Lemma lower_exclusive_spec :
  exists m, trunc_float_to_int_s_lower_exclusive f digits = signed f true m /\ 0 < m < infinity f /\
    magnitude f (m - 1) < (2 ^ (digits - 1) + 1) * U <= magnitude f m.
Proof using Hd.
  unfold U. destruct f, Hd as [-> | ->].
  - exists 1325400065. vm_compute. repeat split; discriminate || reflexivity.
  - exists 1593835521. vm_compute. repeat split; discriminate || reflexivity.
  - exists 4746794007250599936. vm_compute. repeat split; discriminate || reflexivity.
  - exists 4890909195324358657. vm_compute. repeat split; discriminate || reflexivity.
Qed.

Lemma lower_exclusive_correct x :
  encoding f x -> is_nan f x = false ->
  float_gt f x (trunc_float_to_int_s_lower_exclusive f digits) = ((- 2 ^ (digits - 1) - 1) * U <? value f x).
Proof using Hd.
  intros Hx Hn. destruct lower_exclusive_spec as (m & -> & Hm & Hlo & Hhi).
  pose proof (infinity_lt f) as Hinf. destruct (signed_parts f true m) as (H1 & H2 & H3); [lia |].
  unfold float_gt. rewrite Hn. replace (is_nan f (signed f true m)) with false by (unfold is_nan; rewrite H3; lia).
  simpl. apply eq_true_iff_eq. rewrite !Z.ltb_lt. rewrite (value_lt f _ _ H1 Hx), H2, H3.
  pose proof (encoding_split f x Hx) as [_ Hmx]. pose proof (magnitude_nonneg f (magnitude_of f x) ltac:(lia)).
  pose proof (magnitude_mono_iff f (magnitude_of f x) m ltac:(lia) ltac:(lia)) as Hi1.
  pose proof (magnitude_mono_iff f (m - 1) (magnitude_of f x) ltac:(lia) ltac:(lia)) as Hi2.
  pose proof (unit_pos f) as HU. fold U in HU. unfold value, sgn.
  assert (0 < 2 ^ (digits - 1)) by (destruct Hd as [-> | ->]; reflexivity).
  destruct (sign_of f x); [| split; [intros _; nia | lia]].
  assert ((- 2 ^ (digits - 1) - 1) * U = - ((2 ^ (digits - 1) + 1) * U)) as E by ring. rewrite E. lia.
Qed.

(** The integer part is at least or at most a bound. *)
Lemma quot_lower v n : n <= 0 -> n <= Z.quot v U <-> (n - 1) * U < v.
Proof using.
  intros Hn. pose proof (unit_pos f) as HU. fold U in HU. pose proof (Z.quot_rem' v U) as E.
  pose proof (Z.rem_bound_abs v U ltac:(lia)). pose proof (Z.rem_sign_mul v U ltac:(lia)). split; intros; nia.
Qed.

Lemma quot_upper v n : 0 < n -> Z.quot v U < n <-> v < n * U.
Proof using.
  intros Hn. pose proof (unit_pos f) as HU. fold U in HU. pose proof (Z.quot_rem' v U) as E.
  pose proof (Z.rem_bound_abs v U ltac:(lia)). pose proof (Z.rem_sign_mul v U ltac:(lia)). split; intros; nia.
Qed.
End Truncation.

(** Truncation as WebAssembly defines it, for a type with the values [lo] to [hi]: a NaN has no
    integer part, and an infinity has one out of every range. *)
Definition trunc_spec (f : format) (lo hi x : Z) : evaluation :=
  let n := Z.quot (value f x) (unit_value f) in
  if is_nan f x then Trap trap_invalid_conversion_to_integer
  else if (lo <=? n) && (n <=? hi) then Value n
  else Trap trap_integer_overflow.

Lemma trunc_float_spec f digits x :
  digits = 32 \/ digits = 64 -> encoding f x ->
  trunc_float_to_int_s f digits x = trunc_spec f (numeric_min digits) (numeric_max digits) x /\
  trunc_float_to_int_u f digits x = trunc_spec f 0 (2 ^ digits - 1) x.
Proof.
  intros Hd Hx. unfold trunc_float_to_int_s, trunc_float_to_int_u, trunc_spec. cbv zeta.
  assert (1 <= digits <= 64) as Hdr by (destruct Hd; lia).
  assert (0 < 2 ^ (digits - 1) /\ 0 < 2 ^ digits) as [Hp1 Hp2] by (by destruct Hd as [-> | ->]).
  destruct (is_nan f x) eqn:Hn.
  { unfold trunc_float_to_int_s_in_range, trunc_float_to_int_u_in_range, float_gt, float_lt. by rewrite Hn. }
  pose proof (quot_lower f (value f x)) as Hlo. pose proof (quot_upper f (value f x)) as Hup.
  set (n := Z.quot (value f x) (unit_value f)) in *.
  assert (trunc_float_to_int_s_in_range f digits x = (numeric_min digits <=? n) && (n <=? numeric_max digits)) as ->.
  { unfold trunc_float_to_int_s_in_range. rewrite lower_exclusive_correct by done.
    destruct (pow2_value f false (digits - 1)) as (_ & N2 & V2); [lia |].
    unfold float_lt. rewrite Hn, N2, V2. unfold sgn, numeric_min, numeric_max. simpl negb. rewrite andb_true_l.
    specialize (Hlo (- 2 ^ (digits - 1)) ltac:(lia)). specialize (Hup (2 ^ (digits - 1)) ltac:(lia)).
    apply eq_true_iff_eq. rewrite !andb_true_iff, !Z.ltb_lt, !Z.leb_le. rewrite <- Hlo, <- Hup. lia. }
  assert (trunc_float_to_int_u_in_range f digits x = (0 <=? n) && (n <=? 2 ^ digits - 1)) as ->; [| done].
  unfold trunc_float_to_int_u_in_range.
  destruct (pow2_value f true 0) as (_ & N1 & V1); [lia |]. destruct (pow2_value f false digits) as (_ & N2 & V2); [lia |].
  unfold float_gt, float_lt. rewrite Hn, N1, N2, V1, V2. unfold sgn. simpl negb. rewrite !andb_true_l.
  specialize (Hlo 0 ltac:(lia)). specialize (Hup (2 ^ digits) ltac:(lia)).
  apply eq_true_iff_eq. rewrite !andb_true_iff, !Z.ltb_lt, !Z.leb_le.
  replace (- (2 ^ 0 * unit_value f)) with ((0 - 1) * unit_value f) by lia. rewrite <- Hlo, <- Hup. lia.
Qed.

(** C15: the truncations of a float to a signed or unsigned integer of 32 or 64 bits return the
    integer part whenever it is a value of the type, at the ends of the range too, and
    otherwise trap with the cause of the specification. *)
Theorem trunc_float_correct f digits x :
  digits = 32 \/ digits = 64 -> encoding f x ->
  trunc_float_to_int_s f digits x = trunc_spec f (numeric_min digits) (numeric_max digits) x /\
  trunc_float_to_int_u f digits x = trunc_spec f 0 (2 ^ digits - 1) x.
Proof. apply trunc_float_spec. Qed.

(** The smallest 32-bit integer is the truncation of a number below it. *)
Lemma trunc_float_correct_witness :
  trunc_float_to_int_s binary64 32 13970166044105375743 =
    trunc_spec binary64 (numeric_min 32) (numeric_max 32) 13970166044105375743 /\
  trunc_float_to_int_u binary64 32 13970166044105375743 = trunc_spec binary64 0 (2 ^ 32 - 1) 13970166044105375743.
Proof.
  apply (trunc_float_correct binary64 32); [by left | split; [discriminate | reflexivity]].
Defined.

(** The comparisons of integers are those of the signed and of the unsigned values. *)
Lemma int_cmp_correct digits cmp lhs rhs :
  digits = 32 \/ digits = 64 -> in_range digits lhs -> in_range digits rhs ->
  let i1 := wrap digits lhs in
  let i2 := wrap digits rhs in
  eval_int_cmp digits cmp lhs rhs =
    match cmp with
    | icmp_eq => i1 =? i2 | icmp_ne => negb (i1 =? i2)
    | icmp_lt_s => signed_N digits i1 <? signed_N digits i2 | icmp_lt_u => i1 <? i2
    | icmp_gt_s => signed_N digits i2 <? signed_N digits i1 | icmp_gt_u => i2 <? i1
    | icmp_le_s => signed_N digits i1 <=? signed_N digits i2 | icmp_le_u => i1 <=? i2
    | icmp_ge_s => signed_N digits i2 <=? signed_N digits i1 | icmp_ge_u => i2 <=? i1
    end.
Proof.
  intros Hd Hl Hr i1 i2. pose proof (signed_of_wrap digits Hd lhs Hl) as El. pose proof (signed_of_wrap digits Hd rhs Hr) as Er.
  fold i1 in El. fold i2 in Er. rewrite El, Er.
  assert ((i1 =? i2) = (lhs =? rhs)) as ->; [| by destruct cmp].
  apply eq_true_iff_eq. rewrite !Z.eqb_eq. split; [intros E; rewrite <- El, <- Er, E; done | by intros ->].
Qed.
