(* ===== verification/LinearMemory.v ===== *)
(** * Linear memories

    [object/memory/linear/allocator.h] and [single_thread_allocator.h]: a memory that is one
    allocation, and its growth. [runtime/compiler/shared/wasm_memory64.h]: ranges, bulk
    operations and growth with 64-bit operands. The guards that make growth exclusive are
    in [GrowProtocol]; here an operation runs alone. *)

From stdpp Require Import base list numbers.
From Stdlib Require Import ZArith Lia.
From S2P Require Import Prelude.
Open Scope Z_scope.

(** ** The allocator

    [fast_io]'s allocators are arguments. A missing function is [None], so is the null pointer
    that a failing strict allocator returns; the others end the process. *)
Record allocator := Allocator {
  allocate_aligned_zero : Z -> option (list Z);
  reallocate_aligned_zero : option (list Z -> Z -> option (list Z));
  reallocate_aligned : option (list Z -> Z -> option (list Z));
}.

(** What the allocator documents of an allocation that succeeds. *)
Class AllocatorLaws (A : allocator) : Prop := {
  allocate_zero_bytes n b :
    0 <= n -> allocate_aligned_zero A n = Some b -> b = replicate (Z.to_nat n) 0;
  reallocate_zero_keeps f buf n b :
    reallocate_aligned_zero A = Some f -> zlen buf <= n -> f buf n = Some b ->
    b = buf ++ replicate (Z.to_nat (n - zlen buf)) 0;
  reallocate_keeps f buf n b :
    reallocate_aligned A = Some f -> zlen buf <= n -> f buf n = Some b ->
    exists rest, b = buf ++ rest /\ zlen b = n;
}.

(** ** The memory *)

(** [memory_begin] is the allocation, or [None] for the null pointer. [ordered_memory_length]
    is the copy of the length that shared memories read atomically. *)
Record linear_memory := LinearMemory {
  memory_begin : option (list Z);
  memory_length : Z;
  custom_page_size_log2 : Z;
  sequentially_consistent_size : bool;
  diagnostic_owner_memory_index : Z;
  ordered_memory_length : Z;
}.

(** [fast_terminate] and [trap_and_inform_bug_pos] end the process. *)
Inductive stop := fast_terminate | trap_and_inform_bug_pos.

Definition current_length (m : linear_memory) : Z :=
  if sequentially_consistent_size m then ordered_memory_length m else memory_length m.

Definition get_page_size (m : linear_memory) : Z := Z.shiftr (current_length m) (custom_page_size_log2 m).

(** Installing a new allocation. *)
Definition set_allocation (buf : list Z) (length : Z) (m : linear_memory) : linear_memory :=
  LinearMemory (Some buf) length (custom_page_size_log2 m) (sequentially_consistent_size m)
    (diagnostic_owner_memory_index m)
    (if sequentially_consistent_size m then length else ordered_memory_length m).

Section Growth.
Context (A : allocator).

Definition init_by_page_count (init_page_count memory_index : Z) : SM linear_memory stop unit :=
  m ← sm_get;
  if Z.shiftr size_t_max (custom_page_size_log2 m) <? init_page_count then sm_throw fast_terminate
  else match memory_begin m with
  | Some _ => mret tt
  | None =>
      let length := uz (Z.shiftl init_page_count (custom_page_size_log2 m)) in
      match allocate_aligned_zero A length with
      | None => sm_throw fast_terminate
      | Some buf => sm_modify (fun m =>
          LinearMemory (Some buf) length (custom_page_size_log2 m) (sequentially_consistent_size m)
            memory_index (if sequentially_consistent_size m then length else ordered_memory_length m))
      end
  end.

(** The three ways to a longer allocation: a reallocation that clears, a reallocation and
    [bytes_clear_n], or a new allocation and [my_memcpy]. *)
Definition extend_allocation (buf : list Z) (curr_memory_length memory_grow_size new_memory_length : Z) : option (list Z) :=
  match reallocate_aligned_zero A with
  | Some f => f buf new_memory_length
  | None =>
      match reallocate_aligned A with
      | Some f =>
          temp ← f buf new_memory_length;
          Some (take (Z.to_nat curr_memory_length) temp ++ replicate (Z.to_nat memory_grow_size) 0 ++
                drop (Z.to_nat (curr_memory_length + memory_grow_size)) temp)
      | None =>
          temp ← allocate_aligned_zero A new_memory_length;
          Some (take (Z.to_nat curr_memory_length) buf ++ drop (Z.to_nat curr_memory_length) temp)
      end
  end.

(** The part of [try_grow_silently] and [grow_strictly] after a page count of zero: the result
    and what is written through [old_page_size_out]. *)
Definition grow_pages (strict : bool) (page_grow_size max_limit_memory_length : Z) :
    SM linear_memory stop (bool * option Z) :=
  m ← sm_get;
  match memory_begin m with
  | None => sm_throw trap_and_inform_bug_pos
  | Some buf =>
      let log2 := custom_page_size_log2 m in
      if Z.shiftr size_t_max log2 <? page_grow_size then mret (false, None)
      else
        let memory_grow_size := uz (Z.shiftl page_grow_size log2) in
        let curr_memory_length := current_length m in
        let old_page_size := Z.shiftr curr_memory_length log2 in
        if max_limit_memory_length <? curr_memory_length then mret (false, Some old_page_size)
        else
          let left_memory_size := uz (max_limit_memory_length - curr_memory_length) in
          if left_memory_size <? memory_grow_size then mret (false, Some old_page_size)
          else
            let new_memory_length := uz (curr_memory_length + memory_grow_size) in
            match extend_allocation buf curr_memory_length memory_grow_size new_memory_length with
            | None => if strict then mret (false, Some old_page_size) else sm_throw fast_terminate
            | Some temp =>
                sm_modify (set_allocation temp new_memory_length);;
                mret (true, Some old_page_size)
            end
  end.

Definition try_grow_silently (page_grow_size max_limit_memory_length : Z) : SM linear_memory stop (bool * option Z) :=
  if page_grow_size =? 0 then (fun m => Done ((true, Some (get_page_size m)), m))
  else grow_pages false page_grow_size max_limit_memory_length.

Definition grow_silently (page_grow_size max_limit_memory_length : Z) : SM linear_memory stop unit :=
  r ← try_grow_silently page_grow_size max_limit_memory_length;
  if negb (fst r) then sm_throw fast_terminate else mret tt.

Definition grow_strictly (page_grow_size max_limit_memory_length : Z) : SM linear_memory stop (bool * option Z) :=
  if page_grow_size =? 0 then (fun m => Done ((true, Some (get_page_size m)), m))
  else grow_pages true page_grow_size max_limit_memory_length.

(** [wasm_memory64::grow]; [multi_thread] is [Memory::support_multi_thread]. *)
Definition grow64 (multi_thread strict : bool) (maximum_bytes delta : Z) : SM linear_memory stop Z :=
  let failed := 2 ^ 64 - 1 in
  m ← sm_get;
  let shift := custom_page_size_log2 m in
  if 64 <=? shift then mret failed
  else
    let limit_pages := Z.shiftr maximum_bytes shift in
    let old_pages := get_page_size m in
    if (limit_pages <? old_pages) || (uz (limit_pages - old_pages) <? delta) then mret failed
    else
      let native_delta := uz delta in
      let result (r : bool * option Z) := if fst r then default old_pages (snd r) else failed in
      if strict then r ← grow_strictly native_delta maximum_bytes; mret (result r)
      else if multi_thread then r ← try_grow_silently native_delta maximum_bytes; mret (result r)
      else grow_silently native_delta maximum_bytes;; mret old_pages.
End Growth.

(** ** Ranges and bulk operations *)

Definition range_valid (bound offset length : Z) : bool := (offset <=? bound) && (length <=? uz (bound - offset)).

Definition maximum_bytes_from_pages (pages shift : Z) : Z :=
  if (64 <=? shift) || (Z.shiftr size_t_max shift <? pages) then size_t_max
  else uz (Z.shiftl pages shift).

Inductive bulk_error := bulk_none | bulk_source | bulk_destination.

(** Replacing bytes of an allocation, without a check. *)
Definition write_bytes (at_ : Z) (bytes buf : list Z) : list Z :=
  take (Z.to_nat at_) buf ++ bytes ++ drop (Z.to_nat at_ + length bytes) buf.
Definition read_bytes (at_ n : Z) (buf : list Z) : list Z := take (Z.to_nat n) (drop (Z.to_nat at_) buf).

(** [copy] within one memory, or from the memory [source] to another. [memmove] reads before it
    writes. *)
Definition copy (destination_buf source_buf : list Z) (destination source length : Z) : bulk_error * list Z :=
  if negb (range_valid (zlen source_buf) source length) then (bulk_source, destination_buf)
  else if negb (range_valid (zlen destination_buf) destination length) then (bulk_destination, destination_buf)
  else (bulk_none,
    if negb (length =? 0) then write_bytes destination (read_bytes source length source_buf) destination_buf
    else destination_buf).

Definition fill (destination_buf : list Z) (destination value length : Z) : bulk_error * list Z :=
  if negb (range_valid (zlen destination_buf) destination length) then (bulk_destination, destination_buf)
  else (bulk_none,
    if negb (length =? 0) then write_bytes destination (replicate (Z.to_nat length) (u8 value)) destination_buf
    else destination_buf).
