(* ===== verification/LinearMemoryCorrect.v ===== *)
(** * Correctness of linear memories

    The invariant of a memory, and what growth, ranges and bulk operations do to its bytes. *)

From stdpp Require Import base list numbers.
From Stdlib Require Import ZArith Lia.
From S2P Require Import Prelude LinearMemory.
Open Scope Z_scope.

(** ** The invariant *)

(** [m] holds the bytes [buf], a whole number of pages. *)
Record memory_wf (m : linear_memory) (buf : list Z) : Prop := {
  wf_begin : memory_begin m = Some buf;
  wf_length : memory_length m = zlen buf;
  wf_ordered : sequentially_consistent_size m = true -> ordered_memory_length m = zlen buf;
  wf_page : 0 <= custom_page_size_log2 m < 64;
  wf_pages : zlen buf mod 2 ^ custom_page_size_log2 m = 0;
  wf_bound : zlen buf <= size_t_max;
}.

Definition zero_bytes (n : Z) : list Z := replicate (Z.to_nat n) 0.

Lemma zlen_nonneg {B} (l : list B) : 0 <= zlen l.
Proof. unfold zlen. lia. Qed.

Lemma zlen_app {B} (l l' : list B) : zlen (l ++ l') = zlen l + zlen l'.
Proof. unfold zlen. rewrite length_app. lia. Qed.

Lemma zlen_zero_bytes n : 0 <= n -> zlen (zero_bytes n) = n.
Proof. intros H. unfold zlen, zero_bytes. rewrite length_replicate. lia. Qed.

Section Wf.
Context (m : linear_memory) (buf : list Z) (W : memory_wf m buf).
Let ps := 2 ^ custom_page_size_log2 m.

Lemma page_pos : 0 < ps.
Proof using W. apply Z.pow_pos_nonneg; [lia | apply W]. Qed.

Lemma wf_current_length : current_length m = zlen buf.
Proof using W.
  unfold current_length. destruct (sequentially_consistent_size m) eqn:E; [by apply (wf_ordered m buf W) | by apply (wf_length m buf W)].
Qed.

Lemma wf_get_page_size : get_page_size m = zlen buf / ps.
Proof using W. unfold get_page_size. rewrite wf_current_length, Z.shiftr_div_pow2; [done | apply W]. Qed.

Lemma wf_page_count : zlen buf = get_page_size m * ps.
Proof using W.
  rewrite wf_get_page_size. pose proof (Z.div_mod (zlen buf) ps ltac:(pose proof page_pos; lia)).
  pose proof (wf_pages m buf W) as Hp. fold ps in Hp. lia.
Qed.

(** Comparing page counts is comparing sizes: the limit need not be whole pages. *)
Lemma pages_exceed limit d :
  0 <= limit <= size_t_max -> 0 <= d ->
  let limit_pages := Z.shiftr limit (custom_page_size_log2 m) in
  (limit_pages <? get_page_size m) || (uz (limit_pages - get_page_size m) <? d) = (limit <? zlen buf + d * ps).
Proof using W.
  intros Hl Hd. pose proof page_pos as Hps. pose proof wf_page_count as Hz. pose proof (zlen_nonneg buf).
  rewrite Z.shiftr_div_pow2 by apply W. cbv zeta. fold ps. set (old := get_page_size m) in *.
  assert (0 <= limit / ps <= limit) by (split; [apply Z.div_pos; lia | apply Z.div_le_upper_bound; nia]).
  pose proof (Z.div_mod limit ps ltac:(lia)). pose proof (Z.mod_pos_bound limit ps Hps).
  destruct (Z.ltb_spec (limit / ps) old); simpl orb; [symmetry; apply Z.ltb_lt; nia |].
  assert (0 <= old) by (unfold old; rewrite wf_get_page_size; apply Z.div_pos; fold ps; lia).
  unfold uz, wrap, size_t_max in *. rewrite Z.mod_small by lia. apply eq_true_iff_eq. rewrite !Z.ltb_lt. split; intros; nia.
Qed.

(** A new allocation that adds whole pages. *)
Lemma set_allocation_wf buf' k :
  0 <= k -> zlen buf' = zlen buf + k * ps -> zlen buf' <= size_t_max ->
  memory_wf (set_allocation buf' (zlen buf') m) buf' /\
  get_page_size (set_allocation buf' (zlen buf') m) = get_page_size m + k.
Proof using W.
  intros Hk Hlen Hmax. pose proof page_pos as Hps.
  assert (current_length (set_allocation buf' (zlen buf') m) = zlen buf') as Hc.
  { unfold current_length, set_allocation. simpl. by destruct (sequentially_consistent_size m). }
  split; [constructor | unfold get_page_size at 1; rewrite Hc]; simpl; try done.
  - by intros ->.
  - apply W.
  - fold ps. rewrite Hlen, Z.mod_add by lia. apply (wf_pages m buf W).
  - rewrite Z.shiftr_div_pow2 by apply W. fold ps. rewrite Hlen, Z.div_add, wf_get_page_size by lia. done.
Qed.
End Wf.

(** ** Allocation *)

Section Allocation.
Context (A : allocator) `{!AllocatorLaws A}.

(** However the allocation is extended, the old bytes are kept and the new ones are zero. *)
Lemma extend_allocation_bytes buf k temp :
  0 <= k -> extend_allocation A buf (zlen buf) k (zlen buf + k) = Some temp -> temp = buf ++ zero_bytes k.
Proof.
  intros Hk. unfold extend_allocation, zero_bytes. pose proof (zlen_nonneg buf) as Hb.
  destruct (reallocate_aligned_zero A) as [f |] eqn:E1.
  { intros H. rewrite (reallocate_zero_keeps f buf (zlen buf + k) temp E1 ltac:(lia) H). f_equal. f_equal. lia. }
  destruct (reallocate_aligned A) as [f |] eqn:E2.
  - intros (t & Ht & [= <-])%bind_Some. destruct (reallocate_keeps f buf (zlen buf + k) t E2 ltac:(lia) Ht) as (rest & -> & Hlen).
    rewrite zlen_app in Hlen. unfold zlen in *. rewrite take_app_length' by lia.
    rewrite drop_ge by (rewrite length_app; lia). by rewrite app_nil_r.
  - intros (t & Ht & [= <-])%bind_Some. apply allocate_zero_bytes in Ht as ->; [| lia].
    unfold zlen in *. rewrite take_ge by lia. rewrite drop_replicate. do 2 f_equal. lia.
Qed.

(** What growing by [pages] pages does when it succeeds: the page count before is reported,
    and zero bytes are added. *)
Definition grown (m : linear_memory) (buf : list Z) (pages : Z) (m' : linear_memory) : Prop :=
  memory_wf m' (buf ++ zero_bytes (pages * 2 ^ custom_page_size_log2 m)) /\
  get_page_size m' = get_page_size m + pages /\
  custom_page_size_log2 m' = custom_page_size_log2 m.

Lemma shiftl_pages log2 pages :
  0 <= log2 < 64 -> 0 <= pages -> (Z.shiftr size_t_max log2 <? pages) = (size_t_max <? pages * 2 ^ log2).
Proof.
  intros Hl Hp. rewrite Z.shiftr_div_pow2 by lia. assert (0 < 2 ^ log2) as H0 by (apply Z.pow_pos_nonneg; lia).
  pose proof (Z.div_mod size_t_max (2 ^ log2) ltac:(lia)). pose proof (Z.mod_pos_bound size_t_max (2 ^ log2) H0).
  apply eq_true_iff_eq. rewrite !Z.ltb_lt. split; intros; nia.
Qed.

(** Growth by at least one page: the limit is compared without overflow; a refused growth
    changes nothing. *)
Lemma grow_pages_correct strict m buf pages limit :
  memory_wf m buf -> 0 < pages -> 0 <= limit <= size_t_max ->
  let more := pages * 2 ^ custom_page_size_log2 m in
  if limit <? zlen buf + more then exists out, grow_pages A strict pages limit m = Done ((false, out), m)
  else match extend_allocation A buf (zlen buf) more (zlen buf + more) with
  | None => grow_pages A strict pages limit m =
      if strict then Done ((false, Some (get_page_size m)), m) else Thrown fast_terminate
  | Some _ => exists m', grow_pages A strict pages limit m = Done ((true, Some (get_page_size m)), m') /\ grown m buf pages m'
  end.
Proof.
  intros W Hp Hl more. pose proof (wf_page m buf W) as Hlog. pose proof (page_pos m buf W) as Hps. pose proof (zlen_nonneg buf) as Hb.
  unfold grow_pages. rewrite bind_get, (wf_begin m buf W), (wf_current_length m buf W). cbv zeta.
  rewrite shiftl_pages by lia. fold more. assert (0 < more) as Hmore by (unfold more; nia).
  assert (Z.shiftr (zlen buf) (custom_page_size_log2 m) = get_page_size m) as ->
    by (unfold get_page_size; by rewrite (wf_current_length m buf W)).
  destruct (Z.ltb_spec limit (zlen buf + more)) as [Hover | Hfit].
  - destruct (Z.ltb_spec size_t_max more); [by eexists |].
    assert (uz (Z.shiftl pages (custom_page_size_log2 m)) = more) as ->
      by (rewrite Z.shiftl_mul_pow2 by lia; apply Z.mod_small; unfold size_t_max in *; lia).
    destruct (Z.ltb_spec limit (zlen buf)); [by eexists |].
    assert (uz (limit - zlen buf) = limit - zlen buf) as -> by (apply Z.mod_small; unfold size_t_max in *; lia).
    rewrite (proj2 (Z.ltb_lt _ _)) by lia. by eexists.
  - rewrite (proj2 (Z.ltb_ge size_t_max more)) by lia.
    assert (uz (Z.shiftl pages (custom_page_size_log2 m)) = more) as ->
      by (rewrite Z.shiftl_mul_pow2 by lia; apply Z.mod_small; unfold size_t_max in *; lia).
    rewrite (proj2 (Z.ltb_ge limit _)) by lia.
    assert (uz (limit - zlen buf) = limit - zlen buf) as -> by (apply Z.mod_small; unfold size_t_max in *; lia).
    rewrite (proj2 (Z.ltb_ge _ more)) by lia.
    assert (uz (zlen buf + more) = zlen buf + more) as -> by (apply Z.mod_small; unfold size_t_max in *; lia).
    destruct (extend_allocation A buf (zlen buf) more (zlen buf + more)) as [temp |] eqn:E; [| by destruct strict].
    apply extend_allocation_bytes in E as ->; [| lia].
    eexists. split; [reflexivity |].
    assert (zlen (buf ++ zero_bytes more) = zlen buf + more) as Hlen by (rewrite zlen_app, zlen_zero_bytes; lia).
    destruct (set_allocation_wf m buf W (buf ++ zero_bytes more) pages) as [H1 H2]; [lia | done | lia |].
    rewrite <- Hlen. by split_and!.
Qed.

(** A growth, possibly by no page, within the limit. *)
Lemma grow_fits m buf (W : memory_wf m buf) (strict : bool) limit d :
  0 <= limit <= size_t_max -> 0 <= d ->
  let size := zlen buf + d * 2 ^ custom_page_size_log2 m in
  size <= limit ->
  let f := if strict then grow_strictly A d limit else try_grow_silently A d limit in
  let no_memory := d <> 0 /\ extend_allocation A buf (zlen buf) (size - zlen buf) size = None in
  (exists m', f m = Done ((true, Some (get_page_size m)), m') /\ grown m buf d m') \/
  ((if strict then exists o, f m = Done ((false, o), m) else f m = Thrown fast_terminate) /\ no_memory).
Proof.
  intros Hl Hd size Hfit f no_memory. destruct (Z.eq_dec d 0) as [-> | Hne].
  - left. exists m. split; [subst f; by destruct strict |]. unfold grown, zero_bytes. rewrite Z.mul_0_l, app_nil_r, Z.add_0_r. done.
  - pose proof (grow_pages_correct strict m buf d limit W ltac:(lia) Hl) as G. cbv zeta in G. fold size in G.
    rewrite (proj2 (Z.ltb_ge _ _) Hfit) in G.
    assert (f m = grow_pages A strict d limit m) as ->.
    { subst f. unfold grow_strictly, try_grow_silently. rewrite (proj2 (Z.eqb_neq d 0) Hne). by destruct strict. }
    unfold no_memory. replace (size - zlen buf) with (d * 2 ^ custom_page_size_log2 m) by (unfold size; lia).
    destruct (extend_allocation A buf (zlen buf) (d * 2 ^ custom_page_size_log2 m) size); cbv iota in G.
    + left. destruct G as (m' & -> & Hg). by exists m'.
    + right. rewrite G. destruct strict; eauto.
Qed.
End Allocation.

(** ** Ranges of bytes *)

Lemma range_valid_eq bound offset length :
  0 <= bound <= size_t_max -> 0 <= offset <= size_t_max -> 0 <= length <= size_t_max ->
  range_valid bound offset length = (offset + length <=? bound).
Proof.
  intros Hb Ho Hl. unfold range_valid, size_t_max in *. destruct (Z.leb_spec offset bound); simpl; [| lia].
  unfold uz, wrap. rewrite Z.mod_small by lia. lia.
Qed.

Section Bytes.
Implicit Types (buf bytes : list Z).

Lemma write_bytes_length at_ bytes buf :
  0 <= at_ -> at_ + zlen bytes <= zlen buf -> zlen (write_bytes at_ bytes buf) = zlen buf.
Proof.
  intros Ha Hl. unfold zlen, write_bytes in *. rewrite !length_app, length_take, length_drop. lia.
Qed.

(** Only the bytes of the range change. *)
Lemma write_bytes_lookup at_ bytes buf i :
  0 <= at_ -> at_ + zlen bytes <= zlen buf ->
  write_bytes at_ bytes buf !! i =
    if (at_ <=? Z.of_nat i) && (Z.of_nat i <? at_ + zlen bytes) then bytes !! (i - Z.to_nat at_)%nat else buf !! i.
Proof.
  intros Ha Hl. unfold zlen, write_bytes in *.
  destruct (Z.leb_spec at_ (Z.of_nat i)) as [H1 | H1]; simpl.
  - rewrite lookup_app_r by (rewrite length_take; lia). rewrite length_take.
    replace (i - Z.to_nat at_ `min` length buf)%nat with (i - Z.to_nat at_)%nat by lia.
    destruct (Z.ltb_spec (Z.of_nat i) (at_ + Z.of_nat (length bytes))).
    + by rewrite lookup_app_l by lia.
    + rewrite lookup_app_r, lookup_drop by lia. f_equal. lia.
  - rewrite lookup_app_l by (rewrite length_take; lia). by rewrite lookup_take_lt by lia.
Qed.

Lemma read_bytes_length at_ n buf :
  0 <= at_ -> 0 <= n -> at_ + n <= zlen buf -> zlen (read_bytes at_ n buf) = n.
Proof. intros Ha Hn Hl. unfold zlen, read_bytes in *. rewrite length_take, length_drop. lia. Qed.

Lemma read_bytes_lookup at_ n buf i :
  0 <= at_ -> (i < Z.to_nat n)%nat -> read_bytes at_ n buf !! i = buf !! (Z.to_nat at_ + i)%nat.
Proof. intros Ha Hi. unfold read_bytes. by rewrite lookup_take_lt, lookup_drop by lia. Qed.

(** Reading what was written, and reading elsewhere. *)
Lemma read_write_same at_ bytes buf :
  0 <= at_ -> at_ + zlen bytes <= zlen buf -> read_bytes at_ (zlen bytes) (write_bytes at_ bytes buf) = bytes.
Proof.
  intros Ha Hl. unfold zlen, read_bytes, write_bytes in *.
  rewrite drop_app_ge by (rewrite length_take; lia). rewrite length_take.
  replace (Z.to_nat at_ - Z.to_nat at_ `min` length buf)%nat with 0%nat by lia. rewrite drop_0.
  rewrite Nat2Z.id. by rewrite take_app_length.
Qed.

Lemma read_write_disjoint at_ bytes buf at' n :
  0 <= at_ -> at_ + zlen bytes <= zlen buf -> 0 <= at' -> 0 <= n ->
  at' + n <= at_ \/ at_ + zlen bytes <= at' ->
  read_bytes at' n (write_bytes at_ bytes buf) = read_bytes at' n buf.
Proof.
  intros Ha Hl Ha' Hn Hd. apply list_eq. intros i. destruct (Nat.lt_ge_cases i (Z.to_nat n)) as [Hi | Hi].
  - rewrite !read_bytes_lookup, write_bytes_lookup by lia.
    destruct (Z.leb_spec at_ (Z.of_nat (Z.to_nat at' + i))); simpl; [| done].
    rewrite (proj2 (Z.ltb_ge _ _)) by lia. done.
  - rewrite !lookup_ge_None_2; [done | |]; unfold read_bytes; rewrite length_take; lia.
Qed.
End Bytes.
