(* ===== verification/MemoryTheorems.v ===== *)
(** * Theorems about linear memories

    Growth with 64-bit operands, and the bulk operations, of [wasm_memory64.h]. *)

From stdpp Require Import base list numbers.
From Stdlib Require Import ZArith Lia.
From S2P Require Import Prelude LinearMemory LinearMemoryCorrect.
Open Scope Z_scope.

(** C13: Growth by any number of pages, in every mode and with every kind of allocator: it
    succeeds exactly when the new size is within the limit (and the allocator delivers), then
    the old page count is the result, the old bytes are kept and the new ones are zero; a
    refused growth returns -1 and changes nothing. No sum or product overflows. *)
Theorem grow64_correct A multi_thread strict limit delta m buf :
  AllocatorLaws A -> memory_wf m buf -> 0 <= limit <= size_t_max -> 0 <= delta <= size_t_max ->
  let size := zlen buf + delta * 2 ^ custom_page_size_log2 m in
  let no_memory := delta <> 0 /\ extend_allocation A buf (zlen buf) (size - zlen buf) size = None in
  match grow64 A multi_thread strict limit delta m with
  | Done (r, m') =>
      (size <= limit /\ r = get_page_size m /\ grown m buf delta m') \/
      ((limit < size \/ strict = true /\ no_memory) /\ r = 2 ^ 64 - 1 /\ m' = m)
  | Thrown e => e = fast_terminate /\ strict = false /\ size <= limit /\ no_memory
  | _ => False
  end.
Proof.
  intros HA W Hl Hd size no_memory. unfold grow64. rewrite bind_get. cbv zeta.
  rewrite (proj2 (Z.leb_gt _ _)) by apply W. rewrite (pages_exceed m buf W limit delta) by lia. fold size.
  destruct (Z.ltb_spec limit size) as [Hover | Hfit]; [right; auto |].
  assert (uz delta = delta) as -> by (apply Z.mod_small; unfold size_t_max in *; lia).
  pose proof (fun s => grow_fits A m buf W s limit delta Hl (proj1 Hd) Hfit) as G. cbv zeta in G. fold size no_memory in G.
  destruct strict; [| destruct multi_thread].
  - destruct (G true) as [(m' & E & Hg) | ((o & E) & Hn)]; rewrite (bind_done _ _ _ _ _ E); simpl; auto 6.
  - destruct (G false) as [(m' & E & Hg) | (E & Hn)]; [rewrite (bind_done _ _ _ _ _ E) | rewrite (bind_thrown _ _ _ _ E)]; simpl; auto.
  - unfold grow_silently. destruct (G false) as [(m' & E & Hg) | (E & Hn)]; rewrite sm_bind_assoc;
      [rewrite (bind_done _ _ _ _ _ E) | rewrite (bind_thrown _ _ _ _ E)]; simpl; auto.
Qed.

(** An allocator that only allocates, and a memory of one page of 16 bytes. *)
Definition fresh_allocator : allocator := Allocator (fun n => Some (replicate (Z.to_nat n) 0)) None None.

#[export] Instance fresh_allocator_laws : AllocatorLaws fresh_allocator.
Proof. split; [by intros n b _ [= <-] | done | done]. Qed.

Definition one_page : linear_memory := LinearMemory (Some (replicate 16 7)) 16 4 true 0 16.

Lemma one_page_wf : memory_wf one_page (replicate 16 7).
Proof. by constructor. Qed.

Lemma grow64_correct_witness :
  match grow64 fresh_allocator true true 40 1 one_page with
  | Done (r, m') => (32 <= 40 /\ r = 1 /\ grown one_page (replicate 16 7) 1 m') \/
      ((40 < 32 \/ true = true /\ 1 <> 0 /\ extend_allocation fresh_allocator (replicate 16 7) 16 16 32 = None) /\ r = 2 ^ 64 - 1 /\ m' = one_page)
  | Thrown e => False
  | _ => False
  end.
Proof.
  pose proof (grow64_correct fresh_allocator true true 40 1 one_page (replicate 16 7) fresh_allocator_laws one_page_wf
    ltac:(unfold size_t_max; lia) ltac:(unfold size_t_max; lia)) as H. cbv zeta in H.
  destruct (grow64 fresh_allocator true true 40 1 one_page) as [[r m'] | e | |]; [exact H | | exact H..].
  destruct H as (_ & Hs & _). discriminate Hs.
Defined.

(** ** Bulk operations *)

Definition size_ok (buf : list Z) : Prop := zlen buf <= size_t_max.

(** C30: [copy] moves exactly the bytes of the range, in either direction of an overlap, when
    both ranges are inside their memories, without overflow of an end; otherwise it reports
    the source first and changes nothing. *)
Theorem copy_correct dst src destination source length :
  size_ok dst -> size_ok src ->
  0 <= destination <= size_t_max -> 0 <= source <= size_t_max -> 0 <= length <= size_t_max ->
  let (e, dst') := copy dst src destination source length in
  zlen dst' = zlen dst /\
  (e = bulk_source <-> zlen src < source + length) /\
  (e = bulk_destination <-> source + length <= zlen src /\ zlen dst < destination + length) /\
  (e <> bulk_none -> dst' = dst) /\
  (e = bulk_none -> forall i : nat,
     dst' !! i = if (destination <=? Z.of_nat i) && (Z.of_nat i <? destination + length)
                 then src !! (i - Z.to_nat destination + Z.to_nat source)%nat else dst !! i).
Proof.
  intros Hd Hs H1 H2 H3. pose proof (zlen_nonneg dst). pose proof (zlen_nonneg src). unfold size_ok in *. unfold copy.
  rewrite !range_valid_eq by lia.
  destruct (Z.leb_spec (source + length) (zlen src)) as [Hsrc | Hsrc]; simpl negb; cbv iota;
    [| split_and!; try done; split; intros; first [lia | done]].
  destruct (Z.leb_spec (destination + length) (zlen dst)) as [Hdst | Hdst]; simpl negb; cbv iota;
    [| split_and!; try done; split; intros; first [lia | done]].
  destruct (Z.eqb_spec length 0) as [-> | Hne]; simpl negb; cbv iota.
  - split_and!; try done; [split; [done | lia].. |]. intros _ i. case_match eqn:E; [lia | done].
  - pose proof (read_bytes_length source length src) as Hlen.
    split_and!; [apply write_bytes_length; lia | split; [done | lia] | split; [done | lia] | done |]. intros _ i.
    rewrite write_bytes_lookup by lia. rewrite Hlen by lia.
    destruct (Z.leb_spec destination (Z.of_nat i)), (Z.ltb_spec (Z.of_nat i) (destination + length)); simpl; try done.
    rewrite read_bytes_lookup by lia. f_equal. lia.
Qed.

(** An overlapping copy within a memory. *)
Lemma copy_correct_witness :
  copy [1; 2; 3; 4; 5] [1; 2; 3; 4; 5] 1 0 4 = (bulk_none, [1; 1; 2; 3; 4]) /\
  forall i : nat, [1; 1; 2; 3; 4] !! i = if (1 <=? Z.of_nat i) && (Z.of_nat i <? 1 + 4) then [1; 2; 3; 4; 5] !! (i - 1 + 0)%nat else [1; 2; 3; 4; 5] !! i.
Proof.
  split; [reflexivity |].
  apply (copy_correct [1; 2; 3; 4; 5] [1; 2; 3; 4; 5] 1 0 4 ltac:(discriminate) ltac:(discriminate)
    ltac:(split; discriminate) ltac:(split; discriminate) ltac:(split; discriminate)). reflexivity.
Defined.

(** [fill] writes the low byte of the value to exactly the range, or reports it. *)
Lemma fill_correct dst destination value length :
  size_ok dst -> 0 <= destination <= size_t_max -> 0 <= length <= size_t_max ->
  let (e, dst') := fill dst destination value length in
  zlen dst' = zlen dst /\ (e = bulk_destination <-> zlen dst < destination + length) /\ e <> bulk_source /\
  (e <> bulk_none -> dst' = dst) /\
  (e = bulk_none -> forall i : nat,
     dst' !! i = if (destination <=? Z.of_nat i) && (Z.of_nat i <? destination + length) then Some (value mod 2 ^ 8) else dst !! i).
Proof.
  intros Hd H1 H3. pose proof (zlen_nonneg dst). unfold size_ok in *. unfold fill. rewrite range_valid_eq by lia.
  destruct (Z.leb_spec (destination + length) (zlen dst)) as [Hdst | Hdst]; simpl negb; cbv iota;
    [| split_and!; try done; split; intros; first [lia | done]].
  destruct (Z.eqb_spec length 0) as [-> | Hne]; simpl negb; cbv iota.
  - split_and!; try done; [split; [done | lia] |]. intros _ i. case_match eqn:E; [lia | done].
  - assert (zlen (replicate (Z.to_nat length) (u8 value)) = length) as Hlen by (unfold zlen; rewrite length_replicate; lia).
    split_and!; [apply write_bytes_length; lia | split; [done | lia] | done | done |]. intros _ i.
    rewrite write_bytes_lookup, Hlen by lia.
    destruct (Z.leb_spec destination (Z.of_nat i)), (Z.ltb_spec (Z.of_nat i) (destination + length)); simpl; try done.
    apply lookup_replicate_2. lia.
Qed.
