(* ===== verification/GrowProtocol.v ===== *)
(** * The protocol of growth and access

    [growing_flag_guard_t] and [memory_operation_guard_t] of
    [object/memory/linear/allocator.h], and the loop that [try_grow_silently] and
    [grow_strictly] wait in: any number of threads access a memory and grow it. A step is one
    atomic operation of one thread; steps interleave, so that this is the protocol under
    sequential consistency ([WeakMemory] is about the orderings the code asks for). *)

From stdpp Require Import base list numbers.
From Stdlib Require Import ZArith Lia.
From S2P Require Import Prelude.
Open Scope Z_scope.

(** ** Threads

    Where a thread stands, with its [spin_count] or the value it waits on. *)
Inductive pc :=
| Idle
(** [enter_operation] *)
| OpTest (spin : Z)       (* about to test the flag in the while loop *)
| OpFlagWait              (* in [wait(true)], about to compare *)
| OpFlagParked            (* blocked in [wait(true)] *)
| OpAdd (spin : Z)        (* about to increment [active_ops] *)
| OpRecheck (spin : Z)    (* about to test the flag again *)
| OpUndo (spin : Z)       (* about to decrement after a failed test *)
| OpUndoNotify (spin : Z)
(** the operation, and [exit_operation] *)
| OpInside
| OpExitNotify
(** the constructor of [growing_flag_guard_t] *)
| GrTas (spin : Z)        (* about to [test_and_set] *)
| GrFlagWait
| GrFlagParked
(** the loop that waits for the operations *)
| GrLoad (spin : Z)
| GrOpsWait (v : Z)
| GrOpsParked (v : Z)
(** the growth, and the destructor of the guard *)
| GrCritical
| GrNotify.

#[export] Instance pc_eq_dec : EqDecision pc.
Proof. solve_decision. Defined.

Inductive wake := NoWake | WakeFlag | WakeOps.

(** The spin counter of the code: below the bound it pauses, above it blocks. *)
Definition spins (spin : Z) : bool := 1000 <? u32 (spin + 1).

(** One atomic operation of a thread that is neither idle nor blocked: where it stands then,
    the flag, the counter, and whom it notifies. *)
Definition move (p : pc) (flag : bool) (active_ops : Z) : option (pc * bool * Z * wake) :=
  match p with
  | OpTest spin =>
      Some (if flag then if spins spin then OpFlagWait else OpTest (u32 (spin + 1)) else OpAdd spin,
            flag, active_ops, NoWake)
  | OpFlagWait => Some (if flag then OpFlagParked else OpTest 0, flag, active_ops, NoWake)
  | OpAdd spin => Some (OpRecheck spin, flag, uz (active_ops + 1), NoWake)
  | OpRecheck spin => Some (if flag then OpUndo spin else OpInside, flag, active_ops, NoWake)
  | OpUndo spin => Some (OpUndoNotify spin, flag, uz (active_ops - 1), NoWake)
  | OpUndoNotify spin => Some (OpTest spin, flag, active_ops, WakeOps)
  | OpInside => Some (OpExitNotify, flag, uz (active_ops - 1), NoWake)
  | OpExitNotify => Some (Idle, flag, active_ops, WakeOps)
  | GrTas spin =>
      Some (if flag then if spins spin then GrFlagWait else GrTas (u32 (spin + 1)) else GrLoad 0,
            true, active_ops, NoWake)
  | GrFlagWait => Some (if flag then GrFlagParked else GrTas 0, flag, active_ops, NoWake)
  | GrLoad spin =>
      Some (if active_ops =? 0 then GrCritical
            else if spins spin then GrOpsWait active_ops else GrLoad (u32 (spin + 1)),
            flag, active_ops, NoWake)
  | GrOpsWait v => Some (if active_ops =? v then GrOpsParked v else GrLoad 0, flag, active_ops, NoWake)
  | GrCritical => Some (GrNotify, false, active_ops, NoWake)
  | GrNotify => Some (Idle, flag, active_ops, WakeFlag)
  | Idle | OpFlagParked | GrFlagParked | GrOpsParked _ => None
  end.

(** [notify_all] on the flag. *)
Definition unpark_flag (p : pc) : pc :=
  match p with OpFlagParked => OpFlagWait | GrFlagParked => GrFlagWait | _ => p end.

(** ** Systems of threads *)

Record system := System { threads : list pc; growing_flag : bool; active_ops : Z }.

(** [spurious] allows a blocked thread to be woken without a notification. *)
Inductive step (spurious : bool) : system -> system -> Prop :=
| step_start ths flag ops i p :
    ths !! i = Some Idle -> p = OpTest 0 \/ p = GrTas 0 ->
    step spurious (System ths flag ops) (System (<[i := p]> ths) flag ops)
| step_move ths flag ops i p p' flag' ops' :
    ths !! i = Some p -> move p flag ops = Some (p', flag', ops', NoWake) ->
    step spurious (System ths flag ops) (System (<[i := p']> ths) flag' ops')
| step_notify_flag ths flag ops i p p' flag' ops' :
    ths !! i = Some p -> move p flag ops = Some (p', flag', ops', WakeFlag) ->
    step spurious (System ths flag ops) (System (unpark_flag <$> <[i := p']> ths) flag' ops')
| step_notify_none ths flag ops i p p' flag' ops' :
    ths !! i = Some p -> move p flag ops = Some (p', flag', ops', WakeOps) ->
    (forall j v, ths !! j <> Some (GrOpsParked v)) ->
    step spurious (System ths flag ops) (System (<[i := p']> ths) flag' ops')
| step_notify_one ths flag ops i p p' flag' ops' j v :
    ths !! i = Some p -> move p flag ops = Some (p', flag', ops', WakeOps) ->
    ths !! j = Some (GrOpsParked v) ->
    step spurious (System ths flag ops) (System (<[j := GrOpsWait v]> (<[i := p']> ths)) flag' ops')
| step_spurious ths flag ops i p p' :
    spurious = true -> ths !! i = Some p ->
    p' = match p with GrOpsParked v => GrOpsWait v | _ => unpark_flag p end ->
    step spurious (System ths flag ops) (System (<[i := p']> ths) flag ops).

Inductive steps (spurious : bool) : system -> system -> Prop :=
| steps_refl s : steps spurious s s
| steps_step s1 s2 s3 : step spurious s1 s2 -> steps spurious s2 s3 -> steps spurious s1 s3.

(** A memory that [n] threads share, before any of them uses it. *)
Definition initial (n : nat) : system := System (replicate n Idle) false 0.
Definition quiescent (s : system) : Prop := Forall (eq Idle) (threads s).

#[export] Instance quiescent_dec s : Decision (quiescent s).
Proof. unfold quiescent. apply _. Defined.

(** ** Counting threads *)

Definition count (f : pc -> bool) (ths : list pc) : Z := Z.of_nat (length (filter (fun p => f p = true) ths)).

Definition holds (p : pc) : bool :=
  match p with GrLoad _ | GrOpsWait _ | GrOpsParked _ | GrCritical => true | _ => false end.
Definition counted (p : pc) : bool :=
  match p with OpRecheck _ | OpUndo _ | OpInside => true | _ => false end.
Definition critical (p : pc) : bool := match p with GrCritical => true | _ => false end.
Definition inside (p : pc) : bool := match p with OpInside => true | _ => false end.
Definition notifies_flag (p : pc) : bool := match p with GrNotify => true | _ => false end.
Definition notifies_ops (p : pc) : bool := match p with OpUndoNotify _ | OpExitNotify => true | _ => false end.
Definition flag_parked (p : pc) : bool := match p with OpFlagParked | GrFlagParked => true | _ => false end.
Definition ops_parked (p : pc) : bool := match p with GrOpsParked _ => true | _ => false end.
(** A value waited on is not zero. *)
Definition waits_nonzero (p : pc) : bool :=
  match p with GrOpsWait v | GrOpsParked v => negb (v =? 0) | _ => true end.

Section Count.
Context (f : pc -> bool).

Lemma count_cons p ths : count f (p :: ths) = Z.b2z (f p) + count f ths.
Proof. unfold count. rewrite filter_cons. destruct (f p) eqn:E; simpl Z.b2z; destruct decide; simpl; try congruence; lia. Qed.

Lemma count_nonneg ths : 0 <= count f ths <= zlen ths.
Proof. unfold count, zlen. pose proof (length_filter (fun p => f p = true) ths). lia. Qed.

Lemma count_insert ths i p q :
  ths !! i = Some p -> count f (<[i := q]> ths) = count f ths - Z.b2z (f p) + Z.b2z (f q).
Proof.
  revert i. induction ths as [| x ths IH]; intros i Hi; [done |]. destruct i as [| i]; simpl in *.
  - injection Hi as ->. rewrite !count_cons. lia.
  - rewrite !count_cons, (IH i Hi). lia.
Qed.

Lemma count_fmap g ths : (forall p, f (g p) = f p) -> count f (g <$> ths) = count f ths.
Proof. intros H. induction ths as [| x ths IH]; [done |]. rewrite fmap_cons, !count_cons, IH, H. done. Qed.

Lemma count_pos ths : 0 < count f ths -> exists i p, ths !! i = Some p /\ f p = true.
Proof.
  induction ths as [| x ths IH]; [done |]. rewrite count_cons. destruct (f x) eqn:E; [by exists 0%nat, x |].
  intros (i & p & Hi & Hp)%IH. by exists (S i), p.
Qed.

Lemma count_in ths i p : ths !! i = Some p -> f p = true -> 0 < count f ths.
Proof.
  revert i. induction ths as [| x ths IH]; intros i Hi Hp; [done |]. rewrite count_cons. pose proof (count_nonneg ths).
  destruct i as [| i]; simpl in Hi; [injection Hi as ->; rewrite Hp; simpl; lia |].
  specialize (IH i Hi Hp). destruct (f x); simpl; lia.
Qed.

Lemma count_two ths i j p q :
  i <> j -> ths !! i = Some p -> ths !! j = Some q -> f p = true -> f q = true -> 2 <= count f ths.
Proof.
  revert i j. induction ths as [| x ths IH]; intros i j Hne Hi Hj Hp Hq; [done |]. rewrite count_cons.
  pose proof (count_nonneg ths). destruct i as [| i], j as [| j]; simpl in *; [done | | |].
  - injection Hi as ->. pose proof (count_in ths j q Hj Hq). rewrite Hp. simpl. lia.
  - injection Hj as ->. pose proof (count_in ths i p Hi Hp). rewrite Hq. simpl. lia.
  - specialize (IH i j ltac:(lia) Hi Hj Hp Hq). destruct (f x); simpl; lia.
Qed.
End Count.
