(* ===== verification/GrowProtocolCorrect.v ===== *)
(** * Correctness of the protocol of growth and access

    The invariant of [GrowProtocol] in every interleaving, and that no reachable state is
    stuck: some thread can always bring the system closer to rest. *)

From stdpp Require Import base list numbers.
From Stdlib Require Import ZArith Lia.
From S2P Require Import Prelude GrowProtocol.
Open Scope Z_scope.

(** ** The invariant *)

Record protocol_inv (s : system) : Prop := {
  (** the flag is set exactly while one thread holds it *)
  inv_flag : count holds (threads s) = Z.b2z (growing_flag s);
  (** the counter is the number of threads that announced themselves *)
  inv_ops : active_ops s = count counted (threads s);
  (** nobody is inside while the memory grows *)
  inv_excl : 0 < count critical (threads s) -> count inside (threads s) = 0;
  (** a blocked thread has somebody to wake it *)
  inv_flag_wake : 0 < count flag_parked (threads s) ->
    growing_flag s = true \/ 0 < count notifies_flag (threads s);
  inv_ops_wake : 0 < count ops_parked (threads s) ->
    active_ops s <> 0 \/ 0 < count notifies_ops (threads s);
  inv_nonzero : Forall (fun p => waits_nonzero p = true) (threads s);
  inv_size : zlen (threads s) < 2 ^ 64;
}.

Lemma count_idle f n : f Idle = false -> count f (replicate n Idle) = 0.
Proof. intros Hf. induction n as [| n IH]; [done |]. simpl replicate. by rewrite count_cons, Hf, IH. Qed.

Lemma initial_inv n : Z.of_nat n < 2 ^ 64 -> protocol_inv (initial n).
Proof.
  intros Hn. constructor; simpl; rewrite ?count_idle by done; try lia; try done.
  - apply Forall_replicate. done.
  - unfold zlen. rewrite length_replicate. done.
Qed.

(** Replacing the state of one thread, for each of the counts. *)
Ltac counts H :=
  rewrite ?(count_insert holds _ _ _ _ H), ?(count_insert counted _ _ _ _ H), ?(count_insert critical _ _ _ _ H),
    ?(count_insert inside _ _ _ _ H), ?(count_insert notifies_flag _ _ _ _ H), ?(count_insert notifies_ops _ _ _ _ H),
    ?(count_insert flag_parked _ _ _ _ H), ?(count_insert ops_parked _ _ _ _ H).

Lemma counts_nonneg ths :
  0 <= count holds ths /\ 0 <= count counted ths <= zlen ths /\ 0 <= count critical ths /\ 0 <= count inside ths /\
  0 <= count notifies_flag ths /\ 0 <= count notifies_ops ths /\ 0 <= count flag_parked ths /\ 0 <= count ops_parked ths.
Proof. split_and!; apply count_nonneg. Qed.

Lemma sub_counts ths :
  count critical ths <= count holds ths /\ count inside ths <= count counted ths /\ count ops_parked ths <= count holds ths.
Proof.
  induction ths as [| p l IH]; [done |]. rewrite !count_cons.
  destruct p; cbn [Z.b2z holds critical counted inside ops_parked]; lia.
Qed.

Section Local.
Context (ths : list pc) (flag : bool) (ops : Z) (I : protocol_inv (System ths flag ops)).

(** A step of one thread that notifies nobody, or the change it makes before it does. *)
Lemma move_inv i p p' flag' ops' w :
  ths !! i = Some p -> move p flag ops = Some (p', flag', ops', w) ->
  let s' := System (<[i := p']> ths) flag' ops' in
  count holds (threads s') = Z.b2z flag' /\ ops' = count counted (threads s') /\
  (0 < count critical (threads s') -> count inside (threads s') = 0) /\
  (w <> WakeFlag -> 0 < count flag_parked (threads s') -> flag' = true \/ 0 < count notifies_flag (threads s')) /\
  (w <> WakeOps -> 0 < count ops_parked (threads s') -> ops' <> 0 \/ 0 < count notifies_ops (threads s')) /\
  Forall (fun p => waits_nonzero p = true) (threads s') /\ zlen (threads s') < 2 ^ 64.
Proof using I.
  intros Hi Hm s'. pose proof (counts_nonneg ths) as (N1 & N2 & N3 & N4 & N5 & N6 & N7 & N8). pose proof (sub_counts ths) as (S1 & S2 & S3).
  destruct I as [I1 I2 I3 I4 I5 I6 I7]. simpl in *.
  pose proof (Forall_lookup_1 _ _ _ _ I6 Hi) as Hp.
  assert (Forall (fun p => waits_nonzero p = true) (<[i := p']> ths) /\ zlen (<[i := p']> ths) < 2 ^ 64) as [F1 F2].
  { split; [| unfold zlen in *; by rewrite length_insert]. apply Forall_insert; [done |].
    destruct p; simpl in Hm; simplify_eq; simpl; try done; repeat case_match; simpl; try done; try lia. }
  assert (forall f, f p = true -> 0 < count f ths) as Hin by (intros f Hf; by apply (count_in f ths i p)).
  pose proof (Hin holds) as H1. pose proof (Hin counted) as H2. pose proof (Hin critical) as H3. pose proof (Hin inside) as H4.
  pose proof (count_nonneg counted (<[i := p']> ths)) as Hb. unfold zlen in Hb. rewrite length_insert in Hb. fold (zlen ths) in Hb.
  rewrite (count_insert counted _ _ _ _ Hi) in Hb.
  counts Hi. clear Hin I6.
  destruct flag, p; simpl in Hm; simplify_eq; simpl in *;
    (split_and!; try done); intros; unfold uz, wrap; repeat case_match; simpl in *; try lia.
Qed.
End Local.

Lemma parked_none ths : (forall j v, ths !! j <> Some (GrOpsParked v)) -> count ops_parked ths = 0.
Proof.
  intros H. pose proof (count_nonneg ops_parked ths). destruct (Z.eq_dec (count ops_parked ths) 0) as [| Hne]; [done |].
  destruct (count_pos ops_parked ths) as (i & p & Hi & Hp); [lia |]. destruct p; try done. by destruct (H i v).
Qed.

Lemma unpark_none ths : count flag_parked (unpark_flag <$> ths) = 0.
Proof. induction ths as [| p ths IH]; [done |]. rewrite fmap_cons, count_cons, IH. by destruct p. Qed.

Lemma unpark_counts ths :
  count holds (unpark_flag <$> ths) = count holds ths /\ count counted (unpark_flag <$> ths) = count counted ths /\
  count critical (unpark_flag <$> ths) = count critical ths /\ count inside (unpark_flag <$> ths) = count inside ths /\
  count notifies_ops (unpark_flag <$> ths) = count notifies_ops ths /\ count ops_parked (unpark_flag <$> ths) = count ops_parked ths.
Proof. split_and!; apply count_fmap; by intros []. Qed.

(** Waking a thread that waits for the operations. *)
Lemma wake_ops_inv ths flag ops j v :
  ths !! j = Some (GrOpsParked v) -> 
  count holds ths = Z.b2z flag -> ops = count counted ths ->
  (0 < count critical ths -> count inside ths = 0) ->
  (0 < count flag_parked ths -> flag = true \/ 0 < count notifies_flag ths) ->
  Forall (fun p => waits_nonzero p = true) ths -> zlen ths < 2 ^ 64 ->
  protocol_inv (System (<[j := GrOpsWait v]> ths) flag ops).
Proof.
  intros Hj H1 H2 H3 H4 H5 H6. pose proof (sub_counts ths) as (S1 & S2 & S3).
  constructor; cbn [threads growing_flag active_ops]; counts Hj; simpl; try (destruct flag; simpl in *; lia).
  - apply Forall_insert; [done |]. apply (Forall_lookup_1 _ _ _ _ H5 Hj).
  - unfold zlen in *. by rewrite length_insert.
Qed.

Lemma step_inv sp s s' : step sp s s' -> protocol_inv s -> protocol_inv s'.
Proof.
  intros H I. destruct H as [ths flag ops i p Hi Hp | ths flag ops i p p' flag' ops' Hi Hm | ths flag ops i p p' flag' ops' Hi Hm
    | ths flag ops i p p' flag' ops' Hi Hm Hn | ths flag ops i p p' flag' ops' j v Hi Hm Hj | ths flag ops i p p' _ Hi ->].
  - destruct I as [I1 I2 I3 I4 I5 I6 I7]. simpl in *.
    constructor; cbn [threads growing_flag active_ops]; counts Hi; destruct Hp as [-> | ->]; simpl; try (destruct flag; simpl in *; lia).
    all: first [by apply Forall_insert | unfold zlen in *; by rewrite length_insert].
  - destruct (move_inv ths flag ops I i p p' flag' ops' NoWake Hi Hm) as (M1 & M2 & M3 & M4 & M5 & M6 & M7).
    simpl in *. constructor; simpl; auto.
  - destruct (move_inv ths flag ops I i p p' flag' ops' WakeFlag Hi Hm) as (M1 & M2 & M3 & _ & M5 & M6 & M7).
    simpl in *. destruct (unpark_counts (<[i := p']> ths)) as (U1 & U2 & U3 & U4 & U5 & U6).
    constructor; cbn [threads growing_flag active_ops]; rewrite ?U1, ?U2, ?U3, ?U4, ?U5, ?U6, ?unpark_none; try done; [by apply M5 | |].
    + apply Forall_fmap. revert M6; apply Forall_impl. by intros [].
    + unfold zlen in *. by rewrite length_fmap.
  - destruct (move_inv ths flag ops I i p p' flag' ops' WakeOps Hi Hm) as (M1 & M2 & M3 & M4 & _ & M6 & M7).
    simpl in *. constructor; simpl; auto. counts Hi. rewrite (parked_none ths Hn).
    destruct p; simpl in Hm; simplify_eq; simpl; lia.
  - destruct (move_inv ths flag ops I i p p' flag' ops' WakeOps Hi Hm) as (M1 & M2 & M3 & M4 & _ & M6 & M7).
    simpl in *. apply wake_ops_inv; auto. rewrite list_lookup_insert_ne; [done |]. intros ->.
    rewrite Hi in Hj. injection Hj as ->. done.
  - destruct I as [I1 I2 I3 I4 I5 I6 I7]. simpl in *. pose proof (Forall_lookup_1 _ _ _ _ I6 Hi) as Hp.
    constructor; cbn [threads growing_flag active_ops]; counts Hi; destruct p; simpl in *; try (destruct flag; simpl in *; lia); try (by apply Forall_insert);
      unfold zlen in *; by rewrite length_insert.
Qed.

Lemma steps_inv sp s s' : steps sp s s' -> protocol_inv s -> protocol_inv s'.
Proof. induction 1; eauto using step_inv. Qed.

Lemma reachable_inv sp n s : Z.of_nat n < 2 ^ 64 -> steps sp (initial n) s -> protocol_inv s.
Proof. intros Hn H. by apply (steps_inv sp _ _ H), initial_inv. Qed.

(** ** Progress

    How far a thread is from rest: the steps of the growers first, then those of the
    operations, which depend on whether the flag is held. *)

Definition gr_rank (p : pc) : nat :=
  match p with
  | GrNotify => 1 | GrCritical => 2 | GrLoad _ => 3 | GrOpsWait _ => 4 | GrOpsParked _ => 5
  | GrTas _ => 6 | GrFlagWait => 7 | GrFlagParked => 8 | _ => 0
  end.

Definition op_rank (flag : bool) (p : pc) : nat :=
  match p with
  | OpExitNotify => 1 | OpInside => 2
  | OpFlagParked => if flag then 1 else 7
  | OpFlagWait => if flag then 1 else 6
  | OpTest _ => if flag then 1 else 5
  | OpAdd _ => if flag then 1 else 4
  | OpUndoNotify _ => if flag then 2 else 6
  | OpUndo _ => if flag then 3 else 7
  | OpRecheck _ => if flag then 4 else 3
  | _ => 0
  end.

Fixpoint total (f : pc -> nat) (ths : list pc) : nat :=
  match ths with [] => 0 | p :: ths => f p + total f ths end.

Lemma total_insert f ths i p q : ths !! i = Some p -> (total f (<[i := q]> ths) + f p = total f ths + f q)%nat.
Proof.
  revert i. induction ths as [| x ths IH]; intros i Hi; [done |]. destruct i as [| i]; simpl in *.
  - injection Hi as ->. lia.
  - specialize (IH i Hi). lia.
Qed.

Lemma total_unpark f ths : (forall p, f (unpark_flag p) <= f p)%nat -> (total f (unpark_flag <$> ths) <= total f ths)%nat.
Proof. intros H. induction ths as [| p ths IH]; [done |]. rewrite fmap_cons. cbn [total]. specialize (H p). lia. Qed.

(** [s'] is closer to rest than [s]. *)
Definition closer (s' s : system) : Prop :=
  (total gr_rank (threads s') < total gr_rank (threads s))%nat \/
  total gr_rank (threads s') = total gr_rank (threads s) /\ growing_flag s' = growing_flag s /\
  (total (op_rank (growing_flag s)) (threads s') < total (op_rank (growing_flag s)) (threads s))%nat.

Lemma closer_wf : well_founded closer.
Proof.
  intros s. remember (total gr_rank (threads s)) as n eqn:Hn. revert s Hn.
  induction n as [n IHn] using (well_founded_induction lt_wf). intros s Hn.
  remember (total (op_rank (growing_flag s)) (threads s)) as m eqn:Hm. revert s Hn Hm.
  induction m as [m IHm] using (well_founded_induction lt_wf). intros s Hn Hm. constructor.
  intros s' [Hlt | (Heq & Hf & Hlt)]; [by apply (IHn (total gr_rank (threads s'))); [lia |] |].
  apply (IHm (total (op_rank (growing_flag s')) (threads s'))); [rewrite Hf; lia | lia | done].
Qed.

Section Progress.
Context (ths : list pc) (flag : bool) (ops : Z).
#[local] Notation s := (System ths flag ops).

(** A thread at [p], which can move, brings the system closer to rest. *)
Lemma closer_move i p p' flag' ops' w :
  ths !! i = Some p -> move p flag ops = Some (p', flag', ops', w) ->
  (gr_rank p' < gr_rank p)%nat \/ gr_rank p' = gr_rank p /\ flag' = flag /\ (op_rank flag p' < op_rank flag p)%nat ->
  exists s', step false s s' /\ closer s' s.
Proof.
  intros Hi Hm Hr. pose proof (total_insert gr_rank ths i p p' Hi) as T1. pose proof (total_insert (op_rank flag) ths i p p' Hi) as T2.
  assert (closer (System (<[i := p']> ths) flag' ops') s) as Hc.
  { unfold closer. simpl. destruct Hr as [? | (? & -> & ?)]; [left; lia | right; split_and!; [lia | done | lia]]. }
  destruct w; [by exists (System (<[i := p']> ths) flag' ops'); split; [econstructor |] | |].
  - exists (System (unpark_flag <$> <[i := p']> ths) flag' ops'). split; [by eapply step_notify_flag |].
    pose proof (total_unpark gr_rank (<[i := p']> ths) ltac:(intros []; simpl; lia)).
    pose proof (total_unpark (op_rank flag) (<[i := p']> ths) ltac:(intros []; simpl; destruct flag; lia)).
    revert Hc. unfold closer. simpl. intros [? | (? & -> & ?)]; [left; lia |].
    destruct (decide (total gr_rank (unpark_flag <$> <[i := p']> ths) < total gr_rank ths)%nat); [by left | right].
    split_and!; [lia | done | lia].
  - destruct (Z.eq_dec (count ops_parked ths) 0) as [H0 | H0].
    + exists (System (<[i := p']> ths) flag' ops'). split; [| done]. eapply step_notify_none; [done.. |].
      intros j v Hj. pose proof (count_in ops_parked ths j _ Hj eq_refl). lia.
    + pose proof (count_nonneg ops_parked ths). destruct (count_pos ops_parked ths) as (j & q & Hj & Hq); [lia |].
      destruct q as [| | | | | | | | | | | | | | | v | |]; try done. exists (System (<[j := GrOpsWait v]> (<[i := p']> ths)) flag' ops').
      split; [by eapply step_notify_one |]. assert (<[i := p']> ths !! j = Some (GrOpsParked v)) as Hj'.
      { rewrite list_lookup_insert_ne; [done |]. intros ->. rewrite Hi in Hj. by simplify_eq. }
      pose proof (total_insert gr_rank (<[i := p']> ths) j _ (GrOpsWait v) Hj') as T3. left. revert Hc T3. unfold closer.
      simpl. intros [? | (? & ? & ?)]; lia.
Qed.

(** An announced thread can move, so the operations that a grower waits for go away. *)
Lemma closer_counted : 0 < count counted ths -> flag = true -> exists s', step false s s' /\ closer s' s.
Proof.
  intros (i & p & Hi & Hp)%count_pos Hf. destruct p; try done; eapply (closer_move i); try exact Hi; try reflexivity;
    rewrite Hf; simpl; lia.
Qed.

End Progress.

Lemma progress ths flag ops :
  let s := System ths flag ops in
  protocol_inv s -> ~ quiescent s -> exists s', step false s s' /\ closer s' s.
Proof.
  intros s [I1 I2 I3 I4 I5 I6 I7] Hq. subst s. simpl in *.
  pose proof (counts_nonneg ths) as (N1 & N2 & N3 & N4 & N5 & N6 & N7 & N8).
  destruct (Z_lt_le_dec 0 (count notifies_flag ths)) as [(i & p & Hi & Hp)%count_pos | Hnf].
  { destruct p; try done. eapply (closer_move _ _ _ i); [exact Hi | reflexivity |]. simpl. lia. }
  destruct (Z_lt_le_dec 0 (count notifies_ops ths)) as [(i & p & Hi & Hp)%count_pos | Hno].
  { destruct p; try done; (eapply (closer_move _ _ _ i); [exact Hi | reflexivity |]); simpl; destruct flag; lia. }
  destruct flag eqn:Hf; simpl in I1.
  - destruct (count_pos holds ths) as (i & p & Hi & Hp); [lia |].
    pose proof (Forall_lookup_1 _ _ _ _ I6 Hi) as Hnz. pose proof (closer_counted ths flag ops) as Hc. rewrite Hf in Hc.
    pose proof (fun q => count_in ops_parked ths i q) as Hpk.
    destruct p as [| | | | | | | | | | | | | spin | v | v | |]; try done; simpl in Hnz.
    + destruct (Z.eqb_spec ops 0) as [-> | Hne]; [| apply Hc; lia].
      eapply (closer_move _ _ _ i); [exact Hi | reflexivity |]. simpl. lia.
    + destruct (Z.eqb_spec ops v) as [-> | Hne]; [apply Hc; lia |].
      eapply (closer_move _ _ _ i); [exact Hi | simpl; rewrite (proj2 (Z.eqb_neq _ _) Hne); reflexivity |]. simpl. lia.
    + specialize (Hpk _ Hi eq_refl). apply Hc; [| done]. destruct (I5 Hpk); lia.
    + eapply (closer_move _ _ _ i); [exact Hi | reflexivity |]. simpl. lia.
  - assert (exists i p, ths !! i = Some p /\ p <> Idle) as (i & p & Hi & Hp).
    { unfold quiescent in Hq. simpl in Hq. clear -Hq. induction ths as [| p l IH]; [by destruct Hq |].
      destruct (decide (p = Idle)) as [-> | Hne]; [| by exists 0%nat, p].
      destruct IH as (i & p & Hi & Hp); [by intros H; apply Hq; constructor |]. by exists (S i), p. }
    pose proof (count_in holds ths i p Hi) as Hh. pose proof (count_in flag_parked ths i p Hi) as Hpk.
    pose proof (count_in notifies_flag ths i p Hi) as Hn1. pose proof (count_in notifies_ops ths i p Hi) as Hn2.
    destruct p; simpl in *; try done; try lia; try (specialize (I4 (Hpk eq_refl)); lia);
      (eapply (closer_move _ _ _ i); [exact Hi | rewrite ?Hf; reflexivity |]); rewrite ?Hf; simpl; lia.
Qed.

(** From any state that satisfies the invariant all threads can come to rest, without a
    spurious wakeup: no wakeup is lost and no two threads wait for each other. *)
Lemma reaches_rest s : protocol_inv s -> exists s', steps false s s' /\ quiescent s'.
Proof.
  induction (closer_wf s) as [s _ IH]. intros I.
  destruct (decide (quiescent s)) as [Hq | Hq].
  - exists s. split; [constructor | done].
  - destruct s as [ths flag ops]. destruct (progress ths flag ops I Hq) as (s1 & Hs & Hc).
    destruct (IH s1 Hc (step_inv _ _ _ Hs I)) as (s2 & Hs2 & Hq2). exists s2. split; [| done]. by econstructor.
Qed.

Lemma quiescent_count f s : f Idle = false -> quiescent s -> count f (threads s) = 0.
Proof. intros Hf. unfold quiescent. induction 1 as [| p l <- _ IH]; [done |]. by rewrite count_cons, Hf, IH. Qed.
