(* ===== verification/WeakMemory.v ===== *)
(** * The orderings of the growth protocol

    [GrowProtocol] is the protocol of [object/memory/linear/allocator.h] under sequential
    consistency. Here its four accesses that keep a growth and an operation apart are run under
    the memory model of C++, with the orderings that the code asks for: candidate executions as
    events with relations, and the axioms of release and acquire accesses, of read-modify-writes
    and of sequentially consistent accesses. *)

From stdpp Require Import base list numbers.
From Stdlib Require Import ZArith Lia.
From S2P Require Import Prelude.
Open Scope nat_scope.

(** ** Executions *)

Inductive memory_order := memory_order_relaxed | memory_order_acquire | memory_order_release | memory_order_seq_cst.
Inductive location := growing_flag_p | active_ops_p.
Inductive access := Load (v : nat) | Store (v : nat) | ReadModifyWrite (read written : nat).

#[export] Instance location_eq_dec : EqDecision location.
Proof. solve_decision. Defined.

(** An event of a thread; thread 0 makes the initial writes. *)
Record event := Event { thread : nat; loc : location; acc : access; order : memory_order }.

(** [reads_from] gives the write that an event reads (and is of no meaning elsewhere);
    the modification orders list the writes of each location. *)
Record execution := Execution {
  events : list event;
  reads_from : list nat;
  flag_order : list nat;
  ops_order : list nat;
}.

Definition modification_order (x : execution) (l : location) : list nat :=
  match l with growing_flag_p => flag_order x | active_ops_p => ops_order x end.

Definition relation_on := nat -> nat -> bool.

Section Execution.
Context (x : execution).
Let n := length (events x).
Let ids := seq 0 n.
Definition event_at (i : nat) : event := nth i (events x) (Event 0 growing_flag_p (Store 0) memory_order_relaxed).

Definition is_read (i : nat) : bool := match acc (event_at i) with Store _ => false | _ => true end.
Definition is_write (i : nat) : bool := match acc (event_at i) with Load _ => false | _ => true end.
Definition is_update (i : nat) : bool := is_read i && is_write i.
Definition value_read (i : nat) : nat := match acc (event_at i) with Load v | ReadModifyWrite v _ => v | Store _ => 0 end.
Definition value_written (i : nat) : nat := match acc (event_at i) with Store v | ReadModifyWrite _ v => v | Load _ => 0 end.
Definition same_location (i j : nat) : bool := bool_decide (loc (event_at i) = loc (event_at j)).
Definition acquires (i : nat) : bool :=
  is_read i && match order (event_at i) with memory_order_acquire | memory_order_seq_cst => true | _ => false end.
Definition releases (i : nat) : bool :=
  is_write i && match order (event_at i) with memory_order_release | memory_order_seq_cst => true | _ => false end.
Definition sc (i : nat) : bool := match order (event_at i) with memory_order_seq_cst => true | _ => false end.

(** Relations between the events *)
Definition union (r s : relation_on) : relation_on := fun i j => r i j || s i j.
Definition compose (r s : relation_on) : relation_on := fun i j => existsb (fun k => r i k && s k j) ids.
Definition maybe (r : relation_on) : relation_on := fun i j => (i =? j) || r i j.
Definition of_edges (p : list (nat * nat)) : relation_on :=
  fun i j => existsb (fun e => (e.1 =? i) && (e.2 =? j)) p.
Definition edges (r : relation_on) : list (nat * nat) := List.filter (fun e => r e.1 e.2) (list_prod ids ids).
(** Paths of at most [k + 1] edges. *)
Fixpoint paths (k : nat) (r : relation_on) : list (nat * nat) :=
  match k with
  | 0 => edges r
  | S k => let p := of_edges (paths k r) in edges (union p (compose p r))
  end.
Definition transitive (r : relation_on) : relation_on := of_edges (paths n (of_edges (edges r))).
Definition irreflexive (r : relation_on) : bool := forallb (fun i => negb (r i i)) ids.
Definition acyclic (r : relation_on) : bool := irreflexive (transitive r).

Definition sequenced_before : relation_on := fun i j =>
  let ti := thread (event_at i) in let tj := thread (event_at j) in
  ((ti =? 0) && negb (tj =? 0)) || (negb (ti =? 0) && (ti =? tj) && (i <? j)).
Definition rf : relation_on := fun i j => is_read j && (nth j (reads_from x) n =? i).
Fixpoint before (l : list nat) (i j : nat) : bool :=
  match l with [] => false | k :: l => (k =? i) && existsb (Nat.eqb j) l || before l i j end.
Definition mo : relation_on := fun i j => before (modification_order x (loc (event_at i))) i j.
Definition from_read : relation_on := fun i j => negb (i =? j) && existsb (fun w => rf w i && mo w j) ids.
(** A release write synchronises with an acquire read of it, or of an update that heads back to it. *)
Definition release_sequence : relation_on := transitive (fun i j => rf i j && is_update j).
Definition synchronizes_with : relation_on :=
  let heads := compose (maybe release_sequence) rf in
  fun i j => releases i && acquires j && heads i j.
Definition happens_before : relation_on := transitive (union sequenced_before synchronizes_with).
Definition communication : relation_on := transitive (union rf (union mo from_read)).

(** The axioms *)
Definition coherence : bool := irreflexive (compose happens_before (maybe communication)).
Definition atomicity : bool := forallb (fun i => negb (is_update i && compose from_read mo i i)) ids.
Definition no_thin_air : bool := acyclic (union sequenced_before rf).
Definition sc_before : relation_on :=
  let elsewhere : relation_on := fun i j => sequenced_before i j && negb (same_location i j) in
  let hb := happens_before in
  union sequenced_before (union (compose elsewhere (compose hb elsewhere))
    (union (fun i j => hb i j && same_location i j) (union mo from_read))).
Definition sc_order : bool := let before := sc_before in acyclic (fun i j => sc i && sc j && before i j).
Definition consistent : bool := coherence && atomicity && no_thin_air && sc_order.

(** Reads read writes of their location and of their value; the modification order of a
    location lists its writes. *)
Definition well_formed : Prop :=
  (forall i, i < n -> is_read i = true ->
     let w := nth i (reads_from x) n in
     w < n /\ is_write w = true /\ loc (event_at w) = loc (event_at i) /\ value_written w = value_read i) /\
  (forall l, modification_order x l ≡ₚ List.filter (fun i => is_write i && bool_decide (loc (event_at i) = l)) ids).
End Execution.

(** ** The accesses of the protocol *)

(** The orderings of [test] and [fetch_add] in [enter_operation], of [test_and_set] in the
    constructor of [growing_flag_guard_t] and of [load] in the growth. *)
Record orders := Orders { test_order : memory_order; fetch_add_order : memory_order;
                          test_and_set_order : memory_order; load_order : memory_order }.

Definition code_orders : orders :=
  Orders memory_order_acquire memory_order_acquire memory_order_acquire memory_order_acquire.
Definition seq_cst_orders : orders :=
  Orders memory_order_seq_cst memory_order_seq_cst memory_order_seq_cst memory_order_seq_cst.

(** The accesses of [enter_operation] when it returns in its first round: both tests read that
    the flag is clear. *)
Definition enter_operation_events (o : orders) : list event :=
  [Event 1 growing_flag_p (Load 0) (test_order o);
   Event 1 active_ops_p (ReadModifyWrite 0 1) (fetch_add_order o);
   Event 1 growing_flag_p (Load 0) (test_order o)].

(** The accesses of a growth that finds the flag clear and no operation, and starts. *)
Definition grow_events (o : orders) : list event :=
  [Event 2 growing_flag_p (ReadModifyWrite 0 1) (test_and_set_order o);
   Event 2 active_ops_p (Load 0) (load_order o)].

(** An operation is inside while a growth changes the memory. *)
Definition overlap_events (o : orders) : list event :=
  [Event 0 growing_flag_p (Store 0) memory_order_relaxed; Event 0 active_ops_p (Store 0) memory_order_relaxed] ++
  enter_operation_events o ++ grow_events o.

Definition overlap (o : orders) : execution :=
  Execution (overlap_events o) [0; 0; 0; 1; 0; 0; 1] [0; 5] [1; 3].

(** The executions with these events: each read reads an initial value. *)
Lemma overlap_unique o x :
  events x = overlap_events o -> well_formed x ->
  exists a b rest, reads_from x = a :: b :: 0 :: 1 :: 0 :: 0 :: 1 :: rest /\
  (flag_order x = [0; 5] \/ flag_order x = [5; 0]) /\ (ops_order x = [1; 3] \/ ops_order x = [3; 1]).
Proof.
  destruct x as [ev r m1 m2]. simpl. intros -> [Hr Hm].
  assert (forall i, i < 7 -> is_read (Execution (overlap_events o) r m1 m2) i = true ->
    nth i r 7 = nth i [0; 0; 0; 1; 0; 0; 1] 7) as Hs.
  { intros i Hi Hri. specialize (Hr i Hi Hri). simpl in Hr. change (length (overlap_events o)) with 7 in Hr.
    destruct Hr as (Hw & Hww & Hl & Hv). set (w := nth i r 7) in *. clearbody w.
    do 7 (destruct i as [| i]; [try done; do 7 (destruct w as [| w]; [done |]); lia |]). lia. }
  pose proof (Hs 2 ltac:(lia) eq_refl) as H2. pose proof (Hs 3 ltac:(lia) eq_refl) as H3.
  pose proof (Hs 4 ltac:(lia) eq_refl) as H4. pose proof (Hs 5 ltac:(lia) eq_refl) as H5.
  pose proof (Hs 6 ltac:(lia) eq_refl) as H6.
  destruct r as [| a [| b [| r2 [| r3 [| r4 [| r5 [| r6 r]]]]]]]; try done. simpl in H2, H3, H4, H5, H6. subst.
  exists a, b, r. split; [done |].
  pose proof (Hm growing_flag_p) as H7. pose proof (Hm active_ops_p) as H8. cbn in H7, H8.
  symmetry in H7, H8. by apply Permutation_length_2_inv in H7, H8.
Qed.

Lemma overlap_well_formed o : well_formed (overlap o).
Proof.
  split; [| by intros []]. intros i Hi Hr. change (length (events (overlap o))) with 7 in *.
  do 7 (destruct i as [| i]; [first [done | vm_compute; repeat split; lia] |]). lia.
Qed.
