(* ===== verification/GrowthTheorems.v ===== *)
(** * Theorems about growth and access

    What [GrowProtocol] ensures in every interleaving, and what the orderings of the code leave
    open. *)

From stdpp Require Import base list numbers.
From Stdlib Require Import ZArith Lia.
From S2P Require Import Prelude GrowProtocol GrowProtocolCorrect WeakMemory.
Open Scope Z_scope.

(** C8: In every interleaving of any number of threads, blocked and woken as the code does or
    spuriously, a memory that grows is not accessed and grows in one thread only, and
    [active_ops] counts the announced operations exactly. *)
Theorem growth_excludes_access (n : nat) (sp : bool) (s : system) :
  Z.of_nat n < 2 ^ 64 -> steps sp (initial n) s ->
  active_ops s = count counted (threads s) /\
  forall i, threads s !! i = Some GrCritical ->
    growing_flag s = true /\ forall j, threads s !! j <> Some OpInside /\ (threads s !! j = Some GrCritical -> j = i).
Proof.
  intros Hn Hs. destruct (reachable_inv sp n s Hn Hs) as [I1 I2 I3 _ _ _ _]. split; [done |]. intros i Hi.
  pose proof (count_in holds _ i _ Hi eq_refl) as Hh. pose proof (count_in critical _ i _ Hi eq_refl) as Hc. split.
  - destruct (growing_flag s); [done | simpl in I1; lia].
  - intros j. split.
    + intros Hj. pose proof (count_in inside _ j _ Hj eq_refl). lia.
    + intros Hj. destruct (decide (j = i)) as [| Hne]; [done |].
      pose proof (count_two holds _ j i _ _ Hne Hj Hi eq_refl eq_refl). destruct (growing_flag s); simpl in I1; lia.
Qed.

(** Two threads: one has entered, the other holds the flag and waits for it. *)
Definition waiting_system : system := System [OpInside; GrLoad 0] true 1.

Lemma waiting_reachable : steps false (initial 2) waiting_system.
Proof.
  eapply steps_step; [apply (step_start _ _ _ _ 0 (OpTest 0)); [done | by left] |].
  eapply steps_step; [eapply (step_move _ _ _ _ 0); reflexivity |].
  eapply steps_step; [eapply (step_move _ _ _ _ 0); reflexivity |].
  eapply steps_step; [eapply (step_move _ _ _ _ 0); reflexivity |].
  eapply steps_step; [apply (step_start _ _ _ _ 1 (GrTas 0)); [done | by right] |].
  eapply steps_step; [eapply (step_move _ _ _ _ 1); reflexivity |]. constructor.
Qed.

Lemma growing_reachable : steps false (initial 2) (System [Idle; GrCritical] true 0).
Proof.
  eapply steps_step; [apply (step_start _ _ _ _ 1 (GrTas 0)); [done | by right] |].
  eapply steps_step; [eapply (step_move _ _ _ _ 1); reflexivity |].
  eapply steps_step; [eapply (step_move _ _ _ _ 1); reflexivity |]. constructor.
Qed.

Lemma growth_excludes_access_witness :
  let s := System [Idle; GrCritical] true 0 in
  active_ops s = count counted (threads s) /\
  forall i, threads s !! i = Some GrCritical ->
    growing_flag s = true /\ forall j, threads s !! j <> Some OpInside /\ (threads s !! j = Some GrCritical -> j = i).
Proof. exact (growth_excludes_access 2 false _ ltac:(reflexivity) growing_reachable). Defined.

(** C9: No wakeup is lost and no two threads wait for each other: from every reachable state,
    the steps of the threads alone, without a spurious wakeup, can bring all of them to rest,
    with the flag clear and nobody announced. *)
Theorem growth_no_deadlock (n : nat) (sp : bool) (s : system) :
  Z.of_nat n < 2 ^ 64 -> steps sp (initial n) s ->
  exists s', steps false s s' /\ quiescent s' /\ growing_flag s' = false /\ active_ops s' = 0.
Proof.
  intros Hn Hs. pose proof (reachable_inv sp n s Hn Hs) as I. destruct (reaches_rest s I) as (s' & H & Hq).
  exists s'. split_and!; [done | done | |]; destruct (steps_inv _ _ _ H I) as [I1 I2 _ _ _ _ _].
  - rewrite quiescent_count in I1 by done. by destruct (growing_flag s').
  - by rewrite I2, quiescent_count.
Qed.

Lemma growth_no_deadlock_witness :
  exists s', steps false waiting_system s' /\ quiescent s' /\ growing_flag s' = false /\ active_ops s' = 0.
Proof. exact (growth_no_deadlock 2 false _ ltac:(reflexivity) waiting_reachable). Defined.

(** C10: With the orderings that [allocator.h] asks for, the memory model of C++ has an
    execution in which an operation enters and a growth starts although neither has seen the
    other; no such execution remains when these accesses are sequentially consistent. *)
Theorem orderings_admit_overlap :
  (exists x, events x = overlap_events code_orders /\ well_formed x /\ consistent x = true) /\
  forall x, events x = overlap_events seq_cst_orders -> well_formed x -> consistent x = false.
Proof.
  split.
  - exists (overlap code_orders). split_and!; [done | apply overlap_well_formed | by vm_compute].
  - intros x He Hw. destruct (overlap_unique _ x He Hw) as (a & b & rest & Hr & Hf & Ho).
    destruct x as [ev r m1 m2]. simpl in *. subst.
    destruct Hf as [-> | ->], Ho as [-> | ->]; vm_compute; reflexivity.
Qed.

Lemma orderings_admit_overlap_witness :
  consistent (overlap seq_cst_orders) = false.
Proof. exact (proj2 orderings_admit_overlap (overlap seq_cst_orders) eq_refl (overlap_well_formed _)). Defined.
