(* ===== verification/Interpreter.v ===== *)
(** * The interpreter

    The functions of [runtime/compiler/uwvm_int/optable] that a translated function body is made
    of, in the mode without tail calls, where the operand stack is in memory, and the loop of
    [lib/uwvm_runtime.default.cpp] that runs them. The translated code is a vector of complete
    slots, the address of an [opfunc] or an immediate, and [ip] is the index of a slot; the
    other two arguments of an [opfunc] are the top of the operand stack and the locals. Neither
    carries types: values are bytes at offsets the translator chose. *)

From stdpp Require Import base list numbers.
From Stdlib Require Import ZArith Lia.
From S2P Require Import Prelude IeeeBits WasmTypes NumericOps LinearMemory.
Open Scope Z_scope.

(** ** Values as bytes *)

Definition size_of (t : value_type) : nat := match t with WasmTypes.i32 | WasmTypes.f32 => 4 | WasmTypes.i64 | WasmTypes.f64 => 8 end.

(** The type of an integer, and the type of a float. *)
Definition int_type (wide : bool) : value_type := if wide then WasmTypes.i64 else WasmTypes.i32.
Definition digits (wide : bool) : Z := if wide then 64 else 32.
Definition float_type (f : format) : value_type := match f with binary32 => WasmTypes.f32 | binary64 => WasmTypes.f64 end.

(** Copying an object of [n] bytes to and from memory, on a little-endian host. *)
Fixpoint le_bytes (n : nat) (v : Z) : list Z :=
  match n with O => [] | S n => v mod 2 ^ 8 :: le_bytes n (v / 2 ^ 8) end.
Fixpoint of_le (bytes : list Z) : Z :=
  match bytes with [] => 0 | b :: bytes => b + 2 ^ 8 * of_le bytes end.

(** The value of an object of type [wasm_i32], [wasm_i64] (a signed integer), [wasm_f32] or
    [wasm_f64] (an encoding) from its bits. *)
Definition object_value (t : value_type) (bits : Z) : Z :=
  match t with WasmTypes.i32 => to_signed 32 bits | WasmTypes.i64 => to_signed 64 bits | _ => bits end.

(** The offsets of the locals, parameters first, in the bytes that hold them. *)
Fixpoint local_offsets (local_bytes : Z) (local_types : list value_type) : list Z :=
  match local_types with
  | [] => []
  | t :: local_types => local_bytes :: local_offsets (local_bytes + Z.of_nat (size_of t)) local_types
  end.

(** ** The machine *)

Inductive opfunc :=
| uwvmint_const (t : value_type)
| uwvmint_drop_typed (t : value_type)
| uwvmint_drop_bytes
| uwvmint_select_typed (t : value_type)
| uwvmint_local_get_typed (t : value_type)
| uwvmint_local_set_typed (t : value_type)
| uwvmint_local_tee_typed (t : value_type)
| uwvmint_global_get_typed (t : value_type)
| uwvmint_global_set_typed (t : value_type)
| uwvmint_int_unop (wide : bool) (op : int_unop)
| uwvmint_int_binop (wide : bool) (op : int_binop)
| uwvmint_int_cmp (wide : bool) (cmp : int_cmp)
| uwvmint_int_eqz (wide : bool)
| uwvmint_i32_wrap_i64
| uwvmint_i64_extend_i32 (signed : bool)
| uwvmint_trunc (wide : bool) (f : format) (signed : bool)
| uwvmint_reinterpret
| uwvmint_load (t : value_type)
| uwvmint_loadN (wide : bool) (bytes : nat) (signed : bool)
| uwvmint_store (t : value_type)
| uwvmint_storeN (wide : bool) (bytes : nat)
| uwvmint_memory_size
| uwvmint_memory_grow
| uwvmint_br
| uwvmint_br_if
| uwvmint_br_table
| uwvmint_return
| uwvmint_unreachable.

Inductive slot := Opfunc (f : opfunc) | Imm (v : Z).

(** [ip] is [None] for the null pointer. The operand stack grows to the right. A global is the
    storage of its value; pointers to globals and memories are indices. *)
Record machine := Machine {
  ip : option nat;
  operands : list Z;
  locals : list Z;
  globals : list (list Z);
  memories : list linear_memory;
}.

Definition with_ip (i : option nat) (m : machine) : machine := Machine i (operands m) (locals m) (globals m) (memories m).
Definition with_operands (o : list Z) (m : machine) : machine := Machine (ip m) o (locals m) (globals m) (memories m).
Definition with_locals (l : list Z) (m : machine) : machine := Machine (ip m) (operands m) l (globals m) (memories m).
Definition with_globals (g : list (list Z)) (m : machine) : machine := Machine (ip m) (operands m) (locals m) g (memories m).
Definition with_memories (l : list linear_memory) (m : machine) : machine :=
  Machine (ip m) (operands m) (locals m) (globals m) l.

(** [basic_memory_65bit_offset_t] and [memory_error_t]. *)
Record memory_offset := MemoryOffset { offset : Z; offset_65_bit : bool }.
Record memory_error := MemoryError {
  memory_idx : Z; memory_offset_of : memory_offset; memory_static_offset : Z; memory_length_of : Z; memory_type_size : Z }.

(** The ways a function does not return: a trap, and the end of the process. *)
Inductive halt :=
| trap_of (t : trap)
| trap_memory_out_of_bounds (e : memory_error)
| trap_unreachable
| process_end (s : stop).

Notation Run := (SM machine halt).
Definition undefined {A} : Run A := fun _ => Undefined.

Section Code.
Context (code : list slot).

(** [typeref...[0] += sizeof(...)]. *)
Definition next_slot : Run unit := sm_modify (fun m => with_ip (S <$> ip m) m).

Definition read_imm : Run Z :=
  m ← sm_get;
  match ip m ≫= fun i => code !! i with
  | Some (Imm v) => next_slot;; mret v
  | _ => undefined
  end.

(** [typeref...[1u] -= n] and the bytes from there on. *)
Definition pop_bytes (n : nat) : Run (list Z) :=
  m ← sm_get;
  let top := length (operands m) in
  if (top <? n)%nat then undefined
  else sm_modify (with_operands (take (top - n) (operands m)));; mret (drop (top - n) (operands m)).

(** A [memcpy] to [typeref...[1u]] and its increment. *)
Definition push_bytes (bytes : list Z) : Run unit :=
  sm_modify (fun m => with_operands (operands m ++ bytes) m).

Definition get_curr_val_from_operand_stack_cache (t : value_type) : Run Z :=
  bytes ← pop_bytes (size_of t);
  mret (object_value t (of_le bytes)).

Definition push_value (t : value_type) (v : Z) : Run unit := push_bytes (le_bytes (size_of t) v).

(** ** Constants and the operand stack *)

Definition exec_const (t : value_type) : Run unit :=
  imm ← read_imm;
  push_value t imm.

Definition exec_drop_typed (t : value_type) : Run unit := pop_bytes (size_of t);; mret tt.

Definition exec_drop_bytes : Run unit :=
  bytes ← read_imm;
  pop_bytes (Z.to_nat bytes);; mret tt.

Definition exec_select_typed (t : value_type) : Run unit :=
  cond ← get_curr_val_from_operand_stack_cache WasmTypes.i32;
  v2 ← pop_bytes (size_of t);
  v1 ← pop_bytes (size_of t);
  push_bytes (if negb (cond =? 0) then v1 else v2).

(** ** Variables *)

Definition exec_local_get_typed (t : value_type) : Run unit :=
  off ← read_imm;
  m ← sm_get;
  if off + Z.of_nat (size_of t) <=? zlen (locals m)
  then push_bytes (read_bytes off (Z.of_nat (size_of t)) (locals m))
  else undefined.

Definition store_local (off : Z) (bytes : list Z) : Run unit :=
  m ← sm_get;
  if off + zlen bytes <=? zlen (locals m) then sm_modify (with_locals (write_bytes off bytes (locals m)))
  else undefined.

Definition exec_local_set_typed (t : value_type) : Run unit :=
  off ← read_imm;
  bytes ← pop_bytes (size_of t);
  store_local off bytes.

Definition exec_local_tee_typed (t : value_type) : Run unit :=
  off ← read_imm;
  bytes ← pop_bytes (size_of t);
  push_bytes bytes;;
  store_local off bytes.

Definition global_at (p : Z) (n : nat) : Run (list Z) :=
  m ← sm_get;
  match globals m !! Z.to_nat p with
  | Some storage => if (n <=? length storage)%nat then mret storage else undefined
  | None => undefined
  end.

Definition exec_global_get_typed (t : value_type) : Run unit :=
  global_p ← read_imm;
  storage ← global_at global_p (size_of t);
  push_bytes (take (size_of t) storage).

Definition exec_global_set_typed (t : value_type) : Run unit :=
  global_p ← read_imm;
  bytes ← pop_bytes (size_of t);
  storage ← global_at global_p (size_of t);
  sm_modify (fun m => with_globals (<[Z.to_nat global_p := bytes ++ drop (size_of t) storage]> (globals m)) m).

(** ** Numeric instructions *)

Definition push_evaluation (t : value_type) (e : evaluation) : Run unit :=
  match e with Value v => push_value t v | Trap t => sm_throw (trap_of t) end.

Definition exec_int_unop (wide : bool) (op : int_unop) : Run unit :=
  v ← get_curr_val_from_operand_stack_cache (int_type wide);
  push_value (int_type wide) (eval_int_unop (digits wide) op v).

Definition exec_int_binop (wide : bool) (op : int_binop) : Run unit :=
  rhs ← get_curr_val_from_operand_stack_cache (int_type wide);
  lhs ← get_curr_val_from_operand_stack_cache (int_type wide);
  push_evaluation (int_type wide) (eval_int_binop (digits wide) op lhs rhs).

Definition exec_int_cmp (wide : bool) (cmp : int_cmp) : Run unit :=
  rhs ← get_curr_val_from_operand_stack_cache (int_type wide);
  lhs ← get_curr_val_from_operand_stack_cache (int_type wide);
  push_value WasmTypes.i32 (Z.b2z (eval_int_cmp (digits wide) cmp lhs rhs)).

Definition exec_int_eqz (wide : bool) : Run unit :=
  v ← get_curr_val_from_operand_stack_cache (int_type wide);
  push_value WasmTypes.i32 (Z.b2z (v =? 0)).

Definition exec_i32_wrap_i64 : Run unit :=
  v ← get_curr_val_from_operand_stack_cache WasmTypes.i64;
  push_value WasmTypes.i32 (to_signed 32 (u32 (wrap 64 v))).

Definition exec_i64_extend_i32 (signed : bool) : Run unit :=
  v ← get_curr_val_from_operand_stack_cache WasmTypes.i32;
  push_value WasmTypes.i64 (if signed then v else u32 v).

Definition exec_trunc (wide : bool) (f : format) (signed : bool) : Run unit :=
  v ← get_curr_val_from_operand_stack_cache (float_type f);
  push_evaluation (int_type wide)
    (if signed then trunc_float_to_int_s f (digits wide) v
     else match trunc_float_to_int_u f (digits wide) v with
          | Value u => Value (to_signed (digits wide) u)
          | e => e
          end).

(** ** Memories *)

Definition memory_at (p : Z) : Run linear_memory :=
  m ← sm_get;
  sm_unchecked (memories m !! Z.to_nat p).

Definition wasm32_effective_offset (addr static_offset : Z) : memory_offset :=
  let sum_u64 := wrap 64 (u32 addr + u32 static_offset) in
  MemoryOffset sum_u64 (4294967295 <? sum_u64).

Definition memory_oob_terminate {A} (memory : linear_memory) (static_offset : Z) (effective_offset : memory_offset)
    (memory_length wasm_bytes : Z) : Run A :=
  sm_throw (trap_memory_out_of_bounds
    (MemoryError (diagnostic_owner_memory_index memory) effective_offset static_offset memory_length wasm_bytes)).

(** The branch for a memory that is an allocation. *)
Definition check_memory_bounds_unlocked (memory : linear_memory) (static_offset : Z) (effective_offset : memory_offset)
    (wasm_bytes : Z) : Run unit :=
  let memory_length := memory_length memory in
  if offset_65_bit effective_offset || (memory_length <? wasm_bytes) ||
     (uz (memory_length - wasm_bytes) <? offset effective_offset)
  then memory_oob_terminate memory static_offset effective_offset memory_length wasm_bytes
  else mret tt.

(** The bytes that an access touches; outside the allocation anything can happen. *)
Definition allocation_at (memory : linear_memory) (eff bytes : Z) : Run (list Z) :=
  match memory_begin memory with
  | Some buf => if eff + bytes <=? zlen buf then mret buf else undefined
  | None => undefined
  end.

Definition load_bytes (bytes : nat) : Run (list Z) :=
  memory_p ← read_imm;
  static_offset ← read_imm;
  addr ← get_curr_val_from_operand_stack_cache WasmTypes.i32;
  memory ← memory_at memory_p;
  let eff65 := wasm32_effective_offset addr static_offset in
  check_memory_bounds_unlocked memory static_offset eff65 (Z.of_nat bytes);;
  buf ← allocation_at memory (offset eff65) (Z.of_nat bytes);
  mret (read_bytes (offset eff65) (Z.of_nat bytes) buf).

Definition exec_load (t : value_type) : Run unit :=
  bytes ← load_bytes (size_of t);
  push_value t (object_value t (of_le bytes)).

Definition exec_loadN (wide : bool) (n : nat) (signed : bool) : Run unit :=
  bytes ← load_bytes n;
  push_value (int_type wide) (if signed then to_signed (8 * Z.of_nat n) (of_le bytes) else of_le bytes).

Definition set_memory (p : Z) (memory : linear_memory) : Run unit :=
  sm_modify (fun m => with_memories (<[Z.to_nat p := memory]> (memories m)) m).

Definition with_bytes (buf : list Z) (memory : linear_memory) : linear_memory :=
  LinearMemory (Some buf) (memory_length memory) (custom_page_size_log2 memory) (sequentially_consistent_size memory)
    (diagnostic_owner_memory_index memory) (ordered_memory_length memory).

(** The stores of a whole value and of its low bytes. *)
Definition store_value (t : value_type) (n : nat) : Run unit :=
  memory_p ← read_imm;
  static_offset ← read_imm;
  value ← get_curr_val_from_operand_stack_cache t;
  addr ← get_curr_val_from_operand_stack_cache WasmTypes.i32;
  memory ← memory_at memory_p;
  let eff65 := wasm32_effective_offset addr static_offset in
  check_memory_bounds_unlocked memory static_offset eff65 (Z.of_nat n);;
  buf ← allocation_at memory (offset eff65) (Z.of_nat n);
  set_memory memory_p (with_bytes (write_bytes (offset eff65) (le_bytes n value) buf) memory).

Definition exec_store (t : value_type) : Run unit := store_value t (size_of t).
Definition exec_storeN (wide : bool) (n : nat) : Run unit := store_value (int_type wide) n.

Definition exec_memory_size : Run unit :=
  memory_p ← read_imm;
  memory ← memory_at memory_p;
  push_value WasmTypes.i32 (to_signed 32 (u32 (get_page_size memory))).

Definition memory_grow_definitely_fails (memory : linear_memory) (max_limit_memory_length delta_pages : Z) : bool * Z :=
  let old_pages := get_page_size memory in
  if max_limit_memory_length =? size_t_max then (false, old_pages)
  else
    let limit_pages := Z.shiftr max_limit_memory_length (custom_page_size_log2 memory) in
    ((limit_pages <? old_pages) || (uz (limit_pages - old_pages) <? delta_pages), old_pages).

(** Running a function of [linear_memory] on a memory. *)
Definition on_memory {A} (p : Z) (f : SM linear_memory stop A) : Run A :=
  memory ← memory_at p;
  match f memory with
  | Done (a, memory') => set_memory p memory';; mret a
  | Thrown s => sm_throw (process_end s)
  | Undefined => undefined
  | OutOfFuel => sm_fuel
  end.

(** [grow_strict] is the flag of that name, [multi_thread] is [support_multi_thread]. *)
Definition exec_memory_grow (A : allocator) (grow_strict multi_thread : bool) : Run unit :=
  memory_p ← read_imm;
  max_limit_memory_length ← read_imm;
  delta_i32 ← get_curr_val_from_operand_stack_cache WasmTypes.i32;
  let delta_pages := u32 delta_i32 in
  memory ← memory_at memory_p;
  let (fails, old_pages) := memory_grow_definitely_fails memory max_limit_memory_length delta_pages in
  let result (r : bool * option Z) := if fst r then to_signed 32 (u32 (default old_pages (snd r))) else -1 in
  if fails then push_value WasmTypes.i32 (-1)
  else if grow_strict then
    r ← on_memory memory_p (grow_strictly A delta_pages max_limit_memory_length);
    push_value WasmTypes.i32 (result r)
  else if multi_thread then
    r ← on_memory memory_p (try_grow_silently A delta_pages max_limit_memory_length);
    push_value WasmTypes.i32 (result r)
  else
    on_memory memory_p (grow_silently A delta_pages max_limit_memory_length);;
    push_value WasmTypes.i32 (to_signed 32 (u32 old_pages)).

(** ** Control *)

Definition jump (jmp_ip : Z) : Run unit := sm_modify (with_ip (Some (Z.to_nat jmp_ip))).

Definition exec_br : Run unit :=
  jmp_ip ← read_imm;
  jump jmp_ip.

Definition exec_br_if : Run unit :=
  jmp_ip ← read_imm;
  cond ← get_curr_val_from_operand_stack_cache WasmTypes.i32;
  if negb (cond =? 0) then jump jmp_ip else mret tt.

Definition exec_br_table : Run unit :=
  max_size ← read_imm;
  curr ← get_curr_val_from_operand_stack_cache WasmTypes.i32;
  let idx := Z.min max_size (u32 curr) in
  m ← sm_get;
  match ip m ≫= fun i => code !! (i + Z.to_nat idx)%nat with
  | Some (Imm jmp_ip) => jump jmp_ip
  | _ => undefined
  end.

Definition exec_return : Run unit := sm_modify (with_ip None).

(** ** Running the code *)

Section Execute.
Context (A : allocator) (grow_strict multi_thread : bool).

Definition exec_opfunc (f : opfunc) : Run unit :=
  next_slot;;
  match f with
  | uwvmint_const t => exec_const t
  | uwvmint_drop_typed t => exec_drop_typed t
  | uwvmint_drop_bytes => exec_drop_bytes
  | uwvmint_select_typed t => exec_select_typed t
  | uwvmint_local_get_typed t => exec_local_get_typed t
  | uwvmint_local_set_typed t => exec_local_set_typed t
  | uwvmint_local_tee_typed t => exec_local_tee_typed t
  | uwvmint_global_get_typed t => exec_global_get_typed t
  | uwvmint_global_set_typed t => exec_global_set_typed t
  | uwvmint_int_unop wide op => exec_int_unop wide op
  | uwvmint_int_binop wide op => exec_int_binop wide op
  | uwvmint_int_cmp wide cmp => exec_int_cmp wide cmp
  | uwvmint_int_eqz wide => exec_int_eqz wide
  | uwvmint_i32_wrap_i64 => exec_i32_wrap_i64
  | uwvmint_i64_extend_i32 signed => exec_i64_extend_i32 signed
  | uwvmint_trunc wide f signed => exec_trunc wide f signed
  | uwvmint_reinterpret => mret tt
  | uwvmint_load t => exec_load t
  | uwvmint_loadN wide n signed => exec_loadN wide n signed
  | uwvmint_store t => exec_store t
  | uwvmint_storeN wide n => exec_storeN wide n
  | uwvmint_memory_size => exec_memory_size
  | uwvmint_memory_grow => exec_memory_grow A grow_strict multi_thread
  | uwvmint_br => exec_br
  | uwvmint_br_if => exec_br_if
  | uwvmint_br_table => exec_br_table
  | uwvmint_return => exec_return
  | uwvmint_unreachable => sm_throw trap_unreachable
  end.

(** One round of the loop, at a slot that is not null. *)
Definition exec_slot (i : nat) : Run unit :=
  match code !! i with
  | Some (Opfunc f) => exec_opfunc f
  | _ => undefined
  end.

(** [while(ip != nullptr)]: one unit of fuel for each round. *)
Fixpoint exec_loop (fuel : nat) : Run unit :=
  m ← sm_get;
  match ip m with
  | None => mret tt
  | Some i => match fuel with O => sm_fuel | S fuel => exec_slot i;; exec_loop fuel end
  end.

(** The body of a function, and the check of the size of its results. *)
Definition execute_compiled_defined (fuel : nat) (result_bytes : Z) : Run (list Z) :=
  exec_loop fuel;;
  m ← sm_get;
  if negb (zlen (operands m) =? result_bytes) then sm_throw (process_end fast_terminate)
  else mret (operands m).
End Execute.
End Code.
