(* ===== verification/FlatWasm.v ===== *)
(** * Flat WebAssembly

    The specification that the interpreter is measured against: WebAssembly instructions with
    jumps to positions instead of blocks, on a stack of typed values, with the operations of
    [IntegerSpec]. Nothing here refers to the code, but for the names of the operations. *)

From stdpp Require Import base list numbers.
From Stdlib Require Import ZArith Lia.
From S2P Require Import Prelude IeeeBits IntegerSpec WasmTypes NumericOps.
Open Scope Z_scope.

(** A value is its type and its bits. *)
Definition val : Type := value_type * Z.

Definition bit_width (t : value_type) : Z := match t with WasmTypes.i32 | WasmTypes.f32 => 32 | _ => 64 end.
Definition int_ty (wide : bool) : value_type := if wide then WasmTypes.i64 else WasmTypes.i32.
Definition float_ty (f : format) : value_type := match f with binary32 => WasmTypes.f32 | binary64 => WasmTypes.f64 end.

Inductive instr :=
| Const (v : val)
| Drop (ts : list value_type)
| Select (t : value_type)
| LocalGet (i : nat) | LocalSet (i : nat) | LocalTee (i : nat)
(** moving a value to and from the scratch location, which has no fixed type *)
| ScratchSet (t : value_type) | ScratchGet (t : value_type)
| GlobalGet (i : nat) | GlobalSet (i : nat)
| Unop (wide : bool) (op : int_unop)
| Binop (wide : bool) (op : int_binop)
| Relop (wide : bool) (op : int_cmp)
| Eqz (wide : bool)
| Wrap
| Extend (signed : bool)
| Trunc (wide : bool) (f : format) (signed : bool)
| Reinterpret (to : value_type)
| LoadV (t : value_type) (mem : nat) (offset : Z)
| LoadN (wide : bool) (bytes : nat) (signed : bool) (mem : nat) (offset : Z)
| StoreV (t : value_type) (mem : nat) (offset : Z)
| StoreN (wide : bool) (bytes : nat) (mem : nat) (offset : Z)
| MemorySize (mem : nat)
| MemoryGrow (mem : nat) (limit : Z)
| Br (l : nat)
| BrIf (l : nat)
| BrTable (ls : list nat) (l : nat)
| Return
| Unreachable.

(** ** Configurations *)

(** [pc] is [None] after a return; the top of the stack comes first. A memory is its bytes and
    the size of its pages. The scratch location is
    [None] before the first write. *)
Record config := Config {
  pc : option nat;
  stack : list val;
  vars : list val;
  scratch : option val;
  globs : list val;
  mems : list (list Z * Z);
}.

Inductive fault :=
| FTrap (t : trap)
| FOutOfBounds
| FUnreachable
(** the host has no memory left *)
| FExhausted.

Inductive result := Next (c : config) | Fault (f : fault).

Section Step.
Context (prog : list instr).

(** Continuing at [k] with the stack [st]. *)
Definition goto (k : nat) (st : list val) (c : config) : result := Next (Config (Some k) st (vars c) (scratch c) (globs c) (mems c)).

(** The bytes of a number, and the number of bytes, in little-endian order. *)
Definition bytes_of (n : nat) (v : Z) : list Z := (fun i => v / 2 ^ (8 * Z.of_nat i) mod 2 ^ 8) <$> seq 0 n.
Definition number_of (bytes : list Z) : Z := foldr (fun b n => b + 2 ^ 8 * n) 0 bytes.

Definition relop (N : Z) (op : int_cmp) (i1 i2 : Z) : bool :=
  match op with
  | icmp_eq => i1 =? i2 | icmp_ne => negb (i1 =? i2)
  | icmp_lt_s => signed_N N i1 <? signed_N N i2 | icmp_lt_u => i1 <? i2
  | icmp_gt_s => signed_N N i2 <? signed_N N i1 | icmp_gt_u => i2 <? i1
  | icmp_le_s => signed_N N i1 <=? signed_N N i2 | icmp_le_u => i1 <=? i2
  | icmp_ge_s => signed_N N i2 <=? signed_N N i1 | icmp_ge_u => i2 <=? i1
  end.

Definition unop (N : Z) (op : int_unop) (i : Z) : Z :=
  match op with unop_clz => iclz N i | unop_ctz => ictz N i | unop_popcnt => ipopcnt N i end.

Definition binop (N : Z) (op : int_binop) (i1 i2 : Z) : option Z :=
  match op with
  | bin_add => Some (iadd N i1 i2) | bin_sub => Some (isub N i1 i2) | bin_mul => Some (imul N i1 i2)
  | bin_div_s => idiv_s N i1 i2 | bin_div_u => idiv_u i1 i2
  | bin_rem_s => irem_s N i1 i2 | bin_rem_u => irem_u i1 i2
  | bin_and => Some (iand N i1 i2) | bin_or => Some (ior N i1 i2) | bin_xor => Some (ixor N i1 i2)
  | bin_shl => Some (ishl N i1 i2) | bin_shr_s => Some (ishr_s N i1 i2) | bin_shr_u => Some (ishr_u N i1 i2)
  | bin_rotl => Some (irotl N i1 i2) | bin_rotr => Some (irotr N i1 i2)
  end.

(** A result of a partial operation, or the trap of the operation. *)
Definition partial (k : nat) (t : value_type) (r : option Z) (why : trap) (st : list val) (c : config) : list result :=
  match r with Some z => [goto k ((t, z) :: st) c] | None => [Fault (FTrap why)] end.

(** The address of an access, exact, and the bytes of the memory it touches. *)
Definition access (c : config) (mem : nat) (base offset : Z) (n : nat) : option (option (list Z * Z * nat)) :=
  '(bytes, ps) ← mems c !! mem;
  let ea := base + offset in
  Some (if Z.of_nat (length bytes) <? ea + Z.of_nat n then None else Some (bytes, ps, Z.to_nat ea)).

Definition load (k : nat) (c : config) (st : list val) (mem : nat) (base offset : Z) (n : nat) (f : Z -> val) : list result :=
  match access c mem base offset n with
  | Some (Some (bytes, _, ea)) => [goto k (f (number_of (take n (drop ea bytes))) :: st) c]
  | Some None => [Fault FOutOfBounds]
  | None => []
  end.

Definition store (k : nat) (c : config) (st : list val) (mem : nat) (base offset : Z) (n : nat) (z : Z) : list result :=
  match access c mem base offset n with
  | Some (Some (bytes, ps, ea)) =>
      let bytes' := take ea bytes ++ bytes_of n z ++ drop (ea + n) bytes in
      [Next (Config (Some k) st (vars c) (scratch c) (globs c) (<[mem := (bytes', ps)]> (mems c)))]
  | Some None => [Fault FOutOfBounds]
  | None => []
  end.

(** A growth adds zero bytes within the limit, or fails and is reported with -1. *)
Definition grow (k : nat) (c : config) (st : list val) (mem : nat) (limit delta : Z) : list result :=
  match mems c !! mem with
  | Some (bytes, ps) =>
      let size := Z.of_nat (length bytes) in
      (if size + delta * ps <=? limit then
         [Next (Config (Some k) ((WasmTypes.i32, size / ps) :: st) (vars c) (scratch c) (globs c)
            (<[mem := (bytes ++ replicate (Z.to_nat (delta * ps)) 0, ps)]> (mems c)))]
       else []) ++
      [goto k ((WasmTypes.i32, 2 ^ 32 - 1) :: st) c; Fault FExhausted]
  | None => []
  end.

(** Removing values of the types [ts] from the top. *)
Fixpoint drop_values (ts : list value_type) (st : list val) : option (list val) :=
  match ts with
  | [] => Some st
  | t :: ts => match st with (t', _) :: st => if decide (t' = t) then drop_values ts st else None | [] => None end
  end.

Definition step_instr (k : nat) (i : instr) (c : config) : list result :=
  let next := S k in
  match i, stack c with
  | Const v, st => [goto next (v :: st) c]
  | Drop ts, st => match drop_values ts st with Some st' => [goto next st' c] | None => [] end
  | Select t, (WasmTypes.i32, b) :: (t2, v2) :: (t1, v1) :: st =>
      if decide (t1 = t /\ t2 = t) then [goto next ((t, if b =? 0 then v2 else v1) :: st) c] else []
  | LocalGet i, st => match vars c !! i with Some v => [goto next (v :: st) c] | None => [] end
  | LocalSet i, (t, v) :: st =>
      match vars c !! i with
      | Some (t', _) => if decide (t' = t) then
          [Next (Config (Some next) st (<[i := (t, v)]> (vars c)) (scratch c) (globs c) (mems c))] else []
      | None => []
      end
  | LocalTee i, (t, v) :: st =>
      match vars c !! i with
      | Some (t', _) => if decide (t' = t) then
          [Next (Config (Some next) ((t, v) :: st) (<[i := (t, v)]> (vars c)) (scratch c) (globs c) (mems c))] else []
      | None => []
      end
  | ScratchSet t, (t', v) :: st =>
      if decide (t' = t) then [Next (Config (Some next) st (vars c) (Some (t, v)) (globs c) (mems c))] else []
  | ScratchGet t, st =>
      match scratch c with Some (t', v) => if decide (t' = t) then [goto next ((t, v) :: st) c] else [] | None => [] end
  | GlobalGet i, st => match globs c !! i with Some v => [goto next (v :: st) c] | None => [] end
  | GlobalSet i, (t, v) :: st =>
      match globs c !! i with
      | Some (t', _) => if decide (t' = t) then
          [Next (Config (Some next) st (vars c) (scratch c) (<[i := (t, v)]> (globs c)) (mems c))] else []
      | None => []
      end
  | Unop wide op, (t, i1) :: st =>
      if decide (t = int_ty wide) then [goto next ((t, unop (bit_width t) op i1) :: st) c] else []
  | Binop wide op, (t2, i2) :: (t1, i1) :: st =>
      if decide (t1 = int_ty wide /\ t2 = int_ty wide) then
        partial next t1 (binop (bit_width t1) op i1 i2)
          (if i2 =? 0 then trap_integer_divide_by_zero else trap_integer_overflow) st c
      else []
  | Relop wide op, (t2, i2) :: (t1, i1) :: st =>
      if decide (t1 = int_ty wide /\ t2 = int_ty wide) then
        [goto next ((WasmTypes.i32, Z.b2z (relop (bit_width t1) op i1 i2)) :: st) c] else []
  | Eqz wide, (t, i1) :: st =>
      if decide (t = int_ty wide) then [goto next ((WasmTypes.i32, Z.b2z (i1 =? 0)) :: st) c] else []
  | Wrap, (WasmTypes.i64, i1) :: st => [goto next ((WasmTypes.i32, i1 mod 2 ^ 32) :: st) c]
  | Extend signed, (WasmTypes.i32, i1) :: st =>
      [goto next ((WasmTypes.i64, if signed then signed_N 32 i1 mod 2 ^ 64 else i1) :: st) c]
  | Trunc wide f signed, (t, x) :: st =>
      if decide (t = float_ty f) then
        let N := bit_width (int_ty wide) in
        let lo := if signed then - 2 ^ (N - 1) else 0 in
        let hi := if signed then 2 ^ (N - 1) - 1 else 2 ^ N - 1 in
        let z := Z.quot (value f x) (unit_value f) in
        if negb (is_nan f x) && (lo <=? z) && (z <=? hi) then [goto next ((int_ty wide, z mod 2 ^ N) :: st) c]
        else [Fault (FTrap (if is_nan f x then trap_invalid_conversion_to_integer else trap_integer_overflow))]
      else []
  | Reinterpret to, (t, z) :: st => if bit_width to =? bit_width t then [goto next ((to, z) :: st) c] else []
  | LoadV t mem offset, (WasmTypes.i32, base) :: st =>
      load next c st mem base offset (Z.to_nat (bit_width t / 8)) (fun z => (t, z))
  | LoadN wide n signed mem offset, (WasmTypes.i32, base) :: st =>
      load next c st mem base offset n (fun z =>
        (int_ty wide, if signed then signed_N (8 * Z.of_nat n) z mod 2 ^ bit_width (int_ty wide) else z))
  | StoreV t mem offset, (t', z) :: (WasmTypes.i32, base) :: st =>
      if decide (t' = t) then store next c st mem base offset (Z.to_nat (bit_width t / 8)) z else []
  | StoreN wide n mem offset, (t', z) :: (WasmTypes.i32, base) :: st =>
      if decide (t' = int_ty wide) then store next c st mem base offset n (z mod 2 ^ (8 * Z.of_nat n)) else []
  | MemorySize mem, st =>
      match mems c !! mem with
      | Some (bytes, ps) => [goto next ((WasmTypes.i32, Z.of_nat (length bytes) / ps) :: st) c]
      | None => []
      end
  | MemoryGrow mem limit, (WasmTypes.i32, delta) :: st => grow next c st mem limit delta
  | Br l, st => [goto l st c]
  | BrIf l, (WasmTypes.i32, b) :: st => [goto (if b =? 0 then next else l) st c]
  | BrTable ls l, (WasmTypes.i32, i) :: st => [goto (default l (ls !! Z.to_nat i)) st c]
  | Return, st => [Next (Config None st (vars c) (scratch c) (globs c) (mems c))]
  | Unreachable, _ => [Fault FUnreachable]
  | _, _ => []
  end.

(** The results of one step; there are none where the stack has not the types that the
    instruction takes. *)
Definition sstep (c : config) : list result :=
  match pc c with
  | Some k => match prog !! k with Some i => step_instr k i c | None => [] end
  | None => []
  end.

(** Sequences of steps. *)
Inductive ssteps : nat -> config -> config -> Prop :=
| ssteps_refl c : ssteps 0 c c
| ssteps_step n c1 c2 c3 : In (Next c2) (sstep c1) -> ssteps n c2 c3 -> ssteps (S n) c1 c3.

(** No reachable configuration is stuck before it returns. *)
Definition never_stuck (c : config) : Prop :=
  forall n c', ssteps n c c' -> pc c' <> None -> sstep c' <> [].
End Step.
