(* ===== verification/FlatTyping.v ===== *)
(** * Typing of flat WebAssembly

    A check of a code with the types of the stack at each position, as a translator knows them,
    and that a code that passes it is never stuck: it returns its results or ends with a fault
    of the specification. *)

From stdpp Require Import base list numbers.
From Stdlib Require Import ZArith Lia.
From S2P Require Import Prelude IeeeBits IntegerSpec WasmTypes NumericOps FlatWasm.
Open Scope Z_scope.

(** Replacing the types [from] on the top of the stack by [to]. *)
Definition pops (from to ts : list value_type) : option (list value_type) :=
  if decide (take (length from) ts = from) then Some (to ++ drop (length from) ts) else None.

(** *** Values of given types *)

Lemma pops_inv from to (st : list val) ts' :
  pops from to (fst <$> st) = Some ts' ->
  exists st1 st2 : list val, st = st1 ++ st2 /\ fst <$> st1 = from /\ ts' = to ++ (fst <$> st2).
Proof.
  unfold pops. destruct decide as [Ht |]; [| done]. intros [= <-]. exists (take (length from) st), (drop (length from) st).
  by rewrite take_drop, fmap_take, Ht, fmap_drop.
Qed.

Lemma lookup_type (l : list val) ts n t : fst <$> l = ts -> ts !! n = Some t -> exists z, l !! n = Some (t, z).
Proof.
  intros <- Hn. rewrite (list_lookup_fmap fst l n) in Hn. apply fmap_Some in Hn as ([t' z] & H & ->). by exists z.
Qed.

Lemma insert_type (l : list val) n t z z' : l !! n = Some (t, z) -> fst <$> <[n := (t, z')]> l = fst <$> l.
Proof.
  intros Hn. rewrite list_fmap_insert. apply list_insert_id. rewrite (list_lookup_fmap fst l n).
  exact (f_equal (fmap fst) Hn).
Qed.

Lemma cons_type (l : list val) t ts : fst <$> l = t :: ts -> exists z l', l = (t, z) :: l' /\ fst <$> l' = ts.
Proof. destruct l as [| [t' z] l]; [done |]. intros [= -> <-]. by exists z, l. Qed.

Lemma drop_values_app st1 st2 : drop_values (fst <$> st1) (st1 ++ st2) = Some st2.
Proof. induction st1 as [| [t z] st1 IH]; [done |]. simpl. by rewrite decide_True. Qed.

(** The values that a list of types takes from the stack. *)
Ltac values :=
  repeat match goal with
  | H : pops _ _ (fst <$> ?st) = Some _ |- _ => apply pops_inv in H as (? & ? & -> & ? & ->)
  | H : fst <$> _ = _ :: _ |- _ => apply cons_type in H as (? & ? & -> & H)
  | H : fst <$> _ = [] |- _ => apply fmap_nil_inv in H as ->
  end.

Section Typing.
(** The types of the locals, the globals and the results, and the number of memories. *)
Context (lt gt rt : list value_type) (nm : nat).

Definition has_memory (mem : nat) {X} (o : option X) : option X := if (mem <? nm)%nat then o else None.

(** The positions that an instruction at [k] continues at, with the types of the stack there. *)
Definition succs (k : nat) (i : instr) (ts : list value_type) : option (list (nat * list value_type)) :=
  let falls (o : option (list value_type)) := (fun ts' => [(S k, ts')]) <$> o in
  match i with
  | Const (t, _) => falls (Some (t :: ts))
  | Drop ds => falls (pops ds [] ts)
  | Select t => falls (pops [WasmTypes.i32; t; t] [t] ts)
  | LocalGet i => t ← lt !! i; falls (Some (t :: ts))
  | LocalSet i => t ← lt !! i; falls (pops [t] [] ts)
  | LocalTee i => t ← lt !! i; falls (pops [t] [t] ts)
  | ScratchSet _ | ScratchGet _ => None
  | GlobalGet i => t ← gt !! i; falls (Some (t :: ts))
  | GlobalSet i => t ← gt !! i; falls (pops [t] [] ts)
  | Unop wide _ => falls (pops [int_ty wide] [int_ty wide] ts)
  | Binop wide _ => falls (pops [int_ty wide; int_ty wide] [int_ty wide] ts)
  | Relop wide _ => falls (pops [int_ty wide; int_ty wide] [WasmTypes.i32] ts)
  | Eqz wide => falls (pops [int_ty wide] [WasmTypes.i32] ts)
  | Wrap => falls (pops [WasmTypes.i64] [WasmTypes.i32] ts)
  | Extend _ => falls (pops [WasmTypes.i32] [WasmTypes.i64] ts)
  | Trunc wide f _ => falls (pops [float_ty f] [int_ty wide] ts)
  | Reinterpret to =>
      match ts with t :: ts => if bit_width to =? bit_width t then falls (Some (to :: ts)) else None | [] => None end
  | LoadV t mem _ => has_memory mem (falls (pops [WasmTypes.i32] [t] ts))
  | LoadN wide _ _ mem _ => has_memory mem (falls (pops [WasmTypes.i32] [int_ty wide] ts))
  | StoreV t mem _ => has_memory mem (falls (pops [t; WasmTypes.i32] [] ts))
  | StoreN wide _ mem _ => has_memory mem (falls (pops [int_ty wide; WasmTypes.i32] [] ts))
  | MemorySize mem => has_memory mem (falls (Some (WasmTypes.i32 :: ts)))
  | MemoryGrow mem _ => has_memory mem (falls (pops [WasmTypes.i32] [WasmTypes.i32] ts))
  | Br l => Some [(l, ts)]
  | BrIf l => (fun ts' => [(S k, ts'); (l, ts')]) <$> pops [WasmTypes.i32] [] ts
  | BrTable ls l => (fun ts' => (fun l => (l, ts')) <$> l :: ls) <$> pops [WasmTypes.i32] [] ts
  | Return => if decide (ts = rt) then Some [] else None
  | Unreachable => Some []
  end.

Context (prog : list instr) (ann : list (option (list value_type))).

(** Every instruction that has types leads to positions in the code with their types. *)
Definition check_at (k : nat) : bool :=
  match prog !! k, ann !! k with
  | Some i, Some (Some ts) =>
      match succs k i ts with
      | Some l => forallb (fun e => (e.1 <? length prog)%nat && bool_decide (ann !! e.1 = Some (Some e.2))) l
      | None => false
      end
  | _, _ => true
  end.
Definition well_typed : bool :=
  (0 <? length prog)%nat && bool_decide (ann !! 0%nat = Some (Some [])) && forallb check_at (seq 0 (length prog)).

(** ** Soundness *)

Record config_typed (c : config) : Prop := {
  typed_vars : fst <$> vars c = lt;
  typed_globs : fst <$> globs c = gt;
  typed_mems : length (mems c) = nm;
  typed_pc :
    match pc c with
    | Some k => (k < length prog)%nat /\ ann !! k = Some (Some (fst <$> stack c))
    | None => fst <$> stack c = rt
    end;
}.

Section Step.
Context (k : nat) (st vars globs : list val) (tmp : option val) (mems : list (list Z * Z)).
Context (Hv : fst <$> vars = lt) (Hg : fst <$> globs = gt) (Hm : length mems = nm).
#[local] Notation c := (Config (Some k) st vars tmp globs mems).

(** What a step leads to, all of it typed, and something. *)
Definition progresses (rs : list result) : Prop :=
  rs <> [] /\ forall c', In (Next c') rs -> config_typed c'.

Context (l : list (nat * list value_type)).
Context (Hl : forall k' ts, In (k', ts) l -> (k' < length prog)%nat /\ ann !! k' = Some (Some ts)).

Lemma to_typed k' st' vars' tmp' globs' mems' :
  In (k', fst <$> st') l -> fst <$> vars' = lt -> fst <$> globs' = gt -> length mems' = nm ->
  config_typed (Config (Some k') st' vars' tmp' globs' mems').
Proof using Hl. intros Hin. constructor; try done. by apply Hl. Qed.

Lemma progress_one r : (forall c', r = Next c' -> config_typed c') -> progresses [r].
Proof using. intros H. split; [done |]. intros c' [-> | []]. by apply H. Qed.

Lemma progress_goto k' st' : In (k', fst <$> st') l -> progresses [goto k' st' c].
Proof using Hl Hv Hg Hm. intros Hin. apply progress_one. intros c' [= <-]. by apply to_typed. Qed.

Lemma progress_fault f : progresses [Fault f].
Proof using. by apply progress_one. Qed.

(** The access of a memory that exists. *)
Lemma access_some mem base off n : (mem < nm)%nat -> is_Some (access c mem base off n).
Proof using Hm.
  intros Hlt. unfold access. cbn [FlatWasm.mems]. destruct (lookup_lt_is_Some_2 mems mem ltac:(lia)) as [[bytes ps] E].
  rewrite E. cbn [mbind option_bind]. eauto.
Qed.

Lemma progress_load st' mem base off n (f : Z -> val) t :
  (mem < nm)%nat -> (forall z, fst (f z) = t) -> In (S k, t :: (fst <$> st')) l -> progresses (load (S k) c st' mem base off n f).
Proof using Hl Hv Hg Hm.
  intros Hmem Hf Hin. unfold load. destruct (access_some mem base off n Hmem) as [o ->].
  destruct o as [[[bytes ps] ea] |]; [| apply progress_fault]. apply progress_goto. cbn [fmap list_fmap]. by rewrite Hf.
Qed.

Lemma progress_store st' mem base off n z :
  (mem < nm)%nat -> In (S k, fst <$> st') l -> progresses (store (S k) c st' mem base off n z).
Proof using Hl Hv Hg Hm.
  intros Hmem Hin. unfold store. destruct (access_some mem base off n Hmem) as [o ->].
  destruct o as [[[bytes ps] ea] |]; [| apply progress_fault]. apply progress_one. intros c' [= <-].
  apply to_typed; try done. by rewrite length_insert.
Qed.

Lemma progress_grow st' mem limit d :
  (mem < nm)%nat -> In (S k, WasmTypes.i32 :: (fst <$> st')) l -> progresses (grow (S k) c st' mem limit d).
Proof using Hl Hv Hg Hm.
  intros Hmem Hin. unfold grow. cbn [FlatWasm.mems]. destruct (lookup_lt_is_Some_2 mems mem ltac:(lia)) as [[bytes ps] ->].
  destruct (_ <=? limit); (split; [done |]); intros c'; simpl; unfold goto;
    intros H; repeat (destruct H as [H | H]; [simplify_eq; try (apply to_typed; [done.. |]; rewrite ?length_insert; done) |]); done.
Qed.
End Step.

Lemma step_progress k i (st vars globs : list val) tmp mems l :
  fst <$> vars = lt -> fst <$> globs = gt -> length mems = nm ->
  succs k i (fst <$> st) = Some l ->
  (forall k' ts, In (k', ts) l -> (k' < length prog)%nat /\ ann !! k' = Some (Some ts)) ->
  progresses (step_instr k i (Config (Some k) st vars tmp globs mems)).
Proof.
  intros Hv Hg Hm Hs Hl. destruct i; cbn [succs] in Hs; unfold has_memory in Hs.
  all: repeat match goal with
  | H : (_ ≫= _) = Some _ |- _ => apply bind_Some in H as (? & ? & H)
  | H : _ <$> _ = Some _ |- _ => apply fmap_Some in H as (? & H & ->)
  | H : (if (?m <? nm)%nat then _ else _) = Some _ |- _ => destruct (Nat.ltb_spec m nm); [| done]
  end.
  all: try (destruct v as [t z]); cbn [fmap option_fmap option_map] in Hs; simplify_eq;
    values; cbn [step_instr stack app fmap list_fmap FlatWasm.vars FlatWasm.globs FlatWasm.mems].
  all: try match goal with
    | H : ?ts !! _ = Some ?t, Ht : fst <$> _ = ?ts |- _ => destruct (lookup_type _ _ _ _ Ht H) as [? E]; rewrite E
    end; rewrite ?decide_True by (done || tauto).
  all: try (eapply progress_goto; first [done | by left | by right; left]).
  all: try (eapply progress_load; try done; by left).
  all: try (eapply progress_store; try done; by left).
  all: try (eapply progress_grow; try done; by left).
  all: try (apply progress_one; intros c' [= <-]; apply to_typed with (l := l); [done | | done | done]).
  - match goal with H : fst <$> _ = ts |- _ => rewrite <- H end. rewrite drop_values_app.
    eapply progress_goto; first [eassumption | done | by left].
  - destruct (lookup_type _ _ _ _ Hv H) as [z E]. change (@lookup nat val (list val) _ i vars = Some (x, z)) in E. rewrite E.
    eapply progress_goto; first [eassumption | done | by left].
  - apply progress_one. intros c' [= <-]. eapply to_typed; first [eassumption | done | by left | by erewrite insert_type].
  - apply progress_one. intros c' [= <-]. eapply to_typed; first [eassumption | done | by left | by erewrite insert_type].
  - destruct (lookup_type _ _ _ _ Hg H) as [z E]. change (@lookup nat val (list val) _ i globs = Some (x, z)) in E. rewrite E.
    eapply progress_goto; first [eassumption | done | by left].
  - apply progress_one. intros c' [= <-]. eapply to_typed; first [eassumption | done | by left | by erewrite insert_type].
  - unfold partial. destruct binop; [| apply progress_fault]. eapply progress_goto; first [eassumption | done | by left].
  - destruct (_ && _); [| apply progress_fault]. eapply progress_goto; first [eassumption | done | by left].
  - destruct st as [| [t z] st]; [done |]. cbn [fmap list_fmap fst] in Hs. destruct (bit_width to =? bit_width t); [| done].
    injection Hs as <-. eapply progress_goto; first [eassumption | done | by left].
  - eapply progress_load; try first [eassumption | by left]; done.
  - eapply progress_load; try first [eassumption | by left]; done.
  - destruct (lookup_lt_is_Some_2 mems mem ltac:(lia)) as [[bytes ps] ->].
    eapply progress_goto; first [eassumption | done | by left].
  - destruct (x =? 0); eapply progress_goto; first [eassumption | done | by left | by right; left].
  - eapply progress_goto; try eassumption; try done. destruct (ls !! Z.to_nat x) as [l' |] eqn:E; [right | by left].
    apply list_elem_of_In, list_elem_of_fmap. exists l'. split; [done |]. by apply list_elem_of_lookup_2 in E.
  - destruct decide; [| done]. apply progress_one. intros c' [= <-]. by constructor.
  - apply progress_fault.
Qed.
Lemma check_step c k :
  well_typed = true -> config_typed c -> pc c = Some k -> progresses (sstep prog c).
Proof.
  intros [[_ _]%andb_prop Hall]%andb_prop [Hv Hg Hm Hpc] Hk. rewrite Hk in Hpc. destruct Hpc as [Hlt Ha].
  destruct c as [p st vars tmp globs mems]. cbn [pc stack FlatWasm.vars FlatWasm.globs FlatWasm.mems] in *. subst p.
  destruct (lookup_lt_is_Some_2 prog k Hlt) as [i Hi]. unfold sstep. cbn [pc]. rewrite Hi.
  rewrite forallb_forall in Hall. specialize (Hall k ltac:(apply in_seq; lia)). unfold check_at in Hall. rewrite Hi, Ha in Hall.
  destruct (succs k i (fst <$> st)) as [l |] eqn:Hs; [| done]. rewrite forallb_forall in Hall.
  apply (step_progress k i st vars globs tmp mems l); try done. intros k' ts Hin. specialize (Hall _ Hin). simpl in Hall.
  apply andb_prop in Hall as [H1 H2]. apply Nat.ltb_lt in H1. apply bool_decide_eq_true in H2. done.
Qed.

Lemma ssteps_typed n c c' : well_typed = true -> ssteps prog n c c' -> config_typed c -> config_typed c'.
Proof.
  intros Hw. induction 1 as [| n c1 c2 c3 Hin _ IH]; [done |]. intros Ht. apply IH.
  destruct (pc c1) as [k |] eqn:Hk; [by apply (check_step c1 k Hw Ht Hk) |]. unfold sstep in Hin. by rewrite Hk in Hin.
Qed.

(** A typed configuration of a well-typed code is never stuck. *)
Lemma typed_never_stuck c : well_typed = true -> config_typed c -> never_stuck prog c.
Proof.
  intros Hw Ht n c' Hs Hpc. pose proof (ssteps_typed n c c' Hw Hs Ht) as Ht'.
  destruct (pc c') as [k |] eqn:Hk; [| done]. by apply (check_step c' k Hw Ht' Hk).
Qed.
End Typing.
