(* ===== verification/InterpreterRep.v ===== *)
(** * How the interpreter represents typed values

    Numbers as bytes, the operand stack as the concatenation of its values, the locals as one
    area of bytes with the offsets that the translator assigns, and flat WebAssembly as slots.
    The lemmas that run the interpreter's primitives on these representations. *)

From stdpp Require Import base list numbers.
From Stdlib Require Import ZArith Lia.
From S2P Require Import Prelude IeeeBits IntegerSpec WasmTypes NumericOps NumericTheorems LinearMemory LinearMemoryCorrect.
From S2P Require Import Interpreter FlatWasm.
Open Scope Z_scope.

(** ** Numbers and bytes *)

Definition byte_ok (b : Z) : Prop := 0 <= b < 2 ^ 8.

Lemma pow_8_succ n : 2 ^ (8 * Z.of_nat (S n)) = 2 ^ 8 * 2 ^ (8 * Z.of_nat n).
Proof. rewrite <- Z.pow_add_r by lia. f_equal. lia. Qed.

Lemma pow_8_pos n : 0 < 2 ^ (8 * Z.of_nat n).
Proof. apply Z.pow_pos_nonneg; lia. Qed.

Lemma length_le_bytes n v : length (le_bytes n v) = n.
Proof. revert v. induction n as [| n IH]; intros v; [done |]. simpl. by rewrite IH. Qed.

Lemma le_bytes_ok n v : Forall byte_ok (le_bytes n v).
Proof. revert v. induction n as [| n IH]; intros v; constructor; [apply Z.mod_pos_bound; lia | apply IH]. Qed.

Lemma mod_mul_split v q : 0 < q -> v mod (2 ^ 8 * q) = v mod 2 ^ 8 + 2 ^ 8 * ((v / 2 ^ 8) mod q).
Proof. intros Hq. by rewrite Z.rem_mul_r by lia. Qed.

Lemma of_le_le_bytes n v : of_le (le_bytes n v) = v mod 2 ^ (8 * Z.of_nat n).
Proof.
  revert v. induction n as [| n IH]; intros v; [simpl; by rewrite Z.mod_1_r |].
  cbn [le_bytes of_le]. pose proof (pow_8_pos n). by rewrite IH, pow_8_succ, mod_mul_split.
Qed.

(** Only the low bits of a number reach its bytes. *)
Lemma le_bytes_mod n v : le_bytes n (v mod 2 ^ (8 * Z.of_nat n)) = le_bytes n v.
Proof.
  revert v. induction n as [| n IH]; intros v; [done |]. pose proof (pow_8_pos n).
  cbn [le_bytes]. rewrite pow_8_succ, mod_mul_split by lia. rewrite (Z.mul_comm (2 ^ 8)).
  pose proof (Z.mod_pos_bound v (2 ^ 8) ltac:(lia)). rewrite Z.mod_add, Z.mod_mod by lia.
  rewrite Z.div_add by lia. rewrite (Z.div_small (v mod 2 ^ 8)) by lia. by rewrite Z.add_0_l, IH.
Qed.

Lemma of_le_bounds bytes : Forall byte_ok bytes -> 0 <= of_le bytes < 2 ^ (8 * zlen bytes).
Proof.
  unfold zlen. induction 1 as [| b bytes Hb _ IH]; [simpl; lia |]. cbn [of_le length]. rewrite pow_8_succ.
  unfold byte_ok in Hb. lia.
Qed.

Lemma of_le_number bytes : of_le bytes = number_of bytes.
Proof. induction bytes as [| b bytes IH]; [done |]. simpl. by rewrite IH. Qed.

Lemma le_bytes_spec n v : le_bytes n v = bytes_of n v.
Proof.
  unfold bytes_of. revert v. induction n as [| n IH]; intros v; [done |].
  cbn [le_bytes seq]. rewrite fmap_cons, <- fmap_S_seq, <- list_fmap_compose, IH. f_equal.
  - by rewrite Z.mul_0_r, Z.div_1_r.
  - apply list_fmap_ext. intros _ i _. unfold compose. rewrite pow_8_succ, Z.div_div by (pose proof (pow_8_pos i); lia). done.
Qed.

(** ** Values *)

Definition val_ok (v : val) : Prop := 0 <= snd v < 2 ^ bit_width (fst v).
Definition enc (v : val) : list Z := le_bytes (size_of (fst v)) (snd v).

Lemma bit_width_size t : bit_width t = 8 * Z.of_nat (size_of t).
Proof. by destruct t. Qed.

Lemma length_enc v : length (enc v) = size_of (fst v).
Proof. apply length_le_bytes. Qed.

Lemma enc_mod t z : enc (t, z mod 2 ^ bit_width t) = enc (t, z).
Proof. unfold enc. simpl. by rewrite bit_width_size, le_bytes_mod. Qed.

Lemma mod_ok t z : val_ok (t, z mod 2 ^ bit_width t).
Proof. apply Z.mod_pos_bound, Z.pow_pos_nonneg; [lia | by destruct t]. Qed.

Lemma of_le_enc v : val_ok v -> of_le (enc v) = snd v.
Proof. intros Hv. unfold enc. rewrite of_le_le_bytes, <- bit_width_size. by apply Z.mod_small. Qed.

Lemma take_drop_enc bytes t :
  Forall byte_ok bytes -> length bytes = size_of t -> enc (t, of_le bytes) = bytes.
Proof.
  unfold enc. simpl. generalize (size_of t). intros n Hb <-. induction Hb as [| b bytes Hb _ IH]; [done |].
  simpl of_le. simpl length. cbn [le_bytes]. unfold byte_ok in Hb.
  rewrite (Z.mul_comm (2 ^ 8)), Z.mod_add, Z.div_add, Z.mod_small, (Z.div_small b), Z.add_0_l, IH by lia. done.
Qed.

(** The signed value of an integer, and its bits. *)
Lemma digits_width wide : digits wide = bit_width (int_ty wide).
Proof. by destruct wide. Qed.

Lemma int_type_eq wide : int_type wide = int_ty wide.
Proof. by destruct wide. Qed.

Lemma digits_cases wide : digits wide = 32 \/ digits wide = 64.
Proof. destruct wide; [by right | by left]. Qed.

Lemma object_value_int wide z : object_value (int_ty wide) z = to_signed (digits wide) z.
Proof. by destruct wide. Qed.

Lemma object_value_bits t z : val_ok (t, z) -> object_value t z mod 2 ^ bit_width t = z.
Proof.
  unfold val_ok. intros Hz. simpl in Hz. destruct t; simpl object_value; simpl bit_width in *.
  - apply (from_to_unsigned 32); [by left | done].
  - apply (from_to_unsigned 64); [by right | done].
  - by apply Z.mod_small.
  - by apply Z.mod_small.
Qed.

Lemma int_operand wide z :
  val_ok (int_ty wide, z) ->
  in_range (digits wide) (object_value (int_ty wide) z) /\ wrap (digits wide) (object_value (int_ty wide) z) = z.
Proof.
  intros Hz. rewrite object_value_int. apply (from_to_unsigned _ (digits_cases wide)).
  unfold val_ok in Hz. simpl in Hz. by rewrite digits_width.
Qed.

Lemma object_value_zero wide z : val_ok (int_ty wide, z) -> (object_value (int_ty wide) z =? 0) = (z =? 0).
Proof.
  intros Hz. pose proof (object_value_bits _ _ Hz) as E. apply eq_true_iff_eq. rewrite !Z.eqb_eq.
  split; [intros E0; rewrite <- E, E0; by apply Z.mod_0_l; destruct wide | intros ->; by destruct wide].
Qed.

Lemma bool_small b : Z.b2z b mod 2 ^ bit_width WasmTypes.i32 = Z.b2z b.
Proof. by destruct b. Qed.

Lemma bool_ok b : val_ok (WasmTypes.i32, Z.b2z b).
Proof. unfold val_ok. by destruct b. Qed.

(** Counts of bits are small. *)
Lemma unop_bounds N op i : 0 <= N -> 0 <= unop N op i <= N.
Proof.
  intros HN. assert (forall n k, 0 <= leading_zeros n i <= Z.of_nat n /\ 0 <= trailing_zeros n k i <= Z.of_nat n /\
    0 <= bit_count n i <= Z.of_nat n) as H.
  { induction n as [| n IH]; intros k; [done |]. cbn [leading_zeros trailing_zeros bit_count].
    specialize (IH (k + 1)). repeat case_match; unfold Z.b2z; repeat case_match; lia. }
  specialize (H (Z.to_nat N) 0). destruct op; simpl; unfold iclz, ictz, ipopcnt; lia.
Qed.

Lemma unop_ok wide op i : val_ok (int_ty wide, unop (bit_width (int_ty wide)) op i).
Proof.
  unfold val_ok. cbn [fst snd]. pose proof (unop_bounds (bit_width (int_ty wide)) op i).
  destruct wide; simpl bit_width in *; lia.
Qed.

Lemma val_ok_small t z : val_ok (t, z) -> z mod 2 ^ bit_width t = z.
Proof. apply Z.mod_small. Qed.

(** ** The operand stack *)

Fixpoint stack_bytes (st : list val) : list Z :=
  match st with [] => [] | v :: st => stack_bytes st ++ enc v end.

Section Run.
Context (i : option nat) (l : list Z) (g : list (list Z)) (ms : list linear_memory).
#[local] Notation M o := (Machine i o l g ms).

Lemma pop_app n o b : n = length b -> pop_bytes n (M (o ++ b)) = Done (b, M o).
Proof.
  intros ->. unfold pop_bytes. rewrite bind_get. cbn [operands]. rewrite length_app.
  rewrite (proj2 (Nat.ltb_ge _ _)) by lia. rewrite Nat.add_sub. unfold with_operands. cbn [ip locals globals memories].
  rewrite bind_modify. cbn [ip locals globals memories operands]. by rewrite take_app_length, drop_app_length.
Qed.

Lemma pop_enc v st n :
  n = size_of (fst v) -> pop_bytes n (M (stack_bytes (v :: st))) = Done (enc v, M (stack_bytes st)).
Proof. intros ->. simpl. apply pop_app. by rewrite length_enc. Qed.

Context {B : Type}.
Implicit Types (K : Z -> Run B).

Lemma bind_pop t z st K :
  val_ok (t, z) ->
  (get_curr_val_from_operand_stack_cache t ≫= K) (M (stack_bytes ((t, z) :: st))) = K (object_value t z) (M (stack_bytes st)).
Proof.
  intros Hz. unfold get_curr_val_from_operand_stack_cache. rewrite sm_bind_assoc.
  erewrite bind_done by (by apply pop_enc). rewrite bind_ret. by rewrite of_le_enc.
Qed.

Lemma bind_pop_bytes v st (K : list Z -> Run B) n :
  n = size_of (fst v) -> (pop_bytes n ≫= K) (M (stack_bytes (v :: st))) = K (enc v) (M (stack_bytes st)).
Proof. intros Hn. erewrite bind_done by (by apply pop_enc). done. Qed.

Lemma run_push v st : push_bytes (enc v) (M (stack_bytes st)) = Done (tt, M (stack_bytes (v :: st))).
Proof. done. Qed.

Lemma run_push_value t v st :
  push_value t v (M (stack_bytes st)) = Done (tt, M (stack_bytes ((t, v mod 2 ^ bit_width t) :: st))).
Proof. cbn [stack_bytes]. by rewrite enc_mod. Qed.
End Run.

Lemma drop_values_bytes ts st st' :
  drop_values ts st = Some st' ->
  (exists b, stack_bytes st = stack_bytes st' ++ b /\ Z.of_nat (length b) = foldr (fun t n => Z.of_nat (size_of t) + n) 0 ts) /\
  (Forall val_ok st -> Forall val_ok st').
Proof.
  revert st. induction ts as [| t ts IH]; intros st H; simpl in H.
  - injection H as ->. split; [| done]. exists []. by rewrite app_nil_r.
  - destruct st as [| [t' z] st]; [done |]. destruct decide as [-> |]; [| done].
    destruct (IH st H) as ((b & Hb & Hlen) & Hok). split.
    + exists (b ++ enc (t, z)). simpl. rewrite Hb, app_assoc, length_app, length_enc. simpl. split; [done | lia].
    + intros Hst. apply Hok. by inversion Hst.
Qed.

Lemma bind_imm {B} code i o l g ms v (K : Z -> Run B) :
  code !! i = Some (Imm v) ->
  (read_imm code ≫= K) (Machine (Some i) o l g ms) = K v (Machine (Some (S i)) o l g ms).
Proof.
  intros Hi. unfold read_imm. rewrite sm_bind_assoc, bind_get. cbn [ip mbind option_bind]. by rewrite Hi.
Qed.

Lemma stack_bytes_length st : zlen (stack_bytes st) = foldr (fun t n => Z.of_nat (size_of t) + n) 0 (fst <$> st).
Proof.
  induction st as [| v st IH]; [done |]. simpl. rewrite zlen_app, IH, Z.add_comm. unfold zlen. by rewrite length_enc.
Qed.

(** ** The locals *)

Definition vars_bytes (vars : list val) : list Z := concat (enc <$> vars).

Lemma local_offset b vars i v :
  vars !! i = Some v -> local_offsets b (fst <$> vars) !! i = Some (b + zlen (vars_bytes (take i vars))).
Proof.
  revert b i. induction vars as [| [t z] vars IH]; intros b i Hi; [done |]. destruct i as [| i]; simpl in *.
  - f_equal. unfold zlen. simpl. lia.
  - rewrite (IH _ i Hi). f_equal. unfold vars_bytes. rewrite fmap_cons. simpl. rewrite zlen_app.
    unfold zlen at 2. rewrite length_enc. simpl. lia.
Qed.

Lemma vars_bytes_middle vars i v :
  vars !! i = Some v -> vars_bytes vars = vars_bytes (take i vars) ++ enc v ++ vars_bytes (drop (S i) vars).
Proof.
  intros Hi. rewrite <- (take_drop_middle vars i v Hi) at 1. unfold vars_bytes. by rewrite fmap_app, concat_app.
Qed.

(** Reading and writing in the middle of an area. *)
Lemma read_middle l1 b l2 : read_bytes (zlen l1) (zlen b) (l1 ++ b ++ l2) = b.
Proof. unfold read_bytes, zlen. rewrite !Nat2Z.id, drop_app_length. apply take_app_length. Qed.

Lemma write_middle l1 b b' l2 : length b' = length b -> write_bytes (zlen l1) b' (l1 ++ b ++ l2) = l1 ++ b' ++ l2.
Proof.
  intros Hb. unfold write_bytes, zlen. rewrite Nat2Z.id, take_app_length, Hb, (app_assoc l1 b), <- length_app.
  by rewrite drop_app_length.
Qed.

Lemma scratch_end vars : zlen (vars_bytes vars) = foldr (fun t n => Z.of_nat (size_of t) + n) 0 (fst <$> vars).
Proof.
  induction vars as [| [t z] vars IH]; [done |]. unfold vars_bytes in *. rewrite fmap_cons. cbn [concat foldr fmap list_fmap fst].
  rewrite zlen_app, <- IH. unfold zlen at 1. by rewrite length_enc.
Qed.

Section Vars.
Context (tail : list Z).
Context (vars : list val) (i : nat) (v : val) (Hi : vars !! i = Some v).
Let off := zlen (vars_bytes (take i vars)).

Lemma vars_fits : 0 <= off /\ off + Z.of_nat (size_of (fst v)) <= zlen (vars_bytes vars ++ tail).
Proof using Hi.
  unfold off. rewrite (vars_bytes_middle vars i v Hi), !zlen_app. unfold zlen. rewrite length_enc. lia.
Qed.

Lemma vars_read : read_bytes off (Z.of_nat (size_of (fst v))) (vars_bytes vars ++ tail) = enc v.
Proof using Hi.
  unfold off. rewrite (vars_bytes_middle vars i v Hi), <- !app_assoc, <- length_enc. apply (read_middle _ (enc v)).
Qed.

Lemma vars_write v' :
  fst v' = fst v -> write_bytes off (enc v') (vars_bytes vars ++ tail) = vars_bytes (<[i := v']> vars) ++ tail.
Proof using Hi.
  intros Ht. pose proof (lookup_lt_Some _ _ _ Hi) as Hlt. rewrite insert_take_drop by done.
  unfold off. rewrite (vars_bytes_middle vars i v Hi), <- !app_assoc, write_middle by (by rewrite !length_enc, Ht).
  unfold vars_bytes. rewrite fmap_app, fmap_cons, concat_app. simpl. by rewrite <- !app_assoc.
Qed.

Lemma vars_types v' : fst v' = fst v -> fst <$> <[i := v']> vars = fst <$> vars.
Proof using Hi.
  intros Ht. rewrite list_fmap_insert. apply list_insert_id.
  rewrite Ht, (list_lookup_fmap fst vars i). exact (f_equal (fmap fst) Hi).
Qed.
End Vars.

(** ** The code *)

Section Layout.
(** The types of the locals and of the globals, and the instructions. *)
Context (lt gt : list value_type) (prog : list instr).

Definition type_of (ts : list value_type) (i : nat) : value_type := default WasmTypes.i32 (ts !! i).
Definition offset_of (i : nat) : Z := default 0 (local_offsets 0 lt !! i).

(** The scratch location follows the locals. *)
Definition scratch_offset : Z := foldr (fun t n => Z.of_nat (size_of t) + n) 0 lt.

(** The slots of an instruction; [pos] gives the slot that a jump goes to. *)
Definition emit (pos : nat -> nat) (i : instr) : list slot :=
  let target l := Imm (Z.of_nat (pos l)) in
  match i with
  | Const (t, z) => [Opfunc (uwvmint_const t); Imm (object_value t z)]
  | Drop [t] => [Opfunc (uwvmint_drop_typed t)]
  | Drop ts => [Opfunc uwvmint_drop_bytes; Imm (foldr (fun t n => Z.of_nat (size_of t) + n) 0 ts)]
  | Select t => [Opfunc (uwvmint_select_typed t)]
  | LocalGet i => [Opfunc (uwvmint_local_get_typed (type_of lt i)); Imm (offset_of i)]
  | LocalSet i => [Opfunc (uwvmint_local_set_typed (type_of lt i)); Imm (offset_of i)]
  | LocalTee i => [Opfunc (uwvmint_local_tee_typed (type_of lt i)); Imm (offset_of i)]
  | ScratchSet t => [Opfunc (uwvmint_local_set_typed t); Imm scratch_offset]
  | ScratchGet t => [Opfunc (uwvmint_local_get_typed t); Imm scratch_offset]
  | GlobalGet i => [Opfunc (uwvmint_global_get_typed (type_of gt i)); Imm (Z.of_nat i)]
  | GlobalSet i => [Opfunc (uwvmint_global_set_typed (type_of gt i)); Imm (Z.of_nat i)]
  | Unop wide op => [Opfunc (uwvmint_int_unop wide op)]
  | Binop wide op => [Opfunc (uwvmint_int_binop wide op)]
  | Relop wide op => [Opfunc (uwvmint_int_cmp wide op)]
  | Eqz wide => [Opfunc (uwvmint_int_eqz wide)]
  | Wrap => [Opfunc uwvmint_i32_wrap_i64]
  | Extend signed => [Opfunc (uwvmint_i64_extend_i32 signed)]
  | Trunc wide f signed => [Opfunc (uwvmint_trunc wide f signed)]
  | Reinterpret _ => [Opfunc uwvmint_reinterpret]
  | LoadV t mem offset => [Opfunc (uwvmint_load t); Imm (Z.of_nat mem); Imm offset]
  | LoadN wide n signed mem offset => [Opfunc (uwvmint_loadN wide n signed); Imm (Z.of_nat mem); Imm offset]
  | StoreV t mem offset => [Opfunc (uwvmint_store t); Imm (Z.of_nat mem); Imm offset]
  | StoreN wide n mem offset => [Opfunc (uwvmint_storeN wide n); Imm (Z.of_nat mem); Imm offset]
  | MemorySize mem => [Opfunc uwvmint_memory_size; Imm (Z.of_nat mem)]
  | MemoryGrow mem limit => [Opfunc uwvmint_memory_grow; Imm (Z.of_nat mem); Imm limit]
  | Br l => [Opfunc uwvmint_br; target l]
  | BrIf l => [Opfunc uwvmint_br_if; target l]
  | BrTable ls l => Opfunc uwvmint_br_table :: Imm (zlen ls) :: (target <$> ls) ++ [target l]
  | Return => [Opfunc uwvmint_return]
  | Unreachable => [Opfunc uwvmint_unreachable]
  end.

(** The slot that an instruction starts at. *)
Definition position (k : nat) : nat := length (concat (emit (fun _ => 0%nat) <$> take k prog)).
Definition code : list slot := concat (emit position <$> prog).

Lemma emit_length pos pos' i : length (emit pos i) = length (emit pos' i).
Proof.
  destruct i; simpl; try done; try (by repeat case_match).
  by rewrite !length_app, !length_fmap.
Qed.

Lemma emit_lengths pos pos' p : length (concat (emit pos <$> p)) = length (concat (emit pos' <$> p)).
Proof. induction p as [| i p IH]; [done |]. rewrite !fmap_cons. simpl. by rewrite !length_app, IH, (emit_length pos pos'). Qed.

Section At.
Context (k : nat) (i : instr) (Hi : prog !! k = Some i).

Lemma position_succ : position (S k) = (position k + length (emit position i))%nat.
Proof using Hi.
  unfold position. rewrite (take_S_r _ _ _ Hi), fmap_app, concat_app, length_app. simpl. rewrite app_nil_r.
  by rewrite (emit_length _ position).
Qed.

Lemma fetch j s : emit position i !! j = Some s -> code !! (position k + j)%nat = Some s.
Proof using Hi.
  intros Hs. unfold code. rewrite <- (take_drop_middle prog k i Hi) at 1. rewrite fmap_app, concat_app.
  unfold position at 1. rewrite (emit_lengths _ position).
  rewrite lookup_app_r, Nat.add_sub_swap, Nat.sub_diag, fmap_cons by lia. simpl.
  rewrite lookup_app_l; [done |]. by apply lookup_lt_Some in Hs.
Qed.
End At.

(** ** Representation *)

(** Slots that mean what the specification means: the value of a constant and the offset of an
    access are of their types, an access has the width of an instruction, and the limit in the slot
    of [memory.grow] is what a 32-bit address and a 32-bit page count reach. The translator also
    emits [memory.grow] with the limit [SIZE_MAX], for a memory without a declared maximum; that
    instruction is excluded here. *)
Definition instr_ok (pss : list Z) (i : instr) : Prop :=
  match i with
  | Const v => val_ok v
  | LoadV _ _ offset | StoreV _ _ offset => 0 <= offset < 2 ^ 32
  | LoadN wide n _ _ offset | StoreN wide n _ offset =>
      0 <= offset < 2 ^ 32 /\ (0 < n)%nat /\ 8 * Z.of_nat n < bit_width (int_ty wide)
  | MemoryGrow mem limit =>
      0 <= limit <= 2 ^ 32 /\ forall ps, pss !! mem = Some ps -> limit < 2 ^ 32 * ps
  | _ => True
  end.

Definition global_rep (v : val) (storage : list Z) : Prop :=
  val_ok v /\ exists rest, storage = enc v ++ rest.

Record mem_rep (mem : list Z * Z) (m : linear_memory) : Prop := {
  rep_wf : memory_wf m (fst mem);
  rep_bytes : Forall byte_ok (fst mem);
  rep_page : snd mem = 2 ^ custom_page_size_log2 m;
  rep_index : zlen (fst mem) <= 2 ^ 32;
  rep_count : zlen (fst mem) < 2 ^ 32 * snd mem;
}.

(** The bytes after the locals, and what they say about the scratch location. *)
Definition scratch_rep (tmp : option val) (tail : list Z) : Prop :=
  8 <= zlen tail /\ match tmp with Some v => val_ok v /\ exists rest, tail = enc v ++ rest | None => True end.

Record rep (c : config) (m : machine) : Prop := {
  rep_ip : ip m = position <$> pc c;
  rep_operands : operands m = stack_bytes (stack c);
  rep_stack : Forall val_ok (stack c);
  rep_locals : exists tail, locals m = vars_bytes (vars c) ++ tail /\ scratch_rep (scratch c) tail;
  rep_vars : Forall val_ok (vars c);
  rep_types : fst <$> vars c = lt;
  rep_globals : Forall2 global_rep (globs c) (globals m);
  rep_gtypes : fst <$> globs c = gt;
  rep_memories : Forall2 mem_rep (mems c) (memories m);
}.

(** What the machine does is one of the results. *)
Definition fault_of (h : halt) (f : fault) : Prop :=
  match h, f with
  | trap_of t, FTrap t' => t = t'
  | trap_memory_out_of_bounds _, FOutOfBounds => True
  | trap_unreachable, FUnreachable => True
  | process_end s, FExhausted => s = fast_terminate
  | _, _ => False
  end.

Definition simulates (r : outcome halt (unit * machine)) (rs : list result) : Prop :=
  match r with
  | Done (_, m) => exists c, In (Next c) rs /\ rep c m
  | Thrown h => exists f, In (Fault f) rs /\ fault_of h f
  | _ => False
  end.
End Layout.

(** The page count as the value of an [i32]. *)
Section Pages.
Context (m : linear_memory) (bytes : list Z) (ps : Z) (R : mem_rep (bytes, ps) m).

Lemma page_size_pos : 0 < ps.
Proof using R. pose proof (rep_page _ _ R) as E. cbn [snd] in E. rewrite E. apply (page_pos m bytes (rep_wf _ _ R)). Qed.

Lemma page_count : get_page_size m = zlen bytes / ps.
Proof using R. pose proof (rep_page _ _ R) as E. cbn [snd] in E. by rewrite E, (wf_get_page_size m bytes (rep_wf _ _ R)). Qed.

Lemma page_count_ok : val_ok (WasmTypes.i32, zlen bytes / ps).
Proof using R.
  pose proof page_size_pos. pose proof (rep_count _ _ R) as Hc. cbn [fst snd] in Hc. pose proof (zlen_nonneg bytes).
  split; cbn [fst snd bit_width]; [apply Z.div_pos; lia | apply Z.div_lt_upper_bound; lia].
Qed.

Lemma page_count_value : to_signed 32 (u32 (get_page_size m)) = object_value WasmTypes.i32 (zlen bytes / ps).
Proof using R. rewrite page_count. unfold u32, wrap. rewrite Z.mod_small; [done | apply page_count_ok]. Qed.
(** A growth refused in advance is one beyond the limit. *)
Lemma definitely_fails_eq limit d :
  0 <= limit <= 2 ^ 32 -> 0 <= d ->
  memory_grow_definitely_fails m limit d = (limit <? zlen bytes + d * ps, zlen bytes / ps).
Proof using R.
  intros Hl Hd. unfold memory_grow_definitely_fails. rewrite (proj2 (Z.eqb_neq _ _)) by (unfold size_t_max; lia).
  pose proof (rep_page _ _ R) as E. cbn [snd] in E. pose proof page_size_pos as Hps. pose proof (zlen_nonneg bytes).
  f_equal; [| apply page_count]. rewrite (pages_exceed m bytes (rep_wf _ _ R)) by (unfold size_t_max; lia). by rewrite <- E.
Qed.

Context (A : allocator) `{!AllocatorLaws A}.

(** A growth within the limit adds zero bytes, unless the allocator fails. *)
Lemma grow_within (strict : bool) limit d :
  0 <= limit <= 2 ^ 32 -> limit < 2 ^ 32 * ps -> 0 <= d -> zlen bytes + d * ps <= limit ->
  let f := if strict then grow_strictly A d limit else try_grow_silently A d limit in
  (exists m', f m = Done ((true, Some (zlen bytes / ps)), m') /\ mem_rep (bytes ++ replicate (Z.to_nat (d * ps)) 0, ps) m') \/
  (if strict then exists o, f m = Done ((false, o), m) else f m = Thrown fast_terminate).
Proof using R AllocatorLaws0.
  intros Hl Hlp Hd Hfit f. pose proof (rep_page _ _ R) as E. cbn [snd] in E.
  pose proof (grow_fits A m bytes (rep_wf _ _ R) strict limit d ltac:(unfold size_t_max; lia) Hd) as G.
  cbv zeta in G. rewrite <- E, page_count in G. destruct (G Hfit) as [(m' & Hf & W & _ & Hlog) | [Hf _]]; [left | by right].
  exists m'. split; [done |]. unfold zero_bytes in W. rewrite <- E in W.
  pose proof page_size_pos. assert (zlen (bytes ++ replicate (Z.to_nat (d * ps)) 0) = zlen bytes + d * ps) as Hlen.
  { rewrite zlen_app. f_equal. apply zlen_zero_bytes. nia. }
  constructor; cbn [fst snd]; rewrite ?Hlen; [done | | by rewrite Hlog | lia | lia].
  apply Forall_app_2; [apply (rep_bytes _ _ R) |]. by apply Forall_replicate.
Qed.
End Pages.
