(* ===== verification/InterpreterCorrect.v ===== *)
(** * Correctness of the interpreter

    Every [opfunc] does on the bytes what flat WebAssembly does on typed values, one lemma per
    group of instructions. *)

From stdpp Require Import base list numbers.
From Stdlib Require Import ZArith Lia.
From S2P Require Import Prelude IeeeBits IntegerSpec WasmTypes NumericOps NumericTheorems LinearMemory LinearMemoryCorrect.
From S2P Require Import Interpreter FlatWasm InterpreterRep.
Open Scope Z_scope.

Section Sim.
Context (lt gt : list value_type) (prog : list instr).
Context (A : allocator) (strict multi : bool).
Context (vars globs : list val) (mems : list (list Z * Z)) (g : list (list Z)) (ms : list linear_memory).
Context (tmp : option val) (tail : list Z) (Htmp : scratch_rep tmp tail).
Context (Hvars : Forall val_ok vars) (Hlt : fst <$> vars = lt).
Context (Hg : Forall2 global_rep globs g) (Hgt : fst <$> globs = gt) (Hms : Forall2 mem_rep mems ms).
#[local] Notation pos := (position lt gt prog).
#[local] Notation code := (InterpreterRep.code lt gt prog).
#[local] Notation M p st := (Machine (Some p) (stack_bytes st) (vars_bytes vars ++ tail) g ms).
#[local] Notation sim := (simulates lt gt prog).

(** The machine goes on at instruction [k] with the stack [st]. *)
Lemma sim_next p k st rs :
  p = pos k -> Forall val_ok st -> In (Next (Config (Some k) st vars tmp globs mems)) rs -> sim (Done (tt, M p st)) rs.
Proof using Htmp Hvars Hlt Hg Hgt Hms.
  intros -> Hst Hin. exists (Config (Some k) st vars tmp globs mems). split; [done |]. constructor; try done. by exists tail.
Qed.

Lemma sim_fault h f rs : fault_of h f -> In (Fault f) rs -> sim (Thrown h) rs.
Proof using. intros Hf Hin. by exists f. Qed.

Context (k : nat) (st : list val) (Hst : Forall val_ok st).
#[local] Notation c := (Config (Some k) st vars tmp globs mems).

(** Running the slot of instruction [i] amounts to running its [opfunc] at the next slot. *)
Lemma exec_at i f rest :
  prog !! k = Some i -> emit lt gt pos i = Opfunc f :: rest ->
  exec_slot code A strict multi (pos k) (M (pos k) st) = exec_opfunc code A strict multi f (M (pos k) st) /\
  pos (S k) = (pos k + S (length rest))%nat /\
  forall j s, rest !! j = Some s -> code !! (S (pos k) + j)%nat = Some s.
Proof using.
  intros Hi He. pose proof (fetch lt gt prog k i Hi) as Hf. rewrite He in Hf. split_and!.
  - unfold exec_slot. by rewrite <- (Nat.add_0_r (pos k)), (Hf 0%nat (Opfunc f) eq_refl).
  - by rewrite (position_succ lt gt prog k i Hi), He.
  - intros j s Hj. replace (S (pos k) + j)%nat with (pos k + S j)%nat by lia. by apply Hf.
Qed.
End Sim.

(** Starting the simulation of an instruction: its slots, and the first step. *)
Ltac start Hi He Hp Hc :=
  match goal with |- simulates ?lt ?gt ?prog (exec_slot _ ?A ?strict ?multi (position _ _ _ ?k) (Machine _ (stack_bytes ?st) (vars_bytes ?vars ++ ?tail) ?g ?ms)) _ =>
    destruct (exec_at lt gt prog A strict multi vars g ms tail k st _ _ _ Hi He) as (-> & Hp & Hc) end;
  unfold exec_opfunc; unfold next_slot at 1; rewrite bind_modify; unfold with_ip; cbn [ip operands Interpreter.locals Interpreter.globals memories fmap option_fmap option_map].

(** The machine is at the next instruction. *)
Ltac next Hp := eapply sim_next; [done.. | rewrite Hp; simpl; lia | repeat (apply List.Forall_cons; [done |]); try done | by left].

(** Reading the [j]th immediate. *)
Ltac imm Hc j := erewrite bind_imm by (etransitivity; [| exact (Hc j%nat _ eq_refl)]; f_equal; lia).

(** The values on the stack are values of their types. *)
Ltac operands_ok :=
  repeat match goal with H : Forall val_ok (_ :: _) |- _ => apply Forall_cons_1 in H as [? H] end.

Section Instructions.
Context (lt gt : list value_type) (prog : list instr).
Context (A : allocator) (strict multi : bool).
Context (vars globs : list val) (mems : list (list Z * Z)) (g : list (list Z)) (ms : list linear_memory).
Context (tmp : option val) (tail : list Z) (Htmp : scratch_rep tmp tail).
Context (Hvars : Forall val_ok vars) (Hlt : fst <$> vars = lt).
Context (Hg : Forall2 global_rep globs g) (Hgt : fst <$> globs = gt) (Hms : Forall2 mem_rep mems ms).
#[local] Notation pos := (position lt gt prog).
#[local] Notation code := (InterpreterRep.code lt gt prog).
#[local] Notation M p st := (Machine (Some p) (stack_bytes st) (vars_bytes vars ++ tail) g ms).
#[local] Notation sim := (simulates lt gt prog).
Context (k : nat).
#[local] Notation simulated i :=
  (forall st, Forall val_ok st -> prog !! k = Some i ->
   step_instr k i (Config (Some k) st vars tmp globs mems) <> [] ->
   sim (exec_slot code A strict multi (pos k) (M (pos k) st)) (step_instr k i (Config (Some k) st vars tmp globs mems))).

Lemma local_facts n v :
  vars !! n = Some v -> type_of lt n = fst v /\ offset_of lt n = zlen (vars_bytes (take n vars)).
Proof using Hlt.
  intros Hv. unfold type_of, offset_of. rewrite <- Hlt, (local_offset 0 vars n v Hv), (list_lookup_fmap fst vars n).
  split; [exact (f_equal (fun o => default WasmTypes.i32 (fst <$> o)) Hv) | simpl; lia].
Qed.

(** *** Constants and the stack *)

Lemma sim_const v : val_ok v -> simulated (Const v).
Proof using Htmp Hvars Hlt Hg Hgt Hms.
  destruct v as [t z]. intros Hv st Hst Hi _. start Hi (eq_refl (emit lt gt pos (Const (t, z)))) Hp Hc. unfold exec_const.
  imm Hc 0%nat. rewrite run_push_value, object_value_bits by done. next Hp.
Qed.

Lemma sim_drop ts : simulated (Drop ts).
Proof using Htmp Hvars Hlt Hg Hgt Hms.
  intros st Hst Hi. simpl. destruct (drop_values ts st) as [st' |] eqn:Hd; [| done]. intros _.
  destruct (drop_values_bytes _ _ _ Hd) as ((b & Hb & Hlen) & Hok). specialize (Hok Hst).
  destruct ts as [| t [| t2 ts]].
  - start Hi (eq_refl (emit lt gt pos (Drop []))) Hp Hc. unfold exec_drop_bytes. imm Hc 0%nat. rewrite Hb.
    erewrite bind_done by (apply pop_app; simpl in *; lia). next Hp.
  - start Hi (eq_refl (emit lt gt pos (Drop [t]))) Hp Hc. unfold exec_drop_typed. rewrite Hb.
    erewrite bind_done by (apply pop_app; simpl in *; lia). next Hp.
  - start Hi (eq_refl (emit lt gt pos (Drop (t :: t2 :: ts)))) Hp Hc. unfold exec_drop_bytes. imm Hc 0%nat. rewrite Hb.
    erewrite bind_done by (apply pop_app; lia). next Hp.
Qed.

Lemma sim_select t : simulated (Select t).
Proof using Htmp Hvars Hlt Hg Hgt Hms.
  intros st Hst Hi. simpl. destruct st as [| [[] b] [| [t2 v2] [| [t1 v1] st]]]; try done.
  destruct decide as [[-> ->] |]; [| done]. intros _. operands_ok.
  start Hi (eq_refl (emit lt gt pos (Select t))) Hp Hc. unfold exec_select_typed.
  rewrite bind_pop, (bind_pop_bytes _ _ _ _ (t, v2)), (bind_pop_bytes _ _ _ _ (t, v1)) by done.
  rewrite (object_value_zero false) by done. destruct (b =? 0); simpl negb; cbv iota; rewrite run_push; next Hp.
Qed.

(** *** Variables *)

Lemma sim_local_get n : simulated (LocalGet n).
Proof using Htmp Hvars Hlt Hg Hgt Hms.
  intros st Hst Hi. simpl. destruct (vars !! n) as [v |] eqn:Hv; [| done]. intros _.
  start Hi (eq_refl (emit lt gt pos (LocalGet n))) Hp Hc. unfold exec_local_get_typed. imm Hc 0%nat. rewrite bind_get.
  destruct (local_facts n v Hv) as (-> & ->). cbn [locals]. destruct (vars_fits tail vars n v Hv) as [_ Hfit].
  rewrite (proj2 (Z.leb_le _ _)), (vars_read tail vars n v Hv), run_push by lia.
  pose proof (Forall_lookup_1 _ _ _ _ Hvars Hv). next Hp.
Qed.

(** A write to the local [n] of a value of its type. *)
Lemma store_local_sim n v v' p (st : list val) rs :
  vars !! n = Some v -> fst v' = fst v -> val_ok v' -> Forall val_ok st -> p = pos (S k) ->
  In (Next (Config (Some (S k)) st (<[n := v']> vars) tmp globs mems)) rs ->
  sim (store_local (offset_of lt n) (enc v') (M p st)) rs.
Proof using Htmp Hvars Hlt Hg Hgt Hms.
  intros Hv Ht Hok Hst Hp Hin. unfold store_local. rewrite bind_get. cbn [locals].
  destruct (local_facts n v Hv) as (_ & ->). destruct (vars_fits tail vars n v Hv) as [_ Hfit].
  rewrite (proj2 (Z.leb_le _ _)) by (unfold zlen at 2; rewrite length_enc, Ht; lia).
  unfold sm_modify, with_locals. cbn [ip operands locals globals memories].
  rewrite (vars_write tail vars n v Hv v' Ht). eapply sim_next; try done; [by apply Forall_insert |].
  by rewrite (vars_types vars n v Hv v' Ht).
Qed.

Lemma sim_local_set n : simulated (LocalSet n).
Proof using Htmp Hvars Hlt Hg Hgt Hms.
  intros st Hst Hi. simpl. destruct st as [| [t z] st]; [done |]. destruct (vars !! n) as [[t' z'] |] eqn:Hv; [| done].
  destruct decide as [-> |]; [| done]. intros _. operands_ok.
  start Hi (eq_refl (emit lt gt pos (LocalSet n))) Hp Hc. unfold exec_local_set_typed. imm Hc 0%nat.
  rewrite (bind_pop_bytes _ _ _ _ (t, z)) by (by rewrite (proj1 (local_facts n _ Hv))).
  eapply store_local_sim; first [done | by left | rewrite Hp; simpl; lia].
Qed.

Lemma sim_local_tee n : simulated (LocalTee n).
Proof using Htmp Hvars Hlt Hg Hgt Hms.
  intros st Hst Hi. simpl. destruct st as [| [t z] st]; [done |]. destruct (vars !! n) as [[t' z'] |] eqn:Hv; [| done].
  destruct decide as [-> |]; [| done]. intros _. operands_ok.
  start Hi (eq_refl (emit lt gt pos (LocalTee n))) Hp Hc. unfold exec_local_tee_typed. imm Hc 0%nat.
  rewrite (bind_pop_bytes _ _ _ _ (t, z)) by (by rewrite (proj1 (local_facts n _ Hv))).
  erewrite bind_done by apply run_push.
  eapply store_local_sim; first [done | by constructor | by left | rewrite Hp; simpl; lia].
Qed.

(** *** The scratch location *)

Lemma scratch_at : scratch_offset lt = zlen (vars_bytes vars).
Proof using Hlt. unfold scratch_offset. by rewrite scratch_end, Hlt. Qed.

Lemma sim_scratch_get t : simulated (ScratchGet t).
Proof using Htmp Hvars Hlt Hg Hgt Hms.
  intros st Hst Hi. simpl. destruct tmp as [[t' z] |] eqn:Et; [| done]. destruct decide as [-> |]; [| done]. intros _.
  start Hi (eq_refl (emit lt gt pos (ScratchGet t))) Hp Hc. unfold exec_local_get_typed. imm Hc 0%nat. rewrite bind_get.
  pose proof Htmp as [Hlen [Hok [rest Hrest]]]. cbn [locals]. rewrite scratch_at.
  rewrite (proj2 (Z.leb_le _ _)) by (rewrite zlen_app; destruct t; simpl; lia).
  rewrite Hrest. replace (Z.of_nat (size_of t)) with (zlen (enc (t, z))) by (unfold zlen; by rewrite length_enc).
  rewrite read_middle, run_push. rewrite <- Hrest. next Hp.
Qed.

Lemma sim_scratch_set t : simulated (ScratchSet t).
Proof using Htmp Hvars Hlt Hg Hgt Hms.
  intros st Hst Hi. simpl. destruct st as [| [t' z] st]; [done |]. destruct decide as [-> |]; [| done]. intros _. operands_ok.
  start Hi (eq_refl (emit lt gt pos (ScratchSet t))) Hp Hc. unfold exec_local_set_typed. imm Hc 0%nat.
  rewrite (bind_pop_bytes _ _ _ _ (t, z)) by done. unfold store_local. rewrite bind_get. cbn [locals].
  destruct Htmp as [Hlen _]. rewrite scratch_at. pose proof (length_enc (t, z)) as Hl. simpl in Hl.
  assert (size_of t <= 8)%nat as H8 by (destruct t; simpl; lia).
  rewrite (proj2 (Z.leb_le _ _)) by (rewrite zlen_app; unfold zlen in *; lia).
  unfold sm_modify, with_locals. cbn [ip operands locals globals memories].
  rewrite <- (take_drop (length (enc (t, z))) tail), write_middle by (rewrite length_take; unfold zlen in *; lia).
  exists (Config (Some (S k)) st vars (Some (t, z)) globs mems). split; [by left |]. constructor; try done.
  - simpl. rewrite Hp. f_equal. simpl. lia.
  - eexists. split; [done |]. split; [| split; [done | by eexists]].
    rewrite zlen_app. unfold zlen in *. rewrite length_drop. lia.
Qed.

(** The storage of a global. *)
Lemma global_storage n v :
  globs !! n = Some v ->
  type_of gt n = fst v /\ val_ok v /\ exists rest, g !! n = Some (enc v ++ rest) /\
  forall o l p (B : Type) (K : list Z -> Run B),
    (global_at (Z.of_nat n) (size_of (fst v)) ≫= K) (Machine p o l g ms) = K (enc v ++ rest) (Machine p o l g ms).
Proof using Hg Hgt.
  intros Hv. destruct (Forall2_lookup_l _ _ _ _ _ Hg Hv) as (storage & Hs & Hok & rest & ->). split_and!; [| done |].
  - unfold type_of. rewrite <- Hgt, (list_lookup_fmap fst globs n). exact (f_equal (fun o => default WasmTypes.i32 (fst <$> o)) Hv).
  - exists rest. split; [done |]. intros. unfold global_at. rewrite sm_bind_assoc, bind_get. cbn [globals].
    rewrite Nat2Z.id, Hs, length_app, length_enc. by rewrite (proj2 (Nat.leb_le _ _)) by lia.
Qed.

Lemma sim_global_get n : simulated (GlobalGet n).
Proof using Htmp Hvars Hlt Hg Hgt Hms.
  intros st Hst Hi. simpl. destruct (globs !! n) as [v |] eqn:Hv; [| done]. intros _.
  destruct (global_storage n v Hv) as (Ht & Hok & rest & _ & Hat).
  start Hi (eq_refl (emit lt gt pos (GlobalGet n))) Hp Hc. unfold exec_global_get_typed. imm Hc 0%nat.
  rewrite Ht, Hat, <- length_enc, take_app_length, run_push. next Hp.
Qed.

Lemma sim_global_set n : simulated (GlobalSet n).
Proof using Htmp Hvars Hlt Hg Hgt Hms.
  intros st Hst Hi. simpl. destruct st as [| [t z] st]; [done |]. destruct (globs !! n) as [[t' z'] |] eqn:Hv; [| done].
  destruct decide as [-> |]; [| done]. intros _. operands_ok.
  destruct (global_storage n _ Hv) as (Ht & _ & rest & Hs & Hat). simpl in Ht, Hat.
  start Hi (eq_refl (emit lt gt pos (GlobalSet n))) Hp Hc. unfold exec_global_set_typed. imm Hc 0%nat.
  rewrite Ht, (bind_pop_bytes _ _ _ _ (t, z)), Hat by done. rewrite Nat2Z.id.
  replace (size_of t) with (length (enc (t, z'))) by apply length_enc. rewrite drop_app_length.
  unfold sm_modify, with_globals. cbn [ip operands locals globals memories].
  eapply sim_next with (globs := <[n := (t, z)]> globs); try done.
  - apply Forall2_insert; [done |]. split; [done | by exists rest].
  - by rewrite (vars_types globs n _ Hv).
  - rewrite Hp. simpl. lia.
  - by left.
Qed.

(** *** Numeric instructions *)


(** *** Numeric instructions *)

Lemma sim_unop wide op : simulated (Unop wide op).
Proof using Htmp Hvars Hlt Hg Hgt Hms.
  intros st Hst Hi. simpl. destruct st as [| [t z] st]; [done |]. destruct decide as [-> |]; [| done]. intros _. operands_ok.
  start Hi (eq_refl (emit lt gt pos (Unop wide op))) Hp Hc. unfold exec_int_unop. rewrite int_type_eq, bind_pop by done.
  destruct (int_operand wide z) as [Hr Hw]; [done |].
  rewrite eval_int_unop_correct, Hw, run_push_value by (done || apply digits_cases).
  pose proof (unop_ok wide op z) as Hu. change (int_unop_spec (digits wide) op z) with (unop (digits wide) op z).
  rewrite digits_width, (val_ok_small _ _ Hu). next Hp.
Qed.

Lemma sim_binop wide op : simulated (Binop wide op).
Proof using Htmp Hvars Hlt Hg Hgt Hms.
  intros st Hst Hi. simpl. destruct st as [| [t2 i2] [| [t1 i1] st]]; [done.. |]. destruct decide as [[-> ->] |]; [| done].
  intros _. operands_ok. start Hi (eq_refl (emit lt gt pos (Binop wide op))) Hp Hc. unfold exec_int_binop.
  rewrite int_type_eq, !bind_pop by done.
  destruct (int_operand wide i1) as [Hr1 Hw1]; [done |]. destruct (int_operand wide i2) as [Hr2 Hw2]; [done |].
  pose proof (eval_int_binop_correct (digits wide) op _ _ (digits_cases wide) Hr1 Hr2) as He. revert He.
  unfold evaluates. rewrite Hw1, Hw2, object_value_zero by done. unfold partial.
  change (int_binop_spec (digits wide) op i1 i2) with (binop (digits wide) op i1 i2). rewrite <- digits_width.
  destruct eval_int_binop as [v | tr]; simpl push_evaluation.
  - intros [Hv ->]. rewrite run_push_value, <- digits_width. unfold wrap. pose proof (mod_ok (int_ty wide) v) as Hok.
    rewrite <- digits_width in Hok. next Hp.
  - intros [-> ->]. eapply sim_fault; [| by left]. done.
Qed.

Lemma sim_relop wide op : simulated (Relop wide op).
Proof using Htmp Hvars Hlt Hg Hgt Hms.
  intros st Hst Hi. simpl. destruct st as [| [t2 i2] [| [t1 i1] st]]; [done.. |]. destruct decide as [[-> ->] |]; [| done].
  intros _. operands_ok. start Hi (eq_refl (emit lt gt pos (Relop wide op))) Hp Hc. unfold exec_int_cmp.
  rewrite int_type_eq, !bind_pop by done.
  destruct (int_operand wide i1) as [Hr1 Hw1]; [done |]. destruct (int_operand wide i2) as [Hr2 Hw2]; [done |].
  rewrite (int_cmp_correct (digits wide) op _ _ (digits_cases wide) Hr1 Hr2), Hw1, Hw2, run_push_value.
  change (match op with icmp_eq => _ | _ => _ end) with (relop (digits wide) op i1 i2). rewrite <- digits_width.
  pose proof (bool_ok (relop (digits wide) op i1 i2)) as Hb. rewrite (bool_small (relop _ _ _ _)). next Hp.
Qed.

Lemma sim_eqz wide : simulated (Eqz wide).
Proof using Htmp Hvars Hlt Hg Hgt Hms.
  intros st Hst Hi. simpl. destruct st as [| [t z] st]; [done |]. destruct decide as [-> |]; [| done]. intros _. operands_ok.
  start Hi (eq_refl (emit lt gt pos (Eqz wide))) Hp Hc. unfold exec_int_eqz.
  rewrite int_type_eq, bind_pop, object_value_zero, run_push_value, bool_small by done.
  pose proof (bool_ok (z =? 0)). next Hp.
Qed.

Lemma sim_wrap : simulated Wrap.
Proof using Htmp Hvars Hlt Hg Hgt Hms.
  intros st Hst Hi. simpl. destruct st as [| [[] z] st]; try done. intros _. operands_ok.
  start Hi (eq_refl (emit lt gt pos Wrap)) Hp Hc. unfold exec_i32_wrap_i64. rewrite bind_pop by done.
  destruct (int_operand true z) as [_ Hw]; [done |]. change (wrap 64 (object_value WasmTypes.i64 z) = z) in Hw. rewrite Hw. unfold u32.
  change (to_signed 32 (wrap 32 z)) with (object_value WasmTypes.i32 (wrap 32 z)). rewrite run_push_value, (object_value_bits WasmTypes.i32 (wrap 32 z)) by apply mod_ok.
  pose proof (mod_ok WasmTypes.i32 z). next Hp.
Qed.

Lemma sim_extend signed : simulated (Extend signed).
Proof using Htmp Hvars Hlt Hg Hgt Hms.
  intros st Hst Hi. simpl. destruct st as [| [[] z] st]; try done. intros _. operands_ok.
  start Hi (eq_refl (emit lt gt pos (Extend signed))) Hp Hc. unfold exec_i64_extend_i32. rewrite bind_pop, run_push_value by done.
  destruct signed.
  - pose proof (mod_ok WasmTypes.i64 (object_value WasmTypes.i32 z)). next Hp.
  - destruct (int_operand false z) as [_ Hw]; [done |]. change (u32 (object_value WasmTypes.i32 z) = z) in Hw. rewrite Hw.
    assert (0 <= z < 2 ^ 32) as Hz by done. rewrite Z.mod_small by (simpl bit_width; lia).
    assert (val_ok (WasmTypes.i64, z)) by (unfold val_ok; simpl; lia). next Hp.
Qed.

Lemma sim_reinterpret to : simulated (Reinterpret to).
Proof using Htmp Hvars Hlt Hg Hgt Hms.
  intros st Hst Hi. simpl. destruct st as [| [t z] st]; [done |]. destruct (Z.eqb_spec (bit_width to) (bit_width t)) as [E |]; [| done].
  intros _. operands_ok. start Hi (eq_refl (emit lt gt pos (Reinterpret to))) Hp Hc.
  assert (val_ok (to, z)) by (unfold val_ok in *; simpl in *; by rewrite E).
  match goal with |- context [stack_bytes ?s] => replace (stack_bytes s) with (stack_bytes ((to, z) :: st)) end; [next Hp |].
  simpl. f_equal. unfold enc. simpl. f_equal. rewrite !bit_width_size in E. lia.
Qed.

Lemma sim_trunc wide f signed : simulated (Trunc wide f signed).
Proof using Htmp Hvars Hlt Hg Hgt Hms.
  intros st Hst Hi. cbn [step_instr stack]. destruct st as [| [t x] st]; [done |]. destruct decide as [-> |]; [| done].
  intros _. operands_ok. start Hi (eq_refl (emit lt gt pos (Trunc wide f signed))) Hp Hc. unfold exec_trunc.
  replace (float_type f) with (float_ty f) by (by destruct f). rewrite int_type_eq, bind_pop by done.
  assert (object_value (float_ty f) x = x) as -> by (by destruct f).
  assert (encoding f x) as Hx by (destruct f; assumption).
  destruct (trunc_float_spec f (digits wide) x (digits_cases wide) Hx) as [-> ->]. rewrite <- !digits_width.
  unfold trunc_spec, numeric_min, numeric_max. set (n := Z.quot (value f x) (unit_value f)).
  pose proof (mod_ok (int_ty wide) n) as Hok. rewrite <- digits_width in Hok. cbv zeta.
  destruct (is_nan f x); simpl negb; [rewrite andb_false_l; destruct signed; (eapply sim_fault; [| by left]; done) |].
  rewrite andb_true_l. destruct signed.
  - destruct (_ && _); simpl push_evaluation; [| eapply sim_fault; [| by left]; done].
    rewrite run_push_value, <- digits_width. next Hp.
  - destruct (Z.leb_spec 0 n), (Z.leb_spec n (2 ^ digits wide - 1)); simpl andb; cbv iota; simpl push_evaluation;
      try (eapply sim_fault; [| by left]; done).
    destruct (from_to_unsigned (digits wide) (digits_cases wide) n ltac:(lia)) as [_ Hw].
    unfold from_unsigned_bits, wrap in Hw. rewrite run_push_value, <- digits_width, Hw.
    rewrite (Z.mod_small n) in * by lia. next Hp.
Qed.

(** *** Control *)

Lemma sim_br l : simulated (Br l).
Proof using Htmp Hvars Hlt Hg Hgt Hms.
  intros st Hst Hi _. start Hi (eq_refl (emit lt gt pos (Br l))) Hp Hc. unfold exec_br. imm Hc 0%nat.
  unfold jump, sm_modify, with_ip. rewrite Nat2Z.id. eapply sim_next; try done. by left.
Qed.

Lemma sim_br_if l : simulated (BrIf l).
Proof using Htmp Hvars Hlt Hg Hgt Hms.
  intros st Hst Hi. simpl. destruct st as [| [[] b] st]; try done. intros _. operands_ok.
  start Hi (eq_refl (emit lt gt pos (BrIf l))) Hp Hc. unfold exec_br_if. imm Hc 0%nat.
  rewrite bind_pop, (object_value_zero false) by done. destruct (b =? 0); simpl negb; cbv iota; [next Hp |].
  unfold jump, sm_modify, with_ip. rewrite Nat2Z.id. eapply sim_next; try done. by left.
Qed.

Lemma sim_br_table ls l : simulated (BrTable ls l).
Proof using Htmp Hvars Hlt Hg Hgt Hms.
  intros st Hst Hi. simpl. destruct st as [| [[] i] st]; try done. intros _. operands_ok.
  start Hi (eq_refl (emit lt gt pos (BrTable ls l))) Hp Hc. unfold exec_br_table. imm Hc 0%nat.
  rewrite bind_pop, bind_get by done. destruct (int_operand false i) as [_ Hw]; [done |].
  change (u32 (object_value WasmTypes.i32 i) = i) in Hw. rewrite Hw.
  assert (0 <= i) by (by match goal with H : val_ok (_, i) |- _ => destruct H end).
  assert ((((fun l => Imm (Z.of_nat (pos l))) <$> ls) ++ [Imm (Z.of_nat (pos l))]) !! Z.to_nat (Z.min (zlen ls) i) =
    Some (Imm (Z.of_nat (pos (default l (ls !! Z.to_nat i)))))) as Ht.
  { unfold zlen. destruct (ls !! Z.to_nat i) as [l' |] eqn:E.
    - pose proof (lookup_lt_Some _ _ _ E). rewrite Z.min_r, lookup_app_l by (rewrite ?length_fmap; lia).
      rewrite list_lookup_fmap. exact (f_equal (fmap _) E).
    - apply lookup_ge_None in E. rewrite Z.min_l, Nat2Z.id, lookup_app_r by (rewrite ?length_fmap; lia).
      by rewrite length_fmap, Nat.sub_diag. }
  assert (code !! (S (S (pos k)) + Z.to_nat (Z.min (zlen ls) i))%nat = Some (Imm (Z.of_nat (pos (default l (ls !! Z.to_nat i))))))
    as Hat by (etransitivity; [| exact (Hc (S _) _ Ht)]; f_equal; lia).
  cbn [ip mbind option_bind]. rewrite Hat.
  unfold jump, sm_modify, with_ip. rewrite Nat2Z.id. eapply sim_next; try done. by left.
Qed.

Lemma sim_return : simulated Return.
Proof using Htmp Hvars Hlt Hg Hgt Hms.
  intros st Hst Hi _. start Hi (eq_refl (emit lt gt pos Return)) Hp Hc. unfold exec_return, sm_modify, with_ip.
  exists (Config None st vars tmp globs mems). split; [by left |]. constructor; try done. by exists tail.
Qed.

Lemma sim_unreachable : simulated Unreachable.
Proof using Htmp Hvars Hlt Hg Hgt Hms.
  intros st Hst Hi _. start Hi (eq_refl (emit lt gt pos Unreachable)) Hp Hc. eapply sim_fault; [| by left]. done.
Qed.

(** *** Memories *)

Lemma memory_lookup mem bytes ps :
  mems !! mem = Some (bytes, ps) -> exists m, ms !! mem = Some m /\ mem_rep (bytes, ps) m.
Proof using Hms. intros Hm. destruct (Forall2_lookup_l _ _ _ _ _ Hms Hm) as (m & ? & ?). by exists m. Qed.

Lemma bind_memory_at mem m p st B (K : linear_memory -> Run B) :
  ms !! mem = Some m -> (memory_at (Z.of_nat mem) ≫= K) (M p st) = K m (M p st).
Proof using. intros Hm. unfold memory_at. rewrite sm_bind_assoc, bind_get. cbn [memories]. by rewrite Nat2Z.id, Hm. Qed.

(** The bounds check of an access of [n] bytes is exact, and what it lets through is inside
    the allocation. *)
Lemma bind_access m bytes ps base off n p st B (K : list Z -> Run B) :
  mem_rep (bytes, ps) m -> val_ok (WasmTypes.i32, base) -> 0 <= off < 2 ^ 32 -> (0 < n <= 8)%nat ->
  let eff65 := wasm32_effective_offset (object_value WasmTypes.i32 base) off in
  offset eff65 = base + off /\
  exists e, (check_memory_bounds_unlocked m off eff65 (Z.of_nat n);; buf ← allocation_at m (offset eff65) (Z.of_nat n); K buf) (M p st) =
    if zlen bytes <? base + off + Z.of_nat n then Thrown (trap_memory_out_of_bounds e) else K bytes (M p st).
Proof using.
  intros [W _ _ Hidx _] Hb Hoff Hn eff65. cbn [fst snd] in *. destruct (int_operand false base Hb) as [_ Hw].
  change (u32 (object_value WasmTypes.i32 base) = base) in Hw. assert (0 <= base < 2 ^ 32) as Hb' by exact Hb.
  assert (u32 off = off) as Ho by (apply Z.mod_small; lia).
  assert (wrap 64 (base + off) = base + off) as Hs by (apply Z.mod_small; lia).
  subst eff65. unfold wasm32_effective_offset. rewrite Hw, Ho, Hs. cbn [offset]. split; [done |].
  eexists. unfold check_memory_bounds_unlocked, allocation_at. cbn [offset offset_65_bit].
  rewrite (wf_length m bytes W), (wf_begin m bytes W). pose proof (zlen_nonneg bytes).
  match goal with |- ((if ?b then _ else _) ≫= _) _ = _ => replace b with (zlen bytes <? base + off + Z.of_nat n) end.
  - destruct (Z.ltb_spec (zlen bytes) (base + off + Z.of_nat n)); [done |]. rewrite bind_ret.
    by rewrite (proj2 (Z.leb_le _ _)) by lia.
  - destruct (Z.ltb_spec 4294967295 (base + off)); simpl orb; [lia |].
    destruct (Z.ltb_spec (zlen bytes) (Z.of_nat n)); simpl orb; [lia |].
    unfold uz, wrap. rewrite Z.mod_small by lia. lia.
Qed.

Lemma load_bytes_run mem bytes ps base off n i st B (K : list Z -> Run B) :
  mems !! mem = Some (bytes, ps) -> val_ok (WasmTypes.i32, base) -> 0 <= off < 2 ^ 32 -> (0 < n <= 8)%nat ->
  code !! i = Some (Imm (Z.of_nat mem)) -> code !! S i = Some (Imm off) ->
  exists e, (load_bytes code n ≫= K) (M i ((WasmTypes.i32, base) :: st)) =
    if zlen bytes <? base + off + Z.of_nat n then Thrown (trap_memory_out_of_bounds e)
    else K (read_bytes (base + off) (Z.of_nat n) bytes) (M (S (S i)) st).
Proof using Hms.
  intros Hm Hb Hoff Hn H1 H2. destruct (memory_lookup _ _ _ Hm) as (m & Hm' & R).
  unfold load_bytes. rewrite sm_bind_assoc, (bind_imm _ _ _ _ _ _ _ _ H1), sm_bind_assoc, (bind_imm _ _ _ _ _ _ _ _ H2).
  rewrite sm_bind_assoc, bind_pop, sm_bind_assoc, (bind_memory_at _ m) by done. cbv zeta.
  destruct (bind_access m bytes ps base off n (S (S i)) st B (fun buf => K (read_bytes (base + off) (Z.of_nat n) buf)) R Hb Hoff Hn) as (Hea & e & He).
  exists e. rewrite <- He, Hea, sm_bind_assoc. unfold mbind, sm_bind.
  destruct (check_memory_bounds_unlocked _ _ _ _ _) as [[[] m2] | | |]; [| done..].
  by destruct (allocation_at _ _ _ m2) as [[buf m3] | | |].
Qed.

(** A load that pushes the value [v] of the bytes it reads. *)
Lemma load_sim i body n mem off base st (f : Z -> val) (v : Z -> Z) t :
  prog !! k = Some i ->
  0 <= off < 2 ^ 32 -> (0 < n <= 8)%nat -> (forall z, 0 <= z < 2 ^ (8 * Z.of_nat n) -> f z = (t, v z mod 2 ^ bit_width t)) ->
  Forall val_ok ((WasmTypes.i32, base) :: st) ->
  body = (bytes ← load_bytes code n; push_value t (v (of_le bytes))) ->
  (forall j s, [Imm (Z.of_nat mem); Imm off] !! j = Some s -> code !! (S (pos k) + j)%nat = Some s) ->
  pos (S k) = (pos k + 3)%nat ->
  load (S k) (Config (Some k) ((WasmTypes.i32, base) :: st) vars tmp globs mems) st mem base off n f <> [] ->
  sim (body (M (S (pos k)) ((WasmTypes.i32, base) :: st)))
    (load (S k) (Config (Some k) ((WasmTypes.i32, base) :: st) vars tmp globs mems) st mem base off n f).
Proof using Htmp Hvars Hlt Hg Hgt Hms.
  intros Hi Hoff Hn Hf Hst -> Hc Hp. unfold load, access. cbn [FlatWasm.mems mbind option_bind].
  destruct (mems !! mem) as [[bytes ps] |] eqn:Hm; [| done]. intros _. operands_ok.
  destruct (load_bytes_run mem bytes ps base off n (S (pos k)) st unit (fun bytes => push_value t (v (of_le bytes)))
    Hm ltac:(done) Hoff Hn) as (e & ->).
  { rewrite <- (Nat.add_0_r (S (pos k))). by apply Hc. } { replace (S (S (pos k))) with (S (pos k) + 1)%nat by lia. by apply Hc. }
  cbn [mbind option_bind]. change (Z.of_nat (length bytes)) with (zlen bytes). destruct (Z.ltb_spec (zlen bytes) (base + off + Z.of_nat n)) as [| Hfit]; [by (eapply sim_fault; [| by left]) |].
  destruct (memory_lookup _ _ _ Hm) as (m & _ & R). pose proof (rep_bytes _ _ R) as Hby. simpl in Hby.
  assert (0 <= base < 2 ^ 32) as Hb by done.
  assert (read_bytes (base + off) (Z.of_nat n) bytes = take n (drop (Z.to_nat (base + off)) bytes)) as -> by (unfold read_bytes; by rewrite Nat2Z.id).
  set (l := take n _). assert (Forall byte_ok l) as Hl by (by apply Forall_take, Forall_drop).
  assert (zlen l = Z.of_nat n) as Hlen by (unfold l, zlen in *; rewrite length_take, length_drop; lia).
  pose proof (of_le_bounds l Hl) as Hz. rewrite Hlen in Hz.
  rewrite run_push_value. rewrite <- (of_le_number l), Hf by done. pose proof (mod_ok t (v (of_le l))).
  eapply sim_next; [done.. | rewrite Hp; lia | by constructor | by left].
Qed.

Lemma sim_load t mem off : 0 <= off < 2 ^ 32 -> simulated (LoadV t mem off).
Proof using Htmp Hvars Hlt Hg Hgt Hms.
  intros Hoff st Hst Hi. simpl. destruct st as [| [[] base] st]; try done. intros Hne.
  start Hi (eq_refl (emit lt gt pos (LoadV t mem off))) Hp Hc.
  assert (Z.to_nat (bit_width t / 8) = size_of t) as En by (by destruct t). rewrite En in *.
  eapply (load_sim _ _ _ _ _ _ _ _ (object_value t)); try done; [by destruct t; simpl; lia |].
  intros z Hz. by rewrite object_value_bits by (unfold val_ok; simpl; by rewrite bit_width_size).
Qed.

Lemma sim_loadN wide n signed mem off :
  0 <= off < 2 ^ 32 -> (0 < n)%nat -> 8 * Z.of_nat n < bit_width (int_ty wide) -> simulated (LoadN wide n signed mem off).
Proof using Htmp Hvars Hlt Hg Hgt Hms.
  intros Hoff Hn Hw st Hst Hi. simpl. destruct st as [| [[] base] st]; try done. intros Hne.
  start Hi (eq_refl (emit lt gt pos (LoadN wide n signed mem off))) Hp Hc.
  assert (Z.of_nat n < 8) by (destruct wide; simpl in Hw; lia).
  eapply (load_sim _ _ _ _ _ _ _ _ (fun z => if signed then to_signed (8 * Z.of_nat n) z else z) (int_ty wide)); try done; [lia |].
  intros z Hz. destruct signed; [done |]. rewrite Z.mod_small; [done |].
  destruct Hz as [Hz1 Hz2]. split; [done |]. apply (Z.lt_trans _ _ _ Hz2). apply Z.pow_lt_mono_r; [lia | by destruct wide | done].
Qed.

Lemma write_ok m bytes ps ea n v :
  mem_rep (bytes, ps) m -> 0 <= ea -> ea + Z.of_nat n <= zlen bytes ->
  mem_rep (write_bytes ea (le_bytes n v) bytes, ps) (with_bytes (write_bytes ea (le_bytes n v) bytes) m).
Proof using.
  intros [[W1 W2 W3 W4 W5 W6] R2 R3 R4 R5] Hea Hfit. cbn [fst snd] in *.
  assert (zlen (write_bytes ea (le_bytes n v) bytes) = zlen bytes) as Hl
    by (apply write_bytes_length; [done |]; unfold zlen at 1; by rewrite length_le_bytes).
  constructor; cbn [fst snd with_bytes custom_page_size_log2]; rewrite ?Hl; try done.
  - constructor; cbn [with_bytes memory_begin memory_length sequentially_consistent_size ordered_memory_length custom_page_size_log2];
      rewrite ?Hl; done.
  - unfold write_bytes. apply Forall_app_2; [by apply Forall_take |]. apply Forall_app_2; [apply le_bytes_ok | by apply Forall_drop].
Qed.

Lemma store_sim t z n mem off base st w :
  0 <= off < 2 ^ 32 -> (0 < n <= 8)%nat -> le_bytes n (object_value t z) = bytes_of n w ->
  Forall val_ok ((t, z) :: (WasmTypes.i32, base) :: st) ->
  (forall j s, [Imm (Z.of_nat mem); Imm off] !! j = Some s -> code !! (S (pos k) + j)%nat = Some s) ->
  pos (S k) = (pos k + 3)%nat ->
  let c := Config (Some k) ((t, z) :: (WasmTypes.i32, base) :: st) vars tmp globs mems in
  store (S k) c st mem base off n w <> [] ->
  sim (store_value code t n (M (S (pos k)) ((t, z) :: (WasmTypes.i32, base) :: st))) (store (S k) c st mem base off n w).
Proof using Htmp Hvars Hlt Hg Hgt Hms.
  intros Hoff Hn Hw Hst Hc Hp c. unfold store, access. cbn [FlatWasm.mems c].
  destruct (mems !! mem) as [[bytes ps] |] eqn:Hm; [| done]. intros _. operands_ok.
  destruct (memory_lookup _ _ _ Hm) as (m & Hm' & R). unfold store_value. imm Hc 0%nat. imm Hc 1%nat.
  rewrite !bind_pop, (bind_memory_at _ m) by done. cbv zeta.
  set (K := fun buf => set_memory (Z.of_nat mem)
    (with_bytes (write_bytes (base + off) (le_bytes n (object_value t z)) buf) m)).
  destruct (bind_access m bytes ps base off n (S (S (S (pos k)))) st unit K R ltac:(done) Hoff Hn) as (Hea & e & He).
  unfold K in He. rewrite <- Hea in He. cbv beta in He. rewrite He, Hea. clear He K. cbn [mbind option_bind].
  change (Z.of_nat (length bytes)) with (zlen bytes). assert (0 <= base < 2 ^ 32) as Hb by done.
  destruct (Z.ltb_spec (zlen bytes) (base + off + Z.of_nat n)) as [| Hfit]; [by (eapply sim_fault; [| by left]) |].
  pose proof (write_ok m bytes ps (base + off) n (object_value t z) R ltac:(lia) ltac:(lia)) as R'.
  unfold set_memory, sm_modify, with_memories. cbn [ip operands locals globals memories]. rewrite Nat2Z.id.
  eapply sim_next; [done.. | by apply Forall2_insert | rewrite Hp; lia | done |]. left. do 5 f_equal.
  unfold write_bytes. by rewrite length_le_bytes, Hw.
Qed.

Lemma sim_store t mem off : 0 <= off < 2 ^ 32 -> simulated (StoreV t mem off).
Proof using Htmp Hvars Hlt Hg Hgt Hms.
  intros Hoff st Hst Hi. simpl. destruct st as [| [t' z] [| [[] base] st]]; try done. destruct decide as [-> |]; [| done].
  intros Hne. assert (Z.to_nat (bit_width t / 8) = size_of t) as En by (by destruct t). rewrite En in *.
  start Hi (eq_refl (emit lt gt pos (StoreV t mem off))) Hp Hc.
  eapply store_sim; try done; [destruct t; simpl; lia |]. operands_ok.
  rewrite <- (le_bytes_mod (size_of t)), <- bit_width_size, object_value_bits by done. apply le_bytes_spec.
Qed.

Lemma sim_storeN wide n mem off :
  0 <= off < 2 ^ 32 -> (0 < n)%nat -> 8 * Z.of_nat n < bit_width (int_ty wide) -> simulated (StoreN wide n mem off).
Proof using Htmp Hvars Hlt Hg Hgt Hms.
  intros Hoff Hn Hw st Hst Hi. simpl. destruct st as [| [t' z] [| [[] base] st]]; try done. destruct decide as [-> |]; [| done].
  intros Hne. assert (Z.of_nat n < 8) by (destruct wide; simpl in Hw; lia).
  start Hi (eq_refl (emit lt gt pos (StoreN wide n mem off))) Hp Hc. unfold exec_storeN. rewrite int_type_eq.
  eapply store_sim; try done; [lia |]. operands_ok. rewrite <- le_bytes_spec, le_bytes_mod.
  rewrite <- (le_bytes_mod n (object_value _ _)). rewrite <- (object_value_bits (int_ty wide) z) at 2 by done.
  rewrite <- (le_bytes_mod n (_ mod 2 ^ bit_width _)). f_equal. symmetry.
  assert (0 < 2 ^ (8 * Z.of_nat n)) by apply pow_8_pos.
  replace (bit_width (int_ty wide)) with (8 * Z.of_nat n + (bit_width (int_ty wide) - 8 * Z.of_nat n)) by lia.
  rewrite Z.pow_add_r by lia. apply Z.mod_mod_divide. by exists (2 ^ (bit_width (int_ty wide) - 8 * Z.of_nat n)); lia.
Qed.

Lemma sim_memory_size mem : simulated (MemorySize mem).
Proof using Htmp Hvars Hlt Hg Hgt Hms.
  intros st Hst Hi. simpl. destruct (mems !! mem) as [[bytes ps] |] eqn:Hm; [| done]. intros _.
  destruct (memory_lookup _ _ _ Hm) as (m & Hm' & R).
  start Hi (eq_refl (emit lt gt pos (MemorySize mem))) Hp Hc. unfold exec_memory_size. imm Hc 0%nat.
  rewrite (bind_memory_at _ m), (page_count_value m bytes ps), run_push_value by done.
  pose proof (page_count_ok m bytes ps R) as Hok. fold (zlen bytes). 
  rewrite object_value_bits by done. next Hp.
Qed.

Lemma bind_on_memory {X B} mem m p st (f : SM linear_memory stop X) (K : X -> Run B) :
  ms !! mem = Some m ->
  (on_memory (Z.of_nat mem) f ≫= K) (M p st) =
    match f m with
    | Done (a, m') => K a (Machine (Some p) (stack_bytes st) (vars_bytes vars ++ tail) g (<[mem := m']> ms))
    | Thrown s => Thrown (process_end s)
    | Undefined => Undefined
    | OutOfFuel => OutOfFuel
    end.
Proof using.
  intros Hm. unfold on_memory. rewrite sm_bind_assoc, (bind_memory_at _ m) by done.
  destruct (f m) as [[a m'] | | |]; [| done..]. rewrite sm_bind_assoc. unfold set_memory. rewrite bind_modify, bind_ret.
  unfold with_memories. cbn [ip operands locals globals memories]. by rewrite Nat2Z.id.
Qed.

Lemma sim_memory_grow `{!AllocatorLaws A} mem limit :
  0 <= limit <= 2 ^ 32 -> (forall ps, (snd <$> mems) !! mem = Some ps -> limit < 2 ^ 32 * ps) -> simulated (MemoryGrow mem limit).
Proof using Htmp Hvars Hlt Hg Hgt Hms.
  intros Hl Hlp st Hst Hi. simpl. destruct st as [| [[] d] st]; try done. unfold grow. cbn [FlatWasm.mems].
  destruct (mems !! mem) as [[bytes ps] |] eqn:Hm; [| done]. intros _. operands_ok. destruct (memory_lookup _ _ _ Hm) as (m & Hm' & R).
  assert (limit < 2 ^ 32 * ps) as Hlim by (apply Hlp; rewrite (list_lookup_fmap snd mems mem); exact (f_equal (fmap snd) Hm)).
  assert (0 <= d < 2 ^ 32) as Hd by done. destruct (int_operand false d) as [_ Hw]; [done |].
  change (u32 (object_value WasmTypes.i32 d) = d) in Hw.
  start Hi (eq_refl (emit lt gt pos (MemoryGrow mem limit))) Hp Hc. unfold exec_memory_grow. imm Hc 0%nat. imm Hc 1%nat.
  rewrite bind_pop, (bind_memory_at _ m), Hw, (definitely_fails_eq m bytes ps R) by (done || lia). cbv zeta.
  change (Z.of_nat (length bytes)) with (zlen bytes).
  assert (forall p rs, p = pos (S k) -> In (goto (S k) ((WasmTypes.i32, 2 ^ 32 - 1) :: st) (Config (Some k) ((WasmTypes.i32, d) :: st) vars tmp globs mems)) rs ->
    sim (push_value WasmTypes.i32 (-1) (M p st)) rs) as Hfail.
  { intros p rs -> Hin. rewrite run_push_value. eapply sim_next; [done.. | | exact Hin]. by constructor. }
  destruct (Z.ltb_spec limit (zlen bytes + d * ps)) as [Hover | Hfit].
  { rewrite (proj2 (Z.leb_gt _ _)) by lia. apply Hfail; [rewrite Hp; simpl; lia | by left]. }
  rewrite (proj2 (Z.leb_le _ _)) by lia. 
  assert (forall m' rs, mem_rep (bytes ++ replicate (Z.to_nat (d * ps)) 0, ps) m' ->
    In (Next (Config (Some (S k)) ((WasmTypes.i32, zlen bytes / ps) :: st) vars tmp globs
      (<[mem := (bytes ++ replicate (Z.to_nat (d * ps)) 0, ps)]> mems))) rs ->
    sim (push_value WasmTypes.i32 (to_signed 32 (u32 (zlen bytes / ps)))
      (Machine (Some (S (S (S (pos k))))) (stack_bytes st) (vars_bytes vars ++ tail) g (<[mem := m']> ms))) rs) as Hdone.
  { intros m' rs R' Hin. pose proof (page_count_ok m bytes ps R) as Hok.
    rewrite <- (page_count m bytes ps R), (page_count_value m bytes ps R), run_push_value, object_value_bits by done.
    eapply sim_next; [done.. | by apply Forall2_insert | rewrite Hp; simpl; lia | by constructor | exact Hin]. }
  pose proof (fun b => grow_within m bytes ps R A b limit d Hl Hlim ltac:(lia) Hfit) as Hgrow. cbv zeta in Hgrow.
  assert (sim (Thrown (process_end fast_terminate)) ([Next (Config (Some (S k)) ((WasmTypes.i32, zlen bytes / ps) :: st) vars tmp globs
      (<[mem := (bytes ++ replicate (Z.to_nat (d * ps)) 0, ps)]> mems))] ++ 
    [goto (S k) ((WasmTypes.i32, 2 ^ 32 - 1) :: st) (Config (Some k) ((WasmTypes.i32, d) :: st) vars tmp globs mems); Fault FExhausted])) as Hend
    by (eapply sim_fault; [| right; right; by left]; done).
  destruct strict; [| destruct multi]; rewrite (bind_on_memory mem m) by done.
  - destruct (Hgrow true) as [(m' & -> & R') | (o & ->)]; [apply Hdone; [done | by left] |]. simpl fst. cbv iota.
    rewrite (list_insert_id ms mem m Hm'). apply Hfail; [rewrite Hp; simpl; lia | right; by left].
  - destruct (Hgrow false) as [(m' & -> & R') | ->]; [apply Hdone; [done | by left] | exact Hend].
  - unfold grow_silently. destruct (Hgrow false) as [(m' & E & R') | E]; unfold mbind at 1, sm_bind at 1; rewrite E;
      [apply Hdone; [done | by left] | exact Hend].
Qed.
End Instructions.

(** ** A step, and a run *)

Lemma step_pages prog c c' : In (Next c') (sstep prog c) -> snd <$> mems c' = snd <$> mems c.
Proof.
  unfold sstep. destruct (pc c) as [k |]; [| done]. destruct (prog !! k) as [i |]; [| done].
  assert (forall bytes ps bytes' n, mems c !! n = Some (bytes, ps) -> snd <$> <[n := (bytes', ps)]> (mems c) = snd <$> mems c) as Hins.
  { intros bytes ps bytes' n Hn. rewrite list_fmap_insert. apply list_insert_id.
    rewrite (list_lookup_fmap snd (mems c) n). exact (f_equal (fmap snd) Hn). }
  destruct i; cbn [step_instr]; unfold partial, load, store, access, grow, goto; repeat case_match; simpl;
    intros Hin; repeat (destruct Hin as [Hin | Hin]); simplify_eq; simpl; try done.
  all: repeat match goal with H : (_ ≫= _) = Some _ |- _ => apply bind_Some in H as ([] & ? & ?) end;
    repeat case_match; simplify_eq; eauto.
Qed.

Section Run.
Context (lt gt : list value_type) (prog : list instr) (pss : list Z).
Context (A : allocator) `{!AllocatorLaws A} (strict multi : bool).
Context (Hok : Forall (instr_ok pss) prog).
#[local] Notation pos := (position lt gt prog).
#[local] Notation code := (InterpreterRep.code lt gt prog).

(** The slot of the instruction that a configuration is at does one of its steps. *)
Lemma step_sim c m k :
  rep lt gt prog c m -> snd <$> mems c = pss -> pc c = Some k -> sstep prog c <> [] ->
  simulates lt gt prog (exec_slot code A strict multi (pos k) m) (sstep prog c).
Proof using Hok AllocatorLaws0.
  destruct c as [p st vars tmp globs mems], m as [i o l g ms]. intros [R1 R2 R3 (tail & R4 & Htmp) R5 R6 R7 R8 R9] Hpss Hpc Hne.
  cbn [ip operands locals globals memories pc stack FlatWasm.vars FlatWasm.globs FlatWasm.mems] in *. subst p o l i pss.
  unfold sstep in *. cbn [pc fmap option_fmap option_map] in *. destruct (prog !! k) as [i |] eqn:Hi; [| done].
  pose proof (Forall_lookup_1 _ _ _ _ Hok Hi) as Hio.
  destruct i; [by apply sim_const | ..]; simpl in Hio; try (destruct Hio as (? & ? & ?)); try (destruct Hio as [? ?]);
    eauto using sim_drop, sim_select, sim_local_get, sim_local_set, sim_local_tee, sim_scratch_get, sim_scratch_set, sim_global_get, sim_global_set.
  all: eauto using sim_unop, sim_binop, sim_relop, sim_eqz, sim_wrap, sim_extend, sim_trunc, sim_reinterpret.
  all: eauto using sim_load, sim_loadN, sim_store, sim_storeN, sim_memory_size, sim_memory_grow.
  all: eauto using sim_br, sim_br_if, sim_br_table, sim_return, sim_unreachable.
Qed.

(** Running the loop performs steps of flat WebAssembly until a return or a fault; nothing
    undefined happens. *)
Lemma run_sim fuel c m :
  rep lt gt prog c m -> snd <$> mems c = pss -> never_stuck prog c ->
  match exec_loop code A strict multi fuel m with
  | Done (_, m') => exists n c', ssteps prog n c c' /\ pc c' = None /\ rep lt gt prog c' m'
  | Thrown h => exists n c' f, ssteps prog n c c' /\ In (Fault f) (sstep prog c') /\ fault_of h f
  | Undefined => False
  | OutOfFuel => exists c', ssteps prog fuel c c' /\ pc c' <> None
  end.
Proof using Hok AllocatorLaws0.
  revert c m. induction fuel as [| fuel IH]; intros c m R Hpss Hns; cbn [exec_loop]; rewrite bind_get;
    pose proof (rep_ip _ _ _ _ _ R) as Hip; destruct (pc c) as [k |] eqn:Hpc; rewrite Hip; cbn [fmap option_fmap option_map].
  - exists c. split; [constructor | by rewrite Hpc].
  - exists 0%nat, c. split_and!; [constructor | done | done].
  - pose proof (step_sim c m k R Hpss Hpc (Hns 0%nat c (ssteps_refl _ c) ltac:(by rewrite Hpc))) as Hs.
    unfold mbind, sm_bind. destruct (exec_slot _ _ _ _ _ m) as [[[] m'] | h | |]; simpl in Hs; [| | done..].
    + destruct Hs as (c' & Hin & R'). pose proof (step_pages prog c c' Hin) as Hpss'.
      specialize (IH c' m' R' ltac:(congruence) ltac:(intros n c2 H2; apply (Hns (S n)); by econstructor)).
      destruct exec_loop as [[u m2] | h | |]; [| | done |].
      * destruct IH as (n & c2 & ? & ? & ?). exists (S n), c2. split_and!; [by econstructor | done | done].
      * destruct IH as (n & c2 & f & ? & ? & ?). exists (S n), c2, f. split_and!; [by econstructor | done | done].
      * destruct IH as (c2 & ? & ?). exists c2. split; [by econstructor | done].
    + destruct Hs as (f & ? & ?). exists 0%nat, c, f. split_and!; [constructor | done | done].
  - exists 0%nat, c. split_and!; [constructor | done | done].
Qed.
End Run.
