(* ===== verification/InterpreterTheorems.v ===== *)
(** * Theorems about the interpreter and its memories *)

From stdpp Require Import base list numbers.
From Stdlib Require Import ZArith Lia.
From S2P Require Import Prelude IeeeBits IntegerSpec WasmTypes NumericOps LinearMemory LinearMemoryCorrect.
From S2P Require Import Interpreter FlatWasm FlatTyping InterpreterRep InterpreterCorrect.
Open Scope Z_scope.

(** ** Running a function body *)

(** The machine and the configuration at the start of a body; [tail] are the bytes after the
    locals. *)
Definition start_machine (vars : list val) (tail : list Z) (globs : list val) (ms : list linear_memory) : machine :=
  Machine (Some 0%nat) [] (vars_bytes vars ++ tail) (enc <$> globs) ms.
Definition start_config (vars globs : list val) (mems : list (list Z * Z)) : config :=
  Config (Some 0%nat) [] vars None globs mems.

Lemma globals_rep globs : Forall val_ok globs -> Forall2 global_rep globs (enc <$> globs).
Proof. induction 1 as [| v l Hv _ IH]; constructor; [| done]. split; [done |]. exists []. by rewrite app_nil_r. Qed.

Lemma start_rep prog vars tail globs mems ms :
  8 <= zlen tail ->
  Forall val_ok vars -> Forall val_ok globs -> Forall2 mem_rep mems ms ->
  rep (fst <$> vars) (fst <$> globs) prog (start_config vars globs mems) (start_machine vars tail globs ms).
Proof.
  intros Ht Hv Hg Hm. constructor; try done; [by exists tail |]. by apply globals_rep.
Qed.

(** C5: The interpreter refines WebAssembly. A body whose code is typed, run for any number of
    rounds on bytes that represent typed variables and memories, performs the steps of the
    typed machine: it is still running after as many steps, or it returned exactly the bytes
    of the result values, with variables, globals and memories that represent those of the
    typed machine, or it ended with a fault that the typed machine has there. It never reads
    or writes outside the stack, the locals, the code or a memory. The limit in a slot of
    [memory.grow] is at most 2^32 bytes ([instr_ok]). *)
Theorem interpreter_refines_wasm lt gt rt prog ann A strict multi vars tail globs mems ms fuel :
  AllocatorLaws A -> Forall (instr_ok (snd <$> mems)) prog ->
  well_typed lt gt rt (length mems) prog ann = true ->
  fst <$> vars = lt -> fst <$> globs = gt ->
  Forall val_ok vars -> Forall val_ok globs -> Forall2 mem_rep mems ms -> 8 <= zlen tail ->
  let result_bytes := foldr (fun t n => Z.of_nat (size_of t) + n) 0 rt in
  match execute_compiled_defined (code lt gt prog) A strict multi fuel result_bytes (start_machine vars tail globs ms) with
  | Done (bytes, m) => exists n c,
      ssteps prog n (start_config vars globs mems) c /\ pc c = None /\ fst <$> stack c = rt /\
      bytes = stack_bytes (stack c) /\ rep lt gt prog c m
  | Thrown h => exists n c f,
      ssteps prog n (start_config vars globs mems) c /\ In (Fault f) (sstep prog c) /\ fault_of h f
  | Undefined => False
  | OutOfFuel => exists c, ssteps prog fuel (start_config vars globs mems) c /\ pc c <> None
  end.
Proof.
  intros HA Hok Hw Hlt Hgt Hv Hg Hm Htail result_bytes. subst lt gt.
  pose proof (start_rep prog vars tail globs mems ms Htail Hv Hg Hm) as R.
  assert (config_typed (fst <$> vars) (fst <$> globs) rt (length mems) prog ann (start_config vars globs mems)) as Ht.
  { constructor; try done. apply andb_prop in Hw as [[H1 H2]%andb_prop _]. split; [by apply Nat.ltb_lt | by apply bool_decide_eq_true in H2]. }
  pose proof (run_sim _ _ prog (snd <$> mems) A strict multi Hok fuel _ _ R eq_refl (typed_never_stuck _ _ _ _ _ _ _ Hw Ht)) as H.
  unfold execute_compiled_defined, mbind at 1, sm_bind at 1.
  destruct exec_loop as [[u m] | h | |]; [| done..]. destruct H as (n & c & Hs & Hpc & R'). rewrite bind_get.
  pose proof (typed_pc _ _ _ _ _ _ _ (ssteps_typed _ _ _ _ _ _ n _ c Hw Hs Ht)) as Hrt. rewrite Hpc in Hrt.
  rewrite (rep_operands _ _ _ _ _ R'), stack_bytes_length, Hrt. unfold result_bytes. rewrite Z.eqb_refl. simpl negb. cbv iota.
  exists n, c. by split_and!.
Qed.

(** A loop that adds the numbers up to its argument, stores the sum and loads it again. *)
Definition sum_code : list instr :=
  [LocalGet 0; Eqz false; BrIf 12; LocalGet 1; LocalGet 0; Binop false bin_add; LocalSet 1;
   LocalGet 0; Const (WasmTypes.i32, 1); Binop false bin_sub; LocalSet 0; Br 0;
   Const (WasmTypes.i32, 8); LocalGet 1; StoreV WasmTypes.i32 0 4; Const (WasmTypes.i32, 12); LoadV WasmTypes.i32 0 0; Return].

Definition sum_types : list (option (list value_type)) :=
  let i := WasmTypes.i32 in
  Some <$> [[]; [i]; [i]; []; [i]; [i; i]; [i]; []; [i]; [i; i]; [i]; []; []; [i]; [i; i]; []; [i]; [i]].

Definition sum_vars : list val := [(WasmTypes.i32, 5); (WasmTypes.i32, 0)].
Definition small_bytes : list Z := replicate 16 0.
Definition small_memory : linear_memory := LinearMemory (Some small_bytes) 16 4 false 0 0.

Definition plain_allocator : allocator := Allocator (fun n => Some (replicate (Z.to_nat n) 0)) None None.

#[export] Instance plain_allocator_laws : AllocatorLaws plain_allocator.
Proof. split; [by intros n b _ [= <-] | done | done]. Qed.

Lemma small_memory_rep : mem_rep (small_bytes, 16) small_memory.
Proof.
  constructor; cbn [fst snd]; [constructor; try done | | done | done | done]. by apply Forall_replicate.
Qed.

Lemma interpreter_refines_wasm_witness :
  match execute_compiled_defined (code [WasmTypes.i32; WasmTypes.i32] [] sum_code) plain_allocator false true 100 4
    (start_machine sum_vars small_bytes [] [small_memory]) with
  | Done (bytes, m) => bytes = [15; 0; 0; 0] /\ exists n c,
      ssteps sum_code n (start_config sum_vars [] [(small_bytes, 16)]) c /\ pc c = None /\ fst <$> stack c = [WasmTypes.i32] /\
      bytes = stack_bytes (stack c) /\ rep [WasmTypes.i32; WasmTypes.i32] [] sum_code c m
  | _ => False
  end.
Proof.
  assert (H := interpreter_refines_wasm [WasmTypes.i32; WasmTypes.i32] [] [WasmTypes.i32] sum_code sum_types plain_allocator false true
    sum_vars small_bytes [] [(small_bytes, 16)] [small_memory] 100 plain_allocator_laws).
  assert (Forall (instr_ok [16]) sum_code) as Hok by (unfold sum_code; repeat constructor; done).
  specialize (H Hok ltac:(by vm_compute) eq_refl eq_refl ltac:(repeat constructor; done) ltac:(done)
    ltac:(constructor; [exact small_memory_rep | done]) ltac:(done)).
  cbv zeta in H. change (foldr _ 0 [WasmTypes.i32]) with 4 in H. revert H.
  assert (exists m, execute_compiled_defined (code [WasmTypes.i32; WasmTypes.i32] [] sum_code) plain_allocator false true 100 4
    (start_machine sum_vars small_bytes [] [small_memory]) = Done ([15; 0; 0; 0], m)) as [m E] by (eexists; vm_compute; reflexivity).
  rewrite E. intros H. split; [reflexivity |].
  match type of H with match ?x with _ => _ end => match type of E with ?y = _ => change x with y in H end end.
  rewrite E in H. exact H.
Defined.
