(* ===== verification/WasmExec.v ===== *)
(** * Execution of WebAssembly

    The steps of a function body, on the structured instructions of [WasmSpec]: the chapter
    "Execution" of the specification for the instructions that [FlatWasm] covers. A block is
    entered with an empty stack and a continuation that keeps what follows it and the values
    below it; a branch takes the values of its label and drops everything in between. Nothing
    here is derived from the translator or the interpreter. *)

From stdpp Require Import base list numbers.
From Stdlib Require Import ZArith Lia.
From S2P Require Import Prelude IeeeBits IntegerSpec WasmTypes NumericOps WasmSpec FlatWasm.
Open Scope Z_scope.

(** ** Instances *)

(** The addresses of the globals and of the memory of a module in the store, the largest
    length of the memory, and the number of results of the function. *)
Record instance := Instance {
  global_addrs : list nat;
  memory_addr : nat;
  memory_max : Z;
  result_arity : nat;
}.

(** ** Instructions without blocks and jumps *)

Definition nth_op {A} (first : Z) (ops : list A) (op : Z) : option A :=
  if first <=? op then ops !! Z.to_nat (op - first) else None.

Definition compare_ops : list int_cmp :=
  [icmp_eq; icmp_ne; icmp_lt_s; icmp_lt_u; icmp_gt_s; icmp_gt_u; icmp_le_s; icmp_le_u; icmp_ge_s; icmp_ge_u].
Definition unary_ops : list int_unop := [unop_clz; unop_ctz; unop_popcnt].
Definition binary_ops : list int_binop :=
  [bin_add; bin_sub; bin_mul; bin_div_s; bin_div_u; bin_rem_s; bin_rem_u; bin_and; bin_or; bin_xor;
   bin_shl; bin_shr_s; bin_shr_u; bin_rotl; bin_rotr].
Definition convert_ops : list (option instr) :=
  let trunc wide := [Some (Trunc wide binary32 true); Some (Trunc wide binary32 false);
                     Some (Trunc wide binary64 true); Some (Trunc wide binary64 false)] in
  [Some Wrap] ++ trunc false ++ [Some (Extend true); Some (Extend false)] ++ trunc true ++
  replicate 10 None ++
  [Some (Reinterpret WasmTypes.i32); Some (Reinterpret WasmTypes.i64);
   Some (Reinterpret WasmTypes.f32); Some (Reinterpret WasmTypes.f64)].

Definition first_some {A} (l : list (option A)) : option A := foldr (fun o r => match o with Some _ => o | None => r end) None l.

(** The numeric instructions on integers, by opcode; the arithmetic on floats is not covered. *)
Definition numeric_op (op : Z) : option instr :=
  first_some
    [ if op =? 69 then Some (Eqz false) else None;
      Relop false <$> nth_op 70 compare_ops op;
      if op =? 80 then Some (Eqz true) else None;
      Relop true <$> nth_op 81 compare_ops op;
      Unop false <$> nth_op 103 unary_ops op;
      Binop false <$> nth_op 106 binary_ops op;
      Unop true <$> nth_op 121 unary_ops op;
      Binop true <$> nth_op 124 binary_ops op;
      mjoin (nth_op 167 convert_ops op) ].

Definition load_op (mem : nat) (offset op : Z) : option instr :=
  '(t, bits) ← load_type op;
  let n := Z.to_nat (bits / 8) in
  Some (if bits =? bit_width t then LoadV t mem offset
        else LoadN (bool_decide (t = WasmTypes.i64)) n (Z.even op) mem offset).

Definition store_op (mem : nat) (offset op : Z) : option instr :=
  '(t, bits) ← store_type op;
  let n := Z.to_nat (bits / 8) in
  Some (if bits =? bit_width t then StoreV t mem offset
        else StoreN (bool_decide (t = WasmTypes.i64)) n mem offset).

Section Exec.
Context (I : instance).

(** The operation of an instruction on a stack with the types [ts]. *)
Definition operation (e : WasmSpec.instr) (ts : list value_type) : option instr :=
  match e, ts with
  | IDrop, t :: _ => Some (Drop [t])
  | ISelect, _ :: t :: _ => Some (Select t)
  | ILocalGet x, _ => Some (LocalGet x)
  | ILocalSet x, _ => Some (LocalSet x)
  | ILocalTee x, _ => Some (LocalTee x)
  | IGlobalGet x, _ => GlobalGet <$> global_addrs I !! x
  | IGlobalSet x, _ => GlobalSet <$> global_addrs I !! x
  | ILoad op _ offset, _ => load_op (memory_addr I) offset op
  | IStore op _ offset, _ => store_op (memory_addr I) offset op
  | IMemorySize, _ => Some (MemorySize (memory_addr I))
  | IMemoryGrow, _ => Some (MemoryGrow (memory_addr I) (memory_max I))
  | II32Const v, _ => Some (Const (WasmTypes.i32, v mod 2 ^ 32))
  | II64Const v, _ => Some (Const (WasmTypes.i64, v mod 2 ^ 64))
  | IF32Const bits, _ => Some (Const (WasmTypes.f32, number_of bits))
  | IF64Const bits, _ => Some (Const (WasmTypes.f64, number_of bits))
  | INumeric op, _ => numeric_op op
  | _, _ => None
  end.

(** ** Control *)

(** What is left to do after a block: the body to start again if it is a loop, the number of
    values that a branch to its label takes, the instructions that follow it, and the values
    below it. *)
Record cont := Cont {
  loop_body : option (list WasmSpec.instr);
  label_arity : nat;
  following : list WasmSpec.instr;
  below : list val;
}.

(** Locals, globals and memories. *)
Record store := Store { s_vars : list val; s_globs : list val; s_mems : list (list Z * Z) }.

(** The values of the current block, with the top first. *)
Inductive state :=
| Running (code : list WasmSpec.instr) (conts : list cont) (values : list val) (σ : store)
| Finished (values : list val) (σ : store).

Inductive exec_result := Steps (s : state) | Fails (f : fault).

Definition branch (l : nat) (conts : list cont) (values : list val) (σ : store) : list exec_result :=
  match conts !! l with
  | Some c =>
      let taken := take (label_arity c) values in
      [Steps (match loop_body c with
              | Some body => Running body (drop l conts) taken σ
              | None => Running (following c) (drop (S l) conts) (taken ++ below c) σ
              end)]
  | None => if (l =? length conts)%nat then [Steps (Finished (take (result_arity I) values) σ)] else []
  end.

(** What an operation does to the values and the store. *)
Definition after (code : list WasmSpec.instr) (conts : list cont) (r : result) : exec_result :=
  match r with
  | Next c => Steps (Running code conts (stack c) (Store (vars c) (globs c) (mems c)))
  | Fault f => Fails f
  end.

Definition view (values : list val) (σ : store) : config :=
  Config (Some 0%nat) values (s_vars σ) None (s_globs σ) (s_mems σ).

Definition step (s : state) : list exec_result :=
  match s with
  | Finished _ _ => []
  | Running [] [] values σ => [Steps (Finished values σ)]
  | Running [] (c :: conts) values σ => [Steps (Running (following c) conts (values ++ below c) σ)]
  | Running (e :: es) conts values σ =>
      match e, values with
      | IUnreachable, _ => [Fails FUnreachable]
      | INop, _ => [Steps (Running es conts values σ)]
      | IBlock rt body, _ => [Steps (Running body (Cont None (length rt) es values :: conts) [] σ)]
      | ILoop rt body, _ => [Steps (Running body (Cont (Some body) 0 es values :: conts) [] σ)]
      | IIf rt body1 body2, (WasmTypes.i32, b) :: values =>
          [Steps (Running (if b =? 0 then body2 else body1) (Cont None (length rt) es values :: conts) [] σ)]
      | IBr l, _ => branch l conts values σ
      | IBrIf l, (WasmTypes.i32, b) :: values =>
          if b =? 0 then [Steps (Running es conts values σ)] else branch l conts values σ
      | IBrTable ls l, (WasmTypes.i32, i) :: values => branch (default l (ls !! Z.to_nat i)) conts values σ
      | IReturn, _ => [Steps (Finished (take (result_arity I) values) σ)]
      | _, _ =>
          match operation e (fst <$> values) with
          | Some i => after es conts <$> step_instr 0 i (view values σ)
          | None => []
          end
      end
  end.

(** Sequences of steps. *)
Inductive steps : nat -> state -> state -> Prop :=
| steps_refl s : steps 0 s s
| steps_step n s1 s2 s3 : In (Steps s2) (step s1) -> steps n s2 s3 -> steps (S n) s1 s3.
End Exec.

(** ** The instructions covered *)

(** [grow] tells whether [memory.grow] is among them. *)
Section Covered.
Context (grow : bool).

Definition plain_covered (e : WasmSpec.instr) : bool :=
  match e with
  | IBlock _ _ | ILoop _ _ | IIf _ _ _ | ICall _ | ICallIndirect _ => false
  | IMemoryGrow => grow
  | INumeric op => bool_decide (is_Some (numeric_op op))
  | _ => true
  end.

(** Neither calls nor arithmetic on floats, in any block. *)
Inductive covered : list WasmSpec.instr -> Prop :=
| covered_nil : covered []
| covered_block rt body es : covered body -> covered es -> covered (IBlock rt body :: es)
| covered_loop rt body es : covered body -> covered es -> covered (ILoop rt body :: es)
| covered_if rt body1 body2 es : covered body1 -> covered body2 -> covered es -> covered (IIf rt body1 body2 :: es)
| covered_plain e es : plain_covered e = true -> covered es -> covered (e :: es).
End Covered.
