(* ===== verification/FlatLayout.v ===== *)
(** * Structured code laid out flat

    When a part of a flat program is the code of a sequence of structured instructions, and that
    such a flat program does what the structured code does: every step of the flat program is
    matched by steps of the structured code, up to the few steps in which the flat program
    removes values below the values of a label. The relation says nothing about how the flat
    program was made; [TranslatorCorrect] shows that the translator makes one. *)

From stdpp Require Import base list numbers.
From Stdlib Require Import ZArith Lia.
From S2P Require Import Prelude WasmTypes WasmSpec IeeeBits IntegerSpec NumericOps Interpreter FlatWasm FlatTyping WasmExec.
Open Scope Z_scope.

(** The bytes that values of the types [ts] take. *)
Definition size_bytes (ts : list value_type) : Z := foldr (fun t n => Z.of_nat (size_of t) + n) 0 ts.

(** ** Layout *)

(** Where a branch to a label goes, the types of the values it takes, and the types of the
    values below the block; the top comes first. *)
Record target := Target { t_at : nat; t_types : list value_type; t_base : list value_type }.

Definition is_const (e : WasmSpec.instr) : bool :=
  match e with II32Const _ | II64Const _ | IF32Const _ | IF64Const _ => true | _ => false end.

Section Layout.
Context (I : instance) (lt gt rt : list value_type) (nm : nat) (prog : list instr).
(** The locals that may be read, and the bytes that the stack may take. *)
Context (readable : nat -> Prop) (limit : Z).

Definition code_at (k : nat) (l : list instr) : Prop := forall j i, l !! j = Some i -> prog !! (k + j)%nat = Some i.

(** The code that removes the values of the types [junk] below the values of the types [keep]. *)
Definition repair (keep junk : list value_type) : list instr :=
  let drops := (fun t => Drop [t]) <$> junk in
  match junk with
  | [] => []
  | _ :: _ => (ScratchSet <$> keep) ++ drops ++ (ScratchGet <$> keep)
  end.

Definition goes_to (k : nat) (t : target) (ts : list value_type) : Prop :=
  (length (t_types t) <= 1)%nat /\ exists junk, ts = t_types t ++ junk ++ t_base t /\ code_at k (repair (t_types t) junk ++ [Br (t_at t)]).

(** A jump to [q] arrives at the label, at once or after repairing the stack. *)
Definition leads (q : nat) (t : target) (ts : list value_type) : Prop :=
  (q = t_at t /\ ts = t_types t ++ t_base t) \/ goes_to q t ts.

Definition may_read (i : instr) : Prop := match i with LocalGet x => readable x | _ => True end.

(** [laid Ls base k ts es k' ts']: the code of [es] starts at [k], where the stack has the types
    [ts] and [base] below them; control that falls through arrives at [k'], where the types are
    [ts'] and [base]. *)
Inductive laid : list target -> list value_type -> nat -> list value_type -> list WasmSpec.instr -> nat -> list value_type -> Prop :=
| laid_nil Ls base k ts : laid Ls base k ts [] k ts
| laid_plain Ls base k ts e i ts1 es k' ts' :
    operation I e ts = Some i -> prog !! k = Some i -> succs lt gt rt nm k i ts = Some [(S k, ts1)] -> may_read i ->
    size_bytes ts1 <= size_bytes ts \/ size_bytes (ts1 ++ base) <= limit ->
    laid Ls base (S k) ts1 es k' ts' -> laid Ls base k ts (e :: es) k' ts'
| laid_nop Ls base k ts es k' ts' : laid Ls base k ts es k' ts' -> laid Ls base k ts (INop :: es) k' ts'
| laid_unreachable Ls base k ts es k' ts' :
    prog !! k = Some Unreachable -> laid Ls base k ts (IUnreachable :: es) k' ts'
| laid_return Ls base k ts junk es k' ts' :
    (length rt <= length ts)%nat -> ts ++ base = rt ++ junk -> code_at k (repair rt junk ++ [Return]) -> laid Ls base k ts (IReturn :: es) k' ts'
| laid_br Ls base k ts l t es k' ts' :
    Ls !! l = Some t -> (length (t_types t) <= length ts)%nat -> goes_to k t (ts ++ base) -> laid Ls base k ts (IBr l :: es) k' ts'
| laid_br_if Ls base k ts l t q es k' ts' :
    Ls !! l = Some t -> (length (t_types t) <= length ts)%nat -> prog !! k = Some (BrIf q) -> leads q t (ts ++ base) ->
    laid Ls base (S k) ts es k' ts' -> laid Ls base k (WasmTypes.i32 :: ts) (IBrIf l :: es) k' ts'
| laid_br_table Ls base k ts ls l qs q es k' ts' :
    prog !! k = Some (BrTable qs q) ->
    Forall2 (fun l q => exists t, Ls !! l = Some t /\ (length (t_types t) <= length ts)%nat /\ leads q t (ts ++ base)) (ls ++ [l]) (qs ++ [q]) ->
    laid Ls base k (WasmTypes.i32 :: ts) (IBrTable ls l :: es) k' ts'
| laid_block Ls base k ts r body es ke k' ts' :
    laid (Target ke (rev r) (ts ++ base) :: Ls) (ts ++ base) k [] body ke (rev r) ->
    laid Ls base ke (rev r ++ ts) es k' ts' -> laid Ls base k ts (IBlock r body :: es) k' ts'
| laid_loop Ls base k ts r body es ke k' ts' :
    laid (Target k [] (ts ++ base) :: Ls) (ts ++ base) k [] body ke (rev r) ->
    laid Ls base ke (rev r ++ ts) es k' ts' -> laid Ls base k ts (ILoop r body :: es) k' ts'
| laid_if Ls base k ts r body1 body2 es k1 ke k' ts' :
    prog !! k = Some (Eqz false) -> prog !! S k = Some (BrIf (S k1)) -> prog !! k1 = Some (Br ke) ->
    laid (Target ke (rev r) (ts ++ base) :: Ls) (ts ++ base) (S (S k)) [] body1 k1 (rev r) ->
    laid (Target ke (rev r) (ts ++ base) :: Ls) (ts ++ base) (S k1) [] body2 ke (rev r) ->
    laid Ls base ke (rev r ++ ts) es k' ts' -> laid Ls base k (WasmTypes.i32 :: ts) (IIf r body1 body2 :: es) k' ts'
| laid_if_only Ls base k ts body es ke k' ts' :
    prog !! k = Some (Eqz false) -> prog !! S k = Some (BrIf ke) ->
    laid (Target ke [] (ts ++ base) :: Ls) (ts ++ base) (S (S k)) [] body ke [] ->
    laid Ls base ke ts es k' ts' -> laid Ls base k (WasmTypes.i32 :: ts) (IIf [] body [] :: es) k' ts'
(** Constants that are dropped at once have no code. *)
| laid_elided Ls base k ts consts es k' ts' :
    Forall is_const consts -> (0 < length consts)%nat -> laid Ls base k ts es k' ts' ->
    laid Ls base k ts (consts ++ replicate (length consts) IDrop ++ es) k' ts'.

(** The continuations of the code that ends at [k'] with the types [ts']. *)
Inductive continued : list cont -> list target -> list value_type -> nat -> list value_type -> Prop :=
| continued_function k : prog !! k = Some Return -> continued [] [Target k rt []] [] k rt
| continued_block following saved conts Ls base k1 k ts k' ts' :
    k1 = k \/ prog !! k1 = Some (Br k) -> laid Ls base k (ts ++ (fst <$> saved)) following k' ts' -> continued conts Ls base k' ts' ->
    continued (Cont None (length ts) following saved :: conts)
      (Target k ts ((fst <$> saved) ++ base) :: Ls) ((fst <$> saved) ++ base) k1 ts
| continued_loop body following saved conts Ls base ks k ts k' ts' :
    laid (Target ks [] ((fst <$> saved) ++ base) :: Ls) ((fst <$> saved) ++ base) ks [] body k ts ->
    laid Ls base k (ts ++ (fst <$> saved)) following k' ts' -> continued conts Ls base k' ts' ->
    continued (Cont (Some body) 0 following saved :: conts)
      (Target ks [] ((fst <$> saved) ++ base) :: Ls) ((fst <$> saved) ++ base) k ts.
End Layout.

(** ** A laid out program does what its structured code does *)

Lemma size_bytes_app ts1 ts2 : size_bytes (ts1 ++ ts2) = size_bytes ts1 + size_bytes ts2.
Proof. induction ts1 as [| t ts1 IH]; simpl in *; lia. Qed.

Lemma size_bytes_nonneg ts : 0 <= size_bytes ts.
Proof. induction ts as [| t ts IH]; simpl in *; lia. Qed.

(** ** Instructions without jumps *)

Definition is_plain (i : instr) : bool :=
  match i with Br _ | BrIf _ | BrTable _ _ | Return | Unreachable | ScratchSet _ | ScratchGet _ => false | _ => true end.

Lemma first_some_in {A} (l : list (option A)) a : first_some l = Some a -> In (Some a) l.
Proof. induction l as [| [b |] l IH]; simpl; [done | by intros [= ->]; left | by right; apply IH]. Qed.

Lemma operation_plain I e ts i : operation I e ts = Some i -> is_plain i = true.
Proof.
  destruct e; simpl; try (by repeat case_match; intros; simplify_eq).
  - intros H. apply fmap_Some in H as (? & _ & ->). done.
  - intros H. apply fmap_Some in H as (? & _ & ->). done.
  - unfold load_op. destruct (load_type op) as [[t b] |]; [| done]. simpl. by case_match; intros; simplify_eq.
  - unfold store_op. destruct (store_type op) as [[t b] |]; [| done]. simpl. by case_match; intros; simplify_eq.
  - unfold numeric_op. intros H. apply first_some_in in H. simpl in H.
    repeat (destruct H as [H | H]); try done; try (by repeat case_match; simplify_eq);
      try (apply fmap_Some in H as (? & _ & ->); done).
    destruct (nth_op 167 convert_ops op) as [o |] eqn:E; [| done]. simpl in H. subst o.
    unfold nth_op in E. destruct (167 <=? op); [| done]. apply list_elem_of_lookup_2 in E.
    assert (Forall (fun o => match o with Some i => is_plain i = true | None => True end) convert_ops) as Hall
      by (unfold convert_ops; simpl; repeat constructor).
    rewrite List.Forall_forall in Hall. apply (Hall (Some i)). by apply list_elem_of_In.
Qed.

(** Lookups in lists of values, written in one way. *)
Ltac val_lookups := change (@lookup nat (value_type * Z) (list val) (@list_lookup val)) with (@lookup nat val (list val) (@list_lookup val)) in *.

Section Plain.
Context (lt gt rt : list value_type) (nm : nat) (readable : nat -> Prop).

(** The same types, and the same values where the code may read. *)
Definition agree (vars vars' : list val) : Prop :=
  fst <$> vars = lt /\ fst <$> vars' = lt /\ forall x, readable x -> vars !! x = vars' !! x.

Lemma agree_insert vars vars' x t z z0 :
  agree vars vars' -> vars !! x = Some (t, z0) -> agree (<[x := (t, z)]> vars) (<[x := (t, z)]> vars').
Proof.
  intros (H1 & H2 & H3) Hx. destruct (lookup_type vars' lt x t H2) as [z' Hx'].
  { rewrite <- H1, (list_lookup_fmap fst vars x). exact (f_equal (fmap fst) Hx). }
  split_and!; [by rewrite (insert_type _ _ _ _ _ Hx) | by rewrite (insert_type _ _ _ _ _ Hx') |].
  intros y Hy. pose proof (lookup_lt_Some _ _ _ Hx). pose proof (lookup_lt_Some _ _ _ Hx').
  destruct (decide (x = y)) as [-> | Hne]; [by rewrite !list_lookup_insert_eq by done |].
  rewrite !list_lookup_insert_ne by done. by apply H3.
Qed.

(** Configurations that differ in the position, in the values [rest] at the bottom of the stack,
    and in the variables that are not read. *)
Definition like (k : nat) (rest : list val) (ts : list value_type) (c1 c2 : config) : Prop :=
  pc c2 = Some k /\ stack c2 = stack c1 ++ rest /\ fst <$> stack c1 = ts /\ agree (vars c1) (vars c2) /\
  globs c2 = globs c1 /\ mems c2 = mems c1 /\ fst <$> globs c1 = gt /\ length (mems c1) = nm.

Definition result_like (k : nat) (rest : list val) (ts : list value_type) (r1 r2 : result) : Prop :=
  match r1, r2 with
  | Next c1, Next c2 => like k rest ts c1 c2
  | Fault f1, Fault f2 => f1 = f2
  | _, _ => False
  end.

Context (k : nat) (st rest vars vars' globs : list val) (tmp : option val) (ms : list (list Z * Z)).
Context (Hv : agree vars vars') (Hg : fst <$> globs = gt) (Hm : length ms = nm).
#[local] Notation c1 s := (Config (Some 0%nat) s vars None globs ms).
#[local] Notation c2 s := (Config (Some k) s vars' tmp globs ms).
#[local] Notation similar ts rs1 rs2 := (rs1 <> [] /\ Forall2 (result_like (S k) rest ts) rs1 rs2).

Lemma similar_goto st0 st1 s : similar (fst <$> s) [goto 1 s (c1 st0)] [goto (S k) (s ++ rest) (c2 st1)].
Proof using Hv Hg Hm. split; [done |]. by repeat constructor; try apply Hv. Qed.

Lemma similar_fault ts f : similar ts [Fault f] [Fault f].
Proof using. split; [done |]. by repeat constructor. Qed.

Lemma similar_load st0 st1 s mem base off n f t ts :
  (mem < nm)%nat -> (forall z, fst (f z) = t) -> ts = t :: (fst <$> s) ->
  similar ts (load 1 (c1 st0) s mem base off n f) (load (S k) (c2 st1) (s ++ rest) mem base off n f).
Proof using Hv Hg Hm.
  intros Hmem Hf ->. unfold load, access. cbn [FlatWasm.mems]. destruct (lookup_lt_is_Some_2 ms mem ltac:(lia)) as [[bytes ps] ->].
  cbn [mbind option_bind]. destruct (_ <? _); [apply similar_fault |].
  rewrite <- (Hf (number_of (take n (drop (Z.to_nat (base + off)) bytes)))). apply (similar_goto _ _ (f _ :: s)).
Qed.

Lemma similar_store st0 st1 s mem base off n z :
  (mem < nm)%nat ->
  similar (fst <$> s) (FlatWasm.store 1 (c1 st0) s mem base off n z) (FlatWasm.store (S k) (c2 st1) (s ++ rest) mem base off n z).
Proof using Hv Hg Hm.
  intros Hmem. unfold FlatWasm.store, access. cbn [FlatWasm.mems]. destruct (lookup_lt_is_Some_2 ms mem ltac:(lia)) as [[bytes ps] ->].
  cbn [mbind option_bind]. destruct (_ <? _); [apply similar_fault |]. split; [done |].
  repeat constructor; try apply Hv; try done. cbn [FlatWasm.mems]. by rewrite length_insert.
Qed.

Lemma similar_grow st0 st1 s mem lim d ts :
  (mem < nm)%nat -> ts = WasmTypes.i32 :: (fst <$> s) ->
  similar ts (grow 1 (c1 st0) s mem lim d) (grow (S k) (c2 st1) (s ++ rest) mem lim d).
Proof using Hv Hg Hm.
  intros Hmem ->. unfold grow. cbn [FlatWasm.mems]. destruct (lookup_lt_is_Some_2 ms mem ltac:(lia)) as [[bytes ps] ->].
  destruct (_ <=? lim); (split; [done |]); repeat constructor; try apply Hv; try done. cbn [FlatWasm.mems]. by rewrite length_insert.
Qed.

(** The lookup of a variable on both sides. *)
Lemma var_types x t : lt !! x = Some t -> exists z z', vars !! x =@{option val} Some (t, z) /\ vars' !! x =@{option val} Some (t, z').
Proof using Hv.
  intros Hx. destruct Hv as (H1 & H2 & _). destruct (lookup_type _ _ _ _ H1 Hx) as [z ?], (lookup_type _ _ _ _ H2 Hx) as [z' ?].
  by exists z, z'.
Qed.

Lemma similar_var tmp' x t z s s' ts :
  lt !! x = Some t -> ts = fst <$> s -> s' = s ++ rest ->
  similar ts [Next (Config (Some 1%nat) s (<[x := (t, z)]> vars) None globs ms)]
    [Next (Config (Some (S k)) s' (<[x := (t, z)]> vars') tmp' globs ms)].
Proof using Hv Hg Hm.
  intros Hx -> ->. destruct (var_types x t Hx) as (z0 & _ & Hz & _).
  pose proof (agree_insert _ _ x t z z0 Hv Hz) as (? & ? & ?). split; [done |]. by repeat constructor.
Qed.

#[local] Ltac to_next :=
  match goal with |- _ /\ Forall2 _ [goto 1 ?s (Config _ ?a _ _ _ _)] [goto _ _ (Config _ ?b _ _ _ _)] => exact (similar_goto a b s) end.

(** An instruction does the same on both sides. *)
Lemma plain_similar i ts :
  is_plain i = true -> succs lt gt rt nm k i (fst <$> st) = Some [(S k, ts)] -> may_read readable i ->
  similar ts (step_instr 0 i (c1 st)) (step_instr k i (c2 (st ++ rest))).
Proof using Hv Hg Hm.
  intros Hp Hs Hr. destruct i; try done; cbn [succs] in Hs; unfold has_memory in Hs.
  all: repeat match goal with
  | H : (_ ≫= _) = Some _ |- _ => apply bind_Some in H as (? & ? & H)
  | H : _ <$> _ = Some _ |- _ => apply fmap_Some in H as (? & H & ?)
  | H : (if (?m <? nm)%nat then _ else _) = Some _ |- _ => destruct (Nat.ltb_spec m nm); [| done]
  end.
  all: try (destruct v as [t z]); cbn [fmap option_fmap option_map] in Hs; simplify_eq;
    values; cbn [step_instr stack app fmap list_fmap FlatWasm.vars FlatWasm.globs FlatWasm.mems].
  all: rewrite ?decide_True by (done || tauto).
  all: try (eapply similar_load; [done | | done]; by intros).
  all: try (eapply similar_store; done).
  all: try (eapply similar_grow; done).
  all: try to_next.
  all: try match goal with H : gt !! _ = Some ?t |- _ => destruct (lookup_type _ _ _ _ Hg H) as [z0 ?]; simplify_option_eq end.
  - match goal with H : fst <$> _ = ?ts |- context [drop_values ?ts _] => rewrite <- H end.
    rewrite <- app_assoc, !drop_values_app. to_next.
  - destruct (var_types _ _ H) as (z & z' & E & E'). pose proof (proj2 (proj2 Hv) i Hr) as Heq.
    assert (z = z') as -> by congruence. rewrite E, E'. exact (similar_goto st (st ++ rest) ((x, z') :: st)).
  - destruct (var_types _ _ H) as (z & z' & E & E'). val_lookups. rewrite E, E', !decide_True by done. by apply similar_var.
  - destruct (var_types _ _ H) as (z & z' & E & E'). val_lookups. rewrite E, E', !decide_True by done. by apply similar_var.
  - exact (similar_goto st (st ++ rest) ((x, z0) :: st)).
  - split; [done |]. repeat constructor; try apply Hv; try done. simpl. by erewrite insert_type.
  - unfold partial. destruct binop; [| apply similar_fault]. to_next.
  - destruct (_ && _); [| apply similar_fault]. to_next.
  - destruct st as [| [t z] st0]; [done |]. cbn [fmap list_fmap fst] in Hs. cbn [app]. destruct (bit_width to =? bit_width t); [| done].
    injection Hs as <-. to_next.
  - simplify_option_eq. destruct (lookup_lt_is_Some_2 ms mem ltac:(lia)) as [[bytes ps] E]. rewrite E. exact (similar_goto st (st ++ rest) ((WasmTypes.i32, _) :: st)).
Qed.
End Plain.

(** ** Sizes of code *)

(** A bound on the steps of the structured code that the flat program has no instruction for. *)
Fixpoint instr_size (e : WasmSpec.instr) : nat :=
  let sizes := fix sizes (es : list WasmSpec.instr) : nat := match es with [] => 0%nat | e :: es => (instr_size e + sizes es)%nat end in
  match e with
  | IBlock _ body | ILoop _ body => S (S (sizes body))
  | IIf _ body1 body2 => S (S (sizes body1 + sizes body2))
  | _ => 1%nat
  end.
Fixpoint code_size (es : list WasmSpec.instr) : nat := match es with [] => 0%nat | e :: es => (instr_size e + code_size es)%nat end.

Definition conts_size (conts : list cont) : nat := foldr (fun c n => S (code_size (following c) + n)) 0%nat conts.
Definition state_size (s : state) : nat :=
  match s with Running code conts _ _ => (code_size code + conts_size conts)%nat | Finished _ _ => 0%nat end.

Lemma code_size_app es1 es2 : code_size (es1 ++ es2) = (code_size es1 + code_size es2)%nat.
Proof. induction es1 as [| e es1 IH]; simpl; lia. Qed.

Lemma block_size r body : instr_size (IBlock r body) = S (S (code_size body)).
Proof. done. Qed.

Lemma loop_size r body : instr_size (ILoop r body) = S (S (code_size body)).
Proof. exact (block_size r body). Qed.

(** ** Sequences of steps *)

Lemma steps_app I n1 n2 s1 s2 s3 : steps I n1 s1 s2 -> steps I n2 s2 s3 -> steps I (n1 + n2) s1 s3.
Proof. induction 1; [done |]. intros. econstructor; eauto. Qed.

(** Constants and as many drops leave the values alone. *)
Lemma drops_steps I n es conts (vs values : list val) σ :
  length vs = n -> steps I n (Running (replicate n IDrop ++ es) conts (vs ++ values) σ) (Running es conts values σ).
Proof.
  revert vs. induction n as [| n IH]; intros [| [t z] vs] Hn; try done; [constructor |]. simpl.
  econstructor; [| apply (IH vs); by injection Hn]. cbn. rewrite decide_True by done. by left; destruct σ.
Qed.

Lemma consts_steps I consts es conts (values : list val) σ :
  Forall is_const consts -> exists vs, length vs = length consts /\
    steps I (length consts) (Running (consts ++ es) conts values σ) (Running es conts (vs ++ values) σ).
Proof.
  intros H. revert values. induction H as [| e consts He _ IH]; intros values; [exists []; split; [done | constructor] |].
  assert (exists v, In (Steps (Running (consts ++ es) conts (v :: values) σ)) (step I (Running (e :: consts ++ es) conts values σ))) as [v Hv]
    by (destruct e; try done; eexists; left; by destruct σ).
  destruct (IH (v :: values)) as (vs & Hlen & Hs). exists (vs ++ [v]). rewrite length_app, <- app_assoc. simpl.
  split; [lia |]. by econstructor.
Qed.

Lemma elided_steps I consts es conts (values : list val) σ :
  Forall is_const consts -> exists n, steps I n (Running (consts ++ replicate (length consts) IDrop ++ es) conts values σ) (Running es conts values σ).
Proof.
  intros H. destruct (consts_steps I consts (replicate (length consts) IDrop ++ es) conts values σ H) as (vs & Hlen & Hs).
  eexists. eapply steps_app; [exact Hs |]. by apply drops_steps.
Qed.

(** ** Simulation *)

Section Simulation.
Context (I : instance) (lt gt rt : list value_type) (nm : nat) (prog : list instr).
Context (readable : nat -> Prop) (limit : Z).
#[local] Notation laid := (laid I lt gt rt nm prog readable limit).
#[local] Notation continued := (continued I lt gt rt nm prog readable limit).
#[local] Notation agree := (agree lt readable).

(** Store and variables of a flat configuration. *)
Definition store_like (σ : store) (c : config) : Prop :=
  agree (s_vars σ) (vars c) /\ s_globs σ = globs c /\ s_mems σ = mems c /\ fst <$> globs c = gt /\ length (mems c) = nm.

Definition fits (c : config) : Prop := size_bytes (fst <$> stack c) <= limit.

(** The flat program is where the code of the state starts. *)
Definition synced (s : state) (c : config) : Prop :=
  fits c /\
  match s with
  | Running code conts values σ => exists k Ls base k' ts',
      pc c = Some k /\ stack c = values ++ concat (below <$> conts) /\ store_like σ c /\
      laid Ls base k (fst <$> values) code k' ts' /\ continued conts Ls base k' ts'
  | Finished values σ => pc c = None /\ stack c = values /\ store_like σ c /\ fst <$> values = rt
  end.

(** [m] steps without an alternative. *)
Inductive quiet : nat -> config -> config -> Prop :=
| quiet_refl c : fits c -> quiet 0 c c
| quiet_step m c1 c2 c3 : fits c1 -> sstep prog c1 = [Next c2] -> quiet m c2 c3 -> quiet (S m) c1 c3.

Definition nearly (m : nat) (s : state) (c : config) : Prop := exists c', quiet m c c' /\ synced s c'.

Lemma quiet_app m n c1 c2 c3 : quiet m c1 c2 -> quiet n c2 c3 -> quiet (m + n) c1 c3.
Proof. induction 1; [done |]. intros. econstructor; eauto. Qed.

Lemma continued_base conts Ls base k ts : continued conts Ls base k ts -> base = fst <$> concat (below <$> conts).
Proof. induction 1; simpl; [done | ..]; by rewrite fmap_app, IHcontinued. Qed.

(** *** Removing values *)

Lemma code_at_app k l1 l2 : code_at prog k (l1 ++ l2) -> code_at prog k l1 /\ code_at prog (k + length l1) l2.
Proof.
  intros H. split; intros j i Hj.
  - apply H. by apply lookup_app_l_Some.
  - rewrite <- Nat.add_assoc. apply H. by rewrite lookup_app_r, Nat.add_comm, Nat.add_sub by lia.
Qed.

Lemma code_at_cons k i l : code_at prog k (i :: l) -> prog !! k = Some i /\ code_at prog (S k) l.
Proof.
  intros H. apply (code_at_app k [i] l) in H as [H1 H2]. simpl in H2. rewrite Nat.add_1_r in H2. split; [| done].
  rewrite <- (Nat.add_0_r k). by apply H1.
Qed.

Lemma code_at_length k l : code_at prog k l -> (length l <= length prog)%nat.
Proof.
  intros H. destruct l as [| i l _] using rev_ind; [simpl; lia |]. rewrite length_app. simpl.
  specialize (H (length l) i (list_lookup_middle l [] i _ eq_refl)). apply lookup_lt_Some in H. lia.
Qed.

Lemma run_one k i st vars tmp globs ms :
  prog !! k = Some i ->
  sstep prog (Config (Some k) st vars tmp globs ms) = step_instr k i (Config (Some k) st vars tmp globs ms).
Proof. intros Hi. unfold sstep. cbn [pc]. by rewrite Hi. Qed.

(** Values may disappear. *)
Lemma fits_skip l1 js l2 c1 c2 : fits c1 -> stack c1 = l1 ++ js ++ l2 -> stack c2 = l1 ++ l2 -> fits c2.
Proof.
  unfold fits. intros Hf H1 H2. rewrite H1 in Hf. rewrite H2. rewrite !fmap_app, !size_bytes_app in *.
  pose proof (size_bytes_nonneg (fst <$> js)). lia.
Qed.

Section Repair.
Context (vars globs : list val) (ms : list (list Z * Z)).
#[local] Notation at_ k st tmp := (Config (Some k%nat) st vars tmp globs ms).

Lemma drops_quiet k (js st : list val) tmp :
  code_at prog k ((fun t => Drop [t]) <$> (fst <$> js)) -> fits (at_ k (js ++ st) tmp) ->
  quiet (length js) (at_ k (js ++ st) tmp) (at_ (k + length js) st tmp).
Proof.
  revert k. induction js as [| [t z] js IH]; intros k Hc Hf; simpl in *; [rewrite Nat.add_0_r; by constructor |].
  apply code_at_cons in Hc as [Hi Hc]. econstructor; [done | |].
  - rewrite (run_one _ _ _ _ _ _ _ Hi). cbn [step_instr stack drop_values]. by rewrite decide_True.
  - unfold goto. cbn. replace (k + S (length js))%nat with (S k + length js)%nat by lia. apply IH; [done |].
    by apply (fits_skip [] [(t, z)] (js ++ st) _ _ Hf).
Qed.

(** The code of [repair] removes exactly the junk. *)
Lemma repair_quiet k (vs js st : list val) tmp :
  (length vs <= 1)%nat -> code_at prog k (repair (fst <$> vs) (fst <$> js)) -> fits (at_ k (vs ++ js ++ st) tmp) ->
  exists tmp', quiet (length (repair (fst <$> vs) (fst <$> js))) (at_ k (vs ++ js ++ st) tmp)
    (at_ (k + length (repair (fst <$> vs) (fst <$> js))) (vs ++ st) tmp').
Proof.
  intros Hvs Hc Hf. destruct (decide (js = [])) as [-> | Hne]; [exists tmp; simpl; rewrite Nat.add_0_r; by constructor |].
  assert (forall keep, repair keep (fst <$> js) = (ScratchSet <$> keep) ++ ((fun t => Drop [t]) <$> (fst <$> js)) ++ (ScratchGet <$> keep))
    as E by (by destruct js).
  rewrite E in *. destruct vs as [| [t z] [| ]]; cbn [fmap list_fmap length app] in *; [| | lia].
  - exists tmp. rewrite app_nil_r in *. pose proof (drops_quiet k js st tmp Hc Hf) as H. by rewrite !length_fmap.
  - apply code_at_cons in Hc as [H1 Hc]. apply code_at_app in Hc as [H2 Hc]. apply code_at_cons in Hc as [H3 _].
    rewrite !length_fmap in H3. exists (Some (t, z)). rewrite length_app, !length_fmap. cbn [length].
    assert (fits (at_ (S k) (js ++ st) (Some (t, z)))) as Hf2 by (by apply (fits_skip [] [(t, z)] (js ++ st) _ _ Hf)).
    econstructor; [done | rewrite (run_one _ _ _ _ _ _ _ H1); cbn [step_instr stack]; by rewrite decide_True |]. cbn.
    eapply quiet_app; [apply (drops_quiet (S k) js st); done |].
    assert (fits (at_ (S k + length js) ((t, z) :: st) (Some (t, z)))) as Hf3
      by (by apply (fits_skip [(t, z)] js st _ _ Hf)).
    econstructor; [by apply (fits_skip [] [(t, z)] st _ _ Hf3) | |].
    + rewrite (run_one _ _ _ _ _ _ _ H3). cbn [step_instr scratch]. by rewrite decide_True.
    + unfold goto. cbn. match goal with |- quiet _ (at_ ?a _ _) (at_ ?b _ _) => replace b with a by (rewrite ?length_app, ?length_fmap; simpl; lia) end. by constructor.
Qed.

(** A jump that leads to a label arrives with the values of the label and those below the block. *)
Definition jumps (n q : nat) (t : target) (st : list val) (tmp : option val) : Prop :=
  exists vs js bs tmp', st = vs ++ js ++ bs /\ fst <$> vs = t_types t /\ fst <$> bs = t_base t /\ (n <= length prog)%nat /\
    quiet n (at_ q st tmp) (at_ (t_at t) (vs ++ bs) tmp').

Lemma goes_jumps q t st tmp : goes_to prog q t (fst <$> st) -> fits (at_ q st tmp) -> exists n, jumps (S n) q t st tmp.
Proof.
  intros (Hone & junk & H & Hc) Hf. apply fmap_app_inv in H as (vs & l & Hvs & H & ->). symmetry in H.
  apply fmap_app_inv in H as (js & bs & -> & Hbs & ->). pose proof (code_at_length _ _ Hc) as Hlen.
  apply code_at_app in Hc as [Hc Hb]. apply code_at_cons in Hb as [Hb _]. rewrite length_app in Hlen. simpl in Hlen.
  rewrite Hvs in Hc, Hb, Hone, Hlen. rewrite length_fmap in Hone.
  destruct (repair_quiet q vs js bs tmp Hone Hc Hf) as [tmp' Hq].
  exists (length (repair (fst <$> vs) (fst <$> js))), vs, js, bs, tmp'. split_and!; [done.. | lia |]. rewrite <- Nat.add_1_r.
  assert (forall pc tmp, fits (Config pc (vs ++ bs) vars tmp globs ms)) as Hf'
    by (intros; by apply (fits_skip vs js bs _ _ Hf)).
  eapply quiet_app; [exact Hq |]. econstructor; [apply Hf' | | by constructor].
  by rewrite (run_one _ _ _ _ _ _ _ Hb).
Qed.

Lemma leads_jumps q t st tmp : leads prog q t (fst <$> st) -> fits (at_ q st tmp) -> exists n, jumps n q t st tmp.
Proof.
  intros [[-> H] | H] Hf; [| by destruct (goes_jumps q t st tmp H Hf) as [n ?]; exists (S n)].
  apply fmap_app_inv in H as (vs & bs & Hvs & Hbs & ->). exists 0%nat, vs, [], bs, tmp. split_and!; [done.. | lia | by constructor].
Qed.
End Repair.


(** *** One step of the flat program *)

Definition slack : nat := S (S (length prog)).

(** What a step of the flat program is in the structured code. *)
Definition matched (s : state) (r : result) : Prop :=
  match r with
  | Next c' => exists n s' m, (0 < n)%nat /\ steps I n s s' /\ (m <= slack)%nat /\ nearly m s' c'
  | Fault f => exists n s', steps I n s s' /\ In (Fails f) (step I s')
  end.
Definition advances (s : state) (c : config) : Prop := sstep prog c <> [] /\ forall r, In r (sstep prog c) -> matched s r.

Lemma matched_later n s s' r : steps I n s s' -> matched s' r -> matched s r.
Proof using.
  intros Hs. destruct r as [c | f]; simpl.
  - intros (j & s2 & m & Hj & Hs2 & Hm & Hn). exists (n + j)%nat, s2, m. split_and!; [lia | by eapply steps_app | done..].
  - intros (j & s2 & Hs2 & Hf). exists (n + j)%nat, s2. split; [by eapply steps_app | done].
Qed.

Lemma advances_later n s s' c : steps I n s s' -> advances s' c -> advances s c.
Proof using. intros Hs [H1 H2]. split; [done |]. intros r Hr. eapply matched_later; [done |]. by apply H2. Qed.

Lemma steps_one s s' l : step I s = Steps s' :: l -> steps I 1 s s'.
Proof using. intros H. apply (steps_step _ _ _ s'); [rewrite H; by left | constructor]. Qed.

(** A single flat step that is one step of the structured code. *)
Lemma advances_one s c s' c' m l :
  sstep prog c = [Next c'] -> step I s = Steps s' :: l -> (m <= slack)%nat -> nearly m s' c' -> advances s c.
Proof using.
  intros Hc Hs Hm Hn. split; [by rewrite Hc |]. rewrite Hc. intros r [<- | []]. exists 1%nat, s', m. split_and!; [lia | | done..].
  by eapply steps_one.
Qed.

Lemma nearly_0 s c : synced s c -> nearly 0 s c.
Proof using. intros H. exists c. split; [| done]. constructor. apply H. Qed.

(** A step of the structured code, and at least one step of the flat program. *)
Lemma advances_nearly s s' c m l : step I s = Steps s' :: l -> nearly (S m) s' c -> (m <= slack)%nat -> advances s c.
Proof using.
  intros Hs (c' & Hq & Hc') Hm. inversion Hq as [| ? ? c2 ? ? Hc2 Hq2]; subst. eapply advances_one; [done.. |]. by exists c'.
Qed.

(** *** Branches *)

Context (Harity : result_arity I = length rt) (Hrt : (length rt <= 1)%nat).


Lemma take_prefix (l1 l2 vs ds : list val) n : l1 ++ l2 = vs ++ ds -> n = length vs -> (n <= length l1)%nat -> take n l1 = vs.
Proof using. intros H -> Hn. apply (f_equal (take (length vs))) in H. by rewrite take_app_le, take_app_length in H. Qed.

(** The state that a branch leads to, and the flat program that arrived at the label. *)
Definition arrives (s' : state) (σ : store) (q : nat) (st : list val) : Prop :=
  forall vars tmp globs ms, store_like σ (Config (Some q) st vars tmp globs ms) -> fits (Config (Some q) st vars tmp globs ms) ->
    exists m, (m <= 1)%nat /\ nearly m s' (Config (Some q) st vars tmp globs ms).

Lemma below_suffix conts Ls base k ts c l1 l2 bs :
  continued conts Ls base k ts -> l1 ++ concat (below <$> c :: conts) = l2 ++ bs -> fst <$> bs = (fst <$> below c) ++ base ->
  bs = below c ++ concat (below <$> conts).
Proof using.
  intros Hc H Hbs. symmetry in H. apply app_inj_2 in H; [apply H |]. apply (f_equal length) in Hbs. revert Hbs.
  rewrite (continued_base _ _ _ _ _ Hc), <- fmap_app, !length_fmap. done.
Qed.

Lemma branch_sim conts Ls base k' ts' l t values extra vs js bs σ :
  continued conts Ls base k' ts' -> Ls !! l = Some t -> (length (t_types t) <= length values)%nat ->
  values ++ extra ++ concat (below <$> conts) = vs ++ js ++ bs -> fst <$> vs = t_types t -> fst <$> bs = t_base t ->
  exists s', branch I l conts values σ = [Steps s'] /\ arrives s' σ (t_at t) (vs ++ bs).
Proof using Harity Hrt.
  intros Hc. revert l extra. induction Hc as [k Hret | next saved conts Ls base k0 k ts k1 ts1 Hk Hl Hc IH | body next saved conts Ls base ks k ts k1 ts1 Hb Hl Hc IH];
    intros l extra Ht Hlen Hst Hvs Hbs; pose proof (eq_trans (eq_sym (app_assoc values extra _)) (eq_trans Hst (app_assoc vs js bs))) as Hst'.
  - destruct l; [| done]. injection Ht as <-. cbn [t_types t_base t_at] in *. unfold branch. cbn [lookup list_lookup length Nat.eqb].
    eexists; split; [done |]. intros vars tmp globs ms Hs Hf. apply fmap_nil_inv in Hbs as ->.
    rewrite Harity, (take_prefix _ _ _ _ _ Hst) by (rewrite <- ?Hvs, ?length_fmap in *; done).
    exists 1%nat. split; [done |]. exists (Config None (vs ++ []) vars tmp globs ms). split.
    + econstructor; [done | by rewrite (run_one _ _ _ _ _ _ _ Hret) | by constructor].
    + rewrite app_nil_r in *. by split.
  - destruct l as [| l].
    + injection Ht as <-. cbn [t_types t_base t_at] in *. unfold branch. cbn [lookup list_lookup loop_body label_arity following]. 
      eexists; split; [done |]. intros vars tmp globs ms Hs Hf. exists 0%nat. split; [lia |].
      exists (Config (Some k) (vs ++ bs) vars tmp globs ms). split; [by constructor |].
      rewrite (take_prefix _ _ _ _ _ Hst) by (rewrite <- ?Hvs, ?length_fmap in *; done).
      split; [done |]. exists k, Ls, base, k1, ts1. split_and!; try done.
      * by rewrite (below_suffix _ _ _ _ _ (Cont _ _ _ _) _ _ _ Hc Hst' Hbs), app_assoc.
      * by rewrite fmap_app, Hvs.
    + cbn [fmap list_fmap concat] in Hst. rewrite (app_assoc extra) in Hst.
      apply (IH l _ Ht Hlen Hst Hvs Hbs).
  - destruct l as [| l].
    + injection Ht as <-. cbn [t_types t_base t_at] in *. apply fmap_nil_inv in Hvs as ->. unfold branch. cbn.
      eexists; split; [done |]. intros vars tmp globs ms Hs Hf. exists 0%nat. split; [lia |].
      exists (Config (Some ks) bs vars tmp globs ms). split; [by constructor |].
      split; [done |]. exists ks, (Target ks [] ((fst <$> saved) ++ base) :: Ls), ((fst <$> saved) ++ base), k, ts. split_and!; try done.
      * by rewrite (below_suffix _ _ _ _ _ (Cont _ _ _ _) _ _ _ Hc Hst' Hbs).
      * by econstructor.
    + cbn [fmap list_fmap concat] in Hst. rewrite (app_assoc extra) in Hst.
      apply (IH l _ Ht Hlen Hst Hvs Hbs).
Qed.

Lemma quiet_fits m c c' : quiet m c c' -> fits c'.
Proof using. by induction 1. Qed.

(** A branch of the structured code, and a jump that arrives in [n] steps. *)
Lemma branch_nearly conts Ls base k' ts' l t values σ n q vars tmp globs ms :
  continued conts Ls base k' ts' -> Ls !! l = Some t -> (length (t_types t) <= length values)%nat ->
  jumps vars globs ms n q t (values ++ concat (below <$> conts)) tmp ->
  store_like σ (Config (Some q) (values ++ concat (below <$> conts)) vars tmp globs ms) ->
  exists s' m, branch I l conts values σ = [Steps s'] /\ (n <= m < slack)%nat /\
    nearly m s' (Config (Some q) (values ++ concat (below <$> conts)) vars tmp globs ms).
Proof using Harity Hrt.
  intros Hc Ht Hlen (vs & js & bs & tmp' & Hst & Hvs & Hbs & Hn & Hq) Hσ.
  destruct (branch_sim _ _ _ _ _ l t values [] vs js bs σ Hc Ht Hlen Hst Hvs Hbs) as (s' & Hb & Ha).
  destruct (Ha vars tmp' globs ms Hσ (quiet_fits _ _ _ Hq)) as (m & Hm & c' & Hq' & Hs).
  exists s', (n + m)%nat. split_and!; [done | lia | unfold slack; lia |]. exists c'. split; [by eapply quiet_app | done].
Qed.

(** *** Every step *)

(** The flat program and the structured code in a body, with the values [values] of the block. *)
Definition inside (conts : list cont) (values : list val) (σ : store) (k : nat) (c : config) : Prop :=
  fits c /\ pc c = Some k /\ stack c = values ++ concat (below <$> conts) /\ store_like σ c.

Lemma inside_synced code conts values σ k c Ls base k' ts' :
  inside conts values σ k c -> laid Ls base k (fst <$> values) code k' ts' -> continued conts Ls base k' ts' ->
  synced (Running code conts values σ) c.
Proof using. intros (? & ? & ? & ?) ? ?. split; [done |]. by exists k, Ls, base, k', ts'. Qed.


Lemma step_operation e es conts values σ i :
  operation I e (fst <$> values) = Some i -> step I (Running (e :: es) conts values σ) = after es conts <$> step_instr 0 i (view values σ).
Proof using. intros H. destruct e; try done; cbn [step]; by rewrite H. Qed.

Lemma advance_plain e i ts1 es conts values σ k c Ls base k' ts' :
  inside conts values σ k c -> operation I e (fst <$> values) = Some i -> prog !! k = Some i ->
  succs lt gt rt nm k i (fst <$> values) = Some [(S k, ts1)] -> may_read readable i ->
  size_bytes ts1 <= size_bytes (fst <$> values) \/ size_bytes (ts1 ++ base) <= limit ->
  laid Ls base (S k) ts1 es k' ts' -> continued conts Ls base k' ts' -> advances (Running (e :: es) conts values σ) c.
Proof using Harity Hrt.
  intros (Hf & Hk & Hst & Hv & Hg & Hm & Hgt & Hnm) Hop Hi Hs Hr Hsize Hl Hc. destruct c as [pc0 st vars tmp globs ms], σ as [sv sg sm].
  cbn in *. subst pc0 st sg sm.
  destruct (plain_similar lt gt rt nm readable k values (concat (below <$> conts)) sv vars globs tmp ms Hv Hgt Hnm i ts1
    (operation_plain _ _ _ _ Hop) Hs Hr) as [Hne Hall].
  unfold advances, sstep. cbn [pc]. rewrite Hi. split; [by inversion Hall; subst |].
  intros r Hin. apply list_elem_of_In, list_elem_of_lookup in Hin as [j Hj].
  destruct (Forall2_lookup_r _ _ _ _ _ Hall Hj) as (r1 & Hj1 & Hlike).
  assert (In (after es conts r1) (step I (Running (e :: es) conts values (Store sv globs ms)))) as Hin.
  { rewrite (step_operation _ _ _ _ _ _ Hop). apply list_elem_of_In, list_elem_of_fmap. exists r1. split; [done |]. by eapply list_elem_of_lookup_2. }
  destruct r1 as [c1 | f1], r as [c2 | f2]; simpl in Hlike; [| done | done | subst f2; eexists 0%nat, _; split; [constructor | exact Hin]].
  destruct Hlike as (H1 & H2 & H3 & H4 & H5 & H6 & H7 & H8).
  exists 1%nat, (Running es conts (stack c1) (Store (FlatWasm.vars c1) (FlatWasm.globs c1) (mems c1))), 0%nat.
  split_and!; [lia | by eapply steps_step; [| constructor] | lia |]. apply nearly_0.
  eapply (inside_synced _ _ _ _ (S k)); [| by rewrite H3 | done].
  split_and!; [| done | done |].
  - unfold fits in *. cbn [stack] in Hf. rewrite H2, fmap_app, H3, size_bytes_app.
    rewrite fmap_app, size_bytes_app in Hf. rewrite (continued_base _ _ _ _ _ Hc), size_bytes_app in Hsize. lia.
  - split_and!; [done | by cbn.. | by rewrite H5 | by rewrite H6].
Qed.

Lemma advance_return es junk conts values σ k c base :
  inside conts values σ k c -> (length rt <= length (fst <$> values))%nat -> base = fst <$> concat (below <$> conts) ->
  (fst <$> values) ++ base = rt ++ junk -> code_at prog k (repair rt junk ++ [Return]) ->
  advances (Running (IReturn :: es) conts values σ) c.
Proof using Harity Hrt.
  intros (Hf & Hk & Hst & Hσ) Hlen -> Hts Hc. destruct c as [pc0 st vars tmp globs ms]. cbn [pc stack] in *. subst pc0.
  rewrite <- fmap_app in Hts. apply fmap_app_inv in Hts as (vs & js & Hvs & -> & E).
  assert (st = vs ++ js) as -> by exact (eq_trans Hst E). clear Hst.
  pose proof (code_at_length _ _ Hc) as Hcl. apply code_at_app in Hc as [Hc Hr]. apply code_at_cons in Hr as [Hr _].
  rewrite length_app in Hcl. simpl in Hcl. rewrite Hvs in *. rewrite length_fmap in *. 
  destruct (repair_quiet vars globs ms k vs js [] tmp Hrt) as [tmp' Hq]; [done | by rewrite app_nil_r |].
  rewrite !app_nil_r in Hq. 
  assert (nearly (length (repair (fst <$> vs) (fst <$> js)) + 1) (Finished vs σ) (Config (Some k) (vs ++ js) vars tmp globs ms)) as Hn.
  { exists (Config None vs vars tmp' globs ms).
    assert (forall pc, fits (Config pc vs vars tmp' globs ms)) as Hf' by (intros; apply (fits_skip vs js [] _ _ Hf); cbn; by rewrite ?app_nil_r).
    split; [| by split; [apply Hf' |]]. eapply quiet_app; [done |]. econstructor; [apply Hf' | by rewrite (run_one _ _ _ _ _ _ _ Hr) | by constructor]. }
  rewrite Nat.add_1_r in Hn. eapply advances_nearly; [| exact Hn |]; [| unfold slack; lia].
  rewrite length_fmap in Hlen. cbn [step].
  assert (take (result_arity I) values = vs) as -> by (eapply take_prefix; [exact E | exact Harity | rewrite Harity; exact Hlen]). done.
Qed.

Lemma advance_br l t es conts values σ k c Ls base k' ts' :
  inside conts values σ k c -> continued conts Ls base k' ts' -> Ls !! l = Some t -> (length (t_types t) <= length (fst <$> values))%nat ->
  goes_to prog k t ((fst <$> values) ++ base) -> advances (Running (IBr l :: es) conts values σ) c.
Proof using Harity Hrt.
  intros (Hf & Hk & Hst & Hσ) Hc Ht Hlen Hg. destruct c as [pc0 st vars tmp globs ms]. cbn [pc stack] in *. subst pc0 st.
  rewrite (continued_base _ _ _ _ _ Hc), <- fmap_app in Hg. destruct (goes_jumps vars globs ms k t _ tmp Hg Hf) as [n Hj].
  rewrite length_fmap in Hlen. destruct (branch_nearly _ _ _ _ _ _ _ _ _ _ _ _ _ _ _ Hc Ht Hlen Hj Hσ) as (s' & m & Hb & [Hn Hm] & Hs).
  destruct m as [| m]; [lia |]. eapply advances_nearly; [exact Hb | exact Hs | lia].
Qed.

(** A jump after a test of the top value. *)
Lemma advance_jump l t q z s conts values σ k c Ls base k' ts' :
  inside conts ((WasmTypes.i32, z) :: values) σ k c -> continued conts Ls base k' ts' ->
  Ls !! l = Some t -> (length (t_types t) <= length (fst <$> values))%nat ->
  leads prog q t ((fst <$> values) ++ base) ->
  (forall st vars tmp globs ms, sstep prog (Config (Some k) ((WasmTypes.i32, z) :: st) vars tmp globs ms) = [Next (Config (Some q) st vars tmp globs ms)]) ->
  step I s = branch I l conts values σ -> advances s c.
Proof using Harity Hrt.
  intros (Hf & Hk & Hst & Hσ) Hc Ht Hlen Hg Hstep Hs. destruct c as [pc0 st vars tmp globs ms]. cbn [pc stack] in *. subst pc0 st.
  rewrite (continued_base _ _ _ _ _ Hc), <- fmap_app in Hg.
  assert (fits (Config (Some q) (values ++ concat (below <$> conts)) vars tmp globs ms)) as Hf'
    by (by apply (fits_skip [] [(WasmTypes.i32, z)] (values ++ concat (below <$> conts)) _ _ Hf)).
  destruct (leads_jumps vars globs ms q t _ tmp Hg Hf') as [n Hj].
  rewrite length_fmap in Hlen.
  destruct (branch_nearly _ _ _ _ _ _ _ _ _ _ _ _ _ _ _ Hc Ht Hlen Hj Hσ) as (s' & m & Hb & [Hn Hm] & Hs').
  eapply advances_one; [by apply Hstep | by rewrite Hs | | exact Hs']. lia.
Qed.

Lemma advance_if r body1 body2 q es conts values z σ k c :
  inside conts ((WasmTypes.i32, z) :: values) σ k c -> prog !! k = Some (Eqz false) -> prog !! S k = Some (BrIf q) ->
  (forall c', inside (Cont None (length r) es values :: conts) [] σ (if z =? 0 then q else S (S k)) c' ->
    synced (Running (if z =? 0 then body2 else body1) (Cont None (length r) es values :: conts) [] σ) c') ->
  advances (Running (IIf r body1 body2 :: es) conts ((WasmTypes.i32, z) :: values) σ) c.
Proof using Harity Hrt.
  intros (Hf & Hk & Hst & Hσ) H1 H2 Hs. destruct c as [pc0 st vars tmp globs ms]. cbn [pc stack] in *. subst pc0 st.
  eapply (advances_one _ _ _ _ 1); [by rewrite (run_one _ _ _ _ _ _ _ H1) | done | unfold slack; lia |].
  set (c2 := Config (Some (if z =? 0 then q else S (S k))) (values ++ concat (below <$> conts)) vars tmp globs ms).
  assert (fits c2) as Hf2 by (by apply (fits_skip [] [(WasmTypes.i32, z)] (values ++ concat (below <$> conts)) _ _ Hf)).
  exists c2. split; [| apply Hs; by split_and!]. apply (quiet_step 0 _ c2); [by apply Hf | | by constructor].
  unfold goto. cbn [FlatWasm.vars scratch FlatWasm.globs mems app]. rewrite (run_one _ _ _ _ _ _ _ H2).
  cbn. by destruct (z =? 0).
Qed.

(** Where the code of a block ends. *)
Lemma advance_end s conts values σ k c Ls base ts :
  inside conts values σ k c -> ts = fst <$> values -> continued conts Ls base k ts -> s = Running [] conts values σ ->
  advances s c \/ exists s', step I s = [Steps s'] /\ synced s' c /\ (state_size s' < state_size s)%nat.
Proof using Harity Hrt.
  intros (Hf & Hk & Hst & Hσ) Hts Hc ->. destruct c as [pc0 st vars tmp globs ms]. cbn [pc stack] in *. subst pc0 st.
  inversion Hc as [k0 Hret | next saved conts' Ls' base' k1 k0 ts0 k' ts' Hk Hl Hc' | body next saved conts' Ls' base' ks k0 ts0 k' ts' Hb Hl Hc']; subst.
  - left. eapply advances_one; [by rewrite (run_one _ _ _ _ _ _ _ Hret) | done | apply Nat.le_0_l |].
    apply nearly_0. cbn. rewrite app_nil_r in *. by split_and!.
  - assert (forall c', inside conts' (values ++ saved) σ k0 c' -> synced (Running next conts' (values ++ saved) σ) c') as Hs.
    { intros c' Hin. eapply inside_synced; [done | by rewrite fmap_app | done]. }
    destruct Hk as [-> | Hbr].
    + right. eexists; split; [done |]. split; [| simpl; lia]. apply Hs. split_and!; try done. cbn. by rewrite app_assoc.
    + left. eapply advances_one; [by rewrite (run_one _ _ _ _ _ _ _ Hbr) | done | apply Nat.le_0_l |].
      apply nearly_0. apply Hs. split_and!; try done. cbn. by rewrite app_assoc.
  - right. eexists; split; [done |]. split; [| simpl; lia]. eapply (inside_synced _ _ _ _ k); [| by rewrite fmap_app | done].
    split_and!; try done. cbn. by rewrite app_assoc.
Qed.

Lemma advance_br_if l t q es conts values z σ k c Ls base k' ts' :
  inside conts ((WasmTypes.i32, z) :: values) σ k c -> continued conts Ls base k' ts' ->
  Ls !! l = Some t -> (length (t_types t) <= length (fst <$> values))%nat -> prog !! k = Some (BrIf q) ->
  leads prog q t ((fst <$> values) ++ base) -> laid Ls base (S k) (fst <$> values) es k' ts' ->
  advances (Running (IBrIf l :: es) conts ((WasmTypes.i32, z) :: values) σ) c.
Proof using Harity Hrt.
  intros Hin Hc Ht Hlen Hi Hq Hl. destruct (z =? 0) eqn:Hz.
  - destruct Hin as (Hf & Hk & Hst & Hσ). destruct c as [pc0 st vars tmp globs ms]. cbn [pc stack] in *. subst pc0 st.
    eapply advances_one; [by rewrite (run_one _ _ _ _ _ _ _ Hi); cbn; rewrite Hz | by cbn; rewrite Hz | apply Nat.le_0_l |].
    apply nearly_0. eapply (inside_synced _ _ _ _ (S k)); [| done..]. split_and!; try done.
    by apply (fits_skip [] [(WasmTypes.i32, z)] (values ++ concat (below <$> conts)) _ _ Hf).
  - eapply advance_jump; [done.. | |].
    + intros. rewrite (run_one _ _ _ _ _ _ _ Hi). cbn. by rewrite Hz.
    + cbn. by rewrite Hz.
Qed.

Lemma advance_br_table ls l qs q es conts values z σ k c Ls base k' ts' :
  inside conts ((WasmTypes.i32, z) :: values) σ k c -> continued conts Ls base k' ts' -> prog !! k = Some (BrTable qs q) ->
  Forall2 (fun l q => exists t, Ls !! l = Some t /\ (length (t_types t) <= length (fst <$> values))%nat /\
    leads prog q t ((fst <$> values) ++ base)) (ls ++ [l]) (qs ++ [q]) ->
  advances (Running (IBrTable ls l :: es) conts ((WasmTypes.i32, z) :: values) σ) c.
Proof using Harity Hrt.
  intros Hin Hc Hi Hall. apply Forall2_app_inv_l in Hall as (qs' & q' & Hqs & Hq & E).
  inversion Hq as [| ? y ? ? (t & Ht) Hn]; subst. inversion Hn; subst. apply app_inj_tail in E as [<- <-].
  assert (exists t, Ls !! default l (ls !! Z.to_nat z) = Some t /\ (length (t_types t) <= length (fst <$> values))%nat /\
    leads prog (default q (qs !! Z.to_nat z)) t ((fst <$> values) ++ base)) as (t' & H1 & H2 & H3).
  { destruct (ls !! Z.to_nat z) as [l' |] eqn:El.
    - destruct (Forall2_lookup_l _ _ _ _ _ Hqs El) as (q' & Eq & t' & Ht'). rewrite Eq. by exists t'.
    - assert (qs !! Z.to_nat z = None) as -> by (apply lookup_ge_None; rewrite <- (Forall2_length Hqs); by apply lookup_ge_None).
      by exists t. }
  eapply advance_jump; [done.. | |].
  - intros. by rewrite (run_one _ _ _ _ _ _ _ Hi).
  - done.
Qed.

Lemma continued_body r es (values : list val) conts Ls base k1 ke k' ts' :
  k1 = ke \/ prog !! k1 = Some (Br ke) -> laid Ls base ke (rev r ++ (fst <$> values)) es k' ts' -> continued conts Ls base k' ts' ->
  continued (Cont None (length r) es values :: conts) (Target ke (rev r) ((fst <$> values) ++ base) :: Ls) ((fst <$> values) ++ base) k1 (rev r).
Proof using. rewrite <- (length_rev r). by econstructor. Qed.

(** Every state that is not finished advances. *)
Lemma advance s c : synced s c -> pc c <> None -> advances s c.
Proof using Harity Hrt.
  remember (state_size s) as n eqn:Hn. revert s c Hn. induction n as [n IH] using lt_wf_ind. intros s c -> [Hf Hs] Hpc.
  destruct s as [code conts values σ | values σ]; [| by destruct Hs].
  destruct Hs as (k & Ls & base & k' & ts' & Hk & Hst & Hσ & Hl & Hc).
  assert (inside conts values σ k c) as Hin by done.
  assert (forall m s', steps I m (Running code conts values σ) s' -> synced s' c -> (state_size s' < state_size (Running code conts values σ))%nat ->
    advances (Running code conts values σ) c) as later by (intros m s' H1 H2 H3; eapply advances_later; [exact H1 | by eapply IH]).
  pose proof (continued_base _ _ _ _ _ Hc) as Hbase.
  remember (fst <$> values) as ts eqn:Hts. destruct Hl; try (symmetry in Hts; apply cons_type in Hts as (z & values' & -> & Hts)); subst.
  - edestruct advance_end as [H | (s' & H1 & H2 & H3)]; [exact Hin | done | exact Hc | done | exact H |].
    by eapply (later 1%nat); [eapply steps_one | ..].
  - by eapply advance_plain.
  - eapply (later 1%nat); [by eapply steps_one | by eapply inside_synced | simpl; lia].
  - destruct Hin as (_ & Hk' & _). unfold advances, sstep. rewrite Hk', H. cbn. split; [done |].
    intros r [<- | []]. exists 0%nat. eexists. split; [constructor | by left].
  - by eapply advance_return.
  - by eapply advance_br.
  - by eapply advance_br_if.
  - by eapply advance_br_table.
  - eapply (later 1%nat); [by eapply steps_one | eapply inside_synced; [| exact Hl1 | by eapply continued_body; [left | ..]] | cbn [state_size code_size]; rewrite block_size; simpl; lia].
    by destruct Hin as (? & ? & ? & ?).
  - eapply (later 1%nat); [by eapply steps_one | eapply inside_synced; [| exact Hl1 | by econstructor] | cbn [state_size code_size]; rewrite loop_size; simpl; lia].
    by destruct Hin as (? & ? & ? & ?).
  - eapply advance_if; [exact Hin | done..|]. intros c' Hin'. destruct (z =? 0); eapply inside_synced.
    + exact Hin'.
    + exact Hl2.
    + by eapply continued_body; [left | ..].
    + exact Hin'.
    + exact Hl1.
    + by eapply continued_body; [right | ..].
  - eapply advance_if; [exact Hin | done..|]. intros c' Hin'. destruct (z =? 0); eapply inside_synced.
    + exact Hin'.
    + by constructor.
    + by eapply (continued_body []); [left | ..].
    + exact Hin'.
    + exact Hl1.
    + by eapply (continued_body []); [left | ..].
  - destruct (elided_steps I consts es conts values σ H) as [m Hm].
    eapply later; [exact Hm | by eapply inside_synced |]. cbn [state_size]. rewrite !code_size_app.
    destruct consts as [| e consts]; [simpl in *; lia |]. simpl. destruct e; simpl; lia.
Qed.

(** *** Runs *)

Lemma nearly_progress m s c : nearly m s c -> pc c <> None -> sstep prog c <> [].
Proof using Harity Hrt.
  intros (c' & Hq & Hs) Hpc. inversion Hq as [| ? ? c2 ? ? Hc2]; subst; [by apply (advance s) | by rewrite Hc2].
Qed.

Lemma nearly_fits m s c : nearly m s c -> fits c.
Proof using. intros (c' & Hq & Hs). by inversion Hq. Qed.

Lemma nearly_finished m s c : nearly m s c -> pc c = None ->
  exists σ, s = Finished (stack c) σ /\ store_like σ c /\ fst <$> stack c = rt.
Proof using.
  intros (c' & Hq & Hs) Hpc. inversion Hq as [| ? ? c2 ? ? Hc2]; subst; [| by unfold sstep in Hc2; rewrite Hpc in Hc2].
  destruct Hs as [_ Hs], s as [code conts values σ | values σ]; [destruct Hs as (k & ? & ? & ? & ? & Hk & _); congruence |].
  destruct Hs as (_ & <- & Hσ & Hrt'). by exists σ.
Qed.

Lemma nearly_fault m s c f : nearly m s c -> In (Fault f) (sstep prog c) -> exists n s', steps I n s s' /\ In (Fails f) (step I s').
Proof using Harity Hrt.
  intros (c' & Hq & Hs) Hin. inversion Hq as [| ? ? c2 ? ? Hc2]; subst; [| rewrite Hc2 in Hin; by destruct Hin].
  destruct (advance s c' Hs) as [_ H2]; [| exact (H2 _ Hin)]. intros Hpc. unfold sstep in Hin. by rewrite Hpc in Hin.
Qed.

(** A run of the flat program is a run of the structured code, and not a much shorter one. *)
Lemma run_matched n c c' : ssteps prog n c c' -> forall m s, nearly m s c -> (m <= slack)%nat ->
  exists j s' m', steps I j s s' /\ (m' <= slack)%nat /\ nearly m' s' c' /\ (n + m' <= m + j * S slack)%nat.
Proof using Harity Hrt.
  induction 1 as [c | n c c1 c2 Hin _ IH]; intros m s Hn Hm; [exists 0%nat, s, m; split_and!; [constructor | done.. | lia] |].
  destruct m as [| m].
  - destruct Hn as (c' & Hq & Hs). inversion Hq; subst.
    assert (pc c' <> None) as Hpc by (intros Hpc; unfold sstep in Hin; by rewrite Hpc in Hin).
    destruct (advance s c' Hs Hpc) as [_ Hadv]. destruct (Hadv _ Hin) as (j1 & s1 & m1 & Hj1 & Hs1 & Hm1 & Hn1).
    destruct (IH m1 s1 Hn1 Hm1) as (j2 & s2 & m2 & Hs2 & Hm2 & Hn2 & Hle).
    exists (j1 + j2)%nat, s2, m2. split_and!; [by eapply steps_app | done..|]. nia.
  - destruct Hn as (c' & Hq & Hs). inversion Hq as [| ? ? c1' ? ? Hc1 Hq1]; subst. rewrite Hc1 in Hin. destruct Hin as [[= ->] | []].
    destruct (IH m s) as (j & s2 & m2 & Hs2 & Hm2 & Hn2 & Hle); [by exists c' | lia |].
    exists j, s2, m2. split_and!; [done.. | lia].
Qed.
End Simulation.

(** ** Function bodies *)

(** A flat program that is the code of a function body. *)
Definition body_laid I lt gt rt nm prog readable limit (body : list WasmSpec.instr) : Prop :=
  exists k, prog !! k = Some Return /\
    laid I lt gt rt nm prog readable limit [Target k rt []] [] 0 [] body k rt.

Lemma start_synced I lt gt rt nm prog readable limit body σ c :
  body_laid I lt gt rt nm prog readable limit body -> 0 <= limit ->
  pc c = Some 0%nat -> stack c = [] -> store_like lt gt nm readable σ c ->
  nearly I lt gt rt nm prog readable limit 0 (Running body [] [] σ) c.
Proof.
  intros (k & Hk & Hl) Hlim Hpc Hst Hσ. apply nearly_0. split; [unfold fits; by rewrite Hst |].
  exists 0%nat, [Target k rt []], [], k, rt. split_and!; try done. by constructor.
Qed.
