(* ===== verification/TranslatorState.v ===== *)
(** * State and helpers of the translator

    [compile_all_from_uwvm/translate]: the variables of [single_func_context.h], with the
    operations on the operand stack, the emission helpers of [single_func_emit_helpers.h], and the
    reading of immediates from the bytes of the code.
    The mode is that of [Interpreter]: no tail calls, so no values cached in registers
    ([stacktop_enabled] is false), no fused instructions, no polls of the tiered mode and no
    exceptions. The value types are those of Release 1.0; the richer types that later releases
    keep beside them are left out, and the features of later releases are disabled.

    Vectors used as stacks are lists whose head is [back()]. Code is a list of complete slots,
    as in [Interpreter], so an offset counts slots; [SIZE_MAX] in a label is [None]. *)

From stdpp Require Import base list numbers.
From Stdlib Require Import ZArith Lia.
From S2P Require Import Prelude Leb128 WasmTypes ValidationError Interpreter.
Open Scope Z_scope.

(** ** Data *)

Module block_type.
Inductive t := function | block | loop | if_ | else_.
#[global] Instance eq_dec : EqDecision t.
Proof. solve_decision. Defined.
End block_type.

(** A block of Release 1.0 takes no values: [start] is empty and is left out. *)
Record block_t := Block {
  label : list value_type;
  result : list value_type;
  operand_stack_base : nat;
  blk_type : block_type.t;
  polymorphic_base : bool;
  start_label_id : option nat;
  end_label_id : option nat;
  else_label_id : option nat;
}.

(** [operand_stack_storage_t]; an unknown operand has the type [i32]. *)
Record operand := Operand { otype : value_type; is_unknown : bool }.

Record label_info_t := LabelInfo { offset : option nat; in_thunk : bool }.
Record ptr_fixup_t := PtrFixup { site : nat; label_id : nat; site_in_thunk : bool }.

(** The code that is emitted: the main code, the code out of line, the labels, and the places
    where their addresses go. *)
Record buffers := Buffers {
  bytecode : list slot;
  thunks : list slot;
  labels : list label_info_t;
  ptr_fixups : list ptr_fixup_t;
}.

Record tstate := TState {
  code_curr : nat;
  out : buffers;
  control_flow_stack : list block_t;
  operand_stack : list operand;
  is_polymorphic : bool;
  operand_stack_bytes : Z;
  runtime_operand_stack_max : Z;
  runtime_operand_stack_byte_max : Z;
  local_bytes_zeroinit_end : Z;
}.

(** What is constant while a function is translated: its code and type, the types of its locals
    with the parameters first, the number of temporary locals, the globals with whether they are
    mutable and where they are stored, the memory with the limit of its length, and two choices of
    the configuration: how [br_table] compares labels, and how wide an offset is encoded. *)
Record tenv := TEnv {
  code : list Z;
  results : list value_type;
  param_count : nat;
  local_types : list value_type;
  internal_temp_local_count : nat;
  globals : list (value_type * bool * nat);
  memory : option (nat * Z);
  uses_mvp_validation_rules : bool;
  uses_core3_validation_policy : bool;
}.

(** Why a translation stops: an error of the validation that accompanies it, with the code that is
    stored in [err] (positions and payloads are left out); [fast_terminate]; or, in this model only,
    an instruction that is not modelled. *)
Inductive failure := Invalid (err_code : code_validation_error_code.code) | Terminate | NotModelled.

Abbreviation M := (SM tstate failure).

Definition require (err_code : code_validation_error_code.code) (b : bool) : M unit :=
  sm_when (negb b) (sm_throw (Invalid err_code)).

(** ** Updates *)

Definition set_code_curr (p : nat) (s : tstate) : tstate :=
  TState p (out s) (control_flow_stack s) (operand_stack s) (is_polymorphic s) (operand_stack_bytes s) (runtime_operand_stack_max s) (runtime_operand_stack_byte_max s) (local_bytes_zeroinit_end s).
Definition set_out (b : buffers) (s : tstate) : tstate :=
  TState (code_curr s) b (control_flow_stack s) (operand_stack s) (is_polymorphic s) (operand_stack_bytes s) (runtime_operand_stack_max s) (runtime_operand_stack_byte_max s) (local_bytes_zeroinit_end s).
Definition set_control_flow_stack (cs : list block_t) (s : tstate) : tstate :=
  TState (code_curr s) (out s) cs (operand_stack s) (is_polymorphic s) (operand_stack_bytes s) (runtime_operand_stack_max s) (runtime_operand_stack_byte_max s) (local_bytes_zeroinit_end s).
Definition set_operand_stack (os : list operand) (bytes : Z) (s : tstate) : tstate :=
  TState (code_curr s) (out s) (control_flow_stack s) os (is_polymorphic s) bytes (runtime_operand_stack_max s) (runtime_operand_stack_byte_max s) (local_bytes_zeroinit_end s).
Definition set_polymorphic (b : bool) (s : tstate) : tstate :=
  TState (code_curr s) (out s) (control_flow_stack s) (operand_stack s) b (operand_stack_bytes s) (runtime_operand_stack_max s) (runtime_operand_stack_byte_max s) (local_bytes_zeroinit_end s).
Definition set_max (count bytes : Z) (s : tstate) : tstate :=
  TState (code_curr s) (out s) (control_flow_stack s) (operand_stack s) (is_polymorphic s) (operand_stack_bytes s) count bytes (local_bytes_zeroinit_end s).
Definition set_zeroinit_end (n : Z) (s : tstate) : tstate :=
  TState (code_curr s) (out s) (control_flow_stack s) (operand_stack s) (is_polymorphic s) (operand_stack_bytes s) (runtime_operand_stack_max s) (runtime_operand_stack_byte_max s) n.

(** ** The operand stack *)

(** [operand_stack_valtype_size] *)
Definition valtype_size (t : value_type) : Z := Z.of_nat (size_of t).

Fixpoint repeat_m (n : nat) (m : M unit) : M unit := match n with O => mret tt | S n => m;; repeat_m n m end.
Fixpoint for_each {A} (l : list A) (f : A -> M unit) : M unit := match l with [] => mret tt | x :: l => f x;; for_each l f end.

Definition operand_stack_push (vt : value_type) : M unit :=
  sm_modify (fun s => set_operand_stack (Operand vt false :: operand_stack s) (operand_stack_bytes s + valtype_size vt) s);;
  s ← sm_get;
  sm_when (negb (is_polymorphic s))
    (sm_modify (set_max (Z.max (zlen (operand_stack s)) (runtime_operand_stack_max s))
       (Z.max (operand_stack_bytes s) (runtime_operand_stack_byte_max s)))).

Definition operand_stack_pop_unchecked : M unit :=
  s ← sm_get;
  match operand_stack s with
  | [] => mret tt
  | o :: os =>
      sm_when (operand_stack_bytes s <? valtype_size (otype o)) (sm_throw Terminate);;
      sm_modify (set_operand_stack os (operand_stack_bytes s - valtype_size (otype o)))
  end.

Definition curr_frame_operand_stack_base (s : tstate) : nat :=
  match control_flow_stack s with [] => 0 | frame :: _ => operand_stack_base frame end.

Definition concrete_operand_count (s : tstate) : nat :=
  let base := curr_frame_operand_stack_base s in
  let stack_size := length (operand_stack s) in
  if (base <=? stack_size)%nat then (stack_size - base)%nat else 0%nat.

(** [while(n-- != 0 && operand_stack.size() > base)] *)
Definition operand_stack_pop_n (n : nat) : M unit :=
  s ← sm_get;
  repeat_m (n `min` (length (operand_stack s) - curr_frame_operand_stack_base s))%nat operand_stack_pop_unchecked.

(** [while(operand_stack.size() > new_size)] *)
Definition operand_stack_truncate_to (new_size : nat) : M unit :=
  s ← sm_get;
  repeat_m (length (operand_stack s) - new_size)%nat operand_stack_pop_unchecked.

(** [None] is an operand that is not on the stack. *)
Definition try_pop_concrete_operand : M (option operand) :=
  s ← sm_get;
  if (concrete_operand_count s =? 0)%nat then mret None
  else operand_stack_pop_unchecked;; mret (head (operand_stack s)).

Definition try_peek_concrete_operand : M (option operand) :=
  s ← sm_get;
  mret (if (concrete_operand_count s =? 0)%nat then None else head (operand_stack s)).

Definition pop_available_concrete_operands (count : nat) : M unit :=
  s ← sm_get;
  repeat_m (count `min` concrete_operand_count s)%nat operand_stack_pop_unchecked.

(** [stack_entry_type_matches] *)
Definition stack_entry_type_matches (o : operand) (expected_type : value_type) : bool :=
  is_unknown o || bool_decide (otype o = expected_type).
Definition operand_type_matches (o : option operand) (expected_type : value_type) : bool :=
  match o with None => true | Some o => stack_entry_type_matches o expected_type end.

Definition push_unknown_operand : M unit :=
  operand_stack_push i32;;
  sm_modify (fun s => set_operand_stack (match operand_stack s with [] => [] | o :: os => Operand (otype o) true :: os end)
    (operand_stack_bytes s) s).

(** Fewer operands than [n] are an error unless the stack is polymorphic. *)
Definition underflow_unless (n : nat) : M unit :=
  s ← sm_get; require cvec.operand_stack_underflow (is_polymorphic s || (n <=? concrete_operand_count s)%nat).

(** The loops that compare the operands of the frame with expected types, the last on the top. *)
Definition operands_match (types : list value_type) (s : tstate) : bool :=
  forallb (fun '(o, t) => stack_entry_type_matches o t) (zip (take (concrete_operand_count s) (operand_stack s)) (rev types)).

Definition block_push_types (types : list value_type) : M unit := for_each types operand_stack_push.

(** ** Emission *)

(** The two vectors of code: [bytecode], and [thunks] for [dst_is_thunk]. *)
Definition buffer (thunk : bool) (b : buffers) : list slot := if thunk then thunks b else bytecode b.

Definition add_slot (thunk : bool) (v : slot) (b : buffers) : buffers :=
  if thunk then Buffers (bytecode b) (thunks b ++ [v]) (labels b) (ptr_fixups b)
  else Buffers (bytecode b ++ [v]) (thunks b) (labels b) (ptr_fixups b).
Definition add_fixup (fx : ptr_fixup_t) (b : buffers) : buffers := Buffers (bytecode b) (thunks b) (labels b) (ptr_fixups b ++ [fx]).
Definition with_labels (ls : list label_info_t) (b : buffers) : buffers := Buffers (bytecode b) (thunks b) ls (ptr_fixups b).

Definition emit_imm_to (thunk : bool) (v : slot) : M unit := sm_modify (fun s => set_out (add_slot thunk v (out s)) s).
Definition emit_opfunc_to (thunk : bool) (f : opfunc) : M unit := emit_imm_to thunk (Opfunc f).

Definition new_label (in_thunk : bool) : M nat :=
  s ← sm_get;
  sm_modify (set_out (with_labels (labels (out s) ++ [LabelInfo None in_thunk]) (out s)));;
  mret (length (labels (out s))).

Definition set_label_offset (label_id off : nat) : M unit :=
  s ← sm_get;
  l ← sm_unchecked (labels (out s) !! label_id);
  sm_modify (set_out (with_labels (<[label_id := LabelInfo (Some off) (in_thunk l)]> (labels (out s))) (out s))).

Definition emit_ptr_label_placeholder (label_id : nat) (in_thunk : bool) : M unit :=
  s ← sm_get;
  emit_imm_to in_thunk (Imm 0);;
  sm_modify (fun s' => set_out (add_fixup (PtrFixup (length (buffer in_thunk (out s))) label_id in_thunk) (out s')) s').

Definition get_branch_target_label_id (frame : block_t) : option nat :=
  if bool_decide (blk_type frame = block_type.loop) then start_label_id frame else end_label_id frame.

(** [emit_drop_typed_to] and [emit_drop_typed_to_no_fill], which agree without a register cache. *)
Definition emit_drop_typed_to (thunk : bool) (vt : value_type) : M unit := emit_opfunc_to thunk (uwvmint_drop_typed vt).

Definition emit_drop_to_stack_size_no_fill (thunk : bool) (target_size : nat) : M unit :=
  s ← sm_get;
  for_each (take (length (operand_stack s) - target_size) (operand_stack s)) (fun o => emit_drop_typed_to thunk (otype o)).

Definition emit_local_get_typed_to (thunk : bool) (vt : value_type) (off : Z) : M unit :=
  emit_opfunc_to thunk (uwvmint_local_get_typed vt);; emit_imm_to thunk (Imm off).
Definition emit_local_set_typed_to (thunk : bool) (vt : value_type) (off : Z) : M unit :=
  emit_opfunc_to thunk (uwvmint_local_set_typed vt);; emit_imm_to thunk (Imm off).
Definition emit_local_tee_typed_to (thunk : bool) (vt : value_type) (off : Z) : M unit :=
  emit_opfunc_to thunk (uwvmint_local_tee_typed vt);; emit_imm_to thunk (Imm off).

Definition emit_br_to (thunk : bool) (label_id : nat) : M unit :=
  emit_opfunc_to thunk uwvmint_br;; emit_ptr_label_placeholder label_id thunk.
Definition emit_return_to (thunk : bool) : M unit := emit_opfunc_to thunk uwvmint_return.

Section Locals.
Context (env : tenv).

(** The offset after the locals of the function, and the offsets of the temporary locals, which
    are as large as a [v128]. *)
Definition locals_end : Z := foldr (fun t n => valtype_size t + n) 0 (local_types env).
Definition internal_temp_local_offsets : list Z :=
  (fun i => locals_end + 16 * Z.of_nat i) <$> seq 0 (internal_temp_local_count env).
Definition internal_temp_local_off : Z := default 0 (head internal_temp_local_offsets).
Definition local_bytes_max : Z := locals_end + 16 * Z.of_nat (internal_temp_local_count env).

(** Moving the values of a label over the values below them. *)
Definition emit_preserve_top_values_drop_to_base_restore (thunk : bool) (value_types : list value_type)
    (target_base original_stack_size : nat) : M unit :=
  s ← sm_get;
  let value_count := length value_types in
  let drops n := for_each (take (original_stack_size - n - target_base)
                             (drop (length (operand_stack s) - (original_stack_size - n)) (operand_stack s)))
                   (fun o => emit_drop_typed_to thunk (otype o)) in
  if (value_count =? 0)%nat then drops 0%nat
  else
    sm_when (length internal_temp_local_offsets <? value_count)%nat (sm_throw Terminate);;
    let temps := zip value_types internal_temp_local_offsets in
    for_each (rev temps) (fun '(t, off) => emit_local_set_typed_to thunk t off);;
    drops value_count;;
    for_each temps (fun '(t, off) => emit_local_get_typed_to thunk t off).
End Locals.

(** ** Reading the code *)

Section Reading.
Context (env : tenv).
#[local] Notation code_end := (length (code env)).

(** [parse_by_scan] with [leb128_get] on what is left of the code: the value and the position after it. *)
Definition scan_leb128 (digits : Z) (is_signed : bool) (p : nat) : option (Z * nat) :=
  let r := scn_cnt_define_leb128_impl digits is_signed (drop p (code env)) in
  if bool_decide (pr_code r = pc_ok) then Some (pr_value r, (p + pr_iter r)%nat) else None.

Definition read_leb128 (digits : Z) (is_signed : bool) (err_code : code_validation_error_code.code) : M Z :=
  s ← sm_get;
  match scan_leb128 digits is_signed (code_curr s) with
  | None => sm_throw (Invalid err_code)
  | Some (value, next) => sm_modify (set_code_curr next);; mret value
  end.

Definition read_index (err_code : code_validation_error_code.code) : M nat :=
  value ← read_leb128 32 false err_code; mret (Z.to_nat value).

(** [memcpy] of [n] bytes, without a check. *)
Definition bytes_at (n p : nat) : option (list Z) :=
  if (p + n <=? code_end)%nat then Some (take n (drop p (code env))) else None.

(** [scan < code_end && scan[0] == op] *)
Definition looking_at (scan : nat) (op : Z) : M bool :=
  if (scan <? code_end)%nat then b ← sm_unchecked (code env !! scan); mret (b =? op) else mret false.

Definition is_core3_extended_block_reference_prefix (prefix : Z) : bool :=
  (prefix =? 99) || (prefix =? 100) || ((105 <=? prefix) && (prefix <=? 110)) || ((113 <=? prefix) && (prefix <=? 116)).

(** The types of a block of Release 1.0. With the features of later releases disabled, an abstract
    reference type is an error; [(ref null ht)] and [(ref ht)], whose heap types the code decodes
    further, are not modelled. *)
Definition parse_block_type : M (list value_type) :=
  s ← sm_get;
  sm_when (code_curr s =? code_end)%nat (sm_throw (Invalid cvec.missing_block_type));;
  prefix ← sm_unchecked (code env !! code_curr s);
  if is_core3_extended_block_reference_prefix prefix then
    sm_throw (if (prefix =? 99) || (prefix =? 100) then NotModelled else Invalid cvec.wasm1p1_feature_required)
  else
    blocktype ← read_leb128 64 true cvec.invalid_const_immediate;
    s' ← sm_get;
    let blocktype_encoded_size := (code_curr s' - code_curr s)%nat in
    sm_when ((5 <? blocktype_encoded_size)%nat || ((blocktype <? 0) && negb (blocktype_encoded_size =? 1)%nat))
      (sm_throw (Invalid cvec.illegal_block_type));;
    if blocktype =? -64 then mret []
    else if blocktype =? -1 then mret [i32]
    else if blocktype =? -2 then mret [i64]
    else if blocktype =? -3 then mret [f32]
    else if blocktype =? -4 then mret [f64]
    else if (blocktype =? -5) || (blocktype =? -16) || (blocktype =? -17) then sm_throw (Invalid cvec.wasm1p1_feature_required)
    else if 0 <=? blocktype then sm_throw (Invalid cvec.wasm1p1_feature_required)
    else sm_throw (Invalid cvec.illegal_block_type).

(** One memory at most, with 32-bit addresses. *)
Definition all_memory_count : nat := match memory env with Some _ => 1 | None => 0 end.

(** [scan_memory_argument64] and the checks of [read_memory_argument64]; the result is the offset. *)
Definition read_memory_argument64 (max_alignment : Z) : M Z :=
  alignment ← read_leb128 32 false cvec.invalid_memarg_align;
  require cvec.invalid_memarg_align (alignment <? 128);;
  require cvec.wasm1p1_feature_required (Z.land alignment 64 =? 0);;
  offset ← read_leb128 (if uses_core3_validation_policy env then 64 else 32) false cvec.invalid_memarg_offset;
  require cvec.illegal_memory_index (0 <? all_memory_count)%nat;;
  require cvec.invalid_memarg_offset (offset <=? 2 ^ 32 - 1);;
  require cvec.illegal_memarg_alignment (alignment <=? max_alignment);;
  mret offset.

(** [read_memory_index] and [validate_memory_index]: the index is a zero byte. *)
Definition read_memory_index : M unit :=
  s ← sm_get;
  sm_when (code_curr s =? code_end)%nat (sm_throw (Invalid cvec.invalid_memory_index));;
  b ← sm_unchecked (code env !! code_curr s);
  require cvec.wasm1p1_feature_required (b =? 0);;
  sm_modify (set_code_curr (S (code_curr s)));;
  require cvec.illegal_memory_index (0 <? all_memory_count)%nat.
End Reading.
