(* ===== verification/Translator.v ===== *)
(** * The translator

    The cases of [compile_all_from_uwvm/translate/opcode] that [TranslatorState] says, one
    definition per [case] label, and the loop of [single_func_validation_dispatch.h] over them.
    A case reads its immediates from the bytes of the code, with its own checks; what it does with
    them is a definition of its own where that is long. The [++code_curr] that every case starts
    with is done once, in [translate_one_opcode]. The cases of calls, of the arithmetic on floats
    and of later releases are not modelled: there the model stops with [NotModelled]. *)

From stdpp Require Import base list numbers.
From Stdlib Require Import ZArith Lia.
From S2P Require Import Prelude IeeeBits NumericOps Interpreter WasmTypes ValidationError Leb128 WasmSpec Fetch TranslatorState.
Open Scope Z_scope.

(** What is stored for a function: its code, the bytes of its locals and how many of them are
    initialised, and the largest operand stack. *)
Record compiled_func := CompiledFunc {
  op_operands : list slot;
  cf_local_bytes_max : Z;
  cf_local_bytes_zeroinit_end : Z;
  cf_operand_stack_max : Z;
  cf_operand_stack_byte_max : Z;
}.

(** [max_limit_from_limits]: the length in bytes of the largest memory; [None] is a memory without a
    declared maximum. *)
Definition max_limit_from_limits (max : option Z) : Z :=
  match max with
  | None => size_t_max
  | Some max_pages => if size_t_max / 65536 <? max_pages then size_t_max else max_pages * 65536
  end.

Section Translate.
Context (env : tenv).

(** ** Control *)

Definition case_unreachable : M unit :=
  emit_opfunc_to false uwvmint_unreachable;;
  s ← sm_get;
  match control_flow_stack s with [] => mret tt | frame :: _ => operand_stack_truncate_to (operand_stack_base frame) end;;
  sm_modify (set_polymorphic true).

Definition enter_control_frame (type : block_type.t) (res : list value_type) (start_label_id end_label_id else_label_id : option nat) : M unit :=
  s ← sm_get;
  sm_modify (set_control_flow_stack
    (Block (if bool_decide (type = block_type.loop) then [] else res) res (length (operand_stack s)) type (is_polymorphic s)
       start_label_id end_label_id else_label_id :: control_flow_stack s));;
  sm_modify (set_polymorphic false).

Definition begin_block (res : list value_type) : M unit :=
  end_ ← new_label false;
  enter_control_frame block_type.block res None (Some end_) None.

Definition case_block : M unit := res ← parse_block_type env; begin_block res.

Definition begin_loop (res : list value_type) : M unit :=
  loop_start ← new_label false;
  s ← sm_get;
  set_label_offset loop_start (length (bytecode (out s)));;
  end_ ← new_label false;
  enter_control_frame block_type.loop res (Some loop_start) (Some end_) None.

Definition case_loop : M unit := res ← parse_block_type env; begin_loop res.

Definition begin_if (res : list value_type) : M unit :=
  underflow_unless 1;;
  cond ← try_pop_concrete_operand;
  require cvec.if_cond_type_not_i32 (operand_type_matches cond i32);;
  else_dest ← new_label false;
  end_ ← new_label false;
  emit_opfunc_to false (uwvmint_int_eqz false);;
  emit_opfunc_to false uwvmint_br_if;;
  emit_ptr_label_placeholder else_dest false;;
  enter_control_frame block_type.if_ res None (Some end_) (Some else_dest);;
  sm_modify (set_polymorphic false).

Definition case_if : M unit := res ← parse_block_type env; begin_if res.

(** The operands of a frame against its results. *)
Definition check_results (err_code : code_validation_error_code.code) (frame : block_t) : M unit :=
  s ← sm_get;
  let expected_count := length (result frame) in
  let actual_count := (length (operand_stack s) - operand_stack_base frame)%nat in
  require err_code (if negb (is_polymorphic s) then (actual_count =? expected_count)%nat else (actual_count <=? expected_count)%nat);;
  require err_code (forallb (fun '(o, t) => stack_entry_type_matches o t) (zip (take actual_count (operand_stack s)) (rev (result frame)))).

Definition case_else : M unit :=
  s ← sm_get;
  match control_flow_stack s with
  | [] => sm_throw (Invalid cvec.illegal_else)
  | if_frame :: outer =>
      require cvec.illegal_else (bool_decide (blk_type if_frame = block_type.if_));;
      check_results cvec.if_then_result_mismatch if_frame;;
      end_ ← sm_unchecked (end_label_id if_frame);
      emit_br_to false end_;;
      else_ ← sm_unchecked (else_label_id if_frame);
      s ← sm_get;
      set_label_offset else_ (length (bytecode (out s)));;
      operand_stack_truncate_to (operand_stack_base if_frame);;
      sm_modify (set_polymorphic false);;
      sm_modify (set_control_flow_stack
        (Block (label if_frame) (result if_frame) (operand_stack_base if_frame) block_type.else_ (polymorphic_base if_frame)
           (start_label_id if_frame) (end_label_id if_frame) (else_label_id if_frame) :: outer))
  end.

(** The addresses of the labels, written to the places that were left for them. *)
Definition patch (main_size : nat) (ls : list label_info_t) (code : list slot) (fx : ptr_fixup_t) : outcome failure (list slot) :=
  match ls !! label_id fx with
  | None => Undefined
  | Some lbl =>
      match TranslatorState.offset lbl with
      | None => Thrown Terminate
      | Some off =>
          let target_abs := if in_thunk lbl then (main_size + off)%nat else off in
          let site_abs := if site_in_thunk fx then (main_size + site fx)%nat else site fx in
          if (site_abs <? length code)%nat then Done (<[site_abs := Imm (Z.of_nat target_abs)]> code) else Undefined
      end
  end.

Fixpoint patch_all (main_size : nat) (ls : list label_info_t) (fxs : list ptr_fixup_t) (code : list slot) : outcome failure (list slot) :=
  match fxs with
  | [] => Done code
  | fx :: fxs =>
      match patch main_size ls code fx with
      | Done code => patch_all main_size ls fxs code
      | Thrown e => Thrown e
      | Undefined => Undefined
      | OutOfFuel => OutOfFuel
      end
  end.

(** The end of the function: thunks follow the code. *)
Definition finish_function : M compiled_func :=
  emit_return_to false;;
  s ← sm_get;
  match patch_all (length (bytecode (out s))) (labels (out s)) (ptr_fixups (out s)) (bytecode (out s) ++ thunks (out s)) with
  | Done code =>
      mret (CompiledFunc code (local_bytes_max env)
        (if local_bytes_zeroinit_end s <=? internal_temp_local_off env then local_bytes_zeroinit_end s else internal_temp_local_off env)
        (runtime_operand_stack_max s) (runtime_operand_stack_byte_max s))
  | Thrown e => sm_throw e
  | Undefined => sm_unchecked None
  | OutOfFuel => sm_fuel
  end.

Definition set_label_offset_here (label_id : option nat) : M unit :=
  match label_id with
  | None => mret tt
  | Some id => s ← sm_get; set_label_offset id (length (bytecode (out s)))
  end.

(** The result is the function when its frame ends. *)
Definition case_end : M (option compiled_func) :=
  s ← sm_get;
  match control_flow_stack s with
  | [] => sm_throw (Invalid cvec.illegal_opbase)
  | frame :: outer =>
      require cvec.if_missing_else (negb (bool_decide (blk_type frame = block_type.if_)) || (length (result frame) =? 0)%nat);;
      check_results cvec.end_result_mismatch frame;;
      set_label_offset_here (end_label_id frame);;
      (if bool_decide (blk_type frame = block_type.if_) then set_label_offset_here (else_label_id frame) else mret tt);;
      operand_stack_truncate_to (operand_stack_base frame);;
      block_push_types (result frame);;
      sm_modify (set_polymorphic (polymorphic_base frame));;
      sm_modify (set_control_flow_stack outer);;
      if bool_decide (blk_type frame = block_type.function) then
        s ← sm_get;
        require cvec.trailing_code_after_end (code_curr s =? length (code env))%nat;;
        f ← finish_function;
        mret (Some f)
      else mret None
  end.

(** ** Branches *)

(** A label index that is in range selects a frame. *)
Definition target_frame_of (label_index : nat) : M block_t :=
  s ← sm_get;
  match control_flow_stack s !! label_index with None => sm_throw (Invalid cvec.illegal_label_index) | Some frame => mret frame end.

(** What follows a branch is polymorphic. *)
Definition make_unreachable (arity : nat) : M unit :=
  operand_stack_pop_n arity;;
  s ← sm_get;
  operand_stack_truncate_to (curr_frame_operand_stack_base s);;
  sm_modify (set_polymorphic true).

(** Bringing the stack to the height of a label, if there are values in between. *)
Definition emit_repair (thunk : bool) (types : list value_type) (target_base curr_size : nat) : M unit :=
  if (length types =? 0)%nat then emit_drop_to_stack_size_no_fill thunk target_base
  else emit_preserve_top_values_drop_to_base_restore env thunk types target_base curr_size.

Definition br_to (label_index : nat) : M unit :=
  target_frame ← target_frame_of label_index;
  let target_arity := length (label target_frame) in
  underflow_unless target_arity;;
  s ← sm_get;
  require cvec.br_value_type_mismatch (operands_match (label target_frame) s);;
  target_label_id ← sm_unchecked (get_branch_target_label_id target_frame);
  let target_base := operand_stack_base target_frame in
  let curr_size := length (operand_stack s) in
  sm_when (negb (is_polymorphic s) && (target_base + target_arity <? curr_size)%nat)
    (emit_repair false (label target_frame) target_base curr_size);;
  emit_br_to false target_label_id;;
  make_unreachable target_arity.

Definition case_br : M unit := label_index ← read_index env cvec.invalid_label_index; br_to label_index.

Definition emit_br_if_jump_any (label_id : nat) : M unit :=
  emit_opfunc_to false uwvmint_br_if;; emit_ptr_label_placeholder label_id false.

(** A jump with a repair of the stack in between, out of line. *)
Definition emit_thunk (types : list value_type) (target_base curr_size target_label_id : nat) : M nat :=
  thunk_label_id ← new_label true;
  s ← sm_get;
  set_label_offset thunk_label_id (length (thunks (out s)));;
  emit_repair true types target_base curr_size;;
  emit_br_to true target_label_id;;
  mret thunk_label_id.

Definition br_if_to (label_index : nat) : M unit :=
  target_frame ← target_frame_of label_index;
  let types := label target_frame in
  let target_arity := length types in
  underflow_unless (S target_arity);;
  cond ← try_pop_concrete_operand;
  require cvec.br_cond_type_not_i32 (operand_type_matches cond i32);;
  (if (target_arity =? 0)%nat then mret tt
   else
     s ← sm_get;
     require cvec.br_value_type_mismatch (operands_match types s);;
     pop_available_concrete_operands (concrete_operand_count s `min` target_arity);;
     block_push_types types);;
  target_label_id ← sm_unchecked (get_branch_target_label_id target_frame);
  s ← sm_get;
  let target_base := operand_stack_base target_frame in
  let curr_size := length (operand_stack s) in
  if is_polymorphic s then emit_br_if_jump_any target_label_id
  else if (target_base + target_arity <? curr_size)%nat then
    thunk_label_id ← emit_thunk types target_base curr_size target_label_id;
    emit_br_if_jump_any thunk_label_id
  else emit_br_if_jump_any target_label_id.

Definition case_br_if : M unit := label_index ← read_index env cvec.invalid_label_index; br_if_to label_index.

(** The types of a label against those of the first label. *)
Definition br_table_sig_matches (expected actual : list value_type) (s : tstate) : bool :=
  (length expected =? length actual)%nat &&
  forallb (fun i =>
    if uses_mvp_validation_rules env then bool_decide (expected !! i = actual !! i)
    else
      let depth_from_top := (length expected - i)%nat in
      if (concrete_operand_count s <=? depth_from_top)%nat then true
      else match operand_stack s !! depth_from_top, actual !! i with Some o, Some t => stack_entry_type_matches o t | _, _ => true end)
    (seq 0 (length expected)).

(** The label of one entry of a [br_table]. *)
Definition emit_br_table_entry (types : list value_type) (curr_size label_index : nat) : M unit :=
  target_frame ← target_frame_of label_index;
  target_label_id ← sm_unchecked (get_branch_target_label_id target_frame);
  s ← sm_get;
  let target_base := operand_stack_base target_frame in
  if is_polymorphic s then emit_ptr_label_placeholder target_label_id false
  else if (target_base + length types <? curr_size)%nat then
    thunk_label_id ← emit_thunk types target_base curr_size target_label_id;
    emit_ptr_label_placeholder thunk_label_id false
  else emit_ptr_label_placeholder target_label_id false.

(** [check_br_table_sig]: the first label is what the others are compared with. *)
Definition check_br_table_sig (expected : option (list value_type)) (actual : list value_type) : M unit :=
  s ← sm_get;
  match expected with
  | None => mret tt
  | Some expected => require cvec.br_table_target_type_mismatch (br_table_sig_matches expected actual s)
  end.

(** One entry of the table: the index of the label, and the types to compare the next one with. *)
Definition read_br_table_label (expected : option (list value_type)) : M (nat * list value_type) :=
  li ← read_index env cvec.invalid_label_index;
  frame ← target_frame_of li;
  check_br_table_sig expected (label frame);;
  mret (li, default (label frame) expected).

Fixpoint read_br_table_labels (target_count : nat) (expected : option (list value_type)) : M (list nat * option (list value_type)) :=
  match target_count with
  | O => mret ([], expected)
  | S target_count =>
      '(li, expected) ← read_br_table_label expected;
      '(lis, expected) ← read_br_table_labels target_count (Some expected);
      mret (li :: lis, expected)
  end.

(** The operands against the labels, and the table. *)
Definition br_table_to (br_table_label_indices : list nat) (default_label : nat) (expected : list value_type) : M unit :=
  let expected_arity := length expected in
  underflow_unless (S expected_arity);;
  idx ← try_pop_concrete_operand;
  require cvec.br_cond_type_not_i32 (operand_type_matches idx i32);;
  s ← sm_get;
  require cvec.br_value_type_mismatch (operands_match expected s);;
  let curr_size := length (operand_stack s) in
  emit_opfunc_to false uwvmint_br_table;;
  emit_imm_to false (Imm (zlen br_table_label_indices));;
  for_each (br_table_label_indices ++ [default_label]) (emit_br_table_entry expected curr_size);;
  make_unreachable expected_arity.

Definition case_br_table : M unit :=
  target_count ← read_leb128 env 32 false cvec.invalid_label_index;
  s ← sm_get;
  let remaining_bytes := Z.of_nat (length (code env) - code_curr s) in
  sm_when ((remaining_bytes =? 0) || (remaining_bytes <=? target_count))
    (sm_throw (Invalid cvec.br_table_target_count_exceeds_remaining_bytes));;
  '(br_table_label_indices, expected) ← read_br_table_labels (Z.to_nat target_count) None;
  '(default_label, expected) ← read_br_table_label expected;
  br_table_to br_table_label_indices default_label expected.

Definition case_return : M unit :=
  s ← sm_get;
  func_frame ← sm_unchecked (control_flow_stack s !! (length (control_flow_stack s) - 1)%nat);
  let return_arity := length (result func_frame) in
  underflow_unless return_arity;;
  require cvec.br_value_type_mismatch (operands_match (result func_frame) s);;
  let target_base := operand_stack_base func_frame in
  let curr_size := length (operand_stack s) in
  sm_when (negb (is_polymorphic s))
    (if (return_arity =? 0)%nat then emit_drop_to_stack_size_no_fill false target_base
     else sm_when (target_base + return_arity <? curr_size)%nat
            (emit_preserve_top_values_drop_to_base_restore env false (result func_frame) target_base curr_size));;
  emit_return_to false;;
  make_unreachable return_arity.

(** ** Parametric and variable instructions *)

Definition case_drop : M unit :=
  s ← sm_get;
  if (concrete_operand_count s =? 0)%nat then require cvec.operand_stack_underflow (is_polymorphic s)
  else
    operand ← sm_unchecked (head (operand_stack s));
    operand_stack_pop_unchecked;;
    emit_drop_typed_to false (otype operand).

Definition known (o : option operand) : option value_type :=
  match o with Some o => if is_unknown o then None else Some (otype o) | None => None end.

Definition case_select : M unit :=
  underflow_unless 3;;
  cond ← try_pop_concrete_operand;
  require cvec.select_cond_type_not_i32 (operand_type_matches cond i32);;
  v2 ← try_pop_concrete_operand;
  v1 ← try_peek_concrete_operand;
  require cvec.select_type_mismatch (match known v1, known v2 with Some t1, Some t2 => bool_decide (t1 = t2) | _, _ => true end);;
  match known v1 with Some t => emit_opfunc_to false (uwvmint_select_typed t) | None => mret tt end;;
  match v1 with
  | None =>
      match v2 with
      | Some v2 => if is_unknown v2 then push_unknown_operand else operand_stack_push (otype v2)
      | None => s ← sm_get; if is_polymorphic s then push_unknown_operand else mret tt
      end
  | Some v1 =>
      match known v2 with
      | Some t2 => if is_unknown v1 then operand_stack_pop_unchecked;; operand_stack_push t2 else mret tt
      | None => mret tt
      end
  end.

(** A local in range: its type and its offset. *)
Definition local_of (local_index : nat) : M (value_type * Z) :=
  match local_types env !! local_index, local_offsets 0 (local_types env) !! local_index with
  | Some t, Some off => mret (t, off)
  | _, _ => sm_throw (Invalid cvec.illegal_local_index)
  end.

Definition local_get_at (local_index : nat) : M unit :=
  '(curr_local_type, local_off) ← local_of local_index;
  operand_stack_push curr_local_type;;
  sm_modify (fun s =>
    let end_off := local_off + valtype_size curr_local_type in
    if local_bytes_zeroinit_end s <? end_off then set_zeroinit_end end_off s else s);;
  emit_local_get_typed_to false curr_local_type local_off.

Definition case_local_get : M unit := local_index ← read_index env cvec.invalid_local_index; local_get_at local_index.

Definition local_set_at (local_index : nat) : M unit :=
  '(curr_local_type, local_off) ← local_of local_index;
  underflow_unless 1;;
  value ← try_peek_concrete_operand;
  require cvec.local_set_type_mismatch (operand_type_matches value curr_local_type);;
  match value with Some _ => operand_stack_pop_unchecked | None => mret tt end;;
  emit_local_set_typed_to false curr_local_type local_off.

Definition case_local_set : M unit := local_index ← read_index env cvec.invalid_local_index; local_set_at local_index.

Definition local_tee_at (local_index : nat) : M unit :=
  '(curr_local_type, local_off) ← local_of local_index;
  value ← try_peek_concrete_operand;
  match value with
  | None => s ← sm_get; require cvec.operand_stack_underflow (is_polymorphic s);; operand_stack_push curr_local_type
  | Some _ => require cvec.local_tee_type_mismatch (operand_type_matches value curr_local_type)
  end;;
  s ← sm_get;
  top ← sm_unchecked (head (operand_stack s));
  (if is_unknown top then operand_stack_pop_unchecked;; operand_stack_push curr_local_type else mret tt);;
  emit_local_tee_typed_to false curr_local_type local_off.

Definition case_local_tee : M unit := local_index ← read_index env cvec.invalid_local_index; local_tee_at local_index.

(** [resolve_global_access]: a global in range is reached through a pointer to its storage. *)
Definition global_of (global_index : nat) : M (value_type * bool * nat) :=
  match TranslatorState.globals env !! global_index with Some g => mret g | None => sm_throw (Invalid cvec.illegal_global_index) end.

Definition global_get_at (global_index : nat) : M unit :=
  '(curr_global_type, _, storage_ptr) ← global_of global_index;
  operand_stack_push curr_global_type;;
  emit_opfunc_to false (uwvmint_global_get_typed curr_global_type);;
  emit_imm_to false (Imm (Z.of_nat storage_ptr)).

Definition case_global_get : M unit := global_index ← read_index env cvec.invalid_global_index; global_get_at global_index.

Definition global_set_at (global_index : nat) : M unit :=
  '(curr_global_type, curr_global_mutable, storage_ptr) ← global_of global_index;
  require cvec.immutable_global_set curr_global_mutable;;
  underflow_unless 1;;
  value ← try_pop_concrete_operand;
  require cvec.global_set_type_mismatch (operand_type_matches value curr_global_type);;
  emit_opfunc_to false (uwvmint_global_set_typed curr_global_type);;
  emit_imm_to false (Imm (Z.of_nat storage_ptr)).

Definition case_global_set : M unit := global_index ← read_index env cvec.invalid_global_index; global_set_at global_index.

(** ** Memory *)

(** [ensure_memory_resolved]: the memory, which the check of the index has found. *)
Definition ensure_memory_resolved : M (nat * Z) :=
  match memory env with Some m => mret m | None => sm_throw Terminate end.

(** [validate_mem_load] and the emission of a load. *)
Definition load_at (result_type : value_type) (f : opfunc) (offset : Z) : M unit :=
  underflow_unless 1;;
  addr ← try_pop_concrete_operand;
  require cvec.memarg_address_type_not_i32 (operand_type_matches addr i32);;
  operand_stack_push result_type;;
  '(memory_p, _) ← ensure_memory_resolved;
  emit_opfunc_to false f;;
  emit_imm_to false (Imm (Z.of_nat memory_p));;
  emit_imm_to false (Imm offset).

Definition load_case (max_align : Z) (result_type : value_type) (f : opfunc) : M unit :=
  offset ← read_memory_argument64 env max_align; load_at result_type f offset.

(** [validate_mem_store] and the emission of a store. *)
Definition store_at (expected_value_type : value_type) (f : opfunc) (offset : Z) : M unit :=
  underflow_unless 2;;
  value ← try_pop_concrete_operand;
  require cvec.store_value_type_mismatch (operand_type_matches value expected_value_type);;
  addr ← try_pop_concrete_operand;
  require cvec.memarg_address_type_not_i32 (operand_type_matches addr i32);;
  '(memory_p, _) ← ensure_memory_resolved;
  emit_opfunc_to false f;;
  emit_imm_to false (Imm (Z.of_nat memory_p));;
  emit_imm_to false (Imm offset).

Definition store_case (max_align : Z) (expected_value_type : value_type) (f : opfunc) : M unit :=
  offset ← read_memory_argument64 env max_align; store_at expected_value_type f offset.

(** Loads: the largest alignment, and the type of the value. *)
Definition switch_loads (op : wasm1_code.op_basic) : option (M unit) :=
  match op with
  | wasm1_code.i32_load => Some (load_case 2 i32 (uwvmint_load i32))
  | wasm1_code.i64_load => Some (load_case 3 i64 (uwvmint_load i64))
  | wasm1_code.f32_load => Some (load_case 2 f32 (uwvmint_load f32))
  | wasm1_code.f64_load => Some (load_case 3 f64 (uwvmint_load f64))
  | wasm1_code.i32_load8_s => Some (load_case 0 i32 (uwvmint_loadN false 1 true))
  | wasm1_code.i32_load8_u => Some (load_case 0 i32 (uwvmint_loadN false 1 false))
  | wasm1_code.i32_load16_s => Some (load_case 1 i32 (uwvmint_loadN false 2 true))
  | wasm1_code.i32_load16_u => Some (load_case 1 i32 (uwvmint_loadN false 2 false))
  | wasm1_code.i64_load8_s => Some (load_case 0 i64 (uwvmint_loadN true 1 true))
  | wasm1_code.i64_load8_u => Some (load_case 0 i64 (uwvmint_loadN true 1 false))
  | wasm1_code.i64_load16_s => Some (load_case 1 i64 (uwvmint_loadN true 2 true))
  | wasm1_code.i64_load16_u => Some (load_case 1 i64 (uwvmint_loadN true 2 false))
  | wasm1_code.i64_load32_s => Some (load_case 2 i64 (uwvmint_loadN true 4 true))
  | wasm1_code.i64_load32_u => Some (load_case 2 i64 (uwvmint_loadN true 4 false))
  | _ => None
  end.

(** Stores. *)
Definition switch_stores (op : wasm1_code.op_basic) : option (M unit) :=
  match op with
  | wasm1_code.i32_store => Some (store_case 2 i32 (uwvmint_store i32))
  | wasm1_code.i64_store => Some (store_case 3 i64 (uwvmint_store i64))
  | wasm1_code.f32_store => Some (store_case 2 f32 (uwvmint_store f32))
  | wasm1_code.f64_store => Some (store_case 3 f64 (uwvmint_store f64))
  | wasm1_code.i32_store8 => Some (store_case 0 i32 (uwvmint_storeN false 1))
  | wasm1_code.i32_store16 => Some (store_case 1 i32 (uwvmint_storeN false 2))
  | wasm1_code.i64_store8 => Some (store_case 0 i64 (uwvmint_storeN true 1))
  | wasm1_code.i64_store16 => Some (store_case 1 i64 (uwvmint_storeN true 2))
  | wasm1_code.i64_store32 => Some (store_case 2 i64 (uwvmint_storeN true 4))
  | _ => None
  end.

Definition memory_size_at : M unit :=
  '(memory_p, _) ← ensure_memory_resolved;
  emit_opfunc_to false uwvmint_memory_size;;
  emit_imm_to false (Imm (Z.of_nat memory_p));;
  operand_stack_push i32.

Definition case_memory_size : M unit := read_memory_index env;; memory_size_at.

Definition memory_grow_at : M unit :=
  underflow_unless 1;;
  delta ← try_pop_concrete_operand;
  require cvec.memory_grow_delta_type_not_i32 (operand_type_matches delta i32);;
  '(memory_p, max_limit_memory_length) ← ensure_memory_resolved;
  emit_opfunc_to false uwvmint_memory_grow;;
  emit_imm_to false (Imm (Z.of_nat memory_p));;
  emit_imm_to false (Imm max_limit_memory_length);;
  operand_stack_push i32.

Definition case_memory_grow : M unit := read_memory_index env;; memory_grow_at.

(** ** Constants *)

(** The constant with the opcode [op] that starts at [scan]: where it ends. *)
Definition skip_const (op : Z) (scan : nat) : option nat :=
  if op =? 65 then snd <$> scan_leb128 env 32 true (S scan)
  else if op =? 66 then snd <$> scan_leb128 env 64 true (S scan)
  else
    let kInstBytes := if op =? 67 then 5%nat else 9%nat in
    if (length (code env) - scan <? kInstBytes)%nat then None else Some (scan + kInstBytes)%nat.

(** The constants that follow at [scan], all with the opcode [op]: how many, and where they end;
    [None] if one of them is cut. *)
Fixpoint scan_consts (op : Z) (fuel scan : nat) : M (option (nat * nat)) :=
  match fuel with
  | O => sm_fuel
  | S fuel =>
      another ← looking_at env scan op;
      if another : bool then
        match skip_const op scan with
        | None => mret None
        | Some next => r ← scan_consts op fuel next; mret ('(const_count, drop_begin) ← r; Some (S const_count, drop_begin))
        end
      else mret (Some (0%nat, scan))
  end.

(** The number of [drop]s at [drop_scan]. *)
Fixpoint count_drops (fuel drop_scan : nat) : M nat :=
  match fuel with
  | O => sm_fuel
  | S fuel =>
      another ← looking_at env drop_scan 26;
      if another : bool then n ← count_drops fuel (S drop_scan); mret (S n) else mret 0%nat
  end.

(** [try_elide_const_run_with_drops]: a run of constants that is dropped at once is skipped. *)
Definition try_elide_const_run_with_drops (op : Z) : M bool :=
  s ← sm_get;
  r ← scan_consts op (S (length (code env))) (code_curr s);
  match r with
  | None => mret false
  | Some (more, drop_begin) =>
      let const_count := S more in
      drop_count ← count_drops (S (length (code env))) drop_begin;
      if (drop_count <? const_count)%nat then mret false
      else sm_modify (set_code_curr (drop_begin + const_count));; mret true
  end.

(** A constant of the type [t]; [eligible] is false for a NaN, which does not start a run. *)
Definition const_case (op : Z) (t : value_type) (eligible : bool) (imm : Z) : M unit :=
  s ← sm_get;
  elided ← (if negb (is_polymorphic s) && eligible then try_elide_const_run_with_drops op else mret false);
  if elided : bool then mret tt
  else
    emit_opfunc_to false (uwvmint_const t);;
    emit_imm_to false (Imm imm);;
    operand_stack_push t.

Definition case_i32_const : M unit := imm ← read_leb128 env 32 true cvec.invalid_const_immediate; const_case 65 i32 true imm.
Definition case_i64_const : M unit := imm ← read_leb128 env 64 true cvec.invalid_const_immediate; const_case 66 i64 true imm.

(** [read_wasm_le_u32], [read_wasm_f32_const] and those of 64 bits, then [code_curr += n]. *)
Definition read_wasm_le (n : nat) : M Z :=
  s ← sm_get;
  bytes ← sm_unchecked (bytes_at env n (code_curr s));
  sm_modify (set_code_curr (code_curr s + n));;
  mret (of_le bytes).

Definition case_f32_const : M unit :=
  s ← sm_get;
  sm_when (length (code env) - code_curr s <? 4)%nat (sm_throw (Invalid cvec.invalid_const_immediate));;
  constant_bits ← read_wasm_le 4;
  const_case 67 f32 (negb (2139095040 <? Z.land constant_bits 2147483647)) constant_bits.

Definition case_f64_const : M unit :=
  s ← sm_get;
  sm_when (length (code env) - code_curr s <? 8)%nat (sm_throw (Invalid cvec.invalid_const_immediate));;
  constant_bits ← read_wasm_le 8;
  const_case 68 f64 (negb (9218868437227405312 <? Z.land constant_bits 9223372036854775807)) constant_bits.

(** ** Numeric instructions *)

(** Operands of the types [ins], the last on the top, are replaced by a result. *)
Definition numeric_case (ins : list value_type) (result_type : value_type) (f : opfunc) : M unit :=
  underflow_unless (length ins);;
  for_each (rev ins) (fun t =>
    operand ← try_pop_concrete_operand;
    require cvec.numeric_operand_type_mismatch (operand_type_matches operand t));;
  operand_stack_push result_type;;
  emit_opfunc_to false f.

(** Tests and comparisons on [i32]. *)
Definition switch_i32_comparisons (op : wasm1_code.op_basic) : option (M unit) :=
  match op with
  | wasm1_code.i32_eqz => Some (numeric_case [i32] i32 (uwvmint_int_eqz false))
  | wasm1_code.i32_eq => Some (numeric_case [i32; i32] i32 (uwvmint_int_cmp false icmp_eq))
  | wasm1_code.i32_ne => Some (numeric_case [i32; i32] i32 (uwvmint_int_cmp false icmp_ne))
  | wasm1_code.i32_lt_s => Some (numeric_case [i32; i32] i32 (uwvmint_int_cmp false icmp_lt_s))
  | wasm1_code.i32_lt_u => Some (numeric_case [i32; i32] i32 (uwvmint_int_cmp false icmp_lt_u))
  | wasm1_code.i32_gt_s => Some (numeric_case [i32; i32] i32 (uwvmint_int_cmp false icmp_gt_s))
  | wasm1_code.i32_gt_u => Some (numeric_case [i32; i32] i32 (uwvmint_int_cmp false icmp_gt_u))
  | wasm1_code.i32_le_s => Some (numeric_case [i32; i32] i32 (uwvmint_int_cmp false icmp_le_s))
  | wasm1_code.i32_le_u => Some (numeric_case [i32; i32] i32 (uwvmint_int_cmp false icmp_le_u))
  | wasm1_code.i32_ge_s => Some (numeric_case [i32; i32] i32 (uwvmint_int_cmp false icmp_ge_s))
  | wasm1_code.i32_ge_u => Some (numeric_case [i32; i32] i32 (uwvmint_int_cmp false icmp_ge_u))
  | _ => None
  end.

(** Tests and comparisons on [i64]. *)
Definition switch_i64_comparisons (op : wasm1_code.op_basic) : option (M unit) :=
  match op with
  | wasm1_code.i64_eqz => Some (numeric_case [i64] i32 (uwvmint_int_eqz true))
  | wasm1_code.i64_eq => Some (numeric_case [i64; i64] i32 (uwvmint_int_cmp true icmp_eq))
  | wasm1_code.i64_ne => Some (numeric_case [i64; i64] i32 (uwvmint_int_cmp true icmp_ne))
  | wasm1_code.i64_lt_s => Some (numeric_case [i64; i64] i32 (uwvmint_int_cmp true icmp_lt_s))
  | wasm1_code.i64_lt_u => Some (numeric_case [i64; i64] i32 (uwvmint_int_cmp true icmp_lt_u))
  | wasm1_code.i64_gt_s => Some (numeric_case [i64; i64] i32 (uwvmint_int_cmp true icmp_gt_s))
  | wasm1_code.i64_gt_u => Some (numeric_case [i64; i64] i32 (uwvmint_int_cmp true icmp_gt_u))
  | wasm1_code.i64_le_s => Some (numeric_case [i64; i64] i32 (uwvmint_int_cmp true icmp_le_s))
  | wasm1_code.i64_le_u => Some (numeric_case [i64; i64] i32 (uwvmint_int_cmp true icmp_le_u))
  | wasm1_code.i64_ge_s => Some (numeric_case [i64; i64] i32 (uwvmint_int_cmp true icmp_ge_s))
  | wasm1_code.i64_ge_u => Some (numeric_case [i64; i64] i32 (uwvmint_int_cmp true icmp_ge_u))
  | _ => None
  end.

(** [i32] arithmetic. *)
Definition switch_i32_arithmetic (op : wasm1_code.op_basic) : option (M unit) :=
  match op with
  | wasm1_code.i32_clz => Some (numeric_case [i32] i32 (uwvmint_int_unop false unop_clz))
  | wasm1_code.i32_ctz => Some (numeric_case [i32] i32 (uwvmint_int_unop false unop_ctz))
  | wasm1_code.i32_popcnt => Some (numeric_case [i32] i32 (uwvmint_int_unop false unop_popcnt))
  | wasm1_code.i32_add => Some (numeric_case [i32; i32] i32 (uwvmint_int_binop false bin_add))
  | wasm1_code.i32_sub => Some (numeric_case [i32; i32] i32 (uwvmint_int_binop false bin_sub))
  | wasm1_code.i32_mul => Some (numeric_case [i32; i32] i32 (uwvmint_int_binop false bin_mul))
  | wasm1_code.i32_div_s => Some (numeric_case [i32; i32] i32 (uwvmint_int_binop false bin_div_s))
  | wasm1_code.i32_div_u => Some (numeric_case [i32; i32] i32 (uwvmint_int_binop false bin_div_u))
  | wasm1_code.i32_rem_s => Some (numeric_case [i32; i32] i32 (uwvmint_int_binop false bin_rem_s))
  | wasm1_code.i32_rem_u => Some (numeric_case [i32; i32] i32 (uwvmint_int_binop false bin_rem_u))
  | wasm1_code.i32_and => Some (numeric_case [i32; i32] i32 (uwvmint_int_binop false bin_and))
  | wasm1_code.i32_or => Some (numeric_case [i32; i32] i32 (uwvmint_int_binop false bin_or))
  | wasm1_code.i32_xor => Some (numeric_case [i32; i32] i32 (uwvmint_int_binop false bin_xor))
  | wasm1_code.i32_shl => Some (numeric_case [i32; i32] i32 (uwvmint_int_binop false bin_shl))
  | wasm1_code.i32_shr_s => Some (numeric_case [i32; i32] i32 (uwvmint_int_binop false bin_shr_s))
  | wasm1_code.i32_shr_u => Some (numeric_case [i32; i32] i32 (uwvmint_int_binop false bin_shr_u))
  | wasm1_code.i32_rotl => Some (numeric_case [i32; i32] i32 (uwvmint_int_binop false bin_rotl))
  | wasm1_code.i32_rotr => Some (numeric_case [i32; i32] i32 (uwvmint_int_binop false bin_rotr))
  | _ => None
  end.

(** [i64] arithmetic. *)
Definition switch_i64_arithmetic (op : wasm1_code.op_basic) : option (M unit) :=
  match op with
  | wasm1_code.i64_clz => Some (numeric_case [i64] i64 (uwvmint_int_unop true unop_clz))
  | wasm1_code.i64_ctz => Some (numeric_case [i64] i64 (uwvmint_int_unop true unop_ctz))
  | wasm1_code.i64_popcnt => Some (numeric_case [i64] i64 (uwvmint_int_unop true unop_popcnt))
  | wasm1_code.i64_add => Some (numeric_case [i64; i64] i64 (uwvmint_int_binop true bin_add))
  | wasm1_code.i64_sub => Some (numeric_case [i64; i64] i64 (uwvmint_int_binop true bin_sub))
  | wasm1_code.i64_mul => Some (numeric_case [i64; i64] i64 (uwvmint_int_binop true bin_mul))
  | wasm1_code.i64_div_s => Some (numeric_case [i64; i64] i64 (uwvmint_int_binop true bin_div_s))
  | wasm1_code.i64_div_u => Some (numeric_case [i64; i64] i64 (uwvmint_int_binop true bin_div_u))
  | wasm1_code.i64_rem_s => Some (numeric_case [i64; i64] i64 (uwvmint_int_binop true bin_rem_s))
  | wasm1_code.i64_rem_u => Some (numeric_case [i64; i64] i64 (uwvmint_int_binop true bin_rem_u))
  | wasm1_code.i64_and => Some (numeric_case [i64; i64] i64 (uwvmint_int_binop true bin_and))
  | wasm1_code.i64_or => Some (numeric_case [i64; i64] i64 (uwvmint_int_binop true bin_or))
  | wasm1_code.i64_xor => Some (numeric_case [i64; i64] i64 (uwvmint_int_binop true bin_xor))
  | wasm1_code.i64_shl => Some (numeric_case [i64; i64] i64 (uwvmint_int_binop true bin_shl))
  | wasm1_code.i64_shr_s => Some (numeric_case [i64; i64] i64 (uwvmint_int_binop true bin_shr_s))
  | wasm1_code.i64_shr_u => Some (numeric_case [i64; i64] i64 (uwvmint_int_binop true bin_shr_u))
  | wasm1_code.i64_rotl => Some (numeric_case [i64; i64] i64 (uwvmint_int_binop true bin_rotl))
  | wasm1_code.i64_rotr => Some (numeric_case [i64; i64] i64 (uwvmint_int_binop true bin_rotr))
  | _ => None
  end.

(** Conversions, but for those to floats. *)
Definition switch_conversions (op : wasm1_code.op_basic) : option (M unit) :=
  match op with
  | wasm1_code.i32_wrap_i64 => Some (numeric_case [i64] i32 uwvmint_i32_wrap_i64)
  | wasm1_code.i32_trunc_f32_s => Some (numeric_case [f32] i32 (uwvmint_trunc false binary32 true))
  | wasm1_code.i32_trunc_f32_u => Some (numeric_case [f32] i32 (uwvmint_trunc false binary32 false))
  | wasm1_code.i32_trunc_f64_s => Some (numeric_case [f64] i32 (uwvmint_trunc false binary64 true))
  | wasm1_code.i32_trunc_f64_u => Some (numeric_case [f64] i32 (uwvmint_trunc false binary64 false))
  | wasm1_code.i64_extend_i32_s => Some (numeric_case [i32] i64 (uwvmint_i64_extend_i32 true))
  | wasm1_code.i64_extend_i32_u => Some (numeric_case [i32] i64 (uwvmint_i64_extend_i32 false))
  | wasm1_code.i64_trunc_f32_s => Some (numeric_case [f32] i64 (uwvmint_trunc true binary32 true))
  | wasm1_code.i64_trunc_f32_u => Some (numeric_case [f32] i64 (uwvmint_trunc true binary32 false))
  | wasm1_code.i64_trunc_f64_s => Some (numeric_case [f64] i64 (uwvmint_trunc true binary64 true))
  | wasm1_code.i64_trunc_f64_u => Some (numeric_case [f64] i64 (uwvmint_trunc true binary64 false))
  | wasm1_code.i32_reinterpret_f32 => Some (numeric_case [f32] i32 uwvmint_reinterpret)
  | wasm1_code.i64_reinterpret_f64 => Some (numeric_case [f64] i64 uwvmint_reinterpret)
  | wasm1_code.f32_reinterpret_i32 => Some (numeric_case [i32] f32 uwvmint_reinterpret)
  | wasm1_code.f64_reinterpret_i64 => Some (numeric_case [i64] f64 uwvmint_reinterpret)
  | _ => None
  end.

Definition switch_numeric (op : wasm1_code.op_basic) : option (M unit) :=
  union (switch_i32_comparisons op)
  (union (switch_i64_comparisons op)
  (union (switch_i32_arithmetic op)
  (union (switch_i64_arithmetic op)
         (switch_conversions op)))).

(** ** The loop *)

(** The bytes that start an instruction of a later release. *)
Definition later_release (b : Z) : bool :=
  bool_decide (b ∈ [8; 10; 18; 19; 20; 21; 28; 31; 37; 38; 192; 193; 194; 195; 196; 208; 209; 210; 211; 212; 213; 214; 251; 252; 253; 254]).

(** The instructions that neither open nor close a block. *)
Definition switch_plain (op : wasm1_code.op_basic) : M unit :=
  match op with
  | wasm1_code.unreachable => case_unreachable
  | wasm1_code.nop => mret tt
  | wasm1_code.br => case_br
  | wasm1_code.br_if => case_br_if
  | wasm1_code.br_table => case_br_table
  | wasm1_code.return_ => case_return
  | wasm1_code.drop => case_drop
  | wasm1_code.select => case_select
  | wasm1_code.local_get => case_local_get
  | wasm1_code.local_set => case_local_set
  | wasm1_code.local_tee => case_local_tee
  | wasm1_code.global_get => case_global_get
  | wasm1_code.global_set => case_global_set
  | wasm1_code.memory_size => case_memory_size
  | wasm1_code.memory_grow => case_memory_grow
  | wasm1_code.i32_const => case_i32_const
  | wasm1_code.i64_const => case_i64_const
  | wasm1_code.f32_const => case_f32_const
  | wasm1_code.f64_const => case_f64_const
  | _ => default (sm_throw NotModelled) (union (switch_loads op) (union (switch_stores op) (switch_numeric op)))
  end.

(** The [switch] over [curr_opbase]. *)
Definition switch_opbase (curr_opbase : Z) : M (option compiled_func) :=
  match wasm1_code.of_byte curr_opbase with
  | Some wasm1_code.block => case_block;; mret None
  | Some wasm1_code.loop => case_loop;; mret None
  | Some wasm1_code.if_ => case_if;; mret None
  | Some wasm1_code.else_ => case_else;; mret None
  | Some wasm1_code.end_ => case_end
  | Some op => switch_plain op;; mret None
  | None => sm_throw (if later_release curr_opbase then NotModelled else Invalid cvec.illegal_opbase)
  end.

(** One iteration: an opcode with its immediates. *)
Definition translate_one_opcode : M (option compiled_func) :=
  s ← sm_get;
  sm_when (code_curr s =? length (code env))%nat (sm_throw (Invalid cvec.missing_end));;
  curr_opbase ← sm_unchecked (code env !! code_curr s);
  sm_modify (set_code_curr (S (code_curr s)));;
  switch_opbase curr_opbase.

Fixpoint translate_loop (fuel : nat) : M compiled_func :=
  match fuel with
  | O => sm_fuel
  | S fuel =>
      r ← translate_one_opcode;
      match r with Some f => mret f | None => translate_loop fuel end
  end.

(** The state when the loop starts: the frame of the function and its label. *)
Definition initial_state : tstate :=
  TState 0 (Buffers [] [] [LabelInfo None false] [])
    [Block (results env) (results env) 0 block_type.function false None (Some 0%nat) None] [] false 0 0 0
    (default (locals_end env) (local_offsets 0 (local_types env) !! param_count env)).

(** The translation of a function. An iteration consumes a byte, so one more iteration than
    there are bytes is enough. *)
Definition translate_function : outcome failure compiled_func :=
  match translate_loop (S (length (code env))) initial_state with
  | Done (f, _) => Done f
  | Thrown e => Thrown e
  | Undefined => Undefined
  | OutOfFuel => OutOfFuel
  end.
End Translate.

(** ** What is read *)

Section Reading.
Context (env : tenv) (Hbytes : Forall is_byte (code env)).
#[local] Notation code_end := (length (code env)).

Lemma scan_bounds digits is_signed p v q :
  leb_width digits -> (p <= code_end)%nat -> scan_leb128 env digits is_signed p = Some (v, q) -> (p < q <= code_end)%nat.
Proof using Hbytes.
  intros Hw Hp H. apply (get_leb_iff (code env) Hbytes digits is_signed p v q Hw) in H as (bs & Hb & Hs & ->).
  apply sub_length in Hs; [| done]. assert (0 < length bs)%nat; [| lia]. destruct is_signed; inversion Hb; simpl; lia.
Qed.

Lemma bytes_at_bounds n p bs : bytes_at env n p = Some bs -> (p + n <= code_end)%nat.
Proof using. unfold bytes_at. by destruct (Nat.leb_spec (p + n) code_end). Qed.

Lemma looking_at_run scan op s : looking_at env scan op s = Done (bool_decide (code env !! scan = Some op), s).
Proof using.
  unfold looking_at. destruct (Nat.ltb_spec scan code_end) as [Hlt | Hge].
  - destruct (lookup_lt_is_Some_2 (code env) scan Hlt) as [b Hb]. rewrite Hb, bind_some. unfold mret, sm_ret. do 2 f_equal.
    destruct (Z.eqb_spec b op) as [-> | Hne]; [by rewrite bool_decide_true |]. by rewrite bool_decide_false by congruence.
  - rewrite (lookup_ge_None_2 _ _ Hge). by rewrite bool_decide_false.
Qed.

Lemma skip_bounds op scan next : code env !! scan = Some op -> skip_const env op scan = Some next -> (scan < next <= code_end)%nat.
Proof using Hbytes.
  intros Hs H. apply lookup_lt_Some in Hs. unfold skip_const in H.
  assert (forall digits v, leb_width digits -> scan_leb128 env digits true (S scan) = Some (v, next) -> (scan < next <= code_end)%nat) as Hleb.
  { intros digits v Hw Hv. apply scan_bounds in Hv; [lia | done | lia]. }
  destruct (op =? 65); [apply fmap_Some in H as ([v q] & H & ->); by apply (Hleb 32 v width32) |].
  destruct (op =? 66); [apply fmap_Some in H as ([v q] & H & ->); by apply (Hleb 64 v width64) |].
  cbv zeta in H. destruct (op =? 67); case_match eqn:E; try done; injection H as <-; apply Nat.ltb_ge in E; lia.
Qed.

(** The loops end within their fuel, and do not change the state. *)
Lemma scan_consts_total op fuel : forall scan, (scan <= code_end)%nat -> (code_end - scan < fuel)%nat ->
  exists r, (forall s, scan_consts env op fuel scan s = Done (r, s)) /\
    match r with Some (_, drop_begin) => (scan <= drop_begin <= code_end)%nat | None => True end.
Proof using Hbytes.
  induction fuel as [| fuel IH]; intros scan Hs Hf; [lia |]. cbn [scan_consts].
  destruct (decide (code env !! scan = Some op)) as [Hop | Hno].
  2: { exists (Some (0%nat, scan)). split; [| lia]. intros s. by rewrite (bind_done _ _ _ _ _ (looking_at_run scan op s)), bool_decide_false. }
  destruct (skip_const env op scan) as [next |] eqn:Hn.
  2: { exists None. split; [| done]. intros s. by rewrite (bind_done _ _ _ _ _ (looking_at_run scan op s)), bool_decide_true. }
  pose proof (skip_bounds _ _ _ Hop Hn) as Hb. destruct (IH next ltac:(lia) ltac:(lia)) as (r & Hr & Hd).
  exists ('(const_count, drop_begin) ← r; Some (S const_count, drop_begin)). split.
  - intros s. rewrite (bind_done _ _ _ _ _ (looking_at_run scan op s)), bool_decide_true by done. by rewrite (bind_done _ _ _ _ _ (Hr s)).
  - destruct r as [[c d] |]; simpl; [lia | done].
Qed.

Lemma count_drops_total fuel : forall scan, (scan <= code_end)%nat -> (code_end - scan < fuel)%nat ->
  exists n, (forall s, count_drops env fuel scan s = Done (n, s)) /\ (scan + n <= code_end)%nat.
Proof using.
  induction fuel as [| fuel IH]; intros scan Hs Hf; [lia |]. cbn [count_drops].
  destruct (decide (code env !! scan = Some 26)) as [Hop | Hno].
  - pose proof (lookup_lt_Some _ _ _ Hop). destruct (IH (S scan) ltac:(lia) ltac:(lia)) as (n & Hn & Hb). exists (S n). split; [| lia].
    intros s. rewrite (bind_done _ _ _ _ _ (looking_at_run scan 26 s)), bool_decide_true by done. by rewrite (bind_done _ _ _ _ _ (Hn s)).
  - exists 0%nat. split; [| lia]. intros s. by rewrite (bind_done _ _ _ _ _ (looking_at_run scan 26 s)), bool_decide_false.
Qed.
End Reading.
