(* ===== verification/TranslatorRep.v ===== *)
(** * How the translator represents a flat program

    The buffers of the translator against two lists of instructions, the main code and the code
    out of line, whose jumps name labels, and what patching the labels makes of them. Each
    emission helper of [TranslatorState] as an extension of such a program, and the order in
    which programs extend each other. *)

From stdpp Require Import base list numbers.
From Stdlib Require Import ZArith Lia.
From S2P Require Import Prelude WasmTypes WasmSpec Interpreter FlatWasm InterpreterRep FlatLayout TranslatorState Translator.
Open Scope Z_scope.

(** A thing for the main code and one for the code out of line. *)
Record both (A : Type) := Both { of_main : A; of_thunk : A }.
Arguments Both {A}.
Arguments of_main {A}.
Arguments of_thunk {A}.
Definition get {A} (th : bool) (x : both A) : A := if th then of_thunk x else of_main x.
Definition put {A} (th : bool) (a : A) (x : both A) : both A := if th then Both (of_main x) a else Both a (of_thunk x).

Lemma get_put {A} th (a : A) x : get th (put th a x) = a.
Proof. by destruct th. Qed.
Lemma get_put_ne {A} th th' (a : A) x : th <> th' -> get th' (put th a x) = get th' x.
Proof. by destruct th, th'. Qed.

(** The labels that the slots of an instruction are for, and the first of these slots. *)
Definition targets (i : instr) : list nat :=
  match i with Br l | BrIf l => [l] | BrTable ls l => ls ++ [l] | _ => [] end.
Definition first_target (i : instr) : nat := match i with BrTable _ _ => 2 | _ => 1 end.

Definition retarget (f : nat -> nat) (i : instr) : instr :=
  match i with Br l => Br (f l) | BrIf l => BrIf (f l) | BrTable ls l => BrTable (f <$> ls) (f l) | i => i end.

(** Slots that follow each other, with a label each. *)
Definition label_slots (base : nat) (ls : list nat) : list (nat * nat) := imap (fun j l => ((base + j)%nat, l)) ls.

Lemma label_slots_app base ls1 ls2 : label_slots base (ls1 ++ ls2) = label_slots base ls1 ++ label_slots (base + length ls1) ls2.
Proof. unfold label_slots. rewrite imap_app. f_equal. apply imap_ext. intros j l _. simpl. f_equal. lia. Qed.

Section Slots.
Context (lt gt : list value_type).
#[local] Notation emit := (emit lt gt).
#[local] Notation emit0 := (emit (fun _ => 0%nat)).

Definition slots (F : list instr) : list slot := concat (emit0 <$> F).

Lemma slots_app F G : slots (F ++ G) = slots F ++ slots G.
Proof. unfold slots. by rewrite fmap_app, concat_app. Qed.

Lemma emit_retarget pos f i : emit pos (retarget f i) = emit (fun l => pos (f l)) i.
Proof. destruct i; try done. simpl. unfold zlen. rewrite length_fmap. by rewrite <- list_fmap_compose. Qed.

(** The slots of a program with its labels. *)
Fixpoint sites (base : nat) (F : list instr) : list (nat * nat) :=
  match F with
  | [] => []
  | i :: F => label_slots (base + first_target i) (targets i) ++ sites (base + length (emit0 i)) F
  end.

Lemma sites_app base F G : sites base (F ++ G) = sites base F ++ sites (base + length (slots F)) G.
Proof.
  revert base. induction F as [| i F IH]; intros base; simpl; [by rewrite Nat.add_0_r |].
  unfold slots. rewrite fmap_cons. simpl. rewrite IH, length_app, Nat.add_assoc. by rewrite <- app_assoc.
Qed.

(** With other positions, exactly these slots differ. *)
Lemma emit_slots pos i j :
  (exists l, In (j, l) (label_slots (first_target i) (targets i)) /\ emit pos i !! j = Some (Imm (Z.of_nat (pos l)))) \/
  ((forall l, ~ In (j, l) (label_slots (first_target i) (targets i))) /\ emit pos i !! j = emit0 i !! j).
Proof.
  destruct i; try (by right; split; [intros ? [] | done]); try (by right; split; [intros ? [] | simpl; repeat case_match]).
  - destruct j as [| [| j]]; [right | left | right]; simpl.
    + split; [| done]. by intros l' [[=] | []].
    + exists l. by split; [left |].
    + split; [| done]. by intros l' [[=] | []].
  - destruct j as [| [| j]]; [right | left | right]; simpl.
    + split; [| done]. by intros l' [[=] | []].
    + exists l. by split; [left |].
    + split; [| done]. by intros l' [[=] | []].
  - assert (forall j l', In (j, l') (label_slots 2 (ls ++ [l])) <-> exists j', j = (2 + j')%nat /\ (ls ++ [l]) !! j' = Some l') as Hin.
    { intros j0 l'. rewrite <- list_elem_of_In. unfold label_slots. rewrite elem_of_lookup_imap. split.
      - intros (j' & l0 & [= -> ->] & H). by exists j'.
      - intros (j' & -> & H). by exists j', l'. }
    cbn [first_target targets]. destruct j as [| [| j]]; [right | right |].
    + split; [| done]. intros l' H%Hin. destruct H as (? & [=] & _).
    + split; [| done]. intros l' H%Hin. destruct H as (? & [=] & _).
    + assert (forall pos, emit pos (BrTable ls l) !! S (S j) = (fun l => Imm (Z.of_nat (pos l))) <$> (ls ++ [l]) !! j) as E.
      { intros pos'. simpl. rewrite <- list_lookup_fmap. by rewrite fmap_app. }
      rewrite !E. destruct ((ls ++ [l]) !! j) as [l' |] eqn:El; [left | right].
      * exists l'. split; [| done]. apply Hin. by exists j.
      * split; [| done]. intros l' H%Hin. destruct H as (j' & [= <-] & H). congruence.
Qed.

Lemma label_slots_shift base base' ls s l : In ((base + s)%nat, l) (label_slots (base + base') ls) <-> In (s, l) (label_slots base' ls).
Proof.
  unfold label_slots. rewrite <- !list_elem_of_In, !elem_of_lookup_imap. split; intros (j & l' & [= E ->] & H); exists j, l';
    (split; [| done]); f_equal; lia.
Qed.

Lemma label_slots_ge base ls s l : In (s, l) (label_slots base ls) -> (base <= s < base + length ls)%nat.
Proof.
  unfold label_slots. rewrite <- list_elem_of_In, elem_of_lookup_imap. intros (j & l' & [= -> ->] & H). apply lookup_lt_Some in H. lia.
Qed.

Lemma targets_fit pos i : (targets i <> [] -> (first_target i + length (targets i) = length (emit pos i))%nat).
Proof. destruct i; try done. simpl. rewrite !length_app, length_fmap. simpl. lia. Qed.

Lemma sites_ge base F s l : In (s, l) (sites base F) -> (base <= s < base + length (slots F))%nat.
Proof.
  revert base. induction F as [| i F IH]; intros base; simpl; [done |]. unfold slots. rewrite fmap_cons. simpl. rewrite length_app.
  intros [H | H]%in_app_iff.
  - pose proof (targets_fit (fun _ => 0%nat) i) as E. destruct (targets i) eqn:Et; [by simpl in H |]. rewrite <- E by done.
    apply label_slots_ge in H. lia.
  - apply IH in H. unfold slots in H. lia.
Qed.

Lemma emit_sites pos F base s :
  (exists l, In ((base + s)%nat, l) (sites base F) /\ concat (emit pos <$> F) !! s = Some (Imm (Z.of_nat (pos l)))) \/
  ((forall l, ~ In ((base + s)%nat, l) (sites base F)) /\ concat (emit pos <$> F) !! s = slots F !! s).
Proof.
  revert base s. induction F as [| i F IH]; intros base s; [right; split; [intros ? [] | done] |].
  unfold slots. rewrite !fmap_cons. cbn [sites concat].
  pose proof (emit_length lt gt pos (fun _ => 0%nat) i) as Hlen.
  destruct (decide (s < length (emit0 i))%nat) as [Hs | Hs].
  - rewrite !lookup_app_l by lia.
    assert (forall l, In ((base + s)%nat, l) (label_slots (base + first_target i) (targets i) ++ sites (base + length (emit0 i)) F) <->
      In (s, l) (label_slots (first_target i) (targets i))) as E.
    { intros l. rewrite in_app_iff, label_slots_shift. split; [intros [H | H] | by left]; [done |]. apply sites_ge in H. lia. }
    destruct (emit_slots pos i s) as [(l & Hl & Hv) | [Hl Hv]]; [left | right].
    + exists l. by rewrite E.
    + split; [| done]. intros l. by rewrite E.
  - rewrite !lookup_app_r by lia. rewrite Hlen.
    assert (forall l, In ((base + s)%nat, l) (label_slots (base + first_target i) (targets i) ++ sites (base + length (emit0 i)) F) <->
      In ((base + length (emit0 i) + (s - length (emit0 i)))%nat, l) (sites (base + length (emit0 i)) F)) as E.
    { intros l. rewrite in_app_iff. replace (base + length (emit0 i) + (s - length (emit0 i)))%nat with (base + s)%nat by lia.
      split; [intros [H | H] | by right]; [| done]. exfalso. rewrite label_slots_shift in H.
      pose proof (targets_fit (fun _ => 0%nat) i) as Ht. destruct (targets i) eqn:Et; [by simpl in H |]. apply label_slots_ge in H.
      specialize (Ht ltac:(done)). lia. }
    destruct (IH (base + length (emit0 i))%nat (s - length (emit0 i))%nat) as [(l & Hl & Hv) | [Hl Hv]]; [left | right].
    + exists l. by rewrite E.
    + split; [| done]. intros l. by rewrite E.
Qed.
End Slots.

(** ** The buffers *)

(** The instructions emitted, with labels by number, and the labels: the index of the instruction
    they are before, once they have one, and whether that one is out of line. *)
Record ghost := Ghost { g_code : both (list instr); g_labels : list (option nat * bool) }.

(** Slots of an instruction that is not complete: those before the labels, and the labels. *)
Abbreviation open_part := (list slot * list nat)%type.
Definition closed : open_part := ([], []).

Definition fixes (th : bool) (fxs : list ptr_fixup_t) : list (nat * nat) :=
  (fun fx => (site fx, label_id fx)) <$> List.filter (fun fx => Bool.eqb (site_in_thunk fx) th) fxs.

Section Rep.
Context (lt gt : list value_type).
#[local] Notation emit := (emit lt gt).
#[local] Notation emit0 := (emit (fun _ => 0%nat)).
#[local] Notation slots := (slots lt gt).
#[local] Notation sites := (sites lt gt).

Definition holds (F : list instr) (o : open_part) (th : bool) (b : buffers) : Prop :=
  buffer th b = slots F ++ o.1 ++ replicate (length o.2) (Imm 0) /\
  fixes th (ptr_fixups b) = sites 0 F ++ label_slots (length (slots F) + length o.1) o.2.

Definition label_rep (c : both (list instr)) (l : option nat * bool) : label_info_t :=
  LabelInfo ((fun k => length (slots (take k (get l.2 c)))) <$> l.1) l.2.

Definition label_wf (c : both (list instr)) (l : option nat * bool) : Prop := forall k, l.1 = Some k -> (k <= length (get l.2 c))%nat.

Record rep (g : ghost) (o : both open_part) (b : buffers) : Prop := {
  rep_holds th : holds (get th (g_code g)) (get th o) th b;
  rep_labels : labels b = label_rep (g_code g) <$> g_labels g;
  rep_labels_wf : Forall (label_wf (g_code g)) (g_labels g);
}.

Definition none_open : both open_part := Both closed closed.

(** Extending the code of a buffer, and the labels. *)
Definition push_code (th : bool) (F : list instr) (g : ghost) : ghost :=
  Ghost (put th (get th (g_code g) ++ F) (g_code g)) (g_labels g).
Definition push_label (l : option nat * bool) (g : ghost) : ghost := Ghost (g_code g) (g_labels g ++ [l]).
Definition set_label (id : nat) (l : option nat * bool) (g : ghost) : ghost := Ghost (g_code g) (<[id := l]> (g_labels g)).

Lemma fixes_app th l1 l2 : fixes th (l1 ++ l2) = fixes th l1 ++ fixes th l2.
Proof. unfold fixes. by rewrite List.filter_app, fmap_app. Qed.

Lemma holds_slot F o th th' v b :
  holds F o th' b -> (th = th' -> o.2 = []) ->
  holds F (if bool_decide (th = th') then (o.1 ++ [v], []) else o) th' (add_slot th v b).
Proof.
  intros [H1 H2] Ho. unfold holds. case_bool_decide as E.
  - subst th'. specialize (Ho eq_refl). rewrite Ho in *. cbn [fst snd length replicate] in *. rewrite !app_nil_r in *.
    split; [| by rewrite <- H2; destruct th].
    destruct th; cbn in *; by rewrite H1, <- app_assoc.
  - split; [by destruct th, th' | by rewrite <- H2; destruct th].
Qed.

Lemma rep_slot g o th v b :
  rep g o b -> (get th o).2 = [] -> rep g (put th ((get th o).1 ++ [v], []) o) (add_slot th v b).
Proof.
  intros [H1 H2 H3] Ho. constructor; [| by rewrite <- H2; destruct th | done].
  intros th'. pose proof (holds_slot _ _ th th' v b (H1 th') ltac:(by intros <-)) as H. case_bool_decide as E.
  - subst th'. by rewrite get_put.
  - by rewrite get_put_ne.
Qed.

Definition placeholder (l : nat) (th : bool) (b : buffers) : buffers :=
  add_fixup (PtrFixup (length (buffer th b)) l th) (add_slot th (Imm 0) b).

Lemma rep_placeholder g o th l b :
  rep g o b -> rep g (put th ((get th o).1, (get th o).2 ++ [l]) o) (placeholder l th b).
Proof.
  intros [H1 H2 H3]. constructor; [| by rewrite <- H2; destruct th | done].
  intros th'. destruct (H1 th') as [Hb Hf]. destruct (decide (th = th')) as [<- | Hne].
  - rewrite get_put. split; cbn [fst snd].
    + rewrite length_app, replicate_add. cbn [length replicate]. rewrite !app_assoc, <- (app_assoc (slots _)).
      destruct th; cbn in *; by rewrite Hb.
    + unfold placeholder, add_fixup. cbn [ptr_fixups]. rewrite fixes_app. rewrite label_slots_app, app_assoc.
      f_equal; [by rewrite <- Hf; destruct th |].
      unfold fixes. cbn [List.filter site_in_thunk]. rewrite Bool.eqb_reflx. cbn. do 2 f_equal. rewrite Hb, !length_app, length_replicate. lia.
  - rewrite get_put_ne by done. split; [by rewrite <- Hb; destruct th, th' |].
    unfold placeholder, add_fixup. cbn [ptr_fixups]. rewrite fixes_app.
    unfold fixes at 2. cbn [List.filter site_in_thunk]. rewrite (proj2 (Bool.eqb_false_iff _ _) Hne). cbn. rewrite app_nil_r. rewrite <- Hf. by destruct th.
Qed.

(** A complete instruction. *)
Lemma label_rep_app c th F l : label_wf c l -> label_rep (put th (get th c ++ F) c) l = label_rep c l.
Proof.
  intros Hl. unfold label_rep. destruct l as [[k |] th']; [| done]. simpl. do 2 f_equal. specialize (Hl k eq_refl). simpl in Hl.
  destruct (decide (th = th')) as [<- | Hne]; [rewrite get_put; by rewrite take_app_le | by rewrite get_put_ne].
Qed.

Lemma label_wf_app c th F l : label_wf c l -> label_wf (put th (get th c ++ F) c) l.
Proof.
  intros Hl k Hk. specialize (Hl k Hk). destruct (decide (th = l.2)) as [-> | Hne]; [rewrite get_put, length_app; lia | by rewrite get_put_ne].
Qed.

Lemma rep_close g o th i b :
  rep g o b -> emit0 i = (get th o).1 ++ replicate (length (targets i)) (Imm 0) -> (get th o).2 = targets i ->
  (targets i <> [] -> length (get th o).1 = first_target i) ->
  rep (push_code th [i] g) (put th closed o) b.
Proof.
  intros [H1 H2 H3] Hi Ht Hlen. constructor; cbn [push_code g_code g_labels].
  - intros th'. destruct (decide (th = th')) as [<- | Hne]; [| by rewrite !get_put_ne by done].
    rewrite !get_put. destruct (H1 th) as [Hb Hf]. split; cbn [fst snd closed].
    + rewrite Hb, slots_app, <- app_assoc. f_equal. rewrite !app_nil_r. unfold TranslatorRep.slots. simpl. rewrite app_nil_r, Hi. by rewrite Ht.
    + rewrite Hf, sites_app. rewrite <- !app_assoc. f_equal. cbn [sites]. rewrite !app_nil_r, Ht. simpl.
      destruct (targets i) as [| t ts] eqn:E; [done |]. by rewrite Hlen.
  - rewrite H2. apply list_fmap_ext. intros j l Hl. symmetry. apply label_rep_app. eapply Forall_lookup_1; eauto.
  - eapply Forall_impl; [| exact H3]. intros. by apply label_wf_app.
Qed.

(** Labels. *)
Lemma rep_new_label g o th b : rep g o b -> rep (push_label (None, th) g) o (with_labels (labels b ++ [LabelInfo None th]) b).
Proof.
  intros [H1 H2 H3]. constructor; [exact H1 | | ].
  - cbn [push_label g_labels labels with_labels g_code]. rewrite H2, fmap_app. done.
  - apply Forall_app. split; [done |]. by repeat constructor.
Qed.

Lemma rep_set_label g o id th b :
  rep g o b -> g_labels g !! id = Some (None, th) -> get th o = closed ->
  rep (set_label id (Some (length (get th (g_code g))), th) g) o
    (with_labels (<[id := LabelInfo (Some (length (buffer th b))) th]> (labels b)) b).
Proof.
  intros [H1 H2 H3] Hid Ho. constructor; [exact H1 | |].
  - cbn [set_label g_labels labels with_labels g_code]. rewrite H2, list_fmap_insert. f_equal. unfold label_rep. simpl.
    rewrite firstn_all. destruct (H1 th) as [-> _]. rewrite Ho. simpl. by rewrite app_nil_r.
  - apply Forall_insert; [done |]. intros k [= <-]. done.
Qed.
End Rep.

(** ** Patching *)

Lemma label_slots_fun base ls s l l' : In (s, l) (label_slots base ls) -> In (s, l') (label_slots base ls) -> l = l'.
Proof.
  unfold label_slots. rewrite <- !list_elem_of_In, !elem_of_lookup_imap. intros (j & ? & [= -> ->] & H) (j' & ? & [= E ->] & H').
  assert (j = j') as <- by lia. congruence.
Qed.

Section Sites.
Context (lt gt : list value_type).
#[local] Notation sites := (sites lt gt).

Lemma label_slots_fits base i s l :
  In (s, l) (label_slots (base + first_target i) (targets i)) -> (base <= s < base + length (emit lt gt (fun _ => 0%nat) i))%nat.
Proof.
  intros H. pose proof (targets_fit lt gt (fun _ => 0%nat) i) as E. destruct (targets i) eqn:Et; [by simpl in H |].
  rewrite <- E by done. apply label_slots_ge in H. lia.
Qed.

Lemma sites_fun base F s l l' : In (s, l) (sites base F) -> In (s, l') (sites base F) -> l = l'.
Proof.
  revert base. induction F as [| i F IH]; intros base; simpl; [done |]. rewrite !in_app_iff.
  intros [H | H] [H' | H']; [by eapply label_slots_fun | exfalso | exfalso | by eapply IH].
  - apply label_slots_fits in H. apply sites_ge in H'. lia.
  - apply label_slots_fits in H'. apply sites_ge in H. lia.
Qed.

Lemma sites_shift base F s l : In ((base + s)%nat, l) (sites base F) <-> In (s, l) (sites 0 F).
Proof.
  assert (forall b, In ((base + s)%nat, l) (sites (base + b) F) <-> In (s, l) (sites b F)) as H; [| by rewrite <- (H 0%nat), Nat.add_0_r].
  induction F as [| i F IH]; intros b; simpl; [done |]. rewrite !in_app_iff, <- !Nat.add_assoc, label_slots_shift, IH. done.
Qed.
End Sites.

Section Foldl.
Context {A : Type} (at_ : A -> nat) (v : A -> slot).
#[local] Notation write := (foldl (fun (c : list slot) fx => <[at_ fx := v fx]> c)).

Lemma write_length l (c : list slot) : length (write c l) = length c.
Proof. revert c. induction l as [| a l IH]; intros c; [done |]. simpl. by rewrite IH, length_insert. Qed.

Lemma write_other l (c : list slot) s : (forall a, In a l -> at_ a <> s) -> write c l !! s = c !! s.
Proof.
  revert c. induction l as [| a l IH]; intros c H; [done |]. simpl. rewrite IH by (intros a' Ha'; apply H; by right).
  apply list_lookup_insert_ne. apply H. by left.
Qed.

Lemma write_here l (c : list slot) a : In a l -> (at_ a < length c)%nat -> (forall a', In a' l -> at_ a' = at_ a -> v a' = v a) -> write c l !! at_ a = Some (v a).
Proof.
  revert c a. induction l as [| b l IH]; intros c a Hin Hlt H; [done |]. simpl.
  destruct (decide (Exists (fun a' => at_ a' = at_ a) l)) as [He | He].
  - apply List.Exists_exists in He as (a' & Ha' & E). rewrite <- E, <- (H a' (or_intror Ha') E).
    apply IH; [done | by rewrite length_insert, E |]. intros a2 Ha2 E2.
    by rewrite (H a' (or_intror Ha') E), (H a2 (or_intror Ha2) (eq_trans E2 E)).
  - rewrite write_other.
    + destruct Hin as [-> | Hin]; [by apply list_lookup_insert_eq |]. exfalso. apply He. apply List.Exists_exists. by exists a.
    + intros a' Ha' E. apply He. apply List.Exists_exists. by exists a'.
Qed.
End Foldl.

Section Patch.
Context (M : nat) (ls : list label_info_t).

Definition site_of (fx : ptr_fixup_t) : nat := if site_in_thunk fx then (M + site fx)%nat else site fx.
Definition address_of (id : nat) : nat :=
  match ls !! id with
  | Some lbl => let off := default 0%nat (TranslatorState.offset lbl) in if in_thunk lbl then (M + off)%nat else off
  | None => 0%nat
  end.

Lemma patch_all_done fxs c :
  (forall fx, In fx fxs -> (exists lbl, ls !! label_id fx = Some lbl /\ TranslatorState.offset lbl <> None) /\ (site_of fx < length c)%nat) ->
  patch_all M ls fxs c = Done (foldl (fun c fx => <[site_of fx := Imm (Z.of_nat (address_of (label_id fx)))]> c) c fxs).
Proof.
  revert c. induction fxs as [| fx fxs IH]; intros c H; [done |]. destruct (H fx ltac:(by left)) as [(lbl & Hl & Hoff) Hs].
  cbn [patch_all foldl]. unfold patch. rewrite Hl. destruct (TranslatorState.offset lbl) as [off |] eqn:E; [| done].
  fold (site_of fx). rewrite (proj2 (Nat.ltb_lt _ _) Hs).
  assert (address_of (label_id fx) = (if in_thunk lbl then (M + off)%nat else off)) as -> by (unfold address_of; by rewrite Hl, E).
  apply IH. intros fx' Hfx'. rewrite length_insert. apply H. by right.
Qed.
End Patch.

Section Final.
Context (lt gt : list value_type).
#[local] Notation emit := (emit lt gt).
#[local] Notation slots := (slots lt gt).
#[local] Notation sites := (sites lt gt).

(** The instruction that a label is before, and the program that the buffers stand for. *)
Definition resolve (g : ghost) (id : nat) : nat :=
  match g_labels g !! id : option (option nat * bool) with
  | Some (Some k, th) => if th then (length (of_main (g_code g)) + k)%nat else k
  | _ => 0%nat
  end.
Definition program (g : ghost) : list instr := retarget (resolve g) <$> of_main (g_code g) ++ of_thunk (g_code g).

Lemma retarget_slots_length f F : length (concat (emit (fun _ => 0%nat) <$> (retarget f <$> F))) = length (slots F).
Proof.
  induction F as [| i F IH]; [done |]. unfold TranslatorRep.slots. rewrite !fmap_cons. cbn [concat]. rewrite !length_app, IH. f_equal.
  rewrite emit_retarget. apply emit_length.
Qed.

Lemma program_position g k : position lt gt (program g) k = length (slots (take k (of_main (g_code g) ++ of_thunk (g_code g)))).
Proof. unfold position, program. rewrite <- fmap_take. apply retarget_slots_length. Qed.

(** Every label that is used has a place. *)
Definition labels_set (g : ghost) : Prop :=
  forall th s l, In (s, l) (sites 0 (get th (g_code g))) -> exists k th', g_labels g !! l = Some (Some k, th').

Lemma fixes_in th fxs s l : In (s, l) (fixes th fxs) <-> In (PtrFixup s l th) fxs.
Proof.
  unfold fixes. rewrite <- !list_elem_of_In, list_elem_of_fmap. split.
  - intros ([s' l' th'] & [= -> ->] & H). rewrite !list_elem_of_In, filter_In in *. cbn in H.
    destruct H as [H E]. by apply Bool.eqb_prop in E as ->.
  - intros H. exists (PtrFixup s l th). split; [done |]. rewrite list_elem_of_In, filter_In in *. split; [done |]. by destruct th.
Qed.

Lemma patched g b :
  rep lt gt g none_open b -> labels_set g ->
  patch_all (length (bytecode b)) (labels b) (ptr_fixups b) (bytecode b ++ thunks b) = Done (InterpreterRep.code lt gt (program g)).
Proof.
  intros [H1 H2 H3] Hset. destruct (H1 false) as [Hb Hfb], (H1 true) as [Ht Hft].
  cbn [get none_open of_main of_thunk closed fst snd buffer length replicate] in *. rewrite !app_nil_r in *.
  set (F := of_main (g_code g)) in *. set (T := of_thunk (g_code g)) in *.
  assert (forall fx, In fx (ptr_fixups b) <-> In (site_of (length (slots F)) fx, label_id fx) (sites 0 (F ++ T)) /\
    (if site_in_thunk fx then True else (site fx < length (slots F))%nat)) as Hfx.
  { intros [s l th]. cbn. rewrite <- fixes_in, sites_app, in_app_iff. cbn. destruct th; cbn.
    - rewrite Hft. rewrite <- (sites_shift lt gt (length (slots F))). split; [by intros; split; [right |] | intros [[H | H] _]; [| done]].
      apply sites_ge in H. lia.
    - rewrite Hfb. split; [intros H; split; [by left | apply sites_ge in H; lia] | intros [[H | H] ?]; [done |]]. apply sites_ge in H. lia. }
  assert (forall s l, In (s, l) (sites 0 (F ++ T)) -> exists k th, g_labels g !! l = Some (Some k, th)) as Hset'.
  { intros s l. rewrite sites_app, in_app_iff. intros [H | H]; [by apply (Hset false s) |].
    pose proof (sites_ge _ _ _ _ _ _ H). replace s with (0 + length (slots F) + (s - length (slots F)))%nat in H by lia.
    rewrite sites_shift in H. by apply (Hset true _ _ H). }
  assert (forall s l, In (s, l) (sites 0 (F ++ T)) ->
    address_of (length (slots F)) (labels b) l = position lt gt (program g) (resolve g l)) as Haddr.
  { intros s l Hl. destruct (Hset' _ _ Hl) as (k & th & E). unfold address_of, resolve. rewrite H2, list_lookup_fmap, E. simpl.
    rewrite program_position. fold F T. pose proof (Forall_lookup_1 _ _ _ _ H3 E k eq_refl) as Hk. cbn [snd] in Hk.
    destruct th; cbn [get] in Hk; [fold T in Hk; fold F | fold F in Hk].
    - by rewrite take_app_add, slots_app, length_app.
    - by rewrite take_app_le. }
  rewrite Hb, Ht, <- slots_app.
  rewrite patch_all_done.
  2:{ intros fx Hin. pose proof (proj1 (Hfx fx) Hin) as [Hs _]. destruct (Hset' _ _ Hs) as (k & th & E). split.
      - rewrite H2, list_lookup_fmap, E. by eexists.
      - apply sites_ge in Hs. lia. }
  f_equal. apply list_eq. intros s.
  assert (InterpreterRep.code lt gt (program g) = concat (emit (fun l => position lt gt (program g) (resolve g l)) <$> (F ++ T))) as ->.
  { unfold InterpreterRep.code. assert (forall Pr, concat (emit (position lt gt Pr) <$> program g) = concat (emit (fun l => position lt gt Pr (resolve g l)) <$> (F ++ T))) as H; [| apply H].
    intros Pr. unfold program. rewrite <- list_fmap_compose. f_equal. apply list_fmap_ext. intros _ i _. apply emit_retarget. }
  destruct (emit_sites lt gt (fun l => position lt gt (program g) (resolve g l)) (F ++ T) 0 s) as [(l & Hl & ->) | [Hl ->]].
  - assert (exists fx, In fx (ptr_fixups b) /\ site_of (length (slots F)) fx = s /\ label_id fx = l) as (fx & Hin & <- & <-).
    { cbn in Hl. destruct (decide (s < length (slots F))%nat) as [Hs | Hs].
      - exists (PtrFixup s l false). by rewrite Hfx.
      - exists (PtrFixup (s - length (slots F)) l true). rewrite Hfx. cbn. replace (length (slots F) + (s - length (slots F)))%nat with s by lia. done. }
    rewrite <- (Haddr _ _ Hl). apply (write_here (site_of (length (slots F))) (fun fx => Imm (Z.of_nat (address_of (length (slots F)) (labels b) (label_id fx))))).
    + done.
    + apply sites_ge in Hl. lia.
    + intros fx' Hin' E. rewrite Hfx in Hin'. destruct Hin' as [Hin' _]. rewrite E in Hin'. by rewrite (sites_fun _ _ _ _ _ _ _ Hin' Hl).
  - apply write_other. intros fx Hin E. apply Hfx in Hin as [Hin _]. rewrite E in Hin. by apply (Hl (label_id fx)).
Qed.
End Final.

(** ** What the emission helpers emit *)

Lemma put_get {A} th (o : both A) : put th (get th o) o = o.
Proof. by destruct th, o. Qed.
Lemma put_put {A} th (a a' : A) o : put th a (put th a' o) = put th a o.
Proof. by destruct th. Qed.

(** ** Extensions *)

(** Code is only added, and a label keeps its place once it has one. *)
Record ext (g g' : ghost) : Prop := {
  ext_code th : get th (g_code g) `prefix_of` get th (g_code g');
  ext_labels id k th : g_labels g !! id = Some (k, th) ->
    exists k', g_labels g' !! id = Some (k', th) /\ (k <> None -> k' = k);
}.

#[export] Instance ext_preorder : PreOrder ext.
Proof.
  split.
  - intros g. split; [done |]. intros id k th H. by exists k.
  - intros g1 g2 g3 [C1 L1] [C2 L2]. split; [intros th; etrans; [apply C1 | apply C2] |].
    intros id k th H. destruct (L1 _ _ _ H) as (k2 & H2 & E2), (L2 _ _ _ H2) as (k3 & H3 & E3).
    exists k3. split; [done |]. intros Hk. specialize (E2 Hk) as ->. by apply E3.
Qed.

Lemma ext_push_code th F g : ext g (push_code th F g).
Proof.
  split; cbn; [| intros id k th' H; by exists k]. intros th'. destruct (decide (th = th')) as [<- | Hne].
  - rewrite get_put. by exists F.
  - by rewrite get_put_ne.
Qed.

Lemma ext_push_label l g : ext g (push_label l g).
Proof. split; cbn; [done |]. intros id k th H. exists k. split; [by apply lookup_app_l_Some | done]. Qed.

Lemma ext_set_label id k th g : g_labels g !! id = Some (None, th) -> ext g (set_label id (k, th) g).
Proof.
  intros Hid. split; cbn; [done |]. intros id' k' th' H. destruct (decide (id = id')) as [<- | Hne].
  - rewrite Hid in H. injection H as <- <-. exists k. split; [| done]. apply list_lookup_insert_eq. by eapply lookup_lt_Some.
  - exists k'. split; [by rewrite list_lookup_insert_ne | done].
Qed.

Lemma ext_labels_length g g' : ext g g' -> (length (g_labels g) <= length (g_labels g'))%nat.
Proof.
  intros [_ H]. destruct (le_gt_dec (length (g_labels g)) (length (g_labels g'))) as [| Hgt]; [done |]. exfalso.
  destruct (lookup_lt_is_Some_2 (g_labels g) (length (g_labels g')) Hgt) as [[k th] E].
  destruct (H _ _ _ E) as (k' & E' & _). apply lookup_lt_Some in E'. lia.
Qed.

Lemma ext_placed g g' id k th : ext g g' -> g_labels g !! id = Some (Some k, th) -> g_labels g' !! id = Some (Some k, th).
Proof. intros [_ H] E. destruct (H _ _ _ E) as (k' & E' & Hk). by rewrite Hk in E'. Qed.

(** The final program has the code of the programs that it extends. *)
Lemma main_at g gf k i : ext g gf -> of_main (g_code g) !! k = Some i -> program gf !! k = Some (retarget (resolve gf) i).
Proof.
  intros [Hc _] Hk. destruct (Hc false) as [F E]. cbn in E. unfold program. rewrite list_lookup_fmap, E, <- app_assoc.
  by erewrite lookup_app_l_Some.
Qed.

Lemma thunk_at g gf k i :
  ext g gf -> of_thunk (g_code g) !! k = Some i -> program gf !! (length (of_main (g_code gf)) + k)%nat = Some (retarget (resolve gf) i).
Proof.
  intros [Hc _] Hk. destruct (Hc true) as [F E]. cbn in E. unfold program. rewrite list_lookup_fmap, lookup_app_r by lia.
  replace (_ + k - _)%nat with k by lia. rewrite E. by erewrite lookup_app_l_Some.
Qed.

Lemma resolve_main g gf id k : ext g gf -> g_labels g !! id = Some (Some k, false) -> resolve gf id = k.
Proof. intros He Hid. unfold resolve. by rewrite (ext_placed _ _ _ _ _ He Hid). Qed.

Lemma resolve_thunk g gf id k : ext g gf -> g_labels g !! id = Some (Some k, true) -> resolve gf id = (length (of_main (g_code gf)) + k)%nat.
Proof. intros He Hid. unfold resolve. by rewrite (ext_placed _ _ _ _ _ He Hid). Qed.

(** The code that is emitted at the end of a buffer. *)
Lemma main_code_at g gf F : ext (push_code false F g) gf -> code_at (program gf) (length (of_main (g_code g))) (retarget (resolve gf) <$> F).
Proof.
  intros He j i Hj. rewrite list_lookup_fmap in Hj. apply fmap_Some in Hj as (i' & Hj & ->). eapply main_at; [exact He |]. cbn.
  rewrite lookup_app_r by lia. by replace (_ + j - _)%nat with j by lia.
Qed.

Lemma thunk_code_at g gf F :
  ext (push_code true F g) gf ->
  code_at (program gf) (length (of_main (g_code gf)) + length (of_thunk (g_code g))) (retarget (resolve gf) <$> F).
Proof.
  intros He j i Hj. rewrite list_lookup_fmap in Hj. apply fmap_Some in Hj as (i' & Hj & ->). rewrite <- Nat.add_assoc.
  eapply thunk_at; [exact He |]. cbn. rewrite lookup_app_r by lia. by replace (_ + j - _)%nat with j by lia.
Qed.

Lemma retarget_repair f keep junk : retarget f <$> repair keep junk = repair keep junk.
Proof.
  unfold repair. destruct junk; [done |]. rewrite !fmap_app, <- !list_fmap_compose. repeat f_equal; by apply list_fmap_ext.
Qed.

Lemma set_last_label l l' g : set_label (length (g_labels g)) l' (push_label l g) = push_label l' g.
Proof. unfold set_label, push_label. cbn. f_equal. rewrite insert_app_r_alt, Nat.sub_diag by lia. done. Qed.

(** ** Emission *)

Lemma set_out_id s : set_out (out s) s = s.
Proof. by destruct s. Qed.
Lemma set_out_twice b b' s : set_out b (set_out b' s) = set_out b s.
Proof. done. Qed.

Section Emits.
Context (env : tenv) (gt : list value_type).
#[local] Notation lt := (local_types env).
#[local] Notation rep := (rep lt gt).
#[local] Notation emit0 := (emit lt gt (fun _ => 0%nat)).

(** On a stack [os], [m] returns [a] and changes only the buffers, from [g] and [o] to [g'] and [o']. *)
Definition emits {A} (os : list operand) (m : M A) (a : A) (g : ghost) (o : both open_part) (g' : ghost) (o' : both open_part) : Prop :=
  forall s, operand_stack s = os -> rep g o (out s) -> exists b', m s = Done (a, set_out b' s) /\ rep g' o' b'.

Lemma emits_ret {A} os (a : A) g o : emits os (mret a) a g o g o.
Proof. intros s _ H. exists (out s). by rewrite set_out_id. Qed.

Lemma emits_bind {A B} os (m : M A) (k : A -> M B) a b g o g1 o1 g2 o2 :
  emits os m a g o g1 o1 -> emits os (k a) b g1 o1 g2 o2 -> emits os (m ≫= k) b g o g2 o2.
Proof.
  intros H1 H2 s Hs Hr. destruct (H1 s Hs Hr) as (b1 & E1 & R1). destruct (H2 (set_out b1 s) Hs R1) as (b2 & E2 & R2).
  exists b2. by rewrite (bind_done _ _ _ _ _ E1), E2.
Qed.

Lemma emits_get {B} os (k : tstate -> M B) b g o g' o' :
  (forall s, operand_stack s = os -> emits os (k s) b g o g' o') -> emits os (sm_get ≫= k) b g o g' o'.
Proof. intros H s Hs Hr. rewrite bind_get. by apply (H s). Qed.

Lemma emits_slot os th v g o :
  (get th o).2 = [] -> emits os (emit_imm_to th v) tt g o g (put th ((get th o).1 ++ [v], []) o).
Proof. intros Ho s _ Hr. eexists. split; [done |]. by apply rep_slot. Qed.

Lemma emits_placeholder os th l g o :
  emits os (emit_ptr_label_placeholder l th) tt g o g (put th ((get th o).1, (get th o).2 ++ [l]) o).
Proof. intros s _ Hr. eexists. split; [reflexivity |]. by apply (rep_placeholder lt gt g o th l). Qed.

Lemma emits_close {A} os (m : M A) a th i g o g1 o1 :
  emits os m a g o g1 o1 ->
  emit0 i = (get th o1).1 ++ replicate (length (targets i)) (Imm 0) -> (get th o1).2 = targets i ->
  (targets i <> [] -> length (get th o1).1 = first_target i) ->
  emits os m a g o (push_code th [i] g1) (put th closed o1).
Proof.
  intros H H1 H2 H3 s Hs Hr. destruct (H s Hs Hr) as (b' & E & R). exists b'. split; [done |]. by apply rep_close.
Qed.

Lemma emits_open {A} os (m : M A) a g o g' o' o'' : emits os m a g o g' o' -> o' = o'' -> emits os m a g o g' o''.
Proof. by intros ? <-. Qed.

Lemma put_closed th (o : both open_part) : get th o = closed -> put th closed o = o.
Proof. intros <-. apply put_get. Qed.

(** Instructions of one to three slots, without labels. *)
Lemma emits_op os th f i g o :
  get th o = closed -> targets i = [] -> emit0 i = [Opfunc f] -> emits os (emit_opfunc_to th f) tt g o (push_code th [i] g) o.
Proof.
  intros Ho Ht Hi. eapply emits_open; [eapply emits_close; [apply emits_slot; by rewrite Ho | ..] |];
    rewrite ?get_put, ?Ho, ?Ht; [done.. |]. by rewrite put_put, put_closed.
Qed.

Lemma emits_op_imm os th f v i g o :
  get th o = closed -> targets i = [] -> emit0 i = [Opfunc f; v] ->
  emits os (emit_opfunc_to th f;; emit_imm_to th v) tt g o (push_code th [i] g) o.
Proof.
  intros Ho Ht Hi. eapply emits_open; [eapply emits_close; [eapply emits_bind; apply emits_slot; by rewrite ?get_put, ?Ho | ..] |];
    rewrite ?get_put, ?Ho, ?Ht; [done.. |]. by rewrite !put_put, put_closed.
Qed.

Lemma emits_op_imm2 os th f v w i g o :
  get th o = closed -> targets i = [] -> emit0 i = [Opfunc f; v; w] ->
  emits os (emit_opfunc_to th f;; emit_imm_to th v;; emit_imm_to th w) tt g o (push_code th [i] g) o.
Proof.
  intros Ho Ht Hi. eapply emits_open; [eapply emits_close; [eapply emits_bind; [| eapply emits_bind]; apply emits_slot; by rewrite ?get_put, ?Ho | ..] |];
    rewrite ?get_put, ?Ho, ?Ht; [done.. |]. by rewrite !put_put, put_closed.
Qed.

(** A jump to one label. *)
Lemma emits_jump os th f l i g o :
  get th o = closed -> targets i = [l] -> emit0 i = [Opfunc f; Imm 0] -> first_target i = 1%nat ->
  emits os (emit_opfunc_to th f;; emit_ptr_label_placeholder l th) tt g o (push_code th [i] g) o.
Proof.
  intros Ho Ht Hi Hf. eapply emits_open; [eapply emits_close; [eapply emits_bind; [apply emits_slot; by rewrite Ho | apply emits_placeholder] | ..] |];
    rewrite ?get_put, ?Ho, ?Ht; [done.. |]. by rewrite !put_put, put_closed.
Qed.

Lemma emits_br os th l g o : get th o = closed -> emits os (emit_br_to th l) tt g o (push_code th [Br l] g) o.
Proof. intros Ho. by apply emits_jump. Qed.

Lemma push_code_push th F G g : push_code th G (push_code th F g) = push_code th (F ++ G) g.
Proof. unfold push_code. cbn. by rewrite get_put, put_put, app_assoc. Qed.
Lemma push_code_nil th g : push_code th [] g = g.
Proof. unfold push_code. rewrite app_nil_r, put_get. by destruct g. Qed.

Lemma emits_for_each {A} os th (l : list A) (f : A -> M unit) (F : A -> list instr) g o :
  (forall x g, emits os (f x) tt g o (push_code th (F x) g) o) -> emits os (for_each l f) tt g o (push_code th (concat (F <$> l)) g) o.
Proof.
  intros H. revert g. induction l as [| x l IH]; intros g; simpl; [rewrite push_code_nil; apply emits_ret |].
  rewrite <- push_code_push. eapply emits_bind; [apply H | apply IH].
Qed.

Lemma emits_drops os th (l : list operand) g o :
  get th o = closed ->
  emits os (for_each l (fun o => emit_drop_typed_to th (otype o))) tt g o (push_code th ((fun t => Drop [t]) <$> (otype <$> l)) g) o.
Proof.
  intros Ho. rewrite <- list_fmap_compose.
  assert (((fun t => Drop [t]) ∘ otype) <$> l = concat ((fun o => [Drop [otype o]]) <$> l)) as -> by (induction l; [done |]; simpl; by f_equal).
  apply emits_for_each. intros x g'. by apply emits_op.
Qed.

Lemma locals_end_scratch : locals_end env = scratch_offset lt.
Proof. done. Qed.

(** ** Labels *)

Lemma emits_new_label os th g o : emits os (new_label th) (length (g_labels g)) g o (push_label (None, th) g) o.
Proof.
  intros s _ Hr. eexists. split; [| by apply rep_new_label]. unfold new_label. rewrite bind_get. unfold mbind, sm_bind, sm_modify.
  by rewrite (rep_labels _ _ _ _ _ Hr), length_fmap.
Qed.

Lemma emits_set_label os th id g o :
  g_labels g !! id = Some (None, th) -> get th o = closed ->
  emits os (s ← sm_get; set_label_offset id (length (buffer th (out s)))) tt g o (set_label id (Some (length (get th (g_code g))), th) g) o.
Proof.
  intros Hid Ho s _ Hr. eexists. split; [| by apply rep_set_label]. rewrite bind_get. unfold set_label_offset. rewrite bind_get.
  rewrite (rep_labels _ _ _ _ _ Hr) at 1. by rewrite list_lookup_fmap, Hid.
Qed.

(** ** Repairs *)

Context (Htemps : (1 <= internal_temp_local_count env)%nat).

Lemma temps_first : exists offs, internal_temp_local_offsets env = scratch_offset lt :: offs.
Proof using Htemps.
  unfold internal_temp_local_offsets. destruct internal_temp_local_count as [| n]; [lia |]. cbn [seq fmap list_fmap].
  rewrite locals_end_scratch, Z.mul_0_r, Z.add_0_r. by eexists.
Qed.

Lemma emits_repair os th types (keep junk base : list operand) g o :
  get th o = closed -> (length types <= 1)%nat -> os = keep ++ junk ++ base -> length keep = length types -> junk <> [] ->
  emits os (emit_repair env th types (length base) (length os)) tt g o (push_code th (repair types (otype <$> junk)) g) o.
Proof using Htemps.
  intros Ho Hlen -> Hk Hj.
  assert (forall ts, repair ts (otype <$> junk) = (ScratchSet <$> ts) ++ ((fun t => Drop [t]) <$> (otype <$> junk)) ++ (ScratchGet <$> ts))
    as Hrep by (by destruct junk).
  rewrite Hrep. unfold emit_repair. destruct types as [| t [| ]]; cbn [length] in *; [| | lia].
  - apply nil_length_inv in Hk as ->. cbn [app Nat.eqb fmap list_fmap]. rewrite app_nil_r. apply emits_get. intros s ->.
    rewrite length_app, Nat.add_sub, take_app_length. by apply emits_drops.
  - destruct keep as [| x [| ]]; try done. cbn [Nat.eqb app]. apply emits_get. intros s ->. cbv zeta. cbn [length Nat.eqb].
    destruct temps_first as [offs ->]. cbn [length]. unfold sm_when at 1. cbn [Nat.ltb Nat.leb].
    replace (zip [t] (scratch_offset lt :: offs)) with [(t, scratch_offset lt)] by (by destruct offs). cbn [rev app for_each].
    rewrite length_app. replace (S (length junk + length base) - (S (length junk + length base) - 1))%nat with 1%nat by lia.
    replace (S (length junk + length base) - 1 - length base)%nat with (length junk) by lia.
    change (drop 1 (x :: junk ++ base)) with (junk ++ base).
    cbn [fmap list_fmap]. eapply emits_bind; [apply emits_ret |]. rewrite <- !push_code_push.
    eapply emits_bind; [eapply emits_bind; [by apply (emits_op_imm _ th _ _ (ScratchSet t)) | apply emits_ret] |].
    eapply emits_bind; [rewrite take_app_length; by apply emits_drops |].
    eapply emits_bind; [by apply (emits_op_imm _ th _ _ (ScratchGet t)) | apply emits_ret].
Qed.

(** A jump out of line: a label, the repair and the jump. *)
Definition push_thunk (F : list instr) (g : ghost) : ghost :=
  push_code true F (push_label (Some (length (of_thunk (g_code g))), true) g).

Lemma emits_thunk os types (keep junk base : list operand) target g o :
  of_thunk o = closed -> (length types <= 1)%nat -> os = keep ++ junk ++ base -> length keep = length types -> junk <> [] ->
  emits os (emit_thunk env types (length base) (length os) target) (length (g_labels g)) g o
    (push_thunk (repair types (otype <$> junk) ++ [Br target]) g) o.
Proof using Htemps.
  intros Ho Hlen Hos Hk Hj. unfold emit_thunk, push_thunk. rewrite <- push_code_push, <- (set_last_label (None, true)).
  eapply emits_bind; [apply emits_new_label |].
  intros s Hs Hr. rewrite <- sm_bind_assoc. revert s Hs Hr.
  eapply emits_bind; [apply (emits_set_label _ true) |].
  - cbn. by rewrite lookup_app_r, Nat.sub_diag by lia.
  - done.
  - eapply emits_bind; [by eapply (emits_repair os true types keep junk base) |].
    eapply emits_bind; [by apply emits_br | apply emits_ret].
Qed.

Lemma ext_push_thunk F g : ext g (push_thunk F g).
Proof. unfold push_thunk. etrans; [apply ext_push_label | apply ext_push_code]. Qed.
End Emits.
