(* ===== verification/TranslatorPlain.v ===== *)
(** * The translation of instructions without jumps

    States of the translator whose operands have given types, the operations on them, what a case
    reads of the bytes of its instruction, and for each case without a jump the instruction that it emits and what it does to the types. For
    every typed instruction that neither jumps nor is a constant, the case that translates it,
    and that the instruction that the case emits is what the specification executes. *)

From stdpp Require Import base list numbers.
From Stdlib Require Import ZArith Lia.
From S2P Require Import Prelude Leb128 WasmTypes ValidationError WasmSpec Fetch IeeeBits NumericOps Interpreter FlatWasm FlatTyping.
From S2P Require Import InterpreterRep WasmExec FlatLayout TranslatorState Translator TranslatorRep.
Open Scope Z_scope.

(** ** States *)

(** A state whose count of bytes is that of its operands. *)
Definition St (p : nat) (b : buffers) (cs : list block_t) (os : list operand) (poly : bool) (mx bmx z : Z) : tstate :=
  TState p b cs os poly (size_bytes (otype <$> os)) mx bmx z.

(** Operands of the types [ts], the top first; in unreachable code the lowest may be missing and
    others unknown. *)
Fixpoint compat (poly : bool) (seg : list operand) (ts : list value_type) : Prop :=
  match seg, ts with
  | [], ts => ts = [] \/ poly = true
  | o :: seg, t :: ts => (o = Operand t false \/ (poly = true /\ is_unknown o = true)) /\ compat poly seg ts
  | _ :: _, [] => False
  end.

Definition knowns (ts : list value_type) : list operand := (fun t => Operand t false) <$> ts.

Lemma compat_knowns poly ts : compat poly (knowns ts) ts.
Proof. induction ts as [| t ts IH]; simpl; [by left | split; [by left | done]]. Qed.

Lemma compat_known seg ts : compat false seg ts -> seg = knowns ts.
Proof.
  revert ts. induction seg as [| o seg IH]; intros [| t ts]; simpl; try done; [by intros [|] |].
  intros [[-> | [Hf _]] H]; [| done]. by rewrite (IH ts H).
Qed.

Lemma types_knowns ts : otype <$> knowns ts = ts.
Proof. unfold knowns. rewrite <- list_fmap_compose. by apply list_fmap_id. Qed.

Lemma compat_app poly seg1 seg2 ts1 ts2 : compat poly seg1 ts1 -> length seg1 = length ts1 -> compat poly seg2 ts2 -> compat poly (seg1 ++ seg2) (ts1 ++ ts2).
Proof.
  revert ts1. induction seg1 as [| o seg1 IH]; intros [| t ts1] H1 Hl H2; try done. simpl in *.
  destruct H1 as [? H1]. split; [done |]. apply IH; [done | lia | done].
Qed.

Lemma compat_length seg poly ts : compat poly seg ts -> (length seg <= length ts)%nat /\ (poly = false -> length seg = length ts).
Proof.
  revert ts. induction seg as [| o seg IH]; intros [| t ts]; simpl; try done.
  - intros [| ->]; [done |]. split; [lia | done].
  - intros [_ H]. destruct (IH _ H) as [? H']. split; [lia |]. intros Hp. by rewrite H'.
Qed.

Lemma compat_matches poly seg ts : compat poly seg ts -> Forall2 (fun o t => stack_entry_type_matches o t = true) seg (take (length seg) ts).
Proof.
  revert ts. induction seg as [| o seg IH]; intros [| t ts]; simpl; try done. intros [Ho H]. constructor; [| by apply IH].
  unfold stack_entry_type_matches. destruct Ho as [-> | [_ ->]]; [| done]. simpl. by apply bool_decide_eq_true.
Qed.

(** ** Operations on the operands *)

Lemma require_true {B} c (k : unit -> M B) s : (require c true ≫= k) s = k tt s.
Proof. done. Qed.

Lemma size_bytes_cons t ts : size_bytes (t :: ts) = valtype_size t + size_bytes ts.
Proof. done. Qed.

Section Stack.
Context (p : nat) (cs : list block_t).

Lemma size_cons o os : size_bytes (otype <$> (o :: os)) = valtype_size (otype o) + size_bytes (otype <$> os).
Proof. done. Qed.

Lemma pop_unchecked_St b o os poly mx bmx z :
  operand_stack_pop_unchecked (St p b cs (o :: os) poly mx bmx z) = Done (tt, St p b cs os poly mx bmx z).
Proof.
  unfold operand_stack_pop_unchecked. rewrite bind_get. cbn [operand_stack operand_stack_bytes St]. rewrite size_cons.
  pose proof (size_bytes_nonneg (otype <$> os)). rewrite (proj2 (Z.ltb_ge _ _)) by lia. unfold sm_when, mbind, sm_bind, mret, sm_ret, sm_modify.
  unfold set_operand_stack, St. cbn. do 3 f_equal. lia.
Qed.

Lemma compat_tail poly seg t ts : compat poly seg (t :: ts) -> compat poly (tail seg) ts.
Proof. destruct seg as [| o seg]; simpl; [intros [| ->]; [done | by right] | by intros [_ H]]. Qed.

Lemma compat_head poly seg t ts : compat poly seg (t :: ts) -> operand_type_matches (head seg) t = true.
Proof.
  intros H. apply compat_matches in H. destruct seg as [| o seg]; [done |]. by inversion H.
Qed.

Lemma push_St t b os poly mx bmx z :
  exists mx' bmx', operand_stack_push t (St p b cs os poly mx bmx z) =
    Done (tt, St p b cs (Operand t false :: os) poly mx' bmx' z) /\
    bmx <= bmx' /\ (poly = false -> size_bytes (t :: (otype <$> os)) <= bmx').
Proof.
  exists (if poly then mx else Z.max (zlen (Operand t false :: os)) mx), (if poly then bmx else Z.max (size_bytes (t :: (otype <$> os))) bmx).
  split; [| destruct poly; (split; [lia | intros; try done; lia])].
  unfold operand_stack_push, mbind, sm_bind, sm_modify. unfold sm_get. cbn.
  assert (size_bytes (otype <$> os) + valtype_size t = size_bytes (t :: (otype <$> os))) as -> by (rewrite size_bytes_cons; lia).
  by destruct poly.
Qed.

Lemma truncate_app b l os poly mx bmx z :
  repeat_m (length l) operand_stack_pop_unchecked (St p b cs (l ++ os) poly mx bmx z) = Done (tt, St p b cs os poly mx bmx z).
Proof.
  induction l as [| o l IH]; [done |]. cbn [length repeat_m app]. by rewrite (bind_done _ _ _ _ _ (pop_unchecked_St _ _ _ _ _ _ _)).
Qed.

Lemma truncate_St b l os poly mx bmx z :
  operand_stack_truncate_to (length os) (St p b cs (l ++ os) poly mx bmx z) = Done (tt, St p b cs os poly mx bmx z).
Proof.
  unfold operand_stack_truncate_to. rewrite bind_get. cbn [operand_stack St]. rewrite length_app, Nat.add_sub. apply truncate_app.
Qed.

Lemma push_types_St ts b os poly mx bmx z :
  exists mx' bmx', block_push_types ts (St p b cs os poly mx bmx z) =
    Done (tt, St p b cs (knowns (rev ts) ++ os) poly mx' bmx' z) /\ bmx <= bmx'.
Proof.
  unfold block_push_types. revert os mx bmx. induction ts as [| t ts IH]; intros os mx bmx; [by exists mx, bmx |]. cbn [for_each].
  destruct (push_St t b os poly mx bmx z) as (mx1 & bmx1 & E1 & H1 & _). rewrite (bind_done _ _ _ _ _ E1).
  destruct (IH (Operand t false :: os) mx1 bmx1) as (mx2 & bmx2 & E2 & H2). exists mx2, bmx2. rewrite E2. split; [| lia].
  simpl. unfold knowns. by rewrite fmap_app, <- app_assoc.
Qed.

(** The comparison of operands with types whose last is on the top. *)
Lemma zip_matches poly seg ts : compat poly seg ts -> forall n,
  forallb (fun '(o, t) => stack_entry_type_matches o t) (zip (take n seg) ts) = true.
Proof.
  intros H n. apply compat_matches in H. apply forallb_forall. intros [o t] Hin. apply list_elem_of_In in Hin.
  apply elem_of_lookup_zip_with in Hin as (j & o' & t' & [= -> ->] & H1 & H2).
  apply lookup_take_Some in H1 as [H1 ?]. destruct (Forall2_lookup_l _ _ _ _ _ H H1) as (t2 & H3 & ?).
  apply lookup_take_Some in H3 as [H3 _]. congruence.
Qed.

Lemma zip_prefix {A B} (l : list A) (l1 l2 : list B) : forall x, In x (zip l l1) -> In x (zip l (l1 ++ l2)).
Proof. revert l1. induction l as [| a l IH]; intros [| b l1] x; try done. simpl. intros [| H]; [by left | right; by apply IH]. Qed.

End Stack.

Section Operands.
Context (p : nat) (f : block_t) (cs : list block_t) (rest : list operand).
Context (Hbase : operand_stack_base f = length rest).
#[local] Notation St b seg poly mx bmx z := (St p b (f :: cs) (seg ++ rest) poly mx bmx z).

Lemma count_St b seg poly mx bmx z : concrete_operand_count (St b seg poly mx bmx z) = length seg.
Proof using Hbase.
  unfold concrete_operand_count, curr_frame_operand_stack_base. cbn. rewrite Hbase, length_app.
  rewrite (proj2 (Nat.leb_le _ _)) by lia. lia.
Qed.

Lemma underflow_St n b seg poly mx bmx z ts :
  compat poly seg ts -> (n <= length ts)%nat -> underflow_unless n (St b seg poly mx bmx z) = Done (tt, St b seg poly mx bmx z).
Proof using Hbase.
  intros H Hn. unfold underflow_unless. rewrite bind_get, count_St. apply compat_length in H as [_ H].
  unfold require. cbn [is_polymorphic TranslatorPlain.St]. destruct poly; [done |]. rewrite H by done. by rewrite (proj2 (Nat.leb_le _ _)).
Qed.

Lemma try_pop_St b seg poly mx bmx z :
  try_pop_concrete_operand (St b seg poly mx bmx z) = Done (head seg, St b (tail seg) poly mx bmx z).
Proof using Hbase.
  unfold try_pop_concrete_operand. rewrite bind_get, count_St. destruct seg as [| o seg]; [done |]. cbn [length Nat.eqb app].
  by rewrite (bind_done _ _ _ _ _ (pop_unchecked_St p (f :: cs) b o (seg ++ rest) poly mx bmx z)).
Qed.

Lemma try_peek_St b seg poly mx bmx z :
  try_peek_concrete_operand (St b seg poly mx bmx z) = Done (head seg, St b seg poly mx bmx z).
Proof using Hbase. unfold try_peek_concrete_operand. rewrite bind_get, count_St. by destruct seg. Qed.

Lemma pops_St (ts : list value_type) b seg poly mx bmx z ts0 :
  compat poly seg (ts ++ ts0) -> exists seg', compat poly seg' ts0 /\
  for_each ts (fun t => operand ← try_pop_concrete_operand; require cvec.numeric_operand_type_mismatch (operand_type_matches operand t)) (St b seg poly mx bmx z) =
    Done (tt, St b seg' poly mx bmx z).
Proof using Hbase.
  revert seg. induction ts as [| t ts IH]; intros seg H; [by exists seg |]. cbn [for_each app] in *.
  destruct (IH (tail seg) (compat_tail _ _ _ _ H)) as (seg' & H' & E). exists seg'. split; [done |].
  rewrite sm_bind_assoc, (bind_done _ _ _ _ _ (try_pop_St _ _ _ _ _ _)). rewrite (compat_head _ _ _ _ H). exact E.
Qed.

Lemma make_unreachable_St n b seg poly mx bmx z :
  make_unreachable n (St b seg poly mx bmx z) = Done (tt, St b [] true mx bmx z).
Proof using Hbase.
  unfold make_unreachable, operand_stack_pop_n. rewrite sm_bind_assoc, bind_get.
  assert (curr_frame_operand_stack_base (St b seg poly mx bmx z) = length rest) as -> by done.
  cbn [operand_stack TranslatorPlain.St]. rewrite length_app, Nat.add_sub.
  set (k := (n `min` length seg)%nat). rewrite <- (take_drop k seg), <- app_assoc.
  assert (length (take k seg) = k) as Hk by (rewrite length_take; lia). rewrite <- Hk at 1.
  rewrite (bind_done _ _ _ _ _ (truncate_app p (f :: cs) _ _ _ _ _ _ _)), bind_get.
  assert (forall x, curr_frame_operand_stack_base (TranslatorPlain.St p b (f :: cs) x poly mx bmx z) = length rest) as -> by done.
  by rewrite (bind_done _ _ _ _ _ (truncate_St p (f :: cs) _ _ _ _ _ _ _)).
Qed.

Lemma operands_match_St types b seg poly mx bmx z ts :
  compat poly seg (rev types ++ ts) -> operands_match types (St b seg poly mx bmx z) = true.
Proof using Hbase.
  intros H. unfold operands_match. rewrite count_St. cbn [operand_stack TranslatorPlain.St]. rewrite take_app_length.
  apply forallb_forall. intros x Hx. apply (zip_prefix _ _ ts) in Hx. revert x Hx. apply forallb_forall.
  rewrite <- (firstn_all seg). by eapply zip_matches.
Qed.
End Operands.

(** ** Reading instructions *)

(** The bytes of an instruction of the specification are what its case reads, and then the case does
    what is left of it. *)
Lemma uN_widen N N' bs v : N <= N' -> uN N bs v -> uN N' bs v.
Proof.
  intros Hle H. revert N' Hle. induction H as [N n Hn HN | N n bs m Hn HN _ IH]; intros N' Hle.
  - constructor; [done |]. pose proof (Z.pow_le_mono_r 2 N N'). lia.
  - constructor; [done | lia |]. apply IH. lia.
Qed.

Lemma indices_length xs bs : indices_bytes xs bs -> (length xs <= length bs)%nat.
Proof. induction 1 as [| x xs bs1 bs2 H _ IH]; [done |]. apply uN_length_nonzero in H. rewrite length_app. simpl. lia. Qed.

#[local] Ltac bytes_of := inversion 1; subst; by repeat eexists.

Section Opening.
Context (env : tenv) (Hcode : Forall is_byte (TranslatorState.code env)).
#[local] Notation code := (TranslatorState.code env).

(** On the instruction [e] the translator does [m], after the bytes of [e]. *)
Definition opens (e : WasmSpec.instr) (m : M unit) : Prop := forall q s,
  Fetch.fetch code (code_curr s) = Some (TPlain e, q) -> translate_one_opcode env s = (m;; mret None) (set_code_curr q s).

(** The byte of an opcode, and then its case. *)
Lemma opcode_run b s : code !! code_curr s = Some b -> translate_one_opcode env s = switch_opbase env b (set_code_curr (S (code_curr s)) s).
Proof using.
  intros Hb. unfold translate_one_opcode. rewrite bind_get. pose proof (lookup_lt_Some _ _ _ Hb).
  rewrite (proj2 (Nat.eqb_neq _ _)) by lia. cbn [sm_when]. rewrite bind_ret, Hb, bind_some, bind_modify. done.
Qed.

Lemma opens_intro e (m : M unit) :
  (forall b bs s, plain_bytes e (b :: bs) -> sub code (code_curr s) bs -> (code_curr s <= length code)%nat ->
    switch_opbase env b s = (m;; mret None) (set_code_curr (code_curr s + length bs) s)) -> opens e m.
Proof using Hcode.
  intros H q s Hf. apply fetch_iff in Hf as (bs & Ht & Hs & ->); [| done]. inversion Ht as [? ? Hbs | | | | |]; subst.
  destruct bs as [| b bs]; [by inversion Hbs |]. apply sub_cons in Hs as [Hb Hs]. pose proof (lookup_lt_Some _ _ _ Hb).
  rewrite (opcode_run _ _ Hb), (H b bs (set_code_curr (S (code_curr s)) s) Hbs Hs) by (cbn; lia). cbn [code_curr set_code_curr length]. by rewrite Nat.add_succ_comm.
Qed.

Lemma leb_run {B} digits (sg : bool) c (k : Z -> M B) bs v s :
  leb_width digits -> (if sg then sN else uN) digits bs v -> sub code (code_curr s) bs ->
  (read_leb128 env digits sg c ≫= k) s = k v (set_code_curr (code_curr s + length bs) s).
Proof using Hcode.
  intros Hw Hv Hs. unfold read_leb128. rewrite sm_bind_assoc, bind_get.
  assert (scan_leb128 env digits sg (code_curr s) = Some (v, (code_curr s + length bs)%nat)) as -> by (apply (get_leb_iff code Hcode); eauto).
  by rewrite sm_bind_assoc, bind_modify, bind_ret.
Qed.

Lemma index_run {B} c (k : nat -> M B) bs x s : index_bytes x bs -> sub code (code_curr s) bs ->
  (read_index env c ≫= k) s = k x (set_code_curr (code_curr s + length bs) s).
Proof using Hcode.
  intros Hx Hs. unfold read_index. rewrite sm_bind_assoc, (leb_run 32 false _ _ bs (Z.of_nat x) s width32 Hx Hs), bind_ret. by rewrite Nat2Z.id.
Qed.

Lemma memarg_run {B} mem k (f : Z -> M B) bs1 bs2 a o s :
  memory env = Some mem -> 0 <= k <= 3 -> a <= k -> uN 32 bs1 a -> uN 32 bs2 o -> sub code (code_curr s) (bs1 ++ bs2) ->
  (read_memory_argument64 env k ≫= f) s = f o (set_code_curr (code_curr s + length (bs1 ++ bs2)) s).
Proof using Hcode.
  intros Hm Hk Hak Ha Ho [Hs1 Hs2]%sub_app. unfold read_memory_argument64, all_memory_count. rewrite Hm.
  pose proof (uN_bounds _ _ _ Ha ltac:(lia)) as [Hpos _]. pose proof (uN_bounds _ _ _ Ho ltac:(lia)) as [Hoff _].
  rewrite sm_bind_assoc, (leb_run 32 false _ _ bs1 a s width32 Ha Hs1), sm_bind_assoc, (proj2 (Z.ltb_lt _ _)), require_true by lia.
  assert (Z.land a 64 = 0) as -> by (assert (a = 0 \/ a = 1 \/ a = 2 \/ a = 3) as [-> | [-> | [-> | ->]]] by lia; done).
  rewrite sm_bind_assoc, require_true, sm_bind_assoc. erewrite (leb_run _ false _ _ bs2 o); [| | | exact Hs2].
  2: by destruct uses_core3_validation_policy; unfold leb_width; tauto.
  2: by destruct uses_core3_validation_policy; [apply (uN_widen 32) |].
  rewrite sm_bind_assoc, require_true, sm_bind_assoc, (proj2 (Z.leb_le o _)), require_true, sm_bind_assoc, (proj2 (Z.leb_le a _)), require_true, bind_ret by lia.
  cbn [code_curr set_code_curr]. by rewrite length_app, Nat.add_assoc.
Qed.

Lemma memory_index_run {B} mem (k : unit -> M B) s :
  memory env = Some mem -> sub code (code_curr s) [0] -> (read_memory_index env ≫= k) s = k tt (set_code_curr (S (code_curr s)) s).
Proof using.
  intros Hm Hs%sub_one. unfold read_memory_index, all_memory_count. rewrite Hm, sm_bind_assoc, bind_get. pose proof (lookup_lt_Some _ _ _ Hs).
  rewrite (proj2 (Nat.eqb_neq _ _)) by lia. cbn [sm_when]. by rewrite sm_bind_assoc, bind_ret, Hs, sm_bind_assoc, bind_some, sm_bind_assoc, require_true, sm_bind_assoc, bind_modify.
Qed.

Lemma raw_run {B} n (k : Z -> M B) bs s : (code_curr s <= length code)%nat -> length bs = n -> sub code (code_curr s) bs ->
  (length code - code_curr s <? n)%nat = false /\ (read_wasm_le env n ≫= k) s = k (of_le bs) (set_code_curr (code_curr s + n) s).
Proof using.
  intros Hp Hl Hs. pose proof (sub_length _ _ _ Hp Hs). split; [apply Nat.ltb_ge; lia |]. unfold read_wasm_le. rewrite sm_bind_assoc, bind_get.
  assert (bytes_at env n (code_curr s) = Some bs) as ->.
  { unfold bytes_at. rewrite (proj2 (Nat.leb_le _ _)) by lia. destruct Hs as [rest ->]. by rewrite <- Hl, take_app_length. }
  by rewrite sm_bind_assoc, bind_some, sm_bind_assoc, bind_modify, bind_ret.
Qed.

(** An instruction without immediates, and one with an index. *)
Lemma opens_none e b (m : M unit) : (forall bs, plain_bytes e bs -> bs = [b]) -> switch_opbase env b = (m;; mret None) -> opens e m.
Proof using Hcode.
  intros He Hm. apply opens_intro. intros b' bs s Hbs _ _. apply He in Hbs as [= -> ->]. rewrite Hm. cbn [length]. rewrite Nat.add_0_r. by destruct s.
Qed.

Lemma opens_index e x b c (m : nat -> M unit) :
  (forall bs, plain_bytes e bs -> exists bs', bs = b :: bs' /\ index_bytes x bs') ->
  switch_opbase env b = ((i ← read_index env c; m i);; mret None) -> opens e (m x).
Proof using Hcode.
  intros He Hm. apply opens_intro. intros b' bs s Hbs Hs _. apply He in Hbs as (bs' & [= -> ->] & Hx). rewrite Hm, sm_bind_assoc.
  by rewrite (index_run _ _ _ _ _ Hx Hs).
Qed.

Lemma opens_memarg e b k (m : Z -> M unit) mem a o :
  memory env = Some mem -> 0 <= k <= 3 -> a <= k ->
  (forall bs, plain_bytes e bs -> exists bs1 bs2, bs = b :: bs1 ++ bs2 /\ uN 32 bs1 a /\ uN 32 bs2 o) ->
  switch_opbase env b = ((i ← read_memory_argument64 env k; m i);; mret None) -> opens e (m o).
Proof using Hcode.
  intros Hmem Hk Hak He Hm. apply opens_intro. intros b' bs s Hbs Hs _. apply He in Hbs as (bs1 & bs2 & [= -> ->] & H1 & H2). rewrite Hm, sm_bind_assoc.
  by rewrite (memarg_run mem k _ bs1 bs2 a o s Hmem Hk Hak H1 H2 Hs).
Qed.

Lemma opens_memory e b (m : M unit) mem :
  memory env = Some mem -> (forall bs, plain_bytes e bs -> bs = [b; 0]) ->
  switch_opbase env b = ((read_memory_index env;; m);; mret None) -> opens e m.
Proof using Hcode.
  intros Hmem He Hm. apply opens_intro. intros b' bs s Hbs Hs _. apply He in Hbs as [= -> ->]. rewrite Hm, sm_bind_assoc.
  rewrite (memory_index_run mem _ s Hmem Hs). cbn [length]. by rewrite Nat.add_1_r.
Qed.

Lemma opens_leb digits e b c (m : Z -> M unit) v :
  leb_width digits -> (forall bs, plain_bytes e bs -> exists bs', bs = b :: bs' /\ sN digits bs' v) ->
  switch_opbase env b = ((v ← read_leb128 env digits true c; m v);; mret None) -> opens e (m v).
Proof using Hcode.
  intros Hw He Hm. apply opens_intro. intros b' bs s Hbs Hs _. apply He in Hbs as (bs' & [= -> ->] & Hv). rewrite Hm, sm_bind_assoc.
  by rewrite (leb_run _ true _ _ _ _ _ Hw Hv Hs).
Qed.

Lemma opens_raw n e b c (m : Z -> M unit) bits :
  length bits = n -> (forall bs, plain_bytes e bs -> bs = b :: bits) ->
  switch_opbase env b = ((s ← sm_get; sm_when (length code - code_curr s <? n)%nat (sm_throw c);; v ← read_wasm_le env n; m v);; mret None) ->
  opens e (m (of_le bits)).
Proof using Hcode.
  intros Hl He Hm. apply opens_intro. intros b' bs s Hbs Hs Hp. apply He in Hbs as [= -> ->].
  destruct (raw_run n m bits s Hp Hl Hs) as [H1 H2]. rewrite Hm, sm_bind_assoc, bind_get, H1. cbn [sm_when]. rewrite sm_bind_assoc, bind_ret.
  unfold mbind, sm_bind in H2 |- *. rewrite H2. by rewrite Hl.
Qed.

(** The type of a block is one byte. *)
Lemma blocktype_run {B} (k : list value_type -> M B) b rt s :
  blocktype b = Some rt -> sub code (code_curr s) [b] -> (parse_block_type env ≫= k) s = k rt (set_code_curr (S (code_curr s)) s).
Proof using Hcode.
  intros Hb Hs. pose proof (proj1 (sub_one _ _ _) Hs) as Hl. pose proof (lookup_lt_Some _ _ _ Hl). unfold parse_block_type.
  rewrite sm_bind_assoc, bind_get, (proj2 (Nat.eqb_neq _ _)) by lia. cbn [sm_when]. rewrite sm_bind_assoc, bind_ret, Hl, sm_bind_assoc, bind_some.
  assert (forall v, sN 64 [b] v -> forall (f : Z -> M B), (read_leb128 env 64 true cvec.invalid_const_immediate ≫= f) s = f v (set_code_curr (S (code_curr s)) s)) as Hrun.
  { intros v Hv f. rewrite (leb_run 64 true _ _ [b] v s width64 Hv Hs). cbn [length]. by rewrite Nat.add_1_r. }
  assert ((S (code_curr s) - code_curr s)%nat = 1%nat) as Hsize by lia.
  assert (forall b', b = b' -> 64 <= b' < 128 -> sN 64 [b] (b' - 2 ^ 7)) as Hneg by (intros b' -> ?; constructor; lia).
  unfold blocktype in Hb.
  repeat (match type of Hb with (if ?x =? ?y then _ else _) = _ => destruct (Z.eqb_spec x y) as [E |]; [injection Hb as <- |] end); try done.
  all: pose proof (Hneg _ E ltac:(lia)) as Hv; subst b; cbn [is_core3_extended_block_reference_prefix Z.eqb Pos.eqb orb andb Z.leb Z.compare Pos.compare Pos.compare_cont];
    rewrite sm_bind_assoc, (Hrun _ Hv), sm_bind_assoc, bind_get; cbn [code_curr set_code_curr]; rewrite Hsize; reflexivity.
Qed.

(** The instructions that open and close blocks. *)
Definition token_case (tok : token) : M (option compiled_func) :=
  match tok with
  | TPlain _ => sm_unchecked None
  | TBlock res => begin_block res;; mret None
  | TLoop res => begin_loop res;; mret None
  | TIf res => begin_if res;; mret None
  | TElse => case_else;; mret None
  | TEnd => case_end env
  end.

Lemma opcode_token q s tok :
  Fetch.fetch code (code_curr s) = Some (tok, q) -> (forall e, tok <> TPlain e) -> translate_one_opcode env s = token_case tok (set_code_curr q s).
Proof using Hcode.
  intros Hf Htok. apply fetch_iff in Hf as (bs & Ht & Hs & ->); [| done].
  inversion Ht as [e ? ? | b rt Hb | b rt Hb | b rt Hb | |]; subst; [by edestruct Htok | ..]; apply sub_cons in Hs as [Hop Hs]; rewrite (opcode_run _ _ Hop).
  1-3: unfold switch_opbase; cbn [wasm1_code.of_byte]; change (S (code_curr s)) with (code_curr (set_code_curr (S (code_curr s)) s)) in Hs.
  1: change (((case_block env;; mret None) : M (option compiled_func)) (set_code_curr (S (code_curr s)) s) = token_case (TBlock rt) (set_code_curr (code_curr s + 2) s)); unfold case_block.
  2: change (((case_loop env;; mret None) : M (option compiled_func)) (set_code_curr (S (code_curr s)) s) = token_case (TLoop rt) (set_code_curr (code_curr s + 2) s)); unfold case_loop.
  3: change (((case_if env;; mret None) : M (option compiled_func)) (set_code_curr (S (code_curr s)) s) = token_case (TIf rt) (set_code_curr (code_curr s + 2) s)); unfold case_if.
  1-3: rewrite sm_bind_assoc, (blocktype_run _ b rt _ Hb Hs); cbn [code_curr set_code_curr]; by replace (code_curr s + 2)%nat with (S (S (code_curr s))) by lia.
  - cbn [length]. by rewrite Nat.add_1_r.
  - cbn [length]. by rewrite Nat.add_1_r.
Qed.

(** Jumps. *)
Lemma opens_unreachable : opens IUnreachable (case_unreachable).
Proof using Hcode. by apply (opens_none _ 0); [bytes_of |]. Qed.
Lemma opens_nop : opens INop (mret tt).
Proof using Hcode. by apply (opens_none _ 1); [bytes_of |]. Qed.
Lemma opens_br l : opens (IBr l) (br_to env l).
Proof using Hcode. by eapply (opens_index _ _ 12); [bytes_of |]. Qed.
Lemma opens_br_if l : opens (IBrIf l) (br_if_to env l).
Proof using Hcode. by eapply (opens_index _ _ 13); [bytes_of |]. Qed.
Lemma opens_return : opens IReturn (case_return env).
Proof using Hcode. by apply (opens_none _ 15); [bytes_of |]. Qed.
End Opening.

(** ** Cases that emit one instruction *)

Section Acts.
Context (env : tenv) (gt : list value_type) (pss : list Z).
#[local] Notation lt := (local_types env).
#[local] Notation rep := (rep lt gt).
#[local] Notation emit0 := (emit lt gt (fun _ => 0%nat)).
#[local] Notation emits := (emits env gt).

Lemma emit_St {A} p b cs os poly mx bmx z (m : M A) a g o g' o' :
  emits os m a g o g' o' -> rep g o b ->
  exists b', m (St p b cs os poly mx bmx z) = Done (a, St p b' cs os poly mx bmx z) /\ rep g' o' b'.
Proof. intros H Hr. destruct (H (St p b cs os poly mx bmx z) eq_refl Hr) as (b' & E & R). by exists b'. Qed.

Definition reads (i : instr) (z : Z) : Prop :=
  match i with LocalGet x => forall t, lt !! x = Some t -> offset_of lt x + valtype_size t <= z | _ => True end.

(** What is emitted instead of [i] in unreachable code. *)
Definition harmless (i i' : instr) : Prop := targets i' = [] /\ (instr_ok pss i -> instr_ok pss i').

(** The state after a case that takes operands of the types [ins], pushes [outs] and emits [i]. *)
Record acted (cs : list block_t) (rest : list operand) (p : nat) (poly : bool) (ins outs ts : list value_type) (i : instr)
    (g : ghost) (bmx z : Z) (r : outcome failure (unit * tstate)) : Prop := {
  acted_code : list instr;
  acted_out : buffers;
  acted_seg : list operand;
  acted_max : Z;
  acted_bytes : Z;
  acted_end : Z;
  acted_eq : r = Done (tt, St p acted_out cs (acted_seg ++ rest) poly acted_max acted_bytes acted_end);
  acted_rep : rep (push_code false acted_code g) none_open acted_out;
  acted_compat : compat poly acted_seg (outs ++ ts);
  acted_bytes_le : bmx <= acted_bytes;
  acted_end_le : z <= acted_end;
  acted_harmless : Forall (harmless i) acted_code;
  acted_live : poly = false -> acted_code = [i] /\ reads i acted_end /\
    (size_bytes outs <= size_bytes ins \/ size_bytes (outs ++ ts ++ (otype <$> rest)) <= acted_bytes);
}.

Definition acts (m : M unit) (ins outs : list value_type) (i : instr) : Prop :=
  forall p f cs rest b seg poly mx bmx z ts g,
    operand_stack_base f = length rest -> compat poly seg (ins ++ ts) -> rep g none_open b ->
    acted (f :: cs) rest p poly ins outs ts i g bmx z (m (St p b (f :: cs) (seg ++ rest) poly mx bmx z)).

Lemma acted_weaken cs rest p poly ins outs ts i g bmx bmx' z r :
  bmx <= bmx' -> acted cs rest p poly ins outs ts i g bmx' z r -> acted cs rest p poly ins outs ts i g bmx z r.
Proof. intros Hle [F b seg mx bmx2 z' E R Hc H1 H2 H3 H4]. exists F b seg mx bmx2 z'; [done.. | lia | done | done | done]. Qed.

Lemma harmless_self i : targets i = [] -> Forall (harmless i) [i].
Proof. by repeat constructor. Qed.

Lemma compat_types poly seg ts rest : compat poly seg ts -> poly = false -> otype <$> (seg ++ rest) = ts ++ (otype <$> rest).
Proof. intros H ->. by rewrite fmap_app, (compat_known _ _ H), types_knowns. Qed.

Lemma compat_push poly t seg ts : compat poly seg ts -> compat poly (Operand t false :: seg) (t :: ts).
Proof. simpl. split; [by left | done]. Qed.

(** Popping, pushing at most one result, and emitting, in either order. *)
Lemma acts_numeric ins t f i :
  targets i = [] -> emit0 i = [Opfunc f] -> acts (numeric_case ins t f) (rev ins) [t] i.
Proof.
  intros Ht Hi p fr cs rest b seg poly mx bmx z ts g Hb Hc Hr. unfold numeric_case.
  rewrite (bind_done _ _ _ _ _ (underflow_St p fr cs rest Hb (length ins) b seg poly mx bmx z _ Hc ltac:(rewrite length_app, length_rev; lia))).
  destruct (pops_St p fr cs rest Hb (rev ins) b seg poly mx bmx z ts Hc) as (seg' & Hc' & E). rewrite (bind_done _ _ _ _ _ E).
  destruct (push_St p (fr :: cs) t b (seg' ++ rest) poly mx bmx z) as (mx' & bmx' & E' & Hle & Hmax). rewrite (bind_done _ _ _ _ _ E').
  destruct (emit_St p b (fr :: cs) (Operand t false :: seg' ++ rest) poly mx' bmx' z _ tt g none_open _ none_open (emits_op env gt _ false f i g none_open eq_refl Ht Hi) Hr)
    as (b' & E2 & R).
  exists [i] b' (Operand t false :: seg') mx' bmx' z; [done | done | by apply compat_push | done | lia | by apply harmless_self |].
  intros Hp. split_and!; [done | by destruct i | right]. specialize (Hmax Hp). by rewrite (compat_types _ _ _ rest Hc') in Hmax.
Qed.

(** A result of the value [t] and the emission of one to three slots, in either order. *)
Lemma push_emit_acted p fr cs rest seg b poly mx bmx z ins t ts i g m :
  compat poly seg ts -> rep g none_open b -> targets i = [] -> reads i z ->
  (forall os, emits os m tt g none_open (push_code false [i] g) none_open) ->
  acted (fr :: cs) rest p poly ins [t] ts i g bmx z ((operand_stack_push t;; m) (St p b (fr :: cs) (seg ++ rest) poly mx bmx z)) /\
  acted (fr :: cs) rest p poly ins [t] ts i g bmx z ((m;; operand_stack_push t) (St p b (fr :: cs) (seg ++ rest) poly mx bmx z)).
Proof.
  intros Hc Hr Ht Hz He. split.
  - destruct (push_St p (fr :: cs) t b (seg ++ rest) poly mx bmx z) as (mx' & bmx' & E' & Hle & Hmax). rewrite (bind_done _ _ _ _ _ E').
    destruct (emit_St p b (fr :: cs) (Operand t false :: seg ++ rest) poly mx' bmx' z _ tt g none_open _ none_open (He _) Hr) as (b' & E2 & R).
    exists [i] b' (Operand t false :: seg) mx' bmx' z; [done | done | by apply compat_push | done | lia | by apply harmless_self |].
    intros Hp. split_and!; [done | done | right]. specialize (Hmax Hp). by rewrite (compat_types _ _ _ rest Hc) in Hmax.
  - destruct (emit_St p b (fr :: cs) (seg ++ rest) poly mx bmx z _ tt g none_open _ none_open (He _) Hr) as (b' & E2 & R). rewrite (bind_done _ _ _ _ _ E2).
    destruct (push_St p (fr :: cs) t b' (seg ++ rest) poly mx bmx z) as (mx' & bmx' & E' & Hle & Hmax).
    exists [i] b' (Operand t false :: seg) mx' bmx' z; [done | done | by apply compat_push | done | lia | by apply harmless_self |].
    intros Hp. split_and!; [done | done | right]. specialize (Hmax Hp). by rewrite (compat_types _ _ _ rest Hc) in Hmax.
Qed.

(** The emission alone. *)
Lemma emit_acted p fr cs rest seg b poly mx bmx z ins outs ts i g m :
  compat poly seg (outs ++ ts) -> rep g none_open b -> targets i = [] -> reads i z ->
  (outs = [] \/ outs = ins) ->
  (forall os, emits os m tt g none_open (push_code false [i] g) none_open) ->
  acted (fr :: cs) rest p poly ins outs ts i g bmx z (m (St p b (fr :: cs) (seg ++ rest) poly mx bmx z)).
Proof.
  intros Hc Hr Ht Hz Hio He. destruct (emit_St p b (fr :: cs) (seg ++ rest) poly mx bmx z _ tt g none_open _ none_open (He _) Hr) as (b' & E2 & R).
  exists [i] b' seg mx bmx z; [done | done | done | lia | lia | by apply harmless_self |].
  intros Hp. split_and!; [done | done | left]. destruct Hio as [-> | ->]; [apply size_bytes_nonneg | lia].
Qed.

Lemma emits_push1 f i g os : targets i = [] -> emit0 i = [Opfunc f] -> emits os (emit_opfunc_to false f) tt g none_open (push_code false [i] g) none_open.
Proof. by apply emits_op. Qed.
Lemma emits_push2 f v i g os :
  targets i = [] -> emit0 i = [Opfunc f; v] -> emits os (emit_opfunc_to false f;; emit_imm_to false v) tt g none_open (push_code false [i] g) none_open.
Proof. by apply emits_op_imm. Qed.
Lemma emits_push3 f v w i g os :
  targets i = [] -> emit0 i = [Opfunc f; v; w] ->
  emits os (emit_opfunc_to false f;; emit_imm_to false v;; emit_imm_to false w) tt g none_open (push_code false [i] g) none_open.
Proof. by apply emits_op_imm2. Qed.

(** Running the first operations of a case. *)
#[local] Ltac underflows Hb Hc := erewrite bind_done; [| eapply underflow_St; [exact Hb | exact Hc | simpl; lia]].
#[local] Ltac pop Hb Hc := rewrite (bind_done _ _ _ _ _ (try_pop_St _ _ _ _ Hb _ _ _ _ _ _)), (compat_head _ _ _ _ Hc);
  apply compat_tail in Hc; rewrite require_true.

Lemma acts_load mem lim offset t f i :
  memory env = Some (mem, lim) -> targets i = [] -> emit0 i = [Opfunc f; Imm (Z.of_nat mem); Imm offset] ->
  acts (load_at env t f offset) [i32] [t] i.
Proof.
  intros Hm Ht Hi p fr cs rest b seg poly mx bmx z ts g Hb Hc Hr. unfold load_at, ensure_memory_resolved. rewrite Hm.
  underflows Hb Hc. pop Hb Hc. apply push_emit_acted; [done | done | done | by destruct i |]. intros os. exact (emits_push3 _ _ _ i g os Ht Hi).
Qed.

Lemma acts_store mem lim offset t f i :
  memory env = Some (mem, lim) -> targets i = [] -> emit0 i = [Opfunc f; Imm (Z.of_nat mem); Imm offset] ->
  acts (store_at env t f offset) [t; i32] [] i.
Proof.
  intros Hm Ht Hi p fr cs rest b seg poly mx bmx z ts g Hb Hc Hr. unfold store_at, ensure_memory_resolved. rewrite Hm.
  underflows Hb Hc. pop Hb Hc. pop Hb Hc. rewrite bind_ret. apply emit_acted; [done | done | done | by destruct i | by left |]. intros os. by apply emits_push3.
Qed.

Lemma acts_memory_size mem lim : memory env = Some (mem, lim) -> acts (memory_size_at env) [] [i32] (MemorySize mem).
Proof.
  intros Hm p fr cs rest b seg poly mx bmx z ts g Hb Hc Hr. unfold memory_size_at, ensure_memory_resolved. rewrite Hm, bind_ret.
  pose proof (push_emit_acted p fr cs rest seg b poly mx bmx z [] i32 ts (MemorySize mem) g
    (emit_opfunc_to false uwvmint_memory_size;; emit_imm_to false (Imm (Z.of_nat mem))) Hc Hr eq_refl I ltac:(intros; by apply emits_push2)) as [_ H].
  by rewrite sm_bind_assoc in H.
Qed.

Lemma acts_memory_grow mem lim : memory env = Some (mem, lim) -> acts (memory_grow_at env) [i32] [i32] (MemoryGrow mem lim).
Proof.
  intros Hm p fr cs rest b seg poly mx bmx z ts g Hb Hc Hr. unfold memory_grow_at, ensure_memory_resolved. rewrite Hm.
  underflows Hb Hc. pop Hb Hc. rewrite bind_ret.
  pose proof (push_emit_acted p fr cs rest (tail seg) b poly mx bmx z [i32] i32 ts (MemoryGrow mem lim) g
    (emit_opfunc_to false uwvmint_memory_grow;; emit_imm_to false (Imm (Z.of_nat mem));; emit_imm_to false (Imm lim)) Hc Hr eq_refl I
    ltac:(intros; by apply emits_push3)) as [_ H].
  by rewrite sm_bind_assoc in H.
Qed.

(** Variables *)

Lemma local_offset_at ts i t n : ts !! i = Some t -> local_offsets n ts !! i = Some (n + size_bytes (take i ts)).
Proof.
  revert n i. induction ts as [| t' ts IH]; intros n [| i] Hi; try done; simpl in *; [f_equal; lia |].
  rewrite (IH _ i Hi). f_equal. unfold size_bytes. simpl. lia.
Qed.

Lemma local_of_run {B} x t (k : value_type * Z -> M B) s : lt !! x = Some t -> (local_of env x ≫= k) s = k (t, offset_of lt x) s.
Proof. intros Hx. unfold local_of, offset_of. by rewrite Hx, (local_offset_at _ _ _ _ Hx). Qed.

Lemma type_at ts x t : ts !! x = Some t -> type_of ts x = t.
Proof. intros Hx. unfold type_of. by rewrite Hx. Qed.

Lemma acts_local_get x t : lt !! x = Some t -> acts (local_get_at env x) [] [t] (LocalGet x).
Proof.
  intros Hx p fr cs rest b seg poly mx bmx z ts g Hb Hc Hr. unfold local_get_at. rewrite (local_of_run _ _ _ _ Hx).
  destruct (push_St p (fr :: cs) t b (seg ++ rest) poly mx bmx z) as (mx' & bmx' & E & Hle & Hmax). rewrite (bind_done _ _ _ _ _ E).
  rewrite bind_modify. cbv zeta. cbn [local_bytes_zeroinit_end St]. set (e := offset_of lt x + valtype_size t).
  assert ((if z <? e then set_zeroinit_end e (St p b (fr :: cs) (Operand t false :: seg ++ rest) poly mx' bmx' z)
           else St p b (fr :: cs) (Operand t false :: seg ++ rest) poly mx' bmx' z) =
          St p b (fr :: cs) (Operand t false :: seg ++ rest) poly mx' bmx' (Z.max z e)) as ->.
  { destruct (Z.ltb_spec z e); unfold set_zeroinit_end, St; cbn; f_equal; lia. }
  destruct (emit_St p b (fr :: cs) (Operand t false :: seg ++ rest) poly mx' bmx' (Z.max z e)
    (emit_local_get_typed_to false t (offset_of lt x)) tt g none_open (push_code false [LocalGet x] g) none_open) as (b' & E' & R).
  { apply emits_push2; [done |]. cbn. by rewrite (type_at _ _ _ Hx). }
  { done. }
  exists [LocalGet x] b' (Operand t false :: seg) mx' bmx' (Z.max z e); [done | done | by apply compat_push | done | lia | by apply harmless_self |].
  intros Hp. split_and!; [done | | right].
  - intros t' Hx'. rewrite Hx in Hx'. injection Hx' as <-. lia.
  - specialize (Hmax Hp). by rewrite (compat_types _ _ _ rest Hc) in Hmax.
Qed.

Lemma acts_local_set x t : lt !! x = Some t -> acts (local_set_at env x) [t] [] (LocalSet x).
Proof.
  intros Hx p fr cs rest b seg poly mx bmx z ts g Hb Hc Hr. unfold local_set_at. rewrite (local_of_run _ _ _ _ Hx).
  underflows Hb Hc. rewrite (bind_done _ _ _ _ _ (try_peek_St _ _ _ _ Hb _ _ _ _ _ _)), (compat_head _ _ _ _ Hc), require_true.
  assert ((match head seg with Some _ => operand_stack_pop_unchecked | None => mret tt end)
    (St p b (fr :: cs) (seg ++ rest) poly mx bmx z) = Done (tt, St p b (fr :: cs) (tail seg ++ rest) poly mx bmx z)) as E.
  { destruct seg; [done |]. apply (pop_unchecked_St p (fr :: cs)). }
  rewrite (bind_done _ _ _ _ _ E). apply emit_acted; [by eapply compat_tail | done | done | done | by left |]. intros os. apply emits_push2; [done |].
  cbn. by rewrite (type_at _ _ _ Hx).
Qed.

Lemma acts_local_tee x t : lt !! x = Some t -> acts (local_tee_at env x) [t] [t] (LocalTee x).
Proof.
  intros Hx p fr cs rest b seg poly mx bmx z ts g Hb Hc Hr. unfold local_tee_at. rewrite (local_of_run _ _ _ _ Hx).
  rewrite (bind_done _ _ _ _ _ (try_peek_St _ _ _ _ Hb _ _ _ _ _ _)).
  assert (forall seg mx bmx, compat poly seg (t :: ts) -> acted (fr :: cs) rest p poly [t] [t] ts (LocalTee x) g bmx z
    (emit_local_tee_typed_to false t (offset_of lt x) (St p b (fr :: cs) (seg ++ rest) poly mx bmx z))) as Hemit.
  { intros. apply emit_acted; [done | done | done | done | by right |]. intros os. apply emits_push2; [done |]. cbn. by rewrite (type_at _ _ _ Hx). }
  pose proof (compat_head _ _ _ _ Hc) as Hh. destruct seg as [| o seg]; cbn [head app] in *.
  - destruct Hc as [| ->]; [done |]. destruct (push_St p (fr :: cs) t b rest true mx bmx z) as (mx' & bmx' & E & Hle & _).
    rewrite sm_bind_assoc, bind_get. cbn [is_polymorphic St]. rewrite sm_bind_assoc, require_true, (bind_done _ _ _ _ _ E), bind_get.
    eapply acted_weaken; [exact Hle |]. apply (Hemit [_]). split; [by left | by right].
  - rewrite Hh, require_true, bind_get. cbn [operand_stack St head]. rewrite bind_some.
    destruct Hc as [[-> | [-> Hu]] Hc]; [apply (Hemit (_ :: seg)); by split; [left |] |].
    rewrite Hu, sm_bind_assoc, (bind_done _ _ _ _ _ (pop_unchecked_St _ _ _ _ _ _ _ _ _)).
    destruct (push_St p (fr :: cs) t b (seg ++ rest) true mx bmx z) as (mx' & bmx' & E & Hle & _). rewrite (bind_done _ _ _ _ _ E).
    eapply acted_weaken; [exact Hle |]. apply (Hemit (_ :: seg)). by split; [left |].
Qed.

Lemma acts_global_get x a t mut : globals env !! x = Some (t, mut, a) -> gt !! a = Some t -> acts (global_get_at env x) [] [t] (GlobalGet a).
Proof.
  intros Hx Ha p fr cs rest b seg poly mx bmx z ts g Hb Hc Hr. unfold global_get_at, global_of. rewrite Hx, bind_ret.
  apply push_emit_acted; [done.. |]. intros os. apply emits_push2; [done |]. cbn. by rewrite (type_at _ _ _ Ha).
Qed.

Lemma acts_global_set x a t : globals env !! x = Some (t, true, a) -> gt !! a = Some t -> acts (global_set_at env x) [t] [] (GlobalSet a).
Proof.
  intros Hx Ha p fr cs rest b seg poly mx bmx z ts g Hb Hc Hr. unfold global_set_at, global_of. rewrite Hx, bind_ret, require_true.
  underflows Hb Hc. pop Hb Hc. apply emit_acted; [done | done | done | done | by left |]. intros os. apply emits_push2; [done |].
  cbn. by rewrite (type_at _ _ _ Ha).
Qed.

(** Nothing is emitted in unreachable code. *)
Lemma none_acted fr cs rest p b seg mx bmx bmx' z ins outs ts i g :
  compat true seg (outs ++ ts) -> rep g none_open b -> bmx <= bmx' ->
  acted (fr :: cs) rest p true ins outs ts i g bmx z (Done (tt, St p b (fr :: cs) (seg ++ rest) true mx bmx' z)).
Proof. intros Hc Hr Hle. exists [] b seg mx bmx' z; [done | by rewrite push_code_nil | done | done | lia | constructor | done]. Qed.

Lemma acts_drop t : acts case_drop [t] [] (FlatWasm.Drop [t]).
Proof.
  intros p fr cs rest b seg poly mx bmx z ts g Hb Hc Hr. unfold case_drop. rewrite bind_get, (count_St p fr cs rest Hb).
  destruct seg as [| o seg]; cbn [length Nat.eqb app operand_stack St head].
  - destruct Hc as [| ->]; [done |]. apply (none_acted _ _ _ _ _ []); [by right | done | lia].
  - rewrite bind_some, (bind_done _ _ _ _ _ (pop_unchecked_St _ _ _ _ _ _ _ _ _)). destruct Hc as [Ho Hc].
    destruct (emit_St p b (fr :: cs) (seg ++ rest) poly mx bmx z (emit_drop_typed_to false (otype o)) tt g none_open _ none_open (emits_push1 _ (FlatWasm.Drop [otype o]) g _ eq_refl eq_refl) Hr)
      as (b' & E & R).
    exists [FlatWasm.Drop [otype o]] b' seg mx bmx z; [done | done | done | lia | lia | by repeat constructor |].
    intros ->. destruct Ho as [-> | [? _]]; [| done]. split_and!; [done.. | left]. apply size_bytes_nonneg.
Qed.

Lemma push_unknown_St p b fr cs os mx bmx z : exists mx' bmx',
  push_unknown_operand (St p b (fr :: cs) os true mx bmx z) = Done (tt, St p b (fr :: cs) (Operand i32 true :: os) true mx' bmx' z) /\ bmx <= bmx'.
Proof.
  destruct (push_St p (fr :: cs) i32 b os true mx bmx z) as (mx' & bmx' & E & Hle & _). exists mx', bmx'. split; [| done].
  unfold push_unknown_operand. by rewrite (bind_done _ _ _ _ _ E).
Qed.

Lemma acts_select t : acts case_select [i32; t; t] [t] (Select t).
Proof.
  intros p fr cs rest b seg poly mx bmx z ts g Hb Hc Hr. unfold case_select. underflows Hb Hc. pop Hb Hc. fold (app (A := value_type)) in Hc.
  set (seg1 := tail seg) in *. clearbody seg1. clear seg.
  rewrite (bind_done _ _ _ _ _ (try_pop_St _ _ _ _ Hb _ _ _ _ _ _)), (bind_done _ _ _ _ _ (try_peek_St _ _ _ _ Hb _ _ _ _ _ _)).
  destruct seg1 as [| o2 [| o1 seg]]; cbn [head tail app] in *.
  - destruct Hc as [| ->]; [done |]. cbn [known]. rewrite require_true, bind_ret, bind_get. cbn [is_polymorphic St].
    destruct (push_unknown_St p b fr cs rest mx bmx z) as (mx' & bmx' & -> & Hle). apply (none_acted _ _ _ _ _ [_]); [| done | done].
    split; [by right | by right].
  - destruct Hc as [Ho [| ->]]; [done |]. cbn [known]. rewrite require_true, bind_ret. destruct (is_unknown o2) eqn:Hu.
    + destruct (push_unknown_St p b fr cs rest mx bmx z) as (mx' & bmx' & -> & Hle). apply (none_acted _ _ _ _ _ [_]); [| done | done].
      split; [by right | by right].
    + destruct Ho as [-> | [_ ?]]; [| congruence]. cbn [otype]. destruct (push_St p (fr :: cs) t b rest true mx bmx z) as (mx' & bmx' & -> & Hle & _).
      apply (none_acted _ _ _ _ _ [_]); [| done | done]. split; [by left | by right].
  - destruct Hc as [Ho2 [Ho1 Hc]]. cbn [known]. destruct (is_unknown o1) eqn:Hu1.
    + destruct Ho1 as [-> | [-> _]]; [done |]. rewrite require_true, bind_ret. destruct (is_unknown o2) eqn:Hu2.
      * apply (none_acted _ _ _ _ _ (o1 :: seg)); [| done | lia]. split; [by right | done].
      * destruct Ho2 as [-> | [_ ?]]; [| congruence]. rewrite (bind_done _ _ _ _ _ (pop_unchecked_St _ _ _ _ _ _ _ _ _)).
        destruct (push_St p (fr :: cs) t b (seg ++ rest) true mx bmx z) as (mx' & bmx' & E & Hle & _). cbn [otype]. rewrite E.
        apply (none_acted _ _ _ _ _ (_ :: seg)); [| done | done]. split; [by left | done].
    + destruct Ho1 as [-> | [_ ?]]; [| congruence]. cbn [otype is_unknown].
      assert (require cvec.select_type_mismatch (match (if is_unknown o2 then None else Some (otype o2)) with Some t2 => bool_decide (t = t2) | None => true end) = require cvec.select_type_mismatch true) as ->.
      { destruct Ho2 as [-> | [_ ->]]; [| done]. cbn. by rewrite bool_decide_true. }
      rewrite require_true. destruct (emit_St p b (fr :: cs) (Operand t false :: seg ++ rest) poly mx bmx z
        (emit_opfunc_to false (uwvmint_select_typed t)) tt g none_open _ none_open (emits_push1 _ (Select t) g _ eq_refl eq_refl) Hr) as (b' & E & R).
      rewrite (bind_done _ _ _ _ _ E).
      exists [Select t] b' (Operand t false :: seg) mx bmx z; [by destruct (is_unknown o2) | done | by split; [left |] | lia | lia | by apply harmless_self |].
      intros _. split_and!; [done.. | left]. rewrite !size_bytes_cons. unfold valtype_size. change (size_bytes []) with 0. lia.
Qed.

Lemma acts_const t z0 imm :
  object_value t z0 = imm -> acts (emit_opfunc_to false (uwvmint_const t);; emit_imm_to false (Imm imm);; operand_stack_push t) [] [t] (Const (t, z0)).
Proof.
  intros Hv p fr cs rest b seg poly mx bmx z ts g Hb Hc Hr.
  pose proof (push_emit_acted p fr cs rest seg b poly mx bmx z [] t ts (Const (t, z0)) g
    (emit_opfunc_to false (uwvmint_const t);; emit_imm_to false (Imm imm)) Hc Hr eq_refl I) as H.
  destruct H as [_ H]; [intros os; apply emits_push2; [done |]; cbn; by rewrite Hv |]. by rewrite sm_bind_assoc in H.
Qed.
End Acts.

(** ** Typed instructions *)

(** What the translator knows of the module, against the typing context and the instance. Only for
    code that may contain [memory.grow], which [grow] tells, the limit of the memory is required to be
    that of 32-bit addresses and page counts: without a declared maximum [max_limit_from_limits]
    gives [SIZE_MAX], and [memory.grow] goes beyond what the specification allows. *)
Record env_fits (env : tenv) (I : instance) (gt : list value_type) (pss : list Z) (grow : bool) (C : context) : Prop := {
  fits_locals : tc_locals C = local_types env;
  fits_globals x g : tc_globals C !! x = Some g -> exists a,
    TranslatorState.globals env !! x = Some (global_value_type g, is_mutable g, a) /\
    global_addrs I !! x = Some a /\ gt !! a = Some (global_value_type g);
  fits_memory : (0 < tc_mems C)%nat ->
    memory env = Some (memory_addr I, memory_max I) /\ (memory_addr I < length pss)%nat;
  fits_limit : grow = true -> (0 < tc_mems C)%nat ->
    0 <= memory_max I <= 2 ^ 32 /\ forall ps, pss !! memory_addr I = Some ps -> memory_max I < 2 ^ 32 * ps;
  fits_return : tc_return C = results env;
  fits_arity : result_arity I = length (results env);
  fits_results : (length (results env) <= 1)%nat;
  fits_temps : (1 <= internal_temp_local_count env)%nat;
  fits_code : Forall is_byte (TranslatorState.code env);
}.

Lemma pops_app from to ts : pops from to (from ++ ts) = Some (to ++ ts).
Proof. unfold pops. by rewrite take_app_length, drop_app_length, decide_True. Qed.

Lemma align_le a k bits : 0 <= k -> bits / 8 = 2 ^ k -> align_ok a bits -> a <= k.
Proof.
  intros Hk E H. unfold align_ok in H. rewrite E in H. destruct (Z.le_gt_cases a k) as [| Hgt]; [done |]. exfalso.
  pose proof (Z.pow_lt_mono_r 2 k a). lia.
Qed.

(** ** Numeric instructions *)

(** The instruction of a numeric opcode, and its case. *)
Definition numeric_fits (gt lt rt : list value_type) (nm : nat) (op : Z) (ins : list value_type) (t : value_type) (i : instr) : Prop :=
  exists f, (forall env, switch_opbase env op = (numeric_case ins t f;; mret None)) /\
    targets i = [] /\ emit lt gt (fun _ => 0%nat) i = [Opfunc f] /\ (forall pss, instr_ok pss i) /\
    (forall k ts, succs lt gt rt nm k i (rev ins ++ ts) = Some [(S k, t :: ts)]).

Lemma numeric_fits_op gt lt rt nm op ins t i :
  numeric_type op = Some (ins, t) -> numeric_op op = Some i -> numeric_fits gt lt rt nm op ins t i.
Proof.
  intros Ht Hi. assert (69 <= op <= 191) as Hr by (apply numeric_type_range; eauto).
  assert (In op (seqZ 69 123)) as Hin by (apply list_elem_of_In, elem_of_seqZ; lia). clear Hr.
  cbv in Hin. repeat (destruct Hin as [<- | Hin]; [vm_compute in Ht, Hi; try discriminate Hi;
    injection Ht as <- <-; injection Hi as <-; eexists; (split; [reflexivity |]);
    (split; [reflexivity |]); (split; [reflexivity |]); (split; [done |]); intros; reflexivity |]).
  done.
Qed.

(** ** Accesses to memory *)

Section Accesses.
Context (env : tenv) (gt lt rt : list value_type) (nm : nat) (mem : nat) (offset : Z).
Context (Hmem : (mem < nm)%nat) (Hoff : 0 <= offset < 2 ^ 32).

Lemma load_fits op t bits :
  load_type op = Some (t, bits) -> exists i f k, load_op mem offset op = Some i /\
    switch_opbase env op = (load_case env k t f;; mret None) /\ 0 <= k <= 3 /\ bits / 8 = 2 ^ k /\
    targets i = [] /\ emit lt gt (fun _ => 0%nat) i = [Opfunc f; Imm (Z.of_nat mem); Imm offset] /\ (forall pss, instr_ok pss i) /\
    (forall p ts, succs lt gt rt nm p i (i32 :: ts) = Some [(S p, t :: ts)]).
Proof using Hmem Hoff.
  intros Ht. assert (40 <= op <= 53) as Hr by (apply load_type_range; eauto).
  assert (In op (seqZ 40 14)) as Hin by (apply list_elem_of_In, elem_of_seqZ; lia). clear Hr.
  assert (forall X (o : option X), has_memory nm mem o = o) as Hhas by (intros; unfold has_memory; by rewrite (proj2 (Nat.ltb_lt _ _))).
  cbv in Hin. repeat (destruct Hin as [<- | Hin]; [vm_compute in Ht; injection Ht as <- <-; do 3 eexists;
    (split; [cbv; reflexivity |]); (split; [reflexivity |]); (split; [| split; [reflexivity |]]; [lia |]);
    (split; [reflexivity |]); (split; [reflexivity |]); (split; [intros; cbn; lia |]); intros; cbn [succs]; rewrite Hhas; reflexivity |]).
  done.
Qed.

Lemma store_fits op t bits :
  store_type op = Some (t, bits) -> exists i f k, store_op mem offset op = Some i /\
    switch_opbase env op = (store_case env k t f;; mret None) /\ 0 <= k <= 3 /\ bits / 8 = 2 ^ k /\
    targets i = [] /\ emit lt gt (fun _ => 0%nat) i = [Opfunc f; Imm (Z.of_nat mem); Imm offset] /\ (forall pss, instr_ok pss i) /\
    (forall p ts, succs lt gt rt nm p i (t :: i32 :: ts) = Some [(S p, ts)]).
Proof using Hmem Hoff.
  intros Ht. assert (54 <= op <= 62) as Hr by (apply store_type_range; eauto).
  assert (In op (seqZ 54 9)) as Hin by (apply list_elem_of_In, elem_of_seqZ; lia). clear Hr.
  assert (forall X (o : option X), has_memory nm mem o = o) as Hhas by (intros; unfold has_memory; by rewrite (proj2 (Nat.ltb_lt _ _))).
  cbv in Hin. repeat (destruct Hin as [<- | Hin]; [vm_compute in Ht; injection Ht as <- <-; do 3 eexists;
    (split; [cbv; reflexivity |]); (split; [reflexivity |]); (split; [| split; [reflexivity |]]; [lia |]);
    (split; [reflexivity |]); (split; [reflexivity |]); (split; [intros; cbn; lia |]); intros; cbn [succs]; rewrite Hhas; reflexivity |]).
  done.
Qed.
End Accesses.

(** ** The other instructions *)

(** Jumps, constants and [nop]. *)
Definition is_special (e : WasmSpec.instr) : bool :=
  match e with
  | IUnreachable | INop | IBr _ | IBrIf _ | IBrTable _ _ | IReturn => true
  | _ => is_const e
  end.

Section Plain.
Context (env : tenv) (I : instance) (gt : list value_type) (pss : list Z) (C : context).
Context (grow : bool) (Hfits : env_fits env I gt pss grow C).
#[local] Notation lt := (local_types env).
#[local] Notation rt := (rev (results env)).
#[local] Notation nm := (length pss).

(** The instruction for [e] that the specification executes. *)
Definition performs (e : WasmSpec.instr) (ins outs : list value_type) (i : instr) : Prop :=
  (forall ts, operation I e (ins ++ ts) = Some i) /\
  (forall k ts, succs lt gt rt nm k i (ins ++ ts) = Some [(S k, outs ++ ts)]) /\ instr_ok pss i.

Lemma memory_in_range : (0 < tc_mems C)%nat -> (memory_addr I < nm)%nat.
Proof using Hfits. intros H. apply (fits_memory _ _ _ _ _ _ Hfits H). Qed.

Lemma plain_acts e bs ins outs :
  plain_bytes e bs -> plain_typing C e ins outs -> plain_covered grow e = true -> is_special e = false ->
  exists m i, opens env e m /\ acts env gt pss m ins outs i /\ performs e ins outs i.
Proof using Hfits.
  intros Hbs Hty Hcov Hsp. unfold performs. pose proof (fits_code _ _ _ _ _ _ Hfits) as Hcode.
  destruct Hty; try done.
  - exists case_drop, (FlatWasm.Drop [t]).
    split_and!; [by apply (opens_none env Hcode _ 26); [bytes_of |] | apply acts_drop | done | | done]. intros k ts. cbn [succs]. by rewrite pops_app.
  - exists case_select, (Select t).
    split_and!; [by apply (opens_none env Hcode _ 27); [bytes_of |] | apply acts_select | done | | done]. intros k ts. cbn [succs]. by rewrite pops_app.
  - rewrite (fits_locals _ _ _ _ _ _ Hfits) in H. exists (local_get_at env x), (LocalGet x).
    split_and!; [by eapply (opens_index env Hcode _ _ 32); [bytes_of |] | by apply acts_local_get | done | | done]. intros k ts. cbn [succs]. by rewrite H.
  - rewrite (fits_locals _ _ _ _ _ _ Hfits) in H. exists (local_set_at env x), (LocalSet x).
    split_and!; [by eapply (opens_index env Hcode _ _ 33); [bytes_of |] | by apply acts_local_set | done | | done].
    intros k ts. cbn [succs]. rewrite H. cbn [mbind option_bind]. by rewrite pops_app.
  - rewrite (fits_locals _ _ _ _ _ _ Hfits) in H. exists (local_tee_at env x), (LocalTee x).
    split_and!; [by eapply (opens_index env Hcode _ _ 34); [bytes_of |] | by apply acts_local_tee | done | | done].
    intros k ts. cbn [succs]. rewrite H. cbn [mbind option_bind]. by rewrite pops_app.
  - destruct (fits_globals _ _ _ _ _ _ Hfits _ _ H) as (a & Hg & Ha & Hgt). exists (global_get_at env x), (GlobalGet a).
    split_and!; [by eapply (opens_index env Hcode _ _ 35); [bytes_of |] | by eapply acts_global_get | intros; simpl; by rewrite Ha | | done].
    intros k ts. cbn [succs]. by rewrite Hgt.
  - destruct (fits_globals _ _ _ _ _ _ Hfits _ _ H) as (a & Hg & Ha & Hgt). rewrite H0 in Hg. exists (global_set_at env x), (GlobalSet a).
    split_and!; [by eapply (opens_index env Hcode _ _ 36); [bytes_of |] | by eapply acts_global_set | intros; simpl; by rewrite Ha | | done].
    intros k ts. cbn [succs]. rewrite Hgt. cbn [mbind option_bind]. by rewrite pops_app.
  - pose proof (memory_in_range H0) as Hm. destruct (fits_memory _ _ _ _ _ _ Hfits H0) as (Hmem & _).
    assert (0 <= offset < 2 ^ 32) as Hoff by (inversion Hbs; subst; eapply uN_bounds; [eassumption | lia]).
    destruct (load_fits env gt lt rt nm (memory_addr I) offset Hm Hoff op t bits H) as (i & f & k & E2 & E3 & E5 & E6 & E7 & E8 & E9 & E10).
    exists (load_at env t f offset), i. split_and!; [| by eapply acts_load | done | done | done].
    eapply (opens_memarg env Hcode _ op k); [exact Hmem | done | eapply align_le; [lia | done | done] | inversion 1; subst; by do 2 eexists | exact E3].
  - pose proof (memory_in_range H0) as Hm. destruct (fits_memory _ _ _ _ _ _ Hfits H0) as (Hmem & _).
    assert (0 <= offset < 2 ^ 32) as Hoff by (inversion Hbs; subst; eapply uN_bounds; [eassumption | lia]).
    destruct (store_fits env gt lt rt nm (memory_addr I) offset Hm Hoff op t bits H) as (i & f & k & E2 & E3 & E5 & E6 & E7 & E8 & E9 & E10).
    exists (store_at env t f offset), i. split_and!; [| by eapply acts_store | done | done | done].
    eapply (opens_memarg env Hcode _ op k); [exact Hmem | done | eapply align_le; [lia | done | done] | inversion 1; subst; by do 2 eexists | exact E3].
  - pose proof (memory_in_range H) as Hm. destruct (fits_memory _ _ _ _ _ _ Hfits H) as (Hmem & _).
    exists (memory_size_at env), (MemorySize (memory_addr I)).
    split_and!; [by eapply (opens_memory env Hcode _ 63); [exact Hmem | bytes_of |] | by eapply acts_memory_size | done | | done].
    intros k ts. cbn [succs]. unfold has_memory. by rewrite (proj2 (Nat.ltb_lt _ _)).
  - pose proof (memory_in_range H) as Hm. destruct (fits_memory _ _ _ _ _ _ Hfits H) as (Hmem & _). destruct (fits_limit _ _ _ _ _ _ Hfits Hcov H) as [Hmax Hlim].
    exists (memory_grow_at env), (MemoryGrow (memory_addr I) (memory_max I)).
    split_and!; [by eapply (opens_memory env Hcode _ 64); [exact Hmem | bytes_of |] | by eapply acts_memory_grow | done | |].
    + intros k ts. cbn [succs]. unfold has_memory. rewrite (proj2 (Nat.ltb_lt _ _)) by done. by rewrite pops_app.
    + by split.
  - cbn [plain_covered] in Hcov. apply bool_decide_eq_true in Hcov as [i Hi].
    destruct (numeric_fits_op gt lt rt nm op ins out i H Hi) as (f & H1 & H3 & H4 & H5 & H6).
    exists (numeric_case ins out f), i. split_and!; [by eapply opens_none; [| bytes_of |] | by apply acts_numeric | done | done | done].
Qed.

(** ** Constants *)

Lemma const_acts e bs : plain_bytes e bs -> is_const e = true -> Forall is_byte bs ->
  exists op t imm elig v,
    opens env e (const_case env op t elig imm) /\ object_value t v = imm /\
    head bs = Some op /\ 65 <= op <= 68 /\ performs e [] [t] (Const (t, v)) /\ (forall ins outs, plain_typing C e ins outs -> ins = [] /\ outs = [t]).
Proof using Hfits.
  pose proof (fits_code _ _ _ _ _ _ Hfits) as Hcode.
  intros Hbs He Hbytes. unfold performs. destruct Hbs; try done.
  - exists 65, i32, v, true, (v mod 2 ^ 32). apply sN_bounds in H; [| lia].
    split_and!; [by eapply (opens_leb env Hcode 32 _ 65 _ (const_case env 65 i32 true)); [unfold leb_width; tauto | bytes_of |] | | done | lia | lia | done | done | | by inversion 1].
    + change (to_signed 32 (v mod 2 ^ 32) = v). unfold to_signed. case_match; lia.
    + unfold instr_ok, val_ok. cbn. lia.
  - exists 66, i64, v, true, (v mod 2 ^ 64). apply sN_bounds in H; [| lia].
    split_and!; [by eapply (opens_leb env Hcode 64 _ 66 _ (const_case env 66 i64 true)); [unfold leb_width; tauto | bytes_of |] | | done | lia | lia | done | done | | by inversion 1].
    + change (to_signed 64 (v mod 2 ^ 64) = v). unfold to_signed. case_match; lia.
    + unfold instr_ok, val_ok. cbn. lia.
  - inversion Hbytes; subst. exists 67, f32, (of_le bits), (negb (2139095040 <? Z.land (of_le bits) 2147483647)), (of_le bits).
    split_and!; [by eapply (opens_raw env Hcode 4 _ 67 _ (fun v => const_case env 67 f32 (negb (2139095040 <? Z.land v 2147483647)) v)); [done | bytes_of |] | done | done | lia | lia | | done | | by inversion 1].
    + done.
    + pose proof (of_le_bounds bits ltac:(done)) as Hv. unfold zlen in Hv. rewrite H in Hv. exact Hv.
  - inversion Hbytes; subst. exists 68, f64, (of_le bits), (negb (9218868437227405312 <? Z.land (of_le bits) 9223372036854775807)), (of_le bits).
    split_and!; [by eapply (opens_raw env Hcode 8 _ 68 _ (fun v => const_case env 68 f64 (negb (9218868437227405312 <? Z.land v 9223372036854775807)) v)); [done | bytes_of |] | done | done | lia | lia | | done | | by inversion 1].
    + done.
    + pose proof (of_le_bounds bits ltac:(done)) as Hv. unfold zlen in Hv. rewrite H in Hv. exact Hv.
Qed.
End Plain.
