(* ===== verification/TranslatorCorrect.v ===== *)
(** * The translator lays out typed code

    By induction on the code: from a state whose operands have the types of a typed sequence of
    instructions, the loop of the translator reaches the end of the sequence, without an error,
    and what it emitted is, in every program that the rest of the translation can make of it,
    the code of the sequence in the sense of [FlatLayout]. *)

From stdpp Require Import base list numbers.
From Stdlib Require Import ZArith Lia.
From S2P Require Import Prelude Leb128 IeeeBits NumericOps WasmTypes Interpreter WasmSpec Fetch MachineTyping FlatWasm FlatTyping WasmExec FlatLayout InterpreterRep.
From S2P Require Import TranslatorState Translator TranslatorRep TranslatorPlain.
Open Scope Z_scope.

(** ** Positions of code *)

Section Coded.
Context (code : list Z).

(** The instructions [es] are the tokens from [p] to [q]. *)
Inductive coded : nat -> list WasmSpec.instr -> nat -> Prop :=
| coded_nil p : coded p [] p
| coded_plain p e p1 es q : Fetch.fetch code p = Some (TPlain e, p1) -> coded p1 es q -> coded p (e :: es) q
| coded_block p r p1 body p2 p3 es q :
    Fetch.fetch code p = Some (TBlock r, p1) -> coded p1 body p2 -> Fetch.fetch code p2 = Some (TEnd, p3) -> coded p3 es q ->
    coded p (IBlock r body :: es) q
| coded_loop p r p1 body p2 p3 es q :
    Fetch.fetch code p = Some (TLoop r, p1) -> coded p1 body p2 -> Fetch.fetch code p2 = Some (TEnd, p3) -> coded p3 es q ->
    coded p (ILoop r body :: es) q
| coded_if p r p1 body p2 p3 es q :
    Fetch.fetch code p = Some (TIf r, p1) -> coded p1 body p2 -> Fetch.fetch code p2 = Some (TEnd, p3) -> coded p3 es q ->
    coded p (IIf r body [] :: es) q
| coded_if_else p r p1 body1 p2 p3 body2 p4 p5 es q :
    Fetch.fetch code p = Some (TIf r, p1) -> coded p1 body1 p2 -> Fetch.fetch code p2 = Some (TElse, p3) ->
    coded p3 body2 p4 -> Fetch.fetch code p4 = Some (TEnd, p5) -> coded p5 es q ->
    coded p (IIf r body1 body2 :: es) q.

Context (Hcode : Forall is_byte code).

Lemma fetch_token tok bs p : token_bytes tok bs -> sub code p bs -> Fetch.fetch code p = Some (tok, (p + length bs)%nat).
Proof using Hcode. intros H1 H2. apply fetch_iff; [done |]. by exists bs. Qed.

Lemma coded_sub :
  (forall e bs, instr_bytes e bs -> forall p es q, sub code p bs -> coded (p + length bs) es q -> coded p (e :: es) q) /\
  (forall es bs, instrs_bytes es bs -> forall p, sub code p bs -> coded p es (p + length bs)).
Proof using Hcode.
  assert (forall p b bs, sub code p (b :: bs ++ [11]) -> sub code (p + 1) bs /\ Fetch.fetch code (p + 1 + length bs) = Some (TEnd, (p + 1 + length bs + 1)%nat)) as Hend.
  { intros p b bs Hs. change (b :: bs ++ [11]) with ([b] ++ bs ++ [11]) in Hs. apply sub_app in Hs as [_ Hs]. apply sub_app in Hs as [Hs1 Hs2].
    split; [done |]. by apply (fetch_token TEnd [11]); [constructor |]. }
  assert (forall p t b0 b bs, token_bytes t [b0; b] -> sub code p (b0 :: b :: bs ++ [11]) ->
    Fetch.fetch code p = Some (t, (p + 2)%nat) /\ sub code (p + 2) bs /\
    Fetch.fetch code (p + 2 + length bs) = Some (TEnd, (p + length (b0 :: b :: bs ++ [11%Z]))%nat)) as Hblock.
  { intros p t b0 b bs Ht Hs. change (b0 :: b :: bs ++ [11]) with ([b0; b] ++ bs ++ [11]) in Hs.
    apply sub_app in Hs as [Hs1 Hs]. apply sub_app in Hs as [Hs2 Hs3]. split_and!; [by apply (fetch_token t [b0; b]) | done |].
    rewrite (fetch_token TEnd [11]); [| constructor | done]. do 2 f_equal. simpl. rewrite length_app. simpl. lia. }
  apply instr_instrs_bytes_ind.
  - intros e bs He p es q Hs Hc. eapply coded_plain; [| done]. apply fetch_token; [by constructor | done].
  - intros b rt es bs Hb _ IH p es' q Hs Hc. destruct (Hblock p (TBlock rt) 2 b bs ltac:(by constructor) Hs) as (H1 & H2 & H3).
    eapply coded_block; [exact H1 | by apply IH | exact H3 | done].
  - intros b rt es bs Hb _ IH p es' q Hs Hc. destruct (Hblock p (TLoop rt) 3 b bs ltac:(by constructor) Hs) as (H1 & H2 & H3).
    eapply coded_loop; [exact H1 | by apply IH | exact H3 | done].
  - intros b rt es bs Hb _ IH p es' q Hs Hc. destruct (Hblock p (TIf rt) 4 b bs ltac:(by constructor) Hs) as (H1 & H2 & H3).
    eapply coded_if; [exact H1 | by apply IH | exact H3 | done].
  - intros b rt es1 es2 bs1 bs2 Hb _ IH1 _ IH2 p es' q Hs Hc.
    change (4 :: b :: bs1 ++ 5 :: bs2 ++ [11]) with ([4; b] ++ bs1 ++ 5 :: bs2 ++ [11]) in Hs.
    apply sub_app in Hs as [Hs1 Hs]. apply sub_app in Hs as [Hs2 Hs].
    destruct (Hend _ _ _ Hs) as [H1 H2]. change (5 :: bs2 ++ [11]) with ([5] ++ bs2 ++ [11]) in Hs. apply sub_app in Hs as [Hs3 _].
    eapply coded_if_else; [by apply (fetch_token (TIf rt) [4; b]); [constructor |] | by apply IH1 | by apply (fetch_token TElse [5]); [constructor |] | by apply IH2 | exact H2 |].
    replace (p + length [4%Z; b] + length bs1 + 1 + length bs2 + 1)%nat with (p + length (4%Z :: b :: bs1 ++ 5%Z :: bs2 ++ [11%Z]))%nat; [done |].
    simpl. rewrite length_app. simpl. rewrite length_app. simpl. lia.
  - intros p _. rewrite Nat.add_0_r. constructor.
  - intros e es bs1 bs2 _ IH1 _ IH2 p Hs. apply sub_app in Hs as [Hs1 Hs2]. rewrite length_app, Nat.add_assoc. eapply IH1; [done |]. by apply IH2.
Qed.

(** The instructions up to a token that closes them are unique. *)
Inductive closed_at (q : nat) : Prop :=
| closed_by_end r : Fetch.fetch code q = Some (TEnd, r) -> closed_at q
| closed_by_else r : Fetch.fetch code q = Some (TElse, r) -> closed_at q.

#[local] Ltac one_token :=
  try match goal with H : closed_at ?p, _ : Fetch.fetch code ?p = Some (_, _) |- _ => destruct H as [? H | ? H] end;
  repeat match goal with
  | H1 : Fetch.fetch code ?p = Some ?x, H2 : Fetch.fetch code ?p = Some ?y |- _ =>
      assert_fails (constr_eq x y); rewrite H1 in H2; first [discriminate H2 | injection H2; intros; subst; clear H2]
  end.

#[local] Ltac closed :=
  match goal with
  | H : coded ?p ?es ?q |- coded ?p ?es ?q => exact H
  | H : closed_at ?p |- closed_at ?p => exact H
  | H : Fetch.fetch code ?p = Some (TEnd, _) |- closed_at ?p => exact (closed_by_end _ _ H)
  | H : Fetch.fetch code ?p = Some (TElse, _) |- closed_at ?p => exact (closed_by_else _ _ H)
  end.

Lemma coded_unique p es q es' q' : coded p es q -> closed_at q -> coded p es' q' -> closed_at q' -> es' = es /\ q' = q.
Proof using.
  intros H. revert es' q'.
  induction H; intros es' q' Hc H' Hc'; inversion H'; subst; one_token;
    repeat match goal with
    | IH : forall es' q', closed_at ?a -> coded ?p es' q' -> closed_at q' -> es' = ?e /\ _, H : coded ?p ?es ?q |- _ =>
        assert_fails (constr_eq es e);
        destruct (IH es q) as [? ?]; [closed.. |]; clear IH; subst; one_token
    end; split; reflexivity.
Qed.

Lemma expr_unique es es' : expr_bytes es code -> expr_bytes es' code -> es' = es.
Proof using Hcode.
  intros (bs & Hbs & E) (bs' & Hbs' & E'). pose proof E as E2. rewrite E' in E2. apply app_inj_tail in E2 as [-> _].
  assert (sub code 0 bs) as Hs by (exists [11]; by rewrite drop_0).
  assert (closed_at (0 + length bs)) as Hc.
  { eapply closed_by_end, (fetch_token TEnd [11]); [constructor |]. exists []. cbn [Nat.add]. by rewrite E, drop_app_length. }
  eapply (proj1 (coded_unique _ _ _ _ _ (proj2 coded_sub _ _ Hbs 0%nat Hs) Hc (proj2 coded_sub _ _ Hbs' 0%nat Hs) Hc)).
Qed.

Lemma fetch_plain p e q : Fetch.fetch code p = Some (TPlain e, q) ->
  exists bs, plain_bytes e bs /\ Forall is_byte bs /\ code !! p = head bs /\ (p < q)%nat.
Proof using Hcode.
  intros H. pose proof (fetch_progress code Hcode _ _ _ H) as Hq. apply fetch_iff in H as (bs & Ht & Hs & ->); [| done]. inversion Ht; subst. exists bs.
  split_and!; [done | | | lia].
  - destruct Hs as [rest Hr]. pose proof (Forall_drop _ p _ Hcode) as Hd. rewrite Hr in Hd. by apply Forall_app in Hd as [? _].
  - destruct bs as [| b bs]; [by inversion H0 |]. by apply sub_cons in Hs as [Hb _].
Qed.
End Coded.

(** ** Constants that are dropped at once *)

Section Elision.
Context (env : tenv) (Hcode : Forall is_byte (TranslatorState.code env)).
#[local] Notation code := (TranslatorState.code env).

(** The byte after a sequence is that of [end] or [else]. *)
Definition stops (q : nat) : Prop := exists tok q', Fetch.fetch code q = Some (tok, q') /\ (tok = TEnd \/ tok = TElse).

Lemma stops_byte q : stops q -> code !! q = Some 11 \/ code !! q = Some 5.
Proof using Hcode.
  intros (tok & q' & Hf & Htok). apply fetch_iff in Hf as (bs & Ht & Hs & _); [| done].
  destruct Htok as [-> | ->]; inversion Ht; subst; apply sub_one in Hs; auto.
Qed.

Definition const_op (op : Z) : Prop := 65 <= op <= 68.

Lemma head_const e bs op : plain_bytes e bs -> head bs = Some op -> const_op op -> is_const e = true.
Proof using.
  unfold const_op. intros Hp Hh Hop. destruct Hp; simpl in Hh; simplify_eq; try done; try lia; exfalso.
  - pose proof (load_type_range _ H). lia.
  - pose proof (store_type_range _ H). lia.
  - pose proof (numeric_type_range _ H). lia.
Qed.

Lemma head_drop e bs : plain_bytes e bs -> head bs = Some 26 -> e = IDrop /\ bs = [26].
Proof using.
  intros Hp Hh. destruct Hp; simpl in Hh; simplify_eq; try done; exfalso.
  - pose proof (load_type_range _ H). lia.
  - pose proof (store_type_range _ H). lia.
  - pose proof (numeric_type_range _ H). lia.
Qed.

Lemma block_byte p tok q : Fetch.fetch code p = Some (tok, q) -> (forall e, tok <> TPlain e) -> exists b, code !! p = Some b /\ b <= 11.
Proof using Hcode.
  intros Hf Htok. apply fetch_iff in Hf as (bs & Ht & Hs & _); [| done]. destruct Ht; try (by edestruct Htok);
    apply sub_cons in Hs as [Hs _]; eexists; (split; [exact Hs | lia]).
Qed.

(** A token of the first instruction that is not a block. *)
Lemma coded_head p es r b : coded code p es r -> code !! p = Some b -> 11 < b -> (r <> p) ->
  exists e bs p1 es', es = e :: es' /\ Fetch.fetch code p = Some (TPlain e, p1) /\ coded code p1 es' r /\ plain_bytes e bs /\ head bs = Some b /\ p1 = (p + length bs)%nat /\ sub code p bs.
Proof using Hcode.
  intros Hc Hb Hlt Hne. destruct Hc; [done | ..];
    try (destruct (block_byte _ _ _ H ltac:(done)) as (b' & Hb' & Hle); rewrite Hb in Hb'; injection Hb' as <-; lia).
  pose proof H as Hf. apply fetch_iff in Hf as (bs & Ht & Hs & ->); [| done]. inversion Ht; subst. exists e, bs, (p + length bs)%nat, es.
  split_and!; [done.. | | done | done]. destruct bs as [| b' bs]; [by inversion H1 |]. apply sub_cons in Hs as [Hb' _]. simpl. congruence.
Qed.

(** A constant is skipped as it is read. *)
Lemma skip_spec op p e bs : const_op op -> plain_bytes e (op :: bs) -> sub code (S p) bs -> (S p <= length code)%nat -> skip_const env op p = Some (S p + length bs)%nat.
Proof using Hcode.
  unfold const_op. intros Hop Hbs Hs Hp. pose proof (sub_length _ _ _ Hp Hs). assert (is_const e = true) as He by (by eapply head_const).
  assert (forall digits v, leb_width digits -> sN digits bs v -> snd <$> scan_leb128 env digits true (S p) = Some (S p + length bs)%nat) as Hleb.
  { intros digits v Hw Hv. assert (scan_leb128 env digits true (S p) = Some (v, (S p + length bs)%nat)) as -> by (apply (get_leb_iff code Hcode); eauto). done. }
  inversion Hbs; subst; try done; unfold skip_const; cbn [Z.eqb Pos.eqb].
  - eapply Hleb; [apply width32 | done].
  - eapply Hleb; [apply width64 | done].
  - rewrite (proj2 (Nat.ltb_ge _ _)) by lia. f_equal. lia.
  - rewrite (proj2 (Nat.ltb_ge _ _)) by lia. f_equal. lia.
Qed.

Lemma scan_spec op : const_op op -> forall fuel p es r n d s s',
  coded code p es r -> stops r -> scan_consts env op fuel p s = Done (Some (n, d), s') ->
  exists consts es', es = consts ++ es' /\ length consts = n /\ Forall is_const consts /\ coded code d es' r.
Proof using Hcode.
  intros Hop. induction fuel as [| fuel IH]; intros p es r n d s s' Hc Hr Hs; [done |]. cbn [scan_consts] in Hs.
  rewrite (bind_done _ _ _ _ _ (looking_at_run env p op s)) in Hs.
  case_bool_decide as Hp; [| injection Hs as <- <- _; by exists [], es].
  assert (r <> p) as Hne by (intros ->; destruct (stops_byte _ Hr) as [E | E]; rewrite Hp in E; injection E as ->; unfold const_op in Hop; lia).
  destruct (coded_head _ _ _ _ Hc Hp ltac:(unfold const_op in Hop; lia) Hne) as (e & bs & p1 & es1 & -> & Hf & Hc1 & Hbs & Hh & -> & Hsub).
  destruct bs as [| b bs]; [done |]. injection Hh as ->. apply sub_cons in Hsub as [_ Hsb]. pose proof (lookup_lt_Some _ _ _ Hp).
  rewrite (skip_spec op p e bs Hop Hbs Hsb ltac:(lia)) in Hs. apply bind_done_inv in Hs as (r1 & s1 & E & Hs).
  destruct r1 as [[n1 d1] |]; [| done]. injection Hs as <- <- _. cbn [length] in Hc1. rewrite <- Nat.add_succ_comm in Hc1.
  destruct (IH _ _ _ _ _ _ _ Hc1 Hr E) as (consts & es' & -> & <- & Hcs & Hc'). exists (e :: consts), es'.
  split_and!; [done | done | constructor; [by rewrite (head_const e (op :: bs) op) | done] | done].
Qed.

Lemma drops_spec r : stops r -> forall fuel n d k es s s', coded code d es r -> count_drops env fuel d s = Done (k, s') -> (n <= k)%nat ->
  exists es', es = replicate n IDrop ++ es' /\ coded code (d + n) es' r.
Proof using Hcode.
  intros Hr. induction fuel as [| fuel IH]; intros n d k es s s' Hc Hs Hn; [done |]. destruct n as [| n]; [exists es; by rewrite Nat.add_0_r |].
  cbn [count_drops] in Hs. rewrite (bind_done _ _ _ _ _ (looking_at_run env d 26 s)) in Hs.
  case_bool_decide as Hd; [| injection Hs as <- _; lia]. apply bind_done_inv in Hs as (k1 & s1 & E & Hs). injection Hs as <- _.
  assert (r <> d) as Hne by (intros ->; destruct (stops_byte _ Hr); congruence).
  destruct (coded_head _ _ _ _ Hc Hd ltac:(lia) Hne) as (e & bs & p1 & es1 & -> & Hf & Hc1 & Hbs & Hh & -> & _).
  destruct (head_drop _ _ Hbs Hh) as [-> ->]. cbn [length] in Hc1. rewrite Nat.add_1_r in Hc1.
  destruct (IH n _ _ _ _ _ Hc1 E ltac:(lia)) as (es' & -> & Hc'). exists es'. split; [done |]. by rewrite Nat.add_succ_comm in Hc'.
Qed.
End Elision.

(** What remains to be typed after constants that are dropped. *)
Lemma typing_const C e es ts ts' : is_const e = true -> instrs_typing C (e :: es) ts ts' -> exists t, plain_typing C e [] [t] /\ instrs_typing C es (t :: ts) ts'.
Proof.
  intros He Ht. inversion Ht as [| ? ? ? ts1 ts2 ts0 ? H1 H2]; subst. destruct e; try done;
    inversion H1 as [? ? ? ? Hp | | |]; subst; inversion Hp; subst; eexists; (split; [constructor | exact H2]).
Qed.

Lemma typing_consts C consts es ts ts' : Forall is_const consts -> instrs_typing C (consts ++ es) ts ts' ->
  exists vs, length vs = length consts /\ instrs_typing C es (vs ++ ts) ts'.
Proof.
  intros H. revert ts. induction H as [| e consts He _ IH]; intros ts Ht; [by exists [] |].
  apply typing_const in Ht as (t & _ & Ht); [| by destruct e]. destruct (IH _ Ht) as (vs & Hl & Hvs).
  exists (vs ++ [t]). rewrite length_app, <- app_assoc. simpl. split; [lia | done].
Qed.

Lemma typing_drops C n es vs ts ts' : length vs = n -> instrs_typing C (replicate n IDrop ++ es) (vs ++ ts) ts' -> instrs_typing C es ts ts'.
Proof.
  revert vs. induction n as [| n IH]; intros [| v vs] Hl Ht; try done. simpl in Ht.
  inversion Ht as [| ? ? ? ts1 ts2 ts0 ? H1 H2]; subst. inversion H1 as [? ? ? ? Hp | | |]; subst. inversion Hp; subst.
  match goal with H : [_] ++ _ = _ |- _ => injection H as -> -> end. apply (IH vs); [by injection Hl | exact H2].
Qed.

Lemma typing_elided C consts es ts ts' :
  Forall is_const consts -> instrs_typing C (consts ++ replicate (length consts) IDrop ++ es) ts ts' -> instrs_typing C es ts ts'.
Proof. intros H Ht. destruct (typing_consts _ _ _ _ _ H Ht) as (vs & Hl & Hvs). by eapply typing_drops. Qed.

Lemma covered_app grow es1 es2 : covered grow (es1 ++ es2) -> covered grow es2.
Proof. induction es1 as [| e es1 IH]; [done |]. simpl. intros H. apply IH. by inversion H. Qed.

(** ** Configurations *)

Record cfg := Cfg {
  c_ghost : ghost;
  c_out : buffers;
  c_seg : list operand;
  c_poly : bool;
  c_max : Z;
  c_bytes : Z;
  c_end : Z;
}.

(** The labels of the frames that have no place yet. *)
Definition pending (f : block_t) : list nat :=
  option_list (end_label_id f) ++ (if bool_decide (blk_type f = block_type.if_) then option_list (else_label_id f) else []).
Definition pendings (cs : list block_t) : list nat := concat (pending <$> cs).

Section Configurations.
Context (env : tenv) (I : instance) (gt : list value_type) (pss : list Z) (C : context).
Context (grow : bool) (Hfits : env_fits env I gt pss grow C).
#[local] Notation lt := (local_types env).
#[local] Notation rt := (rev (results env)).
#[local] Notation nm := (length pss).
#[local] Notation rep := (rep lt gt).

Definition state (cs : list block_t) (rest : list operand) (p : nat) (c : cfg) : tstate :=
  St p (c_out c) cs (c_seg c ++ rest) (c_poly c) (c_max c) (c_bytes c) (c_end c).

(** The labels and the code of a configuration; [P] are the labels without a place. *)
Record wf_with (P : list nat) (cs : list block_t) (g : ghost) : Prop := {
  wf_code th : Forall (fun i => Forall (fun l => (l < length (g_labels g))%nat) (targets i) /\ instr_ok pss i) (get th (g_code g));
  wf_pending id th : g_labels g !! id = Some (None, th) <-> th = false /\ In id P;
  wf_distinct : NoDup P;
  wf_frames : Forall (fun f => exists id k, get_branch_target_label_id f = Some id /\ g_labels g !! id = Some (k, false)) cs;
}.
Definition wf (cs : list block_t) (g : ghost) : Prop := wf_with (pendings cs) cs g.

(** The frames, whatever the code. *)
Record shape (cs : list block_t) (rest : list operand) : Prop := {
  shape_frames : Forall (fun f => (length (label f) <= 1)%nat /\ (operand_stack_base f <= length rest)%nat) cs;
  shape_head : exists f cs', cs = f :: cs' /\ operand_stack_base f = length rest;
  shape_last : exists f, cs !! (length cs - 1)%nat = Some f /\ result f = results env /\ operand_stack_base f = 0%nat;
}.

Record grows (c c' : cfg) : Prop := {
  grows_ext : ext (c_ghost c) (c_ghost c');
  grows_bytes : c_bytes c <= c_bytes c';
  grows_end : c_end c <= c_end c';
  grows_poly : c_poly c = true -> c_poly c' = true;
}.

#[export] Instance grows_preorder : PreOrder grows.
Proof using.
  split.
  - intros c. by split.
  - intros c1 c2 c3 [] []. split; [by etrans | lia | lia | auto].
Qed.

(** What the rest of the translation makes of a configuration. *)
Definition final (gf : ghost) (limit : Z) (readable : nat -> Prop) (c : cfg) : Prop :=
  ext (c_ghost c) gf /\ c_bytes c <= limit /\
  forall x t, lt !! x = Some t -> offset_of lt x + valtype_size t <= c_end c -> readable x.

Lemma final_grows gf limit readable c c' : grows c c' -> final gf limit readable c' -> final gf limit readable c.
Proof using.
  intros [H1 H2 H3 _] (F1 & F2 & F3). split_and!; [by etrans | lia |]. intros x t Hx Hle. eapply F3; [exact Hx | lia].
Qed.

Definition target_of (gf : ghost) (rest : list operand) (f : block_t) : target :=
  Target (resolve gf (default 0%nat (get_branch_target_label_id f))) (rev (label f)) (otype <$> drop (length rest - operand_stack_base f) rest).

Definition here (g : ghost) : nat := length (of_main (g_code g)).

Definition laid_from (gf : ghost) (limit : Z) (readable : nat -> Prop) (cs : list block_t) (rest : list operand) (c : cfg) (ts : list value_type)
    (es : list WasmSpec.instr) (k : nat) (ts' : list value_type) : Prop :=
  laid I lt gt rt nm (program gf) readable limit (target_of gf rest <$> cs) (otype <$> rest) (here (c_ghost c)) ts es k ts'.

(** The code of [es] lies between the configurations, if it can be reached. *)
Definition translated (cs : list block_t) (rest : list operand) (ts : list value_type) (es : list WasmSpec.instr) (ts' : list value_type) (c c' : cfg) : Prop :=
  c_poly c = false -> forall gf limit readable, final gf limit readable c' -> forall es' k ts2,
    (c_poly c' = false -> laid_from gf limit readable cs rest c' ts' es' k ts2) -> laid_from gf limit readable cs rest c ts (es ++ es') k ts2.

(** A number of iterations within the number of bytes. *)
Definition runs (s s' : tstate) : Prop :=
  exists n, (n + code_curr s <= code_curr s')%nat /\ forall fuel, translate_loop env (n + fuel) s = translate_loop env fuel s'.

#[export] Instance runs_preorder : PreOrder runs.
Proof using.
  split.
  - intros s. by exists 0%nat.
  - intros s1 s2 s3 (n1 & L1 & H1) (n2 & L2 & H2). exists (n1 + n2)%nat. split; [lia |]. intros fuel. by rewrite <- Nat.add_assoc, H1, H2.
Qed.

Lemma runs_one s s' : translate_one_opcode env s = Done (None, s') -> (code_curr s < code_curr s')%nat -> runs s s'.
Proof using. intros H Hlt. exists 1%nat. split; [lia |]. intros fuel. cbn [Nat.add translate_loop]. by rewrite (bind_done _ _ _ _ _ H). Qed.

Record good (cs : list block_t) (c : cfg) (ts : list value_type) : Prop := {
  good_rep : rep (c_ghost c) none_open (c_out c);
  good_wf : wf cs (c_ghost c);
  good_compat : compat (c_poly c) (c_seg c) ts;
}.

(** The translation of [es], from [p] to [q]. *)
Record does (cs : list block_t) (rest : list operand) (p : nat) (ts : list value_type) (es : list WasmSpec.instr) (q : nat) (ts' : list value_type) (c c' : cfg) : Prop := {
  does_runs : runs (state cs rest p c) (state cs rest q c');
  does_good : good cs c' ts';
  does_grows : grows c c';
  does_translated : translated cs rest ts es ts' c c';
}.

Lemma does_nil cs rest p ts c : good cs c ts -> does cs rest p ts [] p ts c c.
Proof using. intros H. split; [done | done | done |]. intros Hp gf limit readable Hf es k ts2 H2. by apply H2. Qed.

Lemma does_app cs rest p ts es1 q ts1 es2 r ts2 c c1 c2 :
  does cs rest p ts es1 q ts1 c c1 -> does cs rest q ts1 es2 r ts2 c1 c2 -> does cs rest p ts (es1 ++ es2) r ts2 c c2.
Proof using.
  intros [R1 G1 W1 T1] [R2 G2 W2 T2]. split; [by etrans | done | by etrans |].
  intros Hp gf limit readable Hf es k ts' H. rewrite <- app_assoc. eapply T1; [done | by eapply final_grows |]. intros Hp1. by eapply T2.
Qed.

(** One iteration. *)
Lemma does_step cs rest p ts e q ts' c c' :
  Fetch.fetch (TranslatorState.code env) p = Some (TPlain e, q) ->
  translate_one_opcode env (state cs rest p c) = Done (None, state cs rest q c') ->
  good cs c' ts' -> grows c c' -> translated cs rest ts [e] ts' c c' -> does cs rest p ts [e] q ts' c c'.
Proof using Hfits.
  intros Hf E G W T. split; [| done..]. apply runs_one; [exact E |]. apply fetch_progress in Hf; [cbn; lia | apply Hfits].
Qed.

Lemma opened p e q m cs rest c r s : Fetch.fetch (TranslatorState.code env) p = Some (TPlain e, q) -> opens env e m ->
  m (state cs rest q c) = Done (r, s) -> translate_one_opcode env (state cs rest p c) = Done (None, s).
Proof using.
  intros Hf Hm E. rewrite (Hm q (state cs rest p c)) by exact Hf. change (set_code_curr q (state cs rest p c)) with (state cs rest q c).
  by rewrite (bind_done _ _ _ _ _ E).
Qed.

(** One iteration on an instruction without blocks. *)
Lemma does_plain cs rest p ts e q ts' c c' m :
  Fetch.fetch (TranslatorState.code env) p = Some (TPlain e, q) -> opens env e m ->
  m (state cs rest q c) = Done (tt, state cs rest q c') ->
  good cs c' ts' -> grows c c' -> translated cs rest ts [e] ts' c c' -> does cs rest p ts [e] q ts' c c'.
Proof using Hfits. intros Hf Hm E G W T. eapply does_step; [done | by eapply opened | done..]. Qed.

(** *** Emission and labels *)

Definition placed (g : ghost) (i : instr) : Prop := Forall (fun l => (l < length (g_labels g))%nat) (targets i) /\ instr_ok pss i.

Lemma wf_push_code P cs th F g : wf_with P cs g -> Forall (placed g) F -> wf_with P cs (push_code th F g).
Proof using.
  intros [W1 W2 W3 W4] HF. split; [| done..]. intros th'. cbn. destruct (decide (th = th')) as [<- | Hne]; [| by rewrite get_put_ne].
  rewrite get_put. by apply Forall_app.
Qed.

Lemma wf_push_label cs l g : wf cs g -> l.1 <> None -> wf cs (push_label l g).
Proof using.
  intros [W1 W2 W3 W4] Hl. split; cbn.
  - intros th. eapply Forall_impl; [| exact (W1 th)]. intros i [H ?]. split; [| done]. eapply Forall_impl; [| exact H].
    intros x Hx. cbn. rewrite length_app. simpl in *. lia.
  - intros id th. rewrite <- W2. split; [| intros; by apply lookup_app_l_Some].
    intros [H | [_ H]]%lookup_app_Some; [done |]. apply list_lookup_singleton_Some in H as [_ ->]. done.
  - done.
  - eapply Forall_impl; [| exact W4]. intros f (id & k & ? & H). exists id, k. split; [done |]. by apply lookup_app_l_Some.
Qed.

Lemma wf_push_thunk cs F g : wf cs g -> Forall (placed (push_label (Some (length (of_thunk (g_code g))), true) g)) F -> wf cs (push_thunk F g).
Proof using. intros W HF. apply wf_push_code; [by apply wf_push_label | done]. Qed.

Lemma retarget_none f i : targets i = [] -> retarget f i = i.
Proof using. destruct i; try done. by destruct ls. Qed.

Lemma here_push F g : here (push_code false F g) = (here g + length F)%nat.
Proof using. unfold here. cbn. by rewrite length_app. Qed.

Lemma code_at_one (P : list instr) k i : code_at P k [i] -> P !! k = Some i.
Proof using. intros H. rewrite <- (Nat.add_0_r k). by apply H. Qed.

(** ** Instructions without jumps *)

Lemma does_acts cs rest p ins outs ts e q m m' i c :
  shape cs rest -> good cs c (ins ++ ts) -> Fetch.fetch (TranslatorState.code env) p = Some (TPlain e, q) -> is_special e = false \/ is_const e = true ->
  plain_covered grow e = true ->
  opens env e m' -> m' (state cs rest q c) = m (state cs rest q c) ->
  acts env gt pss m ins outs i -> performs env I gt pss e ins outs i ->
  exists c', does cs rest p (ins ++ ts) [e] q (outs ++ ts) c c'.
Proof using Hfits.
  intros [_ (f & cs' & -> & Hb) _] [R W Hc] Hf Hsp Hcov Hm Heq Ha (Hop & Hsucc & Hok).
  destruct c as [g b seg poly mx bmx z]. cbn [c_ghost c_out c_seg c_poly] in *.
  destruct (Ha q f cs' rest b seg poly mx bmx z ts g Hb Hc R) as [F b' seg' mx' bmx' z' E R' Hc' Hle1 Hle2 Hh Hlive].
  exists (Cfg (push_code false F g) b' seg' poly mx' bmx' z'). eapply does_plain; [done | exact Hm | rewrite Heq; exact E | | |].
  - split; [done | | done]. apply wf_push_code; [done |]. eapply Forall_impl; [| exact Hh]. intros i' [Ht Hi]. split; [by rewrite Ht | auto].
  - split; [apply ext_push_code | done | done | done].
  - intros Hp gf limit readable Hfin es' k ts2 Hk. cbn in Hp. destruct (Hlive Hp) as (-> & Hread & Hsize). pose proof Hfin as (Hx & Hlim & Hrd).
    pose proof (main_code_at _ _ _ Hx) as Hat. apply code_at_one in Hat. assert (targets i = []) as Ht by (by inversion Hh as [| ? ? [? _]]).
    rewrite retarget_none in Hat by done. specialize (Hk Hp). unfold laid_from in *. cbn [c_ghost] in *. rewrite here_push in Hk. cbn [length] in Hk. rewrite Nat.add_1_r in Hk.
    eapply laid_plain; [by apply Hop | exact Hat | apply Hsucc | | | exact Hk].
    + unfold may_read. specialize (Hsucc 0%nat ts). destruct i; try done. cbn [succs] in Hsucc. destruct (lt !! i) as [t |] eqn:Hti; [| done].
      eapply Hrd; [exact Hti |]. by apply Hread.
    + cbn in Hlim. destruct Hsize as [Hs | Hs]; [left; rewrite !size_bytes_app; lia | right]. rewrite <- app_assoc. lia.
Qed.

(** A constant is emitted, or it starts a run that is dropped. *)
Lemma does_const cs rest p ts t e q es r c :
  shape cs rest -> good cs c ts -> Fetch.fetch (TranslatorState.code env) p = Some (TPlain e, q) -> is_const e = true ->
  plain_typing C e [] [t] -> coded (TranslatorState.code env) q es r -> stops env r ->
  (exists c', does cs rest p ts [e] q (t :: ts) c c') \/
  (exists consts es' d, Forall is_const consts /\ e :: es = consts ++ replicate (length consts) IDrop ++ es' /\ (0 < length consts)%nat /\
    coded (TranslatorState.code env) d es' r /\ does cs rest p ts (consts ++ replicate (length consts) IDrop) d ts c c).
Proof using Hfits.
  intros Hsh G Hf He Hty Hc Hr. pose proof (fits_code _ _ _ _ _ _ Hfits) as Hcode.
  destruct (fetch_plain _ Hcode _ _ _ Hf) as (bs & Hbs & Hbytes & Hp & Hlt).
  destruct (const_acts env I gt pss C grow Hfits e bs Hbs He Hbytes) as (op & t0 & imm & elig & v & Hm & Hv & Hop & Hopc & Hperf & Hty0).
  destruct (Hty0 _ _ Hty) as [_ [= <-]]. clear Hty0.
  set (m := emit_opfunc_to false (uwvmint_const t);; emit_imm_to false (Imm imm);; operand_stack_push t).
  assert (const_case env op t elig imm (state cs rest q c) = m (state cs rest q c) ->
    exists c', does cs rest p ts [e] q (t :: ts) c c') as Hemit.
  { intros E. eapply (does_acts cs rest p [] [t] ts e q m _ (Const (t, v))); [done | done | done | by right | by destruct e | exact Hm | exact E | | done].
    by apply acts_const. }
  assert (forall b s, negb (is_polymorphic s) = negb (c_poly c) -> (if negb (c_poly c) && elig then try_elide_const_run_with_drops env op else mret false) s = Done (b, s) ->
    b = false -> const_case env op t elig imm s = m s) as Hnot.
  { intros b s Hs E ->. unfold const_case. rewrite bind_get, Hs. by rewrite (bind_done _ _ _ _ _ E). }
  destruct (negb (c_poly c) && elig) eqn:Helig; [| left; apply Hemit; by eapply Hnot].
  pose proof (fetch_progress _ Hcode _ _ _ Hf) as Hq. unfold try_elide_const_run_with_drops in Hnot.
  destruct (scan_consts_total env Hcode op (S (length (TranslatorState.code env))) q ltac:(lia) ltac:(lia)) as (r0 & Escan & Hd).
  destruct r0 as [[more d] |].
  2:{ left. apply Hemit. eapply Hnot; [done | | done]. rewrite bind_get. cbn [code_curr state St]. by rewrite (bind_done _ _ _ _ _ (Escan _)). }
  destruct (count_drops_total env (S (length (TranslatorState.code env))) d ltac:(lia) ltac:(lia)) as (k & Edrops & _).
  destruct (k <? S more)%nat eqn:Ecount.
  { left. apply Hemit. eapply Hnot; [done | | done]. rewrite bind_get. cbn [code_curr state St].
    by rewrite (bind_done _ _ _ _ _ (Escan _)), (bind_done _ _ _ _ _ (Edrops _)), Ecount. }
  right. apply Nat.ltb_ge in Ecount.
  destruct (scan_spec env Hcode op Hopc _ _ _ _ _ _ _ _ Hc Hr (Escan (state cs rest q c))) as (consts & es1 & -> & <- & Hcs & Hc1).
  destruct (drops_spec env Hcode r Hr _ _ _ _ _ _ _ Hc1 (Edrops (state cs rest q c)) Ecount) as (es' & -> & Hc2).
  exists (e :: consts), es', (d + S (length consts))%nat. split_and!; [by constructor; [rewrite He |] | done | simpl; lia | done |].
  split; [| done | done |].
  - apply runs_one; [| cbn; lia]. eapply opened; [exact Hf | exact Hm |]. unfold const_case. rewrite bind_get.
    cbn [is_polymorphic state St]. rewrite Helig. unfold try_elide_const_run_with_drops. rewrite sm_bind_assoc, bind_get. cbn [code_curr state St].
    by rewrite sm_bind_assoc, (bind_done _ _ _ _ _ (Escan _)), sm_bind_assoc, (bind_done _ _ _ _ _ (Edrops _)), (proj2 (Nat.ltb_ge _ _) Ecount).
  - intros Hp0 gf limit readable Hfin es2 k2 ts2 Hk. rewrite <- app_assoc. apply laid_elided; [by constructor; [rewrite He |] | simpl; lia | by apply Hk].
Qed.
End Configurations.
