(* ===== verification/TranslatorJumps.v ===== *)
(** * The translation of jumps

    [br], [br_if], [br_table] and [return]: what they emit, with the repairs of the stack, and
    that it leads where the specification goes. *)

From stdpp Require Import base list numbers.
From Stdlib Require Import ZArith Lia.
From S2P Require Import Prelude Leb128 IeeeBits NumericOps WasmTypes ValidationError Interpreter WasmSpec Fetch FlatWasm FlatTyping WasmExec FlatLayout InterpreterRep.
From S2P Require Import TranslatorState Translator TranslatorRep TranslatorPlain TranslatorCorrect.
Open Scope Z_scope.

Section Jumps.
Context (env : tenv) (I : instance) (gt : list value_type) (pss : list Z) (C : context).
Context (grow : bool) (Hfits : env_fits env I gt pss grow C).
#[local] Notation lt := (local_types env).
#[local] Notation rt := (rev (results env)).
#[local] Notation nm := (length pss).
#[local] Notation rep := (rep lt gt).
#[local] Notation emits := (emits env gt).
#[local] Notation wf := (wf pss).
#[local] Notation placed := (placed pss).
#[local] Notation good := (good env gt pss).
#[local] Notation does := (does env I gt pss).
#[local] Notation translated := (translated env I gt pss).
#[local] Notation laid_from := (laid_from env I gt pss).
#[local] Notation final := (final env).

Lemma short_rev {A} (l : list A) : (length l <= 1)%nat -> rev l = l.
Proof using. destruct l as [| x [| ]]; try done. simpl. lia. Qed.

(** ** The values of a label *)

(** The values of a label of the frame [f], what is between them and the frame, and the rest. *)
Record split_at (f : block_t) (L : list value_type) (rest : list operand) (ts0 : list value_type) (os junk : list operand) : Prop := {
  split_keep : list operand;
  split_base : list operand;
  split_eq : os = split_keep ++ junk ++ split_base;
  split_length : length split_keep = length L;
  split_height : length split_base = operand_stack_base f;
  split_types : L ++ ts0 ++ (otype <$> rest) = L ++ (otype <$> junk) ++ (otype <$> drop (length rest - operand_stack_base f) rest);
  split_rest : split_base = drop (length rest - operand_stack_base f) rest;
}.

Lemma split_known f L rest ts0 :
  (length L <= 1)%nat -> (operand_stack_base f <= length rest)%nat ->
  split_at f L rest ts0 (knowns (rev L ++ ts0) ++ rest) (knowns ts0 ++ take (length rest - operand_stack_base f) rest).
Proof using.
  intros HL Hb. exists (knowns L) (drop (length rest - operand_stack_base f) rest).
  - rewrite short_rev by done. unfold knowns. rewrite fmap_app, <- !app_assoc. do 2 f_equal. by rewrite take_drop.
  - unfold knowns. by rewrite length_fmap.
  - rewrite length_drop. lia.
  - rewrite fmap_app, types_knowns, <- app_assoc, <- fmap_app. by rewrite take_drop.
  - done.
Qed.

(** The code that leaves the values of a label on its frame and jumps. *)
Definition leave (poly : bool) (L : list value_type) (junk : list operand) (id : nat) : list instr :=
  (if poly then [] else repair L (otype <$> junk)) ++ [Br id].

Lemma repair_placed g keep junk : Forall (placed g) (repair keep junk).
Proof using.
  unfold repair. destruct junk; [done |]. repeat apply Forall_app_2; apply Forall_fmap, Forall_true; intros; by split; [constructor |].
Qed.

Lemma leave_placed g poly L junk id : (id < length (g_labels g))%nat -> Forall (placed g) (leave poly L junk id).
Proof using.
  intros Hid. apply Forall_app_2; [destruct poly; [done | apply repair_placed] |]. repeat constructor; done.
Qed.

Lemma emits_leave os th f L rest ts0 junk poly id g o :
  get th o = closed -> (length L <= 1)%nat -> (poly = false -> split_at f L rest ts0 os junk) ->
  emits os (sm_when (negb poly && (operand_stack_base f + length L <? length os)%nat) (emit_repair env th L (operand_stack_base f) (length os));;
    emit_br_to th id) tt g o (push_code th (leave poly L junk id) g) o.
Proof using Hfits.
  intros Ho HL Hs. unfold leave. rewrite <- push_code_push. eapply emits_bind; [| by apply emits_br].
  destruct poly; cbn [negb andb]; [rewrite push_code_nil; apply emits_ret |].
  destruct (Hs eq_refl) as [keep base -> Hk Hb _ _]. destruct (decide (junk = [])) as [-> | Hj].
  - rewrite (proj2 (Nat.ltb_ge _ _)) by (rewrite length_app; simpl; lia). cbn [fmap list_fmap]. rewrite push_code_nil. apply emits_ret.
  - rewrite (proj2 (Nat.ltb_lt _ _)) by (destruct junk; [done |]; rewrite !length_app; simpl; lia). cbn [sm_when]. unfold sm_when. rewrite <- Hb.
    eapply emits_repair; [apply Hfits | done | done | done | done | done].
Qed.

(** Where the code of [leave] goes. *)
Lemma leave_goes gf rest f L ts0 os junk k id :
  label f = L -> (length L <= 1)%nat -> split_at f L rest ts0 os junk ->
  get_branch_target_label_id f = Some id -> code_at (program gf) k (retarget (resolve gf) <$> leave false L junk id) ->
  goes_to (program gf) k (target_of gf rest f) ((rev L ++ ts0) ++ (otype <$> rest)).
Proof using.
  intros HL Hlen [keep base _ _ _ Ht _] Hid Hc. split; [by cbn; rewrite HL, length_rev |]. exists (otype <$> junk).
  cbn [t_types t_base t_at target_of]. rewrite HL, Hid, (short_rev L) by done. rewrite <- app_assoc. split; [done |].
  unfold leave in Hc. rewrite fmap_app, retarget_repair in Hc. exact Hc.
Qed.

Lemma split_direct gf rest f L ts0 os :
  label f = L -> (length L <= 1)%nat -> split_at f L rest ts0 os [] ->
  (rev L ++ ts0) ++ (otype <$> rest) = t_types (target_of gf rest f) ++ t_base (target_of gf rest f).
Proof using. intros HL Hlen [keep base _ _ _ Ht _]. cbn [t_types t_base target_of]. rewrite HL, (short_rev L) by done. by rewrite <- app_assoc, Ht. Qed.

(** Whether values lie between. *)
Lemma split_above f L rest ts0 os junk : split_at f L rest ts0 os junk -> (operand_stack_base f + length L <? length os)%nat = bool_decide (junk <> []).
Proof using.
  intros [keep base -> Hk Hb _ _]. rewrite !length_app. destruct junk; case_bool_decide; try done; apply Nat.ltb_lt || apply Nat.ltb_ge; simpl; lia.
Qed.

(** ** The cases *)

Lemma target_run {B} p b cs os poly mx bmx z l f (k : block_t -> M B) :
  cs !! l = Some f -> (target_frame_of l ≫= k) (St p b cs os poly mx bmx z) = k f (St p b cs os poly mx bmx z).
Proof using. intros Hf. unfold target_frame_of. rewrite sm_bind_assoc, bind_get. cbn [control_flow_stack St]. by rewrite Hf. Qed.

Lemma frame_target cs g l f : wf cs g -> cs !! l = Some f -> exists id, get_branch_target_label_id f = Some id /\ (id < length (g_labels g))%nat.
Proof using.
  intros [_ _ _ H] Hf. destruct (Forall_lookup_1 _ _ _ _ H Hf) as (id & k & Hid & Hg). exists id. split; [done |]. by eapply lookup_lt_Some.
Qed.

Lemma frame_shape cs rest l f : shape env cs rest -> cs !! l = Some f -> (length (label f) <= 1)%nat /\ (operand_stack_base f <= length rest)%nat.
Proof using. intros [H _ _] Hf. exact (Forall_lookup_1 _ _ _ _ H Hf). Qed.

(** What follows a jump is not reached. *)
Lemma stopped_good cs ts g g' b b' seg poly mx bmx z :
  rep g' none_open b' -> wf cs g' -> ext g g' ->
  good cs (Cfg g' b' [] true mx bmx z) ts /\ grows (Cfg g b seg poly mx bmx z) (Cfg g' b' [] true mx bmx z).
Proof using. intros R W E. split; [split; [done | done | by right] | by split]. Qed.

Lemma does_unreachable cs rest p q ts ts' c :
  shape env cs rest -> good cs c ts -> Fetch.fetch (TranslatorState.code env) p = Some (TPlain IUnreachable, q) ->
  exists c', does cs rest p ts [IUnreachable] q ts' c c'.
Proof using Hfits.
  intros [_ (f & cs' & -> & Hb) _] [R W Hc] Hf. destruct c as [g b seg poly mx bmx z]. cbn [c_ghost c_out c_seg c_poly] in *.
  destruct (emit_St env gt q b (f :: cs') (seg ++ rest) poly mx bmx z (emit_opfunc_to false uwvmint_unreachable) tt g none_open _ none_open
    (emits_push1 env gt _ Unreachable g _ eq_refl eq_refl) R) as (b' & E & R').
  assert (wf (f :: cs') (push_code false [Unreachable] g)) as W' by (apply wf_push_code; [done | by repeat constructor]).
  destruct (stopped_good (f :: cs') ts' g _ b b' seg poly mx bmx z R' W' (ext_push_code _ _ _)) as [G' H'].
  eexists. eapply does_plain; [done | done | by apply opens_unreachable, Hfits | | exact G' | exact H' |].
  - unfold case_unreachable. unfold state. cbn [c_out c_seg c_poly c_max c_bytes c_end]. rewrite (bind_done _ _ _ _ _ E), bind_get. cbn [control_flow_stack St]. rewrite Hb.
    by rewrite (bind_done _ _ _ _ _ (truncate_St _ _ _ _ _ _ _ _ _)).
  - intros Hp gf limit readable (Hx & _) es k ts2 _. apply laid_unreachable. apply (code_at_one _ _ Unreachable). by apply (main_code_at _ _ _ Hx).
Qed.

Lemma does_nop cs rest p q ts c :
  good cs c ts -> Fetch.fetch (TranslatorState.code env) p = Some (TPlain INop, q) -> does cs rest p ts [INop] q ts c c.
Proof using Hfits.
  intros G Hf. eapply does_plain; [done | done | by apply opens_nop, Hfits | done | done | done |].
  intros Hp gf limit readable Hfin es k ts2 H. apply laid_nop. by apply H.
Qed.

Lemma leave_code g gf k poly L junk id : ext (push_code false (leave poly L junk id) g) gf -> poly = false -> here g = k ->
  code_at (program gf) k (retarget (resolve gf) <$> leave false L junk id).
Proof using. intros Hx -> <-. by apply main_code_at. Qed.

Lemma does_br cs rest p q l f ts0 ts' c :
  shape env cs rest -> good cs c (rev (label f) ++ ts0) -> Fetch.fetch (TranslatorState.code env) p = Some (TPlain (IBr l), q) -> cs !! l = Some f ->
  exists c', does cs rest p (rev (label f) ++ ts0) [IBr l] q ts' c c'.
Proof using Hfits.
  intros Hsh [R W Hc] Hf Hl. destruct (frame_shape _ _ _ _ Hsh Hl) as [HL Hfb]. destruct Hsh as [_ (f0 & cs' & -> & Hb) _].
  destruct c as [g b seg poly mx bmx z]. cbn [c_ghost c_out c_seg c_poly] in *.
  destruct (frame_target _ _ _ _ W Hl) as (id & Hid & Hlt).
  set (L := label f) in *. set (junk := knowns ts0 ++ take (length rest - operand_stack_base f) rest).
  assert (poly = false -> split_at f L rest ts0 (seg ++ rest) junk) as Hs
    by (intros ->; rewrite (compat_known _ _ Hc); by apply split_known).
  destruct (emit_St env gt q b (f0 :: cs') (seg ++ rest) poly mx bmx z _ tt g none_open _ none_open
    (emits_leave (seg ++ rest) false f L rest ts0 junk poly id g none_open eq_refl HL Hs) R) as (b' & E & R').
  assert (wf (f0 :: cs') (push_code false (leave poly L junk id) g)) as W' by (apply wf_push_code; [done | by apply leave_placed]).
  destruct (stopped_good (f0 :: cs') ts' g _ b b' seg poly mx bmx z R' W' (ext_push_code _ _ _)) as [G' H'].
  eexists. eapply does_plain; [done | done | by apply opens_br, Hfits | | exact G' | exact H' |].
  - unfold br_to. unfold state. cbn [c_out c_seg c_poly c_max c_bytes c_end]. rewrite (target_run _ _ _ _ _ _ _ _ _ _ _ Hl). fold L.
    erewrite bind_done; [| eapply underflow_St; [exact Hb | exact Hc | rewrite length_app, length_rev; lia]].
    rewrite bind_get, (operands_match_St _ _ _ _ Hb _ _ _ _ _ _ _ _ Hc), require_true, Hid, bind_some. cbv zeta.
    rewrite <- sm_bind_assoc. cbn [is_polymorphic operand_stack St]. rewrite (bind_done _ _ _ _ _ E). by apply make_unreachable_St.
  - intros Hp gf limit readable (Hx & _) es k ts2 _. cbn in Hp. eapply laid_br.
    + rewrite list_lookup_fmap, Hl. done.
    + cbn. fold L. rewrite length_app, length_rev. lia.
    + eapply leave_goes; [done | done | exact (Hs Hp) | exact Hid |]. by eapply leave_code.
Qed.

Lemma does_return cs rest p q ts0 ts' c :
  shape env cs rest -> good cs c (rt ++ ts0) -> Fetch.fetch (TranslatorState.code env) p = Some (TPlain IReturn, q) ->
  exists c', does cs rest p (rt ++ ts0) [IReturn] q ts' c c'.
Proof using Hfits.
  intros Hsh [R W Hc] Hf. destruct Hsh as [_ (f0 & cs' & -> & Hb) (f & Hl & Hres & Hf0)].
  destruct c as [g b seg poly mx bmx z]. cbn [c_ghost c_out c_seg c_poly] in *.
  pose proof (fits_results _ _ _ _ _ _ Hfits) as HL. set (L := results env) in *.
  set (junk := knowns ts0 ++ rest).
  assert (poly = false -> seg ++ rest = knowns L ++ junk ++ []) as Hs.
  { intros ->. rewrite (compat_known _ _ Hc), (short_rev L) by done. unfold knowns, junk. by rewrite fmap_app, app_nil_r, <- app_assoc. }
  set (F := (if poly then [] else repair L (otype <$> junk)) ++ [Return]).
  assert (emits (seg ++ rest) (sm_when (negb poly)
    (if (length L =? 0)%nat then emit_drop_to_stack_size_no_fill false 0
     else sm_when (0 + length L <? length (seg ++ rest))%nat
            (emit_preserve_top_values_drop_to_base_restore env false L 0 (length (seg ++ rest))));; emit_return_to false) tt g none_open (push_code false F g) none_open) as He.
  { unfold F. rewrite <- push_code_push. eapply emits_bind; [| by apply emits_push1]. destruct poly; [rewrite push_code_nil; apply emits_ret |].
    unfold sm_when at 1. cbn [negb]. specialize (Hs eq_refl).
    assert (length (knowns L) = length L) as Hk by (unfold knowns; by rewrite length_fmap).
    destruct (decide (junk = [])) as [Hj | Hj].
    - rewrite Hj in *. rewrite push_code_nil, Hs. cbn [app]. rewrite app_nil_r.
      destruct (Nat.eqb_spec (length L) 0) as [E0 | E0].
      + apply nil_length_inv in E0. rewrite E0. cbn. apply emits_get. intros s ->. apply emits_ret.
      + rewrite Hk, (proj2 (Nat.ltb_ge _ _)) by lia. apply emits_ret.
    - pose proof (emits_repair env gt (fits_temps _ _ _ _ _ _ Hfits) (seg ++ rest) false L (knowns L) junk [] g none_open eq_refl HL Hs Hk Hj) as H.
      unfold emit_repair in H. cbn [length] in H. rewrite (proj2 (Nat.ltb_lt (0 + length L) (length (seg ++ rest)))); [exact H |].
      rewrite Hs, !length_app, Hk. destruct junk; [done |]. simpl. lia. }
  destruct (emit_St env gt q b (f0 :: cs') (seg ++ rest) poly mx bmx z _ tt g none_open _ none_open He R) as (b' & E & R').
  assert (wf (f0 :: cs') (push_code false F g)) as W'.
  { apply wf_push_code; [done |]. apply Forall_app_2; [destruct poly; [done | apply repair_placed] | by repeat constructor]. }
  destruct (stopped_good (f0 :: cs') ts' g _ b b' seg poly mx bmx z R' W' (ext_push_code _ _ _)) as [G' H'].
  eexists. eapply does_plain; [done | done | by apply opens_return, Hfits | | exact G' | exact H' |].
  - unfold case_return. unfold state. cbn [c_out c_seg c_poly c_max c_bytes c_end]. rewrite bind_get. cbn [control_flow_stack St]. rewrite Hl, bind_some. cbv zeta.
    rewrite Hres, Hf0. fold L. erewrite bind_done; [| eapply underflow_St; [exact Hb | exact Hc | rewrite length_app, length_rev; lia]].
    rewrite (operands_match_St _ _ _ _ Hb _ _ _ _ _ _ _ _ Hc), require_true. rewrite <- sm_bind_assoc. cbn [is_polymorphic operand_stack St].
    rewrite (bind_done _ _ _ _ _ E). by apply make_unreachable_St.
  - intros Hp gf limit readable (Hx & _) es k ts2 _. cbn in Hp. apply main_code_at in Hx. unfold F in Hx. rewrite Hp, fmap_app, retarget_repair in Hx.
    eapply (laid_return _ _ _ _ _ _ _ _ _ _ _ _ (ts0 ++ (otype <$> rest))).
    + rewrite length_app. apply Nat.le_add_r.
    + by rewrite app_assoc.
    + rewrite (short_rev (results env)) by done. unfold junk in Hx. rewrite fmap_app, types_knowns in Hx. exact Hx.
Qed.

(** ** Jumps that may not be taken *)

(** The label to jump to: that of the frame, or that of code out of line. *)
Record jumps_to (cs : list block_t) (rest : list operand) (f : block_t) (poly : bool) (ts : list value_type) (g g1 : ghost) (id : nat) : Prop := {
  jumps_ext : ext g g1;
  jumps_main : of_main (g_code g1) = of_main (g_code g);
  jumps_wf : wf cs g -> wf cs g1;
  jumps_id : (id < length (g_labels g1))%nat;
  jumps_leads : poly = false -> forall gf, ext g1 gf -> leads (program gf) (resolve gf id) (target_of gf rest f) (ts ++ (otype <$> rest));
}.

Lemma choose_target {B} p b cs rest seg poly mx bmx z l f L id ts0 g o (k : nat -> M B) :
  of_thunk o = closed -> shape env cs rest -> rep g o b -> wf cs g -> compat poly seg (rev L ++ ts0) -> L = label f ->
  cs !! l = Some f -> get_branch_target_label_id f = Some id ->
  exists id1 g1 b1, rep g1 o b1 /\ jumps_to cs rest f poly (rev L ++ ts0) g g1 id1 /\
    (if poly then k id
     else if (operand_stack_base f + length L <? length (seg ++ rest))%nat then
       thunk_label_id ← emit_thunk env L (operand_stack_base f) (length (seg ++ rest)) id; k thunk_label_id
     else k id) (St p b cs (seg ++ rest) poly mx bmx z) = k id1 (St p b1 cs (seg ++ rest) poly mx bmx z).
Proof using Hfits.
  intros Ho Hsh R W Hc -> Hl Hid. destruct (frame_shape _ _ _ _ Hsh Hl) as [HL Hfb]. set (L := label f) in *.
  destruct (frame_target _ _ _ _ W Hl) as (id' & Hid' & Hlt). rewrite Hid in Hid'. injection Hid' as <-.
  assert (poly = false -> split_at f L rest ts0 (seg ++ rest) (knowns ts0 ++ take (length rest - operand_stack_base f) rest)) as Hs
    by (intros ->; rewrite (compat_known _ _ Hc); by apply split_known).
  destruct poly; [exists id, g, b; by split_and!|]. specialize (Hs eq_refl).
  set (junk := knowns ts0 ++ take (length rest - operand_stack_base f) rest) in *.
  rewrite (split_above _ _ _ _ _ _ Hs). case_bool_decide as Hj.
  - pose proof Hs as [keep base Heq Hk Hb _ _].
    pose proof (emits_thunk env gt (fits_temps _ _ _ _ _ _ Hfits) (seg ++ rest) L keep junk base id g o Ho HL Heq Hk Hj) as He.
    rewrite Hb in He. destruct (emit_St env gt p b cs (seg ++ rest) false mx bmx z _ _ g o _ o He R) as (b1 & E & R1).
    exists (length (g_labels g)), (push_thunk (repair L (otype <$> junk) ++ [Br id]) g), b1. split_and!; [done | | by rewrite (bind_done _ _ _ _ _ E)].
    split; [apply ext_push_thunk | done | | |].
    + intros _. apply wf_push_thunk; [done |]. apply (leave_placed _ false). cbn. rewrite length_app. lia.
    + cbn. rewrite length_app. simpl. lia.
    + intros _ gf Hx. right. eapply (leave_goes gf rest f L ts0 (seg ++ rest) junk); [done | done | done | exact Hid |].
      erewrite resolve_thunk; [| exact Hx | cbn; by rewrite lookup_app_r, Nat.sub_diag by lia].
      unfold push_thunk in Hx. by apply thunk_code_at in Hx.
  - rewrite Hj in Hs. exists id, g, b. split_and!; [done | | done]. split; [done | done | done | done |].
    intros _ gf Hx. left. split; [cbn; by rewrite Hid |]. by eapply split_direct.
Qed.

(** The operands that a [br_if] leaves. *)
Lemma br_if_operands p b f0 cs rest seg poly mx bmx z L ts0 :
  operand_stack_base f0 = length rest -> compat poly seg (rev L ++ ts0) -> (length L <= 1)%nat ->
  exists seg1 mx1 bmx1, compat poly seg1 (rev L ++ ts0) /\ bmx <= bmx1 /\
    (if (length L =? 0)%nat then mret tt
     else
       s ← sm_get;
       require cvec.br_value_type_mismatch (operands_match L s);;
       pop_available_concrete_operands (concrete_operand_count s `min` length L);;
       block_push_types L) (St p b (f0 :: cs) (seg ++ rest) poly mx bmx z) = Done (tt, St p b (f0 :: cs) (seg1 ++ rest) poly mx1 bmx1 z).
Proof using.
  intros Hb Hc HL. destruct L as [| t [| ]]; [exists seg, mx, bmx; split_and!; [done | lia | done] | | simpl in HL; lia].
  cbn [length Nat.eqb]. rewrite bind_get, (operands_match_St _ _ _ _ Hb _ _ _ _ _ _ _ _ Hc), require_true, (count_St _ _ _ _ Hb).
  assert (pop_available_concrete_operands (length seg `min` 1) (St p b (f0 :: cs) (seg ++ rest) poly mx bmx z) =
    Done (tt, St p b (f0 :: cs) (tail seg ++ rest) poly mx bmx z)) as E.
  { unfold pop_available_concrete_operands. rewrite bind_get, (count_St _ _ _ _ Hb). destruct seg as [| o seg]; [done |].
    replace (length (o :: seg) `min` 1 `min` length (o :: seg))%nat with (length [o]) by (simpl; lia).
    apply (truncate_app p (f0 :: cs) b [o] (seg ++ rest)). }
  rewrite (bind_done _ _ _ _ _ E). destruct (push_types_St p (f0 :: cs) [t] b (tail seg ++ rest) poly mx bmx z) as (mx1 & bmx1 & E1 & Hle).
  exists (Operand t false :: tail seg), mx1, bmx1. split_and!; [| done | exact E1]. cbn [rev app]. apply compat_push. exact (compat_tail _ _ t _ Hc).
Qed.

Lemma does_br_if cs rest p q l f ts0 c :
  shape env cs rest -> good cs c (i32 :: rev (label f) ++ ts0) -> Fetch.fetch (TranslatorState.code env) p = Some (TPlain (IBrIf l), q) -> cs !! l = Some f ->
  exists c', does cs rest p (i32 :: rev (label f) ++ ts0) [IBrIf l] q (rev (label f) ++ ts0) c c'.
Proof using Hfits.
  intros Hsh [R W Hc] Hf Hl. destruct (frame_shape _ _ _ _ Hsh Hl) as [HL Hfb].
  destruct (frame_target _ _ _ _ W Hl) as (id & Hid & Hlt). set (L := label f) in *.
  pose proof Hsh as [_ (f0 & cs' & -> & Hb) _]. destruct c as [g b seg poly mx bmx z]. cbn [c_ghost c_out c_seg c_poly] in *.
  pose proof (compat_tail _ _ _ _ Hc) as Hc1.
  destruct (br_if_operands q b f0 cs' rest (tail seg) poly mx bmx z L ts0 Hb Hc1 HL) as (seg1 & mx1 & bmx1 & Hc2 & Hle & E1).
  destruct (choose_target q b (f0 :: cs') rest seg1 poly mx1 bmx1 z l f L id ts0 g none_open emit_br_if_jump_any eq_refl Hsh R W Hc2 eq_refl Hl Hid)
    as (id1 & g1 & b1 & R1 & [J1 J2 J3 J4 J5] & E2).
  destruct (emit_St env gt q b1 (f0 :: cs') (seg1 ++ rest) poly mx1 bmx1 z (emit_br_if_jump_any id1) tt g1 none_open (push_code false [BrIf id1] g1) none_open)
    as (b2 & E3 & R2); [by apply emits_jump | done |].
  exists (Cfg (push_code false [BrIf id1] g1) b2 seg1 poly mx1 bmx1 z). eapply does_plain; [done | done | by apply opens_br_if, Hfits | | | |].
  - unfold br_if_to, state. cbn [c_out c_seg c_poly c_max c_bytes c_end]. rewrite (target_run _ _ _ _ _ _ _ _ _ _ _ Hl). cbv zeta. fold L.
    erewrite bind_done; [| eapply underflow_St; [exact Hb | exact Hc | cbn [length]; rewrite length_app, length_rev; lia]].
    rewrite (bind_done _ _ _ _ _ (try_pop_St _ _ _ _ Hb _ _ _ _ _ _)), (compat_head _ _ _ _ Hc), require_true.
    rewrite (bind_done _ _ _ _ _ E1), Hid, bind_some, bind_get. cbn [is_polymorphic operand_stack St]. rewrite E2. exact E3.
  - split; [done | | done]. apply wf_push_code; [by apply J3 |]. by repeat constructor.
  - split; [cbn; etrans; [exact J1 | apply ext_push_code] | done | done | done].
  - intros Hp gf limit readable (Hx & _) es k ts2 Hk. cbn in Hp. specialize (Hk Hp). unfold TranslatorCorrect.laid_from in *. cbn [c_ghost] in *.
    rewrite here_push in Hk. cbn [length] in Hk. rewrite Nat.add_1_r in Hk.
    assert (here g1 = here g) as Hh by (unfold here; by rewrite J2). rewrite Hh in Hk.
    assert (ext g1 gf) as Hx1 by (etrans; [apply ext_push_code | exact Hx]).
    eapply laid_br_if; [by rewrite list_lookup_fmap, Hl | cbn; fold L; rewrite length_app, length_rev; lia | | by apply (J5 Hp gf) | exact Hk].
    rewrite <- Hh. apply (code_at_one _ _ (BrIf (resolve gf id1))). by apply (main_code_at _ _ _ Hx).
Qed.

(** ** Tables *)

Section Table.
Context (p : nat) (cs : list block_t) (rest seg : list operand) (poly : bool) (mx bmx z : Z) (L ts0 : list value_type).
Context (Hsh : shape env cs rest) (Hc : compat poly seg (rev L ++ ts0)).
#[local] Notation ts := (rev L ++ ts0).

(** What a label of the table leads to. *)
Definition entry_leads (gf : ghost) (l q : nat) : Prop :=
  exists t, (target_of gf rest <$> cs) !! l = Some t /\ (length (t_types t) <= length ts)%nat /\ leads (program gf) q t (ts ++ (otype <$> rest)).

Lemma entries_run ents b g o :
  of_thunk o = closed -> rep g o b -> wf cs g -> Forall (fun l => exists f, cs !! l = Some f /\ label f = L) ents ->
  exists ids g' b', for_each ents (emit_br_table_entry env L (length (seg ++ rest))) (St p b cs (seg ++ rest) poly mx bmx z) =
      Done (tt, St p b' cs (seg ++ rest) poly mx bmx z) /\
    rep g' (put false ((get false o).1, (get false o).2 ++ ids) o) b' /\ ext g g' /\ of_main (g_code g') = of_main (g_code g) /\ wf cs g' /\
    Forall (fun id => (id < length (g_labels g'))%nat) ids /\
    length ids = length ents /\
    (poly = false -> forall gf, ext g' gf -> Forall2 (fun l id => entry_leads gf l (resolve gf id)) ents ids).
Proof using Hfits Hsh Hc.
  intros Ho R W Hall. revert b g o Ho R W. induction Hall as [| l ents (f & Hl & HL) _ IH]; intros b g o Ho R W.
  { exists [], g, b. rewrite app_nil_r. assert (put false ((get false o).1, (get false o).2) o = o) as -> by (destruct o as [[? ?] ?]; done).
    by split_and!. }
  destruct (frame_target _ _ _ _ W Hl) as (id & Hid & Hlt).
  destruct (choose_target p b cs rest seg poly mx bmx z l f L id ts0 g o (fun id => emit_ptr_label_placeholder id false) Ho Hsh R W Hc (eq_sym HL) Hl Hid)
    as (id1 & g1 & b1 & R1 & [J1 J2 J3 J4 J5] & E1).
  destruct (emit_St env gt p b1 cs (seg ++ rest) poly mx bmx z _ tt g1 o g1 _ (emits_placeholder env gt (seg ++ rest) false id1 g1 o) R1) as (b2 & E2 & R2).
  destruct (IH b2 g1 (put false ((get false o).1, (get false o).2 ++ [id1]) o) Ho R2 (J3 W)) as (ids & g' & b' & E & R' & H1 & H2 & H3 & H4 & H5 & H6).
  exists (id1 :: ids), g', b'. split_and!.
  - cbn [for_each]. erewrite bind_done; [exact E |]. unfold emit_br_table_entry. rewrite (target_run _ _ _ _ _ _ _ _ _ _ _ Hl), Hid, bind_some, bind_get.
    cbv zeta. cbn [is_polymorphic St]. by rewrite E1.
  - cbn [get] in *. rewrite put_put in R'. cbn in R' |- *. by rewrite <- app_assoc in R'.
  - by etrans.
  - by rewrite H2.
  - done.
  - constructor; [| done]. pose proof (ext_labels_length _ _ H1). lia.
  - simpl. by rewrite H5.
  - intros Hp gf Hx. constructor; [| by apply H6]. exists (target_of gf rest f). rewrite list_lookup_fmap, Hl. split_and!; [done | |].
    + cbn. rewrite HL, length_app, length_rev. lia.
    + apply (J5 Hp). by etrans.
Qed.
End Table.

Lemma sig_matches_self L ts0 p b f0 cs rest seg poly mx bmx z :
  operand_stack_base f0 = length rest -> compat poly seg (i32 :: rev L ++ ts0) -> (length L <= 1)%nat ->
  br_table_sig_matches env L L (St p b (f0 :: cs) (seg ++ rest) poly mx bmx z) = true.
Proof using.
  intros Hb Hc HL. unfold br_table_sig_matches. rewrite Nat.eqb_refl. cbn [andb]. apply forallb_forall. intros i Hi%in_seq.
  destruct (uses_mvp_validation_rules env); [by apply bool_decide_eq_true |]. cbv zeta. rewrite (count_St _ _ _ _ Hb). cbn [operand_stack St].
  destruct (Nat.leb_spec (length seg) (length L - i)) as [| Hlt]; [done |]. destruct L as [| t [| ]]; simpl in *; try lia.
  replace i with 0%nat in * by lia. destruct seg as [| o1 [| o2 seg]]; simpl in *; try lia. destruct Hc as (_ & Ho & _).
  unfold stack_entry_type_matches. destruct Ho as [-> | [_ ->]]; [| done]. simpl. by apply bool_decide_eq_true.
Qed.

(** Reading the labels of a table, which all have the type of the first. *)
Section TableLabels.
Context (f0 : block_t) (cs : list block_t) (rest seg : list operand) (b : buffers) (poly : bool) (mx bmx z : Z) (L ts0 : list value_type).
Context (Hb : operand_stack_base f0 = length rest) (Hc : compat poly seg (i32 :: rev L ++ ts0)) (HL : (length L <= 1)%nat).
#[local] Notation at_ p := (St p b (f0 :: cs) (seg ++ rest) poly mx bmx z).
#[local] Notation labelled l := (exists f, (f0 :: cs) !! l = Some f /\ label f = L).

Lemma label_run p l bs expected :
  labelled l -> index_bytes l bs -> sub (TranslatorState.code env) p bs -> default L expected = L ->
  read_br_table_label env expected (at_ p) = Done ((l, L), at_ (p + length bs)).
Proof using Hfits Hb Hc HL.
  intros (f & Hl & Hf) Hi Hs He. unfold read_br_table_label. rewrite (index_run env (fits_code _ _ _ _ _ _ Hfits) _ _ bs l (at_ p) Hi Hs).
  change (set_code_curr (code_curr (at_ p) + length bs) (at_ p)) with (at_ (p + length bs)).
  rewrite (target_run _ _ _ _ _ _ _ _ _ _ _ Hl), Hf. unfold check_br_table_sig. rewrite sm_bind_assoc, bind_get.
  destruct expected as [e |]; cbn [default] in *; [| by rewrite bind_ret].
  change (e = L) in He. rewrite He.
  by rewrite (sig_matches_self _ _ _ _ _ _ _ _ _ _ _ _ Hb Hc HL), require_true.
Qed.

Lemma labels_run ls : Forall (fun l => labelled l) ls -> forall p bs expected,
  indices_bytes ls bs -> sub (TranslatorState.code env) p bs -> default L expected = L ->
  exists expected', default L expected' = L /\
    read_br_table_labels env (length ls) expected (at_ p) = Done ((ls, expected'), at_ (p + length bs)).
Proof using Hfits Hb Hc HL.
  induction 1 as [| l ls Hl _ IH]; intros p bs expected Hi Hs He.
  - inversion Hi; subst. exists expected. by rewrite Nat.add_0_r.
  - inversion Hi as [| ? ? bs1 bs2 Hx Hxs]; subst. apply sub_app in Hs as [Hs1 Hs2].
    destruct (IH _ bs2 (Some L) Hxs Hs2 eq_refl) as (e & He' & E). exists e. split; [done |]. cbn [length read_br_table_labels].
    rewrite (bind_done _ _ _ _ _ (label_run p l bs1 expected Hl Hx Hs1 He)), (bind_done _ _ _ _ _ E). by rewrite length_app, Nat.add_assoc.
Qed.

Lemma opens_br_table p q ls d :
  Fetch.fetch (TranslatorState.code env) p = Some (TPlain (IBrTable ls d), q) -> Forall (fun l => labelled l) (ls ++ [d]) ->
  translate_one_opcode env (at_ p) = (br_table_to env ls d L;; mret None) (at_ q).
Proof using Hfits Hb Hc HL.
  intros Hf [Hls Hd]%Forall_app. inversion Hd as [| ? ? Hld _]; subst. pose proof (fits_code _ _ _ _ _ _ Hfits) as Hcode.
  apply fetch_iff in Hf as (bs & Ht & Hs & ->); [| done]. inversion Ht as [? ? Hbs | | | | |]; subst. inversion Hbs as [| | | | ? ? bs1 bs2 bs3 H1 H2 H3 | | | | | | | | | | | | | | | | | | |]; subst.
  apply sub_cons in Hs as [H14 Hs]. pose proof (lookup_lt_Some _ _ _ H14) as Hp. pose proof (sub_length _ (S p) _ Hp Hs) as Hlen.
  apply sub_app in Hs as [Hs1 [Hs2 Hs3]%sub_app]. rewrite !length_app in Hlen.
  rewrite (opcode_run env 14) by done. change (switch_opbase env 14) with ((case_br_table env;; mret None) : M (option compiled_func)). unfold case_br_table.
  change (set_code_curr (S (code_curr (at_ p))) (at_ p)) with (at_ (S p)).
  rewrite sm_bind_assoc, (leb_run env Hcode 32 false _ _ bs1 _ (at_ (S p)) width32 H1 Hs1), sm_bind_assoc, bind_get.
  change (set_code_curr (code_curr (at_ (S p)) + length bs1) (at_ (S p))) with (at_ (S p + length bs1)). cbv zeta. cbn [code_curr St].
  pose proof (indices_length _ _ H2). pose proof (uN_length_nonzero _ _ _ H3).
  assert ((Z.of_nat (length (TranslatorState.code env) - (S p + length bs1)) =? 0) || (Z.of_nat (length (TranslatorState.code env) - (S p + length bs1)) <=? Z.of_nat (length ls)) = false) as ->
    by (apply orb_false_iff; split; [apply Z.eqb_neq | apply Z.leb_gt]; lia).
  cbn [sm_when]. rewrite sm_bind_assoc, bind_ret, Nat2Z.id, sm_bind_assoc.
  destruct (labels_run ls Hls (S p + length bs1) bs2 None H2 Hs2 eq_refl) as (e & He & E). rewrite (bind_done _ _ _ _ _ E), sm_bind_assoc.
  rewrite (bind_done _ _ _ _ _ (label_run _ d bs3 e Hld H3 Hs3 He)). do 2 f_equal. cbn [length]. rewrite !length_app. lia.
Qed.
End TableLabels.

Lemma does_br_table cs rest p q ls d L ts0 ts' c :
  shape env cs rest -> good cs c (i32 :: rev L ++ ts0) -> Fetch.fetch (TranslatorState.code env) p = Some (TPlain (IBrTable ls d), q) ->
  Forall (fun l => exists f, cs !! l = Some f /\ label f = L) (ls ++ [d]) ->
  exists c', does cs rest p (i32 :: rev L ++ ts0) [IBrTable ls d] q ts' c c'.
Proof using Hfits.
  intros Hsh [R W Hc] Hf Hall.
  assert (length L <= 1)%nat as HL.
  { apply Forall_app in Hall as [_ Hd]. inversion Hd as [| ? ? (f & Hl & <-) _]; subst. by apply (frame_shape _ _ _ _ Hsh Hl). }
  pose proof Hsh as [_ (f0 & cs' & -> & Hb) _]. destruct c as [g b seg poly mx bmx z]. cbn [c_ghost c_out c_seg c_poly] in *.
  pose proof (compat_tail _ _ _ _ Hc) as Hc1.
  destruct (emit_St env gt q b (f0 :: cs') (tail seg ++ rest) poly mx bmx z (emit_opfunc_to false uwvmint_br_table;; emit_imm_to false (Imm (zlen ls))) tt g none_open g
    (Both ([Opfunc uwvmint_br_table; Imm (zlen ls)], []) closed)) as (b1 & E1 & R1); [| done |].
  { eapply emits_open; [eapply emits_bind; by apply emits_slot | done]. }
  destruct (entries_run q (f0 :: cs') rest (tail seg) poly mx bmx z L ts0 Hsh Hc1 (ls ++ [d]) b1 g
      (Both ([Opfunc uwvmint_br_table; Imm (zlen ls)], []) closed) eq_refl R1 W Hall)
    as (ids & g1 & b2 & E2 & R2 & H1 & H2 & H3 & H4 & H5 & H6).
  destruct ids as [| id ids _] using rev_ind; [rewrite length_app in H5; simpl in H5; lia |]. rewrite !length_app in H5. simpl in H5.
  set (i := BrTable ids id).
  assert (rep (push_code false [i] g1) none_open b2) as R3.
  { eapply (rep_close lt gt g1 _ false i b2) in R2; [exact R2 | | done | done]. cbn. rewrite length_app. simpl.
    assert (zlen ids = zlen ls) as -> by (unfold zlen; lia). do 2 f_equal. rewrite Nat.add_1_r, replicate_S_end. f_equal.
    clear. induction ids; simpl; by f_equal. }
  assert (wf (f0 :: cs') (push_code false [i] g1)) as W'.
  { apply wf_push_code; [done |]. constructor; [| constructor]. by split. }
  assert (ext g (push_code false [i] g1)) as Hext by (etrans; [exact H1 | apply ext_push_code]).
  destruct (stopped_good (f0 :: cs') ts' g _ b b2 seg poly mx bmx z R3 W' Hext) as [G' H'].
  eexists. eapply does_step; [done | done | | exact G' | exact H' |].
  - unfold state. cbn [c_out c_seg c_poly c_max c_bytes c_end]. rewrite (opens_br_table f0 cs' rest seg b poly mx bmx z L ts0 Hb Hc HL p q ls d Hf Hall).
    erewrite bind_done; [reflexivity |]. unfold br_table_to. cbv zeta.
    erewrite bind_done; [| eapply underflow_St; [exact Hb | exact Hc | cbn [length]; rewrite length_app, length_rev; lia]].
    rewrite (bind_done _ _ _ _ _ (try_pop_St _ _ _ _ Hb _ _ _ _ _ _)), (compat_head _ _ _ _ Hc), require_true, bind_get.
    rewrite (operands_match_St _ _ _ _ Hb _ _ _ _ _ _ _ _ Hc1), require_true. cbn [operand_stack St].
    rewrite <- sm_bind_assoc, (bind_done _ _ _ _ _ E1), (bind_done _ _ _ _ _ E2). by apply make_unreachable_St.
  - intros Hp gf limit readable (Hx & _) es k ts2 _. cbn in Hp. unfold TranslatorCorrect.laid_from. cbn [c_ghost app].
    assert (here g1 = here g) as Hh by (unfold here; by rewrite H2).
    pose proof (main_code_at _ _ _ Hx) as Hat. apply code_at_one in Hat. fold (here g1) in Hat. rewrite Hh in Hat.
    eapply laid_br_table; [exact Hat |].
    assert (ext g1 gf) as Hx1 by (etrans; [apply ext_push_code | exact Hx]).
    specialize (H6 Hp gf Hx1). change [resolve gf id] with (resolve gf <$> [id]). rewrite <- fmap_app. apply Forall2_fmap_r. exact H6.
Qed.
End Jumps.
