(* ===== verification/TranslatorFunction.v ===== *)
(** * The translation of blocks and functions

    Entering and leaving the frames of [block], [loop] and [if], and the labels that are placed
    there; then every sequence of instructions, by induction on its size. A typed body is
    translated without an error, and the code that is stored is the layout of the body in the
    sense of [FlatLayout], with the label addresses patched in. *)

From stdpp Require Import base list numbers.
From Stdlib Require Import ZArith Lia.
From S2P Require Import Prelude Leb128 WasmTypes ValidationError WasmSpec Fetch IeeeBits NumericOps Interpreter FlatWasm FlatTyping.
From S2P Require Import InterpreterRep WasmExec FlatLayout TranslatorState Translator TranslatorRep TranslatorPlain.
From S2P Require Import TranslatorCorrect TranslatorJumps.
Open Scope Z_scope.

(** ** Labels without a place *)

Section Labels.
Context (pss : list Z).
#[local] Notation wf_with := (wf_with pss).

Lemma placed_mono g g' F : (length (g_labels g) <= length (g_labels g'))%nat ->
  Forall (fun i => Forall (fun l => (l < length (g_labels g))%nat) (targets i) /\ instr_ok pss i) F ->
  Forall (fun i => Forall (fun l => (l < length (g_labels g'))%nat) (targets i) /\ instr_ok pss i) F.
Proof.
  intros Hle H. eapply Forall_impl; [| exact H]. intros i [H1 H2]. split; [| done]. eapply Forall_impl; [| exact H1]. simpl. lia.
Qed.

Lemma new_pending P cs g : wf_with P cs g -> wf_with (length (g_labels g) :: P) cs (push_label (None, false) g).
Proof.
  intros [W1 W2 W3 W4]. split; cbn [g_labels push_label g_code].
  - intros th. apply (placed_mono g (push_label (None, false) g)); [cbn; rewrite length_app; lia | apply W1].
  - intros id th. rewrite lookup_app_Some, W2, list_lookup_singleton_Some. split.
    + intros [[-> H] | (Hle & E & [= <-])]; [by split; [| right] |]. split; [done |]. left. lia.
    + intros [-> [<- | H]]; [right | by left]. split; [lia |]. split; [lia | done].
  - constructor; [| done]. intros H%list_elem_of_In. pose proof (proj2 (W2 _ false) (conj eq_refl H)) as E. apply lookup_lt_Some in E. lia.
  - eapply Forall_impl; [| exact W4]. intros f (id & k & ? & H). exists id, k. split; [done |]. by apply lookup_app_l_Some.
Qed.

Lemma add_frame P f cs g id k :
  wf_with P cs g -> get_branch_target_label_id f = Some id -> g_labels g !! id = Some (k, false) -> wf_with P (f :: cs) g.
Proof. intros [W1 W2 W3 W4] H1 H2. split; [done.. |]. constructor; [by exists id, k | done]. Qed.

Lemma remove_frame P f cs g : wf_with P (f :: cs) g -> wf_with P cs g.
Proof. intros [W1 W2 W3 W4]. split; [done.. |]. by inversion W4. Qed.

Lemma set_pending P cs g id k : wf_with (id :: P) cs g -> wf_with P cs (set_label id (Some k, false) g).
Proof.
  intros [W1 W2 W3 W4]. assert (g_labels g !! id = Some (None, false)) as Hid by (apply W2; split; [done | by left]).
  pose proof (lookup_lt_Some _ _ _ Hid) as Hlt. apply list.NoDup_cons in W3 as [Hn W3]. split; cbn [g_labels set_label g_code].
  - intros th. apply (placed_mono g (set_label id (Some k, false) g)); [cbn; by rewrite length_insert | apply W1].
  - intros id' th. destruct (decide (id = id')) as [<- | Hne].
    + rewrite list_lookup_insert_eq by done. split; [done |]. intros [_ H]. by apply list_elem_of_In in H.
    + rewrite list_lookup_insert_ne by done. rewrite W2. simpl. naive_solver.
  - done.
  - eapply Forall_impl; [| exact W4]. intros f (id' & k' & ? & H). destruct (decide (id = id')) as [<- | Hne].
    + exists id, (Some k). split; [done |]. by apply list_lookup_insert_eq.
    + exists id', k'. split; [done |]. by rewrite list_lookup_insert_ne.
Qed.

Lemma swap_pending a b P cs g : wf_with (a :: b :: P) cs g -> wf_with (b :: a :: P) cs g.
Proof.
  intros [W1 W2 W3 W4]. split; [done | | | done].
  - intros id th. rewrite W2. simpl. tauto.
  - apply list.NoDup_cons in W3 as [H1 H2]. apply list.NoDup_cons in H2 as [H2 H3]. rewrite not_elem_of_cons in H1. destruct H1.
    constructor; [rewrite not_elem_of_cons; by split |]. by constructor.
Qed.

Lemma pending_label P cs g id : wf_with P cs g -> In id P -> g_labels g !! id = Some (None, false).
Proof. intros [_ W _ _] H. by apply W. Qed.
End Labels.

(** ** Frames *)

Lemma bind_three {S E A} (m1 m2 m3 : SM S E unit) (k : SM S E A) s : (m1;; m2;; m3;; k) s = ((m1;; (m2;; m3));; k) s.
Proof. unfold mbind, sm_bind. destruct (m1 s) as [[? s1] | | |]; try done. by destruct (m2 s1) as [[? s2] | | |]. Qed.

Section Frames.
Context (env : tenv) (I : instance) (gt : list value_type) (pss : list Z) (C : context).
Context (grow : bool) (Hfits : env_fits env I gt pss grow C).
#[local] Notation lt := (local_types env).
#[local] Notation rt := (rev (results env)).
#[local] Notation rep := (rep lt gt).
#[local] Notation wf_with := (wf_with pss).
#[local] Notation wf := (wf pss).
#[local] Notation good := (good env gt pss).
#[local] Notation does := (does env I gt pss).

(** The operands of a frame at its end. *)
Lemma check_results_St e p b f cs seg rest poly mx bmx z :
  operand_stack_base f = length rest -> compat poly seg (rev (result f)) ->
  check_results e f (St p b cs (seg ++ rest) poly mx bmx z) = Done (tt, St p b cs (seg ++ rest) poly mx bmx z).
Proof using.
  intros Hb Hc. unfold check_results. rewrite bind_get. cbv zeta. cbn [operand_stack is_polymorphic St]. rewrite Hb, length_app, Nat.add_sub.
  pose proof (compat_length _ _ _ Hc) as [H1 H2]. rewrite length_rev in *.
  assert ((if negb poly then (length seg =? length (result f))%nat else (length seg <=? length (result f))%nat) = true) as ->.
  { destruct poly; simpl; [by apply Nat.leb_le | apply Nat.eqb_eq; auto]. }
  rewrite require_true, take_app_length. rewrite <- (firstn_all seg) at 1. by rewrite (zip_matches _ _ _ Hc).
Qed.

(** Placing a label here. *)
Lemma place_St p b cs os poly mx bmx z id P fs g :
  rep g none_open b -> wf_with (id :: P) fs g ->
  exists b', set_label_offset_here (Some id) (St p b cs os poly mx bmx z) = Done (tt, St p b' cs os poly mx bmx z) /\
    rep (set_label id (Some (here g), false) g) none_open b'.
Proof using.
  intros R W. pose proof (pending_label _ _ _ _ _ W (or_introl eq_refl)) as Hid.
  destruct (emit_St env gt p b cs os poly mx bmx z _ tt g none_open _ none_open (emits_set_label env gt os false id g none_open Hid eq_refl) R) as (b' & E & R').
  by exists b'.
Qed.

(** The labels of a frame at its end. *)
Lemma close_labels p b f fs cs os poly mx bmx z g id :
  rep g none_open b -> wf_with (pendings (f :: cs)) fs g -> end_label_id f = Some id ->
  exists b' g', (set_label_offset_here (end_label_id f);;
      (if bool_decide (blk_type f = block_type.if_) then set_label_offset_here (else_label_id f) else mret tt))
      (St p b fs os poly mx bmx z) = Done (tt, St p b' fs os poly mx bmx z) /\
    rep g' none_open b' /\ ext g g' /\ g_code g' = g_code g /\ wf_with (pendings cs) fs g' /\
    forall l, In l (pending f) -> g_labels g' !! l = Some (Some (here g), false).
Proof using.
  intros R W Hid. unfold pendings in W. rewrite fmap_cons in W. cbn [concat] in W. unfold pending in W |- *. rewrite Hid in *. cbn [option_list app] in *.
  pose proof (pending_label _ _ _ _ _ W (or_introl eq_refl)) as Hl.
  destruct (place_St p b fs os poly mx bmx z id _ _ g R W) as (b1 & E1 & R1). pose proof (set_pending _ _ _ _ _ (here g) W) as W1.
  pose proof (ext_set_label _ (Some (here g)) _ _ Hl) as X1. rewrite (bind_done _ _ _ _ _ E1).
  set (g1 := set_label id (Some (here g), false) g) in *.
  assert (g_labels g1 !! id = Some (Some (here g), false)) as Hl1 by (apply list_lookup_insert_eq; by eapply lookup_lt_Some).
  assert (forall l, In l [id] -> g_labels g1 !! l = Some (Some (here g), false)) as Hone by (by intros l [<- | []]).
  case_bool_decide as Hif; [| by exists b1, g1].
  destruct (else_label_id f) as [el |]; [| by exists b1, g1]. cbn [option_list app] in *.
  pose proof (pending_label _ _ _ _ _ W1 (or_introl eq_refl)) as Hl2.
  destruct (place_St p b1 fs os poly mx bmx z el _ _ g1 R1 W1) as (b2 & E2 & R2). pose proof (set_pending _ _ _ _ _ (here g1) W1) as W2.
  pose proof (ext_set_label _ (Some (here g1)) _ _ Hl2) as X2.
  eexists b2, _. split_and!; [exact E2 | exact R2 | by etrans | done | exact W2 |]. intros l [<- | [<- | []]].
  - by apply (ext_placed _ _ _ _ _ X2).
  - apply list_lookup_insert_eq. by eapply lookup_lt_Some.
Qed.

(** The [end] of a block. *)
Lemma end_run p q f cs rest0 rest c id :
  Fetch.fetch (TranslatorState.code env) p = Some (TEnd, q) -> blk_type f <> block_type.function ->
  (blk_type f = block_type.if_ -> result f = []) -> end_label_id f = Some id ->
  operand_stack_base f = length (rest0 ++ rest) -> good (f :: cs) c (rev (result f)) ->
  exists c', runs env (state (f :: cs) (rest0 ++ rest) p c) (state cs rest q c') /\
    c_seg c' = knowns (rev (result f)) ++ rest0 /\ c_poly c' = polymorphic_base f /\ c_end c' = c_end c /\ c_bytes c <= c_bytes c' /\
    rep (c_ghost c') none_open (c_out c') /\ wf cs (c_ghost c') /\ ext (c_ghost c) (c_ghost c') /\ g_code (c_ghost c') = g_code (c_ghost c) /\
    forall l, In l (pending f) -> g_labels (c_ghost c') !! l = Some (Some (here (c_ghost c)), false).
Proof using Hfits.
  intros Hf Hfun Hif Hid Hb [R W Hc]. destruct c as [g b seg poly mx bmx z]. cbn [c_ghost c_out c_seg c_poly c_bytes c_end] in *.
  destruct (close_labels q b f (f :: cs) cs (seg ++ rest0 ++ rest) poly mx bmx z g id R W Hid) as (b1 & g1 & E1 & R1 & X1 & Hcode & W1 & Hl).
  destruct (push_types_St q (f :: cs) (result f) b1 (rest0 ++ rest) poly mx bmx z) as (mx1 & bmx1 & E2 & Hle).
  exists (Cfg g1 b1 (knowns (rev (result f)) ++ rest0) (polymorphic_base f) mx1 bmx1 z).
  split_and!; [| done | done | done | done | done | by eapply remove_frame | done | done | done].
  apply runs_one; [| cbn; apply fetch_progress in Hf; [lia | apply Hfits]].
    rewrite (opcode_token env (fits_code _ _ _ _ _ _ Hfits) q (state (f :: cs) (rest0 ++ rest) p (Cfg g b seg poly mx bmx z)) TEnd Hf) by done.
    change (set_code_curr q (state (f :: cs) (rest0 ++ rest) p (Cfg g b seg poly mx bmx z))) with (St q b (f :: cs) (seg ++ rest0 ++ rest) poly mx bmx z).
    unfold token_case, case_end. rewrite bind_get. cbn [control_flow_stack St].
    assert (negb (bool_decide (blk_type f = block_type.if_)) || (length (result f) =? 0)%nat = true) as ->.
    { case_bool_decide as Hi; [| done]. by rewrite (Hif Hi). }
    rewrite require_true, (bind_done _ _ _ _ _ (check_results_St _ _ _ _ _ _ _ _ _ _ _ Hb Hc)).
    rewrite <- sm_bind_assoc, (bind_done _ _ _ _ _ E1), Hb, (bind_done _ _ _ _ _ (truncate_St _ _ _ _ _ _ _ _ _)), (bind_done _ _ _ _ _ E2), !bind_modify.
    rewrite bool_decide_false by done. unfold state. cbn [c_out c_seg c_poly c_max c_bytes c_end]. by rewrite <- app_assoc.
Qed.

(** ** Blocks *)

Lemma targets_enter gf cs rest0 rest : shape env cs rest -> target_of gf (rest0 ++ rest) <$> cs = target_of gf rest <$> cs.
Proof using.
  intros [H _ _]. apply list_fmap_ext. intros j f Hf. destruct (Forall_lookup_1 _ _ _ _ H Hf) as [_ Hb]. unfold target_of. f_equal. f_equal.
  rewrite length_app. rewrite drop_app_ge by lia. f_equal. lia.
Qed.

Lemma enter_targets gf f cs rest0 rest :
  shape env cs rest -> operand_stack_base f = length (rest0 ++ rest) ->
  target_of gf (rest0 ++ rest) <$> f :: cs =
  Target (resolve gf (default 0%nat (get_branch_target_label_id f))) (rev (label f)) (otype <$> (rest0 ++ rest)) :: (target_of gf rest <$> cs).
Proof using. intros Hsh Hb. rewrite fmap_cons, (targets_enter _ _ _ _ Hsh). unfold target_of at 1. by rewrite Hb, Nat.sub_diag, drop_0. Qed.

Lemma shape_enter f cs rest0 rest :
  shape env cs rest -> (length (label f) <= 1)%nat -> operand_stack_base f = length (rest0 ++ rest) -> shape env (f :: cs) (rest0 ++ rest).
Proof using.
  intros [H1 (f0 & cs' & -> & Hb0) (fl & Hl & Hr & Hz)] Hlab Hb. split.
  - constructor; [split; [done | lia] |]. eapply Forall_impl; [| exact H1]. intros f' [? ?]. split; [done |]. rewrite length_app. lia.
  - by exists f, (f0 :: cs').
  - exists fl. split; [| done]. replace (length (f0 :: cs') - 1)%nat with (length cs') in Hl by (simpl; lia). exact Hl.
Qed.

Lemma fetch_arity p tok q r : Fetch.fetch (TranslatorState.code env) p = Some (tok, q) -> tok = TBlock r \/ tok = TLoop r \/ tok = TIf r ->
  (length r <= 1)%nat.
Proof using Hfits.
  intros Hf Htok. apply fetch_iff in Hf as (bs & Ht & _); [| apply Hfits].
  assert (exists b, blocktype b = Some r) as (b & Hb) by (destruct Htok as [-> | [-> | ->]]; inversion Ht; subst; eauto).
  unfold blocktype in Hb. repeat case_match; simplify_eq; simpl; lia.
Qed.

(** What is promised about the body of a block whose label has the types [L]. *)
Definition body_does (cs : list block_t) (L r : list value_type) (body : list WasmSpec.instr) (p q : nat) : Prop :=
  forall f rest c, label f = L -> shape env (f :: cs) rest -> good (f :: cs) c [] ->
    exists c', does (f :: cs) rest p [] body q (rev r) c c'.

(** The code of a body in the final program. *)
Lemma does_laid cs rest p ts es q ts' c c' gf limit readable :
  does cs rest p ts es q ts' c c' -> c_poly c = false -> final env gf limit readable c' ->
  laid I lt gt rt (length pss) (program gf) readable limit (target_of gf rest <$> cs) (otype <$> rest) (here (c_ghost c)) ts es (here (c_ghost c')) ts'.
Proof using.
  intros [_ _ _ T] Hp Hf. specialize (T Hp gf limit readable Hf [] (here (c_ghost c')) ts'). rewrite app_nil_r in T. apply T. intros _. constructor.
Qed.

Lemma enter_run p b cs os poly mx bmx z type res sl el elb :
  enter_control_frame type res sl el elb (St p b cs os poly mx bmx z) =
    Done (tt, St p b (Block (if bool_decide (type = block_type.loop) then [] else res) res (length os) type poly sl el elb :: cs) os false mx bmx z).
Proof using. done. Qed.

(** An iteration on a token that enters or closes blocks. *)
Lemma runs_token p q b b' cs cs' os os' poly poly' mx bmx z mx' bmx' z' tok (m : M unit) :
  Fetch.fetch (TranslatorState.code env) p = Some (tok, q) ->
  translate_one_opcode env (St p b cs os poly mx bmx z) = (m;; mret None) (St q b cs os poly mx bmx z) ->
  m (St q b cs os poly mx bmx z) = Done (tt, St q b' cs' os' poly' mx' bmx' z') ->
  runs env (St p b cs os poly mx bmx z) (St q b' cs' os' poly' mx' bmx' z').
Proof using Hfits.
  intros Hf E1 E2. apply runs_one; [by rewrite E1, (bind_done _ _ _ _ _ E2) |]. apply fetch_progress in Hf; [cbn; lia | apply Hfits].
Qed.

Lemma opcode_run_token p q b cs os poly mx bmx z tok :
  Fetch.fetch (TranslatorState.code env) p = Some (tok, q) -> (forall e, tok <> TPlain e) ->
  translate_one_opcode env (St p b cs os poly mx bmx z) = token_case env tok (St q b cs os poly mx bmx z).
Proof using Hfits. intros Hf Htok. exact (opcode_token env (fits_code _ _ _ _ _ _ Hfits) q (St p b cs os poly mx bmx z) tok Hf Htok). Qed.

Lemma does_block cs rest p r p1 body p2 q ts c :
  shape env cs rest -> good cs c ts -> Fetch.fetch (TranslatorState.code env) p = Some (TBlock r, p1) -> body_does cs r r body p1 p2 ->
  Fetch.fetch (TranslatorState.code env) p2 = Some (TEnd, q) ->
  exists c', does cs rest p ts [IBlock r body] q (rev r ++ ts) c c'.
Proof using Hfits.
  intros Hsh [R W Hc] Hf Hbody Hend. destruct c as [g b seg poly mx bmx z]. cbn [c_ghost c_out c_seg c_poly] in *.
  pose proof (fetch_arity _ _ _ _ Hf (or_introl eq_refl)) as Hr.
  destruct (emit_St env gt p1 b cs (seg ++ rest) poly mx bmx z _ _ g none_open _ none_open (emits_new_label env gt _ false g none_open) R) as (b1 & E1 & R1).
  set (id := length (g_labels g)) in *. set (g1 := push_label (None, false) g) in *.
  set (f := Block r r (length (seg ++ rest)) block_type.block poly None (Some id) None).
  assert (g_labels g1 !! id = Some (None, false)) as Hid by (cbn; by rewrite lookup_app_r, Nat.sub_diag by lia).
  assert (wf (f :: cs) g1) as W1 by (eapply add_frame; [by apply new_pending | done | exact Hid]).
  set (c1 := Cfg g1 b1 [] false mx bmx z).
  destruct (Hbody f (seg ++ rest) c1 eq_refl) as (c2 & D); [by apply shape_enter | by split; [| | left] |].
  pose proof D as [D1 D2 [D3 D4 D5 D6] _].
  destruct (end_run p2 q f cs seg rest c2 id Hend ltac:(done) ltac:(done) eq_refl eq_refl D2) as (c3 & E3 & S3 & P3 & Z3 & B3 & R3 & W3 & X3 & C3 & L3).
  assert (here (c_ghost c3) = here (c_ghost c2)) as Hh by (unfold here; by rewrite C3).
  exists c3. split.
  - etrans; [| etrans; [exact D1 | exact E3]]. eapply runs_token; [exact Hf | by rewrite (opcode_run_token _ _ _ _ _ _ _ _ _ _ Hf) |].
    unfold begin_block. rewrite (bind_done _ _ _ _ _ E1). apply enter_run.
  - split; [done | done |]. rewrite P3, S3. cbn. apply compat_app; [apply compat_knowns | unfold knowns; by rewrite length_fmap | done].
  - split; cbn in *; [etrans; [apply (ext_push_label (None, false)) |]; by etrans | lia | rewrite Z3; lia | by rewrite P3].
  - intros Hp gf limit readable Hfin es k ts2 Hk. cbn in Hp. subst poly. specialize (Hk ltac:(by rewrite P3)).
    assert (final env gf limit readable c2) as Hfin2.
    { destruct Hfin as (F1 & F2 & F3). split_and!; [by etrans | lia | by rewrite <- Z3]. }
    pose proof (does_laid _ _ _ _ _ _ _ _ _ gf limit readable D eq_refl Hfin2) as Hl.
    assert (resolve gf id = here (c_ghost c2)) as Hres by (eapply resolve_main; [apply Hfin | apply L3; by left]).
    rewrite (enter_targets _ f _ _ _ Hsh eq_refl), (compat_types _ _ _ rest Hc eq_refl) in Hl. change (resolve gf _) with (resolve gf id) in Hl. rewrite Hres in Hl.
    eapply laid_block; [exact Hl |].
    unfold TranslatorCorrect.laid_from in Hk. by rewrite Hh in Hk.
Qed.

Lemma does_loop cs rest p r p1 body p2 q ts c :
  shape env cs rest -> good cs c ts -> Fetch.fetch (TranslatorState.code env) p = Some (TLoop r, p1) -> body_does cs [] r body p1 p2 ->
  Fetch.fetch (TranslatorState.code env) p2 = Some (TEnd, q) ->
  exists c', does cs rest p ts [ILoop r body] q (rev r ++ ts) c c'.
Proof using Hfits.
  intros Hsh [R W Hc] Hf Hbody Hend. destruct c as [g b seg poly mx bmx z]. cbn [c_ghost c_out c_seg c_poly] in *.
  set (n := length (g_labels g)). set (g1 := push_label (Some (here g), false) g). set (g2 := push_label (None, false) g1).
  destruct (emit_St env gt p1 b cs (seg ++ rest) poly mx bmx z _ _ g none_open _ none_open (emits_new_label env gt _ false g none_open) R) as (b0 & E0 & R0).
  pose proof (emits_set_label env gt (seg ++ rest) false n (push_label (None, false) g) none_open
    ltac:(cbn; by rewrite lookup_app_r, Nat.sub_diag by (unfold n; lia)) eq_refl) as He1. unfold n in He1 at 2. rewrite set_last_label in He1.
  destruct (emit_St env gt p1 b0 cs (seg ++ rest) poly mx bmx z _ _ _ none_open _ none_open He1 R0) as (b1 & E1 & R1).
  destruct (emit_St env gt p1 b1 cs (seg ++ rest) poly mx bmx z _ _ g1 none_open _ none_open (emits_new_label env gt _ false g1 none_open) R1) as (b2 & E2 & R2).
  fold g2 in R2. assert (length (g_labels g1) = S n) as Hn by (cbn; rewrite length_app; simpl; unfold n; lia). rewrite Hn in E2.
  set (f := Block [] r (length (seg ++ rest)) block_type.loop poly (Some n) (Some (S n)) None).
  assert (g_labels g1 !! n = Some (Some (here g), false)) as Hid by (cbn; by rewrite lookup_app_r, Nat.sub_diag by (unfold n; lia)).
  assert (g_labels g2 !! n = Some (Some (here g), false)) as Hid2 by (by apply lookup_app_l_Some).
  assert (wf (f :: cs) g2) as W2.
  { eapply add_frame; [| done | exact Hid2]. unfold pendings. cbn. rewrite <- Hn. apply new_pending. by apply wf_push_label. }
  set (c1 := Cfg g2 b2 [] false mx bmx z).
  destruct (Hbody f (seg ++ rest) c1 eq_refl) as (c2 & D); [apply shape_enter; [done | simpl; lia | done] | by split; [| | left] |].
  pose proof D as [D1 D2 [D3 D4 D5 D6] _].
  destruct (end_run p2 q f cs seg rest c2 (S n) Hend ltac:(done) ltac:(done) eq_refl eq_refl D2) as (c3 & E3 & S3 & P3 & Z3 & B3 & R3 & W3 & X3 & C3 & L3).
  assert (here (c_ghost c3) = here (c_ghost c2)) as Hh by (unfold here; by rewrite C3).
  exists c3. split.
  - etrans; [| etrans; [exact D1 | exact E3]]. eapply runs_token; [exact Hf | by rewrite (opcode_run_token _ _ _ _ _ _ _ _ _ _ Hf) |].
    unfold begin_loop. rewrite (bind_done _ _ _ _ _ E0), <- sm_bind_assoc. fold n. rewrite (bind_done _ _ _ _ _ E1), (bind_done _ _ _ _ _ E2). apply enter_run.
  - split; [done | done |]. rewrite P3, S3. cbn. apply compat_app; [apply compat_knowns | unfold knowns; by rewrite length_fmap | done].
  - split; cbn in *; [etrans; [apply (ext_push_label (Some (here g), false)) |]; etrans; [apply (ext_push_label (None, false)) |]; by etrans | lia | rewrite Z3; lia | by rewrite P3].
  - intros Hp gf limit readable Hfin es k ts2 Hk. cbn in Hp. subst poly. specialize (Hk ltac:(by rewrite P3)).
    assert (final env gf limit readable c2) as Hfin2.
    { destruct Hfin as (F1 & F2 & F3). split_and!; [by etrans | lia | by rewrite <- Z3]. }
    pose proof (does_laid _ _ _ _ _ _ _ _ _ gf limit readable D eq_refl Hfin2) as Hl.
    assert (resolve gf n = here g) as Hres by (eapply resolve_main; [| exact Hid2]; etrans; [exact D3 | apply Hfin2]).
    rewrite (enter_targets _ f _ _ _ Hsh eq_refl), (compat_types _ _ _ rest Hc eq_refl) in Hl. change (resolve gf _) with (resolve gf n) in Hl. rewrite Hres in Hl.
    eapply laid_loop; [exact Hl |]. unfold TranslatorCorrect.laid_from in Hk. by rewrite Hh in Hk.
Qed.

(** *** Conditionals *)

(** Entering an [if]: the condition is tested and the code of [else] is skipped to. *)
Definition if_ghost (g : ghost) : ghost :=
  let n := length (g_labels g) in push_code false [Eqz false; BrIf n] (push_label (None, false) (push_label (None, false) g)).
Definition if_frame (r : list value_type) (h : nat) (poly : bool) (g : ghost) : block_t :=
  let n := length (g_labels g) in Block r r h block_type.if_ poly None (Some (S n)) (Some n).

Lemma if_run cs rest p q r ts c :
  shape env cs rest -> good cs c (i32 :: ts) -> Fetch.fetch (TranslatorState.code env) p = Some (TIf r, q) ->
  exists b seg, compat (c_poly c) seg ts /\
    let f := if_frame r (length (seg ++ rest)) (c_poly c) (c_ghost c) in
    let c1 := Cfg (if_ghost (c_ghost c)) b [] false (c_max c) (c_bytes c) (c_end c) in
    shape env (f :: cs) (seg ++ rest) /\ good (f :: cs) c1 [] /\ runs env (state cs rest p c) (state (f :: cs) (seg ++ rest) q c1).
Proof using Hfits.
  intros Hsh [R W Hc] Hf. pose proof (fetch_arity _ _ _ _ Hf (or_intror (or_intror eq_refl))) as Hr.
  pose proof Hsh as [_ (f0 & cs' & -> & Hb) _].
  destruct c as [g b seg poly mx bmx z]. cbn [c_ghost c_out c_seg c_poly c_max c_bytes c_end] in *. set (cs := f0 :: cs') in *.
  pose proof (compat_tail _ _ _ _ Hc) as Hc1.
  destruct (emit_St env gt q b cs (tail seg ++ rest) poly mx bmx z _ _ g none_open _ none_open (emits_new_label env gt _ false g none_open) R) as (b1 & E1 & R1).
  set (g1 := push_label (None, false) g) in *.
  destruct (emit_St env gt q b1 cs (tail seg ++ rest) poly mx bmx z _ _ g1 none_open _ none_open (emits_new_label env gt _ false g1 none_open) R1) as (b2 & E2 & R2).
  set (g2 := push_label (None, false) g1) in *. set (n := length (g_labels g)) in *.
  assert (length (g_labels g1) = S n) as Hn by (cbn; rewrite length_app; simpl; unfold n; lia). rewrite Hn in E2.
  assert (emits env gt (tail seg ++ rest) (emit_opfunc_to false (uwvmint_int_eqz false);; (emit_opfunc_to false uwvmint_br_if;; emit_ptr_label_placeholder n false))
    tt g2 none_open (if_ghost g) none_open) as He.
  { unfold if_ghost. cbv zeta. fold n g1 g2. change [Eqz false; BrIf n] with ([Eqz false] ++ [BrIf n]). rewrite <- push_code_push.
    eapply emits_bind; [by apply (emits_push1 env gt _ (Eqz false)) | by apply emits_jump]. }
  destruct (emit_St env gt q b2 cs (tail seg ++ rest) poly mx bmx z _ _ g2 none_open _ none_open He R2) as (b3 & E3 & R3).
  exists b3, (tail seg). split; [done |]. cbv zeta. split_and!.
  - by apply shape_enter.
  - split; [done | | by left]. apply wf_push_code.
    + eapply (add_frame _ _ _ _ _ (S n)); [| done |].
      * unfold pendings. cbn [fmap list_fmap concat]. unfold pending. cbn [if_frame end_label_id else_label_id blk_type option_list app].
        rewrite bool_decide_true by done. cbn [option_list app]. fold n. rewrite <- Hn. by apply new_pending, new_pending.
      * change (g_labels (push_label (None, false) (push_label (None, false) g))) with (g_labels g1 ++ [(None, false)]). rewrite <- Hn. by rewrite lookup_app_r, Nat.sub_diag by lia.
    + repeat constructor. change (g_labels (push_label (None, false) (push_label (None, false) g))) with (g_labels g1 ++ [(None, false)]). rewrite length_app, Hn. simpl. lia.
  - unfold state. cbn [c_out c_seg c_poly c_max c_bytes c_end]. eapply runs_token; [exact Hf | by rewrite (opcode_run_token _ _ _ _ _ _ _ _ _ _ Hf) |].
    unfold begin_if. erewrite bind_done; [| eapply underflow_St; [exact Hb | exact Hc | simpl; lia]].
    rewrite (bind_done _ _ _ _ _ (try_pop_St _ _ _ _ Hb _ _ _ _ _ _)), (compat_head _ _ _ _ Hc), require_true.
    rewrite (bind_done _ _ _ _ _ E1), (bind_done _ _ _ _ _ E2).
    rewrite bind_three. fold n. rewrite (bind_done _ _ _ _ _ E3), (bind_done _ _ _ _ _ (enter_run _ _ _ _ _ _ _ _ _ _ _ _ _)). done.
Qed.

Lemma if_ext g : ext g (if_ghost g).
Proof using. etrans; [apply (ext_push_label (None, false)) |]. etrans; [apply (ext_push_label (None, false)) |]. apply ext_push_code. Qed.

Lemma if_here g : here (if_ghost g) = S (S (here g)).
Proof using. unfold if_ghost. rewrite here_push. cbn. unfold here. cbn. lia. Qed.

(** The test of the condition in the final program. *)
Lemma if_code g gf : ext (if_ghost g) gf ->
  program gf !! here g = Some (Eqz false) /\ program gf !! S (here g) = Some (BrIf (resolve gf (length (g_labels g)))).
Proof using.
  intros H. pose proof (main_code_at _ _ _ H) as Hc. cbn [fmap list_fmap] in Hc. split.
  - specialize (Hc 0%nat _ eq_refl). by rewrite Nat.add_0_r in Hc.
  - specialize (Hc 1%nat _ eq_refl). by rewrite Nat.add_1_r in Hc.
Qed.

Lemma does_if_only cs rest p p1 body p2 q ts c :
  shape env cs rest -> good cs c (i32 :: ts) -> Fetch.fetch (TranslatorState.code env) p = Some (TIf [], p1) -> body_does cs [] [] body p1 p2 ->
  Fetch.fetch (TranslatorState.code env) p2 = Some (TEnd, q) ->
  exists c', does cs rest p (i32 :: ts) [IIf [] body []] q ts c c'.
Proof using Hfits.
  intros Hsh G Hf Hbody Hend. destruct (if_run _ _ _ _ _ _ _ Hsh G Hf) as (b1 & seg & Hc & Hsh1 & G1 & E1). cbv zeta in *.
  set (f := if_frame [] (length (seg ++ rest)) (c_poly c) (c_ghost c)) in *. set (c1 := Cfg (if_ghost (c_ghost c)) b1 [] false (c_max c) (c_bytes c) (c_end c)) in *.
  destruct (Hbody f (seg ++ rest) c1 eq_refl Hsh1 G1) as (c2 & D). pose proof D as [D1 D2 [D3 D4 D5 D6] _].
  destruct (end_run p2 q f cs seg rest c2 _ Hend ltac:(done) ltac:(done) eq_refl eq_refl D2) as (c3 & E3 & S3 & P3 & Z3 & B3 & R3 & W3 & X3 & C3 & L3).
  assert (here (c_ghost c3) = here (c_ghost c2)) as Hh by (unfold here; by rewrite C3).
  exists c3. split.
  - etrans; [exact E1 |]. by etrans.
  - split; [done | done |]. by rewrite P3, S3.
  - split; cbn in *; [etrans; [apply if_ext |]; by etrans | lia | rewrite Z3; lia | by rewrite P3].
  - intros Hp gf limit readable Hfin es k ts2 Hk. rewrite Hp in Hc. specialize (Hk ltac:(by rewrite P3)).
    assert (final env gf limit readable c2) as Hfin2.
    { destruct Hfin as (F1 & F2 & F3). split_and!; [by etrans | lia | by rewrite <- Z3]. }
    pose proof (does_laid _ _ _ _ _ _ _ _ _ gf limit readable D eq_refl Hfin2) as Hl.
    set (n := length (g_labels (c_ghost c))) in *.
    assert (resolve gf (S n) = here (c_ghost c2)) as Hres1 by (eapply resolve_main; [apply Hfin | apply L3; by left]).
    assert (resolve gf n = here (c_ghost c2)) as Hres2 by (eapply resolve_main; [apply Hfin | apply L3; right; by left]).
    destruct (if_code (c_ghost c) gf) as [I1 I2]; [etrans; [exact D3 | apply Hfin2] |]. fold n in I2. rewrite Hres2 in I2.
    rewrite (enter_targets _ f _ _ _ Hsh eq_refl), (compat_types _ _ _ rest Hc eq_refl) in Hl. change (resolve gf (default _ _)) with (resolve gf (S n)) in Hl.
    rewrite Hres1 in Hl. cbn [c1 c_ghost] in Hl. rewrite if_here in Hl. eapply laid_if_only; [exact I1 | exact I2 | exact Hl |].
    unfold TranslatorCorrect.laid_from in Hk. by rewrite Hh in Hk.
Qed.

(** The [else] of an [if]: a jump over what follows, where the condition leads. *)
Definition else_frame (f : block_t) : block_t :=
  Block (label f) (result f) (operand_stack_base f) block_type.else_ (polymorphic_base f) (start_label_id f) (end_label_id f) (else_label_id f).
Definition else_ghost (end_ el : nat) (g : ghost) : ghost := set_label el (Some (S (here g)), false) (push_code false [Br end_] g).

Lemma else_run cs rest p q f c end_ el :
  shape env (f :: cs) rest -> blk_type f = block_type.if_ -> end_label_id f = Some end_ -> else_label_id f = Some el ->
  good (f :: cs) c (rev (result f)) -> Fetch.fetch (TranslatorState.code env) p = Some (TElse, q) ->
  exists b, let c1 := Cfg (else_ghost end_ el (c_ghost c)) b [] false (c_max c) (c_bytes c) (c_end c) in
    good (else_frame f :: cs) c1 [] /\ runs env (state (f :: cs) rest p c) (state (else_frame f :: cs) rest q c1) /\
    ext (c_ghost c) (c_ghost c1) /\ g_labels (c_ghost c1) !! el = Some (Some (S (here (c_ghost c))), false).
Proof using Hfits.
  intros [_ (f0 & cs' & [= <- <-] & Hb) _] Hblk He Hel [R W Hc] Hf. destruct c as [g b seg poly mx bmx z]. cbn [c_ghost c_out c_seg c_poly c_max c_bytes c_end] in *.
  assert (pending f = [end_; el]) as Hpend by (unfold pending; by rewrite He, Hel, bool_decide_true).
  assert (wf_with (end_ :: el :: pendings cs) (f :: cs) g) as W0 by (unfold TranslatorCorrect.wf, pendings in W; rewrite fmap_cons in W; cbn [concat] in W; by rewrite Hpend in W).
  assert (Forall (placed pss g) [Br end_]) as Hpl.
  { repeat constructor. eapply lookup_lt_Some. apply (pending_label _ _ _ _ _ W0). by left. }
  destruct (emit_St env gt q b (f :: cs) (seg ++ rest) poly mx bmx z _ tt g none_open _ none_open (emits_br env gt _ false end_ g none_open eq_refl) R) as (b1 & E1 & R1).
  set (g1 := push_code false [Br end_] g) in *.
  assert (wf_with (el :: end_ :: pendings cs) (f :: cs) g1) as W1.
  { apply swap_pending. by apply wf_push_code. }
  destruct (place_St q b1 (f :: cs) (seg ++ rest) poly mx bmx z el _ _ g1 R1 W1) as (b2 & E2 & R2).
  assert (here g1 = S (here g)) as Hh by (unfold g1; rewrite here_push; simpl; lia). rewrite Hh in R2.
  assert (g_labels g1 !! el = Some (None, false)) as Hl by (apply (pending_label _ _ _ _ _ W1); by left).
  exists b2. cbv zeta. split_and!.
  - split; [exact R2 | | by left]. unfold TranslatorCorrect.wf, pendings. rewrite fmap_cons. cbn [concat]. unfold pending at 1. cbn [else_frame end_label_id blk_type].
    rewrite He, bool_decide_false by done. cbn [option_list app]. apply (set_pending _ _ _ _ _ (S (here g))) in W1.
    destruct W1 as [V1 V2 V3 V4]. split; [done.. |]. inversion V4 as [| ? ? (id & k & H1 & H2) H3]; subst. constructor; [| done]. exists id, k. split; [| done].
    unfold get_branch_target_label_id in *. cbn. rewrite Hblk in H1. done.
  - eapply runs_token; [exact Hf | by rewrite (opcode_run_token _ _ _ _ _ _ _ _ _ _ Hf) |]. unfold case_else. rewrite bind_get. cbn [control_flow_stack St].
    cbn [c_seg c_out c_poly c_max c_bytes c_end]. rewrite Hblk, bool_decide_true, require_true by done.
    rewrite (bind_done _ _ _ _ _ (check_results_St _ _ _ _ _ _ _ _ _ _ _ Hb Hc)), He, bind_some, (bind_done _ _ _ _ _ E1), Hel, bind_some.
    unfold set_label_offset_here in E2. rewrite <- sm_bind_assoc, (bind_done _ _ _ _ _ E2), Hb, (bind_done _ _ _ _ _ (truncate_St _ _ _ _ _ _ _ _ _)), bind_modify.
    unfold sm_modify. unfold else_frame. by rewrite He, Hel, Hb.
  - cbn. etrans; [apply (ext_push_code false [Br end_]) | by apply ext_set_label].
  - cbn. apply list_lookup_insert_eq. by eapply lookup_lt_Some in Hl.
Qed.

Lemma shape_else f cs rest : shape env (f :: cs) rest -> result f = label f -> shape env (else_frame f :: cs) rest.
Proof using.
  intros [H1 (f0 & cs' & [= <- <-] & Hb) (fl & Hl & Hr & Hz)] Hres. split.
  - inversion H1; subst. by constructor.
  - by exists (else_frame f), cs.
  - destruct cs as [| f1 cs]; [injection Hl as <-; by exists (else_frame f) | exists fl]. by split.
Qed.

Lemma does_if_else cs rest p r p1 body1 p2 p3 body2 p4 q ts c :
  shape env cs rest -> good cs c (i32 :: ts) -> Fetch.fetch (TranslatorState.code env) p = Some (TIf r, p1) -> body_does cs r r body1 p1 p2 ->
  Fetch.fetch (TranslatorState.code env) p2 = Some (TElse, p3) -> body_does cs r r body2 p3 p4 ->
  Fetch.fetch (TranslatorState.code env) p4 = Some (TEnd, q) ->
  exists c', does cs rest p (i32 :: ts) [IIf r body1 body2] q (rev r ++ ts) c c'.
Proof using Hfits.
  intros Hsh G Hf Hbody1 Helse Hbody2 Hend. destruct (if_run _ _ _ _ _ _ _ Hsh G Hf) as (b1 & seg & Hc & Hsh1 & G1 & E1). cbv zeta in *.
  set (n := length (g_labels (c_ghost c))).
  set (f := if_frame r (length (seg ++ rest)) (c_poly c) (c_ghost c)) in *. set (c1 := Cfg (if_ghost (c_ghost c)) b1 [] false (c_max c) (c_bytes c) (c_end c)) in *.
  destruct (Hbody1 f (seg ++ rest) c1 eq_refl Hsh1 G1) as (c2 & D). pose proof D as [D1 D2 [D3 D4 D5 D6] _].
  destruct (else_run cs (seg ++ rest) p2 p3 f c2 (S n) n Hsh1 eq_refl eq_refl eq_refl D2 Helse) as (b2 & G3 & E3 & X3 & L3). cbv zeta in *.
  set (c3 := Cfg (else_ghost (S n) n (c_ghost c2)) b2 [] false (c_max c2) (c_bytes c2) (c_end c2)) in *.
  destruct (Hbody2 (else_frame f) (seg ++ rest) c3 eq_refl (shape_else _ _ _ Hsh1 eq_refl) G3) as (c4 & D'). pose proof D' as [D1' D2' [D3' D4' D5' D6'] _].
  destruct (end_run p4 q (else_frame f) cs seg rest c4 (S n) Hend ltac:(done) ltac:(done) eq_refl eq_refl D2') as (c5 & E5 & S5 & P5 & Z5 & B5 & R5 & W5 & X5 & C5 & L5).
  assert (here (c_ghost c5) = here (c_ghost c4)) as Hh by (unfold here; by rewrite C5).
  cbn [c1 c3 c_bytes c_end] in *.
  exists c5. split.
  - etrans; [exact E1 |]. etrans; [exact D1 |]. etrans; [exact E3 |]. by etrans.
  - split; [done | done |]. rewrite P5, S5. cbn. apply compat_app; [apply compat_knowns | unfold knowns; by rewrite length_fmap | done].
  - split; [etrans; [apply if_ext |]; etrans; [exact D3 |]; etrans; [exact X3 |]; by etrans | lia | rewrite Z5; lia | by rewrite P5].
  - intros Hp gf limit readable Hfin es k ts2 Hk. rewrite Hp in Hc. specialize (Hk ltac:(by rewrite P5)).
    assert (final env gf limit readable c4) as Hfin4.
    { destruct Hfin as (F1 & F2 & F3). split_and!; [by etrans | lia | by rewrite <- Z5]. }
    assert (final env gf limit readable c2) as Hfin2.
    { destruct Hfin4 as (F1 & F2 & F3). split_and!; [etrans; [exact X3 |]; by etrans | lia |]. intros x t Hx Hle. eapply F3; [exact Hx | lia]. }
    pose proof (does_laid _ _ _ _ _ _ _ _ _ gf limit readable D eq_refl Hfin2) as Hl.
    pose proof (does_laid _ _ _ _ _ _ _ _ _ gf limit readable D' eq_refl Hfin4) as Hl'.
    assert (resolve gf (S n) = here (c_ghost c4)) as Hres1 by (eapply resolve_main; [apply Hfin | apply L5; by left]).
    assert (ext (c_ghost c3) gf) as X3f by (etrans; [exact D3' | apply Hfin4]).
    assert (resolve gf n = S (here (c_ghost c2))) as Hres2 by (eapply resolve_main; [exact X3f | exact L3]).
    destruct (if_code (c_ghost c) gf) as [I1 I2]; [etrans; [exact D3 | apply Hfin2] |]. fold n in I2. rewrite Hres2 in I2.
    assert (program gf !! here (c_ghost c2) = Some (Br (here (c_ghost c4)))) as I3.
    { rewrite <- Hres1. eapply (main_at _ _ _ (Br (S n)) X3f). cbn. by apply list_lookup_middle. }
    assert (here (c_ghost c3) = S (here (c_ghost c2))) as Hh3 by (unfold here; cbn; rewrite length_app; simpl; lia).
    rewrite (enter_targets _ f _ _ _ Hsh eq_refl), (compat_types _ _ _ rest Hc eq_refl) in Hl. change (resolve gf (default _ _)) with (resolve gf (S n)) in Hl.
    rewrite (enter_targets _ (else_frame f) _ _ _ Hsh eq_refl), (compat_types _ _ _ rest Hc eq_refl) in Hl'. change (resolve gf (default _ _)) with (resolve gf (S n)) in Hl'.
    rewrite Hres1 in Hl, Hl'. cbn [c1 c_ghost] in Hl. rewrite if_here in Hl. rewrite Hh3 in Hl'.
    eapply laid_if; [exact I1 | exact I2 | exact I3 | exact Hl | exact Hl' |]. unfold TranslatorCorrect.laid_from in Hk. by rewrite Hh in Hk.
Qed.

(** ** Sequences *)

(** The context of the instructions inside the frames. *)
Definition ctx (cs : list block_t) : context :=
  Context_ (tc_types C) (tc_funcs C) (tc_tables C) (tc_mems C) (tc_globals C) (tc_locals C) (label <$> cs) (tc_return C).

Lemma fits_ctx cs : env_fits env I gt pss grow (ctx cs).
Proof using Hfits. destruct Hfits. by constructor. Qed.

Lemma ctx_label cs l L : tc_labels (ctx cs) !! l = Some L -> exists f, cs !! l = Some f /\ label f = L.
Proof using. cbn. rewrite list_lookup_fmap. intros H. apply fmap_Some in H as (f & ? & ->). by exists f. Qed.

Lemma block_size' r body es : code_size (IBlock r body :: es) = (S (S (code_size body)) + code_size es)%nat.
Proof using. done. Qed.
Lemma loop_size' r body es : code_size (ILoop r body :: es) = (S (S (code_size body)) + code_size es)%nat.
Proof using. done. Qed.
Lemma if_size r body1 body2 es : code_size (IIf r body1 body2 :: es) = (S (S (code_size body1 + code_size body2)) + code_size es)%nat.
Proof using. done. Qed.

(** An instruction without a block that is not a constant. *)
Lemma does_instr cs rest p e q ins outs ts c :
  shape env cs rest -> good cs c (ins ++ ts) -> Fetch.fetch (TranslatorState.code env) p = Some (TPlain e, q) ->
  plain_typing (ctx cs) e ins outs -> plain_covered grow e = true -> is_const e = false ->
  exists c', does cs rest p (ins ++ ts) [e] q (outs ++ ts) c c'.
Proof using Hfits.
  intros Hsh G Hf Hty Hcov Hconst. destruct (is_special e) eqn:Hsp.
  - destruct Hty; try done.
    + by eapply does_unreachable.
    + exists c. by eapply does_nop.
    + apply ctx_label in H as (f & Hl & <-). rewrite <- app_assoc in *. by eapply does_br.
    + apply ctx_label in H as (f & Hl & <-). by eapply does_br_if.
    + match goal with |- context [(i32 :: rev ?L ++ ?ts1) ++ ts] => change ((i32 :: rev L ++ ts1) ++ ts) with (i32 :: (rev L ++ ts1) ++ ts) in * end.
      rewrite <- app_assoc in *.
      eapply does_br_table; [done.. |]. apply Forall_app_2; [| constructor; [| constructor]].
      * eapply Forall_impl; [| exact H]. intros l. apply ctx_label.
      * by apply ctx_label in H0.
    + rewrite <- app_assoc in *. cbn [tc_return ctx] in *. rewrite (fits_return _ _ _ _ _ _ Hfits) in *. by eapply does_return.
  - destruct (fetch_plain _ (fits_code _ _ _ _ _ _ Hfits) _ _ _ Hf) as (bs & Hbs & _).
    destruct (plain_acts env I gt pss (ctx cs) grow (fits_ctx cs) e bs ins outs Hbs Hty Hcov Hsp) as (m & i & Hm & Ha & Hp).
    eapply does_acts; [exact Hfits | done | done | done | by left | done | exact Hm | reflexivity | exact Ha | exact Hp].
Qed.

Lemma seq_does n : forall es, (code_size es <= n)%nat -> forall cs rest p q ts ts' c,
  shape env cs rest -> good cs c ts -> coded (TranslatorState.code env) p es q -> stops env q -> covered grow es -> instrs_typing (ctx cs) es ts ts' ->
  exists c', does cs rest p ts es q ts' c c'.
Proof using Hfits.
  induction n as [| n IH]; intros es Hn cs rest p q ts ts' c Hsh G Hcoded Hstop Hcov Hty.
  { destruct es as [| e es]; [| exfalso; destruct e; simpl in Hn; lia]. inversion Hcoded; subst. inversion Hty; subst. exists c. by apply does_nil. }
  destruct es as [| e es]; [inversion Hcoded; subst; inversion Hty; subst; exists c; by apply does_nil |].
  assert (forall p1 ts1 c1, does cs rest p ts [e] p1 ts1 c c1 -> coded (TranslatorState.code env) p1 es q -> covered grow es -> instrs_typing (ctx cs) es ts1 ts' ->
    (code_size es <= n)%nat -> exists c', does cs rest p ts (e :: es) q ts' c c') as Hnext.
  { intros p1 ts1 c1 D Hc1 Hcov1 Hty1 Hn1. destruct (IH es Hn1 cs rest p1 q ts1 ts' c1 Hsh (does_good _ _ _ _ _ _ _ _ _ _ _ _ _ D) Hc1 Hstop Hcov1 Hty1) as (c' & D').
    exists c'. by apply (does_app env I gt pss cs rest p ts [e] p1 ts1 es q ts' c c1). }
  assert (forall L r body p1 p2, (code_size body <= n)%nat -> coded (TranslatorState.code env) p1 body p2 -> stops env p2 -> covered grow body ->
    instrs_typing (with_label L (ctx cs)) body [] (rev r) -> body_does cs L r body p1 p2) as Hbody_does.
  { intros L r body p1 p2 H1 H2 H3 H4 H5 f rest' c' <- Hsh' G'. by eapply IH. }
  inversion Hty as [| ? ? ? ts1 ts2 ts0 ? Hi Hrest]; subst.
  inversion Hcoded as [| ? ? p1 ? ? Hf Hc | ? r p1 body p2 p3 ? ? Hf Hb He Hc | ? r p1 body p2 p3 ? ? Hf Hb He Hc
    | ? r p1 body p2 p3 ? ? Hf Hb He Hc | ? r p1 body1 p2 p3 body2 p4 p5 ? ? Hf Hb1 Hel Hb2 He Hc]; subst.
  - destruct (fetch_plain _ (fits_code _ _ _ _ _ _ Hfits) _ _ _ Hf) as (bs & Hbs & _).
    inversion Hi as [? ? ? ? Hp | | |]; subst; [| by inversion Hbs..].
    assert (plain_covered grow e = true /\ covered grow es) as [Hpc Hcov'] by (inversion Hcov; subst; done || by inversion Hbs).
    assert (code_size es <= n)%nat as Hn' by (destruct e; simpl in *; lia).
    destruct (is_const e) eqn:Hconst.
    + apply typing_const in Hty as (t & Hpt & Ht); [| done].
      destruct (does_const env I gt pss (ctx cs) grow (fits_ctx cs) cs rest p _ t e p1 es q c Hsh G Hf Hconst Hpt Hc Hstop)
        as [(c1 & D) | (consts & es' & d & Hcs & Heq & Hlen & Hc' & D)]; [by eapply Hnext |].
      rewrite Heq in *. assert (code_size es' <= n)%nat as Hn2.
      { rewrite !code_size_app in Hn. destruct consts as [| e0 consts]; [simpl in Hlen; lia |]. simpl in Hn. destruct e0; simpl in Hn; lia. }
      destruct (IH es' Hn2 cs rest d q (ts1 ++ ts0) ts' c Hsh G Hc' Hstop) as (c' & D').
      * by apply covered_app, covered_app in Hcov.
      * apply (typing_elided _ consts); [done |]. rewrite <- Heq. econstructor; [exact Hi | exact Hrest].
      * exists c'. rewrite app_assoc. by eapply does_app.
    + destruct (does_instr cs rest p e p1 ts1 ts2 ts0 c Hsh G Hf Hp Hpc Hconst) as (c1 & D). by eapply Hnext.
  - inversion Hi as [? ? ? ? Hp | ? ? ? Hbody | |]; subst; [by inversion Hp |].
    inversion Hcov as [| ? ? ? Hcb Hcr | | |]; subst; [| done]. rewrite block_size' in Hn.
    destruct (does_block cs rest p r p1 body p2 p3 ts0 c Hsh G Hf) as (c1 & D); [| done |].
    + eapply Hbody_does; [lia | exact Hb | by eexists _, _; split; [exact He | left] | done | exact Hbody].
    + eapply Hnext; [exact D | done | done | exact Hrest | lia].
  - inversion Hi as [? ? ? ? Hp | | ? ? ? Hbody |]; subst; [by inversion Hp |].
    inversion Hcov as [| | ? ? ? Hcb Hcr | |]; subst; [| done]. rewrite loop_size' in Hn.
    destruct (does_loop cs rest p r p1 body p2 p3 ts0 c Hsh G Hf) as (c1 & D); [| done |].
    + eapply Hbody_does; [lia | exact Hb | by eexists _, _; split; [exact He | left] | done | exact Hbody].
    + eapply Hnext; [exact D | done | done | exact Hrest | lia].
  - inversion Hi as [? ? ? ? Hp | | | ? ? ? ? Hbody1 Hbody2]; subst; [by inversion Hp |].
    inversion Hcov as [| | | ? ? ? ? Hcb1 Hcb2 Hcr |]; subst; [| done]. rewrite if_size in Hn.
    assert (rev r = []) as E by (by inversion Hbody2). assert (r = []) as -> by (by apply (f_equal length) in E; rewrite length_rev in E; destruct r).
    destruct (does_if_only cs rest p p1 body p2 p3 ts0 c Hsh G Hf) as (c1 & D); [| done |].
    + eapply Hbody_does; [lia | exact Hb | by eexists _, _; split; [exact He | left] | done | exact Hbody1].
    + eapply Hnext; [exact D | done | done | exact Hrest | simpl in Hn; lia].
  - inversion Hi as [? ? ? ? Hp | | | ? ? ? ? Hbody1 Hbody2]; subst; [by inversion Hp |].
    inversion Hcov as [| | | ? ? ? ? Hcb1 Hcb2 Hcr |]; subst; [| done]. rewrite if_size in Hn.
    destruct (does_if_else cs rest p r p1 body1 p2 p3 body2 p4 p5 ts0 c Hsh G Hf) as (c1 & D); [| done | | done |].
    + eapply Hbody_does; [lia | exact Hb1 | by eexists _, _; split; [exact Hel | right] | done | exact Hbody1].
    + eapply Hbody_does; [lia | exact Hb2 | by eexists _, _; split; [exact He | left] | done | exact Hbody2].
    + eapply Hnext; [exact D | done | done | exact Hrest | lia].
Qed.
End Frames.

(** ** Functions *)

Lemma sites_targets lt gt base F s l : In (s, l) (sites lt gt base F) -> exists i, In i F /\ In l (targets i).
Proof.
  revert base. induction F as [| i F IH]; intros base; simpl; [done |]. intros [H | H]%in_app_iff.
  - exists i. split; [by left |]. unfold label_slots in H. rewrite <- list_elem_of_In, elem_of_lookup_imap in H. destruct H as (j & l' & [= -> ->] & H).
    apply list_elem_of_In. by eapply list_elem_of_lookup_2.
  - destruct (IH _ H) as (i' & ? & ?). exists i'. by split; [right |].
Qed.

Lemma retarget_ok pss f i : instr_ok pss i -> instr_ok pss (retarget f i).
Proof. by destruct i. Qed.

Section Function.
Context (env : tenv) (I : instance) (gt : list value_type) (pss : list Z) (C : context).
Context (grow : bool) (Hfits : env_fits env I gt pss grow C) (Hlabels : tc_labels C = [results env]).
#[local] Notation lt := (local_types env).
#[local] Notation rt := (rev (results env)).
#[local] Notation good := (good env gt pss).
#[local] Notation wf_with := (wf_with pss).

(** The frame of the function, and where the translation starts. *)
Definition function_frame : block_t := Block (results env) (results env) 0 block_type.function false None (Some 0%nat) None.
Definition start_ghost : ghost := Ghost (Both [] []) [(None, false)].
Definition start_cfg : cfg :=
  Cfg start_ghost (out (initial_state env)) [] false 0 0 (local_bytes_zeroinit_end (initial_state env)).

Lemma start_state : initial_state env = state [function_frame] [] 0 start_cfg.
Proof using. done. Qed.

Lemma start_good : good [function_frame] start_cfg [].
Proof using.
  split; [| | by left].
  - constructor; [by intros [] | done | by repeat constructor].
  - split.
    + by intros [].
    + intros id th. cbn. destruct id as [| id]; cbn; [| split; [done | intros [_ [E | []]]; discriminate E]].
      split; [intros [= <-]; by split; [| left] | by intros [-> _]].
    + apply NoDup_singleton.
    + repeat constructor. by exists 0%nat, None.
Qed.

Lemma start_shape : shape env [function_frame] [].
Proof using Hfits.
  split.
  - constructor; [split; [exact (fits_results _ _ _ _ _ _ Hfits) | done] | constructor].
  - by exists function_frame, [].
  - by exists function_frame.
Qed.

(** All the labels have places at the end. *)
Lemma all_placed fs g : wf_with [] fs g -> labels_set lt gt g.
Proof using.
  intros [W1 W2 _ _] th s l Hin. apply sites_targets in Hin as (i & Hi & Hl). specialize (W1 th). rewrite List.Forall_forall in W1.
  destruct (W1 i Hi) as [Ht _]. rewrite List.Forall_forall in Ht. specialize (Ht l Hl). cbn in Ht.
  destruct (lookup_lt_is_Some_2 _ _ Ht) as [[[k |] th'] E]; [by exists k, th' |]. by apply W2 in E as [_ []].
Qed.

Lemma program_ok fs g : wf_with [] fs g -> Forall (instr_ok pss) (program g).
Proof using.
  intros [W _ _ _]. unfold program. apply Forall_fmap, Forall_app. split.
  - eapply Forall_impl; [| exact (W false)]. intros i [_ H]. by apply retarget_ok.
  - eapply Forall_impl; [| exact (W true)]. intros i [_ H]. by apply retarget_ok.
Qed.

(** The last [end]. *)
Lemma function_end p c :
  Fetch.fetch (TranslatorState.code env) p = Some (TEnd, length (TranslatorState.code env)) -> good [function_frame] c rt ->
  exists g s f, translate_one_opcode env (state [function_frame] [] p c) = Done (Some f, s) /\
    op_operands f = InterpreterRep.code lt gt (program g) /\ Forall (instr_ok pss) (program g) /\
    ext (c_ghost c) g /\ program g !! here (c_ghost c) = Some Return /\ resolve g 0 = here (c_ghost c) /\
    cf_local_bytes_max f = local_bytes_max env /\
    cf_local_bytes_zeroinit_end f = Z.min (c_end c) (internal_temp_local_off env) /\ c_bytes c <= cf_operand_stack_byte_max f.
Proof using Hfits.
  intros Hf [R W Hc]. destruct c as [g b seg poly mx bmx z]. cbn [c_ghost c_out c_seg c_poly c_bytes c_end] in *.
  set (q := length (TranslatorState.code env)) in *.
  destruct (close_labels env gt pss q b function_frame [function_frame] [] (seg ++ []) poly mx bmx z g 0 R W eq_refl)
    as (b1 & g1 & E1 & R1 & X1 & Hcode & W1 & Hl).
  destruct (push_types_St q [function_frame] (results env) b1 [] poly mx bmx z) as (mx1 & bmx1 & E2 & Hle).
  set (os := knowns (rev (results env)) ++ []) in *.
  destruct (emit_St env gt q b1 [] os false mx1 bmx1 z _ tt g1 none_open _ none_open (emits_push1 env gt _ Return g1 os eq_refl eq_refl) R1) as (b2 & E3 & R2).
  assert (wf_with [] [function_frame] (push_code false [Return] g1)) as W2 by (apply wf_push_code; [done | by repeat constructor]).
  assert (resolve (push_code false [Return] g1) 0 = here g) as Hres.
  { eapply resolve_main; [apply ext_push_code | apply Hl; by left]. }
  exists (push_code false [Return] g1). do 2 eexists. split_and!.
  - rewrite (opcode_token env (fits_code _ _ _ _ _ _ Hfits) q (state [function_frame] [] p (Cfg g b seg poly mx bmx z)) TEnd Hf) by done.
    change (set_code_curr q (state [function_frame] [] p (Cfg g b seg poly mx bmx z))) with (St q b [function_frame] (seg ++ []) poly mx bmx z).
    unfold token_case, case_end. rewrite bind_get. cbn [control_flow_stack St].
    change (negb (bool_decide (blk_type function_frame = block_type.if_)) || (length (result function_frame) =? 0)%nat) with true.
    rewrite require_true, (bind_done _ _ _ _ _ (check_results_St _ q b function_frame [function_frame] seg [] poly mx bmx z eq_refl Hc)).
    rewrite <- sm_bind_assoc, (bind_done _ _ _ _ _ E1). 
    change (operand_stack_base function_frame) with (length (@nil operand)).
    rewrite (bind_done _ _ _ _ _ (truncate_St q [function_frame] b1 seg [] poly mx bmx z)), (bind_done _ _ _ _ _ E2), !bind_modify.
    rewrite bool_decide_true by done. rewrite bind_get. 
    change (code_curr _ =? length (TranslatorState.code env))%nat with (q =? q)%nat. rewrite Nat.eqb_refl, require_true.
    change (set_control_flow_stack [] (set_polymorphic (polymorphic_base function_frame) (St q b1 [function_frame] os poly mx1 bmx1 z))) with (St q b1 [] os false mx1 bmx1 z).
    unfold finish_function. rewrite sm_bind_assoc, (bind_done _ _ _ _ _ E3), sm_bind_assoc, bind_get. cbn [out St].
    rewrite (patched lt gt _ _ R2 (all_placed _ _ W2)), bind_ret. reflexivity.
  - done.
  - by eapply program_ok.
  - etrans; [exact X1 | apply ext_push_code].
  - pose proof (main_code_at g1 (push_code false [Return] g1) [Return] ltac:(done)) as Hat. apply code_at_one in Hat.
    assert (here g = length (of_main (g_code g1))) as -> by (unfold here; by rewrite Hcode). exact Hat.
  - exact Hres.
  - done.
  - cbn [cf_local_bytes_zeroinit_end local_bytes_zeroinit_end St]. destruct (Z.leb_spec z (internal_temp_local_off env)); lia.
  - exact Hle.
Qed.

(** The context of the body. *)
Lemma ctx_function : ctx C [function_frame] = C.
Proof using Hfits Hlabels. unfold ctx. cbn. rewrite <- Hlabels. by destruct C. Qed.

(** The locals that the code of [f] may read. *)
Definition initialised (f : compiled_func) (x : nat) : Prop :=
  forall t, lt !! x = Some t -> offset_of lt x + valtype_size t <= cf_local_bytes_zeroinit_end f.

Lemma local_before_end x t : lt !! x = Some t -> offset_of lt x + valtype_size t <= locals_end env.
Proof using.
  intros Hx. unfold offset_of. rewrite (local_offset_at _ _ _ 0 Hx). cbn [default from_option id]. unfold locals_end.
  change (0 + size_bytes (take x lt) + valtype_size t <= size_bytes lt). rewrite <- (take_drop_middle lt x t Hx) at 2. rewrite size_bytes_app, size_bytes_cons.
  pose proof (size_bytes_nonneg (drop (S x) lt)). lia.
Qed.

Lemma temps_after_locals : internal_temp_local_off env = locals_end env.
Proof using Hfits. unfold internal_temp_local_off. by destruct (temps_first env (fits_temps _ _ _ _ _ _ Hfits)) as [offs ->]. Qed.

(** The bytes that are initialised start after the parameters. *)
Definition param_bytes : Z := size_bytes (take (param_count env) lt).

Lemma start_end : local_bytes_zeroinit_end (initial_state env) = param_bytes.
Proof using.
  cbn [initial_state local_bytes_zeroinit_end]. unfold param_bytes. destruct (lt !! param_count env) as [t |] eqn:E.
  - by rewrite (local_offset_at _ _ _ 0 E).
  - apply lookup_ge_None in E. assert (local_offsets 0 lt !! param_count env = None) as ->.
    { apply lookup_ge_None. assert (forall n ts, length (local_offsets n ts) = length ts) as -> by (intros n ts; revert n; induction ts; intros; simpl; auto). done. }
    by rewrite take_ge.
Qed.

(** A typed body is translated, and the code is laid out. *)
Lemma function_laid es :
  expr_bytes es (TranslatorState.code env) -> instrs_typing C es [] rt -> covered grow es ->
  exists f prog, translate_function env = Done f /\ op_operands f = InterpreterRep.code lt gt prog /\ Forall (instr_ok pss) prog /\
    body_laid I lt gt rt (length pss) prog (initialised f) (cf_operand_stack_byte_max f) es /\
    cf_local_bytes_max f = local_bytes_max env /\ 0 <= cf_operand_stack_byte_max f /\
    param_bytes <= cf_local_bytes_zeroinit_end f <= locals_end env.
Proof using Hfits Hlabels.
  intros (bs & Hbs & Hcode) Hty Hcov. pose proof (fits_code _ _ _ _ _ _ Hfits) as Hbytes.
  assert (sub (TranslatorState.code env) 0 bs) as Hs by (exists [11]; by rewrite drop_0).
  assert (Fetch.fetch (TranslatorState.code env) (length bs) = Some (TEnd, length (TranslatorState.code env))) as Hend.
  { rewrite (fetch_token _ Hbytes TEnd [11]); [rewrite Hcode, length_app; done | constructor |].
    exists []. by rewrite Hcode, drop_app_length. }
  destruct (coded_sub _ Hbytes) as [_ Hsub]. specialize (Hsub es bs Hbs 0%nat Hs). cbn [Nat.add] in Hsub.
  rewrite <- ctx_function in Hty.
  destruct (seq_does env I gt pss C grow Hfits (code_size es) es ltac:(done) [function_frame] [] 0 (length bs) [] rt start_cfg start_shape start_good Hsub
    ltac:(by eexists _, _; split; [exact Hend | left]) Hcov Hty) as (c & D).
  pose proof D as [(n & Hn & Hrun) G [D1 D2 D3 _] _].
  destruct (function_end (length bs) c Hend G) as (g & s & f & E & H1 & H2 & H3 & H4 & H5 & H6 & H7 & H8).
  rewrite temps_after_locals in H7. cbn [start_cfg c_ghost c_bytes c_end] in D1, D2, D3. rewrite start_end in D3.
  assert (param_bytes <= locals_end env) as Hparam.
  { unfold param_bytes, locals_end. change (size_bytes (take (param_count env) lt) <= size_bytes lt).
    rewrite <- (take_drop (param_count env) lt) at 2. rewrite size_bytes_app. pose proof (size_bytes_nonneg (drop (param_count env) lt)). lia. }
  exists f, (program g). split_and!; [| done | done | | done | lia | lia | lia].
  - unfold translate_function. rewrite start_state. rewrite Hcode at 1. rewrite length_app. cbn [length].
    cbn [code_curr state St] in Hn. replace (S (length bs + 1)) with (n + S (S (length bs - n)))%nat by lia. rewrite Hrun.
    cbn [translate_loop]. by rewrite (bind_done _ _ _ _ _ E).
  - exists (here (c_ghost c)). split; [done |].
    assert (final env g (cf_operand_stack_byte_max f) (initialised f) c) as Hfin.
    { split_and!; [done | lia |]. intros x t Hx Hle t' Hx'. rewrite Hx in Hx'. injection Hx' as <-. rewrite H7. pose proof (local_before_end _ _ Hx). lia. }
    pose proof (does_laid env I gt pss _ _ _ _ _ _ _ _ _ g _ _ D eq_refl Hfin) as Hl. cbn [fmap list_fmap] in Hl. unfold target_of in Hl.
    cbn [function_frame label get_branch_target_label_id blk_type end_label_id operand_stack_base length drop fmap list_fmap Nat.sub] in Hl.
    change (resolve g _) with (resolve g 0) in Hl. rewrite H5 in Hl. exact Hl.
Qed.
End Function.
