(* ===== verification/Frame.v ===== *)
(** * The frame of a function

    [execute_compiled_defined_once] of [uwvm_runtime.default.cpp]: the parameters move from the
    operands of the caller to the locals, the locals that the translator asks for are cleared,
    the code runs on an operand stack of the size that the translator computed, and the results
    move to the operands of the caller.

    A function whose code lays out a body runs it as the specification does: the frame holds
    the arguments and the locals that are read, the operands stay within their region, and the
    bytes of the frame that were never written are never read. *)

From stdpp Require Import base list numbers.
From Stdlib Require Import ZArith Lia.
From S2P Require Import Prelude WasmTypes WasmSpec IeeeBits IntegerSpec NumericOps LinearMemory LinearMemoryCorrect Interpreter.
From S2P Require Import FlatWasm FlatTyping InterpreterRep InterpreterCorrect WasmExec FlatLayout TranslatorState Translator.
Open Scope Z_scope.

Section Frame.
Context (f : compiled_func) (A : allocator) (strict multi : bool).

(** The loop; the region of the operands ends after [operand_stack_byte_max] bytes. *)
Fixpoint exec_loop_within (fuel : nat) : Run unit :=
  m ← sm_get;
  if cf_operand_stack_byte_max f <? zlen (operands m) then undefined
  else
    match ip m with
    | None => mret tt
    | Some i => match fuel with O => sm_fuel | S fuel => exec_slot (op_operands f) A strict multi i;; exec_loop_within fuel end
    end.

(** The locals when the code starts; [unset] are the bytes of their region before. *)
Definition frame_locals (param_bytes : Z) (args unset : list Z) : list Z :=
  let zero_n := cf_local_bytes_zeroinit_end f - param_bytes in
  write_bytes param_bytes (replicate (Z.to_nat zero_n) 0) (write_bytes 0 args unset).

(** The result are the operands of the caller after the call; [caller] are those before. *)
Definition execute_compiled_defined_once (fuel : nat) (param_bytes result_bytes : Z) (caller unset : list Z) : Run (list Z) :=
  let local_bytes_raw := cf_local_bytes_max f in
  let stack_cap_raw := cf_operand_stack_byte_max f in
  let wasm_locals_bytes := if 8 <=? local_bytes_raw then local_bytes_raw - 8 else local_bytes_raw in
  let zeroinit_end_raw := cf_local_bytes_zeroinit_end f in
  if (wasm_locals_bytes <? param_bytes) || (zeroinit_end_raw <? param_bytes) || (wasm_locals_bytes <? zeroinit_end_raw) then
    sm_throw (process_end fast_terminate)
  else if zlen caller <? param_bytes then undefined
  else
    let caller_stack_top := Z.to_nat (zlen caller - param_bytes) in
    if local_bytes_raw <? param_bytes then sm_throw (process_end fast_terminate)
    else
      sm_modify (fun m => Machine (Some 0%nat) [] (frame_locals param_bytes (drop caller_stack_top caller) unset) (Interpreter.globals m) (memories m));;
      exec_loop_within fuel;;
      m ← sm_get;
      if negb (zlen (operands m) =? result_bytes) then sm_throw (process_end fast_terminate)
      else if stack_cap_raw <? result_bytes then sm_throw (process_end fast_terminate)
      else mret (take caller_stack_top caller ++ operands m).
End Frame.

(** ** A laid out body in its frame *)

(** ** Bytes and values *)

Lemma size_bytes_length vars : zlen (vars_bytes vars) = size_bytes (fst <$> vars).
Proof. apply scratch_end. Qed.

(** Any bytes are those of some values. *)
Lemma decode_vars ts bytes : Forall byte_ok bytes -> zlen bytes = size_bytes ts ->
  exists vars : list val, fst <$> vars = ts /\ Forall val_ok vars /\ vars_bytes vars = bytes.
Proof.
  revert bytes. induction ts as [| t ts IH]; intros bytes Hb Hl.
  - exists []. unfold zlen in Hl. destruct bytes; [done | simpl in Hl; lia].
  - unfold size_bytes in Hl. cbn [foldr] in Hl. fold (size_bytes ts) in Hl. pose proof (size_bytes_nonneg ts).
    destruct (IH (drop (size_of t) bytes)) as (vars & H1 & H2 & H3); [by apply Forall_drop | unfold zlen in *; rewrite length_drop; lia |].
    assert (length (take (size_of t) bytes) = size_of t) as Ht by (rewrite length_take; unfold zlen in Hl; lia).
    exists ((t, of_le (take (size_of t) bytes)) :: vars). split_and!; [rewrite <- H1; done | constructor; [| done] |].
    + pose proof (of_le_bounds (take (size_of t) bytes) (Forall_take _ _ _ Hb)) as Ho. unfold zlen in Ho. rewrite Ht in Ho.
      unfold val_ok. cbn [fst snd]. by rewrite bit_width_size.
    + unfold vars_bytes in *. rewrite fmap_cons. cbn [concat]. rewrite H3, take_drop_enc by (done || by apply Forall_take). apply take_drop.
Qed.

Lemma enc_inj v v' : val_ok v -> val_ok v' -> fst v = fst v' -> enc v = enc v' -> v = v'.
Proof. intros H1 H2 Ht He. apply (f_equal of_le) in He. rewrite !of_le_enc in He by done. destruct v, v'. simpl in *. by subst. Qed.

Lemma read_prefix n a b l l' : 0 <= a -> 0 <= b -> a + b <= n -> take (Z.to_nat n) l = take (Z.to_nat n) l' -> read_bytes a b l = read_bytes a b l'.
Proof.
  intros Ha Hb Hn Hl. unfold read_bytes. assert (forall l : list Z, take (Z.to_nat b) (drop (Z.to_nat a) l) = take (Z.to_nat b) (drop (Z.to_nat a) (take (Z.to_nat n) l))) as H.
  { intros l0. rewrite !take_drop_commute, take_take. do 2 f_equal. lia. }
  by rewrite (H l), (H l'), Hl.
Qed.

(** Values whose bytes agree up to [n] agree where they end before [n]. *)
Lemma vars_agree lt vars vars' n :
  fst <$> vars = lt -> fst <$> vars' = lt -> Forall val_ok vars -> Forall val_ok vars' ->
  take (Z.to_nat n) (vars_bytes vars) = take (Z.to_nat n) (vars_bytes vars') ->
  agree lt (fun x => forall t, lt !! x = Some t -> offset_of lt x + Z.of_nat (size_of t) <= n) vars vars'.
Proof.
  intros H1 H2 Hv Hv' Hb. split_and!; [done.. |]. intros x Hx. destruct (lt !! x) as [t |] eqn:Ht.
  - destruct (lookup_type _ _ _ _ H1 Ht) as [z Hz], (lookup_type _ _ _ _ H2 Ht) as [z' Hz']. specialize (Hx t eq_refl).
    pose proof (vars_read [] vars x _ Hz) as R. pose proof (vars_read [] vars' x _ Hz') as R'. rewrite !app_nil_r in R, R'.
    pose proof (local_offset 0 vars x _ Hz) as O. pose proof (local_offset 0 vars' x _ Hz') as O'. rewrite H1, Z.add_0_l in O. rewrite H2, Z.add_0_l in O'. pose proof (eq_trans (eq_sym O) O') as E. apply (inj Some) in E.
    unfold offset_of in Hx. rewrite O in Hx. cbn [default from_option id] in Hx. rewrite <- E in R'. cbn [fst] in R, R'.
    rewrite <- (read_prefix n _ _ (vars_bytes vars) (vars_bytes vars')) in R'; [| unfold zlen; lia | lia | lia | done].
    refine (eq_trans Hz (eq_trans _ (eq_sym Hz'))). f_equal.
    apply enc_inj; [exact (Forall_lookup_1 _ _ _ _ Hv Hz) | exact (Forall_lookup_1 _ _ _ _ Hv' Hz') | done |]. by rewrite <- R, <- R'.
  - apply lookup_ge_None in Ht. etrans; [apply lookup_ge_None_2 | symmetry; apply lookup_ge_None_2].
    + by rewrite <- H1, length_fmap in Ht.
    + by rewrite <- H2, length_fmap in Ht.
Qed.

(** ** The contents of the frame *)

Definition zeros (ts : list value_type) : list val := (fun t => (t, 0)) <$> ts.

Lemma zeros_types ts : fst <$> zeros ts = ts.
Proof. unfold zeros. rewrite <- list_fmap_compose. by apply list_fmap_id. Qed.

Lemma zeros_ok ts : Forall val_ok (zeros ts).
Proof. apply Forall_fmap, Forall_true. intros t. unfold val_ok. cbn. split; [lia |]. apply Z.pow_pos_nonneg; [lia |]. by destruct t. Qed.

Lemma zeros_bytes ts : vars_bytes (zeros ts) = replicate (Z.to_nat (size_bytes ts)) 0.
Proof.
  induction ts as [| t ts IH]; [done |]. unfold vars_bytes, zeros in *. rewrite !fmap_cons. cbn [concat]. rewrite IH.
  pose proof (size_bytes_nonneg ts). change (size_bytes (t :: ts)) with (Z.of_nat (size_of t) + size_bytes ts).
  rewrite Z2Nat.inj_add, Nat2Z.id, replicate_add by lia. f_equal. by destruct t.
Qed.

Lemma vars_bytes_ok vars : Forall byte_ok (vars_bytes vars).
Proof. induction vars as [| v vars IH]; [done |]. unfold vars_bytes in *. rewrite fmap_cons. apply Forall_app. split; [apply le_bytes_ok | done]. Qed.

Lemma vars_bytes_app l1 l2 : vars_bytes (l1 ++ l2) = vars_bytes l1 ++ vars_bytes l2.
Proof. unfold vars_bytes. by rewrite fmap_app, concat_app. Qed.

Section Contents.
Context (f : compiled_func) (lt : list value_type) (np : nat) (args : list val) (unset : list Z).
Context (Hargs : fst <$> args = take np lt) (Hok : Forall val_ok args).
Context (Hunset : Forall byte_ok unset) (Hlen : zlen unset = cf_local_bytes_max f).
Context (Hmax : size_bytes lt + 16 <= cf_local_bytes_max f).
Context (Hend : size_bytes (take np lt) <= cf_local_bytes_zeroinit_end f <= size_bytes lt).
#[local] Notation zend := (cf_local_bytes_zeroinit_end f).
#[local] Notation pb := (size_bytes (take np lt)).

Lemma frame_bytes : frame_locals f pb (vars_bytes args) unset = vars_bytes args ++ replicate (Z.to_nat (zend - pb)) 0 ++ drop (Z.to_nat zend) unset.
Proof using Hargs Hlen Hmax Hend.
  pose proof (size_bytes_nonneg (take np lt)). pose proof (size_bytes_length args) as Ha. rewrite Hargs in Ha. unfold zlen in *.
  unfold frame_locals, write_bytes. change (Z.to_nat 0) with 0%nat. rewrite take_0, app_nil_l, Nat.add_0_l.
  assert (length (vars_bytes args) = Z.to_nat pb) as Hl by lia. rewrite length_replicate. 
  rewrite take_app_le by lia. rewrite (take_ge (vars_bytes args)) by lia. do 2 f_equal. rewrite drop_app_ge by lia. rewrite Hl, drop_drop. f_equal. lia.
Qed.

(** The bytes of the locals are those of values, which are the arguments and zeros where the
    code reads them. *)
Lemma frame_vars : exists vars tail,
  frame_locals f pb (vars_bytes args) unset = vars_bytes vars ++ tail /\ 8 <= zlen tail /\ Forall val_ok vars /\
  agree lt (fun x => forall t, lt !! x = Some t -> offset_of lt x + Z.of_nat (size_of t) <= zend) (args ++ zeros (drop np lt)) vars.
Proof using Hargs Hok Hunset Hlen Hmax Hend.
  rewrite frame_bytes. set (B := vars_bytes args ++ replicate (Z.to_nat (zend - pb)) 0 ++ drop (Z.to_nat zend) unset).
  pose proof (size_bytes_nonneg (take np lt)) as Hpb. pose proof (size_bytes_nonneg lt) as Hlt0.
  pose proof (size_bytes_length args) as Ha. rewrite Hargs in Ha.
  assert (Forall byte_ok B) as HB.
  { repeat apply Forall_app_2; [apply vars_bytes_ok | apply Forall_replicate; unfold byte_ok; lia | by apply Forall_drop]. }
  assert (zlen B = cf_local_bytes_max f) as HlB.
  { unfold B, zlen in *. rewrite !length_app, length_replicate, length_drop. lia. }
  destruct (decode_vars lt (take (Z.to_nat (size_bytes lt)) B)) as (vars & H1 & H2 & H3).
  { by apply Forall_take. }
  { unfold zlen in *. rewrite length_take. lia. }
  exists vars, (drop (Z.to_nat (size_bytes lt)) B). split_and!.
  - by rewrite H3, take_drop.
  - unfold zlen in *. rewrite length_drop. lia.
  - done.
  - apply vars_agree.
    + by rewrite fmap_app, Hargs, zeros_types, take_drop.
    + done.
    + apply Forall_app. split; [done | apply zeros_ok].
    + done.
    + rewrite vars_bytes_app, zeros_bytes, H3, take_take, Nat.min_l by lia. unfold B.
      assert (size_bytes lt = pb + size_bytes (drop np lt)) as Hs by (rewrite <- size_bytes_app, take_drop; done).
      rewrite !take_app. assert (length (vars_bytes args) = Z.to_nat pb) as -> by (unfold zlen in Ha; lia).
      f_equal. rewrite length_replicate, !take_replicate. replace (Z.to_nat zend - Z.to_nat pb - Z.to_nat (zend - pb))%nat with 0%nat by lia.
      rewrite take_0, app_nil_r. f_equal. lia.
Qed.
End Contents.

(** ** Running the code *)

Lemma stack_size (lt gt : list value_type) prog c m : rep lt gt prog c m -> zlen (operands m) = size_bytes (fst <$> stack c).
Proof. intros R. rewrite (rep_operands _ _ _ _ _ R). apply stack_bytes_length. Qed.

(** When no reachable stack is larger than the region, the end of the region is not observed. *)
Lemma within_loop f (lt gt : list value_type) prog pss A `{!AllocatorLaws A} strict multi fuel c m :
  op_operands f = InterpreterRep.code lt gt prog -> Forall (instr_ok pss) prog ->
  rep lt gt prog c m -> snd <$> mems c = pss -> never_stuck prog c ->
  (forall n c', ssteps prog n c c' -> size_bytes (fst <$> stack c') <= cf_operand_stack_byte_max f) ->
  exec_loop_within f A strict multi fuel m = exec_loop (op_operands f) A strict multi fuel m.
Proof.
  intros Hf Hok. revert c m. induction fuel as [| fuel IH]; intros c m R Hpss Hns Hfit; cbn [exec_loop exec_loop_within]; rewrite !bind_get;
    pose proof (Hfit 0%nat c (ssteps_refl _ c)) as Hc; rewrite <- (stack_size _ _ _ _ _ R) in Hc; rewrite (proj2 (Z.ltb_ge _ _)) by done; [done |].
  destruct (ip m) as [i |] eqn:Hip; [| done]. pose proof (rep_ip _ _ _ _ _ R) as Hi. rewrite Hip in Hi.
  destruct (pc c) as [k |] eqn:Hpc; [| done]. injection Hi as ->.
  pose proof (step_sim lt gt prog pss A strict multi Hok c m k R Hpss Hpc (Hns 0%nat c (ssteps_refl _ c) ltac:(by rewrite Hpc))) as Hs.
  unfold mbind, sm_bind. rewrite Hf in *. destruct (exec_slot _ _ _ _ _ m) as [[[] m'] | h | |]; [| done..].
  destruct Hs as (c' & Hin & R'). pose proof (step_pages prog c c' Hin) as Hpss'.
  apply (IH c' m' R'); [congruence | intros n c2 H2; apply (Hns (S n)); by econstructor | intros n c2 H2; apply (Hfit (S n)); by econstructor].
Qed.

Lemma code_length (lt gt : list value_type) prog : (length prog <= length (InterpreterRep.code lt gt prog))%nat.
Proof.
  unfold InterpreterRep.code. generalize (position lt gt prog). intros pos. induction prog as [| i prog IH]; [simpl; lia |].
  rewrite fmap_cons. cbn [concat length]. rewrite length_app. assert (0 < length (emit lt gt pos i))%nat; [| lia].
  destruct i; cbn [emit]; repeat case_match; cbn [length]; lia.
Qed.

Section Run.
Context (f : compiled_func) (I : instance) (lt gt rt : list value_type) (prog : list instr) (np : nat) (es : list WasmSpec.instr).
Context (A : allocator) `{!AllocatorLaws A} (strict multi : bool).
Context (args globs : list val) (mems : list (list Z * Z)) (unset caller : list Z) (m : machine).
#[local] Notation readable := (fun x => forall t, lt !! x = Some t -> offset_of lt x + Z.of_nat (size_of t) <= cf_local_bytes_zeroinit_end f).
Context (Hcode : op_operands f = InterpreterRep.code lt gt prog) (Hinstr : Forall (instr_ok (snd <$> mems)) prog).
Context (Hlaid : body_laid I lt gt rt (length mems) prog readable (cf_operand_stack_byte_max f) es).
Context (Harity : result_arity I = length rt) (Hrt : (length rt <= 1)%nat).
Context (Hmax : size_bytes lt + 16 <= cf_local_bytes_max f) (Hcap : 0 <= cf_operand_stack_byte_max f).
Context (Hend : size_bytes (take np lt) <= cf_local_bytes_zeroinit_end f <= size_bytes lt).
Context (Hargs : fst <$> args = take np lt) (Hok : Forall val_ok args).
Context (Hunset : Forall byte_ok unset) (Hlen : zlen unset = cf_local_bytes_max f).
Context (Hgt : fst <$> globs = gt) (Hg : Forall2 global_rep globs (Interpreter.globals m)) (Hm : Forall2 mem_rep mems (memories m)).
#[local] Notation start := (Running es [] [] (Store (args ++ zeros (drop np lt)) globs mems)).

(** The outcome of a call: that of the structured code. *)
Definition call_outcome (r : outcome halt (list Z * machine)) (fuel : nat) : Prop :=
  match r with
  | Done (caller', m') => exists n values σ, steps I n start (Finished values σ) /\
      caller' = caller ++ stack_bytes values /\ fst <$> values = rt /\
      Forall2 global_rep (s_globs σ) (Interpreter.globals m') /\ Forall2 mem_rep (s_mems σ) (memories m')
  | Thrown h => exists n s e, steps I n start s /\ In (Fails e) (step I s) /\ fault_of h e
  | Undefined => False
  | OutOfFuel => exists n s, steps I n start s /\ (fuel <= n * (length (op_operands f) + 3))%nat
  end.

Lemma frame_runs fuel :
  call_outcome (execute_compiled_defined_once f A strict multi fuel (size_bytes (take np lt)) (size_bytes rt) (caller ++ vars_bytes args) unset m) fuel.
Proof using All.
  pose proof (size_bytes_nonneg (take np lt)) as Hpb. pose proof (size_bytes_length args) as Ha. rewrite Hargs in Ha.
  unfold execute_compiled_defined_once. cbv zeta. rewrite (proj2 (Z.leb_le 8 _)) by (pose proof (size_bytes_nonneg lt); lia).
  assert (zlen (caller ++ vars_bytes args) = zlen caller + size_bytes (take np lt)) as Hz by (rewrite zlen_app; lia).
  assert (0 <= zlen caller) as Hz0 by (unfold zlen; lia).
  repeat rewrite (proj2 (Z.ltb_ge _ _)) by lia. cbn [orb].
  assert (Z.to_nat (zlen (caller ++ vars_bytes args) - size_bytes (take np lt)) = length caller) as -> by (rewrite zlen_app, Ha; unfold zlen; lia).
  rewrite bind_modify, drop_app_length, take_app_length.
  destruct (frame_vars f lt np args unset Hargs Hok Hunset Hlen Hmax Hend) as (vars & tail & -> & Htail & Hvok & Hagree).
  set (c0 := Config (Some 0%nat) [] vars None globs mems). set (m0 := Machine (Some 0%nat) [] (vars_bytes vars ++ tail) (Interpreter.globals m) (memories m)).
  assert (rep lt gt prog c0 m0) as R.
  { constructor; try done; [by exists tail | apply Hagree]. }
  assert (store_like lt gt (length mems) readable (Store (args ++ zeros (drop np lt)) globs mems) c0) as Hσ by (by split_and!).
  pose proof (start_synced I lt gt rt (length mems) prog readable _ es _ c0 Hlaid Hcap eq_refl eq_refl Hσ) as Hstart.
  pose proof (fun n c H => run_matched I lt gt rt (length mems) prog readable _ Harity Hrt n c0 c H 0 _ Hstart (Nat.le_0_l _)) as Hmatch.
  assert (never_stuck prog c0) as Hns.
  { intros n c Hs Hpc. destruct (Hmatch n c Hs) as (j & s & m' & _ & _ & Hn & _). by eapply nearly_progress. }
  assert (forall n c, ssteps prog n c0 c -> size_bytes (fst <$> stack c) <= cf_operand_stack_byte_max f) as Hfit.
  { intros n c Hs. destruct (Hmatch n c Hs) as (j & s & m' & _ & _ & Hn & _). by eapply nearly_fits. }
  pose proof (run_sim lt gt prog (snd <$> mems) A strict multi Hinstr fuel c0 m0 R eq_refl Hns) as Hrun. rewrite <- Hcode in Hrun.
  unfold mbind at 1, sm_bind at 1.
  rewrite (within_loop f lt gt prog _ A strict multi fuel c0 m0 Hcode Hinstr R eq_refl Hns Hfit).
  destruct exec_loop as [[u m'] | h | |]; [| | done |].
  - destruct Hrun as (n & c & Hs & Hpc & R'). destruct (Hmatch n c Hs) as (j & s & k & Hj & _ & Hn & _).
    destruct (nearly_finished _ _ _ _ _ _ _ _ _ _ _ Hn Hpc) as (σ & -> & Hσ' & Hty). rewrite bind_get.
    rewrite (stack_size _ _ _ _ _ R'), Hty, Z.eqb_refl. cbn [negb].
    assert (size_bytes rt <= cf_operand_stack_byte_max f) as Hle by (rewrite <- Hty; by eapply Hfit).
    rewrite (proj2 (Z.ltb_ge _ _)) by done. cbn [call_outcome]. exists j, (stack c), σ. destruct Hσ' as (_ & -> & -> & _).
    split_and!; [done | by rewrite (rep_operands _ _ _ _ _ R') | done | apply R' | apply R'].
  - destruct Hrun as (n & c & e & Hs & Hin & Hf). destruct (Hmatch n c Hs) as (j & s & k & Hj & _ & Hn & _).
    destruct (nearly_fault _ _ _ _ _ _ _ _ Harity Hrt _ _ _ _ Hn Hin) as (j2 & s2 & Hj2 & Hf2).
    exists (j + j2)%nat, s2, e. split_and!; [by eapply steps_app | done | done].
  - destruct Hrun as (c & Hs & Hpc). destruct (Hmatch fuel c Hs) as (j & s & k & Hj & _ & Hn & Hle). exists j, s. split; [done |].
    pose proof (code_length lt gt prog) as Hcl. rewrite <- Hcode in Hcl. unfold slack in Hle. nia.
Qed.
End Run.
