(* ===== verification/TranslatorSafe.v ===== *)
(** * The translator on any bytes

    A program logic for the operations of the translator, as in Hoare triples whose
    postcondition is about the result: what they keep of the labels, the control-flow stack and the cursor,
    so that no unchecked access is out of range, whatever the bytes are. *)

From stdpp Require Import base list numbers.
From Stdlib Require Import ZArith Lia.
From S2P Require Import Prelude Leb128 IeeeBits NumericOps WasmTypes ValidationError Interpreter WasmSpec Fetch TranslatorState Translator.
Open Scope Z_scope.

Section Safe.
Context (env : tenv) (Hbytes : Forall is_byte (code env)).
#[local] Notation code_end := (length (code env)).

(** ** The invariant *)

Definition label_count (s : tstate) : nat := length (labels (out s)).

(** The place of a label address is in the code, and the label exists. *)
Definition fixup_ok (b : buffers) (fx : ptr_fixup_t) : Prop :=
  (label_id fx < length (labels b))%nat /\ (site fx < length (buffer (site_in_thunk fx) b))%nat.
Definition fixups_ok (s : tstate) : Prop := Forall (fixup_ok (out s)) (ptr_fixups (out s)).

(** The fixups, and the cursor, which is in the code or at its end. *)
Definition sane (s : tstate) : Prop := fixups_ok s /\ (code_curr s <= code_end)%nat.

(** A frame has the labels that its kind needs, and they are below [n]. *)
Definition below (n : nat) (id : option nat) : Prop := forall i, id = Some i -> (i < n)%nat.
Record frame_ok (n : nat) (frame : block_t) : Prop := {
  frame_end : is_Some (end_label_id frame);
  frame_start : blk_type frame = block_type.loop -> is_Some (start_label_id frame);
  frame_else : blk_type frame = block_type.if_ -> is_Some (else_label_id frame);
  frame_below : below n (end_label_id frame) /\ below n (start_label_id frame) /\ below n (else_label_id frame);
}.

Lemma frame_ok_mono n n' frame : (n <= n')%nat -> frame_ok n frame -> frame_ok n' frame.
Proof. intros Hn [H1 H2 H3 (H4 & H5 & H6)]. split; [done.. |]. unfold below in *. split_and!; intros i Hi; [apply H4 in Hi | apply H5 in Hi | apply H6 in Hi]; lia. Qed.

Lemma target_label n frame : frame_ok n frame -> exists id, get_branch_target_label_id frame = Some id /\ (id < n)%nat.
Proof.
  intros [[e He] Hs _ (H4 & H5 & _)]. unfold get_branch_target_label_id. case_bool_decide as E.
  - destruct (Hs E) as [i Hi]. exists i. split; [done | by apply H5].
  - exists e. split; [done | by apply H4].
Qed.

(** ** Code that is not modelled *)

(** The opcodes of calls, of arithmetic and comparisons on floats, of conversions to floats, and of
    later releases. *)
Definition unmodelled_opcode (b : Z) : bool :=
  (b =? 16) || (b =? 17) || ((91 <=? b) && (b <=? 102)) || ((139 <=? b) && (b <=? 166)) || ((178 <=? b) && (b <=? 187)) || later_release b.

(** Such an opcode at [p], or a block whose type starts with [0x63] or [0x64]. *)
Definition unmodelled_at (p : nat) : Prop :=
  exists b, code env !! p = Some b /\
    (unmodelled_opcode b = true \/ (2 <= b <= 4 /\ exists prefix, code env !! S p = Some prefix /\ 99 <= prefix <= 100)).

Definition allowed (e : failure) : Prop := e = NotModelled -> exists p, unmodelled_at p.

(** ** Triples *)

(** From a state with the control-flow stack [cs] and at least [n] labels, [m] keeps the stack and
    the labels, does not go back in the code, and ends with a result that has [Q] for the number of labels then. *)
Definition ends {A} (cs : list block_t) (s : tstate) (r : outcome failure (A * tstate)) (Q : A -> nat -> Prop) : Prop :=
  match r with
  | Done (a, s') => sane s' /\ (label_count s <= label_count s')%nat /\ control_flow_stack s' = cs /\
      (code_curr s <= code_curr s')%nat /\ Q a (label_count s')
  | Thrown e => allowed e
  | Undefined | OutOfFuel => False
  end.
Definition keeps {A} (n : nat) (cs : list block_t) (m : M A) (Q : A -> nat -> Prop) : Prop :=
  forall s, sane s -> (n <= label_count s)%nat -> control_flow_stack s = cs -> ends cs s (m s) Q.

Abbreviation any := (fun _ _ => True).

Section Rules.
Context {A B : Type} (n : nat) (cs : list block_t).
Implicit Types (Q : A -> nat -> Prop).

Lemma ends_bind (m : M A) (k : A -> M B) Q (Q' : B -> nat -> Prop) s :
  (n <= label_count s)%nat -> ends cs s (m s) Q -> (forall a n', (n <= n')%nat -> Q a n' -> keeps n' cs (k a) Q') -> ends cs s ((m ≫= k) s) Q'.
Proof.
  intros H2 Hm Hk. unfold mbind, sm_bind. destruct (m s) as [[a s'] | | |]; try done.
  destruct Hm as (K1 & K2 & K3 & K4 & K5). specialize (Hk a (label_count s') ltac:(lia) K5 s' K1 ltac:(lia) K3).
  destruct (k a s') as [[b s2] | | |]; try done. destruct Hk as (L1 & L2 & L3 & L4 & L5). split_and!; [done | lia | done | lia | done].
Qed.

Lemma keeps_bind (m : M A) (k : A -> M B) Q (Q' : B -> nat -> Prop) :
  keeps n cs m Q -> (forall a n', (n <= n')%nat -> Q a n' -> keeps n' cs (k a) Q') -> keeps n cs (m ≫= k) Q'.
Proof. intros Hm Hk s H1 H2 H3. eapply ends_bind; [done | by apply Hm | done]. Qed.

Lemma keeps_weaken n' (m : M A) Q Q' : keeps n cs m Q -> (n <= n')%nat -> (forall a k, (n' <= k)%nat -> Q a k -> Q' a k) -> keeps n' cs m Q'.
Proof.
  intros Hm Hn HQ s H1 H2 H3. specialize (Hm s H1 ltac:(lia) H3). unfold ends in *. destruct (m s) as [[a s'] | | |]; try done.
  destruct Hm as (K1 & K2 & K3 & K4 & K5). split_and!; try done. apply HQ; [lia | done].
Qed.

Lemma keeps_ret a Q : (forall k, (n <= k)%nat -> Q a k) -> keeps n cs (mret a) Q.
Proof. intros HQ s H1 H2 H3. cbn. split_and!; try done. by apply HQ. Qed.

Lemma keeps_throw e Q : e <> NotModelled -> keeps n cs (sm_throw e) Q.
Proof. intros He s H1 H2 H3 E. by destruct He. Qed.

Lemma keeps_get (k : tstate -> M A) Q : (forall s, control_flow_stack s = cs -> keeps n cs (k s) Q) -> keeps n cs (sm_get ≫= k) Q.
Proof. intros Hk s H1 H2 H3. by apply (Hk s). Qed.

Lemma keeps_if (b : bool) (m1 m2 : M A) Q : keeps n cs m1 Q -> keeps n cs m2 Q -> keeps n cs (if b then m1 else m2) Q.
Proof. by destruct b. Qed.

Lemma keeps_some a Q (o : option A) : o = Some a -> (forall k, (n <= k)%nat -> Q a k) -> keeps n cs (sm_unchecked o) Q.
Proof. intros -> HQ s H1 H2 H3. cbn. split_and!; try done. by apply HQ. Qed.
End Rules.

Section Operations.
Context (n : nat) (cs : list block_t).

Lemma keeps_modify (f : tstate -> tstate) :
  (forall s, out (f s) = out s /\ control_flow_stack (f s) = control_flow_stack s /\ code_curr (f s) = code_curr s) -> keeps n cs (sm_modify f) any.
Proof. intros Hf s [H1 Hp] H2 H3. cbn. destruct (Hf s) as (E1 & E2 & E3). unfold sane, fixups_ok, label_count in *. rewrite E1, E2, E3. by split_and!. Qed.

Lemma keeps_when b m : keeps n cs m any -> keeps n cs (sm_when b m) any.
Proof. intros Hm. destruct b; [done | by apply keeps_ret]. Qed.

Lemma keeps_require_true c b : keeps n cs (require c b) (fun _ _ => b = true).
Proof. destruct b; [by apply keeps_ret | by apply keeps_throw]. Qed.

Lemma keeps_require c b : keeps n cs (require c b) any.
Proof. by apply keeps_when, keeps_throw. Qed.
End Operations.

Lemma keeps_repeat n cs k m : (forall n', (n <= n')%nat -> keeps n' cs m any) -> keeps n cs (repeat_m k m) any.
Proof.
  intros Hm. revert n Hm. induction k as [| k IH]; intros n Hm; [by apply keeps_ret |].
  eapply keeps_bind; [by apply Hm |]. intros _ n' Hn _. apply IH. intros n2 H2. apply Hm. lia.
Qed.

Lemma keeps_for_each {A} n cs (l : list A) f : (forall a n', (n <= n')%nat -> keeps n' cs (f a) any) -> keeps n cs (for_each l f) any.
Proof.
  intros Hf. revert n Hf. induction l as [| a l IH]; intros n Hf; [by apply keeps_ret |].
  eapply keeps_bind; [by apply Hf |]. intros _ n' Hn _. apply IH. intros a' n2 H2. apply Hf. lia.
Qed.

(** ** The operations *)

Create HintDb keeps.

Ltac keep := cbv zeta; intros;
  lazymatch goal with
  | |- keeps _ _ (sm_get ≫= _) _ => apply keeps_get; keep
  | |- keeps _ _ (_ ≫= _) _ => eapply keeps_bind; [keep | cbv beta; keep]
  | |- keeps _ _ (mret _) _ => first [apply keeps_ret; done | apply (keeps_ret _ _ _ any); done]
  | |- keeps _ _ (sm_throw _) _ => by apply keeps_throw
  | |- keeps _ _ (require _ _) _ => apply keeps_require
  | |- keeps _ _ (sm_when _ _) _ => apply keeps_when; keep
  | |- keeps _ _ (for_each _ _) _ => apply keeps_for_each; keep
  | |- keeps _ _ (repeat_m _ _) _ => apply keeps_repeat; keep
  | |- keeps _ _ (match ?x with _ => _ end) _ => destruct x; keep
  | |- keeps _ _ (sm_modify _) _ => apply keeps_modify; intros ?; repeat case_match; by split_and!
  | |- _ => first [solve [eauto with keeps nocore] | idtac]
  end.

Section Stack.
Context (n : nat) (cs : list block_t).

Lemma keeps_push vt : keeps n cs (operand_stack_push vt) any.
Proof. unfold operand_stack_push. keep. Qed.
Lemma keeps_pop : keeps n cs operand_stack_pop_unchecked any.
Proof. unfold operand_stack_pop_unchecked. keep. Qed.
End Stack.
#[local] Hint Resolve keeps_push keeps_pop : keeps.

Section Stack.
Context (n : nat) (cs : list block_t).

Lemma keeps_pop_n k : keeps n cs (operand_stack_pop_n k) any.
Proof. unfold operand_stack_pop_n. keep. Qed.
Lemma keeps_truncate k : keeps n cs (operand_stack_truncate_to k) any.
Proof. unfold operand_stack_truncate_to. keep. Qed.
Lemma keeps_try_pop : keeps n cs try_pop_concrete_operand any.
Proof. unfold try_pop_concrete_operand. keep. Qed.
Lemma keeps_try_peek : keeps n cs try_peek_concrete_operand any.
Proof. unfold try_peek_concrete_operand. keep. Qed.
Lemma keeps_pop_available k : keeps n cs (pop_available_concrete_operands k) any.
Proof. unfold pop_available_concrete_operands. keep. Qed.
Lemma keeps_push_unknown : keeps n cs push_unknown_operand any.
Proof. unfold push_unknown_operand. keep. Qed.
Lemma keeps_underflow k : keeps n cs (underflow_unless k) any.
Proof. unfold underflow_unless. keep. Qed.
Lemma keeps_push_types ts : keeps n cs (block_push_types ts) any.
Proof. unfold block_push_types. keep. Qed.
End Stack.
#[local] Hint Resolve keeps_pop_n keeps_truncate keeps_try_pop keeps_try_peek keeps_pop_available keeps_push_unknown keeps_underflow keeps_push_types : keeps.

(** Emission: the code and the labels only grow. *)
Lemma fixups_grow b b' fxs :
  (length (labels b) <= length (labels b'))%nat -> (forall th, length (buffer th b) <= length (buffer th b'))%nat ->
  Forall (fixup_ok b) fxs -> Forall (fixup_ok b') fxs.
Proof. intros Hl Hb. apply Forall_impl. intros fx [H1 H2]. specialize (Hb (site_in_thunk fx)). split; lia. Qed.

Lemma buffer_add th th' v b : (length (buffer th' b) <= length (buffer th' (add_slot th v b)))%nat.
Proof. destruct th, th'; simpl; rewrite ?length_app; lia. Qed.

Section Emission.
Context (n : nat) (cs : list block_t).

Lemma keeps_imm th v : keeps n cs (emit_imm_to th v) any.
Proof.
  intros s [H1 Hp] H2 H3. cbn. unfold sane, fixups_ok, label_count in *. cbn. destruct th; cbn; (split_and!; [| done..]);
    (eapply fixups_grow; [..| exact H1]; [done |]); intros []; simpl; rewrite ?length_app; lia.
Qed.

Lemma keeps_new_label th : keeps n cs (new_label th) (fun id k => (id < k)%nat).
Proof.
  intros s [H1 Hp] H2 H3. unfold new_label. rewrite bind_get, bind_modify. cbn. unfold sane, fixups_ok, label_count in *. cbn.
  rewrite length_app. cbn. split_and!; [| done | lia | done | lia | lia].
  eapply fixups_grow; [..| exact H1]; cbn; [rewrite length_app; lia | by intros []].
Qed.

Lemma keeps_label_offset id off : (id < n)%nat -> keeps n cs (set_label_offset id off) any.
Proof.
  intros Hid s [H1 Hp] H2 H3. unfold set_label_offset. rewrite bind_get. unfold label_count in H2.
  destruct (lookup_lt_is_Some_2 (labels (out s)) id) as [l Hl]; [lia |]. rewrite Hl, bind_some. cbn. unfold sane, fixups_ok, label_count in *. cbn.
  rewrite length_insert. split_and!; try done. eapply fixups_grow; [..| exact H1]; cbn; [by rewrite length_insert | by intros []].
Qed.

Lemma keeps_placeholder id th : (id < n)%nat -> keeps n cs (emit_ptr_label_placeholder id th) any.
Proof.
  intros Hid s [H1 Hp] H2 H3. unfold emit_ptr_label_placeholder, emit_imm_to. rewrite bind_get, bind_modify. cbn -[buffer]. unfold sane, fixups_ok, label_count in *. cbn -[buffer].
  set (b := add_slot th (Imm 0) (out s)).
  assert (labels b = labels (out s) /\ ptr_fixups b = ptr_fixups (out s)) as [E1 E2] by by destruct th.
  assert (length (buffer th b) = S (length (buffer th (out s)))) as E3 by (destruct th; cbn; rewrite length_app; cbn; lia).
  rewrite E1, E2. split_and!; try done. apply Forall_app. split.
  - eapply fixups_grow; [..| exact H1]; cbn -[buffer]; [by rewrite E1 | intros th'; apply (buffer_add th th')].
  - constructor; [| done]. split; cbn -[buffer]; [rewrite E1; lia |]. change (length (buffer th (out s)) < length (buffer th b))%nat. lia.
Qed.
End Emission.
#[local] Hint Resolve keeps_imm keeps_label_offset keeps_placeholder : keeps.
#[local] Hint Extern 1 (_ < _)%nat => lia : keeps.

Section Emitters.
Context (n : nat) (cs : list block_t).

Lemma keeps_opfunc th f : keeps n cs (emit_opfunc_to th f) any.
Proof. apply keeps_imm. Qed.
Lemma keeps_drop_typed th t : keeps n cs (emit_drop_typed_to th t) any.
Proof. apply keeps_imm. Qed.
Lemma keeps_return th : keeps n cs (emit_return_to th) any.
Proof. apply keeps_imm. Qed.
End Emitters.
#[local] Hint Resolve keeps_opfunc keeps_drop_typed keeps_return : keeps.

Section Emitters.
Context (n : nat) (cs : list block_t).

Lemma keeps_drops th k : keeps n cs (emit_drop_to_stack_size_no_fill th k) any.
Proof. unfold emit_drop_to_stack_size_no_fill. keep. Qed.
Lemma keeps_local_get th t off : keeps n cs (emit_local_get_typed_to th t off) any.
Proof. unfold emit_local_get_typed_to. keep. Qed.
Lemma keeps_local_set th t off : keeps n cs (emit_local_set_typed_to th t off) any.
Proof. unfold emit_local_set_typed_to. keep. Qed.
Lemma keeps_local_tee th t off : keeps n cs (emit_local_tee_typed_to th t off) any.
Proof. unfold emit_local_tee_typed_to. keep. Qed.
Lemma keeps_br th id : (id < n)%nat -> keeps n cs (emit_br_to th id) any.
Proof. intros Hid. unfold emit_br_to. keep. Qed.
Lemma keeps_jump id : (id < n)%nat -> keeps n cs (emit_br_if_jump_any id) any.
Proof. intros Hid. unfold emit_br_if_jump_any. keep. Qed.
End Emitters.
#[local] Hint Resolve keeps_drops keeps_local_get keeps_local_set keeps_local_tee keeps_br keeps_jump : keeps.

(** ** The cases *)

Section Cases.
Context (n : nat) (cs : list block_t).

Lemma keeps_preserve th ts base size : keeps n cs (emit_preserve_top_values_drop_to_base_restore env th ts base size) any.
Proof. unfold emit_preserve_top_values_drop_to_base_restore. keep. Qed.
Lemma keeps_repair th ts base size : keeps n cs (emit_repair env th ts base size) any.
Proof using. unfold emit_repair. destruct (length ts =? 0)%nat; [apply keeps_drops | apply keeps_preserve]. Qed.
Lemma keeps_unreachable k : keeps n cs (make_unreachable k) any.
Proof. unfold make_unreachable. keep. Qed.
Lemma keeps_local_of x : keeps n cs (local_of env x) any.
Proof. unfold local_of. keep. Qed.
Lemma keeps_global_of x : keeps n cs (global_of env x) any.
Proof. unfold global_of. keep. Qed.
Lemma keeps_memory : keeps n cs (ensure_memory_resolved env) any.
Proof. unfold ensure_memory_resolved. keep. Qed.

Lemma keeps_target l : keeps n cs (target_frame_of l) (fun frame _ => frame ∈ cs).
Proof.
  intros s H1 H2 H3. unfold target_frame_of. rewrite bind_get. destruct (control_flow_stack s !! l) as [frame |] eqn:E; [| done].
  cbn. split_and!; try done. rewrite <- H3. by eapply list_elem_of_lookup_2.
Qed.
End Cases.
#[local] Hint Resolve keeps_preserve keeps_repair keeps_unreachable keeps_local_of keeps_global_of keeps_memory keeps_target : keeps.

Lemma keeps_thunk n cs ts base size id : (id < n)%nat -> keeps n cs (emit_thunk env ts base size id) (fun th k => (th < k)%nat).
Proof.
  intros Hid. unfold emit_thunk. eapply keeps_bind; [apply keeps_new_label |]. cbv beta. intros th n1 Hn1 Hth. apply keeps_get. intros s _.
  do 3 (eapply keeps_bind; [by eauto with keeps |]; intros _ ? ? _). apply keeps_ret. intros. lia.
Qed.
#[local] Hint Resolve keeps_thunk : keeps.

Section Plain.
Context (n : nat) (cs : list block_t).

Lemma keeps_local_get_at x : keeps n cs (local_get_at env x) any.
Proof. unfold local_get_at. keep. Qed.
Lemma keeps_local_set_at x : keeps n cs (local_set_at env x) any.
Proof. unfold local_set_at. keep. Qed.
Lemma keeps_global_get_at x : keeps n cs (global_get_at env x) any.
Proof. unfold global_get_at. keep. Qed.
Lemma keeps_global_set_at x : keeps n cs (global_set_at env x) any.
Proof. unfold global_set_at. keep. Qed.
Lemma keeps_load_at t f o : keeps n cs (load_at env t f o) any.
Proof. unfold load_at. keep. Qed.
Lemma keeps_store_at t f o : keeps n cs (store_at env t f o) any.
Proof. unfold store_at. keep. Qed.
Lemma keeps_memory_size_at : keeps n cs (memory_size_at env) any.
Proof. unfold memory_size_at. keep. Qed.
Lemma keeps_memory_grow_at : keeps n cs (memory_grow_at env) any.
Proof. unfold memory_grow_at. keep. Qed.
Lemma keeps_numeric ins t f : keeps n cs (numeric_case ins t f) any.
Proof. unfold numeric_case. keep. Qed.
Lemma keeps_select : keeps n cs case_select any.
Proof. unfold case_select. keep. Qed.
End Plain.
#[local] Hint Resolve keeps_local_get_at keeps_local_set_at keeps_global_get_at keeps_global_set_at keeps_load_at keeps_store_at
  keeps_memory_size_at keeps_memory_grow_at keeps_numeric keeps_select : keeps.

(** The operand that is read unchecked exists. *)
Lemma concrete_head s : (concrete_operand_count s =? 0)%nat = false -> is_Some (head (operand_stack s)).
Proof. unfold concrete_operand_count. destruct (operand_stack s); [| by eexists]. cbn. by destruct (curr_frame_operand_stack_base s). Qed.

Lemma keeps_drop n cs : keeps n cs case_drop any.
Proof.
  apply keeps_get. intros s Hs. destruct (concrete_operand_count s =? 0)%nat eqn:E; [apply keeps_require |].
  destruct (concrete_head s E) as [o Ho]. eapply keeps_bind; [by apply (keeps_some _ _ o any) |]. keep.
Qed.

Lemma push_head vt s : exists s', operand_stack_push vt s = Done (tt, s') /\ is_Some (head (operand_stack s')).
Proof. unfold operand_stack_push. rewrite bind_modify, bind_get. unfold sm_when. case_match; (eexists; split; [reflexivity | by eexists]). Qed.


(** An operation after which there is an operand. *)
Lemma ends_top {A} n cs (m : M unit) (k : operand -> M A) Q s :
  (n <= label_count s)%nat -> ends cs s (m s) any -> (match m s with Done (_, s') => is_Some (head (operand_stack s')) | _ => True end) ->
  (forall o n', (n <= n')%nat -> keeps n' cs (k o) Q) ->
  ends cs s ((m;; s ← sm_get; top ← sm_unchecked (head (operand_stack s)); k top) s) Q.
Proof.
  intros H2 Hm Ht Hk. unfold mbind at 1, sm_bind at 1. destruct (m s) as [[[] s'] | | |]; try done.
  rewrite bind_get. destruct Ht as [o ->]. rewrite bind_some. destruct Hm as (K1 & K2 & K3 & K4 & _).
  specialize (Hk o (label_count s') ltac:(lia) s' K1 ltac:(lia) K3). unfold ends in *. destruct (k o s') as [[b s2] | | |]; try done.
  destruct Hk as (L1 & L2 & L3 & L4 & L5). split_and!; [done | lia | done | lia | done].
Qed.

Lemma keeps_local_tee_at n cs x : keeps n cs (local_tee_at env x) any.
Proof.
  unfold local_tee_at. eapply keeps_bind; [apply keeps_local_of |]. intros [t off] n1 Hn1 _.
  intros s H1 H2 H3. unfold try_peek_concrete_operand. rewrite sm_bind_assoc, bind_get, bind_ret.
  destruct (concrete_operand_count s =? 0)%nat eqn:E.
  - apply (ends_top n1); [done | | | keep].
    + apply (keeps_get n1); [keep | done..].
    + rewrite bind_get. unfold require, sm_when. destruct (negb (is_polymorphic s)); [done |]. rewrite bind_ret.
      by destruct (push_head t s) as (s' & -> & Ho).
  - destruct (concrete_head s E) as [o Ho]. rewrite Ho. apply (ends_top n1); [done | by apply (keeps_require n1) | | keep].
    unfold require, sm_when. destruct (negb _); [done |]. cbn. by rewrite Ho.
Qed.
#[local] Hint Resolve keeps_drop keeps_local_tee_at : keeps.

(** ** Reading *)

Section Read.
Context (n : nat) (cs : list block_t).

Lemma keeps_leb128 digits is_signed c : leb_width digits -> keeps n cs (read_leb128 env digits is_signed c) any.
Proof using Hbytes.
  intros Hw s [H1 Hp] H2 H3. unfold read_leb128. rewrite bind_get. destruct (scan_leb128 _ _ _ _) as [[v q] |] eqn:E; [| done].
  apply (scan_bounds env Hbytes) in E; [| done | done]. rewrite bind_modify. cbn. split_and!; try done; [by split; [| cbn; lia] | lia].
Qed.

End Read.

Section Read.
Context (n : nat) (cs : list block_t).

Lemma keeps_index c : keeps n cs (read_index env c) any.
Proof using Hbytes. unfold read_index. eapply keeps_bind; [apply keeps_leb128, width32 |]. keep. Qed.

(** Before the end there is a byte. *)
Lemma keeps_byte {A} (k : Z -> M A) Q c s :
  sane s -> (n <= label_count s)%nat -> control_flow_stack s = cs ->
  (forall b, code env !! code_curr s = Some b -> ends cs s (k b s) Q) ->
  ends cs s ((sm_when (code_curr s =? code_end)%nat (sm_throw (Invalid c));; b ← sm_unchecked (code env !! code_curr s); k b) s) Q.
Proof using.
  intros [H1 Hp] H2 H3 Hk. destruct (Nat.eqb_spec (code_curr s) code_end) as [| Hne]; [done |]. cbn [sm_when]. unfold sm_when. rewrite bind_ret.
  destruct (lookup_lt_is_Some_2 (code env) (code_curr s) ltac:(lia)) as [b Hb]. rewrite Hb, bind_some. by apply Hk.
Qed.

(** The type of a block, behind the opcode. *)
Lemma ends_block_type s b : sane s -> (n <= label_count s)%nat -> control_flow_stack s = cs -> (0 < code_curr s)%nat ->
  code env !! pred (code_curr s) = Some b -> 2 <= b <= 4 -> ends cs s (parse_block_type env s) any.
Proof using Hbytes.
  intros H1 H2 H3 Hp Hb Hr. unfold parse_block_type. rewrite bind_get. apply keeps_byte; [done.. |]. intros prefix Hprefix.
  case_match.
  - intros E. exists (pred (code_curr s)), b. split; [done |]. right. split; [done |]. exists prefix. split; [by rewrite Nat.succ_pred by lia |].
    destruct (Z.eqb_spec prefix 99), (Z.eqb_spec prefix 100); try lia. discriminate E.
  - apply (keeps_bind n cs _ _ any); [apply keeps_leb128, width64 | keep | done..].
Qed.

Lemma keeps_memarg a : keeps n cs (read_memory_argument64 env a) any.
Proof using Hbytes.
  unfold read_memory_argument64. eapply keeps_bind; [apply keeps_leb128, width32 |]. intros al n1 Hn1 _.
  do 2 (eapply keeps_bind; [apply keeps_require | intros ? ? ? _]). eapply keeps_bind; [| keep].
  apply keeps_leb128. case_match; [apply width64 | apply width32].
Qed.

Lemma keeps_memory_index : keeps n cs (read_memory_index env) any.
Proof using.
  intros s H1 H2 H3. unfold read_memory_index. rewrite bind_get. apply keeps_byte; [done.. |]. intros b Hb. apply lookup_lt_Some in Hb.
  unfold require, sm_when. destruct (b =? 0); [| done]. cbn [negb]. rewrite bind_ret, bind_modify.
  destruct (0 <? all_memory_count env)%nat; [| done]. cbn. split_and!; try done; [| lia]. split; [apply H1 | cbn; lia].
Qed.

Lemma keeps_elide op : keeps n cs (try_elide_const_run_with_drops env op) any.
Proof using Hbytes.
  unfold try_elide_const_run_with_drops. intros s [H1 Hp] H2 H3. rewrite bind_get.
  destruct (scan_consts_total env Hbytes op (S code_end) (code_curr s) Hp ltac:(lia)) as (r & Hr & Hd). rewrite (bind_done _ _ _ _ _ (Hr s)).
  destruct r as [[more d] |]; [| by split_and!].
  destruct (count_drops_total env (S code_end) d ltac:(lia) ltac:(lia)) as (k & Hk & Hb). rewrite (bind_done _ _ _ _ _ (Hk s)).
  destruct (Nat.ltb_spec k (S more)); [by split_and! |]. rewrite bind_modify. cbn. split_and!; try done; [| lia]. split; [done | cbn; lia].
Qed.

Lemma keeps_const op t e imm : keeps n cs (const_case env op t e imm) any.
Proof using Hbytes. pose proof (keeps_elide op). unfold const_case. keep. Qed.
End Read.
#[local] Hint Resolve keeps_leb128 keeps_index keeps_memarg keeps_memory_index keeps_const width32 width64 : keeps.

(** A constant of [k] bytes: they are there when they are read. *)
Lemma keeps_raw n cs k c (m : Z -> M unit) : (forall n' imm, (n <= n')%nat -> keeps n' cs (m imm) any) ->
  keeps n cs (s ← sm_get; sm_when (code_end - code_curr s <? k)%nat (sm_throw (Invalid c));; v ← read_wasm_le env k; m v) any.
Proof using.
  intros Hm s [H1 Hp] H2 H3. rewrite bind_get. unfold sm_when. destruct (Nat.ltb_spec (code_end - code_curr s) k) as [| Hk]; [done |]. rewrite bind_ret.
  apply (ends_bind n cs _ _ any any); [done | | by eauto]. unfold read_wasm_le. rewrite bind_get. unfold bytes_at. rewrite (proj2 (Nat.leb_le _ _)) by lia.
  rewrite bind_some, bind_modify. cbn. split_and!; try done; [| lia]. split; [done | cbn; lia].
Qed.

(** ** Branches *)

Section Branches.
Context (n : nat) (cs : list block_t) (Hframes : Forall (frame_ok n) cs).

(** The label of a frame. *)
Lemma keeps_label {A} n' frame (k : nat -> M A) Q :
  (n <= n')%nat -> frame ∈ cs -> (forall id, (id < n)%nat -> keeps n' cs (k id) Q) ->
  keeps n' cs (id ← sm_unchecked (get_branch_target_label_id frame); k id) Q.
Proof using Hframes.
  intros Hn Hin Hk. rewrite Forall_forall in Hframes. apply list_elem_of_In in Hin. destruct (target_label n frame (Hframes _ Hin)) as (id & -> & Hid). by apply Hk.
Qed.

Lemma keeps_br_to l : keeps n cs (br_to env l) any.
Proof using Hframes.
  unfold br_to. eapply keeps_bind; [apply keeps_target |]. cbv beta. intros frame n1 Hn1 Hin. cbv zeta.
  eapply keeps_bind; [apply keeps_underflow |]. intros _ n2 Hn2 _. apply keeps_get. intros s _.
  eapply keeps_bind; [apply keeps_require |]. intros _ n3 Hn3 _. apply keeps_label; [lia | done |]. intros id Hid. keep.
Qed.

Lemma keeps_br_if_to l : keeps n cs (br_if_to env l) any.
Proof using Hframes.
  unfold br_if_to. eapply keeps_bind; [apply keeps_target |]. cbv beta zeta. intros frame n1 Hn1 Hin.
  do 4 (eapply keeps_bind; [keep | intros ? ? ? _]). apply keeps_label; [lia | done |]. intros id Hid. keep.
Qed.

Lemma keeps_table_entry n' ts size l : (n <= n')%nat -> keeps n' cs (emit_br_table_entry env ts size l) any.
Proof using Hframes.
  intros Hn. unfold emit_br_table_entry. eapply keeps_bind; [apply keeps_target |]. cbv beta zeta. intros frame n1 Hn1 Hin.
  apply keeps_label; [lia | done |]. intros id Hid. keep.
Qed.

Lemma keeps_br_table_to ls l ts : keeps n cs (br_table_to env ls l ts) any.
Proof using Hframes.
  unfold br_table_to. cbv zeta. do 3 (eapply keeps_bind; [keep | intros ? ? ? _]). apply keeps_get. intros s2 _.
  do 3 (eapply keeps_bind; [keep | intros ? ? ? _]). eapply keeps_bind; [| keep]. apply keeps_for_each. intros x n5 Hn5. apply keeps_table_entry. lia.
Qed.

Lemma keeps_case_br : keeps n cs (case_br env) any.
Proof using Hframes Hbytes. unfold case_br. eapply keeps_bind; [apply keeps_index |]. intros l n1 Hn1 _. by eapply keeps_weaken; [apply keeps_br_to | |]. Qed.

Lemma keeps_case_br_if : keeps n cs (case_br_if env) any.
Proof using Hframes Hbytes. unfold case_br_if. eapply keeps_bind; [apply keeps_index |]. intros l n1 Hn1 _. by eapply keeps_weaken; [apply keeps_br_if_to | |]. Qed.

Lemma keeps_br_table_label n' expected : keeps n' cs (read_br_table_label env expected) any.
Proof using Hbytes.
  clear Hframes. unfold read_br_table_label, check_br_table_sig. eapply keeps_bind; [apply keeps_index |]. intros li n1 Hn1 _.
  eapply keeps_bind; [apply keeps_target |]. keep.
Qed.

Lemma keeps_br_table_labels k n' expected : keeps n' cs (read_br_table_labels env k expected) any.
Proof using Hbytes.
  clear Hframes. revert n' expected. induction k as [| k IH]; intros n' expected; cbn [read_br_table_labels]; [keep |].
  eapply keeps_bind; [apply keeps_br_table_label |]. intros [li e] n1 Hn1 _. eapply keeps_bind; [apply IH |]. keep.
Qed.

Lemma keeps_case_br_table : keeps n cs (case_br_table env) any.
Proof using Hframes Hbytes.
  unfold case_br_table. eapply keeps_bind; [apply keeps_leb128, width32 |]. intros count n1 Hn1 _. apply keeps_get. intros s _. cbv zeta.
  eapply keeps_bind; [apply keeps_when; by apply keeps_throw |]. intros _ n2 Hn2 _.
  eapply keeps_bind; [apply keeps_br_table_labels |]. intros [ls e] n3 Hn3 _. eapply keeps_bind; [apply keeps_br_table_label |]. intros [l e'] n4 Hn4 _.
  eapply keeps_weaken; [apply keeps_br_table_to | lia | done].
Qed.

Lemma keeps_case_return : cs <> [] -> keeps n cs (case_return env) any.
Proof using.
  clear Hframes. intros Hcs. unfold case_return. apply keeps_get. intros s Hs. destruct (lookup_lt_is_Some_2 cs (length cs - 1)) as [f Hf]; [destruct cs; simpl; [done | lia] |].
  rewrite Hs. eapply keeps_bind; [by apply (keeps_some _ _ f any) |]. keep.
Qed.

Lemma keeps_case_unreachable : keeps n cs case_unreachable any.
Proof using. clear Hframes. unfold case_unreachable. keep. Qed.
End Branches.

(** ** Control *)

(** The state between two instructions: only the first frame is that of the function. *)
Definition wf (s : tstate) : Prop :=
  sane s /\ Forall (frame_ok (label_count s)) (control_flow_stack s) /\
  exists outer frame, control_flow_stack s = outer ++ [frame] /\ blk_type frame = block_type.function.

(** [r] is not a fault, and a result does not come from behind the cursor of [s]. *)
Definition passes {A} (s : tstate) (r : outcome failure (A * tstate)) (P : A -> tstate -> Prop) : Prop :=
  match r with
  | Done (a, s') => (code_curr s <= code_curr s')%nat /\ P a s'
  | Thrown e => allowed e
  | Undefined | OutOfFuel => False
  end.

Section Steps.
Context {A B : Type} (s : tstate).

Lemma passes_ends (m : M A) (k : A -> M B) Q P :
  wf s -> ends (control_flow_stack s) s (m s) Q ->
  (forall a s', wf s' -> control_flow_stack s' = control_flow_stack s -> (label_count s <= label_count s')%nat -> (code_curr s <= code_curr s')%nat ->
    Q a (label_count s') -> passes s' (k a s') P) ->
  passes s ((m ≫= k) s) P.
Proof.
  intros (H1 & H2 & H3) Hm Hk. unfold mbind, sm_bind. destruct (m s) as [[a s'] | | |]; try done.
  destruct Hm as (K1 & K2 & K3 & K4 & K5). assert (wf s') as Hw.
  { split_and!; [done | | by rewrite K3]. rewrite K3. revert H2. apply Forall_impl. intros f. by apply frame_ok_mono. }
  specialize (Hk a s' Hw K3 K2 K4 K5). unfold passes in *. destruct (k a s') as [[b s2] | | |]; try done. destruct Hk. split; [lia | done].
Qed.

Lemma passes_bind (m : M A) (k : A -> M B) Q P :
  wf s -> keeps (label_count s) (control_flow_stack s) m Q ->
  (forall a s', wf s' -> control_flow_stack s' = control_flow_stack s -> (label_count s <= label_count s')%nat -> (code_curr s <= code_curr s')%nat ->
    Q a (label_count s') -> passes s' (k a s') P) ->
  passes s ((m ≫= k) s) P.
Proof. intros Hw Hm Hk. eapply passes_ends; [done | | exact Hk]. apply Hm; [apply Hw | done | done]. Qed.

Lemma passes_then (m : M A) (k : A -> M B) P P' :
  passes s (m s) P -> (forall a s', P a s' -> passes s' (k a s') P') -> passes s ((m ≫= k) s) P'.
Proof.
  intros Hm Hk. unfold mbind, sm_bind. destruct (m s) as [[a s'] | | |]; try done. destruct Hm as [H1 H2]. specialize (Hk a s' H2).
  unfold passes in *. destruct (k a s') as [[b s2] | | |]; try done. destruct Hk. split; [lia | done].
Qed.
End Steps.

(** A block is entered with labels that exist. *)
Lemma passes_enter s type res st en el :
  wf s -> frame_ok (label_count s) (Block res res 0 type false st en el) -> type <> block_type.function ->
  passes s (enter_control_frame type res st en el s) (fun _ s' => wf s').
Proof.
  intros (H1 & H2 & (outer & frame & Hcs & Hf)) Hok Hty. unfold enter_control_frame. rewrite bind_get, bind_modify. cbn. split; [done |]. split_and!; [done | |].
  - constructor; [| done]. by destruct Hok.
  - eexists (_ :: outer), frame. cbn. by rewrite Hcs.
Qed.

Lemma passes_begin_block s res : wf s -> passes s (begin_block res s) (fun _ s' => wf s').
Proof.
  intros Hw. unfold begin_block. eapply passes_bind; [done | apply keeps_new_label |]. intros id s1 Hw1 _ _ _ Hid. apply passes_enter; [done | | done].
  split; cbn; [by eexists | done | done |]. unfold below. split_and!; by intros i [= <-].
Qed.

Lemma passes_begin_loop s res : wf s -> passes s (begin_loop res s) (fun _ s' => wf s').
Proof.
  intros Hw. unfold begin_loop. eapply passes_bind; [done | apply keeps_new_label |]. intros id s1 Hw1 _ _ _ Hid. rewrite bind_get.
  eapply passes_bind; [done | by apply keeps_label_offset |]. intros _ s2 Hw2 _ Hl2 _ _.
  eapply passes_bind; [done | apply keeps_new_label |]. intros en s3 Hw3 _ Hl3 _ Hen. apply passes_enter; [done | | done].
  split; cbn; [by eexists | by eexists | done |]. unfold below. cbv beta in *. split_and!; intros i [= <-]; lia.
Qed.

Lemma passes_begin_if s res : wf s -> passes s (begin_if res s) (fun _ s' => wf s').
Proof.
  intros Hw. unfold begin_if. eapply passes_bind; [done | by eauto with keeps |]. intros _ s1 Hw1 _ _ _ _.
  eapply passes_bind; [done | by eauto with keeps |]. intros c s2 Hw2 _ _ _ _. eapply passes_bind; [done | apply keeps_require |]. intros _ s3 Hw3 _ _ _ _.
  eapply passes_bind; [done | apply keeps_new_label |]. intros el s4 Hw4 _ _ _ Hel.
  eapply passes_bind; [done | apply keeps_new_label |]. intros en s5 Hw5 _ Hl5 _ Hen.
  do 2 (eapply passes_bind; [done | by eauto with keeps |]; intros _ ? ? _ ? _ _). cbv beta in *.
  eapply passes_bind; [done | apply keeps_placeholder; lia |]. intros _ s8 Hw8 _ Hl8 _ _.
  eapply passes_then; [apply passes_enter; [done | | done] |].
  - split; cbn; [by eexists | done | by eexists |]. unfold below. split_and!; intros i [= <-]; lia.
  - intros [] s9 Hw9. by split.
Qed.

Lemma keeps_check_results n cs c frame : keeps n cs (check_results c frame) any.
Proof. unfold check_results. keep. Qed.

(** The labels of the first frame. *)
Lemma wf_head s frame outer : wf s -> control_flow_stack s = frame :: outer -> frame_ok (label_count s) frame.
Proof. intros (_ & H & _) E. rewrite E in H. by inversion H. Qed.

Lemma wf_outer s frame outer : wf s -> control_flow_stack s = frame :: outer -> blk_type frame <> block_type.function ->
  Forall (frame_ok (label_count s)) outer /\ exists outer' frame', outer = outer' ++ [frame'] /\ blk_type frame' = block_type.function.
Proof.
  intros (_ & H & (o & f & Ho & Hf)) E Hty. rewrite E in H. inversion H; subst. split; [done |]. rewrite E in Ho.
  destruct o as [| f' o]; injection Ho as -> ->; [done | by exists o, f].
Qed.

Lemma wf_frames s outer frame' f : wf s -> Forall (frame_ok (label_count s)) (frame' :: outer ++ [f]) -> blk_type f = block_type.function ->
  wf (set_control_flow_stack (frame' :: outer ++ [f]) s).
Proof. intros (H1 & _) H2 H3. split_and!; [done | done |]. by exists (frame' :: outer), f. Qed.

Lemma passes_else s : wf s -> passes s (case_else s) (fun _ s' => wf s').
Proof.
  intros Hw. unfold case_else. rewrite bind_get. destruct (control_flow_stack s) as [| frame outer] eqn:Hcs; [done |].
  pose proof (wf_head s frame outer Hw Hcs) as [[en Hen] Hst Hel (B1 & B2 & B3)].
  eapply passes_bind; [done | apply keeps_require_true |]. cbv beta. intros _ s1 Hw1 Hc1 Hl1 _ Hty. apply bool_decide_eq_true in Hty.
  destruct (Hel Hty) as [el Hel']. pose proof (B1 en Hen) as B1'. pose proof (B3 el Hel') as B3'.
  eapply passes_bind; [done | apply keeps_check_results |]. intros _ s2 Hw2 Hc2 Hl2 _ _.
  rewrite Hen, bind_some. eapply passes_bind; [done | apply keeps_br; lia |]. intros _ s3 Hw3 Hc3 Hl3 _ _.
  rewrite Hel', bind_some, bind_get. eapply passes_bind; [done | apply keeps_label_offset; lia |]. intros _ s4 Hw4 Hc4 Hl4 _ _.
  eapply passes_bind; [done | apply keeps_truncate |]. intros _ s5 Hw5 Hc5 Hl5 _ _. rewrite bind_modify. cbn. split; [done |].
  rewrite Hc4, Hc3, Hc2, Hc1, Hcs in Hc5. destruct (wf_outer s5 frame outer Hw5 Hc5 ltac:(congruence)) as [Ho (o & f & -> & Hf)].
  apply (wf_frames s5 _ _ f Hw5); [| done]. constructor; [| done].
  apply (frame_ok_mono (label_count s)); [lia |]. split; cbn; [by eexists | done | done | by rewrite Hen, Hel' in *].
Qed.

(** *** The end of a function *)

Lemma patch_safe main ls code fx :
  (label_id fx < length ls)%nat -> ((if site_in_thunk fx then main + site fx else site fx) < length code)%nat ->
  match patch main ls code fx with Done code' => length code' = length code | Thrown e => allowed e | _ => False end.
Proof.
  intros Hl Hs. unfold patch. destruct (lookup_lt_is_Some_2 ls _ Hl) as [l ->]. destruct (TranslatorState.offset l) as [off |]; [| done]. cbv zeta.
  destruct (_ <? _)%nat eqn:E; [by rewrite length_insert |]. apply Nat.ltb_ge in E. lia.
Qed.

Lemma patch_all_safe main ls fxs code :
  Forall (fun fx => (label_id fx < length ls)%nat /\ ((if site_in_thunk fx then main + site fx else site fx) < length code)%nat) fxs ->
  match patch_all main ls fxs code with Done _ => True | Thrown e => allowed e | _ => False end.
Proof.
  revert code. induction fxs as [| fx fxs IH]; intros code H; cbn; [done |]. inversion H as [| ? ? [H1 H2] Hr]; subst.
  pose proof (patch_safe main ls code fx H1 H2) as Hp. destruct patch as [code' | | |]; try done. apply IH. by rewrite Hp.
Qed.

Lemma passes_finish s : sane s -> passes s (finish_function env s) any.
Proof.
  intros H. unfold finish_function. pose proof (keeps_return (label_count s) (control_flow_stack s) false s H (Nat.le_refl _) eq_refl) as Hk.
  unfold mbind at 1, sm_bind at 1. destruct (emit_return_to false s) as [[[] s'] | | |]; try done. destruct Hk as (K1 & _ & _ & K4 & _). rewrite bind_get.
  destruct K1 as [K1 _]. set (code' := bytecode (out s') ++ thunks (out s')).
  pose proof (patch_all_safe (length (bytecode (out s'))) (labels (out s')) (ptr_fixups (out s')) code') as Hp. rewrite Forall_forall in Hp.
  assert (forall fx, In fx (ptr_fixups (out s')) -> (label_id fx < length (labels (out s')))%nat /\
    ((if site_in_thunk fx then length (bytecode (out s')) + site fx else site fx) < length code')%nat) as Hall.
  { intros fx Hfx. unfold fixups_ok in K1. rewrite Forall_forall in K1. destruct (K1 fx Hfx) as [H1 H2]. split; [done |].
    unfold code'. rewrite length_app. destruct (site_in_thunk fx); cbn in H2; lia. }
  specialize (Hp Hall). by destruct (patch_all _ _ _ code').
Qed.

Lemma keeps_label_here n cs id : below n id -> keeps n cs (set_label_offset_here id) any.
Proof. intros H. unfold set_label_offset_here. destruct id as [id |]; [| by apply keeps_ret]. apply keeps_get. intros s _. by apply keeps_label_offset, H. Qed.

Definition resumes (r : option compiled_func) (s : tstate) : Prop := r = None -> wf s.

Lemma passes_end s : wf s -> passes s (case_end env s) resumes.
Proof.
  intros Hw. unfold case_end. rewrite bind_get. destruct (control_flow_stack s) as [| frame outer] eqn:Hcs; [done |].
  pose proof (wf_head s frame outer Hw Hcs) as [_ _ _ (B1 & _ & B3)]. assert (forall m n id, (n <= m)%nat -> below n id -> below m id) as Hmono by (intros m n id Hn Hb i Hi; specialize (Hb i Hi); lia).
  eapply passes_bind; [done | apply keeps_require |]. intros _ s1 Hw1 Hc1 Hl1 _ _.
  eapply passes_bind; [done | apply keeps_check_results |]. intros _ s2 Hw2 Hc2 Hl2 _ _.
  eapply passes_bind; [done | apply keeps_label_here; eapply Hmono; [| done]; lia |]. intros _ s3 Hw3 Hc3 Hl3 _ _.
  eapply passes_bind; [done | apply keeps_if; [apply keeps_label_here; eapply Hmono; [| done]; lia | by apply keeps_ret] |]. intros _ s4 Hw4 Hc4 Hl4 _ _.
  eapply passes_bind; [done | apply keeps_truncate |]. intros _ s5 Hw5 Hc5 Hl5 _ _.
  eapply passes_bind; [done | apply keeps_push_types |]. intros _ s6 Hw6 Hc6 Hl6 _ _.
  eapply passes_bind; [done | by apply keeps_modify |]. intros _ s7 Hw7 Hc7 Hl7 _ _. rewrite bind_modify.
  case_bool_decide as Hty.
  - rewrite bind_get. unfold require, sm_when. destruct (negb _); [done |]. rewrite bind_ret.
    pose proof (passes_finish (set_control_flow_stack outer s7) (proj1 Hw7)) as Hf. unfold mbind, sm_bind. destruct (finish_function _ _) as [[f s8] | | |]; try done.
    destruct Hf as [Hc _]. by split.
  - rewrite Hc6, Hc5, Hc4, Hc3, Hc2, Hc1, Hcs in Hc7. destruct (wf_outer s7 frame outer Hw7 Hc7 Hty) as [Ho Hb]. split; [done |]. intros _. by split_and!; [apply Hw7 | |].
Qed.

(** ** The loop *)

Section Switch.
Context (n : nat) (cs : list block_t).

Lemma keeps_loads op m : switch_loads env op = Some m -> keeps n cs m any.
Proof using Hbytes. destruct op; intros [= <-]; unfold load_case; keep. Qed.
Lemma keeps_stores op m : switch_stores env op = Some m -> keeps n cs m any.
Proof using Hbytes. destruct op; intros [= <-]; unfold store_case; keep. Qed.
Lemma keeps_numerics op m : switch_numeric op = Some m -> keeps n cs m any.
Proof using. destruct op; intros [= <-]; apply keeps_numeric. Qed.

(** An opcode without a case. *)
Lemma keeps_unmodelled p op Q : code env !! p = Some (wasm1_code.opcode op) -> unmodelled_opcode (wasm1_code.opcode op) = true ->
  keeps n cs (sm_throw NotModelled) (Q : unit -> nat -> Prop).
Proof using. intros Hp Hu s H1 H2 H3 _. exists p. eexists. split; [exact Hp | by left]. Qed.

Context (Hframes : Forall (frame_ok n) cs) (Hne : cs <> []).

Lemma keeps_plain op p : code env !! p = Some (wasm1_code.opcode op) ->
  match op with wasm1_code.block | wasm1_code.loop | wasm1_code.if_ | wasm1_code.else_ | wasm1_code.end_ => True
  | _ => keeps n cs (switch_plain env op) any end.
Proof using Hbytes Hframes Hne.
  intros Hp. destruct (switch_loads env op) as [m |] eqn:El.
  { apply keeps_loads in El as Hk. destruct op; try discriminate El; by injection El as <-. }
  destruct (switch_stores env op) as [m |] eqn:Es.
  { apply keeps_stores in Es as Hk. destruct op; try discriminate Es; by injection Es as <-. }
  destruct (switch_numeric op) as [m |] eqn:En.
  { apply keeps_numerics in En as Hk. destruct op; try discriminate En; by injection En as <-. }
  destruct op; try done; try discriminate El; try discriminate Es; try discriminate En; cbn [switch_plain];
    try (eapply keeps_unmodelled; [exact Hp | reflexivity]);
    first [by apply keeps_case_unreachable | by apply keeps_case_br | by apply keeps_case_br_if | by apply keeps_case_br_table | by apply keeps_case_return
      | by apply keeps_raw; intros; apply keeps_const | idtac].
  all: first [unfold case_local_get, case_local_set, case_local_tee, case_global_get, case_global_set, case_memory_size, case_memory_grow,
    case_i32_const, case_i64_const]; keep.
Qed.
End Switch.

(** A case of an instruction that neither opens nor closes a block. *)
Lemma passes_plain s op p : wf s -> code env !! p = Some (wasm1_code.opcode op) ->
  match op with wasm1_code.block | wasm1_code.loop | wasm1_code.if_ | wasm1_code.else_ | wasm1_code.end_ => True
  | _ => passes s ((switch_plain env op;; mret None) s) resumes end.
Proof using Hbytes.
  intros Hw Hp. pose proof Hw as (H1 & H2 & H3). assert (control_flow_stack s <> []) as Hne by (destruct H3 as ([] & ? & -> & _); done).
  pose proof (keeps_plain _ _ H2 Hne op p Hp) as Hk.
  assert (keeps (label_count s) (control_flow_stack s) (switch_plain env op) any -> passes s ((switch_plain env op;; mret None) s) resumes) as H.
  { intros Hm. eapply passes_bind; [done | exact Hm |]. intros _ s' Hw' _ _ _ _. split; [done | by intros _]. }
  destruct op; try done; by apply H.
Qed.

(** A case that opens a block. *)
Lemma passes_block_case s op b (begin : list value_type -> M unit) :
  wf s -> (0 < code_curr s)%nat -> code env !! pred (code_curr s) = Some b -> 2 <= b <= 4 ->
  op = (res ← parse_block_type env; begin res) -> (forall res s', wf s' -> passes s' (begin res s') (fun _ s' => wf s')) ->
  passes s ((op;; mret None) s) (fun (r : option compiled_func) s' => resumes r s').
Proof using Hbytes.
  intros Hw Hp Hb Hr -> Hbegin. eapply passes_then.
  - eapply passes_ends; [done | eapply (ends_block_type (label_count s)); [apply Hw | done | done | done | exact Hb | done] |].
    intros res s' Hw' _ _ _ _. by apply Hbegin.
  - intros [] s' Hw'. split; [done | by intros _].
Qed.

(** One iteration consumes a byte. *)
Lemma step_safe s : wf s ->
  match translate_one_opcode env s with
  | Done (r, s') => (r = None -> wf s' /\ (code_curr s < code_curr s')%nat) /\ (code_curr s < code_end)%nat
  | Thrown e => allowed e
  | Undefined | OutOfFuel => False
  end.
Proof using Hbytes.
  intros Hw. pose proof Hw as ([H1 Hp] & H2 & H3). unfold translate_one_opcode. rewrite bind_get.
  destruct (Nat.eqb_spec (code_curr s) code_end) as [| Hne]; [done |]. unfold sm_when. rewrite bind_ret.
  destruct (lookup_lt_is_Some_2 (code env) (code_curr s) ltac:(lia)) as [b Hb]. rewrite Hb, bind_some, bind_modify.
  set (s1 := set_code_curr (S (code_curr s)) s). assert (wf s1) as Hw1 by (split_and!; [split; [exact H1 | cbn; lia] | exact H2 | exact H3]).
  assert (forall r : outcome failure (option compiled_func * tstate), passes s1 r resumes ->
    match r with Done (r, s') => (r = None -> wf s' /\ (code_curr s < code_curr s')%nat) /\ (code_curr s < code_end)%nat
    | Thrown e => allowed e | Undefined | OutOfFuel => False end) as Hres.
  { intros [[r s'] | | |]; try done. intros [Hc Hr]. split; [| lia]. intros Hn. split; [by apply Hr | cbn in Hc; lia]. }
  apply Hres. clear Hres. unfold switch_opbase. destruct (wasm1_code.of_byte b) as [op |] eqn:Hop.
  2: { destruct (later_release b) eqn:Hl; [| done]. intros _. exists (code_curr s), b. split; [done |]. left. unfold unmodelled_opcode. by rewrite Hl, orb_true_r. }
  apply wasm1_code.of_byte_Some in Hop as ->. pose proof (passes_plain s1 op (code_curr s) Hw1 Hb) as Hplain.
  destruct op; try exact Hplain.
  - eapply passes_block_case; [done | cbn; lia | exact Hb | cbn; lia | reflexivity | intros; by apply passes_begin_block].
  - eapply passes_block_case; [done | cbn; lia | exact Hb | cbn; lia | reflexivity | intros; by apply passes_begin_loop].
  - eapply passes_block_case; [done | cbn; lia | exact Hb | cbn; lia | reflexivity | intros; by apply passes_begin_if].
  - eapply passes_then; [by apply passes_else |]. intros [] s' Hw'. split; [done | by intros _].
  - by apply passes_end.
Qed.

Lemma loop_safe fuel s : wf s -> (code_end - code_curr s < fuel)%nat ->
  match translate_loop env fuel s with Done _ => True | Thrown e => allowed e | Undefined | OutOfFuel => False end.
Proof using Hbytes.
  revert s. induction fuel as [| fuel IH]; intros s Hw Hl; [lia |]. pose proof (step_safe s Hw) as Hs. cbn [translate_loop].
  unfold mbind, sm_bind. destruct (translate_one_opcode env s) as [[[f |] s'] | | |]; try done. destruct Hs as [Hs Hc]. destruct (Hs eq_refl). apply IH; [done | lia].
Qed.

Lemma initial_wf : wf (initial_state env).
Proof using.
  split_and!; [split; [constructor | cbn; lia] | | by exists [], (Block (results env) (results env) 0 block_type.function false None (Some 0%nat) None)].
  constructor; [| done]. split; cbn; [by eexists | done | done |]. unfold below. split_and!; intros i [= <-]. lia.
Qed.
End Safe.
