(* ===== verification/TranslatorTheorems.v ===== *)
(** * Theorems about the translator

    From the bytes that the validator accepts to the frame in which their translation runs. *)

From stdpp Require Import base list numbers.
From Stdlib Require Import ZArith Lia.
From S2P Require Import Prelude Leb128 IeeeBits IntegerSpec WasmTypes NumericOps LinearMemory Interpreter WasmSpec Validator.
From S2P Require Import ModuleInterface ValidationError MachineTyping ValidatorCorrect FlatWasm FlatTyping WasmExec FlatLayout InterpreterRep.
From S2P Require Import ValidatorTheorems InterpreterTheorems TranslatorState Translator TranslatorPlain TranslatorCorrect TranslatorJumps TranslatorFunction Frame.
From S2P Require Import Fetch TranslatorSafe.
Open Scope Z_scope.

Lemma local_function_unique m function_index ft locals ft' locals' :
  local_function m function_index ft locals -> local_function m function_index ft' locals' -> ft' = ft /\ locals' = locals.
Proof.
  intros (i & ti & -> & H1 & H2 & H3) (j & tj & Hj & H4 & H5 & H6). assert (j = i) as -> by lia.
  rewrite H1 in H4. injection H4 as ->. by simplify_eq.
Qed.

(** What the validator accepts is the encoding of a typed body. *)
Lemma accepted_typed m function_index code ft locals es :
  ModuleOk m -> code_bytes code -> local_function m function_index ft locals ->
  validate_code m function_index code = Done tt -> expr_bytes es code ->
  instrs_typing (func_context m ft locals) es [] (rev (WasmTypes.result ft)).
Proof.
  intros Hm Hc Hl Hv Hes. destruct (validate_code_cases m function_index code Hc) as [(ft' & locals' & _ & Hl' & Ha) | (e & He & _)]; [| congruence].
  destruct (local_function_unique _ _ _ _ _ _ Hl Hl') as [-> ->]. destruct Hc as [Hb _].
  apply (maccepts_sound code (func_context m ft locals) Hb) in Ha as (es' & Hes' & Hty). by rewrite (expr_unique code Hb _ _ Hes' Hes).
Qed.

(** The bytes of the frame of a translated function. *)
Lemma frame_sizes env I gt pss grow C : env_fits env I gt pss grow C -> size_bytes (local_types env) + 16 <= local_bytes_max env.
Proof. intros H. pose proof (fits_temps _ _ _ _ _ _ H). unfold local_bytes_max, locals_end, size_bytes, valtype_size in *. lia. Qed.

(** ** An example *)

(** The sum of the numbers up to an argument. The branch out of the loop drops the 9, in a
    thunk: [block (result i32) loop (result i32) i32.const 9; local.get 1; local.get 0; i32.eqz;
    br_if 1; drop; drop; local.get 1; local.get 0; i32.add; local.set 1; local.get 0;
    i32.const 1; i32.sub; local.set 0; br 0 end end; end]. *)
Definition sum_bytes : list Z :=
  [2; 127; 3; 127; 65; 9; 32; 1; 32; 0; 69; 13; 1; 26; 26; 32; 1; 32; 0; 106; 33; 1; 32; 0; 65; 1; 107; 33; 0; 12; 0; 11; 11; 11].

Definition sum_loop : list WasmSpec.instr :=
  [II32Const 9; ILocalGet 1; ILocalGet 0; INumeric 69; IBrIf 1; IDrop; IDrop; ILocalGet 1; ILocalGet 0; INumeric 106; ILocalSet 1;
   ILocalGet 0; II32Const 1; INumeric 107; ILocalSet 0; IBr 0].
Definition sum_es : list WasmSpec.instr := [IBlock [i32] [ILoop [i32] sum_loop]].

Lemma cons_bytes e es bs1 bs2 bs : instr_bytes e bs1 -> instrs_bytes es bs2 -> bs1 ++ bs2 = bs -> instrs_bytes (e :: es) bs.
Proof. intros H1 H2 <-. by constructor. Qed.

Lemma sum_expr : expr_bytes sum_es sum_bytes.
Proof.
  exists (take 33 sum_bytes). split; [| done].
  apply (cons_bytes _ _ (take 33 sum_bytes) []); [| constructor | done].
  apply (B_block 127 [i32] _ (take 30 (drop 2 sum_bytes))); [done |].
  apply (cons_bytes _ _ (take 30 (drop 2 sum_bytes)) []); [| constructor | done].
  apply (B_loop 127 [i32] _ (take 27 (drop 4 sum_bytes))); [done |]. unfold sum_loop.
  repeat (eapply cons_bytes; [constructor; constructor; first [done | constructor; lia] | |]); [constructor | reflexivity..].
Qed.

Lemma sum_covered : covered false sum_es.
Proof. apply covered_block; [| constructor]. apply covered_loop; [| constructor]. unfold sum_loop. repeat (apply covered_plain; [done |]). constructor. Qed.

Definition sum_env : tenv :=
  TEnv sum_bytes [i32] 2 [i32; i32; f64; f64; i32] 1 [(i64, false, 0%nat); (f32, true, 1%nat)]
    (Some (0%nat, max_limit_from_limits None)) true false.
Definition sum_instance : instance := Instance [0; 1]%nat 0 size_t_max 1.
Definition sum_globals : list val := [(i64, 7); (f32, 0)].
Definition sum_machine : machine := Machine None [] [] (enc <$> sum_globals) [small_memory].

Lemma sum_fits : env_fits sum_env sum_instance [i64; f32] [16] false (func_context sample (FunctionType [i32; i32] [i32]) [LocalEntry 2 f64; LocalEntry 1 i32]).
Proof.
  constructor; cbn; try done.
  - intros [| [| x]] g [= <-]; by eexists.
  - unfold sum_bytes, is_byte. repeat constructor; lia.
Qed.


(** ** The translator on any bytes *)



(** ** Translation and execution *)

(** C3: The compiler is correct, end to end. A function body without calls and float
    arithmetic that the validator accepts is translated without an error, and a call of the
    result does what WebAssembly says, for any arguments and globals, any memories of at most
    2^32 bytes and any contents of the frame beforehand. One side condition is on the limit of the
    memory: if the body may contain [memory.grow] ([grow]), it is at most 2^32 bytes, which
    excludes the [SIZE_MAX] of a memory that declares no maximum; a body without [memory.grow] may
    use a memory with any limit. Then if the call returns, the structured body returns, with
    the bytes of its results on the operands of the caller and its globals and memories; if it
    ends with a fault, the body has that fault; and if it is still running, the body has run for
    a number of steps that grows with the rounds of the interpreter. The operands stay within
    the region whose size the translator computed, a local is cleared or set before it is read,
    and the checks around the call never fail. *)
Theorem validated_function_runs md function_index ft locals env I gt mems grow A strict multi es :
  ModuleOk md -> code_bytes (code env) -> local_function md function_index ft locals ->
  validate_code md function_index (code env) = Done tt -> expr_bytes es (code env) -> covered grow es ->
  env_fits env I gt (snd <$> mems) grow (func_context md ft locals) -> param_count env = length (parameter ft) ->
  AllocatorLaws A ->
  exists f, translate_function env = Done f /\
    forall args globs caller unset m fuel,
      fst <$> args = parameter ft -> Forall val_ok args ->
      fst <$> globs = gt -> Forall2 global_rep globs (Interpreter.globals m) -> Forall2 mem_rep mems (memories m) ->
      Forall byte_ok unset -> zlen unset = cf_local_bytes_max f ->
      call_outcome f I (local_types env) (WasmTypes.result ft) (length (parameter ft)) es args globs mems caller
        (execute_compiled_defined_once f A strict multi fuel (size_bytes (parameter ft)) (size_bytes (WasmTypes.result ft))
           (caller ++ vars_bytes args) unset m) fuel.
Proof.
  intros Hm Hc Hl Hv Hes Hcov Hfits Hnp HA. pose proof (accepted_typed _ _ _ _ _ _ Hm Hc Hl Hv Hes) as Hty.
  assert (results env = WasmTypes.result ft) as Hres by (symmetry; apply (fits_return _ _ _ _ _ _ Hfits)).
  pose proof (fits_results _ _ _ _ _ _ Hfits) as Hrt. pose proof (short_rev _ Hrt) as Hrev.
  assert (take (length (parameter ft)) (local_types env) = parameter ft) as Hpar.
  { rewrite <- (fits_locals _ _ _ _ _ _ Hfits). apply take_app_length. }
  destruct (function_laid env I gt _ _ grow Hfits ltac:(cbn; by rewrite Hres) es Hes ltac:(by rewrite Hres) Hcov)
    as (f & prog & Hf & Hcode & Hinstr & Hlaid & Hmax & Hcap & Hend). exists f. split; [done |].
  intros args globs caller unset m fuel Hargs Hok Hg1 Hg Hms Hu Hul. rewrite Hrev, length_fmap in Hlaid.
  unfold TranslatorFunction.param_bytes in Hend. rewrite Hnp in Hend.
  pose proof (frame_sizes _ _ _ _ _ _ Hfits) as Hsz. rewrite <- Hmax in Hsz.
  rewrite <- Hres. rewrite <- Hpar at 2.
  apply (frame_runs f I (local_types env) gt (results env) prog); try done.
  - apply (fits_arity _ _ _ _ _ _ Hfits).
  - by rewrite Hpar.
Qed.


(** The translation of the example, and a call for the numbers up to 5, with a frame full of
    bytes that are not zero. *)
Definition sum_function : compiled_func :=
  Eval vm_compute in match translate_function sum_env with Done f => f | _ => CompiledFunc [] 0 0 0 0 end.
Definition sum_args : list val := [(i32, 5); (i32, 0)].
Definition sum_run : outcome halt (list Z * machine) :=
  execute_compiled_defined_once sum_function plain_allocator false true 100 8 4 ([] ++ vars_bytes sum_args) (replicate 44 255) sum_machine.

Lemma validated_function_runs_witness :
  translate_function sum_env = Done sum_function /\
  match sum_run with
  | Done (bytes, m) => bytes = [15; 0; 0; 0] /\
      call_outcome sum_function sum_instance (local_types sum_env) [i32] 2 sum_es sum_args sum_globals [(small_bytes, 16)] [] (Done (bytes, m)) 100
  | _ => False
  end.
Proof.
  destruct (validated_function_runs sample 1 (FunctionType [i32; i32] [i32]) [LocalEntry 2 f64; LocalEntry 1 i32] sum_env sum_instance [i64; f32]
    [(small_bytes, 16)] false plain_allocator false true sum_es) as (f & Hf & H).
  - exact sample_ok.
  - split; [apply (fits_code _ _ _ _ _ _ sum_fits) | reflexivity].
  - exact sample_local_function.
  - vm_compute. reflexivity.
  - exact sum_expr.
  - exact sum_covered.
  - exact sum_fits.
  - reflexivity.
  - exact plain_allocator_laws.
  - assert (translate_function sum_env = Done sum_function) as E by (vm_compute; reflexivity). split; [exact E |].
    rewrite E in Hf. injection Hf as <-.
    assert (call_outcome sum_function sum_instance (local_types sum_env) [i32] 2 sum_es sum_args sum_globals [(small_bytes, 16)] [] sum_run 100) as Hrun.
    { apply (H sum_args sum_globals []).
      + reflexivity.
      + repeat constructor; done.
      + reflexivity.
      + apply globals_rep. repeat constructor; done.
      + constructor; [exact small_memory_rep | constructor].
      + apply Forall_replicate. unfold byte_ok. lia.
      + reflexivity. }
    assert (exists m, sum_run = Done ([15; 0; 0; 0], m)) as [m Er] by (eexists; vm_compute; reflexivity).
    rewrite Er in *. split; [reflexivity | exact Hrun].
Defined.
